(* ===== verification/_CoqProject ===== *)
-Q . S2P
Prelude.v
RustStd.v
Config.v
Http.v
Router.v
LoadBalancer.v
Proxy.v
StaticFiles.v
Listener.v
Token.v
Resolver.v
Master.v
Runtime.v
Ssl.v
Handler.v
Connection.v
Readiness.v
ReadinessInv.v
ReadinessLoop.v
Script.v
ReadinessIO.v
ReadinessFrame.v
ReadinessSockets.v
ReadinessRelay.v
ReadinessSession.v
ReadinessProps.v
Operation.v
BufferRing.v
UringConnection.v
Uring.v
UringInv.v
UringScript.v
UringLoop.v
UringProps.v
UringFrame.v
UringIO.v
UringExchange.v
Startup.v
Process.v
Collect.v
Agreement.v
