(* ===== verification/Prelude.v ===== *)
(** * Thwip: a verification development

    Thwip is an HTTP/1.x server and reverse proxy. A master process forks one worker per
    CPU slot and restarts the ones that fail; a worker binds the listeners of the
    configuration and runs one of two event loops, one driven by readiness (epoll, kqueue),
    one by the completions of io_uring. Both collect requests, route them, and answer with
    a fixed response, a file or the response of an upstream.

    ** The parts, and the files that model them

    Sources are relative to [src/]. A definition bears the name of the Rust item it
    translates; a piece of a function that has a definition of its own is named after what
    it computes.

    - [Prelude.v]: results, tactics and list lemmas; [RustStd.v]: the language and the
      standard library as far as they are used (machine integers are [N] with their width
      written out, byte strings are lists of bytes).
    - [Config.v] (crates/core/src/runtime/config.rs): the configuration, its defaults, the
      validators that serde runs, [Config::validate].
    - [Http.v] (run/slave/src/http.rs): the incremental parser of request heads and the
      framing of bodies. [Router.v] (router.rs): matching, virtual hosts, response bytes.
      [LoadBalancer.v] (load_balancer.rs): upstream selection. [Proxy.v] (proxy.rs): upstream
      URLs and forwarded requests. [StaticFiles.v] (static_files.rs): from a target to a
      file below a root, ranges, and the thread that streams a file.
    - [Listener.v] (listener.rs): grouping servers by address, binding. [Ssl.v] (ssl.rs):
      loading TLS configurations. [Runtime.v] (runtime/mod.rs): limits, metrics, the choice
      of a runtime, the shutdown handle. [Master.v] (run/master/src/main.rs): supervision.
      [Startup.v] (startup.rs, runtime/epoll.rs, main.rs): the composition of all of them,
      from the configuration file to the first iteration of the loop. [Process.v] (main.rs,
      startup.rs, and [run] of both runtimes): [main], both sides of a fork, the life of a
      worker until its loop returns, fails or panics, and the exit status the master sees.
    - [Resolver.v] (runtime/readiness/resolver.rs, runtime/io_uring/resolver.rs): the threads
      that look names up.
    - [Handler.v]: the monad both event loops are written in. A handler acts on the worker's
      state and on the world, and returns, fails with an error that [?] propagates out of
      [run], or panics; [wp] is its weakest precondition, with one postcondition for a return
      and one for an error, and false for a panic.
    - The readiness runtime (runtime/readiness/): [Token.v] (token.rs), [Connection.v]
      (connection.rs, proxy.rs), [Readiness.v] (worker.rs: every handler, [tick] being an
      iteration of [run]). [ReadinessInv.v] has the invariant and a specification of every
      handler of one connection, [ReadinessLoop.v] those of the operations on many, the loop
      and the reachable states, [ReadinessIO.v] and [ReadinessRelay.v] the bytes on the wire
      of one connection, [ReadinessFrame.v] an interface for what every handler leaves alone
      of the other connections ([Framed], [Admits]) and from it of the whole loop,
      [ReadinessSockets.v] and [ReadinessSession.v] its two clients: who owns a socket, and
      a relay as seen from the loop. [ReadinessProps.v] has the other properties, [Script.v]
      concrete worlds for the witnesses.
    - The io_uring runtime (runtime/io_uring/): [Operation.v] (operation.rs), [BufferRing.v]
      (buffer_ring.rs), [UringConnection.v] (connection.rs, listener.rs, capabilities.rs),
      [Uring.v] (worker.rs, and [probe] of mod.rs: every handler; [start], [before_wait] and
      [after_wait] are the parts of [run]; system calls answer a descriptor or a negative
      number with [errno], from which [create_eventfd] and the like make their results).
      [UringInv.v], [UringLoop.v], [UringProps.v] and [UringScript.v] play the same roles as
      for the readiness runtime; [UringFrame.v] shows what a completion leaves alone,
      [UringIO.v] has the bytes the kernel moves for a response, and [UringExchange.v] those
      of a proxied exchange from the request on.
    - [Collect.v] specifies what a worker decides when bytes arrive; [Agreement.v] shows that
      both runtimes decide it, and that they give the same configured responses.

    ** State and environment

    A worker's struct is a record; its [Slab] of connections is a finite map from slots,
    with the key of a vacant entry chosen by the environment; a [HashSet] is a finite set
    whose drain order the environment chooses. Sockets, TLS sessions, TLS configurations and
    file streams are opaque; what rustls, mio, the system and the resolver answer comes from
    the classes [Connection.Env] and [UringEnv], which read and change a world, so that no
    answer is assumed to repeat. [EnvOk] and [UringEnvOk] hold the few documented facts the
    worker relies on (a read never exceeds its buffer, a vacant slot is vacant, a drain
    yields every element); [Wire] reads off the world the bytes that went through each
    socket. A loop that retries on [Interrupted] takes the successive answers
    from the environment as a list, so it needs no fuel; the loops that a constant bounds
    (16 reads or writes for an event) recurse on that bound. File systems are snapshots:
    what a path resolves to does not change between two calls of one request, so races with
    a process that edits the served tree are outside the model.

    For io_uring the world also holds the entries in flight. The kernel is a relation
    ([UringInv.serves]): it completes any entry in flight, with any result that the
    operation allows ([admissible]), more than once for a multishot accept, and hands over
    any buffer it holds. A descriptor is its number, and the buffer a send reads from is the
    list of bytes it had when it was submitted; [kernel_memory_is_owned] relates it to the
    connection's own buffer for as long as the entry is in flight.

    ** What is shown

    - Panics: neither loop panics in any reachable state ([worker_never_panics],
      [uring_worker_never_panics]), starting from any configuration the program accepts
      ([configured_worker_never_panics]); over io_uring this is for servers without TLS, and
      [tls_flight_before_upstream_panics] shows why.
    - Memory and identity: [kernel_memory_is_owned] (without TLS), [buffer_ring_refines_pool],
      [slot_reuse_keeps_stale], [connections_isolated], [uring_stale_completion_ignored],
      [sockets_are_owned_once], [events_isolated], and the round trips of tokens and
      operation identifiers.
    - Bytes: requests are assembled and responses delivered in order and without loss,
      a loop of reads or writes stopping only for the reasons it should
      ([request_assembled], [response_delivered], [uring_response_delivered]); whatever
      the loop does with other connections, so is a proxied exchange, from the request to the end of the response
      ([readiness_exchange], [uring_exchange]);
      parsing does not depend on fragmentation; what is forwarded parses back to the intended
      request, with its framing ([forwarded_framing]); a failed upstream is answered once
      ([proxy_failure_answered]); a file stream delivers exactly its range; both runtimes
      collect requests alike and give the same configured responses.
    - Routing: [route_correct], [resolve_static_path_contained] (no request leaves the root),
      [round_is_fair], [listener_speaks_tls_as_its_first_server].
    - Progress and shutdown: [every_connection_waits], [drain_finishes],
      [uring_drain_finishes], [shutdown_reaches_eventfd], [shutdown_terminates],
      [supervise_invariant], [resolver_answers_once], [resolver_settles]; the exit status of
      a worker decides what the master does ([restart_follows_exit]), and a graceful stop of
      either runtime is not undone ([graceful_stop_is_final]).
    - Configuration: [from_toml_well_formed].

    Some theorems state what the code does where it does not do what it should
    ([tls_flight_then_close_notify], [tls_flight_before_upstream_panics],
    [tls_end_frees_sent_buffer], [supervise_spins], [fork_failure_abandons],
    [shutdown_closes_resting], [listener_speaks_tls_as_its_first_server]).

    ** Not modelled, and why

    - The TOML grammar, rustls, mio, io_uring and the system calls: not under [src/]. They
      are parameters.
    - Closing of descriptors and [Drop], log and print statements, error messages (an
      [io::Error] is its kind): they do not influence the state.
    - The overflow checks of debug builds: arithmetic on lengths is on sizes of buffers that
      exist, so it cannot overflow where the code does not check it; where the code checks
      or wraps, so does the model.
    - [submit_and_wait] failing: it ends [run] with its error ([Process.uring_wait_fails]),
      so the reachable states of the io_uring worker are those in which it has succeeded.
    - A process that a signal kills in the middle of an operation: the master sees it
      ([Master.Signaled]), but no theorem is about what it leaves behind.
    - The builds for systems other than Linux ([pin_to_cpu], [select_auto_runtime] and the
      kqueue runtime there; the readiness worker itself is shared).
    - Test modules and re-exports. *)

From Stdlib Require Export NArith ZArith Lia Strings.Byte.
From stdpp Require Export prelude strings gmap.

#[export] Set Warnings "-clear-no-such-hyp".

(** ** Result: Rust's [Result<T, E>] *)

Inductive result (E A : Type) : Type :=
| Ok (a : A)
| Err (e : E).

Arguments Ok {E A} a.
Arguments Err {E A} e.

#[export] Instance result_ret E : MRet (result E) := fun A a => Ok a.

#[export] Instance result_bind E : MBind (result E) :=
  fun A B f m => match m with Ok a => f a | Err e => Err e end.

#[export] Instance result_fmap E : FMap (result E) :=
  fun A B f m => match m with Ok a => Ok (f a) | Err e => Err e end.

#[export] Instance result_eq_dec E A `{EqDecision E, EqDecision A} :
  EqDecision (result E A).
Proof. solve_decision. Defined.

(** [Option::ok_or]. *)
Definition ok_or {E A} (o : option A) (e : E) : result E A :=
  match o with Some a => Ok a | None => Err e end.

(** [Result::map_err]. *)
Definition map_err {E F A} (f : E -> F) (r : result E A) : result F A :=
  match r with Ok a => Ok a | Err e => Err (f e) end.

(** [Option::transpose]. *)
Definition transpose {E A} (o : option (result E A)) : result E (option A) :=
  match o with
  | None => Ok None
  | Some (Ok a) => Ok (Some a)
  | Some (Err e) => Err e
  end.

(** [Iterator::collect::<Result<Vec<_>, _>>()]: the first error wins. *)
Fixpoint collect_results {E A} (l : list (result E A)) : result E (list A) :=
  match l with
  | [] => Ok []
  | r :: l => a ← r; rest ← collect_results l; Ok (a :: rest)
  end.

(** A [for] loop whose body may leave with [?]. *)
Fixpoint for_each {E A} (f : A -> result E unit) (l : list A) : result E unit :=
  match l with
  | [] => Ok tt
  | a :: l => _ ← f a; for_each f l
  end.

Definition is_ok {E A} (r : result E A) : bool :=
  match r with Ok _ => true | Err _ => false end.

#[export] Instance Ok_inj E A : Inj (=) (=) (@Ok E A).
Proof. by intros ?? [=]. Qed.

Lemma bind_ok {E A B} (m : result E A) (f : A -> result E B) b :
  (m ≫= f) = Ok b <-> exists a, m = Ok a /\ f a = Ok b.
Proof. destruct m; simpl; naive_solver. Qed.

Lemma ok_or_ok {E A} (o : option A) (e : E) a : ok_or o e = Ok a <-> o = Some a.
Proof. destruct o; simpl; naive_solver. Qed.

Lemma map_err_ok {E F A} (f : E -> F) (r : result E A) a : map_err f r = Ok a <-> r = Ok a.
Proof. destruct r; simpl; naive_solver. Qed.

Lemma for_each_ok {E A} (f : A -> result E unit) (l : list A) :
  for_each f l = Ok tt <-> Forall (fun a => f a = Ok tt) l.
Proof.
  induction l as [|a l IH]; simpl; [by split; auto|].
  rewrite Forall_cons_iff, <- IH. destruct (f a) as [[]|]; simpl; naive_solver.
Qed.

Lemma collect_results_ok {E A} (l : list (result E A)) (l' : list A) :
  collect_results l = Ok l' <-> l = Ok <$> l'.
Proof.
  revert l'. induction l as [|r l IH]; intros l'; simpl.
  - destruct l'; naive_solver.
  - destruct r as [a|e]; simpl; [|destruct l'; naive_solver].
    destruct (collect_results l) as [rest|e]; simpl.
    + specialize (IH rest) as [IH _]. rewrite IH by done.
      destruct l' as [|b l']; simpl; [naive_solver|]. split.
      * by intros [= <- <-].
      * intros [= <- Hl]. f_equal. f_equal.
        by apply (inj (fmap (M := list) Ok)) in Hl.
    + split; [done|]. destruct l' as [|b l']; simpl; [done|]. intros [= <- Hl].
      destruct (IH l') as [_ IH2]. by specialize (IH2 Hl).
Qed.

Lemma collect_fmap_Forall2 {E A B} (f : A -> result E B) l l' :
  collect_results (f <$> l) = Ok l' <-> Forall2 (fun a b => f a = Ok b) l l'.
Proof.
  rewrite collect_results_ok. revert l'.
  induction l as [|a l IH]; intros [|b l']; simpl; split; intros H; inv H;
    constructor || f_equal; try apply IH; auto.
Qed.

Lemma collect_fmap_Forall {E A B} (f : A -> result E B) (P : B -> Prop) l l' :
  (forall a b, f a = Ok b -> P b) ->
  collect_results (f <$> l) = Ok l' -> Forall P l'.
Proof.
  intros HP H%collect_fmap_Forall2. induction H; constructor; eauto.
Qed.

(** ** Lists: where the elements kept by [omap] come from *)

Lemma omap_take_S {A B} (f : A -> option B) l i x y :
  l !! i = Some x -> f x = Some y ->
  omap f (take (S i) l) = omap f (take i l) ++ [y].
Proof.
  intros Hx Hy. erewrite take_S_r by done. rewrite omap_app. simpl.
  by rewrite Hy.
Qed.

Lemma omap_lookup_fwd {A B} (f : A -> option B) l i x y :
  l !! i = Some x -> f x = Some y -> omap f l !! length (omap f (take i l)) = Some y.
Proof.
  intros Hx Hy. pose proof (f_equal (omap f) (take_drop (S i) l)) as E.
  rewrite omap_app, (omap_take_S f l i x y) in E by done. rewrite <- E.
  rewrite <- app_assoc. cbn [app]. by apply list_lookup_middle.
Qed.

Lemma omap_lookup_bwd {A B} (f : A -> option B) l m y :
  omap f l !! m = Some y ->
  exists i x, l !! i = Some x /\ f x = Some y /\ m = length (omap f (take i l)).
Proof.
  revert m. induction l as [|a l IH]; intros m H; [done|].
  cbn [omap list_omap] in H. destruct (f a) as [b|] eqn:E.
  - destruct m as [|m]; simplify_eq/=; [by exists 0, a|].
    destruct (IH m H) as (i & x & Hx & Hy & ->). exists (S i), x.
    split_and!; [done|done|]. simpl. by rewrite E.
  - destruct (IH m H) as (i & x & Hx & Hy & ->). exists (S i), x.
    split_and!; [done|done|]. simpl. by rewrite E.
Qed.

Lemma omap_take_lt {A B} (f : A -> option B) l i j x y :
  l !! i = Some x -> f x = Some y -> i < j ->
  length (omap f (take i l)) < length (omap f (take j l)).
Proof.
  intros Hx Hy Hij.
  replace (take j l) with (take (S i) l ++ take (j - S i) (drop (S i) l))
    by (rewrite take_take_drop; f_equal; lia).
  rewrite omap_app, (omap_take_S f l i x y), !length_app by done. simpl. lia.
Qed.

Lemma mjoin_cons {A} (l : list A) ls : mjoin (l :: ls) = l ++ mjoin ls.
Proof. done. Qed.

Lemma Forall_filter_1 {A} (P Q : A -> Prop) `{forall x, Decision (Q x)} l :
  Forall P l -> Forall P (filter Q l).
Proof.
  rewrite !Forall_forall. intros HP x [_ Hx]%list_elem_of_filter. auto.
Qed.

Lemma mjoin_app {A} (l k : list (list A)) : mjoin (l ++ k) = mjoin l ++ mjoin k.
Proof.
  induction l as [|x l IH]; [done|].
  by rewrite <- app_comm_cons, !mjoin_cons, IH, app_assoc.
Qed.

(** ** Tactics *)

(** Case analysis on every [match] and [if] of the goal or the hypotheses. *)
Ltac break_match :=
  match goal with
  | |- context [match ?x with _ => _ end] => destruct x eqn:?
  | H : context [match ?x with _ => _ end] |- _ => destruct x eqn:?
  end.

(** Invert a successful chain of [?]. *)
Ltac inv_ok :=
  repeat match goal with
  | H : (_ ≫= _) = Ok _ |- _ =>
      let a := fresh "a" in let Ha := fresh "Hok" in
      apply bind_ok in H; destruct H as (a & Ha & H)
  | H : ok_or _ _ = Ok _ |- _ => apply ok_or_ok in H
  | H : Ok _ = Ok _ |- _ => injection H; clear H; intros; subst
  | H : Err _ = Ok _ |- _ => discriminate H
  | H : Ok _ = Err _ |- _ => discriminate H
  end.
