(* ===== verification/RustStd.v ===== *)
(** * The parts of Rust's language and standard library the program uses

    Machine integers ([N] with the width written out), byte strings ([list
    byte]: a Rust [&str] is its UTF-8 encoding), the string methods the source
    calls, integer parsing and printing, and the kinds of [std::io::Error]. *)

From S2P Require Import Prelude.

Local Open Scope N_scope.

(** ** Machine integers

    The worker is a 64-bit process: [usize] is 64 bits wide. *)

Definition USIZE_BITS : N := 64.

Definition usize_max : N := 2 ^ USIZE_BITS - 1.

(** [uN::wrapping_add]. *)
Definition wrapping_add (w a b : N) : N := (a + b) mod 2 ^ w.

(** [uN::checked_add]. *)
Definition checked_add (w a b : N) : option N :=
  if a + b <? 2 ^ w then Some (a + b) else None.

(** [uN::saturating_add]. *)
Definition saturating_add (w a b : N) : N := N.min (a + b) (2 ^ w - 1).

(** [uN::saturating_sub]: [N.sub] truncates at zero. *)
Definition saturating_sub (a b : N) : N := a - b.

(** [usize::from(bool)]. *)
Definition from_bool (b : bool) : N := if b then 1 else 0.

(** ** [std::io::ErrorKind]

    An [io::Error] is modelled by its kind: messages only reach the log. *)
Inductive ErrorKind :=
| NotFound
| PermissionDenied
| WouldBlock
| Interrupted
| InvalidInput
| InvalidData
| WriteZero
| BrokenPipe
| Unsupported
| OutOfMemory
| UnexpectedEof
| OtherKind.

#[export] Instance ErrorKind_eq_dec : EqDecision ErrorKind.
Proof. solve_decision. Defined.

Abbreviation io_result := (result ErrorKind).

(** ** Bytes *)

Abbreviation bytes := (list byte).

#[export] Instance byte_eq_decision : EqDecision byte := byte_eq_dec.

#[export] Program Instance byte_countable : Countable byte :=
  inj_countable Byte.to_N Byte.of_N Byte.of_to_N.

(** String literals of the source. *)
Definition str (s : string) : bytes := String.list_byte_of_string s.

Arguments str !s / : assert.

Definition CR : byte := x0d.
Definition LF : byte := x0a.
Definition crlf : bytes := [CR; LF].

(** [Vec::len], [str::len], [slice::len]. *)
Definition len {A} (l : list A) : N := N.of_nat (length l).

(** [n as u8] for [n < 256]. *)
Definition byte_of (n : N) : byte :=
  match Byte.of_N n with Some b => b | None => x00 end.

Definition between (lo hi : N) (b : byte) : bool :=
  let n := Byte.to_N b in (lo <=? n) && (n <=? hi).

Definition is_ascii_digit : byte -> bool := between 48 57.
Definition is_ascii_uppercase : byte -> bool := between 65 90.
Definition is_ascii_lowercase : byte -> bool := between 97 122.
Definition is_ascii_alphanumeric (b : byte) : bool :=
  is_ascii_digit b || is_ascii_uppercase b || is_ascii_lowercase b.
Definition is_ascii_control (b : byte) : bool :=
  (Byte.to_N b <? 32) || (Byte.to_N b =? 127).

(** Space, tab, line feed, form feed and carriage return. *)
Definition is_ascii_whitespace (b : byte) : bool :=
  match b with x20 | x09 | x0a | x0c | x0d => true | _ => false end.

Definition to_lower (b : byte) : byte :=
  if is_ascii_uppercase b then byte_of (Byte.to_N b + 32) else b.

Definition to_ascii_lowercase (s : bytes) : bytes := to_lower <$> s.

Definition eq_ignore_ascii_case (a b : bytes) : bool :=
  bool_decide (to_ascii_lowercase a = to_ascii_lowercase b).

(** ** [std::str::from_utf8]: the well-formed byte sequences of UTF-8 *)

Definition is_continuation : byte -> bool := between 128 191.

Fixpoint utf8_valid (s : bytes) : bool :=
  match s with
  | [] => true
  | b0 :: s1 =>
    if between 0 127 b0 then utf8_valid s1
    else
      match s1 with
      | [] => false
      | b1 :: s2 =>
        if between 194 223 b0 then is_continuation b1 && utf8_valid s2
        else
          match s2 with
          | [] => false
          | b2 :: s3 =>
            if between 224 239 b0 then
              (if between 224 224 b0 then between 160 191 b1
               else if between 237 237 b0 then between 128 159 b1
               else is_continuation b1)
              && is_continuation b2 && utf8_valid s3
            else
              match s3 with
              | [] => false
              | b3 :: s4 =>
                between 240 244 b0
                && (if between 240 240 b0 then between 144 191 b1
                    else if between 244 244 b0 then between 128 143 b1
                    else is_continuation b1)
                && is_continuation b2 && is_continuation b3 && utf8_valid s4
              end
          end
      end
  end.

(** ** Searching and splitting *)

(** [str::starts_with]. *)
Fixpoint starts_with (s pre : bytes) {struct pre} : bool :=
  match pre, s with
  | [], _ => true
  | p :: pre', b :: s' => bool_decide (p = b) && starts_with s' pre'
  | _ :: _, [] => false
  end.

(** [str::strip_prefix]. *)
Definition strip_prefix (s pre : bytes) : option bytes :=
  if starts_with s pre then Some (drop (length pre) s) else None.

(** The index of the first occurrence of [pat]: [str::find], and
    [windows(n).position(|w| w == pat)] for a pattern of length [n]. *)
Fixpoint find_sub (pat s : bytes) : option nat :=
  if starts_with s pat then Some 0%nat
  else match s with [] => None | _ :: s' => S <$> find_sub pat s' end.

(** [str::contains(char)]. *)
Definition contains_char (s : bytes) (c : byte) : bool := bool_decide (c ∈ s).

(** [str::split_once(char)]. *)
Fixpoint split_once (s : bytes) (c : byte) : option (bytes * bytes) :=
  match s with
  | [] => None
  | b :: s' =>
    if decide (b = c) then Some ([], s')
    else match split_once s' c with
         | Some (x, y) => Some (b :: x, y)
         | None => None
         end
  end.

(** [str::rsplit_once(char)]. *)
Definition rsplit_once (s : bytes) (c : byte) : option (bytes * bytes) :=
  match split_once (reverse s) c with
  | Some (x, y) => Some (reverse y, reverse x)
  | None => None
  end.

(** [str::split(predicate)]. *)
Fixpoint split_by (p : byte -> bool) (s : bytes) : list bytes :=
  match s with
  | [] => [[]]
  | b :: s' =>
    if p b then [] :: split_by p s'
    else match split_by p s' with
         | [] => [[b]]
         | w :: ws => (b :: w) :: ws
         end
  end.

Definition split_char (s : bytes) (c : byte) : list bytes :=
  split_by (fun b => bool_decide (b = c)) s.

(** [str::split_ascii_whitespace]. *)
Definition split_ascii_whitespace (s : bytes) : list bytes :=
  filter (fun w => w <> []) (split_by is_ascii_whitespace s).

(** [str::split(&str)] for a non-empty pattern; [length s] iterations are
    enough, since every piece but the last consumes a pattern. *)
Fixpoint split_str_fuel (fuel : nat) (pat s : bytes) : list bytes :=
  match find_sub pat s with
  | None => [s]
  | Some i =>
    take i s ::
      match fuel with
      | O => []
      | S fuel' => split_str_fuel fuel' pat (drop (i + length pat) s)
      end
  end.

Definition split_str (pat s : bytes) : list bytes :=
  split_str_fuel (length s) pat s.

(** ** Trimming *)

Fixpoint drop_while (p : byte -> bool) (s : bytes) : bytes :=
  match s with
  | [] => []
  | b :: s' => if p b then drop_while p s' else s
  end.

(** [str::trim_end_matches(predicate)]. *)
Definition trim_end_by (p : byte -> bool) (s : bytes) : bytes :=
  reverse (drop_while p (reverse s)).

(** [str::trim_matches(predicate)]. *)
Definition trim_by (p : byte -> bool) (s : bytes) : bytes :=
  trim_end_by p (drop_while p s).

(** The UTF-8 encodings of the characters with the [White_Space] property,
    which [str::trim] removes. *)
Definition WHITE_SPACE : list bytes :=
  [ [x09]; [x0a]; [x0b]; [x0c]; [x0d]; [x20]; [xc2; x85]; [xc2; xa0];
    [xe1; x9a; x80];
    [xe2; x80; x80]; [xe2; x80; x81]; [xe2; x80; x82]; [xe2; x80; x83];
    [xe2; x80; x84]; [xe2; x80; x85]; [xe2; x80; x86]; [xe2; x80; x87];
    [xe2; x80; x88]; [xe2; x80; x89]; [xe2; x80; x8a]; [xe2; x80; xa8];
    [xe2; x80; xa9]; [xe2; x80; xaf]; [xe2; x81; x9f]; [xe3; x80; x80] ].

(** Strip one leading element of [encs]. *)
Fixpoint strip_one (encs : list bytes) (s : bytes) : option bytes :=
  match encs with
  | [] => None
  | e :: encs' =>
    match strip_prefix s e with Some r => Some r | None => strip_one encs' s end
  end.

(** Every iteration strips at least one byte: [length s] iterations do. *)
Fixpoint strip_all (fuel : nat) (encs : list bytes) (s : bytes) : bytes :=
  match fuel with
  | O => s
  | S fuel' =>
    match strip_one encs s with
    | Some r => strip_all fuel' encs r
    | None => s
    end
  end.

Definition trim_start (s : bytes) : bytes := strip_all (length s) WHITE_SPACE s.

(** On valid UTF-8 the last character's encoding is the only element of
    [WHITE_SPACE] that can be a suffix. *)
Definition trim_end (s : bytes) : bytes :=
  reverse (strip_all (length s) (reverse <$> WHITE_SPACE) (reverse s)).

(** [str::trim]. *)
Definition trim (s : bytes) : bytes := trim_end (trim_start s).

(** ** Printing and parsing integers *)

Definition digit_byte (d : N) : byte :=
  if d <? 10 then byte_of (48 + d) else byte_of (87 + d).

Fixpoint print_radix (radix : N) (fuel : nat) (n : N) (acc : bytes) : bytes :=
  match fuel with
  | O => acc
  | S fuel' =>
    let acc' := digit_byte (n mod radix) :: acc in
    if n / radix =? 0 then acc' else print_radix radix fuel' (n / radix) acc'
  end.

(** [format!("{n}")]. A number has no more digits than bits. *)
Definition dec (n : N) : bytes := print_radix 10 (S (N.size_nat n)) n [].

(** [format!("{n:x}")]. *)
Definition hex_lower (n : N) : bytes := print_radix 16 (S (N.size_nat n)) n [].

Definition digit_value (b : byte) : option N :=
  if is_ascii_digit b then Some (Byte.to_N b - 48) else None.

(** Accumulate decimal digits, failing on overflow of [w] bits. *)
Fixpoint parse_digits (w acc : N) (s : bytes) : option N :=
  match s with
  | [] => Some acc
  | b :: s' =>
    d ← digit_value b;
    let n := acc * 10 + d in
    if n <? 2 ^ w then parse_digits w n s' else None
  end.

(** [str::parse::<uN>()]: one leading [+] is accepted; an empty string, a lone
    sign, a non-digit and an overflow are errors. *)
Definition parse_uint (w : N) (s : bytes) : option N :=
  match s with
  | [] => None
  | b :: s' =>
    if decide (b = "+"%byte)
    then match s' with [] => None | _ => parse_digits w 0 s' end
    else parse_digits w 0 s
  end.

(** ** Lemmas: lengths and machine integers *)

Create Rewrite HintDb len.

Lemma len_nil {A} : len (@nil A) = 0.
Proof. done. Qed.

Lemma len_cons {A} (a : A) l : len (a :: l) = 1 + len l.
Proof. unfold len. simpl. lia. Qed.

Lemma len_app {A} (l k : list A) : len (l ++ k) = len l + len k.
Proof. unfold len. rewrite length_app. lia. Qed.

Lemma len_drop {A} n (l : list A) : len (drop n l) = len l - N.of_nat n.
Proof. unfold len. rewrite length_drop. lia. Qed.

Lemma len_take {A} n (l : list A) : len (take n l) = N.min (N.of_nat n) (len l).
Proof. unfold len. rewrite length_take. lia. Qed.

Lemma len_zero {A} (l : list A) : len l = 0 <-> l = [].
Proof. unfold len. destruct l; simpl; split; intros; (done || lia). Qed.

#[export] Hint Rewrite @len_nil @len_cons @len_app @len_drop @len_take : len.

Lemma checked_add_Some w a b c :
  checked_add w a b = Some c <-> c = a + b /\ a + b < 2 ^ w.
Proof.
  unfold checked_add. destruct (N.ltb_spec (a + b) (2 ^ w)); naive_solver lia.
Qed.

(** ** Lemmas: searching and splitting *)

Lemma starts_with_spec (s pre : bytes) :
  starts_with s pre = true <-> exists r, s = pre ++ r.
Proof.
  revert s. induction pre as [|p pre IH]; intros s; simpl.
  { split; [by exists s|done]. }
  destruct s as [|b s]; simpl.
  - split; [done|]. by intros [r ?].
  - rewrite andb_true_iff, bool_decide_eq_true, IH. naive_solver.
Qed.

Lemma starts_with_length (s pre : bytes) :
  starts_with s pre = true -> (length pre <= length s)%nat.
Proof. intros [r ->]%starts_with_spec. rewrite length_app. lia. Qed.

(** Whether a pattern matches does not depend on what follows it. *)
Lemma starts_with_app (s t pre : bytes) :
  (length pre <= length s)%nat -> starts_with (s ++ t) pre = starts_with s pre.
Proof.
  revert s. induction pre as [|p pre IH]; intros [|b s] Hl; simpl in *;
    [done|done|lia|]. by rewrite IH by lia.
Qed.

Lemma strip_prefix_Some (s pre r : bytes) :
  strip_prefix s pre = Some r <-> s = pre ++ r.
Proof.
  unfold strip_prefix. destruct (starts_with s pre) eqn:E.
  - apply starts_with_spec in E as [r' ->]. rewrite drop_app_length.
    split; [by intros [= ->]|]. by intros ->%app_inv_head.
  - split; [done|]. intros ->. exfalso.
    assert (starts_with (pre ++ r) pre = true) by (apply starts_with_spec; eauto).
    congruence.
Qed.

Lemma find_sub_Some (pat s : bytes) i :
  find_sub pat s = Some i <->
  starts_with (drop i s) pat = true /\ (i <= length s)%nat /\
  forall j, (j < i)%nat -> starts_with (drop j s) pat = false.
Proof.
  revert i. induction s as [|b s IH]; intros i.
  - simpl. destruct (starts_with [] pat) eqn:E.
    + split; [intros [= <-]; split_and!; auto with lia|].
      intros (_ & Hi & _). f_equal. simpl in Hi. lia.
    + split; [done|]. rewrite drop_nil. naive_solver congruence.
  - cbn [find_sub]. destruct (starts_with (b :: s) pat) eqn:E.
    + split; [intros [= <-]; split_and!; auto with lia|].
      intros (_ & _ & Hmin). destruct i as [|i]; [done|].
      specialize (Hmin 0%nat ltac:(lia)). simpl in Hmin. congruence.
    + rewrite fmap_Some. split.
      * intros (k & Hk & ->). apply IH in Hk as (H1 & H2 & H3).
        split_and!; simpl; [done|lia|]. intros [|j] Hj; simpl; [done|].
        apply H3. lia.
      * intros (H1 & H2 & H3). destruct i as [|i]; simpl in *; [congruence|].
        exists i. split; [|done]. apply IH. split_and!; [done|lia|].
        intros j Hj. apply (H3 (S j)). lia.
Qed.

Lemma find_sub_None (pat s : bytes) :
  find_sub pat s = None <-> forall j, starts_with (drop j s) pat = false.
Proof.
  induction s as [|b s IH]; cbn [find_sub].
  - destruct (starts_with [] pat) eqn:E; split; try done.
    + intros H. specialize (H 0%nat). simpl in H. congruence.
    + intros _ j. by rewrite drop_nil.
  - destruct (starts_with (b :: s) pat) eqn:E.
    + split; [done|]. intros H. specialize (H 0%nat). simpl in H. congruence.
    + rewrite fmap_None, IH. split; intros H; [intros [|j]|intros j]; simpl.
      * done.
      * apply H.
      * apply (H (S j)).
Qed.

Lemma find_sub_length (pat s : bytes) i :
  find_sub pat s = Some i -> (i + length pat <= length s)%nat.
Proof.
  intros (H & Hi & _)%find_sub_Some. apply starts_with_length in H.
  rewrite length_drop in H. lia.
Qed.

(** Appending bytes does not move the first occurrence. *)
Lemma find_sub_app (pat s t : bytes) i :
  find_sub pat s = Some i -> find_sub pat (s ++ t) = Some i.
Proof.
  intros Hf. pose proof (find_sub_length _ _ _ Hf) as Hl.
  apply find_sub_Some in Hf as (H1 & H2 & H3).
  assert (Hd : forall j, (j <= i)%nat ->
    starts_with (drop j (s ++ t)) pat = starts_with (drop j s) pat).
  { intros j Hj. rewrite drop_app_le by lia. apply starts_with_app.
    rewrite length_drop. lia. }
  apply find_sub_Some. split_and!.
  - by rewrite Hd.
  - rewrite length_app. lia.
  - intros j Hj. rewrite Hd by lia. auto.
Qed.

Lemma split_once_Some (s : bytes) c x y :
  split_once s c = Some (x, y) <-> s = x ++ c :: y /\ c ∉ x.
Proof.
  revert x. induction s as [|b s IH]; intros x; simpl.
  { split; [done|]. intros [H _]. by destruct x. }
  destruct (decide (b = c)) as [->|Hne].
  - split.
    + intros [= <- <-]. split; [done|]. apply not_elem_of_nil.
    + intros [H Hc]. destruct x as [|b' x]; simplify_eq/=; [done|].
      set_solver.
  - destruct (split_once s c) as [[x' y']|].
    + split.
      * intros [= <- <-]. destruct (IH x') as [[-> Hx'] _]; [done|].
        split; [done|]. set_solver.
      * intros [H Hc]. destruct x as [|b' x]; simplify_eq/=.
        destruct (IH x) as [_ H2].
        assert (Some (x', y') = Some (x, y)) by (apply H2; set_solver).
        by simplify_eq.
    + split; [done|]. intros [H Hc]. destruct x as [|b' x]; simplify_eq/=.
      destruct (IH x) as [_ H2].
      assert (None = Some (x, y)) by (apply H2; set_solver). done.
Qed.

Lemma split_once_None (s : bytes) c : split_once s c = None <-> c ∉ s.
Proof.
  split.
  - intros H Hin. apply list_elem_of_split in Hin as (l1 & l2 & ->).
    induction l1 as [|b l1 IH]; simpl in H; case_decide; try done.
    destruct (split_once _ c) as [[]|]; [done|]. auto.
  - intros Hin. destruct (split_once s c) as [[x y]|] eqn:E; [|done].
    apply split_once_Some in E as [-> _]. set_solver.
Qed.

Lemma split_once_app (x y : bytes) c :
  c ∉ x -> split_once (x ++ c :: y) c = Some (x, y).
Proof. intros H. by apply split_once_Some. Qed.

(** ** Lemmas: printing and parsing integers *)

(** Check a property of every number below a bound by computation. *)
Lemma check_below (k : nat) (P : N -> bool) :
  forallb (fun i => P (N.of_nat i)) (seq 0 k) = true ->
  forall n, n < N.of_nat k -> P n = true.
Proof.
  rewrite forallb_forall. intros H n Hn. rewrite <- (N2Nat.id n). apply H, in_seq. lia.
Qed.

Lemma byte_of_to_N n : n < 256 -> Byte.to_N (byte_of n) = n.
Proof.
  intros Hn. unfold byte_of. destruct (Byte.of_N n) eqn:E.
  - by apply Byte.to_of_N in E.
  - apply Byte.of_N_None_iff in E. lia.
Qed.

Lemma digit_value_byte d : d < 10 -> digit_value (digit_byte d) = Some d.
Proof.
  intros Hd. unfold digit_value, digit_byte, is_ascii_digit, between.
  rewrite (proj2 (N.ltb_lt d 10)) by done. rewrite byte_of_to_N by lia.
  rewrite (proj2 (N.leb_le 48 (48 + d))), (proj2 (N.leb_le (48 + d) 57)) by lia.
  simpl. f_equal. lia.
Qed.

Lemma print_radix_parse w fuel n acc :
  n < 2 ^ N.of_nat fuel -> n < 2 ^ w ->
  parse_digits w 0 (print_radix 10 (S fuel) n acc) = parse_digits w n acc.
Proof.
  revert n acc. induction fuel as [|fuel IH]; intros n acc Hf Hw.
  - simpl in Hf. assert (n = 0) as -> by lia.
    cbn [print_radix]. change (0 mod 10) with 0. change (0 / 10 =? 0) with true.
    cbn [parse_digits]. rewrite digit_value_byte by lia. cbn [mbind option_bind].
    change (0 * 10 + 0) with 0. by rewrite (proj2 (N.ltb_lt 0 (2 ^ w))).
  - remember (S fuel) as f eqn:Ef. cbn [print_radix]. subst f.
    pose proof (N.mod_upper_bound n 10 ltac:(done)) as Hm.
    pose proof (N.div_mod n 10 ltac:(done)) as Hdm.
    assert (Hstep : parse_digits w (n / 10) (digit_byte (n mod 10) :: acc)
                    = parse_digits w n acc).
    { cbn [parse_digits]. rewrite digit_value_byte by done. simpl.
      replace (n / 10 * 10 + n mod 10) with n by (rewrite Hdm at 1; ring).
      by rewrite (proj2 (N.ltb_lt n (2 ^ w))). }
    destruct (N.eqb_spec (n / 10) 0) as [H0|H0].
    + rewrite H0 in Hstep. done.
    + rewrite IH; [done| |].
      * apply N.Div0.div_lt_upper_bound.
        replace (N.of_nat (S fuel)) with (N.succ (N.of_nat fuel)) in Hf by lia.
        rewrite N.pow_succ_r' in Hf. lia.
      * apply N.Div0.div_lt_upper_bound. lia.
Qed.

Lemma print_radix_cons radix fuel n acc :
  exists d s, print_radix radix (S fuel) n acc = digit_byte d :: s.
Proof.
  revert n acc. induction fuel as [|fuel IH]; intros n acc.
  - cbn [print_radix]. destruct (n / radix =? 0); eauto.
  - cbn [print_radix]. destruct (n / radix =? 0); [eauto|]. apply IH.
Qed.

Lemma digit_byte_not_sign d c : digit_byte d = c -> c <> "+"%byte.
Proof.
  intros <-. unfold digit_byte. destruct (N.ltb_spec d 10) as [Hd|Hd].
  - intros H%(f_equal Byte.to_N). rewrite byte_of_to_N in H by lia.
    change (Byte.to_N "+"%byte) with 43 in H. lia.
  - unfold byte_of. destruct (Byte.of_N (87 + d)) eqn:E; [|done].
    apply Byte.to_of_N in E. intros ->. change (Byte.to_N "+"%byte) with 43 in E.
    lia.
Qed.

Lemma size_nat_gt n : n < 2 ^ N.of_nat (N.size_nat n).
Proof.
  replace (N.of_nat (N.size_nat n)) with (N.size n); [apply N.size_gt|].
  destruct n as [|p]; [done|]. simpl. induction p; simpl; lia.
Qed.

(** Printing then parsing a number that fits the width gives it back. *)
Lemma parse_uint_dec w n : n < 2 ^ w -> parse_uint w (dec n) = Some n.
Proof.
  intros Hn. unfold dec.
  pose proof (print_radix_parse w _ n [] (size_nat_gt n) Hn) as Hp.
  destruct (print_radix_cons 10 (N.size_nat n) n []) as (d & s & Hs).
  rewrite Hs in Hp |- *. unfold parse_uint.
  destruct (decide (digit_byte d = "+"%byte)) as [E|_]; [|done].
  by apply digit_byte_not_sign in E.
Qed.

Lemma dec_inj n m : dec n = dec m -> n = m.
Proof.
  intros H. set (w := N.size (N.max n m)).
  assert (Hw : forall k, k <= N.max n m -> k < 2 ^ w).
  { intros k Hk. pose proof (N.size_gt (N.max n m)). subst w. lia. }
  pose proof (parse_uint_dec w n (Hw n ltac:(lia))) as H1.
  pose proof (parse_uint_dec w m (Hw m ltac:(lia))) as H2. congruence.
Qed.

Lemma is_ascii_digit_byte d : d < 10 -> is_ascii_digit (digit_byte d) = true.
Proof.
  apply (check_below 10 (fun d => is_ascii_digit (digit_byte d))). by vm_compute.
Qed.

(** Decimal numbers consist of ASCII digits. *)
Lemma dec_digits n : Forall (fun b => is_ascii_digit b = true) (dec n).
Proof.
  unfold dec. generalize (S (N.size_nat n)). intros fuel.
  cut (forall acc, Forall (fun b => is_ascii_digit b = true) acc ->
         Forall (fun b => is_ascii_digit b = true) (print_radix 10 fuel n acc)); [auto|].
  revert n. induction fuel as [|f IH]; intros n acc H; [done|]. cbn [print_radix].
  assert (Forall (fun b => is_ascii_digit b = true) (digit_byte (n mod 10) :: acc)).
  { constructor; [|done]. by apply is_ascii_digit_byte, N.mod_lt. }
  destruct (n / 10 =? 0); auto.
Qed.

Lemma dec_avoids c n : is_ascii_digit c = false -> c ∉ dec n.
Proof.
  intros Hc Hin. pose proof (dec_digits n) as H. rewrite Forall_forall in H.
  specialize (H c Hin). simpl in H. congruence.
Qed.

Lemma parse_digits_bound w acc s n :
  acc < 2 ^ w -> parse_digits w acc s = Some n -> n < 2 ^ w.
Proof.
  revert acc. induction s as [|b s IH]; intros acc Ha; simpl; [naive_solver|].
  destruct (digit_value b) as [d|]; simpl; [|done].
  destruct (N.ltb_spec (acc * 10 + d) (2 ^ w)); [eauto|done].
Qed.

Lemma parse_uint_bound w s n : parse_uint w s = Some n -> n < 2 ^ w.
Proof.
  unfold parse_uint. assert (0 < 2 ^ w) by (apply N.neq_0_lt_0; by apply N.pow_nonzero).
  destruct s as [|b s]; [done|]. case_decide; [destruct s; [done|]|];
    by apply parse_digits_bound.
Qed.

(** ** Lemmas: ASCII case *)

Lemma to_lower_idemp b : to_lower (to_lower b) = to_lower b.
Proof. by destruct b. Qed.

Lemma to_ascii_lowercase_idemp s :
  to_ascii_lowercase (to_ascii_lowercase s) = to_ascii_lowercase s.
Proof.
  unfold to_ascii_lowercase. rewrite <- list_fmap_compose. apply list_fmap_ext.
  intros _ b _. apply to_lower_idemp.
Qed.

(** ** Lemmas: splitting on a predicate *)

Lemma split_by_not_nil p s : split_by p s <> [].
Proof.
  destruct s as [|b s]; simpl; [done|].
  destruct (p b); [done|]. by destruct (split_by p s).
Qed.

(** The pieces contain no separator. *)
Lemma split_by_pieces p s w :
  w ∈ split_by p s -> Forall (fun b => p b = false) w.
Proof.
  revert w. induction s as [|b s IH]; intros w; simpl.
  - rewrite list_elem_of_singleton. intros ->. constructor.
  - destruct (p b) eqn:E.
    + rewrite elem_of_cons. intros [->|Hw]; [constructor|auto].
    + destruct (split_by p s) as [|w' ws].
      * rewrite list_elem_of_singleton. intros ->. by repeat constructor.
      * rewrite elem_of_cons. intros [->|Hw].
        -- constructor; [done|]. apply IH. by left.
        -- apply IH. by right.
Qed.

(** The pieces are made of bytes of the string. *)
Lemma split_by_bytes p s w b : w ∈ split_by p s -> b ∈ w -> b ∈ s.
Proof.
  revert w. induction s as [|c s IH]; intros w; simpl.
  - rewrite list_elem_of_singleton. by intros ->.
  - destruct (p c) eqn:E.
    + rewrite elem_of_cons. intros [->|Hw] Hb; [by apply not_elem_of_nil in Hb|].
      right. eauto.
    + destruct (split_by p s) as [|w' ws].
      * rewrite list_elem_of_singleton. intros ->. set_solver.
      * rewrite elem_of_cons. intros [->|Hw] Hb.
        -- apply elem_of_cons in Hb as [->|Hb]; [by left|].
           right. apply (IH w'); [by left|done].
        -- right. apply (IH w); [by right|done].
Qed.

(** A separator-free string is one piece. *)
Lemma split_by_none p s :
  Forall (fun b => p b = false) s -> split_by p s = [s].
Proof. induction 1 as [|b s Hb Hs IH]; simpl; [done|]. by rewrite Hb, IH. Qed.

Lemma split_by_app_sep p x c s :
  Forall (fun b => p b = false) x -> p c = true ->
  split_by p (x ++ c :: s) = x :: split_by p s.
Proof.
  intros Hx Hc. induction Hx as [|b x Hb Hx IH]; simpl; [by rewrite Hc|].
  by rewrite Hb, IH.
Qed.

Lemma split_ascii_whitespace_word s w :
  w ∈ split_ascii_whitespace s ->
  w <> [] /\ Forall (fun b => is_ascii_whitespace b = false) w.
Proof.
  unfold split_ascii_whitespace. rewrite list_elem_of_filter.
  intros [Hne Hw]. split; [done|]. by eapply split_by_pieces.
Qed.

Lemma forallb_Forall {A} (p : A -> bool) l :
  forallb p l = true <-> Forall (fun a => p a = true) l.
Proof.
  induction l as [|a l IH]; simpl; [by split; auto|].
  by rewrite andb_true_iff, Forall_cons_iff, IH.
Qed.

Lemma existsb_false_Forall {A} (p : A -> bool) l :
  existsb p l = false <-> Forall (fun a => p a = false) l.
Proof.
  induction l as [|a l IH]; simpl; [by split; auto|].
  by rewrite orb_false_iff, Forall_cons_iff, IH.
Qed.

Lemma drop_while_suffix p s : exists t, s = t ++ drop_while p s.
Proof.
  induction s as [|b s [t IH]]; simpl; [by exists []|].
  destruct (p b); [exists (b :: t); simpl; by f_equal|by exists []].
Qed.

Lemma drop_while_head p s b r : drop_while p s = b :: r -> p b = false.
Proof.
  induction s as [|c s IH]; simpl; [done|]. destruct (p c) eqn:E; [auto|].
  by intros [= <- <-].
Qed.

Lemma drop_while_elem p s b : b ∈ drop_while p s -> b ∈ s.
Proof. destruct (drop_while_suffix p s) as [t Ht]. rewrite Ht at 2. set_solver. Qed.

Lemma trim_by_elem p s b : b ∈ trim_by p s -> b ∈ s.
Proof.
  unfold trim_by, trim_end_by. rewrite elem_of_reverse.
  intros ?%drop_while_elem. rewrite elem_of_reverse in H. by eapply drop_while_elem.
Qed.

(** Neither end of a string satisfies [p]. *)
Definition trimmed (p : byte -> bool) (s : bytes) : Prop :=
  (forall b r, s = b :: r -> p b = false) /\
  (forall b r, reverse s = b :: r -> p b = false).

Lemma drop_while_id p s : (forall b r, s = b :: r -> p b = false) -> drop_while p s = s.
Proof. destruct s as [|b s]; simpl; [done|]. intros H. by rewrite (H b s). Qed.

Lemma trim_by_id p s : trimmed p s -> trim_by p s = s.
Proof.
  intros [H1 H2]. unfold trim_by, trim_end_by.
  rewrite (drop_while_id p s) by done. rewrite drop_while_id by done.
  apply reverse_involutive.
Qed.

Lemma trim_by_trimmed p s : trimmed p (trim_by p s).
Proof.
  unfold trim_by, trim_end_by. set (u := drop_while p s). split.
  - intros b r Hb. destruct (drop_while_suffix p (reverse u)) as [t Ht].
    apply (f_equal reverse) in Ht. rewrite reverse_involutive, reverse_app, Hb in Ht.
    subst u. by apply drop_while_head in Ht.
  - intros b r. rewrite reverse_involutive. apply drop_while_head.
Qed.

(** ** Lines joined by CRLF *)

Lemma str_no_cr (s : bytes) : bool_decide (CR ∈ s) = false -> CR ∉ s.
Proof. apply bool_decide_eq_false. Qed.

Fixpoint join_lines (ls : list bytes) : bytes :=
  match ls with
  | [] => []
  | [l] => l
  | l :: ls => l ++ crlf ++ join_lines ls
  end.

(** A line that neither contains the separator's first byte nor is empty. *)
Definition line_ok (l : bytes) : Prop := (CR ∉ l) /\ l <> [].

Lemma starts_with_cons_ne c pat b s :
  b <> c -> starts_with (b :: s) (c :: pat) = false.
Proof. intros H. simpl. by rewrite bool_decide_eq_false_2. Qed.

(** Bytes other than the pattern's first one cannot start an occurrence. *)
Lemma find_sub_skip c pat l s :
  c ∉ l -> find_sub (c :: pat) (l ++ s) = Nat.add (length l) <$> find_sub (c :: pat) s.
Proof.
  induction l as [|b l IH]; intros Hc.
  - cbn [app length]. by destruct (find_sub (c :: pat) s).
  - apply not_elem_of_cons in Hc as [Hb Hl]. cbn [app find_sub].
    rewrite starts_with_cons_ne by congruence. rewrite IH by done.
    by destruct (find_sub (c :: pat) s).
Qed.

Lemma find_sub_here pat s : starts_with s pat = true -> find_sub pat s = Some 0%nat.
Proof. intros H. destruct s; simpl in *; by rewrite H. Qed.

Lemma find_sub_line l s : CR ∉ l -> find_sub crlf (l ++ crlf ++ s) = Some (length l).
Proof.
  intros H. unfold crlf at 1. rewrite find_sub_skip by done.
  rewrite find_sub_here by done. simpl. f_equal. lia.
Qed.

Lemma find_sub_absent c pat s : c ∉ s -> find_sub (c :: pat) s = None.
Proof. intros H. rewrite <- (app_nil_r s), find_sub_skip by done. done. Qed.

Lemma split_str_fuel_join ls fuel :
  ls <> [] -> Forall (fun l => CR ∉ l) ls -> (length (join_lines ls) <= fuel)%nat ->
  split_str_fuel fuel crlf (join_lines ls) = ls.
Proof.
  revert fuel. induction ls as [|l ls IH]; intros fuel Hne Hok Hf; [done|].
  apply Forall_cons_iff in Hok as [Hl Hls].
  destruct ls as [|l' ls].
  - simpl. assert (find_sub crlf l = None) as Hn by (by apply find_sub_absent).
    destruct fuel; simpl; by rewrite Hn.
  - change (join_lines (l :: l' :: ls)) with (l ++ crlf ++ join_lines (l' :: ls)) in *.
    set (s := join_lines (l' :: ls)) in *.
    assert (Hfs : find_sub crlf (l ++ crlf ++ s) = Some (length l))
      by (by apply find_sub_line).
    destruct fuel as [|fuel].
    { rewrite !length_app in Hf. simpl in Hf. lia. }
    cbn [split_str_fuel]. rewrite Hfs. rewrite take_app_length. f_equal.
    replace (drop (length l + length crlf) (l ++ crlf ++ s)) with s.
    + apply IH; [done|done|]. rewrite !length_app in Hf. simpl in Hf. lia.
    + by rewrite app_assoc, <- length_app, drop_app_length.
Qed.

(** Splitting joined lines gives the lines back. *)
Lemma split_str_join ls :
  ls <> [] -> Forall (fun l => CR ∉ l) ls -> split_str crlf (join_lines ls) = ls.
Proof. intros H1 H2. by apply split_str_fuel_join. Qed.

Lemma join_lines_head ls s :
  ls <> [] -> Forall line_ok ls ->
  exists b r, join_lines ls ++ s = b :: r /\ b <> CR.
Proof.
  intros Hne Hok. destruct ls as [|l ls]; [done|].
  apply Forall_cons_iff in Hok as [[Hl1 Hl2] _]. destruct l as [|b l]; [done|].
  assert (b <> CR) by (intros ->; apply Hl1; by left).
  destruct ls; simpl; eauto.
Qed.

(** The blank line that ends joined lines is the first one. *)
Lemma find_blank_line ls body :
  ls <> [] -> Forall line_ok ls ->
  find_sub (crlf ++ crlf) (join_lines ls ++ (crlf ++ crlf) ++ body) =
    Some (length (join_lines ls)).
Proof.
  induction ls as [|l ls IH]; intros Hne Hok; [done|].
  pose proof Hok as [[Hl1 Hl2] Hls]%Forall_cons_iff.
  destruct ls as [|l' ls].
  - simpl (join_lines [l]). change (crlf ++ crlf) with (CR :: [LF; CR; LF]).
    rewrite find_sub_skip by done. rewrite find_sub_here by done.
    simpl. f_equal. lia.
  - change (join_lines (l :: l' :: ls)) with (l ++ crlf ++ join_lines (l' :: ls)).
    specialize (IH ltac:(done) Hls).
    destruct (join_lines_head (l' :: ls) ((crlf ++ crlf) ++ body) ltac:(done) Hls)
      as (b & r & Hbr & Hb).
    set (s := join_lines (l' :: ls)) in *.
    change (crlf ++ crlf) with (CR :: [LF; CR; LF]) at 1.
    rewrite <- !app_assoc, find_sub_skip by done.
    change (CR :: [LF; CR; LF]) with (crlf ++ crlf).
    cbn [crlf app find_sub]. rewrite <- app_assoc in IH, Hbr.
    cbn [crlf app] in IH, Hbr |- *. rewrite Hbr in IH |- *.
    cbn [starts_with].
    assert (starts_with (b :: r) crlf = false) as ->
      by (by apply starts_with_cons_ne).
    rewrite (bool_decide_eq_false_2 (CR = LF)) by done.
    rewrite !andb_false_r, andb_false_l, IH. simpl. by rewrite length_app.
Qed.

(** ** UTF-8 *)

Lemma utf8_valid_ascii s : Forall (fun b => between 0 127 b = true) s -> utf8_valid s = true.
Proof. induction 1 as [|b s Hb _ IH]; simpl; [done|]. by rewrite Hb. Qed.

(** A complete prefix does not affect the validity of what follows. *)
Lemma utf8_valid_app x y :
  utf8_valid x = true -> utf8_valid (x ++ y) = utf8_valid y.
Proof.
  remember (length x) as n eqn:Hn. revert x Hn.
  induction (lt_wf n) as [n _ IH]; intros x -> Hx.
  destruct x as [|b0 x]; [done|]. cbn [app utf8_valid] in *.
  destruct (between 0 127 b0); [by apply (IH (length x)); simpl; auto with lia|].
  destruct x as [|b1 x]; [done|]. cbn [app] in *.
  destruct (between 194 223 b0).
  { apply andb_true_iff in Hx as [-> Hx]. simpl.
    apply (IH (length x)); simpl; auto with lia. }
  destruct x as [|b2 x]; [done|]. cbn [app] in *.
  destruct (between 224 239 b0).
  { apply andb_true_iff in Hx as [-> Hx]. simpl.
    apply (IH (length x)); simpl; auto with lia. }
  destruct x as [|b3 x]; [done|]. cbn [app] in *.
  apply andb_true_iff in Hx as [-> Hx]. simpl.
  apply (IH (length x)); simpl; auto with lia.
Qed.

Lemma between_ascii lo hi c :
  127 < lo -> between 0 127 c = true -> between lo hi c = false.
Proof.
  unfold between. intros Hlo [_ H%N.leb_le]%andb_true_iff.
  by rewrite (proj2 (N.leb_gt lo (Byte.to_N c))) by lia.
Qed.

(** An ASCII byte is never inside a character: cutting there is safe. *)
Lemma utf8_valid_cut x c y :
  between 0 127 c = true -> utf8_valid (x ++ c :: y) = true ->
  utf8_valid x = true /\ utf8_valid y = true.
Proof.
  intros Hc. remember (length x) as n eqn:Hn. revert x Hn.
  induction (lt_wf n) as [n _ IH]; intros x -> Hx.
  assert (Hcont : forall lo hi, 127 < lo -> between lo hi c = false)
    by (intros; by apply between_ascii).
  destruct x as [|b0 x]; cbn [app utf8_valid] in *.
  { by rewrite Hc in Hx. }
  destruct (between 0 127 b0).
  { by apply (IH (length x)); simpl; auto with lia. }
  destruct x as [|b1 x]; cbn [app] in *.
  { unfold is_continuation in Hx. exfalso. revert Hx.
    repeat case_match; rewrite ?Hcont by lia; rewrite ?andb_false_r; done. }
  destruct (between 194 223 b0).
  { apply andb_true_iff in Hx as [-> Hx]. simpl.
    apply (IH (length x)); simpl; auto with lia. }
  destruct x as [|b2 x]; cbn [app] in *.
  { unfold is_continuation in Hx. exfalso. revert Hx.
    repeat case_match; rewrite ?(Hcont 128) by lia; rewrite ?andb_false_r; done. }
  destruct (between 224 239 b0).
  { apply andb_true_iff in Hx as [-> Hx]. simpl.
    apply (IH (length x)); simpl; auto with lia. }
  destruct x as [|b3 x]; cbn [app] in *.
  { unfold is_continuation in Hx. exfalso. revert Hx.
    repeat case_match; rewrite ?(Hcont 128) by lia; rewrite ?andb_false_r; done. }
  apply andb_true_iff in Hx as [-> Hx]. simpl.
  apply (IH (length x)); simpl; auto with lia.
Qed.

Lemma utf8_valid_drop_ascii c x :
  between 0 127 c = true -> utf8_valid (c :: x) = utf8_valid x.
Proof. intros H. cbn [utf8_valid]. by rewrite H. Qed.

Lemma utf8_valid_join x y :
  utf8_valid x = true -> utf8_valid y = true -> utf8_valid (x ++ y) = true.
Proof. intros Hx Hy. by rewrite utf8_valid_app. Qed.

Definition is_ascii (b : byte) : bool := between 0 127 b.

Lemma drop_while_utf8 p s :
  (forall b, p b = true -> is_ascii b = true) ->
  utf8_valid s = true -> utf8_valid (drop_while p s) = true.
Proof.
  intros Hp. induction s as [|b s IH]; intros Hs; simpl; [done|].
  destruct (p b) eqn:E; [|done]. apply IH.
  by rewrite utf8_valid_drop_ascii in Hs by (apply Hp, E).
Qed.

Lemma trim_end_by_prefix p s :
  exists t, s = trim_end_by p s ++ t /\ Forall (fun b => p b = true) t.
Proof.
  unfold trim_end_by. assert (H : forall s, exists t, s = t ++ drop_while p s /\
    Forall (fun b => p b = true) t).
  { clear s. induction s as [|b s (t & E & Ht)]; simpl; [by exists []|].
    destruct (p b) eqn:Eb; [|by exists []].
    exists (b :: t). split; [simpl; by f_equal|by constructor]. }
  destruct (H (reverse s)) as (t & E & Ht). exists (reverse t). split.
  - apply (f_equal reverse) in E. by rewrite reverse_involutive, reverse_app in E.
  - by apply Forall_reverse.
Qed.

Lemma trim_end_by_utf8 p s :
  (forall b, p b = true -> is_ascii b = true) ->
  utf8_valid s = true -> utf8_valid (trim_end_by p s) = true.
Proof.
  intros Hp Hs. destruct (trim_end_by_prefix p s) as (t & E & Ht).
  destruct t as [|c t].
  - rewrite app_nil_r in E. by rewrite <- E.
  - apply Forall_cons_iff in Ht as [Hc _]. rewrite E in Hs.
    by apply (utf8_valid_cut _ c t) in Hs as [? _]; [|apply Hp].
Qed.

Lemma trim_by_utf8 p s :
  (forall b, p b = true -> is_ascii b = true) ->
  utf8_valid s = true -> utf8_valid (trim_by p s) = true.
Proof. intros Hp Hs. by apply trim_end_by_utf8, drop_while_utf8. Qed.

(** Splitting at ASCII bytes keeps the pieces valid. *)
Lemma split_by_utf8 p s w :
  (forall b, p b = true -> is_ascii b = true) ->
  utf8_valid s = true -> w ∈ split_by p s -> utf8_valid w = true.
Proof.
  intros Hp. remember (length s) as n eqn:Hn. revert s w Hn.
  induction (lt_wf n) as [n _ IH]; intros s w -> Hs Hw.
  destruct (list_find (fun b => p b = true) s) as [[i c]|] eqn:E.
  - apply list_find_Some in E as (Hi & Hc & Hmin).
    pose proof (take_drop_middle s i c Hi) as Es.
    rewrite <- Es in Hs, Hw. pose proof (Hp c Hc) as Ha.
    destruct (utf8_valid_cut _ _ _ Ha Hs) as [Hx Hy].
    rewrite split_by_app_sep in Hw; [| |done].
    2:{ apply Forall_lookup. intros j b [Hj Hlt]%lookup_take_Some.
        specialize (Hmin j b Hj Hlt). by destruct (p b). }
    + apply elem_of_cons in Hw as [->|Hw]; [done|].
      apply (IH (length (drop (S i) s))) with (s := drop (S i) s); [|done..].
      apply lookup_lt_Some in Hi. rewrite length_drop. lia.
  - apply list_find_None in E. rewrite split_by_none in Hw.
    + by apply list_elem_of_singleton in Hw as ->.
    + eapply Forall_impl; [exact E|]. intros b Hb. simpl in Hb. by destruct (p b).
Qed.

Lemma find_sub_split pat s i :
  find_sub pat s = Some i -> s = take i s ++ pat ++ drop (i + length pat) s.
Proof.
  intros (H & _ & _)%find_sub_Some. apply starts_with_spec in H as [r Hr].
  rewrite <- (take_drop i s) at 1. f_equal. rewrite <- drop_drop, Hr.
  by rewrite drop_app_length.
Qed.

Lemma split_str_fuel_utf8 fuel s l :
  utf8_valid s = true -> l ∈ split_str_fuel fuel crlf s -> utf8_valid l = true.
Proof.
  revert s. induction fuel as [|fuel IH]; intros s Hs Hl; cbn [split_str_fuel] in Hl;
    (destruct (find_sub crlf s) as [i|] eqn:E;
      [|by apply list_elem_of_singleton in Hl as ->]);
    apply find_sub_split in E;
    rewrite E in Hs; change (crlf ++ ?r) with (CR :: LF :: r) in Hs;
    apply utf8_valid_cut in Hs as [Hx Hy]; try done.
  - by apply list_elem_of_singleton in Hl as ->.
  - apply elem_of_cons in Hl as [->|Hl]; [done|].
    rewrite utf8_valid_drop_ascii in Hy by done. by eapply IH.
Qed.
