(* ===== verification/Config.v ===== *)
(** * Configuration ([crates/core/src/runtime/config.rs])

    The configuration types, their defaults, the field validators that serde
    runs while deserializing, and [Config::validate]. The TOML grammar is
    third-party code: a [Raw...] record is what its parser delivers for one
    table, with [None] for an absent key, and [toml_parse] is a parameter. *)

From S2P Require Import Prelude RustStd.

Local Open Scope N_scope.

(** ** [std::net::SocketAddr] *)

Inductive SocketAddr :=
| SocketAddrV4 (ip port : N)
| SocketAddrV6 (ip port flowinfo scope_id : N).

#[export] Instance SocketAddr_eq_dec : EqDecision SocketAddr.
Proof. solve_decision. Defined.

(** ** Error values

    Each constructor is one message of the source, with the values the message
    formats. *)
Inductive ConfigFault :=
| TomlSyntax (reason : bytes)
| WorkerLimitZero
| WorkerTimeoutZero
| RuntimeSizeZero
| EntryCountZero
| InvalidBufRingSize
| UpstreamWeightZero
| EmptyGroupName
| EmptyGroup (name : bytes)
| EmptyUpstreamUrl
| WeightsTooLarge
| EmptyCertificatePath
| EmptyPrivateKeyPath
| EmptySslProtocols
| EmptySslCiphers
| NotExactlyOneUpstream
| UnknownUpstreamGroup (name : bytes).

(** ** Types *)

Record WorkerConfig := mkWorkerConfig {
  max_connections : N;
  max_read_buffer_size : N;
  max_write_buffer_size : N;
  idle_timeout_ms : N;
  drain_timeout_ms : N;
}.

Record ProxyTimeoutConfig := mkProxyTimeoutConfig {
  connect_timeout_ms : N;
  write_timeout_ms : N;
  read_timeout_ms : N;
}.

Record DnsConfig := mkDnsConfig {
  resolver_threads : N;
  timeout_ms : N;
}.

Inductive AsyncRuntimeConfig :=
| Auto (max_events sq_entries cq_entries buf_ring_size buf_size : N)
| Epoll (max_events : N)
| Kqueue (max_events : N)
| IoUring (sq_entries cq_entries buf_ring_size buf_size : N).

Inductive SslProtocol := Tlsv1_2 | Tlsv1_3.

Inductive SslCipher :=
| Tls13Aes256GcmSha384
| Tls13Aes128GcmSha256
| Tls13Chacha20Poly1305Sha256
| TlsEcdheEcdsaWithAes256GcmSha384
| TlsEcdheEcdsaWithAes128GcmSha256
| TlsEcdheEcdsaWithChacha20Poly1305Sha256
| TlsEcdheRsaWithAes256GcmSha384
| TlsEcdheRsaWithAes128GcmSha256
| TlsEcdheRsaWithChacha20Poly1305Sha256.

Record SslServerConfig := mkSslServerConfig {
  certificate_path : bytes;
  private_key_path : bytes;
  handshake_timeout_ms : N;
  protocols : list SslProtocol;
  ciphers : list SslCipher;
}.

Inductive BalancePolicy := RoundRobin | WeightedRoundRobin.

#[export] Instance BalancePolicy_eq_dec : EqDecision BalancePolicy.
Proof. solve_decision. Defined.

Record UpstreamEndpoint := mkUpstreamEndpoint {
  url : bytes;
  weight : N;
}.

Record UpstreamGroup := mkUpstreamGroup {
  policy : BalancePolicy;
  group_servers : list UpstreamEndpoint;
}.

Inductive Action :=
| Proxy (upstream upstream_group : option bytes)
        (upstreams : list UpstreamEndpoint) (action_policy : BalancePolicy)
| Static (directory : bytes)
| Response (status : N) (body : bytes).

Inductive PathMatcher :=
| Exact (path : bytes)
| Prefix (path : bytes).

Record Location := mkLocation {
  matcher : PathMatcher;
  action : Action;
}.

Record Server := mkServer {
  server_name : option bytes;
  locations : list Location;
  listen : SocketAddr;
  ssl : option SslServerConfig;
}.

Record HttpConfig := mkHttpConfig { servers : list Server }.

Record Config := mkConfig {
  http : HttpConfig;
  runtime : AsyncRuntimeConfig;
  worker_count : N;
  worker : WorkerConfig;
  proxy : ProxyTimeoutConfig;
  dns : DnsConfig;
  upstream_groups : gmap bytes UpstreamGroup;
}.

(** ** Defaults *)

Definition default_epoll_max_events : N := 1024.
Definition default_sq_entries : N := 4096.
Definition default_cq_entries : N := 8192.
Definition default_buf_ring_size : N := 16384.
Definition default_buf_size : N := 8192.
Definition default_max_connections : N := 1024.
Definition default_max_read_buffer_size : N := 64 * 1024.
Definition default_max_write_buffer_size : N := 8 * 1024 * 1024.
Definition default_idle_timeout_ms : N := 30000.
Definition default_drain_timeout_ms : N := 10000.
Definition default_proxy_connect_timeout_ms : N := 3000.
Definition default_proxy_write_timeout_ms : N := 30000.
Definition default_proxy_read_timeout_ms : N := 30000.
Definition default_dns_resolver_threads : N := 2.
Definition default_dns_timeout_ms : N := 3000.
Definition default_upstream_weight : N := 1.
Definition default_tls_handshake_timeout_ms : N := 10000.

Definition default_ssl_protocols : list SslProtocol := [Tlsv1_2; Tlsv1_3].

Definition default_ssl_ciphers : list SslCipher :=
  [ Tls13Aes256GcmSha384;
    Tls13Aes128GcmSha256;
    Tls13Chacha20Poly1305Sha256;
    TlsEcdheEcdsaWithAes256GcmSha384;
    TlsEcdheEcdsaWithAes128GcmSha256;
    TlsEcdheEcdsaWithChacha20Poly1305Sha256;
    TlsEcdheRsaWithAes256GcmSha384;
    TlsEcdheRsaWithAes128GcmSha256;
    TlsEcdheRsaWithChacha20Poly1305Sha256 ].

Definition default_worker_config : WorkerConfig := {|
  max_connections := default_max_connections;
  max_read_buffer_size := default_max_read_buffer_size;
  max_write_buffer_size := default_max_write_buffer_size;
  idle_timeout_ms := default_idle_timeout_ms;
  drain_timeout_ms := default_drain_timeout_ms;
|}.

Definition default_proxy_timeout_config : ProxyTimeoutConfig := {|
  connect_timeout_ms := default_proxy_connect_timeout_ms;
  write_timeout_ms := default_proxy_write_timeout_ms;
  read_timeout_ms := default_proxy_read_timeout_ms;
|}.

Definition default_dns_config : DnsConfig := {|
  resolver_threads := default_dns_resolver_threads;
  timeout_ms := default_dns_timeout_ms;
|}.

Definition default_runtime_config : AsyncRuntimeConfig :=
  Epoll default_epoll_max_events.

(** [BalancePolicy]'s [#[default]]. *)
Definition default_balance_policy : BalancePolicy := WeightedRoundRobin.

(** [default_worker_count]: [parallelism] is [available_parallelism().ok()]. *)
Definition default_worker_count (parallelism : option N) : N :=
  match parallelism with Some n => n | None => 1 end.

(** [Config::default]: the server listens on 0.0.0.0:8089. *)
Definition default_config (parallelism : option N) : Config := {|
  http := {| servers := [ {| server_name := None;
                             locations := [];
                             listen := SocketAddrV4 0 8089;
                             ssl := None |} ] |};
  runtime := default_runtime_config;
  worker_count := default_worker_count parallelism;
  worker := default_worker_config;
  proxy := default_proxy_timeout_config;
  dns := default_dns_config;
  upstream_groups := ∅;
|}.

(** ** Field validators ([deserialize_with]) *)

Definition deserialize_positive_usize (value : N) : result ConfigFault N :=
  if value =? 0 then Err WorkerLimitZero else Ok value.

Definition deserialize_positive_u64 (value : N) : result ConfigFault N :=
  if value =? 0 then Err WorkerTimeoutZero else Ok value.

Definition deserialize_runtime_positive_usize (value : N) : result ConfigFault N :=
  if value =? 0 then Err RuntimeSizeZero else Ok value.

Definition deserialize_runtime_positive_u32 (value : N) : result ConfigFault N :=
  if value =? 0 then Err EntryCountZero else Ok value.

(** [u32::is_power_of_two]. *)
Definition is_power_of_two (n : N) : bool := 2 ^ N.log2 n =? n.

Definition deserialize_buf_ring_size (value : N) : result ConfigFault N :=
  if (value =? 0) || (32768 <? value) || negb (is_power_of_two value)
  then Err InvalidBufRingSize
  else Ok value.

Definition deserialize_upstream_weight (weight : N) : result ConfigFault N :=
  if weight =? 0 then Err UpstreamWeightZero else Ok weight.

(** ** Deserialization

    [#[serde(default = d, deserialize_with = f)]]: an absent key takes the
    default, which [f] does not see; a present one goes through [f]. *)
Definition serde_field {A} (f : A -> result ConfigFault A) (d : A)
    (raw : option A) : result ConfigFault A :=
  match raw with None => Ok d | Some v => f v end.

(** [#[serde(default)]] without a validator. *)
Definition serde_default {A} (d : A) (raw : option A) : A :=
  match raw with None => d | Some v => v end.

Record RawWorkerConfig := mkRawWorkerConfig {
  raw_max_connections : option N;
  raw_max_read_buffer_size : option N;
  raw_max_write_buffer_size : option N;
  raw_idle_timeout_ms : option N;
  raw_drain_timeout_ms : option N;
}.

Definition deserialize_worker_config (raw : RawWorkerConfig) :
    result ConfigFault WorkerConfig :=
  mc ← serde_field deserialize_positive_usize default_max_connections
         (raw_max_connections raw);
  mr ← serde_field deserialize_positive_usize default_max_read_buffer_size
         (raw_max_read_buffer_size raw);
  mw ← serde_field deserialize_positive_usize default_max_write_buffer_size
         (raw_max_write_buffer_size raw);
  it ← serde_field deserialize_positive_u64 default_idle_timeout_ms
         (raw_idle_timeout_ms raw);
  dt ← serde_field deserialize_positive_u64 default_drain_timeout_ms
         (raw_drain_timeout_ms raw);
  Ok (mkWorkerConfig mc mr mw it dt).

Record RawProxyTimeoutConfig := mkRawProxyTimeoutConfig {
  raw_connect_timeout_ms : option N;
  raw_write_timeout_ms : option N;
  raw_read_timeout_ms : option N;
}.

Definition deserialize_proxy_timeout_config (raw : RawProxyTimeoutConfig) :
    result ConfigFault ProxyTimeoutConfig :=
  ct ← serde_field deserialize_positive_u64 default_proxy_connect_timeout_ms
         (raw_connect_timeout_ms raw);
  wt ← serde_field deserialize_positive_u64 default_proxy_write_timeout_ms
         (raw_write_timeout_ms raw);
  rt ← serde_field deserialize_positive_u64 default_proxy_read_timeout_ms
         (raw_read_timeout_ms raw);
  Ok (mkProxyTimeoutConfig ct wt rt).

Record RawDnsConfig := mkRawDnsConfig {
  raw_resolver_threads : option N;
  raw_timeout_ms : option N;
}.

Definition deserialize_dns_config (raw : RawDnsConfig) :
    result ConfigFault DnsConfig :=
  rt ← serde_field deserialize_positive_usize default_dns_resolver_threads
         (raw_resolver_threads raw);
  tm ← serde_field deserialize_positive_u64 default_dns_timeout_ms
         (raw_timeout_ms raw);
  Ok (mkDnsConfig rt tm).

Inductive RawRuntimeConfig :=
| RawAuto (max_events sq_entries cq_entries buf_ring_size buf_size : option N)
| RawEpoll (max_events : option N)
| RawKqueue (max_events : option N)
| RawIoUring (sq_entries cq_entries buf_ring_size buf_size : option N).

Definition max_events_field :=
  serde_field deserialize_runtime_positive_usize default_epoll_max_events.
Definition sq_entries_field :=
  serde_field deserialize_runtime_positive_u32 default_sq_entries.
Definition cq_entries_field :=
  serde_field deserialize_runtime_positive_u32 default_cq_entries.
Definition buf_ring_size_field :=
  serde_field deserialize_buf_ring_size default_buf_ring_size.
Definition buf_size_field :=
  serde_field deserialize_runtime_positive_usize default_buf_size.

Definition deserialize_runtime_config (raw : RawRuntimeConfig) :
    result ConfigFault AsyncRuntimeConfig :=
  match raw with
  | RawAuto me sq cq br bs =>
    me ← max_events_field me; sq ← sq_entries_field sq;
    cq ← cq_entries_field cq; br ← buf_ring_size_field br;
    bs ← buf_size_field bs;
    Ok (Auto me sq cq br bs)
  | RawEpoll me => me ← max_events_field me; Ok (Epoll me)
  | RawKqueue me => me ← max_events_field me; Ok (Kqueue me)
  | RawIoUring sq cq br bs =>
    sq ← sq_entries_field sq; cq ← cq_entries_field cq;
    br ← buf_ring_size_field br; bs ← buf_size_field bs;
    Ok (IoUring sq cq br bs)
  end.

Record RawSslServerConfig := mkRawSslServerConfig {
  raw_certificate_path : bytes;
  raw_private_key_path : bytes;
  raw_handshake_timeout_ms : option N;
  raw_protocols : option (list SslProtocol);
  raw_ciphers : option (list SslCipher);
}.

Definition deserialize_ssl_config (raw : RawSslServerConfig) :
    result ConfigFault SslServerConfig :=
  ht ← serde_field deserialize_positive_u64 default_tls_handshake_timeout_ms
         (raw_handshake_timeout_ms raw);
  Ok (mkSslServerConfig (raw_certificate_path raw) (raw_private_key_path raw) ht
        (serde_default default_ssl_protocols (raw_protocols raw))
        (serde_default default_ssl_ciphers (raw_ciphers raw))).

Record RawUpstreamEndpoint := mkRawUpstreamEndpoint {
  raw_url : bytes;
  raw_weight : option N;
}.

Definition deserialize_upstream_endpoint (raw : RawUpstreamEndpoint) :
    result ConfigFault UpstreamEndpoint :=
  w ← serde_field deserialize_upstream_weight default_upstream_weight
        (raw_weight raw);
  Ok (mkUpstreamEndpoint (raw_url raw) w).

Definition deserialize_upstream_endpoints (raw : list RawUpstreamEndpoint) :
    result ConfigFault (list UpstreamEndpoint) :=
  collect_results (deserialize_upstream_endpoint <$> raw).

Record RawUpstreamGroup := mkRawUpstreamGroup {
  raw_policy : option BalancePolicy;
  raw_group_servers : list RawUpstreamEndpoint;
}.

Definition deserialize_upstream_group (raw : RawUpstreamGroup) :
    result ConfigFault UpstreamGroup :=
  ss ← deserialize_upstream_endpoints (raw_group_servers raw);
  Ok (mkUpstreamGroup (serde_default default_balance_policy (raw_policy raw)) ss).

(** One entry of the [upstreams] table. *)
Definition deserialize_named_group (entry : bytes * RawUpstreamGroup) :
    result ConfigFault (bytes * UpstreamGroup) :=
  let '(name, raw) := entry in
  g ← deserialize_upstream_group raw; Ok (name, g).

Inductive RawAction :=
| RawProxy (upstream upstream_group : option bytes)
           (upstreams : option (list RawUpstreamEndpoint))
           (action_policy : option BalancePolicy)
| RawStatic (directory : bytes)
| RawResponse (status : N) (body : bytes).

Definition deserialize_action (raw : RawAction) : result ConfigFault Action :=
  match raw with
  | RawProxy u g us p =>
    us ← deserialize_upstream_endpoints (serde_default [] us);
    Ok (Proxy u g us (serde_default default_balance_policy p))
  | RawStatic d => Ok (Static d)
  | RawResponse s b => Ok (Response s b)
  end.

Record RawLocation := mkRawLocation {
  raw_matcher : PathMatcher;
  raw_action : RawAction;
}.

Definition deserialize_location (raw : RawLocation) : result ConfigFault Location :=
  a ← deserialize_action (raw_action raw); Ok (mkLocation (raw_matcher raw) a).

Record RawServer := mkRawServer {
  raw_server_name : option bytes;
  raw_locations : list RawLocation;
  raw_listen : SocketAddr;
  raw_ssl : option RawSslServerConfig;
}.

Definition deserialize_server (raw : RawServer) : result ConfigFault Server :=
  ls ← collect_results (deserialize_location <$> raw_locations raw);
  s ← transpose (deserialize_ssl_config <$> raw_ssl raw);
  Ok (mkServer (raw_server_name raw) ls (raw_listen raw) s).

Record RawConfig := mkRawConfig {
  raw_servers : list RawServer;
  raw_runtime : option RawRuntimeConfig;
  raw_worker_count : option N;
  raw_worker : option RawWorkerConfig;
  raw_proxy : option RawProxyTimeoutConfig;
  raw_dns : option RawDnsConfig;
  raw_upstreams : list (bytes * RawUpstreamGroup);
}.

(** A table whose whole key may be absent. *)
Definition serde_table {R A} (f : R -> result ConfigFault A) (d : A)
    (raw : option R) : result ConfigFault A :=
  match raw with None => Ok d | Some r => f r end.

Definition deserialize_config (parallelism : option N) (raw : RawConfig) :
    result ConfigFault Config :=
  ss ← collect_results (deserialize_server <$> raw_servers raw);
  rt ← serde_table deserialize_runtime_config default_runtime_config (raw_runtime raw);
  wk ← serde_table deserialize_worker_config default_worker_config (raw_worker raw);
  px ← serde_table deserialize_proxy_timeout_config default_proxy_timeout_config
         (raw_proxy raw);
  dn ← serde_table deserialize_dns_config default_dns_config (raw_dns raw);
  gs ← collect_results (deserialize_named_group <$> raw_upstreams raw);
  Ok {| http := {| servers := ss |};
        runtime := rt;
        worker_count :=
          serde_default (default_worker_count parallelism) (raw_worker_count raw);
        worker := wk;
        proxy := px;
        dns := dn;
        upstream_groups := list_to_map gs |}.

(** ** [Config::validate] *)

(** [endpoints.iter().try_fold(0_u64, checked_add)]. *)
Fixpoint total_weight (total : N) (endpoints : list UpstreamEndpoint) : option N :=
  match endpoints with
  | [] => Some total
  | e :: endpoints =>
    total ← checked_add 64 total (weight e); total_weight total endpoints
  end.

Definition is_blank (s : bytes) : bool := bool_decide (trim s = []).

Definition validate_endpoints (endpoints : list UpstreamEndpoint) :
    result ConfigFault unit :=
  if existsb (fun e => is_blank (url e)) endpoints then Err EmptyUpstreamUrl
  else match total_weight 0 endpoints with
       | Some _ => Ok tt
       | None => Err WeightsTooLarge
       end.

Definition validate_group (entry : bytes * UpstreamGroup) : result ConfigFault unit :=
  let '(name, group) := entry in
  if is_blank name then Err EmptyGroupName
  else if bool_decide (group_servers group = []) then Err (EmptyGroup name)
  else validate_endpoints (group_servers group).

Definition validate_ssl (ssl : SslServerConfig) : result ConfigFault unit :=
  if is_blank (certificate_path ssl) then Err EmptyCertificatePath
  else if is_blank (private_key_path ssl) then Err EmptyPrivateKeyPath
  else match protocols ssl with
       | [] => Err EmptySslProtocols
       | _ => match ciphers ssl with [] => Err EmptySslCiphers | _ => Ok tt end
       end.

Definition is_some {A} (o : option A) : bool :=
  match o with Some _ => true | None => false end.

(** How many of [upstream], [upstream_group] and [upstreams] an action sets. *)
Definition configured_upstreams (upstream upstream_group : option bytes)
    (upstreams : list UpstreamEndpoint) : N :=
  from_bool (is_some upstream) + from_bool (is_some upstream_group)
  + from_bool (negb (bool_decide (upstreams = []))).

#[export] Instance UpstreamEndpoint_eq_dec : EqDecision UpstreamEndpoint.
Proof. solve_decision. Defined.

Definition validate_location (groups : gmap bytes UpstreamGroup)
    (location : Location) : result ConfigFault unit :=
  match action location with
  | Proxy upstream upstream_group upstreams _ =>
    if negb (configured_upstreams upstream upstream_group upstreams =? 1)
    then Err NotExactlyOneUpstream
    else if match upstream with Some u => is_blank u | None => false end
            || existsb (fun e => is_blank (url e)) upstreams
    then Err EmptyUpstreamUrl
    else
      _ ← validate_endpoints upstreams;
      match upstream_group with
      | Some name =>
        match groups !! name with
        | None => Err (UnknownUpstreamGroup name)
        | Some _ => Ok tt
        end
      | None => Ok tt
      end
  | _ => Ok tt
  end.

Definition validate_server (groups : gmap bytes UpstreamGroup) (server : Server) :
    result ConfigFault unit :=
  _ ← match ssl server with Some s => validate_ssl s | None => Ok tt end;
  for_each (validate_location groups) (locations server).

(** [groups] is the order in which the hash map yields its entries. *)
Definition validate_in_order (order : list (bytes * UpstreamGroup))
    (config : Config) : result ConfigFault unit :=
  _ ← for_each validate_group order;
  for_each (validate_server (upstream_groups config)) (servers (http config)).

Section Loading.
(** [toml::from_str] up to the typed tables, [available_parallelism], and the
    iteration order of a hash map. *)
Context (toml_parse : bytes -> result ConfigFault RawConfig).
Context (parallelism : option N).
Context (iter_groups : gmap bytes UpstreamGroup -> list (bytes * UpstreamGroup)).

Definition validate (config : Config) : result ConfigFault unit :=
  validate_in_order (iter_groups (upstream_groups config)) config.

Definition from_toml (contents : bytes) : result ConfigFault Config :=
  raw ← toml_parse contents;
  config ← deserialize_config parallelism raw;
  _ ← validate config;
  Ok config.

Inductive ConfigError :=
| ConfigIo (error : ErrorKind)
| ConfigParse (error : ConfigFault).

(** [read_config]: [contents] is what [fs::read_to_string(path)] returns. *)
Definition read_config (contents : io_result bytes) : result ConfigError Config :=
  contents ← map_err ConfigIo contents;
  map_err ConfigParse (from_toml contents).
End Loading.

(** ** What a loaded configuration satisfies *)

Definition positive (n : N) : Prop := 0 < n.

Definition endpoint_wf (e : UpstreamEndpoint) : Prop := positive (weight e).

Definition endpoints_wf (es : list UpstreamEndpoint) : Prop := Forall endpoint_wf es.

Definition endpoints_valid (es : list UpstreamEndpoint) : Prop :=
  Forall (fun e => trim (url e) <> []) es /\
  exists t, total_weight 0 es = Some t.

Definition worker_config_wf (c : WorkerConfig) : Prop :=
  positive (max_connections c) /\ positive (max_read_buffer_size c) /\
  positive (max_write_buffer_size c) /\ positive (idle_timeout_ms c) /\
  positive (drain_timeout_ms c).

Definition proxy_config_wf (c : ProxyTimeoutConfig) : Prop :=
  positive (connect_timeout_ms c) /\ positive (write_timeout_ms c) /\
  positive (read_timeout_ms c).

Definition dns_config_wf (c : DnsConfig) : Prop :=
  positive (resolver_threads c) /\ positive (timeout_ms c).

Definition buf_ring_size_wf (n : N) : Prop :=
  0 < n <= 32768 /\ exists k, n = 2 ^ k.

Definition runtime_config_wf (c : AsyncRuntimeConfig) : Prop :=
  match c with
  | Auto me sq cq br bs =>
    positive me /\ positive sq /\ positive cq /\ buf_ring_size_wf br /\ positive bs
  | Epoll me | Kqueue me => positive me
  | IoUring sq cq br bs =>
    positive sq /\ positive cq /\ buf_ring_size_wf br /\ positive bs
  end.

Definition group_wf (name : bytes) (g : UpstreamGroup) : Prop :=
  trim name <> [] /\ group_servers g <> [] /\ endpoints_wf (group_servers g) /\
  endpoints_valid (group_servers g).

(** A routed action is usable: a proxy names one non-blank URL, or one group
    that exists, or a non-empty list of endpoints. *)
Inductive action_wf (groups : gmap bytes UpstreamGroup) : Action -> Prop :=
| action_wf_upstream u p :
    trim u <> [] -> action_wf groups (Proxy (Some u) None [] p)
| action_wf_group name g p :
    groups !! name = Some g -> action_wf groups (Proxy None (Some name) [] p)
| action_wf_upstreams es p :
    es <> [] -> endpoints_wf es -> endpoints_valid es ->
    action_wf groups (Proxy None None es p)
| action_wf_static d : action_wf groups (Static d)
| action_wf_response s b : action_wf groups (Response s b).

Definition ssl_wf (s : SslServerConfig) : Prop :=
  trim (certificate_path s) <> [] /\ trim (private_key_path s) <> [] /\
  protocols s <> [] /\ ciphers s <> [] /\ positive (handshake_timeout_ms s).

Definition server_wf (groups : gmap bytes UpstreamGroup) (s : Server) : Prop :=
  (forall c, ssl s = Some c -> ssl_wf c) /\
  Forall (fun l => action_wf groups (action l)) (locations s).

Definition config_wf (c : Config) : Prop :=
  worker_config_wf (worker c) /\ proxy_config_wf (proxy c) /\
  dns_config_wf (dns c) /\ runtime_config_wf (runtime c) /\
  map_Forall group_wf (upstream_groups c) /\
  Forall (server_wf (upstream_groups c)) (servers (http c)).

(** ** Lemmas *)

Create HintDb config discriminated.

Definition sum_weights (es : list UpstreamEndpoint) : N :=
  foldr (fun e s => weight e + s) 0 es.

Lemma sum_weights_cons e es : sum_weights (e :: es) = weight e + sum_weights es.
Proof. done. Qed.

(** The checked fold is the sum, when it fits 64 bits. *)
Lemma total_weight_Some t es s :
  t < 2 ^ 64 ->
  total_weight t es = Some s <-> s = t + sum_weights es /\ t + sum_weights es < 2 ^ 64.
Proof.
  revert t. induction es as [|e es IH]; intros t Ht; simpl.
  - rewrite N.add_0_r. naive_solver.
  - destruct (checked_add 64 t (weight e)) as [u|] eqn:E; simpl.
    + apply checked_add_Some in E as [-> Hu]. rewrite IH by done.
      by rewrite !N.add_assoc.
    + split; [done|]. intros [_ Hs]. exfalso.
      assert (checked_add 64 t (weight e) = Some (t + weight e)); [|congruence].
      apply checked_add_Some. split; [done|]. lia.
Qed.

Lemma is_blank_false s : is_blank s = false <-> trim s <> [].
Proof. unfold is_blank. by rewrite bool_decide_eq_false. Qed.

Lemma existsb_blank es :
  existsb (fun e => is_blank (url e)) es = false <->
  Forall (fun e => trim (url e) <> []) es.
Proof.
  induction es as [|e es IH]; simpl; [by split; auto|].
  rewrite orb_false_iff, Forall_cons_iff, IH. by rewrite is_blank_false.
Qed.

Lemma validate_endpoints_ok es :
  validate_endpoints es = Ok tt <-> endpoints_valid es.
Proof.
  unfold validate_endpoints, endpoints_valid.
  destruct (existsb _ es) eqn:E.
  - split; [done|]. intros [H _]. apply existsb_blank in H. congruence.
  - apply existsb_blank in E. destruct (total_weight 0 es); naive_solver.
Qed.

Lemma validate_group_ok name g :
  validate_group (name, g) = Ok tt <->
  trim name <> [] /\ group_servers g <> [] /\ endpoints_valid (group_servers g).
Proof.
  simpl. rewrite <- validate_endpoints_ok. unfold is_blank.
  repeat case_bool_decide; naive_solver.
Qed.

Lemma validate_ssl_ok s :
  validate_ssl s = Ok tt <->
  trim (certificate_path s) <> [] /\ trim (private_key_path s) <> [] /\
  protocols s <> [] /\ ciphers s <> [].
Proof.
  unfold validate_ssl, is_blank. repeat case_bool_decide;
    destruct (protocols s), (ciphers s); naive_solver.
Qed.

Definition action_weights_wf (a : Action) : Prop :=
  match a with Proxy _ _ us _ => endpoints_wf us | _ => True end.

Lemma validate_location_ok groups l :
  action_weights_wf (action l) ->
  validate_location groups l = Ok tt -> action_wf groups (action l).
Proof.
  unfold validate_location. destruct (action l) as [u g us p|d|s b]; intros Hw H;
    [|by constructor..].
  destruct (N.eqb_spec (configured_upstreams u g us) 1) as [Hc|]; [|done].
  simpl in H. destruct (_ || _) eqn:Hb; [done|]. apply orb_false_iff in Hb as [Hu Hus].
  inv_ok. destruct a; simpl in *. apply validate_endpoints_ok in Hok.
  unfold configured_upstreams in Hc.
  destruct u as [u|], g as [g|]; simpl in Hc; case_bool_decide; simpl in Hc;
    try lia; subst; try (by constructor).
  - constructor. by apply is_blank_false.
  - destruct (groups !! g) eqn:E; [|done]. by econstructor.
Qed.

Ltac solve_field :=
  repeat match goal with
  | H : serde_field ?f _ ?o = Ok _ |- _ => unfold serde_field in H; destruct o; cbn beta iota in H
  | H : ?f _ = Ok _ |- _ =>
      first [ progress unfold deserialize_positive_usize in H
            | progress unfold deserialize_positive_u64 in H
            | progress unfold deserialize_runtime_positive_usize in H
            | progress unfold deserialize_runtime_positive_u32 in H
            | progress unfold deserialize_upstream_weight in H ]
  | H : (if ?n =? 0 then _ else _) = Ok _ |- _ =>
      destruct (N.eqb_spec n 0); [discriminate H|]
  | H : Ok _ = Ok _ |- _ => injection H as <-
  end;
  unfold positive; first [lia | exact eq_refl].

Lemma deserialize_endpoints_wf raw es :
  deserialize_upstream_endpoints raw = Ok es -> endpoints_wf es.
Proof.
  apply collect_fmap_Forall. clear. intros raw e He.
  unfold deserialize_upstream_endpoint in He. inv_ok.
  unfold endpoint_wf; simpl. solve_field.
Qed.

Lemma deserialize_worker_config_wf raw c :
  deserialize_worker_config raw = Ok c -> worker_config_wf c.
Proof.
  unfold deserialize_worker_config. intros H. inv_ok.
  unfold worker_config_wf; simpl; split_and!; solve_field.
Qed.

Lemma deserialize_proxy_config_wf raw c :
  deserialize_proxy_timeout_config raw = Ok c -> proxy_config_wf c.
Proof.
  unfold deserialize_proxy_timeout_config. intros H. inv_ok.
  unfold proxy_config_wf; simpl; split_and!; solve_field.
Qed.

Lemma deserialize_dns_config_wf raw c :
  deserialize_dns_config raw = Ok c -> dns_config_wf c.
Proof.
  unfold deserialize_dns_config. intros H. inv_ok.
  unfold dns_config_wf; simpl; split_and!; solve_field.
Qed.

Lemma is_power_of_two_spec n : is_power_of_two n = true -> exists k, n = 2 ^ k.
Proof. intros H%N.eqb_eq. eauto. Qed.

Lemma buf_ring_size_field_wf o n : buf_ring_size_field o = Ok n -> buf_ring_size_wf n.
Proof.
  unfold buf_ring_size_field, serde_field, buf_ring_size_wf.
  destruct o as [v|]; intros H.
  - unfold deserialize_buf_ring_size in H.
    destruct (_ || _) eqn:E; [done|]. injection H as <-.
    apply orb_false_iff in E as [[H0 H1]%orb_false_iff H2%negb_false_iff].
    apply is_power_of_two_spec in H2.
    apply N.eqb_neq in H0. apply N.ltb_ge in H1. split; [lia|done].
  - injection H as <-. unfold default_buf_ring_size.
    split; [lia|]. by exists 14.
Qed.

#[export] Hint Resolve buf_ring_size_field_wf deserialize_worker_config_wf
  deserialize_proxy_config_wf deserialize_dns_config_wf : config.

Lemma deserialize_runtime_config_wf raw c :
  deserialize_runtime_config raw = Ok c -> runtime_config_wf c.
Proof.
  unfold max_events_field, sq_entries_field, cq_entries_field, buf_size_field.
  destruct raw; simpl; intros H; inv_ok; simpl; split_and?; eauto with config;
    unfold max_events_field, sq_entries_field, cq_entries_field, buf_size_field in *;
    solve_field.
Qed.

Lemma deserialize_group_wf raw g :
  deserialize_upstream_group raw = Ok g -> endpoints_wf (group_servers g).
Proof.
  unfold deserialize_upstream_group. intros H. inv_ok. simpl.
  eauto using deserialize_endpoints_wf.
Qed.

Lemma deserialize_action_wf raw a : deserialize_action raw = Ok a -> action_weights_wf a.
Proof.
  destruct raw; simpl; intros H; inv_ok; simpl; eauto using deserialize_endpoints_wf.
Qed.

(** What deserialization alone gives a server. *)
Definition server_fields_wf (s : Server) : Prop :=
  (forall c, ssl s = Some c -> positive (handshake_timeout_ms c)) /\
  Forall (fun l => action_weights_wf (action l)) (locations s).

Lemma deserialize_server_wf raw s : deserialize_server raw = Ok s -> server_fields_wf s.
Proof.
  unfold deserialize_server. intros H. inv_ok. split; simpl.
  - intros c ->. destruct (raw_ssl raw) as [r|]; simpl in *; [|by simplify_eq].
    destruct (deserialize_ssl_config r) as [c'|] eqn:E; simplify_eq/=.
    unfold deserialize_ssl_config in E. inv_ok. simpl. solve_field.
  - eapply collect_fmap_Forall; [|exact Hok]. clear. intros l l' H.
    unfold deserialize_location in H. inv_ok. simpl. eauto using deserialize_action_wf.
Qed.

Lemma serde_table_wf {R A} (f : R -> result ConfigFault A) d o a (P : A -> Prop) :
  serde_table f d o = Ok a -> (forall r a, f r = Ok a -> P a) -> P d -> P a.
Proof. destruct o; simpl; intros; inv_ok; eauto. Qed.

Lemma deserialize_groups_wf raws gs :
  collect_results (deserialize_named_group <$> raws) = Ok gs ->
  Forall (fun '(_, g) => endpoints_wf (group_servers g)) gs.
Proof.
  apply collect_fmap_Forall. intros [name r] [name' g] H. simpl in H. inv_ok.
  eauto using deserialize_group_wf.
Qed.

(** What deserialization alone gives a configuration. *)
Lemma deserialize_config_fields parallelism raw c :
  deserialize_config parallelism raw = Ok c ->
  worker_config_wf (worker c) /\ proxy_config_wf (proxy c) /\
  dns_config_wf (dns c) /\ runtime_config_wf (runtime c) /\
  map_Forall (fun _ g => endpoints_wf (group_servers g)) (upstream_groups c) /\
  Forall server_fields_wf (servers (http c)).
Proof.
  unfold deserialize_config. intros H. inv_ok. simpl. split_and!.
  1-4: eapply serde_table_wf; [eassumption|
    eauto using deserialize_runtime_config_wf with config|repeat split; exact eq_refl].
  - intros name g Hg. apply elem_of_list_to_map_2 in Hg.
    eapply deserialize_groups_wf in Hok4. rewrite Forall_forall in Hok4.
    by apply (Hok4 (name, g)).
  - eauto using collect_fmap_Forall, deserialize_server_wf.
Qed.

Lemma validate_server_ok groups s :
  server_fields_wf s -> validate_server groups s = Ok tt -> server_wf groups s.
Proof.
  intros [Hssl Hw] H. unfold validate_server in H. inv_ok. split.
  - intros c Hc. rewrite Hc in Hok. destruct a. apply validate_ssl_ok in Hok.
    unfold ssl_wf. naive_solver.
  - apply for_each_ok in H. rewrite Forall_forall in *. intros l Hl.
    apply validate_location_ok; auto.
Qed.

Section LoadingFacts.
Context (toml_parse : bytes -> result ConfigFault RawConfig).
Context (parallelism : option N).
Context (iter_groups : gmap bytes UpstreamGroup -> list (bytes * UpstreamGroup)).

(** A hash map yields each entry once, in some order. *)
Hypothesis iter_groups_perm : forall m, iter_groups m ≡ₚ map_to_list m.

Lemma validate_groups_ok c :
  for_each validate_group (iter_groups (upstream_groups c)) = Ok tt <->
  map_Forall (fun name g => validate_group (name, g) = Ok tt) (upstream_groups c).
Proof.
  rewrite for_each_ok, map_Forall_to_list, iter_groups_perm.
  by apply Forall_iff; intros [].
Qed.

(** C: loading establishes [config_wf]. *)
Lemma from_toml_sound contents c :
  from_toml toml_parse parallelism iter_groups contents = Ok c -> config_wf c.
Proof.
  unfold from_toml. intros H. inv_ok.
  apply deserialize_config_fields in Hok0 as (Hw & Hp & Hd & Hr & Hg & Hs).
  unfold validate, validate_in_order in Hok1. inv_ok. destruct a0, a1.
  apply validate_groups_ok in Hok0. apply for_each_ok in Hok1.
  unfold config_wf. split_and!; try done.
  - intros name g Hl. specialize (Hok0 name g Hl). specialize (Hg name g Hl).
    apply validate_group_ok in Hok0. unfold group_wf. naive_solver.
  - rewrite Forall_forall in *. eauto using validate_server_ok.
Qed.

(** Two iteration orders accept the same configurations. *)
Lemma validate_accepts_any_order c order :
  order ≡ₚ map_to_list (upstream_groups c) ->
  validate_in_order order c = Ok tt <-> validate iter_groups c = Ok tt.
Proof.
  intros Ho. unfold validate, validate_in_order.
  assert (Hiff : for_each validate_group order = Ok tt <->
    for_each validate_group (iter_groups (upstream_groups c)) = Ok tt).
  { by rewrite !for_each_ok, Ho, iter_groups_perm. }
  destruct (for_each validate_group order) as [[]|] eqn:E1,
    (for_each validate_group (iter_groups _)) as [[]|] eqn:E2; simpl; naive_solver.
Qed.
End LoadingFacts.

(** ** Properties *)

(** C18. A configuration that [from_toml] accepts is well formed, for every TOML
    parser and every hash-map order: each limit, timeout, thread count and queue
    size is positive, a buffer ring is a power of two of at most 32768, every
    upstream weight is at least one, every group is named, non-empty and sums to
    at most 64 bits, every TLS block is complete, and every proxy action names
    exactly one usable upstream, whose group exists. *)
Theorem from_toml_well_formed toml_parse parallelism iter_groups contents c :
  (forall m, iter_groups m ≡ₚ map_to_list m) ->
  from_toml toml_parse parallelism iter_groups contents = Ok c -> config_wf c.
Proof. intros. by eapply from_toml_sound. Qed.

(** A configuration file with a named group, an inline group and a TLS server. *)
Definition example_raw_config : RawConfig := {|
  raw_servers :=
    [ {| raw_server_name := Some (str "api.test");
         raw_locations :=
           [ mkRawLocation (Prefix (str "/"))
               (RawProxy None (Some (str "api")) None None);
             mkRawLocation (Prefix (str "/inline"))
               (RawProxy None None
                  (Some [mkRawUpstreamEndpoint (str "http://a") (Some 2);
                         mkRawUpstreamEndpoint (str "http://b") None])
                  (Some RoundRobin));
             mkRawLocation (Exact (str "/health")) (RawResponse 200 (str "OK")) ];
         raw_listen := SocketAddrV4 0 8443;
         raw_ssl := Some (mkRawSslServerConfig (str "cert.pem") (str "key.pem")
                            None None None) |} ];
  raw_runtime := Some (RawAuto None None None (Some 1024) None);
  raw_worker_count := Some 2;
  raw_worker := None;
  raw_proxy := None;
  raw_dns := Some (mkRawDnsConfig (Some 4) None);
  raw_upstreams :=
    [ (str "api", mkRawUpstreamGroup None
                    [mkRawUpstreamEndpoint (str "http://c") None]) ];
|}.

Lemma from_toml_well_formed_witness :
  match from_toml (fun _ => Ok example_raw_config) None map_to_list [] with
  | Ok c => config_wf c
  | Err _ => False
  end.
Proof.
  destruct (from_toml (fun _ => Ok example_raw_config) None map_to_list [])
    as [c|e] eqn:E.
  - exact (from_toml_well_formed _ _ _ _ _ (fun _ => reflexivity _) E).
  - vm_compute in E. discriminate E.
Defined.

(** The configuration the master writes when no file exists passes the
    validation it will go through when it is read back, and is
    well formed. *)
Theorem default_config_valid parallelism iter_groups :
  (forall m, iter_groups m ≡ₚ map_to_list m) ->
  validate iter_groups (default_config parallelism) = Ok tt /\ config_wf (default_config parallelism).
Proof.
  intros Hi. split.
  - unfold validate, validate_in_order. simpl.
    assert (iter_groups ∅ = []) as ->; [|done].
    apply Permutation_nil. symmetry. rewrite Hi. by rewrite map_to_list_empty.
  - repeat split; try exact eq_refl; repeat constructor; intros; done.
Qed.

Lemma default_config_valid_witness :
  validate map_to_list (default_config (Some 4)) = Ok tt /\ config_wf (default_config (Some 4)).
Proof. exact (default_config_valid (Some 4) map_to_list (fun _ => reflexivity _)). Defined.

(** Whether a configuration is accepted does not depend on the order in
    which the hash map of upstream groups is iterated (only which error is
    reported first does). *)
Theorem validate_order_independent config order1 order2 :
  order1 ≡ₚ map_to_list (upstream_groups config) ->
  order2 ≡ₚ map_to_list (upstream_groups config) ->
  is_ok (validate_in_order order1 config) = is_ok (validate_in_order order2 config).
Proof.
  intros H1 H2.
  pose proof (validate_accepts_any_order map_to_list (fun _ => reflexivity _)
                config order1 H1) as E1.
  pose proof (validate_accepts_any_order map_to_list (fun _ => reflexivity _)
                config order2 H2) as E2.
  rewrite <- E2 in E1.
  destruct (validate_in_order order1 config) as [[]|],
    (validate_in_order order2 config) as [[]|]; naive_solver.
Qed.

Lemma validate_order_independent_witness :
  is_ok (validate_in_order (map_to_list (upstream_groups (default_config None)))
           (default_config None))
  = is_ok (validate_in_order [] (default_config None)).
Proof.
  apply (validate_order_independent (default_config None)); reflexivity.
Defined.
