(* ===== verification/Http.v ===== *)
(** * HTTP/1.x request heads ([run/slave/src/http.rs])

    The incremental parser the connection handlers call after every read, and
    the body framing it feeds. *)

From S2P Require Import Prelude RustStd.

Local Open Scope N_scope.

Definition MAX_REQUEST_HEAD_SIZE : N := 16 * 1024.

Inductive HttpVersion := Http10 | Http11.

(** Names are stored in lowercase. *)
Record Header := mkHeader {
  name : bytes;
  value : bytes;
}.

Record RequestHead := mkRequestHead {
  method : bytes;
  target : bytes;
  version : HttpVersion;
  headers : list Header;
}.

Inductive BodyFramingError :=
| InvalidContentLength
| ConflictingContentLength
| UnsupportedTransferEncoding.

Inductive RequestHeadParse :=
| Incomplete
| Complete (request : RequestHead) (consumed : N).

Inductive ParseError :=
| HeadTooLarge (limit : N)
| InvalidRequestLine
| InvalidMethod
| InvalidTarget
| UnsupportedVersion
| InvalidHeader
| InvalidText.

#[export] Instance HttpVersion_eq_dec : EqDecision HttpVersion.
Proof. solve_decision. Defined.

#[export] Instance Header_eq_dec : EqDecision Header.
Proof. solve_decision. Defined.

#[export] Instance RequestHead_eq_dec : EqDecision RequestHead.
Proof. solve_decision. Defined.

(** ** Body framing *)

(** The loop of [body_length] over the [content-length] headers, with the
    length found so far. *)
Fixpoint content_length_loop (content_length : option N) (hs : list Header) :
    result BodyFramingError (option N) :=
  match hs with
  | [] => Ok content_length
  | h :: hs =>
    if bool_decide (value h = []) || negb (forallb is_ascii_digit (value h))
    then Err InvalidContentLength
    else
      v ← ok_or (parse_uint USIZE_BITS (value h)) InvalidContentLength;
      match content_length with
      | Some previous =>
        if negb (previous =? v) then Err ConflictingContentLength
        else content_length_loop (Some v) hs
      | None => content_length_loop (Some v) hs
      end
  end.

Definition named (n : bytes) (h : Header) : bool := bool_decide (name h = n).

Definition body_length (request : RequestHead) : result BodyFramingError N :=
  if existsb (named (str "transfer-encoding")) (headers request)
  then Err UnsupportedTransferEncoding
  else
    content_length ←
      content_length_loop None
        (filter (fun h => name h = str "content-length") (headers request));
    Ok (match content_length with Some n => n | None => 0 end).

(** ** Parsing *)

Definition head_terminator : bytes := crlf ++ crlf.

(** [bytes.windows(4).position(|window| window == b"\r\n\r\n")]. *)
Definition find_head_end (b : bytes) : option nat := find_sub head_terminator b.

(** Letters, digits and the token punctuation of RFC 9110. *)
Definition is_token (b : byte) : bool :=
  is_ascii_alphanumeric b
  || bool_decide (b ∈ [x21; x23; x24; x25; x26; x27; x2a; x2b; x2d; x2e; x5e; x5f;
                       x60; x7c; x7e]).

Definition parse_version (v : bytes) : result ParseError HttpVersion :=
  if decide (v = str "HTTP/1.0") then Ok Http10
  else if decide (v = str "HTTP/1.1") then Ok Http11
  else Err UnsupportedVersion.

Definition parse_request_line (line : bytes) :
    result ParseError (bytes * bytes * HttpVersion) :=
  match split_ascii_whitespace line with
  | [method; target; version] =>
    if negb (forallb is_token method) then Err InvalidMethod
    else if bool_decide (target = []) || existsb is_ascii_control target
    then Err InvalidTarget
    else v ← parse_version version; Ok (method, target, v)
  | _ => Err InvalidRequestLine
  end.

(** [value.trim_matches([' ', '\t'])]. *)
Definition is_blank_byte (b : byte) : bool :=
  match b with x20 | x09 => true | _ => false end.

Definition parse_header (line : bytes) : result ParseError Header :=
  p ← ok_or (split_once line ":"%byte) InvalidHeader;
  let '(n, v) := p in
  if bool_decide (n = []) || negb (forallb is_token n)
     || contains_char v CR || contains_char v LF
  then Err InvalidHeader
  else Ok {| name := to_ascii_lowercase n; value := trim_by is_blank_byte v |}.

(** The loop over the header lines; empty lines are skipped. *)
Fixpoint parse_headers (lines : list bytes) : result ParseError (list Header) :=
  match lines with
  | [] => Ok []
  | line :: lines =>
    if decide (line = []) then parse_headers lines
    else h ← parse_header line; hs ← parse_headers lines; Ok (h :: hs)
  end.

Definition parse_head_text (text : bytes) : result ParseError RequestHead :=
  match split_str crlf text with
  | [] => Err InvalidRequestLine
  | request_line :: lines =>
    p ← parse_request_line request_line;
    let '(m, t, v) := p in
    hs ← parse_headers lines;
    Ok {| method := m; target := t; version := v; headers := hs |}
  end.

Definition parse_request_head (b : bytes) : result ParseError RequestHeadParse :=
  match find_head_end b with
  | None =>
    if MAX_REQUEST_HEAD_SIZE <? len b
    then Err (HeadTooLarge MAX_REQUEST_HEAD_SIZE)
    else Ok Incomplete
  | Some head_end =>
    if MAX_REQUEST_HEAD_SIZE <? N.of_nat head_end
    then Err (HeadTooLarge MAX_REQUEST_HEAD_SIZE)
    else if negb (utf8_valid (take head_end b)) then Err InvalidText
    else
      request ← parse_head_text (take head_end b);
      Ok (Complete request (N.of_nat head_end + 4))
  end.

(** ** Example inputs *)

Definition line (s : string) : bytes := str s ++ crlf.

Definition example_request : bytes :=
  line "POST /api HTTP/1.1" ++ line "Host: example.com" ++
  line "Content-Length: 2" ++ crlf ++ str "{}".

(** A head whose terminator starts at offset 16384. *)
Definition longest_head : bytes :=
  line "GET / HTTP/1.1" ++ str "x: " ++ replicate (N.to_nat (16384 - 19)) "a"%byte ++
  head_terminator.

(** ** What a parsed head satisfies *)

Definition header_wf (h : Header) : Prop :=
  name h <> [] /\ Forall (fun b => is_token b = true) (name h) /\
  to_ascii_lowercase (name h) = name h /\
  (CR ∉ value h) /\ (LF ∉ value h) /\ trimmed is_blank_byte (value h).

Definition request_wf (r : RequestHead) : Prop :=
  method r <> [] /\ Forall (fun b => is_token b = true) (method r) /\
  target r <> [] /\
  Forall (fun b => is_ascii_control b = false /\ is_ascii_whitespace b = false)
    (target r) /\
  Forall header_wf (headers r).

(** The text of a request: the parser hands out pieces of a valid [&str]. *)
Definition request_text (r : RequestHead) : Prop :=
  utf8_valid (target r) = true /\
  Forall (fun h => utf8_valid (value h) = true) (headers r).

(** The specification of [body_length] on the values of the content-length
    headers. *)
Definition content_length_value (v : bytes) (n : N) : Prop :=
  v <> [] /\ Forall (fun b => is_ascii_digit b = true) v /\
  parse_uint USIZE_BITS v = Some n.

Definition content_lengths (r : RequestHead) : list bytes :=
  value <$> filter (fun h => name h = str "content-length") (headers r).

Definition body_length_spec (r : RequestHead) (n : N) : Prop :=
  Forall (fun h => name h <> str "transfer-encoding") (headers r) /\
  Forall (fun v => content_length_value v n) (content_lengths r) /\
  (content_lengths r = [] -> n = 0).

(** ** Lemmas *)

Create HintDb http discriminated.

Lemma to_lower_token b : is_token b = true -> is_token (to_lower b) = true.
Proof. by destruct b. Qed.

Lemma parse_header_wf line h : parse_header line = Ok h -> header_wf h.
Proof.
  unfold parse_header. intros H. inv_ok. destruct a as [n v].
  destruct (bool_decide (n = []) || _ || _ || _) eqn:E; [done|]. inv_ok.
  rewrite !orb_false_iff, bool_decide_eq_false, negb_false_iff in E.
  unfold contains_char in E. rewrite !bool_decide_eq_false in E.
  destruct E as [[[Hn Ht] Hcr] Hlf]. apply forallb_Forall in Ht.
  unfold header_wf; simpl. split_and!.
  - unfold to_ascii_lowercase. by destruct n.
  - unfold to_ascii_lowercase. apply Forall_fmap.
    eapply Forall_impl; [exact Ht|]. simpl. apply to_lower_token.
  - apply to_ascii_lowercase_idemp.
  - by intros ?%trim_by_elem.
  - by intros ?%trim_by_elem.
  - apply trim_by_trimmed.
Qed.

Lemma parse_headers_wf lines hs : parse_headers lines = Ok hs -> Forall header_wf hs.
Proof.
  revert hs. induction lines as [|l lines IH]; intros hs H; simpl in H.
  - inv_ok. constructor.
  - case_decide; [auto|]. inv_ok. constructor; eauto using parse_header_wf.
Qed.

Lemma parse_request_line_wf line m t v :
  parse_request_line line = Ok (m, t, v) ->
  m <> [] /\ Forall (fun b => is_token b = true) m /\ t <> [] /\
  Forall (fun b => is_ascii_control b = false /\ is_ascii_whitespace b = false) t.
Proof.
  unfold parse_request_line. intros H.
  pose proof (split_ascii_whitespace_word line) as Hw.
  destruct (split_ascii_whitespace line) as [|m' [|t' [|v' [|]]]]; try done.
  destruct (forallb is_token m') eqn:Em; [|done]. simpl in H.
  destruct (_ || _) eqn:Et; [done|].
  apply orb_false_iff in Et as [Et1%bool_decide_eq_false Et2].
  destruct (Hw m' ltac:(set_solver)) as [Hm _].
  destruct (Hw t' ltac:(set_solver)) as [_ Ht].
  inv_ok. split_and!; try done; [by apply forallb_Forall|].
  apply existsb_false_Forall in Et2. rewrite Forall_forall in *. auto.
Qed.

Lemma parse_head_text_wf text r : parse_head_text text = Ok r -> request_wf r.
Proof.
  unfold parse_head_text. intros H. destruct (split_str crlf text); [done|].
  inv_ok. destruct a as [[m t] v]. inv_ok.
  apply parse_request_line_wf in Hok. unfold request_wf; simpl.
  naive_solver eauto using parse_headers_wf.
Qed.

Lemma blank_byte_ascii b : is_blank_byte b = true -> is_ascii b = true.
Proof. by destruct b. Qed.

Lemma whitespace_ascii b : is_ascii_whitespace b = true -> is_ascii b = true.
Proof. by destruct b. Qed.

Lemma parse_header_utf8 line h :
  utf8_valid line = true -> parse_header line = Ok h -> utf8_valid (value h) = true.
Proof.
  unfold parse_header. intros Hl H. inv_ok. destruct a as [n v].
  apply split_once_Some in Hok as [-> _]. apply utf8_valid_cut in Hl as [_ Hv]; [|done].
  destruct (_ || _); [done|]. inv_ok. by apply trim_by_utf8; [apply blank_byte_ascii|].
Qed.

Lemma parse_headers_utf8 lines hs :
  Forall (fun l => utf8_valid l = true) lines -> parse_headers lines = Ok hs ->
  Forall (fun h => utf8_valid (value h) = true) hs.
Proof.
  intros Hl. revert hs. induction Hl as [|l lines Hl Hls IH]; intros hs H; simpl in H.
  - inv_ok. constructor.
  - case_decide; [auto|]. inv_ok. constructor; eauto using parse_header_utf8.
Qed.

Lemma parse_request_line_utf8 line m t v :
  utf8_valid line = true -> parse_request_line line = Ok (m, t, v) -> utf8_valid t = true.
Proof.
  unfold parse_request_line. intros Hl H.
  assert (Hw : forall w, w ∈ split_ascii_whitespace line -> utf8_valid w = true).
  { intros w [_ Hw]%list_elem_of_filter.
    by eapply split_by_utf8; [apply whitespace_ascii| |]. }
  destruct (split_ascii_whitespace line) as [|m' [|t' [|v' [|]]]]; try done.
  destruct (negb _); [done|]. destruct (_ || _); [done|]. inv_ok. apply Hw. set_solver.
Qed.

Lemma parse_head_text_utf8 text r :
  utf8_valid text = true -> parse_head_text text = Ok r -> request_text r.
Proof.
  unfold parse_head_text, split_str. intros Ht H.
  pose proof (fun l => split_str_fuel_utf8 (length text) text l Ht) as Hl.
  destruct (split_str_fuel _ crlf text) as [|l0 ls]; [done|].
  inv_ok. destruct a as [[m t] v]. inv_ok. split; simpl.
  - eapply parse_request_line_utf8; [|done]. apply Hl. by left.
  - eapply parse_headers_utf8; [|done]. apply Forall_forall. intros l Hin.
    apply Hl. by right.
Qed.

(** A complete parse, in one equation. *)
Lemma parse_request_head_Complete b r n :
  parse_request_head b = Ok (Complete r n) <->
  exists i, find_head_end b = Some i /\ N.of_nat i <= MAX_REQUEST_HEAD_SIZE /\
    utf8_valid (take i b) = true /\ parse_head_text (take i b) = Ok r /\
    n = N.of_nat i + 4.
Proof.
  unfold parse_request_head. destruct (find_head_end b) as [i|].
  - destruct (N.ltb_spec MAX_REQUEST_HEAD_SIZE (N.of_nat i)) as [Hi|Hi].
    { split; [done|]. intros (j & [= <-] & Hj & _). lia. }
    destruct (utf8_valid (take i b)) eqn:Eu; simpl.
    + destruct (parse_head_text (take i b)) as [r'|] eqn:Er; simpl.
      * split; [intros [= <- <-]; eauto 10|].
        intros (j & [= <-] & _ & _ & Hr & ->). congruence.
      * split; [done|]. intros (j & [= <-] & _ & _ & Hr & ->). congruence.
    + split; [done|]. intros (j & [= <-] & _ & Hu & _). congruence.
  - split; [by destruct (_ <? _)|]. by intros (? & ? & _).
Qed.

Lemma take_find_app (b rest : bytes) i :
  find_head_end b = Some i -> take i (b ++ rest) = take i b.
Proof. intros H%find_sub_length. apply take_app_le. lia. Qed.

(** Once the terminator has arrived the verdict is final. *)
Lemma parse_request_head_app b rest i :
  find_head_end b = Some i ->
  parse_request_head (b ++ rest) = parse_request_head b.
Proof.
  intros H. unfold parse_request_head.
  assert (find_head_end (b ++ rest) = Some i) as -> by (by apply find_sub_app).
  by rewrite H, (take_find_app b rest i) by done.
Qed.

Lemma content_length_loop_ok o hs n :
  (content_length_loop o hs = Ok (Some n)) ->
  Forall (fun h => content_length_value (value h) n) hs /\
  (o = Some n \/ (o = None /\ hs <> [])).
Proof.
  revert o. induction hs as [|h hs IH]; intros o H; simpl in H.
  { inv_ok. split; [constructor|by left]. }
  destruct (bool_decide (value h = []) || _) eqn:E; [done|].
  apply orb_false_iff in E as [E1%bool_decide_eq_false E2%negb_false_iff].
  apply forallb_Forall in E2. inv_ok.
  assert (Hn : content_length_loop (Some a) hs = Ok (Some n) ->
    Forall (fun h => content_length_value (value h) n) (h :: hs) /\ a = n).
  { intros Hl. destruct (IH _ Hl) as [Hhs [[= ->]|[? _]]]; [|done].
    split; [|done]. constructor; [by split_and!|done]. }
  destruct o as [p|].
  - destruct (N.eqb_spec p a) as [->|]; simpl in H; [|done].
    destruct (Hn H) as [? ->]. auto.
  - destruct (Hn H) as [? ->]. auto.
Qed.

Lemma content_length_loop_complete o hs n :
  Forall (fun h => content_length_value (value h) n) hs ->
  (o = None \/ o = Some n) ->
  content_length_loop o hs = Ok (match hs with [] => o | _ => Some n end).
Proof.
  intros Hhs. revert o. induction Hhs as [|h hs (Hne & Hd & Hp) Hhs IH]; intros o Ho;
    [done|]. cbn [content_length_loop].
  rewrite (bool_decide_eq_false_2 _ Hne).
  apply forallb_Forall in Hd. rewrite Hd. simpl. rewrite Hp. simpl.
  rewrite (IH (Some n)) by auto.
  destruct Ho as [->| ->]; [|rewrite N.eqb_refl]; simpl; by destruct hs.
Qed.

Lemma content_length_loop_none o hs :
  content_length_loop o hs = Ok None -> o = None /\ hs = [].
Proof.
  revert o. induction hs as [|h hs IH]; intros o H; simpl in H; [by inv_ok|].
  destruct (_ || _); [done|]. inv_ok.
  destruct o as [p|]; [destruct (negb _); [done|]|];
    by apply IH in H as [? _].
Qed.

Lemma no_transfer_encoding r :
  existsb (named (str "transfer-encoding")) (headers r) = false <->
  Forall (fun h => name h <> str "transfer-encoding") (headers r).
Proof.
  rewrite existsb_false_Forall. apply Forall_iff. intros h. unfold named.
  apply bool_decide_eq_false.
Qed.

Lemma body_length_ok r n : body_length r = Ok n <-> body_length_spec r n.
Proof.
  unfold body_length, body_length_spec, content_lengths.
  set (hs := filter _ (headers r)). rewrite <- no_transfer_encoding.
  destruct (existsb _ (headers r)); [by split; [|intros [? _]]|].
  rewrite Forall_fmap. split.
  - intros H. inv_ok. split; [done|]. destruct a as [m|].
    + apply content_length_loop_ok in Hok as [Hf [?|[_ Hne]]]; [done|].
      split; [exact Hf|]. intros Hnil%fmap_nil_inv. done.
    + apply content_length_loop_none in Hok as [_ Hnil]. rewrite Hnil.
      split; [constructor|done].
  - intros (_ & Hf & Hz). rewrite (content_length_loop_complete None hs n Hf) by auto.
    destruct hs as [|h hs']; simpl; [by rewrite Hz|done].
Qed.

Lemma find_head_end_take b i k :
  find_head_end b = Some i -> (k < i + 4)%nat -> find_head_end (take k b) = None.
Proof.
  intros Hb Hk. destruct (find_head_end (take k b)) as [j|] eqn:E; [|done].
  pose proof (find_sub_length _ _ _ E) as Hj. rewrite length_take in Hj.
  apply (find_sub_app _ _ (drop k b)) in E. rewrite take_drop in E.
  unfold find_head_end in Hb. simplify_eq. simpl in Hj. lia.
Qed.

Lemma body_length_unsupported r :
  body_length r = Err UnsupportedTransferEncoding <->
  Exists (fun h => name h = str "transfer-encoding") (headers r).
Proof.
  unfold body_length. destruct (existsb _ (headers r)) eqn:E.
  - split; [intros _|done]. apply existsb_exists in E as (h & Hin & Hh).
    apply Exists_exists. exists h. split; [by apply list_elem_of_In|].
    by apply bool_decide_eq_true in Hh.
  - apply no_transfer_encoding in E. split.
    + intros H. destruct (content_length_loop None _) as [o|e] eqn:El; [done|].
      simpl in H. exfalso. injection H as ->. revert El. generalize (@None N).
      set (hs := filter _ _). clearbody hs. induction hs as [|h hs IH]; intros o; simpl;
        [done|]. destruct (_ || _); [done|]. destruct (parse_uint _ _); simpl; [|done].
      destruct o; [destruct (negb _); [done|]|]; apply IH.
    + intros Hex. exfalso. apply Exists_exists in Hex as (h & Hin & Hh).
      rewrite Forall_forall in E. by apply (E h).
Qed.

(** ** Properties *)

(** C20. Parsing is independent of how the network fragments a request, up to
    the head-size limit: when a buffer parses, appending bytes (a body, a
    pipelined request) changes neither the request nor the bytes consumed, and
    every shorter prefix of at most [MAX_REQUEST_HEAD_SIZE] bytes is reported as
    [Incomplete] rather than as an error. *)
Theorem parse_request_head_fragmentation b r n :
  parse_request_head b = Ok (Complete r n) ->
  (forall rest, parse_request_head (b ++ rest) = Ok (Complete r n)) /\
  (forall k, N.of_nat k < n -> N.of_nat k <= MAX_REQUEST_HEAD_SIZE ->
     parse_request_head (take k b) = Ok Incomplete).
Proof.
  intros H. pose proof H as (i & Hi & _ & _ & _ & ->)%parse_request_head_Complete.
  split; [intros rest; by erewrite parse_request_head_app|].
  intros k Hk Hmax. unfold parse_request_head.
  rewrite (find_head_end_take b i k) by (done || lia).
  rewrite (proj2 (N.ltb_ge _ _)); [done|]. rewrite len_take. lia.
Qed.

Lemma parse_request_head_fragmentation_witness :
  parse_request_head (take 40 example_request) = Ok Incomplete /\
  is_ok (parse_request_head (example_request ++ str "GET")) = true.
Proof.
  destruct (parse_request_head example_request) as [[|r n]|e] eqn:E;
    try (exfalso; vm_compute in E; discriminate E).
  destruct (parse_request_head_fragmentation _ _ _ E) as [Happ Htake]. split.
  - apply Htake; [|discriminate].
    assert (n = 60) as -> by (vm_compute in E; congruence). reflexivity.
  - by rewrite (Happ (str "GET")).
Defined.

(** Beyond that limit the verdict does depend on fragmentation: a head whose
    terminator starts at the last admissible offset is accepted when it arrives
    whole, and rejected as too large when a read ends inside the terminator. *)
Theorem parse_request_head_boundary_fragmentation :
  (exists r, parse_request_head longest_head = Ok (Complete r 16388)) /\
  (forall k, 16385 <= N.of_nat k <= 16387 ->
     parse_request_head (take k longest_head) = Err (HeadTooLarge 16384)).
Proof.
  assert (E : exists r, parse_request_head longest_head = Ok (Complete r 16388))
    by (eexists; vm_compute; reflexivity).
  split; [exact E|]. intros k Hk. destruct E as [r E].
  apply parse_request_head_Complete in E as (i & Hi & _ & _ & _ & Hn).
  unfold parse_request_head. rewrite (find_head_end_take _ i k Hi) by lia.
  rewrite (proj2 (N.ltb_lt _ _)); [done|]. rewrite len_take.
  replace (len longest_head) with 16388 by (vm_compute; reflexivity).
  unfold MAX_REQUEST_HEAD_SIZE. lia.
Qed.

(** C39. A parsed request is well formed and is taken from the head alone: the
    method is a non-empty token, the target is non-empty without control bytes
    or white space, header names are non-empty lowercase tokens, header values
    are trimmed and hold no CR or LF, and the bytes consumed are the head and
    its terminator, within the buffer and the size limit. *)
Theorem parse_request_head_well_formed b r n :
  parse_request_head b = Ok (Complete r n) ->
  request_wf r /\ request_text r /\ 4 <= n <= len b /\ n <= MAX_REQUEST_HEAD_SIZE + 4 /\
  find_head_end b = Some (N.to_nat (n - 4)).
Proof.
  intros (i & Hi & Hmax & Hu & Ht & ->)%parse_request_head_Complete.
  pose proof (find_sub_length _ _ _ Hi) as Hl. simpl in Hl.
  split_and!; [by eapply parse_head_text_wf|by eapply parse_head_text_utf8|lia|unfold len; lia|lia|].
  rewrite Hi. f_equal. lia.
Qed.

Lemma parse_request_head_well_formed_witness :
  exists r n, parse_request_head example_request = Ok (Complete r n) /\
    request_wf r /\ n = 60.
Proof.
  destruct (parse_request_head example_request) as [[|r n]|e] eqn:E;
    try (exfalso; vm_compute in E; discriminate E).
  exists r, n. split; [done|]. split.
  - exact (proj1 (parse_request_head_well_formed _ _ _ E)).
  - vm_compute in E. congruence.
Defined.

(** [body_length] returns [n] exactly when there is no [transfer-encoding]
    header, every [content-length] value is a non-empty digit string denoting
    [n] within a [usize], and [n] is zero when there is none; and it answers
    [UnsupportedTransferEncoding] exactly when such a header exists, whatever
    the content lengths are. *)
Theorem body_length_correct r :
  (forall n, body_length r = Ok n <-> body_length_spec r n) /\
  (body_length r = Err UnsupportedTransferEncoding <->
   Exists (fun h => name h = str "transfer-encoding") (headers r)).
Proof. split; [apply body_length_ok|apply body_length_unsupported]. Qed.
