(* ===== verification/Router.v ===== *)
(** * Routing and fixed responses ([run/slave/src/router.rs])

    Location matching, virtual-host selection within a listener group, and the
    bytes of a response. *)

From S2P Require Import Prelude RustStd Config Http.

Local Open Scope N_scope.

(** ** [route] *)

Definition matches_exact (location : Location) (target : bytes) : bool :=
  match matcher location with
  | Exact path => bool_decide (path = target)
  | Prefix _ => false
  end.

(** The candidate a prefix location contributes: its length and its action. *)
Definition prefix_candidate (target : bytes) (location : Location) :
    option (N * Action) :=
  match matcher location with
  | Prefix path =>
    if starts_with target path then Some (len path, action location) else None
  | Exact _ => None
  end.

(** [Iterator::max_by_key] by the first component: of equal maxima the last one
    is returned. *)
Fixpoint max_by_length {A} (best : option (N * A)) (l : list (N * A)) :
    option (N * A) :=
  match l with
  | [] => best
  | (k, a) :: l =>
    match best with
    | Some (kb, _) => if kb <=? k then max_by_length (Some (k, a)) l
                      else max_by_length best l
    | None => max_by_length (Some (k, a)) l
    end
  end.

Fixpoint find_exact (ls : list Location) (target : bytes) : option Action :=
  match ls with
  | [] => None
  | l :: ls => if matches_exact l target then Some (action l) else find_exact ls target
  end.

Definition route (server : Server) (target : bytes) : option Action :=
  match find_exact (locations server) target with
  | Some a => Some a
  | None =>
    snd <$> max_by_length None
      (omap (prefix_candidate target) (locations server))
  end.

(** ** [select_server] *)

Definition hostname (host : bytes) : bytes :=
  let host := trim host in
  match strip_prefix host (str "[") with
  | Some bracketed =>
    match split_once bracketed "]"%byte with
    | Some (address, _) => address
    | None => bracketed
    end
  | None =>
    match split_once host ":"%byte with
    | Some (name, _) => name
    | None => host
    end
  end.

Definition request_host (request : RequestHead) : option bytes :=
  match List.find (named (str "host")) (headers request) with
  | Some h => Some (hostname (value h))
  | None => None
  end.

Definition serves_host (servers : list Server) (host : bytes) (index : N) : bool :=
  match servers !! N.to_nat index with
  | Some server =>
    match server_name server with
    | Some n => eq_ignore_ascii_case n host
    | None => false
    end
  | None => false
  end.

Definition select_server (server_indices : list N) (default_server : N)
    (request : RequestHead) (servers : list Server) : N :=
  match request_host request with
  | Some host =>
    match List.find (serves_host servers host) server_indices with
    | Some i => i
    | None => default_server
    end
  | None => default_server
  end.

(** ** Responses *)

Definition reason_phrase (status : N) : bytes :=
  match status with
  | 200 => str "OK"
  | 201 => str "Created"
  | 204 => str "No Content"
  | 206 => str "Partial Content"
  | 304 => str "Not Modified"
  | 400 => str "Bad Request"
  | 404 => str "Not Found"
  | 405 => str "Method Not Allowed"
  | 413 => str "Payload Too Large"
  | 416 => str "Range Not Satisfiable"
  | 500 => str "Internal Server Error"
  | 501 => str "Not Implemented"
  | 502 => str "Bad Gateway"
  | 504 => str "Gateway Timeout"
  | _ => str "Unknown"
  end.

Definition response_bytes_with_body (status : N) (content_type body : bytes)
    (include_body : bool) : bytes :=
  let reason := reason_phrase status in
  str "HTTP/1.1 " ++ dec status ++ str " " ++ reason ++ crlf ++
  str "Content-Type: " ++ content_type ++ crlf ++
  str "Content-Length: " ++ dec (len body) ++ crlf ++
  str "Connection: close" ++ crlf ++ crlf ++
  (if include_body then body else []).

Definition text_plain : bytes := str "text/plain; charset=utf-8".

Definition response_bytes (status : N) (body : bytes) : bytes :=
  response_bytes_with_body status text_plain body true.

(** ** Specifications *)

(** Location [i] is the one that must answer [target]: the first exact match, or,
    without any exact match, the last of the longest matching prefixes. *)
Inductive chosen (ls : list Location) (target : bytes) (i : nat) : Prop :=
| chosen_exact l :
    ls !! i = Some l -> matcher l = Exact target ->
    (forall j l', (j < i)%nat -> ls !! j = Some l' -> matcher l' <> Exact target) ->
    chosen ls target i
| chosen_prefix l p :
    ls !! i = Some l -> matcher l = Prefix p -> starts_with target p = true ->
    (forall j l', ls !! j = Some l' -> matcher l' <> Exact target) ->
    (forall j l' q, ls !! j = Some l' -> matcher l' = Prefix q ->
       starts_with target q = true ->
       len q < len p \/ (len q = len p /\ (j <= i)%nat)) ->
    chosen ls target i.

Definition location_matches (target : bytes) (l : Location) : Prop :=
  match matcher l with
  | Exact p => p = target
  | Prefix p => starts_with target p = true
  end.

(** The lines of a response head. *)
Definition response_lines (status : N) (content_type body : bytes) : list bytes :=
  [ str "HTTP/1.1 " ++ dec status ++ str " " ++ reason_phrase status;
    str "Content-Type: " ++ content_type;
    str "Content-Length: " ++ dec (len body);
    str "Connection: close" ].

(** ** Lemmas *)

Lemma matches_exact_true l target :
  matches_exact l target = true <-> matcher l = Exact target.
Proof.
  unfold matches_exact. destruct (matcher l) as [p|p].
  - rewrite bool_decide_eq_true. naive_solver.
  - naive_solver.
Qed.

Lemma find_exact_Some ls target a :
  find_exact ls target = Some a <->
  exists i l, ls !! i = Some l /\ matcher l = Exact target /\ a = action l /\
    forall j l', (j < i)%nat -> ls !! j = Some l' -> matcher l' <> Exact target.
Proof.
  induction ls as [|l ls IH]; simpl.
  { split; [done|]. intros (i & l & Hl & _). by rewrite lookup_nil in Hl. }
  destruct (matches_exact l target) eqn:E.
  - apply matches_exact_true in E. split.
    + intros [= <-]. exists 0%nat, l. split_and!; try done. lia.
    + intros (i & l' & Hl & Hm & -> & Hmin). destruct i as [|i]; [naive_solver|].
      exfalso. by apply (Hmin 0%nat l); [lia| |].
  - assert (Hne : matcher l <> Exact target).
    { intros ?%matches_exact_true. congruence. }
    rewrite IH. split.
    + intros (i & l' & Hl & Hm & Ha & Hmin). exists (S i), l'. split_and!; try done.
      intros [|j] l2 Hj Hl2; simplify_eq/=; [done|]. eapply Hmin; [|done]. lia.
    + intros (i & l' & Hl & Hm & Ha & Hmin).
      destruct i as [|i]; simplify_eq/=. exists i, l'. split_and!; try done.
      intros j l2 Hj Hl2. apply (Hmin (S j) l2); [lia|done].
Qed.

Lemma find_exact_None ls target :
  find_exact ls target = None <->
  forall j l, ls !! j = Some l -> matcher l <> Exact target.
Proof.
  split.
  - intros H j. revert j. induction ls as [|l ls IH]; intros j l'; simpl in *; [done|].
    destruct (matches_exact l target) eqn:E; [done|].
    destruct j; simpl; [|by apply IH]. intros [= <-] ?%matches_exact_true. congruence.
  - intros H. destruct (find_exact ls target) eqn:E; [|done].
    apply find_exact_Some in E as (i & l & Hl & Hm & _). by apply H in Hl.
Qed.

Lemma prefix_candidate_Some target l k a :
  prefix_candidate target l = Some (k, a) <->
  exists p, matcher l = Prefix p /\ starts_with target p = true /\ k = len p /\
    a = action l.
Proof.
  unfold prefix_candidate. destruct (matcher l) as [p|p]; [naive_solver|].
  destruct (starts_with target p) eqn:E; [naive_solver|]. split; [done|].
  intros (q & [= <-] & ? & _). congruence.
Qed.

(** [max_by_length] returns the last of the maxima, or the initial best. *)
Lemma max_by_length_spec {A} (best : option (N * A)) l k a :
  max_by_length best l = Some (k, a) ->
  (best = Some (k, a) /\ forall j kj aj, l !! j = Some (kj, aj) -> kj < k) \/
  exists i, l !! i = Some (k, a) /\
    (forall j kj aj, l !! j = Some (kj, aj) -> kj < k \/ (kj = k /\ (j <= i)%nat)) /\
    (forall kb ab, best = Some (kb, ab) -> kb <= k).
Proof.
  revert best. induction l as [|[k0 a0] l IH]; intros best; simpl.
  { intros ->. left. split; [done|]. by intros []. }
  assert (Hstep : max_by_length (Some (k0, a0)) l = Some (k, a) ->
    (forall kb ab, best = Some (kb, ab) -> kb <= k0) ->
    exists i, ((k0, a0) :: l) !! i = Some (k, a) /\
      (forall j kj aj, ((k0, a0) :: l) !! j = Some (kj, aj) ->
         kj < k \/ (kj = k /\ (j <= i)%nat)) /\
      (forall kb ab, best = Some (kb, ab) -> kb <= k)).
  { intros [[[= -> ->] Hlt]|(i & Hi & Hmax & Hb)]%IH Hbest.
    - exists 0%nat. split_and!; [done| |done].
      intros [|j] kj aj Hj; simplify_eq/=; [right; lia|left; eauto].
    - specialize (Hb k0 a0 eq_refl). exists (S i). split_and!; [done| |].
      + intros [|j] kj aj Hj; simplify_eq/=; [lia|].
        destruct (Hmax j kj aj Hj); lia.
      + intros kb ab E. specialize (Hbest kb ab E). lia. }
  destruct best as [[kb ab]|].
  - destruct (N.leb_spec kb k0) as [Hle|Hlt].
    + intros H. right. apply Hstep; [done|]. by intros ? ? [= <- <-].
    + intros [[[= -> ->] Hmax]|(i & Hi & Hmax & Hb)]%IH.
      * left. split; [done|]. intros [|j] kj aj Hj; simplify_eq/=; [done|eauto].
      * right. specialize (Hb kb ab eq_refl). exists (S i). split_and!; [done| |].
        -- intros [|j] kj aj Hj; simplify_eq/=; [left; lia|].
           destruct (Hmax j kj aj Hj); lia.
        -- intros ? ? [= <- <-]. done.
  - intros H. right. by apply Hstep.
Qed.

Lemma max_by_length_None {A} (best : option (N * A)) l :
  max_by_length best l = None <-> best = None /\ l = [].
Proof.
  revert best. induction l as [|[k a] l IH]; intros best; simpl; [naive_solver|].
  split; [|by intros []]. destruct best as [[kb ab]|]; [destruct (kb <=? k)|];
    by intros []%IH.
Qed.

Lemma longest_prefix_Some ls target k a :
  max_by_length None (omap (prefix_candidate target) ls) = Some (k, a) ->
  exists i l p, ls !! i = Some l /\ matcher l = Prefix p /\
    starts_with target p = true /\ a = action l /\
    forall j l' q, ls !! j = Some l' -> matcher l' = Prefix q ->
      starts_with target q = true ->
      len q < len p \/ (len q = len p /\ (j <= i)%nat).
Proof.
  intros [[? _]|(m & Hm & Hmax & _)]%max_by_length_spec; [done|].
  apply omap_lookup_bwd in Hm as (i & l & Hl & Hc & ->).
  pose proof Hc as (p & Hp & Hs & -> & ->)%prefix_candidate_Some.
  exists i, l, p. split_and!; try done. intros j l' q Hl' Hq Hsq.
  assert (Hc' : prefix_candidate target l' = Some (len q, action l'))
    by (apply prefix_candidate_Some; eauto).
  pose proof (omap_lookup_fwd _ _ _ _ _ Hl' Hc') as Hj.
  destruct (Hmax _ _ _ Hj) as [?|[? Hle]]; [by left|right]. split; [done|].
  destruct (decide (i < j)%nat) as [Hlt|]; [|lia].
  pose proof (omap_take_lt _ _ _ _ _ _ Hl Hc Hlt). lia.
Qed.

(** The chosen location is unique. *)
Lemma chosen_unique ls target i j :
  chosen ls target i -> chosen ls target j -> i = j.
Proof.
  intros [l Hl Hm Hmin|l p Hl Hm Hs Hne Hmax] [l' Hl' Hm' Hmin'|l' p' Hl' Hm' Hs' Hne' Hmax'].
  - destruct (decide (i < j)%nat) as [?|]; [by edestruct (Hmin' i l)|].
    destruct (decide (j < i)%nat) as [?|]; [by edestruct (Hmin j l')|]. lia.
  - by edestruct (Hne' i l).
  - by edestruct (Hne j l').
  - destruct (Hmax j l' p' Hl' Hm' Hs') as [?|[? ?]],
      (Hmax' i l p Hl Hm Hs) as [?|[? ?]]; lia.
Qed.

Lemma route_Some server target a :
  route server target = Some a <->
  exists i l, chosen (locations server) target i /\
    locations server !! i = Some l /\ action l = a.
Proof.
  assert (Hfwd : forall b, route server target = Some b ->
    exists i l, chosen (locations server) target i /\
      locations server !! i = Some l /\ action l = b).
  { intros b. unfold route. destruct (find_exact _ _) as [a'|] eqn:E.
    - intros [= ->]. apply find_exact_Some in E as (i & l & Hl & Hm & -> & Hmin).
      exists i, l. split_and!; [by econstructor|done..].
    - intros H. apply fmap_Some in H as ([k a'] & H & ->).
      pose proof (proj1 (find_exact_None _ _) E) as Hne.
      apply longest_prefix_Some in H as (i & l & p & Hl & Hm & Hs & -> & Hmax).
      exists i, l. split_and!; [by eapply chosen_prefix|done..]. }
  split; [apply Hfwd|]. intros (i & l & Hc & Hl & <-).
  destruct (route server target) as [b|] eqn:E.
  - destruct (Hfwd b eq_refl) as (j & l' & Hc' & Hl' & <-).
    pose proof (chosen_unique _ _ _ _ Hc Hc') as ->. congruence.
  - exfalso. unfold route in E. destruct (find_exact _ _) eqn:Ee; [done|].
    apply fmap_None, max_by_length_None in E as [_ E].
    destruct Hc as [l' Hl' Hm _|l' p Hl' Hm Hs _ _].
    + by apply (proj1 (find_exact_None _ _) Ee i l').
    + assert (prefix_candidate target l' = Some (len p, action l')) as Hc
        by (apply prefix_candidate_Some; eauto).
      pose proof (omap_lookup_fwd _ _ _ _ _ Hl' Hc) as Hj. by rewrite E in Hj.
Qed.

(** What a checked server routes to is usable. *)
Lemma route_action_wf gs ss (server : Server) i t a :
  Forall (server_wf gs) ss -> ss !! i = Some server -> route server t = Some a ->
  action_wf gs a.
Proof.
  intros Hs Hi Ha. rewrite Forall_lookup in Hs. destruct (Hs _ _ Hi) as [_ Hl].
  apply route_Some in Ha as (j & l & _ & Hj & <-). rewrite Forall_lookup in Hl. by eapply Hl.
Qed.

Lemma route_None server target :
  route server target = None <->
  Forall (fun l => ~ location_matches target l) (locations server).
Proof.
  unfold route. split.
  - destruct (find_exact _ _) eqn:Ee; [done|].
    intros [_ E]%fmap_None%max_by_length_None. apply Forall_lookup. intros i l Hl Hm.
    unfold location_matches in Hm. destruct (matcher l) as [p|p] eqn:Em; subst.
    + by apply (proj1 (find_exact_None _ _) Ee i l).
    + assert (prefix_candidate target l = Some (len p, action l)) as Hc
        by (apply prefix_candidate_Some; eauto).
      pose proof (omap_lookup_fwd _ _ _ _ _ Hl Hc) as Hj. by rewrite E in Hj.
  - intros H. rewrite Forall_lookup in H.
    assert (find_exact (locations server) target = None) as ->.
    { apply find_exact_None. intros j l Hl Hm. apply (H j l Hl).
      unfold location_matches. by rewrite Hm. }
    apply fmap_None, max_by_length_None. split; [done|].
    destruct (omap _ _) as [|y ys] eqn:E; [done|]. exfalso.
    destruct (omap_lookup_bwd (prefix_candidate target) (locations server) 0 y)
      as (i & l & Hl & Hc & _); [by rewrite E|]. destruct y as [k a].
    apply prefix_candidate_Some in Hc as (p & Hp & Hs & _). apply (H i l Hl).
    unfold location_matches. by rewrite Hp.
Qed.

(** The first element satisfying a test. *)
Lemma find_Some_first {A} (f : A -> bool) l x :
  List.find f l = Some x <->
  exists i, l !! i = Some x /\ f x = true /\
    forall j y, (j < i)%nat -> l !! j = Some y -> f y = false.
Proof.
  induction l as [|a l IH]; simpl.
  { split; [done|]. intros (i & Hi & _). by rewrite lookup_nil in Hi. }
  destruct (f a) eqn:E.
  - split.
    + intros [= <-]. exists 0%nat. split_and!; try done. lia.
    + intros ([|i] & Hi & Hf & Hmin); simplify_eq/=; [done|].
      specialize (Hmin 0%nat a ltac:(lia) eq_refl). congruence.
  - rewrite IH. split.
    + intros (i & Hi & Hf & Hmin). exists (S i). split_and!; try done.
      intros [|j] y Hj Hy; simplify_eq/=; [done|]. eapply Hmin; [|done]. lia.
    + intros ([|i] & Hi & Hf & Hmin); simplify_eq/=; [congruence|].
      exists i. split_and!; try done.
      intros j y Hj Hy. apply (Hmin (S j) y); [lia|done].
Qed.

Lemma select_server_Some indices d request servers host :
  request_host request = Some host ->
  forall i, List.find (serves_host servers host) indices = Some i ->
  select_server indices d request servers = i.
Proof. intros Hh i Hi. unfold select_server. by rewrite Hh, Hi. Qed.

Lemma dec_no_cr n : CR ∉ dec n.
Proof. by apply dec_avoids. Qed.

Lemma reason_phrase_no_cr status : CR ∉ reason_phrase status.
Proof.
  apply str_no_cr. unfold reason_phrase. repeat case_match; reflexivity.
Qed.

(** The bytes of a response are its lines, a blank line and the body. *)
Lemma response_bytes_lines status content_type body include_body :
  response_bytes_with_body status content_type body include_body =
  join_lines (response_lines status content_type body) ++ head_terminator ++
  (if include_body then body else []).
Proof.
  unfold response_bytes_with_body, response_lines, head_terminator.
  cbn [join_lines]. by rewrite <- !app_assoc.
Qed.

Lemma response_lines_ok status content_type body :
  CR ∉ content_type -> Forall line_ok (response_lines status content_type body).
Proof.
  intros Hct. pose proof (dec_no_cr status). pose proof (dec_no_cr (len body)).
  pose proof (reason_phrase_no_cr status).
  repeat constructor; try done; repeat (apply not_elem_of_app; split); try done;
    by apply str_no_cr.
Qed.

(** ** Properties *)

(** C22. [route] answers with the action of exactly the location its rule designates: the
    first one whose exact path is the whole request target, or else the longest prefix of
    it, the last one among prefixes of equal length; and with nothing exactly when no
    location matches. The target is compared as it is, query included: a target with a
    query is not matched by the exact path before it, where the documentation says the
    path alone decides. *)
Theorem route_correct server target :
  (forall a, route server target = Some a <->
     exists i l, chosen (locations server) target i /\
       locations server !! i = Some l /\ action l = a) /\
  (route server target = None <->
     Forall (fun l => ~ location_matches target l) (locations server)).
Proof. split; [intros a; apply route_Some|apply route_None]. Qed.

(** Within a listener group the first configured server whose name equals
    the request's host, ignoring ASCII case, is selected; a request without a
    host, or with one that no server of the group carries, gets the default. *)
Theorem select_server_correct indices d request servers i :
  select_server indices d request servers = i <->
  (exists host k, request_host request = Some host /\ indices !! k = Some i /\
     serves_host servers host i = true /\
     forall j i', (j < k)%nat -> indices !! j = Some i' ->
       serves_host servers host i' = false) \/
  (i = d /\ forall host, request_host request = Some host ->
     Forall (fun i' => serves_host servers host i' = false) indices).
Proof.
  unfold select_server. destruct (request_host request) as [host|]; [|naive_solver].
  destruct (List.find _ indices) as [x|] eqn:E.
  - pose proof E as (k & Hk & Hx & Hmin)%find_Some_first. split.
    + intros <-. left. eauto 10.
    + intros [(h & k' & [= <-] & Hk' & Hi & Hmin')|[-> H]].
      * assert (Some x = Some i) by (rewrite <- E; apply find_Some_first; eauto).
        by simplify_eq.
      * specialize (H host eq_refl). rewrite Forall_lookup in H.
        specialize (H k x Hk). congruence.
  - assert (Hall : Forall (fun i' => serves_host servers host i' = false) indices).
    { apply Forall_forall. intros y Hy%list_elem_of_In.
      by apply (List.find_none _ _ E). }
    split; [intros <-; right; naive_solver|].
    intros [(h & k & [= <-] & Hk & Hi & _)|[-> _]]; [|done].
    rewrite Forall_lookup in Hall. specialize (Hall k i Hk). congruence.
Qed.

(** A response is framed correctly whatever the body holds: the first blank
    line ends its head, whose lines are the status line, the content type, the
    decimal length of the body and [Connection: close]; the body follows exactly,
    or nothing does when it is not included. *)
Theorem response_framing status content_type body include_body :
  CR ∉ content_type ->
  let response := response_bytes_with_body status content_type body include_body in
  exists i, find_head_end response = Some i /\
    split_str crlf (take i response) = response_lines status content_type body /\
    drop (i + 4) response = (if include_body then body else []).
Proof.
  intros Hct response. pose proof (response_lines_ok status content_type body Hct) as Hok.
  exists (length (join_lines (response_lines status content_type body))).
  subst response. rewrite response_bytes_lines. split_and!.
  - by apply find_blank_line.
  - rewrite take_app_length. apply split_str_join; [done|].
    eapply Forall_impl; [exact Hok|]. by intros l [].
  - rewrite app_assoc, drop_app_length'; [done|].
    rewrite length_app. simpl. lia.
Qed.

Lemma response_framing_witness :
  exists i, find_head_end (response_bytes 404 (str "not found")) = Some i /\
    drop (i + 4) (response_bytes 404 (str "not found")) = str "not found".
Proof.
  destruct (response_framing 404 text_plain (str "not found") true) as (i & Hi & _ & Hd).
  - apply str_no_cr. reflexivity.
  - exists i. split; [exact Hi|exact Hd].
Defined.
