(* ===== verification/LoadBalancer.v ===== *)
(** * Upstream selection ([run/slave/src/load_balancer.rs])

    A worker's balancer keeps one cursor per pool and picks the next endpoint by
    round robin or weighted round robin. [None] is a Rust panic. *)

From S2P Require Import Prelude RustStd Config.

Local Open Scope N_scope.

Record UpstreamBalancer := mkUpstreamBalancer {
  groups : gmap bytes UpstreamGroup;
  cursors : gmap bytes N;
}.

Inductive BalanceError :=
| NotProxy
| MissingUpstream
| AmbiguousUpstream
| InvalidWeight
| UnknownGroup (name : bytes).

Definition with_groups (groups : gmap bytes UpstreamGroup) : UpstreamBalancer :=
  {| groups := groups; cursors := ∅ |}.

(** [format!("{policy:?}")]. *)
Definition policy_debug (p : BalancePolicy) : bytes :=
  match p with
  | RoundRobin => str "RoundRobin"
  | WeightedRoundRobin => str "WeightedRoundRobin"
  end.

Definition group_key (policy : BalancePolicy) (upstreams : list UpstreamEndpoint) :
    bytes :=
  policy_debug policy ++ str ":" ++
  mjoin ((fun e => url e ++ str "#" ++ dec (weight e) ++ str "|") <$> upstreams).

Definition named_key (name : bytes) : bytes := str "named:" ++ name.

(** [upstreams.iter().position(|endpoint| { boundary += weight; position <
    boundary })]: [boundary] is a [u64]. *)
Fixpoint weighted_position (position boundary : N) (upstreams : list UpstreamEndpoint) :
    option nat :=
  match upstreams with
  | [] => None
  | e :: upstreams =>
    let boundary := wrapping_add 64 boundary (weight e) in
    if position <? boundary then Some 0%nat
    else S <$> weighted_position position boundary upstreams
  end.

(** The outcome of the [match policy] of [select]. *)
Inductive Pick :=
| Picked (index : nat)
| PickError (e : BalanceError)
| PickPanics.

Definition pick (policy : BalancePolicy) (upstreams : list UpstreamEndpoint)
    (cursor : N) : Pick :=
  match policy with
  | RoundRobin => Picked (N.to_nat (cursor mod len upstreams))
  | WeightedRoundRobin =>
    match total_weight 0 upstreams with
    | None => PickError InvalidWeight
    | Some 0 => PickPanics (* remainder with a divisor of zero *)
    | Some total =>
      match weighted_position (cursor mod total) 0 upstreams with
      | Some i => Picked i
      | None => PickPanics (* [unwrap] *)
      end
    end
  end.

(** The pool an action designates: its cursor key, policy and endpoints. *)
Definition pool (balancer : UpstreamBalancer) (upstream_group : option bytes)
    (upstreams : list UpstreamEndpoint) (policy : BalancePolicy) :
    result BalanceError (bytes * BalancePolicy * list UpstreamEndpoint) :=
  match upstream_group with
  | Some name =>
    group ← ok_or (groups balancer !! name) (UnknownGroup name);
    Ok (named_key name, Config.policy group, group_servers group)
  | None => Ok (group_key policy upstreams, policy, upstreams)
  end.

(** The part of [select] after the pool is known. *)
Definition select_from (balancer : UpstreamBalancer) (key : bytes)
    (policy : BalancePolicy) (upstreams : list UpstreamEndpoint) :
    option (UpstreamBalancer * result BalanceError bytes) :=
  match upstreams with
  | [] => Some (balancer, Err MissingUpstream)
  | _ =>
    (* [self.cursors.entry(key).or_default()] *)
    let cursor := default 0 (cursors balancer !! key) in
    let set c := {| groups := groups balancer;
                    cursors := <[key := c]> (cursors balancer) |} in
    match pick policy upstreams cursor with
    | PickPanics => None
    | PickError e => Some (set cursor, Err e)
    | Picked i =>
      match upstreams !! i with
      | Some e => Some (set (wrapping_add 64 cursor 1), Ok (url e))
      | None => None (* index out of bounds *)
      end
    end
  end.

Definition select (balancer : UpstreamBalancer) (action : Action) :
    option (UpstreamBalancer * result BalanceError bytes) :=
  match action with
  | Proxy upstream upstream_group upstreams policy =>
    if 1 <? configured_upstreams upstream upstream_group upstreams
    then Some (balancer, Err AmbiguousUpstream)
    else
      match upstream with
      | Some u => Some (balancer, Ok u)
      | None =>
        match pool balancer upstream_group upstreams policy with
        | Err e => Some (balancer, Err e)
        | Ok (key, policy, upstreams) => select_from balancer key policy upstreams
        end
      end
  | _ => Some (balancer, Err NotProxy)
  end.

(** ** Specification: a cyclic schedule

    A pool promises to walk a fixed list of URLs cyclically: every endpoint once
    per round under round robin, [weight] times in a row under weighted round
    robin. *)
Definition schedule (policy : BalancePolicy) (upstreams : list UpstreamEndpoint) :
    list bytes :=
  match policy with
  | RoundRobin => url <$> upstreams
  | WeightedRoundRobin =>
    mjoin ((fun e => replicate (N.to_nat (weight e)) (url e)) <$> upstreams)
  end.

Definition scheduled (policy : BalancePolicy) (upstreams : list UpstreamEndpoint)
    (cursor : N) : option bytes :=
  let s := schedule policy upstreams in s !! N.to_nat (cursor mod len s).

(** A worker's selections, one after the other. *)
Fixpoint serve (balancer : UpstreamBalancer) (actions : list Action) :
    option (UpstreamBalancer * list (result BalanceError bytes)) :=
  match actions with
  | [] => Some (balancer, [])
  | a :: actions =>
    '(balancer, r) ← select balancer a;
    '(balancer, rs) ← serve balancer actions;
    Some (balancer, r :: rs)
  end.

(** The pool of a proxy action without a direct upstream. *)
Definition action_pool (balancer : UpstreamBalancer) (action : Action) :
    option (bytes * BalancePolicy * list UpstreamEndpoint) :=
  match action with
  | Proxy None g us p =>
    match pool balancer g us p with Ok q => Some q | Err _ => None end
  | _ => None
  end.

(** ** Lemmas *)

Lemma schedule_weighted_cons e es :
  schedule WeightedRoundRobin (e :: es) =
    replicate (N.to_nat (weight e)) (url e) ++ schedule WeightedRoundRobin es.
Proof. done. Qed.

Lemma schedule_length_weighted es t :
  total_weight 0 es = Some t -> len (schedule WeightedRoundRobin es) = t.
Proof.
  intros [-> _]%total_weight_Some; [|lia]. rewrite N.add_0_l.
  induction es as [|e es IH]; [done|]. rewrite schedule_weighted_cons, len_app, IH.
  rewrite sum_weights_cons. unfold len at 1. rewrite length_replicate. lia.
Qed.

Lemma weighted_position_schedule position boundary es :
  boundary <= position -> boundary + sum_weights es < 2 ^ 64 ->
  position < boundary + sum_weights es ->
  exists i e, weighted_position position boundary es = Some i /\ es !! i = Some e /\
    schedule WeightedRoundRobin es !! N.to_nat (position - boundary) = Some (url e).
Proof.
  revert boundary. induction es as [|e es IH]; intros boundary Hb Ht Hp;
    [cbn in *; lia|].
  rewrite sum_weights_cons in *. cbn [weighted_position].
  assert (Hw : wrapping_add 64 boundary (weight e) = boundary + weight e)
    by (unfold wrapping_add; apply N.mod_small; lia).
  rewrite Hw, schedule_weighted_cons.
  destruct (N.ltb_spec position (boundary + weight e)) as [Hlt|Hge].
  - exists 0%nat, e. split_and!; [done..|].
    rewrite lookup_app_l by (rewrite length_replicate; lia).
    apply lookup_replicate. split; [done|lia].
  - destruct (IH (boundary + weight e) ltac:(lia) ltac:(lia) ltac:(lia))
      as (i & e' & Hi & He & Hs).
    exists (S i), e'. rewrite Hi. split_and!; [done..|].
    rewrite lookup_app_r by (rewrite length_replicate; lia).
    rewrite length_replicate, <- Hs. f_equal. lia.
Qed.

Definition pool_ok (policy : BalancePolicy) (es : list UpstreamEndpoint) : Prop :=
  es <> [] /\ endpoints_wf es /\ exists t, total_weight 0 es = Some t.

Lemma sum_weights_pos es : es <> [] -> endpoints_wf es -> 0 < sum_weights es.
Proof.
  intros Hne Hwf. destruct es as [|e es]; [done|].
  apply Forall_cons_iff in Hwf as [He _]. unfold endpoint_wf, positive in He.
  rewrite sum_weights_cons. lia.
Qed.

Lemma schedule_nonempty policy es : pool_ok policy es -> 0 < len (schedule policy es).
Proof.
  intros (Hne & Hwf & t & Ht). destruct policy.
  - unfold schedule, len. rewrite length_fmap. destruct es; [done|simpl; lia].
  - rewrite (schedule_length_weighted es t) by done.
    apply total_weight_Some in Ht as [-> _]; [|lia]. rewrite N.add_0_l.
    by apply sum_weights_pos.
Qed.

(** [pick] indexes the endpoint the schedule prescribes; it cannot panic. *)
Lemma pick_schedule policy es cursor :
  pool_ok policy es ->
  exists i e, pick policy es cursor = Picked i /\ es !! i = Some e /\
    scheduled policy es cursor = Some (url e).
Proof.
  intros Hok. pose proof (schedule_nonempty _ _ Hok) as Hpos.
  destruct Hok as (Hne & Hwf & t & Ht). destruct policy.
  - pose proof Hpos as Hlen. unfold scheduled, schedule, len in *.
    rewrite length_fmap in *. fold (len es) in *.
    pose proof (N.mod_lt cursor (len es) ltac:(lia)) as Hm.
    destruct (lookup_lt_is_Some_2 es (N.to_nat (cursor mod len es))) as [e He];
      [unfold len in *; lia|].
    exists (N.to_nat (cursor mod len es)), e. split_and!; [done..|].
    by rewrite list_lookup_fmap, He.
  - pose proof (schedule_length_weighted es t Ht) as Hl. unfold scheduled, pick.
    rewrite Hl in *. rewrite Ht.
    pose proof Ht as [Hs Hb]%total_weight_Some; [|lia]. rewrite N.add_0_l in *.
    pose proof (N.mod_lt cursor t ltac:(lia)) as Hm.
    generalize dependent (cursor mod t). intros position Hm.
    destruct (weighted_position_schedule position 0 es) as (i & e & Hi & He & Hse);
      [lia|lia|lia|].
    rewrite N.sub_0_r in Hse. exists i, e. rewrite Hi.
    split_and!; [destruct t; [lia|done]|done|done].
Qed.

Definition groups_wf (b : UpstreamBalancer) : Prop := map_Forall group_wf (groups b).

Lemma pool_ok_of_action b a key policy es :
  groups_wf b -> action_wf (groups b) a ->
  action_pool b a = Some (key, policy, es) ->
  pool_ok policy es /\ Forall (fun e => trim (url e) <> []) es.
Proof.
  intros Hg Ha. destruct Ha as [| name g p Hname | es' p Hne Hwf Hv | |]; simpl;
    try done.
  - rewrite Hname. simpl. intros [= <- <- <-].
    destruct (Hg name g Hname) as (_ & Hne & Hwf & Hb & Ht).
    exact (conj (conj Hne (conj Hwf Ht)) Hb).
  - intros [= <- <- <-]. destruct Hv as [Hb Ht].
    exact (conj (conj Hne (conj Hwf Ht)) Hb).
Qed.

(** The pool of an action is all that [select] looks at. *)
Lemma select_pool b a key policy es :
  action_wf (groups b) a -> action_pool b a = Some (key, policy, es) ->
  select b a = select_from b key policy es.
Proof.
  intros Ha. destruct Ha as [| name g p Hname | es' p Hne Hwf Hv | |]; simpl; try done.
  - rewrite Hname. by intros [= <- <- <-].
  - intros [= <- <- <-]. destruct es'; done.
Qed.

Definition advance (key : bytes) (b : UpstreamBalancer) : UpstreamBalancer :=
  {| groups := groups b;
     cursors := <[key := wrapping_add 64 (default 0 (cursors b !! key)) 1]> (cursors b) |}.

Lemma select_from_schedule b key policy es :
  pool_ok policy es ->
  exists e, select_from b key policy es = Some (advance key b, Ok (url e)) /\ e ∈ es /\
    scheduled policy es (default 0 (cursors b !! key)) = Some (url e).
Proof.
  intros Hok. destruct (pick_schedule policy es (default 0 (cursors b !! key)) Hok)
    as (i & e & Hp & He & Hs).
  exists e. split; [|by eauto using list_elem_of_lookup_2]. unfold select_from.
  destruct es as [|e0 es0]; [by destruct Hok|]. by rewrite Hp, He.
Qed.

(** Every action of a validated configuration that is not a proxy action is
    rejected, every other one gives a URL; the balancer's groups stay. *)
Lemma select_wf b a :
  groups_wf b -> action_wf (groups b) a ->
  exists b' r, select b a = Some (b', r) /\ groups b' = groups b /\
    match a with
    | Proxy _ _ _ _ => exists u, r = Ok u
    | _ => r = Err NotProxy
    end.
Proof.
  intros Hg Ha. destruct (action_pool b a) as [[[key policy] es]|] eqn:Hp.
  - pose proof (pool_ok_of_action _ _ _ _ _ Hg Ha Hp) as [Hok _].
    rewrite (select_pool _ _ _ _ _ Ha Hp).
    destruct (select_from_schedule b key policy es Hok) as (e & -> & _).
    exists (advance key b), (Ok (url e)). split_and!; [done..|]. destruct a; [eauto|done..].
  - exists b. destruct Ha as [| name g p Hname | | |]; [eauto| |done|eauto|eauto].
    simpl in Hp. by rewrite Hname in Hp.
Qed.

(** The URLs given to the actions of the pool with cursor [key], in order. *)
Definition pick_of (b : UpstreamBalancer) (key : bytes) (a : Action)
    (r : result BalanceError bytes) : list bytes :=
  match action_pool b a, r with
  | Some (k, _, _), Ok u => if decide (k = key) then [u] else []
  | _, _ => []
  end.

Fixpoint picks (b : UpstreamBalancer) (key : bytes) (actions : list Action)
    (rs : list (result BalanceError bytes)) : list bytes :=
  match actions, rs with
  | a :: actions, r :: rs => pick_of b key a r ++ picks b key actions rs
  | _, _ => []
  end.

Lemma action_pool_groups b b' a :
  groups b' = groups b -> action_pool b' a = action_pool b a.
Proof. intros E. destruct a as [[]? ? ?| |]; simpl; [done| |done..]. unfold pool. by rewrite E. Qed.

Lemma picks_groups b b' key actions rs :
  groups b' = groups b -> picks b' key actions rs = picks b key actions rs.
Proof.
  intros E. revert rs. induction actions as [|a actions IH]; intros [|r rs]; [done..|].
  simpl. unfold pick_of. by rewrite (action_pool_groups b b'), IH.
Qed.

(** The invariant of a worker's selections for one pool: [cursor] counts them,
    modulo the width of the counter. *)
Definition cursor_at (b : UpstreamBalancer) (key : bytes) (cursor : N) : Prop :=
  default 0 (cursors b !! key) = cursor mod 2 ^ 64.

(** All actions with cursor [key] designate the same pool. *)
Definition one_pool (b : UpstreamBalancer) (key : bytes) (policy : BalancePolicy)
    (es : list UpstreamEndpoint) (a : Action) : Prop :=
  forall p' es', action_pool b a = Some (key, p', es') -> p' = policy /\ es' = es.

Lemma advance_cursor_at b key cursor :
  cursor_at b key cursor -> cursor_at (advance key b) key (cursor + 1).
Proof.
  unfold cursor_at, advance, wrapping_add; simpl. intros ->.
  by rewrite lookup_insert_eq, N.Div0.add_mod_idemp_l.
Qed.

Lemma advance_cursor_ne b k key cursor :
  k <> key -> cursor_at b key cursor -> cursor_at (advance k b) key cursor.
Proof. intros Hk. unfold cursor_at, advance; simpl. by rewrite lookup_insert_ne. Qed.

Lemma one_pool_groups b b' key policy es a :
  groups b' = groups b -> one_pool b key policy es a -> one_pool b' key policy es a.
Proof. intros E H p' es'. rewrite (action_pool_groups b b' a E). apply H. Qed.

(** One selection: the pick for [key], if it is one, and the invariant after. *)
Lemma select_step b a key policy es cursor :
  groups_wf b -> action_wf (groups b) a -> one_pool b key policy es a ->
  cursor_at b key cursor ->
  exists b' r, select b a = Some (b', r) /\ groups b' = groups b /\
    (pick_of b key a r = [] /\ cursor_at b' key cursor \/
     exists u, pick_of b key a r = [u] /\ cursor_at b' key (cursor + 1) /\
       scheduled policy es (cursor mod 2 ^ 64) = Some u).
Proof.
  intros Hg Ha Hk Hc. unfold pick_of.
  destruct (action_pool b a) as [[[k p'] es']|] eqn:Hp.
  - pose proof (pool_ok_of_action _ _ _ _ _ Hg Ha Hp) as [Hok _].
    rewrite (select_pool _ _ _ _ _ Ha Hp).
    destruct (select_from_schedule b k p' es' Hok) as (e & -> & _ & Hs).
    exists (advance k b), (Ok (url e)). split_and!; [done..|]. case_decide as E.
    + subst k. destruct (Hk _ _ Hp) as [-> ->]. right. exists (url e).
      rewrite Hc in Hs. eauto using advance_cursor_at.
    + left. eauto using advance_cursor_ne.
  - destruct (select_wf b a Hg Ha) as (b' & r & Hs & Hgr & _).
    exists b', r. split_and!; [done..|]. left. split; [done|].
    enough (b' = b) as -> by done. clear -Hp Ha Hs.
    destruct Ha as [| name g p Hname | | |]; simpl in Hp, Hs; try (by rewrite Hname in Hp);
      by inv Hs.
Qed.

Lemma serve_scheduled b key policy es actions cursor :
  groups_wf b -> Forall (action_wf (groups b)) actions ->
  Forall (one_pool b key policy es) actions -> cursor_at b key cursor ->
  exists b' rs, serve b actions = Some (b', rs) /\ groups b' = groups b /\
    length rs = length actions /\
    cursor_at b' key (cursor + len (picks b key actions rs)) /\
    forall i u, picks b key actions rs !! i = Some u ->
      scheduled policy es ((cursor + N.of_nat i) mod 2 ^ 64) = Some u.
Proof.
  revert b cursor. induction actions as [|a actions IH]; intros b cursor Hg Hwf Hk Hc.
  { exists b, []. split_and!; [done..| |done]. unfold len; simpl. by rewrite N.add_0_r. }
  apply Forall_cons_iff in Hwf as [Ha Hwf], Hk as [Hka Hk].
  destruct (select_step b a key policy es cursor Hg Ha Hka Hc)
    as (b1 & r & Hs & Hgr & Hstep).
  assert (Forall (one_pool b1 key policy es) actions).
  { eapply Forall_impl; [exact Hk|]. eauto using one_pool_groups. }
  assert (groups_wf b1) by (unfold groups_wf; by rewrite Hgr).
  assert (Forall (action_wf (groups b1)) actions) by (by rewrite Hgr).
  cbn [serve picks]. rewrite Hs. simpl.
  destruct Hstep as [[Hpick Hc1]|(u & Hpick & Hc1 & Hu)].
  - destruct (IH b1 cursor) as (b' & rs & -> & Hg' & Hl & Hc' & Hi); [done..|].
    exists b', (r :: rs). simpl. rewrite Hpick. rewrite (picks_groups b b1) in * by done.
    split_and!; [done|congruence|lia|done..].
  - destruct (IH b1 (cursor + 1)) as (b' & rs & -> & Hg' & Hl & Hc' & Hi); [done..|].
    exists b', (r :: rs). simpl. rewrite Hpick. rewrite (picks_groups b b1) in * by done.
    split_and!; [done|congruence|lia| |].
    + rewrite len_app. unfold len at 1; simpl. by rewrite N.add_assoc.
    + intros [|i] u' Hu'; simpl in Hu'.
      * injection Hu' as <-. by rewrite N.add_0_r.
      * apply Hi in Hu'. rewrite <- Hu'. do 2 f_equal. lia.
Qed.

(** One round of the schedule from any position is a rotation of it. *)
Lemma scheduled_rotate policy es cursor us :
  0 < len (schedule policy es) ->
  len us = len (schedule policy es) -> cursor + len us <= 2 ^ 64 ->
  (forall i u, us !! i = Some u ->
     scheduled policy es ((cursor + N.of_nat i) mod 2 ^ 64) = Some u) ->
  us = rotate (N.to_nat (cursor mod len (schedule policy es))) (schedule policy es).
Proof.
  intros Hpos Hl Hb Hi. set (s := schedule policy es) in *.
  assert (Hlen : length us = length s) by (unfold len in Hl; lia).
  apply list_eq_same_length with (length s); [by rewrite length_rotate|done|].
  intros i x y Hil Hx Hy. specialize (Hi _ _ Hx).
  rewrite N.mod_small in Hi by (unfold len in *; lia).
  rewrite lookup_rotate_r in Hy by done. unfold scheduled in Hi. fold s in Hi.
  enough (E : N.to_nat ((cursor + N.of_nat i) mod len s) =
    rotate_nat_add (N.to_nat (cursor mod len s)) i (length s)) by congruence.
  apply Nat2Z.inj. unfold rotate_nat_add. rewrite !Z2Nat.id by (apply Z.mod_pos; lia).
  unfold len. rewrite N_nat_Z, N2Z.inj_mod, N2Z.inj_add, N_nat_Z, N2Z.inj_mod, !nat_N_Z.
  by rewrite Zplus_mod_idemp_l.
Qed.

Lemma rotate_Permutation {A} n (l : list A) : rotate n l ≡ₚ l.
Proof. unfold rotate. by rewrite Permutation_app_comm, take_drop. Qed.

(** The key of an inline pool is a prefix code when no URL contains ['#']. *)
Definition url_separable (e : UpstreamEndpoint) : Prop := "#"%byte ∉ url e.

Lemma app_sep_inj (c : byte) (x y x' y' : bytes) :
  c ∉ x -> c ∉ x' -> x ++ c :: y = x' ++ c :: y' -> x = x' /\ y = y'.
Proof.
  intros Hx Hx' E.
  assert (split_once (x ++ c :: y) c = Some (x, y)) as H1 by (by apply split_once_app).
  rewrite E, split_once_app in H1 by done. by injection H1 as <- <-.
Qed.

Lemma endpoint_key_inj es es' :
  Forall url_separable es -> Forall url_separable es' ->
  mjoin ((fun e => url e ++ str "#" ++ dec (weight e) ++ str "|") <$> es) =
  mjoin ((fun e => url e ++ str "#" ++ dec (weight e) ++ str "|") <$> es') ->
  es = es'.
Proof.
  intros Hs. revert es'. induction Hs as [|e es He Hs IH]; intros [|e' es'] Hs' E;
    simpl in E; [done|destruct (url e'); done|destruct (url e); done|].
  apply Forall_cons_iff in Hs' as [He' Hs']. rewrite <- !app_assoc in E. simpl in E.
  apply app_sep_inj in E as [Hu E]; [|done..]. rewrite <- !app_assoc in E. simpl in E.
  apply app_sep_inj in E as [Hw E]; [|by apply dec_avoids..].
  f_equal; [|auto]. apply dec_inj in Hw. destruct e, e'; simpl in *; congruence.
Qed.

Lemma select_from_total b key policy es :
  endpoints_wf es -> is_Some (select_from b key policy es).
Proof.
  intros Hwf. destruct (decide (es = [])) as [->|Hne]; [by eexists|].
  destruct (total_weight 0 es) as [t|] eqn:Ht.
  - destruct (select_from_schedule b key policy es) as (e & -> & _); [|by eexists].
    split_and!; eauto.
  - destruct es as [|e es]; [done|]. unfold select_from. destruct policy.
    + destruct (lookup_lt_is_Some_2 (e :: es)
        (N.to_nat (default 0 (cursors b !! key) mod len (e :: es)))) as [e' He].
      { pose proof (N.mod_lt (default 0 (cursors b !! key)) (len (e :: es))) as Hm.
        unfold len in *. cbn [length] in *. generalize dependent (default 0 (cursors b !! key) mod N.of_nat (S (length es))). lia. }
      unfold pick. rewrite He. by eexists.
    + unfold pick. rewrite Ht. by eexists.
Qed.

(** ** Properties *)

Definition example_endpoints : list UpstreamEndpoint :=
  [mkUpstreamEndpoint (str "http://a") 2; mkUpstreamEndpoint (str "http://b") 1].

Definition example_balancer : UpstreamBalancer :=
  with_groups {[ str "api" := mkUpstreamGroup WeightedRoundRobin example_endpoints ]}.

(** Three selections of the group, interleaved with an inline pool. *)
Definition example_actions : list Action :=
  let api := Proxy None (Some (str "api")) [] RoundRobin in
  let inline := Proxy None None example_endpoints RoundRobin in
  [api; inline; api; inline; api].

Lemma example_groups_wf : groups_wf example_balancer.
Proof.
  apply map_Forall_insert_2; [|apply map_Forall_empty].
  split_and!; [done|done|by repeat constructor|split; [by repeat constructor|by eexists]].
Qed.

Lemma example_actions_wf : Forall (action_wf (groups example_balancer)) example_actions.
Proof.
  assert (action_wf (groups example_balancer) (Proxy None (Some (str "api")) [] RoundRobin))
    by (by eapply action_wf_group).
  assert (action_wf (groups example_balancer) (Proxy None None example_endpoints RoundRobin)).
  { constructor; [done|by repeat constructor|split; [by repeat constructor|by eexists]]. }
  repeat (apply Forall_cons; split; [assumption|]). apply Forall_nil_2.
Qed.

(** Selecting an endpoint for an action of a validated configuration never
    panics and never fails: a single upstream is returned as it is; a pool gives
    the endpoint its cyclic schedule has at the pool's cursor and advances that
    cursor only; the other actions are refused. *)
Theorem select_correct b a :
  groups_wf b -> action_wf (groups b) a ->
  match a with
  | Proxy (Some u) _ _ _ => select b a = Some (b, Ok u)
  | Proxy None _ _ _ =>
    exists key policy es e,
      action_pool b a = Some (key, policy, es) /\ e ∈ es /\ trim (url e) <> [] /\
      scheduled policy es (default 0 (cursors b !! key)) = Some (url e) /\
      select b a = Some (advance key b, Ok (url e))
  | _ => select b a = Some (b, Err NotProxy)
  end.
Proof.
  intros Hg Ha. destruct (action_pool b a) as [[[key policy] es]|] eqn:Hp.
  - destruct (pool_ok_of_action _ _ _ _ _ Hg Ha Hp) as [Hok Hb].
    destruct (select_from_schedule b key policy es Hok) as (e & Hs & He & Hsch).
    rewrite (select_pool _ _ _ _ _ Ha Hp). destruct a as [[u|] g us p| |]; try done.
    exists key, policy, es, e. rewrite Forall_forall in Hb. by eauto 10.
  - destruct Ha as [| name g p Hname | | |]; try done. simpl in Hp. by rewrite Hname in Hp.
Qed.

Lemma select_correct_witness :
  exists e, e ∈ example_endpoints /\
    scheduled WeightedRoundRobin example_endpoints 0 = Some (url e) /\
    select example_balancer (Proxy None (Some (str "api")) [] RoundRobin) =
      Some (advance (named_key (str "api")) example_balancer, Ok (url e)).
Proof.
  pose proof (select_correct example_balancer (Proxy None (Some (str "api")) [] RoundRobin)
    example_groups_wf ltac:(by eapply action_wf_group))
    as (k & p & es & e & Hp & He & _ & Hsch & Hs).
  injection Hp as <- <- <-. by exists e.
Defined.

(** No panic in general: whatever the action designates (no pool, an
    ambiguous or unknown one, weights whose sum overflows), [select] returns, as
    long as the weights are positive. *)
Theorem select_never_panics b a :
  map_Forall (fun _ g => endpoints_wf (group_servers g)) (groups b) ->
  action_weights_wf a -> is_Some (select b a).
Proof.
  intros Hg Ha. destruct a as [u g us p|d|st bo]; simpl; [|eauto..].
  destruct (1 <? _); [eauto|]. destruct u; [eauto|].
  destruct g as [name|]; simpl; [|by apply select_from_total].
  destruct (groups b !! name) as [g|] eqn:Hgr; simpl; [|eauto].
  by apply select_from_total, (Hg name g Hgr).
Qed.

Lemma select_never_panics_witness :
  is_Some (select example_balancer
    (Proxy None None [mkUpstreamEndpoint (str "u") (2 ^ 64 - 1);
                      mkUpstreamEndpoint (str "v") 1] WeightedRoundRobin)).
Proof.
  apply select_never_panics; [|by repeat constructor].
  apply map_Forall_insert_2; [by repeat constructor|apply map_Forall_empty].
Defined.

(** C11. Fair shares under any interleaving with the other pools of the worker:
    of a sequence of selections, those of one pool walk a rotation of its
    schedule, so that a round gives each endpoint exactly its weight (or one
    selection under round robin). The counter must not wrap within the round. *)
Theorem round_is_fair b key policy es actions cursor :
  groups_wf b -> Forall (action_wf (groups b)) actions ->
  Forall (one_pool b key policy es) actions -> pool_ok policy es ->
  cursor_at b key cursor -> cursor + len (schedule policy es) <= 2 ^ 64 ->
  exists b' rs, serve b actions = Some (b', rs) /\ length rs = length actions /\
    cursor_at b' key (cursor + len (picks b key actions rs)) /\
    (len (picks b key actions rs) = len (schedule policy es) ->
     picks b key actions rs =
       rotate (N.to_nat (cursor mod len (schedule policy es))) (schedule policy es) /\
     picks b key actions rs ≡ₚ schedule policy es).
Proof.
  intros Hg Hwf Hk Hok Hc Hb.
  destruct (serve_scheduled b key policy es actions cursor Hg Hwf Hk Hc)
    as (b' & rs & Hs & _ & Hl & Hc' & Hi).
  exists b', rs. split_and!; [done..|]. intros Hround.
  rewrite (scheduled_rotate policy es cursor (picks b key actions rs));
    [auto using rotate_Permutation|by apply schedule_nonempty|done|lia|done].
Qed.

Lemma round_is_fair_witness :
  exists b' rs, serve example_balancer example_actions = Some (b', rs) /\
    picks example_balancer (named_key (str "api")) example_actions rs ≡ₚ
      [str "http://a"; str "http://a"; str "http://b"].
Proof.
  destruct (round_is_fair example_balancer (named_key (str "api")) WeightedRoundRobin
    example_endpoints example_actions 0) as (b' & rs & Hs & _ & _ & Hr).
  - exact example_groups_wf.
  - exact example_actions_wf.
  - repeat (apply Forall_cons; split; [by intros ?? [= <- <-]|]). apply Forall_nil_2.
  - split_and!; [done|by repeat constructor|by eexists].
  - done.
  - done.
  - exists b', rs. split; [done|]. apply Hr.
    apply (f_equal (fun o => default [] (snd <$> o))) in Hs. simpl in Hs.
    rewrite <- Hs. vm_compute. reflexivity.
Defined.

(** Pools do not share a cursor: a named group never has the key of an
    inline pool or of another group, and the keys of inline pools differ when
    the pools do, for URLs without ['#']. *)
Theorem cursor_keys_separate name name' policy policy' es es' :
  Forall url_separable es -> Forall url_separable es' ->
  (named_key name = named_key name' -> name = name') /\
  named_key name <> group_key policy es /\
  (group_key policy es = group_key policy' es' -> policy = policy' /\ es = es').
Proof.
  intros He He'. split_and!.
  - by intros ?%app_inv_head.
  - by destruct policy.
  - intros E. assert (policy = policy') as <- by (by destruct policy, policy').
    split; [done|]. unfold group_key in E. do 2 apply app_inv_head in E.
    by apply endpoint_key_inj.
Qed.

Lemma cursor_keys_separate_witness :
  group_key RoundRobin example_endpoints <> group_key RoundRobin (reverse example_endpoints).
Proof.
  intros E. apply (cursor_keys_separate [] [] RoundRobin RoundRobin) in E as [_ E];
    [discriminate E|repeat constructor; apply (bool_decide_unpack _); exact I..].
Defined.

(** A fragment in a URL defeats the inline keys: two different pools with
    the same key, hence one cursor for both. *)
Theorem group_key_collision :
  let one := [mkUpstreamEndpoint (str "http://a#1|http://b") 1] in
  let two := [mkUpstreamEndpoint (str "http://a") 1; mkUpstreamEndpoint (str "http://b") 1] in
  group_key RoundRobin one = group_key RoundRobin two.
Proof. reflexivity. Qed.
