(* ===== verification/Proxy.v ===== *)
(** * Upstream URLs and forwarded requests ([run/slave/src/proxy.rs])

    Parsing of an upstream URL and the serialisation of the request sent to it,
    hop-by-hop headers removed. *)

From S2P Require Import Prelude RustStd Http.

Local Open Scope N_scope.

Record Upstream := mkUpstream {
  authority : bytes;
  connect_address : bytes;
  base_path : bytes;
}.

Inductive UpstreamError :=
| UnsupportedScheme
| MissingHost
| InvalidAuthority.

(** The [connect_address] computed by [Upstream::parse]. *)
Definition parse_connect_address (authority : bytes) : result UpstreamError bytes :=
  if starts_with authority (str "[") then
    closing ← ok_or (find_sub (str "]") authority) InvalidAuthority;
    if len authority =? N.of_nat closing + 1 then Ok (authority ++ str ":80")
    else if decide (authority !! S closing = Some ":"%byte) then Ok authority
    else Err InvalidAuthority
  else
    match rsplit_once authority ":"%byte with
    | Some _ => Ok authority
    | None => Ok (authority ++ str ":80")
    end.

Definition parse (url : bytes) : result UpstreamError Upstream :=
  remainder ← ok_or (strip_prefix url (str "http://")) UnsupportedScheme;
  let '(authority, base_path) :=
    match split_once remainder "/"%byte with
    | Some (authority, path) => (authority, str "/" ++ path)
    | None => (remainder, [])
    end in
  if decide (authority = []) then Err MissingHost
  else if contains_char authority "@"%byte || contains_char authority "?"%byte
          || contains_char authority "#"%byte
  then Err InvalidAuthority
  else
    connect_address ← parse_connect_address authority;
    Ok {| authority := authority; connect_address := connect_address;
          base_path := base_path |}.

(** The names listed by the [Connection] headers. *)
Definition connection_headers (request : RequestHead) : gset bytes :=
  list_to_set
    ((fun n => to_ascii_lowercase (trim n)) <$>
       mjoin ((fun h => split_char (value h) ","%byte) <$>
                filter (fun h => name h = str "connection") (headers request))).

Definition hop_by_hop : list bytes :=
  [str "host"; str "connection"; str "proxy-connection"; str "keep-alive";
   str "transfer-encoding"; str "upgrade"].

(** The [continue] of the loop over the headers. *)
Definition is_dropped (request : RequestHead) (h : Header) : bool :=
  bool_decide (name h ∈ hop_by_hop) || bool_decide (name h ∈ connection_headers request).

Definition header_line (h : Header) : bytes := name h ++ str ": " ++ value h ++ crlf.

Definition upstream_target (upstream : Upstream) (request : RequestHead) : bytes :=
  if decide (base_path upstream = []) then target request
  else trim_end_by (fun b => bool_decide (b = "/"%byte)) (base_path upstream)
       ++ target request.

Definition request_bytes (upstream : Upstream) (request : RequestHead) (body : bytes) :
    bytes :=
  method request ++ str " " ++ upstream_target upstream request ++ str " HTTP/1.1" ++ crlf
  ++ str "Host: " ++ authority upstream ++ crlf
  ++ mjoin (header_line <$> filter (fun h => is_dropped request h = false) (headers request))
  ++ str "Connection: close" ++ crlf ++ crlf
  ++ body.

(** ** Specification *)

(** The request the upstream server is meant to see. *)
Definition forwarded (upstream : Upstream) (request : RequestHead) : RequestHead :=
  {| method := method request;
     target := upstream_target upstream request;
     version := Http11;
     headers :=
       mkHeader (str "host") (authority upstream)
       :: filter (fun h => is_dropped request h = false) (headers request)
       ++ [mkHeader (str "connection") (str "close")] |}.

(** A URL of visible characters. *)
Definition url_clean (url : bytes) : Prop :=
  utf8_valid url = true /\
  Forall (fun b => is_ascii_control b = false /\ is_ascii_whitespace b = false) url.

Definition forwarded_lines (upstream : Upstream) (request : RequestHead) : list bytes :=
  (method request ++ str " " ++ upstream_target upstream request ++ str " HTTP/1.1")
  :: (str "Host: " ++ authority upstream)
  :: ((fun h => name h ++ str ": " ++ value h) <$>
        filter (fun h => is_dropped request h = false) (headers request))
  ++ [str "Connection: close"].

(** ** Lemmas *)

Lemma join_lines_cons l ls : ls <> [] -> join_lines (l :: ls) = l ++ crlf ++ join_lines ls.
Proof. by destruct ls. Qed.

Lemma join_header_lines (hs : list Header) last :
  join_lines (((fun h => name h ++ str ": " ++ value h) <$> hs) ++ [last]) =
  mjoin (header_line <$> hs) ++ last.
Proof.
  induction hs as [|h hs IH]; [done|].
  rewrite !fmap_cons, <- app_comm_cons, join_lines_cons by (by destruct hs).
  rewrite IH. rewrite mjoin_cons.
  unfold header_line. by rewrite <- !app_assoc.
Qed.

(** The serialised request is its lines, the blank line and the body. *)
Lemma request_bytes_lines u r body :
  request_bytes u r body =
    join_lines (forwarded_lines u r) ++ (crlf ++ crlf) ++ body.
Proof.
  unfold request_bytes, forwarded_lines. rewrite !join_lines_cons by (by destruct (filter _ _)).
  rewrite join_header_lines. by rewrite <- !app_assoc.
Qed.

Definition visible (b : byte) : Prop :=
  is_ascii_control b = false /\ is_ascii_whitespace b = false.

Lemma token_visible b : is_token b = true -> visible b.
Proof. by destruct b. Qed.

Lemma token_not_colon b : is_token b = true -> b <> ":"%byte.
Proof. intros H ->. discriminate H. Qed.

Lemma token_ascii b : is_token b = true -> is_ascii b = true.
Proof. by destruct b. Qed.

Lemma visible_no_cr s : Forall visible s -> CR ∉ s.
Proof. rewrite Forall_forall. by intros H [? _]%H. Qed.

Lemma visible_no_lf s : Forall visible s -> LF ∉ s.
Proof. rewrite Forall_forall. by intros H [? _]%H. Qed.

Lemma visible_no_whitespace s :
  Forall visible s -> Forall (fun b => is_ascii_whitespace b = false) s.
Proof. intros H. eapply Forall_impl; [exact H|]. by intros b []. Qed.

Lemma visible_no_control s :
  Forall visible s -> existsb is_ascii_control s = false.
Proof. intros H. apply existsb_false_Forall. eapply Forall_impl; [exact H|]. by intros b []. Qed.

Lemma tokens_utf8 s : Forall (fun b => is_token b = true) s -> utf8_valid s = true.
Proof.
  intros H. apply utf8_valid_ascii. eapply Forall_impl; [exact H|]. apply token_ascii.
Qed.

Lemma tokens_visible s : Forall (fun b => is_token b = true) s -> Forall visible s.
Proof. intros H. eapply Forall_impl; [exact H|]. apply token_visible. Qed.

#[export] Hint Resolve visible_no_cr visible_no_lf tokens_visible tokens_utf8 : http.

Lemma parse_request_line_print m t :
  m <> [] -> Forall (fun b => is_token b = true) m -> t <> [] -> Forall visible t ->
  parse_request_line (m ++ str " " ++ t ++ str " HTTP/1.1") = Ok (m, t, Http11).
Proof.
  intros Hm Htok Ht Hvis. unfold parse_request_line, split_ascii_whitespace.
  change (m ++ str " " ++ t ++ str " HTTP/1.1") with
    (m ++ " "%byte :: (t ++ " "%byte :: str "HTTP/1.1")).
  rewrite split_by_app_sep; [|by apply visible_no_whitespace, tokens_visible|done].
  rewrite split_by_app_sep; [|by apply visible_no_whitespace|done].
  rewrite !filter_cons_True by done.
  assert (filter (fun w : bytes => w <> []) (split_by is_ascii_whitespace (str "HTTP/1.1"))
          = [str "HTTP/1.1"]) as -> by reflexivity.
  rewrite (proj2 (forallb_Forall _ _) Htok). simpl.
  rewrite bool_decide_eq_false_2 by done.
  by rewrite (visible_no_control t Hvis).
Qed.

Lemma parse_header_print n v :
  n <> [] -> Forall (fun b => is_token b = true) n ->
  CR ∉ v -> LF ∉ v -> trimmed is_blank_byte v ->
  parse_header (n ++ str ": " ++ v) = Ok (mkHeader (to_ascii_lowercase n) v).
Proof.
  intros Hn Htok Hcr Hlf Htrim. unfold parse_header.
  change (n ++ str ": " ++ v) with (n ++ ":"%byte :: (" "%byte :: v)).
  rewrite split_once_app.
  2:{ intros Hin. rewrite Forall_forall in Htok. by apply Htok, token_not_colon in Hin. }
  cbn [ok_or mbind result_bind]. rewrite bool_decide_eq_false_2 by done.
  rewrite (proj2 (forallb_Forall _ _) Htok). unfold contains_char.
  rewrite !bool_decide_eq_false_2 by (apply not_elem_of_cons; split; done). simpl.
  change (trim_by is_blank_byte (" "%byte :: v)) with (trim_by is_blank_byte v).
  by rewrite trim_by_id.
Qed.

Definition print_header (h : Header) : bytes := name h ++ str ": " ++ value h.

Lemma parse_print_header h : header_wf h -> parse_header (print_header h) = Ok h.
Proof.
  intros (Hn & Htok & Hlow & Hcr & Hlf & Htrim). unfold print_header.
  rewrite parse_header_print, Hlow by done. by destruct h.
Qed.

(** Parsing is line by line; no printed header is an empty line. *)
Lemma parse_headers_lines ls hs :
  Forall2 (fun l h => l <> [] /\ parse_header l = Ok h) ls hs -> parse_headers ls = Ok hs.
Proof.
  induction 1 as [|l h ls hs [Hne Hl] Hrest IH]; [done|]. cbn [parse_headers].
  rewrite decide_False by done. by rewrite Hl, IH.
Qed.

Lemma print_header_not_nil h : header_wf h -> print_header h <> [].
Proof. intros [Hn _]. unfold print_header. by destruct (name h). Qed.

Lemma authority_line_parses a :
  Forall visible a ->
  parse_header (str "Host: " ++ a) = Ok (mkHeader (str "host") a).
Proof.
  intros Ha. change (str "Host: " ++ a) with (str "Host" ++ str ": " ++ a).
  apply parse_header_print; [done|by repeat constructor|by auto with http..|].
  assert (Hb : forall b, visible b -> is_blank_byte b = false) by (by intros []; intros []).
  rewrite Forall_forall in Ha. split; intros b t E; apply Hb, Ha.
  - rewrite E. by left.
  - apply elem_of_reverse. rewrite E. by left.
Qed.

Lemma parse_headers_forwarded u r :
  Forall visible (authority u) -> Forall header_wf (headers r) ->
  parse_headers (tail (forwarded_lines u r)) = Ok (headers (forwarded u r)).
Proof.
  intros Ha Hwf. apply parse_headers_lines. simpl. constructor.
  { split; [done|]. by apply (authority_line_parses (authority u)). }
  apply Forall2_app; [|by repeat constructor].
  apply Forall2_fmap_l, Forall_Forall2_diag, Forall_filter_1.
  eapply Forall_impl; [exact Hwf|]. intros h Hh.
  split; [by apply print_header_not_nil|by apply parse_print_header].
Qed.

(** What [parse] guarantees of a clean URL. *)
Definition upstream_wf (u : Upstream) : Prop :=
  authority u <> [] /\ Forall visible (authority u) /\ Forall visible (base_path u) /\
  utf8_valid (authority u) = true /\ utf8_valid (base_path u) = true.

Definition is_slash (b : byte) : bool := bool_decide (b = "/"%byte).

Lemma is_slash_ascii b : is_slash b = true -> is_ascii b = true.
Proof. by intros ->%bool_decide_eq_true. Qed.

Lemma trim_end_by_Forall p (P : byte -> Prop) s : Forall P s -> Forall P (trim_end_by p s).
Proof.
  destruct (trim_end_by_prefix p s) as (t & E & _). intros H. rewrite E in H.
  by apply Forall_app in H as [H _].
Qed.

Lemma upstream_target_visible u r :
  upstream_wf u -> request_wf r ->
  upstream_target u r <> [] /\ Forall visible (upstream_target u r).
Proof.
  intros (_ & _ & Hb & _) (_ & _ & Hne & Ht & _). unfold upstream_target.
  case_decide; [done|]. split.
  - intros [_ ?]%app_eq_nil. done.
  - apply Forall_app. split; [by apply trim_end_by_Forall|exact Ht].
Qed.

Lemma upstream_target_utf8 u r :
  upstream_wf u -> request_text r -> utf8_valid (upstream_target u r) = true.
Proof.
  intros (_ & _ & _ & _ & Hb) [Ht _]. unfold upstream_target. case_decide; [done|].
  apply utf8_valid_join; [|done]. by apply trim_end_by_utf8; [apply is_slash_ascii|].
Qed.

Lemma print_header_line_ok h : header_wf h -> line_ok (print_header h).
Proof.
  intros Hwf. split; [|by apply print_header_not_nil].
  destruct Hwf as (_ & Htok & _ & Hcr & _). unfold print_header.
  rewrite !elem_of_app. intros [H|[H|H]]; [|by apply str_no_cr in H|done].
  apply tokens_visible, visible_no_cr in Htok. done.
Qed.

Lemma forwarded_lines_ok u r :
  upstream_wf u -> request_wf r -> Forall line_ok (forwarded_lines u r).
Proof.
  intros Hu Hr. destruct (upstream_target_visible u r Hu Hr) as [Htn Htv].
  destruct Hu as (Han & Hav & _), Hr as (Hmn & Hmt & _ & _ & Hhs).
  unfold forwarded_lines. constructor; [|constructor; [|apply Forall_app; split]].
  - split; [|by destruct (method r)]. rewrite !elem_of_app.
    apply tokens_visible, visible_no_cr in Hmt. apply visible_no_cr in Htv.
    intros [H|[H|[H|H]]]; try done; by apply str_no_cr in H.
  - split; [|done]. rewrite elem_of_app. apply visible_no_cr in Hav.
    intros [H|H]; [by apply str_no_cr in H|done].
  - apply Forall_fmap, Forall_filter_1. eapply Forall_impl; [exact Hhs|].
    apply print_header_line_ok.
  - constructor; [|done]. split; [|done]. by apply str_no_cr.
Qed.

Lemma join_lines_utf8 ls :
  Forall (fun l => utf8_valid l = true) ls -> utf8_valid (join_lines ls) = true.
Proof.
  induction 1 as [|l ls Hl Hls IH]; [done|]. destruct ls as [|l' ls]; [done|].
  rewrite join_lines_cons by done. rewrite utf8_valid_app by done. exact IH.
Qed.

Lemma forwarded_lines_utf8 u r :
  upstream_wf u -> request_wf r -> request_text r ->
  Forall (fun l => utf8_valid l = true) (forwarded_lines u r).
Proof.
  intros Hu Hr Ht. pose proof (upstream_target_utf8 u r Hu Ht) as Htu.
  destruct Hu as (_ & _ & _ & Ha & _), Hr as (_ & Hm & _ & _ & Hhs), Ht as [_ Hvs].
  unfold forwarded_lines. constructor; [|constructor; [|apply Forall_app; split]].
  - repeat apply utf8_valid_join; auto with http.
  - by apply utf8_valid_join.
  - apply Forall_fmap, Forall_filter_1. rewrite Forall_forall in *. intros h Hh.
    destruct (Hhs h Hh) as (_ & Hn & _).
    change (utf8_valid (name h ++ str ": " ++ value h) = true).
    apply utf8_valid_join; [by auto with http|].
    apply utf8_valid_join; [done|by apply Hvs].
  - by repeat constructor.
Qed.

(** The upstream server parses what was sent as the forwarded request. *)
Lemma parse_forwarded u r body :
  upstream_wf u -> request_wf r -> request_text r ->
  len (join_lines (forwarded_lines u r)) <= MAX_REQUEST_HEAD_SIZE ->
  parse_request_head (request_bytes u r body) =
    Ok (Complete (forwarded u r) (len (join_lines (forwarded_lines u r)) + 4)).
Proof.
  intros Hu Hr Ht Hmax. apply parse_request_head_Complete.
  pose proof (forwarded_lines_ok u r Hu Hr) as Hok.
  exists (length (join_lines (forwarded_lines u r))).
  rewrite request_bytes_lines, take_app_length. split_and!; [|exact Hmax| | |done].
  - by apply find_blank_line.
  - by apply join_lines_utf8, forwarded_lines_utf8.
  - unfold parse_head_text. rewrite split_str_join; [|done|].
    2:{ eapply Forall_impl; [exact Hok|]. by intros l []. }
    destruct (upstream_target_visible u r Hu Hr) as [Htn Htv].
    destruct Hu as (_ & Hav & _), Hr as (Hmn & Hmt & _ & _ & Hhs).
    assert (forwarded_lines u r =
      (method r ++ str " " ++ upstream_target u r ++ str " HTTP/1.1")
      :: tail (forwarded_lines u r)) as -> by done.
    rewrite parse_request_line_print by done. cbn [mbind result_bind].
    by rewrite (parse_headers_forwarded u r).
Qed.

(** The text of a URL and the parts [parse] makes of it. *)
Lemma parse_ok url u :
  parse url = Ok u ->
  url = str "http://" ++ authority u ++ base_path u /\
  authority u <> [] /\ ("/"%byte ∉ authority u) /\
  (base_path u = [] \/ (exists p, base_path u = "/"%byte :: p)) /\
  ("@"%byte ∉ authority u) /\ ("?"%byte ∉ authority u) /\ ("#"%byte ∉ authority u) /\
  parse_connect_address (authority u) = Ok (connect_address u).
Proof.
  unfold parse. intros H. inv_ok. apply strip_prefix_Some in Hok as ->.
  destruct (split_once a "/"%byte) as [[x y]|] eqn:E.
  - apply split_once_Some in E as [-> Hx]. case_decide; [done|].
    destruct (_ || _) eqn:Ec; [done|]. inv_ok. simpl.
    unfold contains_char in Ec. rewrite !orb_false_iff, !bool_decide_eq_false in Ec.
    naive_solver.
  - apply split_once_None in E. case_decide; [done|].
    destruct (_ || _) eqn:Ec; [done|]. inv_ok. simpl.
    unfold contains_char in Ec. rewrite !orb_false_iff, !bool_decide_eq_false in Ec.
    rewrite app_nil_r. naive_solver.
Qed.

Lemma parse_wf url u : url_clean url -> parse url = Ok u -> upstream_wf u.
Proof.
  intros [Hutf Hvis] H. destruct (parse_ok url u H) as (-> & Hne & _ & Hb & _).
  apply Forall_app in Hvis as [_ [Ha Hp]%Forall_app].
  rewrite utf8_valid_app in Hutf by done.
  unfold upstream_wf. split_and!; [done..| |].
  - destruct Hb as [Hb|[p Hb]]; rewrite Hb in Hutf; [by rewrite app_nil_r in Hutf|].
    by apply utf8_valid_cut in Hutf as [? _].
  - destruct Hb as [Hb|[p Hb]]; rewrite Hb in *; [done|].
    by apply utf8_valid_cut in Hutf as [_ ?].
Qed.

Lemma last_occurrence (c : byte) (s : bytes) :
  c ∈ s -> exists x y, s = x ++ c :: y /\ (c ∉ y).
Proof.
  intros H. destruct (split_once (reverse s) c) as [[x y]|] eqn:E.
  - apply split_once_Some in E as [E Hx]. exists (reverse y), (reverse x).
    rewrite elem_of_reverse. split; [|done]. apply (f_equal reverse) in E.
    rewrite reverse_involutive, reverse_app, reverse_cons in E.
    by rewrite <- app_assoc in E.
  - apply split_once_None in E. by rewrite elem_of_reverse in E.
Qed.

Lemma rsplit_once_is_Some s c p : rsplit_once s c = Some p -> c ∈ s.
Proof.
  unfold rsplit_once. destruct (split_once (reverse s) c) as [[x y]|] eqn:E; [|done].
  intros _. apply split_once_Some in E as [E _]. apply elem_of_reverse. rewrite E.
  set_solver.
Qed.

Lemma parse_connect_address_ok a c :
  parse_connect_address a = Ok c -> (c = a /\ (":"%byte ∈ a)) \/ c = a ++ str ":80".
Proof.
  unfold parse_connect_address. destruct (starts_with a (str "[")).
  - intros H. inv_ok. destruct (_ =? _); [inv_ok; auto|].
    case_decide as Hc; [|done]. inv_ok. left. split; [done|].
    by eapply list_elem_of_lookup_2.
  - destruct (rsplit_once a ":"%byte) eqn:E; intros H; inv_ok; [left|auto].
    split; [done|]. by eapply rsplit_once_is_Some.
Qed.

(** The content-length headers survive unless the client lists them as
    connection options. *)
Lemma forwarded_content_lengths u r :
  (str "content-length" ∉ connection_headers r) ->
  content_lengths (forwarded u r) = content_lengths r.
Proof.
  intros Hc. unfold content_lengths. f_equal. cbn [forwarded headers].
  rewrite filter_cons_False by done. rewrite filter_app.
  rewrite (filter_cons_False _ (mkHeader (str "connection") _)) by done.
  rewrite filter_nil, app_nil_r, list_filter_filter.
  apply list_filter_iff. intros h. split; [by intros []|].
  intros Hn. split; [done|]. unfold is_dropped. rewrite Hn.
  by rewrite (bool_decide_eq_false_2 _ Hc).
Qed.

Lemma is_dropped_false r h :
  is_dropped r h = false <-> (name h ∉ hop_by_hop) /\ (name h ∉ connection_headers r).
Proof. unfold is_dropped. by rewrite orb_false_iff, !bool_decide_eq_false. Qed.

Lemma forwarded_named u r n :
  n ∈ hop_by_hop ->
  filter (fun h => name h = n) (headers (forwarded u r)) =
    filter (fun h => name h = n)
      [mkHeader (str "host") (authority u); mkHeader (str "connection") (str "close")].
Proof.
  intros Hn. cbn [forwarded headers].
  change (?a :: ?l ++ ?k) with ([a] ++ l ++ k). rewrite !filter_app.
  assert (filter (fun h => name h = n)
    (filter (fun h => is_dropped r h = false) (headers r)) = []) as ->.
  { destruct (filter _ (filter _ _)) as [|h hs] eqn:E; [done|]. exfalso.
    assert (Hh : h ∈ h :: hs) by (by left). rewrite <- E in Hh.
    apply list_elem_of_filter in Hh as [Hh [Hd _]%list_elem_of_filter].
    apply is_dropped_false in Hd as [Hd _]. congruence. }
  rewrite app_nil_l, <- filter_app. done.
Qed.

(** ** Properties *)

(** A request whose [Connection] header lists [content-length], with a body that
    is itself a request. *)
Definition smuggled : bytes := line "GET /admin HTTP/1.1" ++ line "Host: internal" ++ crlf.

Definition smuggling_request : bytes :=
  line "POST / HTTP/1.1" ++ line "Host: example.com" ++
  line "Connection: content-length" ++ str "Content-Length: " ++ dec (len smuggled) ++ crlf ++
  crlf.

Definition example_url : bytes := str "http://api.internal:8080/v1/".

Lemma example_url_clean : url_clean example_url.
Proof. split; [reflexivity|by repeat constructor]. Qed.

(** The bytes of a forwarded request parse to it and leave the body. *)
Lemma forwarded_parses b r n url u body :
  parse_request_head b = Ok (Complete r n) ->
  url_clean url -> parse url = Ok u ->
  len (request_bytes u r []) <= MAX_REQUEST_HEAD_SIZE + 4 ->
  exists k, parse_request_head (request_bytes u r body) = Ok (Complete (forwarded u r) k) /\
    drop (N.to_nat k) (request_bytes u r body) = body.
Proof.
  intros (i & Hi & _ & Hu & Ht & _)%parse_request_head_Complete Hurl Hp Hl.
  exists (len (join_lines (forwarded_lines u r)) + 4).
  pose proof Ht as Hwf%parse_head_text_wf. apply parse_head_text_utf8 in Ht; [|done].
  rewrite request_bytes_lines in Hl. rewrite !len_app in Hl. change (len crlf) with 2 in Hl.
  rewrite len_nil in Hl. split.
  - apply parse_forwarded; [by eapply parse_wf|done|done|lia].
  - rewrite request_bytes_lines, app_assoc, drop_app_length'; [done|].
    rewrite length_app. unfold len. simpl. lia.
Qed.

(** C13. The upstream server sees the request it is meant to see: for a request
    the worker accepted and a configured URL of visible characters, parsing the
    bytes sent to the upstream gives the method, the target below the URL's base
    path, HTTP/1.1, the authority as [Host], the end-to-end headers in their
    order and [Connection: close], and leaves exactly the body. *)
Theorem forwarded_round_trip b r n url u body :
  parse_request_head b = Ok (Complete r n) ->
  url_clean url -> parse url = Ok u ->
  len (request_bytes u r []) <= MAX_REQUEST_HEAD_SIZE + 4 ->
  exists k, parse_request_head (request_bytes u r body) = Ok (Complete (forwarded u r) k) /\
    drop (N.to_nat k) (request_bytes u r body) = body.
Proof. apply forwarded_parses. Qed.

Lemma forwarded_round_trip_witness :
  exists r n u k, parse_request_head example_request = Ok (Complete r n) /\
    parse example_url = Ok u /\
    parse_request_head (request_bytes u r (str "{}")) = Ok (Complete (forwarded u r) k) /\
    target (forwarded u r) = str "/v1/api".
Proof.
  destruct (parse_request_head example_request) as [[|r n]|e] eqn:E;
    try (exfalso; vm_compute in E; discriminate E).
  destruct (parse example_url) as [u|e] eqn:Eu;
    try (exfalso; vm_compute in Eu; discriminate Eu).
  destruct (forwarded_round_trip _ _ _ _ _ (str "{}") E example_url_clean Eu) as (k & Hk & _).
  - vm_compute in E. injection E as <- <-. vm_compute in Eu. injection Eu as <-.
    vm_compute. discriminate.
  - exists r, n, u, k. split_and!; [done|done|exact Hk|].
    vm_compute in E. injection E as <- <-. vm_compute in Eu. injection Eu as <-.
    reflexivity.
Defined.

(** The headers that concern one connection only. *)
Definition per_connection : list bytes :=
  [str "host"; str "connection"; str "proxy-connection"; str "keep-alive";
   str "transfer-encoding"; str "upgrade"].

(** The two headers of its own that the worker sends. *)
Definition own_headers (u : Upstream) : list Header :=
  [mkHeader (str "host") (authority u); mkHeader (str "connection") (str "close")].

Lemma own_header_forwarded u r h :
  h ∈ headers (forwarded u r) -> name h ∈ per_connection \/ name h ∈ connection_headers r ->
  h ∈ own_headers u.
Proof.
  cbn [forwarded headers]. rewrite elem_of_cons, elem_of_app. unfold own_headers.
  intros [->|[[Hd _]%list_elem_of_filter|E]] Hn; [by left| |].
  - apply is_dropped_false in Hd as [H1 H2]. by destruct Hn.
  - apply list_elem_of_singleton in E as ->. by right; left.
Qed.

Lemma forwarded_body_length u r n :
  body_length r = Ok n -> (str "content-length" ∉ connection_headers r) ->
  body_length (forwarded u r) = Ok n.
Proof.
  intros Hb Hc. apply body_length_ok. apply body_length_ok in Hb as (_ & Hl & H0).
  unfold body_length_spec. rewrite (forwarded_content_lengths u r Hc).
  split_and!; [|done..]. apply Forall_forall. intros h Hh En.
  assert (Hf : h ∈ filter (fun h => name h = str "transfer-encoding") (headers (forwarded u r)))
    by (by apply list_elem_of_filter).
  rewrite forwarded_named in Hf by (by apply (bool_decide_unpack _)). by apply elem_of_nil in Hf.
Qed.

(** C14. Hop-by-hop headers end at the worker and framing survives it: the bytes sent for
    an accepted request parse to a request with one [Host] (the authority), one
    [Connection] ([close]), and no other header that concerns one connection or that the
    client listed as a connection option - so never a [Transfer-Encoding], whatever the
    client sent. Unless [content-length] is so listed, it announces the content lengths
    the client did, so that a body of the length the worker read is the body the upstream
    reads, and nothing follows it. *)
Theorem forwarded_framing b r n url u body :
  parse_request_head b = Ok (Complete r n) -> url_clean url -> parse url = Ok u ->
  len (request_bytes u r []) <= MAX_REQUEST_HEAD_SIZE + 4 ->
  exists q k, parse_request_head (request_bytes u r body) = Ok (Complete q k) /\
    drop (N.to_nat k) (request_bytes u r body) = body /\
    filter (fun h => name h = str "host") (headers q) = [mkHeader (str "host") (authority u)] /\
    filter (fun h => name h = str "connection") (headers q) =
      [mkHeader (str "connection") (str "close")] /\
    Forall (fun h => name h ∈ per_connection \/ name h ∈ connection_headers r ->
      h ∈ own_headers u) (headers q) /\
    ((str "content-length" ∉ connection_headers r) ->
     content_lengths q = content_lengths r /\
     (body_length r = Ok (len body) -> body_length q = Ok (len body))).
Proof.
  intros Hr Hurl Hp Hl.
  destruct (forwarded_parses b r n url u body Hr Hurl Hp Hl) as (k & Hk & Hd).
  exists (forwarded u r), k. rewrite !forwarded_named by (by apply (bool_decide_unpack _)).
  split_and!; try done.
  - apply Forall_forall. intros h. apply own_header_forwarded.
  - intros Hc. split; [by apply forwarded_content_lengths|].
    intros Hb. by apply forwarded_body_length.
Qed.

Lemma forwarded_framing_witness :
  exists r n u q k, parse_request_head example_request = Ok (Complete r n) /\
    parse example_url = Ok u /\
    parse_request_head (request_bytes u r (str "{}")) = Ok (Complete q k) /\
    body_length q = Ok 2.
Proof.
  destruct (parse_request_head example_request) as [[|r n]|e] eqn:E;
    try (exfalso; vm_compute in E; discriminate E).
  destruct (parse example_url) as [u|e] eqn:Eu;
    try (exfalso; vm_compute in Eu; discriminate Eu).
  destruct (forwarded_framing _ _ _ _ _ (str "{}") E example_url_clean Eu)
    as (q & k & Hk & _ & _ & _ & _ & Hf).
  - vm_compute in E. injection E as <- <-. vm_compute in Eu. injection Eu as <-.
    vm_compute. discriminate.
  - exists r, n, u, q, k. split_and!; [done|done|exact Hk|].
    vm_compute in E. injection E as <- <-.
    apply Hf; [apply (bool_decide_unpack _); reflexivity|reflexivity].
Defined.

(** Otherwise framing is lost: the worker reads the body by its content
    length, drops that header, and sends the body after a head that announces
    none, so that what follows the forwarded head is a second request. *)
Theorem connection_option_drops_framing :
  exists r n u k,
    parse_request_head smuggling_request = Ok (Complete r n) /\
    body_length r = Ok (len smuggled) /\ parse example_url = Ok u /\
    parse_request_head (request_bytes u r smuggled) = Ok (Complete (forwarded u r) k) /\
    body_length (forwarded u r) = Ok 0 /\
    is_ok (parse_request_head (drop (N.to_nat k) (request_bytes u r smuggled))) = true.
Proof. do 4 eexists. repeat (split; [vm_compute; reflexivity|]). vm_compute. reflexivity. Qed.

(** An accepted upstream URL is [http://], an authority and a path, nothing
    lost; the authority is not empty and has no user, query or fragment; and the
    address to connect to is the authority with a port, 80 when it names none. *)
Theorem parse_correct url u :
  parse url = Ok u ->
  url = str "http://" ++ authority u ++ base_path u /\
  authority u <> [] /\ Forall (fun b => b ∉ str "/@?#") (authority u) /\
  (base_path u = [] \/ (exists p, base_path u = "/"%byte :: p)) /\
  exists host port, connect_address u = host ++ ":"%byte :: port /\
    (":"%byte ∉ port) /\
    (authority u = connect_address u \/ (authority u = host /\ port = str "80")).
Proof.
  intros (Hurl & Hne & Hs & Hb & Ha & Hq & Hf & Hc)%parse_ok.
  split_and!; [done|done| |done|].
  - apply Forall_forall. intros b Hin. cbn [str]. set_solver.
  - apply parse_connect_address_ok in Hc as [[E Hc]|E].
    + rewrite <- E in Hc. destruct (last_occurrence _ _ Hc) as (x & y & Ex & Hy).
      exists x, y. auto.
    + exists (authority u), (str "80"). split_and!; [done| |auto].
      by apply (bool_decide_unpack _).
Qed.

Lemma parse_correct_witness :
  exists u host port, parse example_url = Ok u /\
    connect_address u = host ++ ":"%byte :: port /\ (":"%byte ∉ port).
Proof.
  destruct (parse example_url) as [u|e] eqn:Eu;
    try (exfalso; vm_compute in Eu; discriminate Eu).
  destruct (parse_correct example_url u Eu) as (_ & _ & _ & _ & host & port & H1 & H2 & _).
  by exists u, host, port.
Defined.
