(* ===== verification/StaticFiles.v ===== *)
(** * Static files ([run/slave/src/static_files.rs])

    From a request target to a file below a root directory: percent decoding,
    path resolution, byte ranges, responses, and the thread that streams a file
    through a bounded channel. The file system and [mime_guess] are interfaces. *)

From S2P Require Import Prelude RustStd Http Router.

Local Open Scope N_scope.

(** ** Paths: [std::path] on Unix *)

Module UnixPath.

Inductive Component :=
| RootDir
| CurDir
| ParentDir
| Normal (part : bytes).

#[export] Instance Component_eq_dec : EqDecision Component.
Proof. solve_decision. Defined.

Definition slash : byte := "/"%byte.

Definition is_absolute (p : bytes) : bool := starts_with p [slash].

(** A piece between slashes; empty pieces and inner [.] are skipped. *)
Definition piece (s : bytes) : option Component :=
  if decide (s = []) then None
  else if decide (s = str ".") then None
  else if decide (s = str "..") then Some ParentDir
  else Some (Normal s).

(** [Path::components]. Only a leading [.] of a relative path is kept. *)
Definition components (p : bytes) : list Component :=
  if is_absolute p then RootDir :: omap piece (split_char p slash)
  else
    (if decide (head (split_char p slash) = Some (str ".")) then [CurDir] else [])
    ++ omap piece (split_char p slash).

(** [Path::starts_with] compares whole components. *)
Definition path_starts_with (p base : bytes) : bool :=
  bool_decide (components base `prefix_of` components p).

(** [PathBuf::push], hence [Path::join]. *)
Definition push (p q : bytes) : bytes :=
  if is_absolute q then q
  else
    match last p with
    | Some b => if decide (b = slash) then p ++ q else p ++ slash :: q
    | None => q
    end.

End UnixPath.

Import UnixPath.

(** ** Interfaces *)

Record Metadata := mkMetadata {
  md_len : N;
  (** nanoseconds since the epoch, when the platform has modification times *)
  modified : io_result Z;
  is_dir : bool;
  is_file : bool;
}.

(** The file system during one request. *)
Class Filesystem := {
  File : Type;
  canonicalize : bytes -> io_result bytes;
  metadata : bytes -> io_result Metadata;
  fs_read : bytes -> io_result bytes;
  open : bytes -> io_result File;
  seek : File -> N -> io_result unit;
  (** [read_exact] of so many bytes at an offset *)
  read_exact : File -> N -> N -> io_result bytes;
}.

(** The media type [mime_guess] finds for a path: [type_], [subtype] and
    [essence_str]. *)
Class MimeGuess := {
  mime_type : bytes -> bytes;
  mime_subtype : bytes -> bytes;
  mime_essence : bytes -> bytes;
}.

Inductive StaticError :=
| BadRequest
| Forbidden
| MethodNotAllowed
| NotFound
| TooLarge
| RangeNotSatisfiable
| Io (e : ErrorKind).

Definition MAX_IN_MEMORY_STATIC_FILE_SIZE : N := 4 * 1024 * 1024.
Definition STREAM_CHUNK_SIZE : N := 64 * 1024.

Definition map_io_error (error : ErrorKind) : StaticError :=
  match error with
  | RustStd.NotFound => NotFound
  | PermissionDenied => Forbidden
  | e => Io e
  end.

(** ** Request targets *)

Record RequestTarget := mkRequestTarget {
  path : bytes;
  query : option bytes;
}.

Definition hex (b : byte) : option N :=
  if between 48 57 b then Some (Byte.to_N b - 48)
  else if between 97 102 b then Some (Byte.to_N b - 97 + 10)
  else if between 65 70 b then Some (Byte.to_N b - 65 + 10)
  else None.

(** The loop of [percent_decode]; [high << 4 | low] on bytes. *)
Fixpoint percent_decode (raw : bytes) : result StaticError bytes :=
  match raw with
  | [] => Ok []
  | b :: raw =>
    if decide (b = "%"%byte) then
      match raw with
      | h :: l :: raw =>
        high ← ok_or (hex h) BadRequest;
        low ← ok_or (hex l) BadRequest;
        decoded ← percent_decode raw;
        Ok (byte_of (N.lor (N.shiftl high 4) low) :: decoded)
      | _ => Err BadRequest
      end
    else decoded ← percent_decode raw; Ok (b :: decoded)
  end.

(** The loop of [relative_path] over the components. *)
Fixpoint push_components (relative : bytes) (cs : list Component) :
    result StaticError bytes :=
  match cs with
  | [] => Ok relative
  | RootDir :: cs => push_components relative cs
  | Normal part :: cs => push_components (push relative part) cs
  | CurDir :: _ | ParentDir :: _ => Err Forbidden
  end.

Definition relative_path (path : bytes) : result StaticError bytes :=
  push_components [] (components path).

Definition parse_request_target (raw : bytes) : result StaticError RequestTarget :=
  let '(raw_path, query) :=
    match split_once raw "?"%byte with
    | Some (path, query) => (path, Some query)
    | None => (raw, None)
    end in
  if negb (starts_with raw_path (str "/")) then Err BadRequest
  else
    path ← percent_decode raw_path;
    if negb (utf8_valid path) then Err BadRequest
    else if existsb (fun b => bool_decide (b = x00) || is_ascii_control b) path
    then Err BadRequest
    else _ ← relative_path path; Ok {| path := path; query := query |}.

(** ** Byte ranges *)

Definition parse_range (value : bytes) (length : N) : result StaticError (N * N) :=
  value ← ok_or (strip_prefix value (str "bytes=")) BadRequest;
  if contains_char value ","%byte || (length =? 0) then Err RangeNotSatisfiable
  else
    p ← ok_or (split_once value "-"%byte) BadRequest;
    let '(s, e) := p in
    range ←
      (if decide (s = []) then
         suffix ← ok_or (parse_uint 64 e) BadRequest;
         if suffix =? 0 then Err RangeNotSatisfiable
         else Ok (saturating_sub length suffix, length - 1)
       else
         start ← ok_or (parse_uint 64 s) BadRequest;
         stop ← (if decide (e = []) then Ok (length - 1)
                 else ok_or (parse_uint 64 e) BadRequest);
         Ok (start, N.min stop (length - 1)));
    let '(start, stop) := range in
    if (length <=? start) || (stop <? start) then Err RangeNotSatisfiable
    else Ok (start, stop).

(** ** Resolution and responses *)

Section Serving.

Context {fs : Filesystem} {mime : MimeGuess}.

Definition resolve_static_path (root raw_target : bytes) :
    result StaticError (bytes * Metadata) :=
  target ← parse_request_target raw_target;
  root ← map_err map_io_error (canonicalize root);
  relative ← relative_path (path target);
  candidate ← map_err map_io_error (canonicalize (push root relative));
  if negb (path_starts_with candidate root) then Err Forbidden
  else
    md ← map_err map_io_error (metadata candidate);
    found ←
      (if is_dir md then
         candidate ← map_err map_io_error (canonicalize (push candidate (str "index.html")));
         if negb (path_starts_with candidate root) then Err Forbidden
         else md ← map_err map_io_error (metadata candidate); Ok (candidate, md)
       else Ok (candidate, md));
    let '(candidate, md) := found in
    if negb (is_file md) then Err NotFound else Ok (candidate, md).

Definition content_type (path : bytes) : bytes :=
  if bool_decide (mime_type path = str "text")
     || bool_decide (mime_subtype path ∈ [str "javascript"; str "json"; str "xml"])
  then mime_essence path ++ str "; charset=utf-8"
  else mime_essence path.

Record StaticFile := mkStaticFile {
  file_bytes : bytes;
  file_content_type : bytes;
  content_length : N;
}.

Definition is_get_or_head (method : bytes) : bool :=
  bool_decide (method = str "GET") || bool_decide (method = str "HEAD").

Definition serve_static (root method raw_target : bytes) : result StaticError StaticFile :=
  if negb (is_get_or_head method) then Err MethodNotAllowed
  else
    found ← resolve_static_path root raw_target;
    let '(candidate, md) := found in
    if MAX_IN_MEMORY_STATIC_FILE_SIZE <? md_len md then Err TooLarge
    else
      b ← map_err map_io_error (fs_read candidate);
      Ok {| file_bytes := b; file_content_type := content_type candidate;
            content_length := md_len md |}.

Definition static_error_response (error : StaticError) : bytes :=
  match error with
  | BadRequest => response_bytes_with_body 400 text_plain (str "bad request") true
  | Forbidden => response_bytes_with_body 403 text_plain (str "forbidden") true
  | MethodNotAllowed =>
    response_bytes_with_body 405 text_plain (str "method not allowed") true
  | NotFound => response_bytes_with_body 404 text_plain (str "not found") true
  | TooLarge => response_bytes_with_body 413 text_plain (str "file too large") true
  | RangeNotSatisfiable =>
    response_bytes_with_body 416 text_plain (str "range not satisfiable") true
  | Io _ => response_bytes_with_body 500 text_plain (str "internal server error") true
  end.

Definition static_response_bytes (root method raw_target : bytes) : bytes :=
  match serve_static root method raw_target with
  | Ok file =>
    response_bytes_with_body 200 (file_content_type file) (file_bytes file)
      (negb (bool_decide (method = str "HEAD")))
  | Err error => static_error_response error
  end.

(** ** Streaming *)

(** The loop of the thread of [spawn_file_stream]: what it sends while the
    receiver listens. Every iteration takes at least one byte of [remaining]:
    as many iterations as there are chunks, rounded up, are enough. *)
Fixpoint send_chunks (fuel : nat) (file : File) (offset remaining : N) :
    list (io_result bytes) :=
  match fuel with
  | O => []
  | S fuel =>
    if remaining =? 0 then []
    else
      let size := N.min STREAM_CHUNK_SIZE remaining in
      match read_exact file offset size with
      | Err e => [Err e]
      | Ok buffer =>
        Ok buffer :: send_chunks fuel file (offset + len buffer) (remaining - len buffer)
      end
  end.

Definition stream_messages (path : bytes) (start length : N) : list (io_result bytes) :=
  match open path with
  | Err e => [Err e]
  | Ok file =>
    match seek file start with
    | Err e => [Err e]
    | Ok _ => send_chunks (N.to_nat (length / STREAM_CHUNK_SIZE + 1)) file start length
    end
  end.

Record StaticStreamResponse := mkStaticStreamResponse {
  head : bytes;
  (** the arguments of [spawn_file_stream] *)
  stream : option (bytes * N * N);
}.

(** [duration_since(UNIX_EPOCH).ok()], in whole seconds. *)
Definition modified_secs (md : Metadata) : N :=
  match modified md with
  | Ok t => if (t <? 0)%Z then 0 else Z.to_N (t / 1000000000)
  | Err _ => 0
  end.

Definition quote : bytes := [x22].

Definition etag_of (md : Metadata) : bytes :=
  quote ++ hex_lower (md_len md) ++ str "-" ++ hex_lower (modified_secs md) ++ quote.

Definition not_modified_head (etag : bytes) : bytes :=
  str "HTTP/1.1 304 Not Modified" ++ crlf ++ str "ETag: " ++ etag ++ crlf ++
  str "Cache-Control: public, max-age=3600" ++ crlf ++ str "Connection: close" ++ crlf ++
  crlf.

Definition stream_head (status start stop response_length length : N)
    (content_type etag : bytes) : bytes :=
  str "HTTP/1.1 " ++ dec status ++ str " " ++
  (if status =? 206 then str "Partial Content" else str "OK") ++ crlf ++
  str "Content-Type: " ++ content_type ++ crlf ++
  str "Content-Length: " ++ dec response_length ++ crlf ++
  str "Accept-Ranges: bytes" ++ crlf ++
  str "ETag: " ++ etag ++ crlf ++
  str "Cache-Control: public, max-age=3600" ++ crlf ++
  (if status =? 206 then
     str "Content-Range: bytes " ++ dec start ++ str "-" ++ dec stop ++ str "/" ++
     dec length ++ crlf
   else []) ++
  str "Connection: close" ++ crlf ++ crlf.

(** The range a request asks for, as the status and the first and last byte. *)
Definition requested_range (request : RequestHead) (length : N) :
    result StaticError (N * N * N) :=
  range ← transpose ((fun h => parse_range (value h) length) <$>
                       List.find (named (str "range")) (headers request));
  Ok (match range with
      | Some (start, stop) => (206, start, stop)
      | None => (200, 0, saturating_sub length 1)
      end).

Definition static_stream_response (root : bytes) (request : RequestHead) :
    result StaticError StaticStreamResponse :=
  if negb (is_get_or_head (method request)) then Err MethodNotAllowed
  else
    found ← resolve_static_path root (target request);
    let '(path, md) := found in
    let length := md_len md in
    let etag := etag_of md in
    if existsb (fun h => named (str "if-none-match") h && bool_decide (value h = etag))
         (headers request)
    then Ok {| head := not_modified_head etag; stream := None |}
    else
      range ← requested_range request length;
      let '(status, start, stop) := range in
      let response_length := if length =? 0 then 0 else stop - start + 1 in
      Ok {| head := stream_head status start stop response_length length
                      (content_type path) etag;
            stream := if bool_decide (method request = str "GET") && (0 <? response_length)
                      then Some (path, start, response_length) else None |}.

End Serving.

(** ** The channel between the reading thread and the worker

    [mpsc::sync_channel(2)]: the thread blocks while two messages are queued and
    drops its end of the channel after the last one. *)
Record Channel := mkChannel {
  unsent : list (io_result bytes);
  queue : list (io_result bytes);
  disconnected : bool;
}.

Inductive StaticChunk :=
| Data (b : bytes)
| Pending
| Finished.

Definition CHANNEL_BOUND : nat := 2.

Definition spawned (messages : list (io_result bytes)) : Channel :=
  {| unsent := messages; queue := []; disconnected := false |}.

(** [StaticStream::try_next]. *)
Definition try_next (c : Channel) : Channel * io_result StaticChunk :=
  match queue c with
  | m :: rest =>
    ({| unsent := unsent c; queue := rest; disconnected := disconnected c |},
     match m with Ok b => Ok (Data b) | Err e => Err e end)
  | [] => (c, Ok (if disconnected c then Finished else Pending))
  end.

(** One step of the thread or of the worker, with what the worker sees. *)
Inductive channel_step : Channel -> list (io_result StaticChunk) -> Channel -> Prop :=
| step_send m rest q :
    (length q < CHANNEL_BOUND)%nat ->
    channel_step (mkChannel (m :: rest) q false) [] (mkChannel rest (q ++ [m]) false)
| step_drop q : channel_step (mkChannel [] q false) [] (mkChannel [] q true)
| step_try_next c c' r :
    try_next c = (c', r) -> channel_step c [r] c'.

Inductive channel_run : Channel -> list (io_result StaticChunk) -> Channel -> Prop :=
| run_nil c : channel_run c [] c
| run_snoc c rs c1 rs' c2 :
    channel_run c rs c1 -> channel_step c1 rs' c2 -> channel_run c (rs ++ rs') c2.

(** ** Specification *)

(** The strings a percent-encoded string stands for. *)
Inductive encodes : bytes -> bytes -> Prop :=
| encodes_nil : encodes [] []
| encodes_plain b raw d :
    b <> "%"%byte -> encodes raw d -> encodes (b :: raw) (b :: d)
| encodes_escape h l high low raw d :
    hex h = Some high -> hex l = Some low -> encodes raw d ->
    encodes ("%"%byte :: h :: l :: raw) (byte_of (16 * high + low) :: d).

(** Every byte escaped. *)
Definition escape (b : byte) : bytes :=
  ["%"%byte; digit_byte (Byte.to_N b / 16); digit_byte (Byte.to_N b mod 16)].

Definition percent_encode (d : bytes) : bytes := mjoin (escape <$> d).

(** A file name: what a request may put below the root. *)
Definition plain_part (s : bytes) : Prop :=
  s <> [] /\ s <> str "." /\ s <> str ".." /\ (slash ∉ s).

(** What the worker has received. *)
Definition received (r : io_result StaticChunk) : list (io_result bytes) :=
  match r with
  | Ok (Data b) => [Ok b]
  | Ok _ => []
  | Err e => [Err e]
  end.

(** ** Lemmas *)

Lemma hex_bound b n : hex b = Some n -> n < 16.
Proof.
  intros H. assert (E : match hex b with Some n => n <? 16 | None => true end = true)
    by (by destruct b). rewrite H in E. by apply N.ltb_lt.
Qed.

Lemma hex_digit_byte n : n < 16 -> hex (digit_byte n) = Some n.
Proof.
  intros Hn. apply (bool_decide_eq_true_1 _).
  revert n Hn. apply (check_below 16 (fun n => bool_decide (hex (digit_byte n) = Some n))).
  by vm_compute.
Qed.

(** [high << 4 | low] joins two digits. *)
Lemma nibbles high low :
  high < 16 -> low < 16 -> N.lor (N.shiftl high 4) low = 16 * high + low.
Proof.
  intros Hh Hl. apply N.eqb_eq. revert low Hl.
  apply (check_below 16 (fun low => N.lor (N.shiftl high 4) low =? 16 * high + low)).
  revert high Hh. apply (check_below 16 (fun high => forallb _ _)). by vm_compute.
Qed.

Lemma percent_decode_encodes raw d : percent_decode raw = Ok d <-> encodes raw d.
Proof.
  split.
  - remember (length raw) as n eqn:Hn. revert raw d Hn.
    induction (lt_wf n) as [n _ IH]. intros [|b raw] d -> H; cbn [percent_decode] in H.
    { inv_ok. constructor. }
    case_decide as Eb.
    + destruct raw as [|h [|l raw]]; try done. inv_ok.
      rewrite nibbles by (by eapply hex_bound). constructor; [done..|].
      eapply (IH (length raw)); [simpl; lia|done..].
    + inv_ok. constructor; [done|]. eapply (IH (length raw)); [simpl; lia|done..].
  - induction 1 as [|b raw d Hb _ IH|h l high low raw d Hh Hl _ IH]; [done| |];
      cbn [percent_decode].
    + rewrite decide_False, IH by done. done.
    + rewrite decide_True, Hh, Hl by done. cbn [ok_or mbind result_bind]. rewrite IH.
      cbn [ok_or mbind result_bind]. rewrite nibbles by (by eapply hex_bound). done.
Qed.

Lemma to_N_bound b : Byte.to_N b < 256.
Proof. by destruct b. Qed.

Lemma byte_of_id b : byte_of (Byte.to_N b) = b.
Proof. unfold byte_of. by rewrite Byte.of_to_N. Qed.

Lemma percent_encode_encodes d : encodes (percent_encode d) d.
Proof.
  unfold percent_encode. induction d as [|b d IH]; [constructor|].
  rewrite fmap_cons, mjoin_cons. cbn [escape app].
  pose proof (to_N_bound b) as Hb.
  rewrite <- (byte_of_id b) at 3. rewrite (N.div_mod (Byte.to_N b) 16) at 3 by done.
  constructor; [| |exact IH].
  - apply hex_digit_byte, N.Div0.div_lt_upper_bound. lia.
  - by apply hex_digit_byte, N.mod_lt.
Qed.

(** *** Paths *)

Lemma split_by_app p x c s :
  p c = true -> split_by p (x ++ c :: s) = split_by p x ++ split_by p s.
Proof.
  intros Hc. induction x as [|b x IH]; simpl; [by rewrite Hc|].
  destruct (p b); [by rewrite IH|]. rewrite IH.
  destruct (split_by p x) as [|w ws] eqn:E; [|done].
  by destruct (split_by_not_nil p x).
Qed.

Lemma split_slash_app x s :
  split_char (x ++ slash :: s) slash = split_char x slash ++ split_char s slash.
Proof. apply split_by_app. by vm_compute. Qed.

Lemma split_char_not_nil s : split_char s slash <> [].
Proof. apply split_by_not_nil. Qed.

Lemma split_char_plain s : (slash ∉ s) -> split_char s slash = [s].
Proof.
  intros H. apply split_by_none, Forall_forall. intros b Hb.
  apply bool_decide_eq_false. by intros ->.
Qed.

Lemma is_absolute_app p q : p <> [] -> is_absolute (p ++ q) = is_absolute p.
Proof. by destruct p as [|b [|c p]]. Qed.

Lemma head_app (l k : list bytes) : l <> [] -> List.hd_error (l ++ k) = List.hd_error l.
Proof. by destruct l. Qed.

Lemma components_app p q :
  p <> [] -> components (p ++ slash :: q) = components p ++ omap piece (split_char q slash).
Proof.
  intros Hp. unfold components. rewrite is_absolute_app by done.
  rewrite split_slash_app, omap_app, head_app by apply split_char_not_nil.
  destruct (is_absolute p); simpl; [done|]. by rewrite app_assoc.
Qed.

(** A relative path without a leading [.]. *)
Definition relative (q : bytes) : Prop :=
  is_absolute q = false /\ List.hd_error (split_char q slash) <> Some (str ".").

Lemma components_relative q : relative q -> components q = omap piece (split_char q slash).
Proof. intros [Ha Hd]. unfold components. rewrite Ha. by rewrite decide_False. Qed.

(** Pushing a relative path appends its components. *)
Lemma components_push p q :
  relative q -> components (push p q) = components p ++ components q.
Proof.
  intros Hq. rewrite (components_relative q Hq). pose proof Hq as [Ha _].
  unfold push. rewrite Ha. destruct (last p) as [b|] eqn:E.
  - apply last_Some in E as [p' ->]. case_decide as Eb.
    + subst b. rewrite <- app_assoc. cbn [app]. destruct p' as [|c p'].
      * reflexivity.
      * rewrite !components_app by done. simpl. by rewrite app_nil_r.
    + rewrite components_app; [done|]. by destruct p'.
  - apply last_None in E as ->. by rewrite (components_relative q Hq).
Qed.

Lemma plain_part_relative s : plain_part s -> relative s.
Proof.
  intros (Hne & Hd & _ & Hs). split.
  - unfold is_absolute. destruct s as [|b s]; [done|]. cbn [starts_with].
    rewrite bool_decide_eq_false_2; [done|]. intros <-. apply Hs. by left.
  - rewrite split_char_plain by done. by intros [= ?].
Qed.

Lemma components_plain_part s : plain_part s -> components s = [Normal s].
Proof.
  intros Hp. rewrite components_relative by (by apply plain_part_relative).
  destruct Hp as (Hne & Hd & Hdd & Hs). rewrite split_char_plain by done. simpl.
  unfold piece. by rewrite !decide_False.
Qed.

(** The components of a path, as pieces: what [components] can produce. *)
Lemma piece_Some s c :
  (slash ∉ s) -> piece s = Some c -> c = ParentDir \/ (c = Normal s /\ plain_part s).
Proof.
  intros Hs. unfold piece. repeat case_decide; intros; simplify_eq; [auto|].
  right. by split_and!.
Qed.

Lemma push_components_ok rel cs out :
  (forall part, Normal part ∈ cs -> plain_part part) ->
  push_components rel cs = Ok out ->
  exists parts, Forall plain_part parts /\
    components out = components rel ++ (Normal <$> parts) /\
    filter (fun c => c <> RootDir) cs = Normal <$> parts.
Proof.
  revert rel. induction cs as [|c cs IH]; intros rel Hp H; simpl in H.
  { inv_ok. exists []. by rewrite app_nil_r. }
  destruct c as [| | |part]; try done.
  - destruct (IH rel) as (parts & H1 & H2 & H3); [set_solver|done|].
    exists parts. split_and!; [done..|]. by rewrite filter_cons_False by (intros E; by apply E).
  - assert (Hpart : plain_part part) by (apply Hp; by left).
    destruct (IH (push rel part)) as (parts & H1 & H2 & H3); [set_solver|done|].
    exists (part :: parts). split_and!.
    + by constructor.
    + rewrite H2, components_push by (by apply plain_part_relative).
      rewrite (components_plain_part part) by done. by rewrite <- app_assoc.
    + rewrite filter_cons_True by (by intros [=]). by rewrite H3.
Qed.

Lemma components_plain p part : Normal part ∈ components p -> plain_part part.
Proof.
  assert (H : Normal part ∈ omap piece (split_char p slash) -> plain_part part).
  { intros (s & Hs & Hp)%list_elem_of_omap.
    apply split_by_pieces in Hs. destruct (piece_Some s (Normal part)) as [?|[E ?]];
      [|done|done|by injection E as ->].
    intros Hin. rewrite Forall_forall in Hs. by specialize (Hs _ Hin). }
  unfold components. destruct (is_absolute p).
  - intros [?|?]%elem_of_cons; [done|auto].
  - intros [Hc|?]%elem_of_app; [|auto]. case_decide; [|by apply elem_of_nil in Hc].
    by apply list_elem_of_singleton in Hc.
Qed.

Lemma relative_path_ok p out :
  relative_path p = Ok out ->
  exists parts, Forall plain_part parts /\ components out = Normal <$> parts /\
    filter (fun c => c <> RootDir) (components p) = Normal <$> parts.
Proof.
  intros H. unfold relative_path in H. apply push_components_ok in H as (parts & H1 & H2 & H3).
  - by exists parts.
  - intros part. apply components_plain.
Qed.

(** An absolute path begins with its only [RootDir]. *)
Lemma components_absolute p :
  is_absolute p = true ->
  components p = RootDir :: filter (fun c => c <> RootDir) (components p).
Proof.
  intros Ha. unfold components. rewrite Ha. rewrite filter_cons_False by (intros E; by apply E).
  f_equal. induction (split_char p slash) as [|s l IH]; [done|].
  cbn [omap list_omap]. destruct (piece s) as [c|] eqn:E; [|exact IH].
  rewrite filter_cons_True; [by f_equal|]. intros ->. revert E.
  unfold piece. by repeat case_decide.
Qed.

(** What [push_components] makes is itself relative. *)
Lemma components_Normal_relative q parts :
  components q = Normal <$> parts -> is_absolute q = false /\
  List.hd_error (split_char q slash) <> Some (str ".").
Proof.
  unfold components. destruct (is_absolute q).
  - destruct parts; discriminate.
  - case_decide; [|done]. destruct parts; discriminate.
Qed.

(** The path part of a target, and its query. *)
Definition target_parts (raw : bytes) : bytes * option bytes :=
  match split_once raw "?"%byte with
  | Some (p, q) => (p, Some q)
  | None => (raw, None)
  end.

Lemma parse_request_target_ok raw t :
  parse_request_target raw = Ok t ->
  query t = (target_parts raw).2 /\
  encodes (target_parts raw).1 (path t) /\ is_absolute (path t) = true /\
  utf8_valid (path t) = true /\ Forall (fun b => is_ascii_control b = false) (path t) /\
  exists rel parts, relative_path (path t) = Ok rel /\ Forall plain_part parts /\
    components rel = Normal <$> parts /\ components (path t) = RootDir :: (Normal <$> parts).
Proof.
  unfold parse_request_target. fold (target_parts raw).
  destruct (target_parts raw) as [raw_path q]. intros H.
  destruct (starts_with raw_path (str "/")) eqn:Es; [|done]. simpl in H.
  apply bind_ok in H as (p & Hd & H).
  destruct (utf8_valid p) eqn:Eu; [|done]. simpl in H.
  destruct (existsb _ p) eqn:Ec; [done|].
  apply bind_ok in H as (rel & Hrel & H). inv_ok. simpl.
  assert (Ha : is_absolute p = true).
  { apply starts_with_spec in Es as [r ->]. simpl in Hd. by inv_ok. }
  apply relative_path_ok in Hrel as Hparts. destruct Hparts as (parts & H1 & H2 & H3).
  split_and!; [done|by apply percent_decode_encodes|done|done| |].
  - apply existsb_false_Forall in Ec. eapply Forall_impl; [exact Ec|].
    simpl. intros b [_ Hb]%orb_false_iff. done.
  - exists rel, parts. split_and!; [done..|]. rewrite components_absolute by done.
    by rewrite H3.
Qed.

Section Resolution.

Context {fs : Filesystem} {mime : MimeGuess}.

Lemma path_starts_with_true p base :
  path_starts_with p base = true <-> components base `prefix_of` components p.
Proof. apply bool_decide_eq_true. Qed.

(** What is known of a resolved path. *)
Definition resolved (canon : bytes) (parts : list bytes) (p : bytes) (md : Metadata) : Prop :=
  components canon `prefix_of` components p /\ metadata p = Ok md /\ is_file md = true /\
  exists joined first md1,
    components joined = components canon ++ (Normal <$> parts) /\
    canonicalize joined = Ok first /\ metadata first = Ok md1 /\
    (if is_dir md1
     then components canon `prefix_of` components first /\
          canonicalize (push first (str "index.html")) = Ok p
     else p = first).

Lemma resolve_static_path_ok root raw p md :
  resolve_static_path root raw = Ok (p, md) ->
  exists t canon parts, parse_request_target raw = Ok t /\ canonicalize root = Ok canon /\
    Forall plain_part parts /\ components (path t) = RootDir :: (Normal <$> parts) /\
    resolved canon parts p md.
Proof.
  unfold resolve_static_path. intros H. apply bind_ok in H as (t & Ht & H).
  apply bind_ok in H as (canon & Hroot%map_err_ok & H).
  apply bind_ok in H as (rel & Hrel & H). apply bind_ok in H as (cand & Hc%map_err_ok & H).
  destruct (path_starts_with cand canon) eqn:E1; [|done]. simpl in H.
  apply path_starts_with_true in E1.
  apply bind_ok in H as (md1 & Hmd%map_err_ok & H). apply bind_ok in H as ([p' md'] & Hf & H).
  destruct (is_file md') eqn:Ef; [|done]. simpl in H. injection H as -> ->.
  destruct (parse_request_target_ok raw t Ht) as (_ & _ & _ & _ & _ & rel' & parts & Hr & Hp & Hcr & Hcp).
  rewrite Hrel in Hr. injection Hr as <-.
  exists t, canon, parts. split_and!; [done..|].
  assert (Hj : components (push canon rel) = components canon ++ (Normal <$> parts)).
  { rewrite <- Hcr. apply components_push. by eapply components_Normal_relative. }
  destruct (is_dir md1) eqn:Ed.
  - apply bind_ok in Hf as (p2 & Hp2%map_err_ok & Hf).
    destruct (path_starts_with p2 canon) eqn:E2; [|done]. simpl in Hf.
    apply path_starts_with_true in E2.
    apply bind_ok in Hf as (md2 & Hmd2%map_err_ok & Hf). injection Hf as -> ->.
    unfold resolved. split_and!; [done..|]. exists (push canon rel), cand, md1.
    rewrite Ed. by split_and!.
  - injection Hf as <- <-. unfold resolved. split_and!; [done..|].
    exists (push canon rel), cand, md1. rewrite Ed. by split_and!.
Qed.

End Resolution.

(** *** Ranges *)

Lemma parse_range_bounds v length s e :
  parse_range v length = Ok (s, e) -> s <= e < length.
Proof.
  unfold parse_range. intros H. apply bind_ok in H as (v' & _ & H).
  destruct (_ || _) eqn:E0; [done|]. apply orb_false_iff in E0 as [_ E0%N.eqb_neq].
  apply bind_ok in H as ([s' e'] & _ & H). apply bind_ok in H as ([s2 e2] & Hr & H).
  destruct (_ || _) eqn:E; [done|]. injection H as <- <-.
  apply orb_false_iff in E as [E1%N.leb_gt E2%N.ltb_ge]. split; [done|].
  case_decide.
  - apply bind_ok in Hr as (n & _ & Hr). destruct (n =? 0); [done|]. inv_ok.
    unfold saturating_sub in *. lia.
  - inv_ok. lia.
Qed.

Definition range_value (first last : bytes) : bytes := str "bytes=" ++ first ++ str "-" ++ last.

Lemma range_value_parts length a b :
  0 < length -> "-"%byte ∉ a -> (","%byte ∉ a) -> (","%byte ∉ b) ->
  parse_range (range_value a b) length =
    (range ←
      (if decide (a = []) then
         suffix ← ok_or (parse_uint 64 b) BadRequest;
         if suffix =? 0 then Err RangeNotSatisfiable
         else Ok (saturating_sub length suffix, length - 1)
       else
         start ← ok_or (parse_uint 64 a) BadRequest;
         stop ← (if decide (b = []) then Ok (length - 1)
                 else ok_or (parse_uint 64 b) BadRequest);
         Ok (start, N.min stop (length - 1)));
    let '(start, stop) := range in
    if (length <=? start) || (stop <? start) then Err RangeNotSatisfiable
    else Ok (start, stop)).
Proof.
  intros Hl Ha Hca Hcb. unfold parse_range, range_value.
  assert (strip_prefix (str "bytes=" ++ a ++ str "-" ++ b) (str "bytes=") = Some (a ++ "-"%byte :: b))
    as -> by reflexivity.
  cbn [ok_or mbind result_bind].
  assert (contains_char (a ++ "-"%byte :: b) ","%byte = false) as ->.
  { apply bool_decide_eq_false. rewrite elem_of_app, elem_of_cons. naive_solver. }
  rewrite (proj2 (N.eqb_neq length 0)) by lia. cbn [orb].
  by rewrite split_once_app.
Qed.

(** *** Streams *)

(** An open file with the given contents. *)
Definition file_contains {fs : Filesystem} (f : File) (data : bytes) : Prop :=
  forall offset n,
    read_exact f offset n =
      if offset + n <=? len data
      then Ok (take (N.to_nat n) (drop (N.to_nat offset) data)) else Err UnexpectedEof.

Definition slice (data : bytes) (start n : N) : bytes :=
  take (N.to_nat n) (drop (N.to_nat start) data).

Lemma len_slice data start n : start + n <= len data -> len (slice data start n) = n.
Proof. unfold slice, len. rewrite length_take, length_drop. lia. Qed.

Lemma slice_app data start n m :
  slice data start n ++ slice data (start + n) m = slice data start (n + m).
Proof.
  unfold slice. rewrite !N2Nat.inj_add, <- drop_drop.
  set (d := drop (N.to_nat start) data).
  rewrite <- (take_drop (N.to_nat n) (take (N.to_nat n + N.to_nat m) d)).
  rewrite take_take, skipn_firstn_comm. f_equal; f_equal; lia.
Qed.

Definition chunk_ok (c : bytes) : Prop := 0 < len c <= STREAM_CHUNK_SIZE.

Lemma send_chunks_ok {fs : Filesystem} fuel f data start n :
  file_contains f data -> start + n <= len data ->
  n <= N.of_nat fuel * STREAM_CHUNK_SIZE ->
  exists chunks, send_chunks fuel f start n = Ok <$> chunks /\
    mjoin chunks = slice data start n /\ Forall chunk_ok chunks.
Proof.
  intros Hf. revert start n. induction fuel as [|fuel IH]; intros start n Hb Hn.
  { assert (n = 0) as -> by lia. by exists []. }
  cbn [send_chunks]. destruct (N.eqb_spec n 0) as [->|Hne]; [by exists []|].
  set (size := N.min STREAM_CHUNK_SIZE n).
  assert (Hs : 0 < size <= STREAM_CHUNK_SIZE /\ size <= n)
    by (subst size; unfold STREAM_CHUNK_SIZE; lia).
  rewrite Hf. destruct (N.leb_spec (start + size) (len data)); [|lia].
  fold (slice data start size). rewrite len_slice by lia.
  destruct (IH (start + size) (n - size)) as (cs & -> & Hj & Hok); [lia| |].
  { subst size. unfold STREAM_CHUNK_SIZE in *. lia. }
  exists (slice data start size :: cs). split_and!; [done| |].
  - rewrite mjoin_cons, Hj, slice_app. f_equal. lia.
  - constructor; [|done]. unfold chunk_ok. rewrite len_slice by lia. lia.
Qed.

Lemma stream_messages_ok {fs : Filesystem} p f data start n :
  open p = Ok f -> seek f start = Ok tt -> file_contains f data ->
  start + n <= len data ->
  exists chunks, stream_messages p start n = Ok <$> chunks /\
    mjoin chunks = slice data start n /\ Forall chunk_ok chunks.
Proof.
  intros Ho Hs Hf Hb. unfold stream_messages. rewrite Ho, Hs.
  apply send_chunks_ok; [done..|]. rewrite N2Nat.id.
  pose proof (N.div_mod n STREAM_CHUNK_SIZE ltac:(done)) as E.
  pose proof (N.mod_lt n STREAM_CHUNK_SIZE ltac:(done)) as Hm.
  revert E Hm. generalize (n / STREAM_CHUNK_SIZE), (n mod STREAM_CHUNK_SIZE). intros. lia.
Qed.

(** What the channel neither loses nor invents. *)
Definition channel_inv (ms : list (io_result bytes)) (rs : list (io_result StaticChunk))
    (c : Channel) : Prop :=
  ms = mjoin (received <$> rs) ++ queue c ++ unsent c /\
  (length (queue c) <= CHANNEL_BOUND)%nat /\
  (disconnected c = true -> unsent c = []) /\
  (Ok Finished ∈ rs -> queue c = [] /\ disconnected c = true).

Lemma channel_step_inv ms rs c rs' c' :
  channel_inv ms rs c -> channel_step c rs' c' -> channel_inv ms (rs ++ rs') c'.
Proof.
  intros (Hms & Hq & Hd & Hf) Hstep. unfold channel_inv.
  destruct Hstep as [m rest q Hlt|q|c c' r Ht]; simpl in *.
  - rewrite app_nil_r. split_and!; [|rewrite length_app; simpl; lia|done|naive_solver].
    by rewrite <- app_assoc.
  - rewrite app_nil_r. split_and!; [done|done|done|naive_solver].
  - rewrite fmap_app, mjoin_app. simpl. rewrite app_nil_r.
    unfold try_next in Ht. destruct (queue c) as [|m q] eqn:Eq.
    + injection Ht as <- <-. rewrite Eq.
      assert (received (Ok (if disconnected c then Finished else Pending)) = []) as ->
        by (by destruct (disconnected c)).
      rewrite ?app_nil_r. split_and!; [done|simpl; lia|done|].
      intros [Hin|Hin%list_elem_of_singleton]%elem_of_app; [naive_solver|].
      by destruct (disconnected c).
    + assert (received r = [m]) as -> by (destruct m; by injection Ht as _ <-).
      injection Ht as <- Hr. simpl in *. split_and!; [|lia|done|].
      * by rewrite <- app_assoc.
      * intros [Hin|Hin%list_elem_of_singleton]%elem_of_app; [naive_solver|].
        destruct m; congruence.
Qed.

Lemma channel_run_inv ms rs c : channel_run (spawned ms) rs c -> channel_inv ms rs c.
Proof.
  intros H. remember (spawned ms) as c0 eqn:E. induction H as [c|c rs c1 rs' c2 H IH Hs].
  - subst. unfold channel_inv; simpl. split_and!; [done|unfold CHANNEL_BOUND; lia|done|].
    by intros ?%elem_of_nil.
  - eauto using channel_step_inv.
Qed.

Lemma channel_run_cons c rs c1 rs' c2 :
  channel_step c rs c1 -> channel_run c1 rs' c2 -> channel_run c (rs ++ rs') c2.
Proof.
  intros Hs Hr. induction Hr as [c1|c1 rs1 c2 rs2 c3 Hr IH Hstep].
  - rewrite app_nil_r, <- (app_nil_l rs). econstructor; [constructor|done].
  - rewrite app_assoc. econstructor; eauto.
Qed.

(** The stream cannot get stuck: some further steps end it. *)
Lemma channel_finishes c :
  (disconnected c = true -> unsent c = []) ->
  exists rs c', channel_run c rs c' /\ Ok Finished ∈ rs.
Proof.
  remember (length (queue c) + 2 * length (unsent c))%nat as n eqn:Hn. revert c Hn.
  induction (lt_wf n) as [n _ IH]. intros [u q d] -> Hd; simpl in *.
  destruct q as [|m q].
  - destruct u as [|m u].
    + assert (Hfin : channel_step (mkChannel [] [] true) [Ok Finished] (mkChannel [] [] true))
        by (by constructor).
      destruct d.
      * exists ([Ok Finished] ++ []), (mkChannel [] [] true).
        split; [eapply channel_run_cons; [done|constructor]|by left].
      * exists ([] ++ ([Ok Finished] ++ [])), (mkChannel [] [] true). split; [|by left].
        do 2 (eapply channel_run_cons; [first [exact Hfin|constructor]|]). constructor.
    + destruct d; [by specialize (Hd eq_refl)|].
      destruct (IH (1 + 2 * length u)%nat ltac:(simpl; lia) (mkChannel u [m] false))
        as (rs & c' & Hr & Hin); [done|done|].
      exists ([] ++ rs), c'. split; [|done].
      eapply channel_run_cons; [|exact Hr].
      apply (step_send m u []). unfold CHANNEL_BOUND. simpl. lia.
  - destruct (IH (length q + 2 * length u)%nat ltac:(simpl; lia) (mkChannel u q d))
      as (rs & c' & Hr & Hin); [done|done|].
    exists ([match m with Ok b => Ok (Data b) | Err e => Err e end] ++ rs), c'.
    split; [|set_solver]. eapply channel_run_cons; [|exact Hr]. by constructor.
Qed.

Definition data_of (r : io_result StaticChunk) : bytes :=
  match r with Ok (Data b) => b | _ => [] end.

Lemma received_data rs chunks :
  mjoin (received <$> rs) = Ok <$> chunks ->
  mjoin (data_of <$> rs) = mjoin chunks /\ Forall (fun r => is_ok r = true) rs.
Proof.
  revert chunks. induction rs as [|r rs IH]; intros chunks H.
  - destruct chunks; [by split|done].
  - rewrite fmap_cons, mjoin_cons in H. rewrite fmap_cons, mjoin_cons.
    destruct r as [[b| |]|e]; simpl in H |- *.
    + destruct chunks as [|c chunks]; [done|]. injection H as -> H.
      destruct (IH chunks H) as [-> ?]. split; [done|by constructor].
    + destruct (IH chunks H) as [-> ?]. split; [done|by constructor].
    + destruct (IH chunks H) as [-> ?]. split; [done|by constructor].
    + by destruct chunks.
Qed.

(** *** Response heads *)

Definition stream_lines (status start stop response_length length : N)
    (content_type etag : bytes) : list bytes :=
  [ str "HTTP/1.1 " ++ dec status ++ str " " ++
      (if status =? 206 then str "Partial Content" else str "OK");
    str "Content-Type: " ++ content_type;
    str "Content-Length: " ++ dec response_length;
    str "Accept-Ranges: bytes";
    str "ETag: " ++ etag;
    str "Cache-Control: public, max-age=3600" ] ++
  (if status =? 206 then
     [str "Content-Range: bytes " ++ dec start ++ str "-" ++ dec stop ++ str "/" ++ dec length]
   else []) ++
  [str "Connection: close"].

Definition not_modified_lines (etag : bytes) : list bytes :=
  [ str "HTTP/1.1 304 Not Modified"; str "ETag: " ++ etag;
    str "Cache-Control: public, max-age=3600"; str "Connection: close" ].

Lemma stream_head_lines status start stop rl l ct etag :
  stream_head status start stop rl l ct etag =
    join_lines (stream_lines status start stop rl l ct etag) ++ (crlf ++ crlf) ++ [].
Proof.
  unfold stream_head, stream_lines. rewrite app_nil_r.
  destruct (status =? 206); cbn [app join_lines]; by rewrite <- ?app_assoc.
Qed.

Lemma not_modified_head_lines etag :
  not_modified_head etag = join_lines (not_modified_lines etag) ++ (crlf ++ crlf) ++ [].
Proof.
  unfold not_modified_head, not_modified_lines. rewrite app_nil_r.
  cbn [join_lines]. by rewrite <- !app_assoc.
Qed.

Lemma hex_lower_no_cr n : CR ∉ hex_lower n.
Proof.
  unfold hex_lower. generalize (S (N.size_nat n)). intros fuel.
  cut (forall acc, (CR ∉ acc) -> CR ∉ print_radix 16 fuel n acc).
  { intros H. apply H, not_elem_of_nil. }
  revert n. induction fuel as [|f IH]; intros n acc H; [done|]. cbn [print_radix].
  assert (CR ∉ digit_byte (n mod 16) :: acc).
  { apply not_elem_of_cons. split; [|done]. intros E.
    pose proof (hex_digit_byte (n mod 16) (N.mod_lt n 16 ltac:(done))) as Hh.
    rewrite <- E in Hh. discriminate Hh. }
  destruct (n / 16 =? 0); auto.
Qed.

(** A string of literals and parts without CR; a line of them. *)
Ltac solve_no_cr :=
  let Hin := fresh in
  rewrite ?elem_of_app; intros Hin;
  repeat match type of Hin with _ \/ _ => destruct Hin as [Hin|Hin] end;
  first [by apply str_no_cr in Hin | by apply dec_no_cr in Hin
        | by apply hex_lower_no_cr in Hin | done].

Ltac solve_line_ok := split; [solve_no_cr|done].

Lemma etag_no_cr md : CR ∉ etag_of md.
Proof.
  unfold etag_of. solve_no_cr.
Qed.

Lemma stream_lines_ok status start stop rl l ct etag :
  (CR ∉ ct) -> (CR ∉ etag) -> Forall line_ok (stream_lines status start stop rl l ct etag).
Proof.
  intros Hct He. unfold stream_lines.
  destruct (status =? 206); cbn [app]; repeat (constructor; [solve_line_ok|]); constructor.
Qed.

Lemma not_modified_lines_ok etag : (CR ∉ etag) -> Forall line_ok (not_modified_lines etag).
Proof. intros He. repeat (constructor; [solve_line_ok|]). constructor. Qed.

(** A head that is its lines and a blank line, with nothing after. *)
Definition head_of_lines (head : bytes) (lines : list bytes) : Prop :=
  find_head_end head = Some (length head - 4)%nat /\
  split_str crlf (take (length head - 4) head) = lines.

Lemma head_of_lines_join ls :
  ls <> [] -> Forall line_ok ls -> head_of_lines (join_lines ls ++ (crlf ++ crlf) ++ []) ls.
Proof.
  intros Hne Hok. unfold head_of_lines. rewrite app_nil_r, length_app.
  replace (length (join_lines ls) + length (crlf ++ crlf) - 4)%nat
    with (length (join_lines ls)) by (simpl; lia).
  rewrite take_app_length. split.
  - rewrite <- (app_nil_r (crlf ++ crlf)). by apply find_blank_line.
  - apply split_str_join; [done|]. eapply Forall_impl; [exact Hok|]. by intros l [].
Qed.

Lemma requested_range_bounds request length status s e :
  requested_range request length = Ok (status, s, e) ->
  (status = 206 /\ s <= e < length) \/ (status = 200 /\ s = 0 /\ e = length - 1).
Proof.
  unfold requested_range. intros H. apply bind_ok in H as (o & Ho & H).
  destruct o as [[s' e']|]; injection H as <- <- <-; [left|by right].
  split; [done|]. destruct (List.find _ _) as [h|]; [|done]. simpl in Ho.
  destruct (parse_range (value h) length) as [[a b]|] eqn:E; [|done]. simpl in Ho.
  injection Ho as <- <-. by eapply parse_range_bounds.
Qed.

(** ** Properties *)

(** A root [/srv] with a file, a directory holding an index, and a link that
    leaves the root. *)
Definition example_canonical (p : bytes) : io_result bytes :=
  let known q := Ok (str q) in
  if decide (components p = components (str "/srv")) then known "/srv"%string
  else if decide (components p = components (str "/srv/a.txt")) then known "/srv/a.txt"%string
  else if decide (components p = components (str "/srv/docs")) then known "/srv/docs"%string
  else if decide (components p = components (str "/srv/docs/index.html"))
  then known "/srv/docs/index.html"%string
  else if decide (components p = components (str "/srv/link")) then known "/etc/passwd"%string
  else Err RustStd.NotFound.

Definition example_data : bytes := str "hello, world".

#[local] Instance example_fs : Filesystem := {
  File := bytes;
  canonicalize := example_canonical;
  metadata p :=
    Ok {| md_len := len example_data; modified := Ok 1000000000%Z;
          is_dir := bool_decide (p ∈ [str "/srv"; str "/srv/docs"]);
          is_file := negb (bool_decide (p ∈ [str "/srv"; str "/srv/docs"])) |};
  fs_read p := Ok example_data;
  open p := Ok example_data;
  seek f n := Ok tt;
  read_exact f offset n :=
    if offset + n <=? len f
    then Ok (take (N.to_nat n) (drop (N.to_nat offset) f)) else Err UnexpectedEof;
}.

#[local] Instance example_mime : MimeGuess := {
  mime_type p := str "text";
  mime_subtype p := str "plain";
  mime_essence p := str "text/plain";
}.

Definition example_range_request : RequestHead :=
  {| method := str "GET"; target := str "/a.txt?v=2"; version := Http11;
     headers := [mkHeader (str "range") (str "bytes=7-11")] |}.

Example link_is_forbidden :
  resolve_static_path (str "/srv") (str "/link") = Err Forbidden.
Proof. reflexivity. Qed.

Example encoded_traversal_is_forbidden :
  resolve_static_path (str "/srv") (str "/docs/%2e%2e/a.txt") = Err Forbidden.
Proof. reflexivity. Qed.

(** C3. Containment: whatever the file system and its links, a path that is
    served is inside the root. It is the canonical form of the root followed by
    plain names (no [.], [..] or separator), or of [index.html] in such a
    directory; it is below the canonical root component by component; and it is a
    file. *)
Theorem resolve_static_path_contained `{Filesystem} root raw p md :
  resolve_static_path root raw = Ok (p, md) ->
  exists t canon parts, parse_request_target raw = Ok t /\ canonicalize root = Ok canon /\
    Forall plain_part parts /\ components (path t) = RootDir :: (Normal <$> parts) /\
    resolved canon parts p md.
Proof. apply resolve_static_path_ok. Qed.

Lemma resolve_static_path_contained_witness :
  exists p md canon parts, resolve_static_path (str "/srv") (str "/d%6Fcs") = Ok (p, md) /\
    p = str "/srv/docs/index.html" /\ resolved canon parts p md.
Proof.
  destruct (resolve_static_path (str "/srv") (str "/d%6Fcs")) as [[p md]|e] eqn:E;
    [|vm_compute in E; discriminate E].
  destruct (resolve_static_path_contained _ _ _ _ E) as (t & canon & parts & _ & _ & _ & _ & H).
  exists p, md, canon, parts. split_and!; [done| |exact H].
  vm_compute in E. injection E as <- _. reflexivity.
Defined.

(** Request targets: an accepted target is its path and query; the path is
    the percent-decoding of the part before the first question mark, valid UTF-8
    without control characters, absolute, and made of plain names only, so that
    the relative path used for the lookup cannot climb. *)
Theorem parse_request_target_correct raw t :
  parse_request_target raw = Ok t ->
  query t = (target_parts raw).2 /\ encodes (target_parts raw).1 (path t) /\
  is_absolute (path t) = true /\
  utf8_valid (path t) = true /\ Forall (fun b => is_ascii_control b = false) (path t) /\
  exists rel parts, relative_path (path t) = Ok rel /\ Forall plain_part parts /\
    components rel = Normal <$> parts /\ components (path t) = RootDir :: (Normal <$> parts).
Proof. apply parse_request_target_ok. Qed.

Lemma parse_request_target_correct_witness :
  exists t, parse_request_target (str "/a%20b?x=1") = Ok t /\ query t = Some (str "x=1") /\
    is_absolute (path t) = true.
Proof.
  destruct (parse_request_target (str "/a%20b?x=1")) as [t|e] eqn:E;
    [|vm_compute in E; discriminate E].
  destruct (parse_request_target_correct _ _ E) as (Hq & _ & Ha & _).
  exists t. split_and!; [done|exact Hq|exact Ha].
Defined.

(** Percent decoding is exactly the inverse of percent encoding: it succeeds
    on the encodings of a string and gives that string, and every string has an
    encoding. *)
Theorem percent_decode_correct :
  (forall raw d, percent_decode raw = Ok d <-> encodes raw d) /\
  (forall d, percent_decode (percent_encode d) = Ok d).
Proof.
  split; [apply percent_decode_encodes|].
  intros d. apply percent_decode_encodes, percent_encode_encodes.
Qed.

(** C40. Ranges: an accepted range lies within the file; [bytes=a-b], [bytes=a-]
    and [bytes=-n] mean what RFC 9110 says, cut at the end of the file; a range
    that starts beyond the file or after its own end is not satisfiable. *)
Theorem parse_range_correct length :
  (forall v s e, parse_range v length = Ok (s, e) -> s <= e < length) /\
  (forall a b, a < length -> a <= b -> length <= 2 ^ 64 -> b < 2 ^ 64 ->
     parse_range (range_value (dec a) (dec b)) length = Ok (a, N.min b (length - 1)) /\
     parse_range (range_value (dec a) []) length = Ok (a, length - 1)) /\
  (forall n, 0 < n < 2 ^ 64 -> 0 < length ->
     parse_range (range_value [] (dec n)) length = Ok (length - n, length - 1)) /\
  (forall a b, 0 < length -> a < 2 ^ 64 -> b < 2 ^ 64 -> (length <= a \/ b < a) ->
     parse_range (range_value (dec a) (dec b)) length = Err RangeNotSatisfiable).
Proof.
  assert (Hd : forall n, dec n <> []).
  { intros n. unfold dec. by destruct (print_radix_cons 10 (N.size_nat n) n []) as (d & s & ->). }
  assert (Hc : forall n, ","%byte ∉ dec n) by (intros n; by apply dec_avoids).
  assert (Hm : forall n, "-"%byte ∉ dec n) by (intros n; by apply dec_avoids).
  split_and!; [intros v s e; apply parse_range_bounds|..].
  - intros a b Ha Hab Hl Hb. rewrite !range_value_parts by (done || lia || apply not_elem_of_nil).
    rewrite !decide_False, !decide_True, !parse_uint_dec by (done || lia).
    cbn [ok_or mbind result_bind].
    rewrite (proj2 (N.leb_gt length a)) by done.
    rewrite !(proj2 (N.ltb_ge _ _)) by lia. split; [done|]. by rewrite N.min_id.
  - intros n Hn Hl. rewrite range_value_parts by (done || lia || apply not_elem_of_nil).
    rewrite decide_True, parse_uint_dec by (done || lia). cbn [ok_or mbind result_bind].
    rewrite (proj2 (N.eqb_neq n 0)) by lia. unfold saturating_sub.
    cbn [mbind result_bind]. rewrite (proj2 (N.leb_gt _ _)) by lia.
    by rewrite (proj2 (N.ltb_ge _ _)) by lia.
  - intros a b Hl Ha Hb Hlt. rewrite range_value_parts by (done || lia).
    rewrite !decide_False, !parse_uint_dec by (done || lia). cbn [ok_or mbind result_bind].
    destruct (N.leb_spec length a); [done|]. rewrite (proj2 (N.ltb_lt _ _)); [done|lia].
Qed.

(** The response announces what the stream will carry: the head is complete
    (it ends with its first blank line); the requested range lies within the
    file; [Content-Length] is the length of the range; and the stream is that
    range of the resolved file, for a [GET] with something to send. *)
Theorem static_stream_framing `{Filesystem, MimeGuess} root request resp :
  (forall p, CR ∉ mime_essence p) ->
  static_stream_response root request = Ok resp ->
  exists p md lines, resolve_static_path root (target request) = Ok (p, md) /\
    head_of_lines (head resp) lines /\
    ((lines = not_modified_lines (etag_of md) /\ stream resp = None) \/
     exists status s e n,
       requested_range request (md_len md) = Ok (status, s, e) /\
       lines = stream_lines status s e n (md_len md) (content_type p) (etag_of md) /\
       s + n <= md_len md /\ (md_len md <> 0 -> n = e - s + 1) /\
       (str "Content-Length: " ++ dec n) ∈ lines /\
       stream resp =
         if bool_decide (method request = str "GET") && (0 <? n) then Some (p, s, n) else None).
Proof.
  intros Hmime H1. unfold static_stream_response in H1.
  destruct (negb _); [done|]. apply bind_ok in H1 as ([p md] & Hres & H1).
  exists p, md. destruct (existsb _ _).
  - injection H1 as <-. exists (not_modified_lines (etag_of md)). split_and!; [done| |by left].
    cbn [head]. rewrite not_modified_head_lines.
    apply head_of_lines_join; [done|]. apply not_modified_lines_ok, etag_no_cr.
  - apply bind_ok in H1 as ([[status s] e] & Hr & H1). injection H1 as <-.
    set (n := if md_len md =? 0 then 0 else e - s + 1).
    exists (stream_lines status s e n (md_len md) (content_type p) (etag_of md)).
    assert (Hct : CR ∉ content_type p).
    { unfold content_type. destruct (_ || _); [|done]. rewrite elem_of_app.
      intros [?|?%str_no_cr]; [by eapply Hmime|done..]. }
    split_and!; [done| |right].
    + cbn [head]. rewrite stream_head_lines. apply head_of_lines_join; [by destruct (_ =? _)|].
      apply stream_lines_ok; [done|apply etag_no_cr].
    + exists status, s, e, n. apply requested_range_bounds in Hr as Hb.
      split_and!; [done|done| | |unfold stream_lines; set_solver|done].
      * subst n. destruct (N.eqb_spec (md_len md) 0); lia.
      * intros Hne. subst n. by rewrite (proj2 (N.eqb_neq _ _) Hne).
Qed.

Lemma static_stream_framing_witness :
  exists resp p md lines, static_stream_response (str "/srv") example_range_request = Ok resp /\
    resolve_static_path (str "/srv") (str "/a.txt?v=2") = Ok (p, md) /\
    head_of_lines (head resp) lines.
Proof.
  destruct (static_stream_response (str "/srv") example_range_request) as [resp|e] eqn:E;
    [|vm_compute in E; discriminate E].
  assert (Hm : forall p, CR ∉ @mime_essence example_mime p)
    by (intros p; by apply str_no_cr).
  destruct (static_stream_framing _ _ _ Hm E)
    as (p & md & lines & Hp & Hl & _).
  by exists resp, p, md, lines.
Defined.

(** C34. Streaming delivers the range: for a file with the given contents,
    whatever the interleaving of the reading thread and the worker, there is no
    error, what the worker has received is a prefix of the range, at most two
    chunks of at most 64 KiB wait in the channel, the end is reported only when
    the range is complete, and it can always be reached. *)
Theorem stream_delivers `{Filesystem} p f data start n rs c :
  open p = Ok f -> seek f start = Ok tt -> file_contains f data ->
  start + n <= len data ->
  channel_run (spawned (stream_messages p start n)) rs c ->
  Forall (fun r => is_ok r = true) rs /\
  mjoin (data_of <$> rs) `prefix_of` slice data start n /\
  (length (queue c) <= CHANNEL_BOUND)%nat /\
  Forall (fun m => exists b, m = Ok b /\ chunk_ok b) (queue c) /\
  (Ok Finished ∈ rs -> mjoin (data_of <$> rs) = slice data start n) /\
  exists rs' c', channel_run c rs' c' /\ Ok Finished ∈ rs'.
Proof.
  intros Ho Hs Hf Hb Hrun.
  destruct (stream_messages_ok p f data start n Ho Hs Hf Hb) as (chunks & Hms & Hj & Hok).
  apply channel_run_inv in Hrun as (Hsplit & Hq & Hd & Hfin). rewrite Hms in Hsplit.
  apply fmap_app_inv in Hsplit as (k1 & k2 & Hk1 & Hk2 & ->).
  symmetry in Hk2. apply fmap_app_inv in Hk2 as (k3 & k4 & Hk3 & Hk4 & ->).
  destruct (received_data rs k1 Hk1) as [Hdata Hall].
  rewrite mjoin_app in Hj. split_and!; [done| |done| | |by apply channel_finishes].
  - rewrite Hdata, <- Hj. by apply prefix_app_r.
  - rewrite Hk3. apply Forall_fmap. rewrite !Forall_app in Hok.
    eapply Forall_impl; [apply Hok|]. simpl. eauto.
  - intros Hin. destruct (Hfin Hin) as [Eq Ed]. rewrite (Hd Ed) in Hk4. rewrite Eq in Hk3.
    symmetry in Hk3, Hk4. apply fmap_nil_inv in Hk3 as ->, Hk4 as ->.
    by rewrite Hdata, <- Hj, app_nil_r.
Qed.

Lemma stream_delivers_witness :
  exists rs' c', channel_run (spawned (stream_messages (str "/srv/a.txt") 7 5)) rs' c' /\
    Ok Finished ∈ rs'.
Proof.
  destruct (@stream_delivers example_fs (str "/srv/a.txt") example_data example_data 7 5 []
    (spawned (stream_messages (str "/srv/a.txt") 7 5))) as (_ & _ & _ & _ & _ & H);
    [done|done|done|done|constructor|exact H].
Defined.
