(* ===== verification/Listener.v ===== *)
(** * Listening sockets ([run/slave/src/listener.rs])

    Servers that listen on one address share a socket, their virtual hosts being
    told apart per request; the first of them is the default. The socket calls
    are an interface. *)

From S2P Require Import Prelude RustStd Config.

Local Open Scope N_scope.

Definition DEFAULT_BACKLOG : Z := 1024.

Record ListenerGroup := mkListenerGroup {
  address : SocketAddr;
  default_server : N;
  server_indices : list N;
}.

(** The calls on [socket2::Socket] made for a listener. *)
Class SocketApi := {
  Socket : Type;
  socket_new : SocketAddr -> io_result Socket;
  set_reuse_address : Socket -> io_result unit;
  set_reuse_port : Socket -> io_result unit;
  set_nonblocking : Socket -> io_result unit;
  bind : Socket -> SocketAddr -> io_result unit;
  listen_backlog : Socket -> Z -> io_result unit;
}.

(** One iteration of the loop of [bind_worker_listeners]. *)
Definition add_server (groups : list ListenerGroup) (server_index : N) (server : Server) :
    list ListenerGroup :=
  let push g :=
    {| address := address g; default_server := default_server g;
       server_indices := server_indices g ++ [server_index] |} in
  match list_find (fun g => address g = listen server) groups with
  | Some (index, _) => alter push index groups
  | None =>
    groups ++ [ push {| address := listen server; default_server := server_index;
                        server_indices := [] |} ]
  end.

Fixpoint add_servers (groups : list ListenerGroup) (index : N) (ss : list Server) :
    list ListenerGroup :=
  match ss with
  | [] => groups
  | s :: ss => add_servers (add_server groups index s) (index + 1) ss
  end.

Definition group_listeners (ss : list Server) : list ListenerGroup := add_servers [] 0 ss.

Section Binding.

Context {api : SocketApi}.

Record BoundListenerGroup := mkBoundListenerGroup {
  socket : Socket;
  group : ListenerGroup;
}.

Definition bind_worker_listener (address : SocketAddr) (backlog : Z) : io_result Socket :=
  if (backlog <=? 0)%Z then Err InvalidInput
  else
    socket ← socket_new address;
    _ ← set_reuse_address socket;
    _ ← set_reuse_port socket;
    _ ← set_nonblocking socket;
    _ ← bind socket address;
    _ ← listen_backlog socket backlog;
    Ok socket.

Definition bind_worker_listeners (config : Config) : io_result (list BoundListenerGroup) :=
  collect_results
    ((fun g => socket ← bind_worker_listener (address g) DEFAULT_BACKLOG;
               Ok (mkBoundListenerGroup socket g))
     <$> group_listeners (servers (http config))).

End Binding.

(** ** Specification *)

(** The positions of the servers that listen on an address. *)
Fixpoint indices_from (k : N) (a : SocketAddr) (ss : list Server) : list N :=
  match ss with
  | [] => []
  | s :: ss =>
    (if decide (listen s = a) then [k] else []) ++ indices_from (k + 1) a ss
  end.

Definition indices (a : SocketAddr) (ss : list Server) : list N := indices_from 0 a ss.

Definition group_ok (ss : list Server) (g : ListenerGroup) : Prop :=
  server_indices g = indices (address g) ss /\
  head (server_indices g) = Some (default_server g).

Definition groups_ok (ss : list Server) (gs : list ListenerGroup) : Prop :=
  NoDup (address <$> gs) /\ Forall (group_ok ss) gs /\
  Forall (fun s => listen s ∈ address <$> gs) ss.

(** ** Lemmas *)

Lemma indices_from_app k a ss s :
  indices_from k a (ss ++ [s]) =
    indices_from k a ss ++ (if decide (listen s = a) then [k + len ss] else []).
Proof.
  revert k. induction ss as [|s' ss IH]; intros k; simpl.
  - by rewrite len_nil, N.add_0_r, app_nil_r.
  - rewrite IH, <- app_assoc. do 2 f_equal. rewrite len_cons. by rewrite <- N.add_assoc.
Qed.

Lemma indices_app a ss s :
  indices a (ss ++ [s]) =
    indices a ss ++ (if decide (listen s = a) then [len ss] else []).
Proof. unfold indices. by rewrite indices_from_app. Qed.

Lemma indices_from_none k a ss :
  Forall (fun s => listen s <> a) ss -> indices_from k a ss = [].
Proof.
  intros H. revert k. induction H as [|s ss Hs _ IH]; intros k; [done|]. simpl.
  by rewrite decide_False, IH.
Qed.

Lemma add_servers_app gs k ss s :
  add_servers gs k (ss ++ [s]) = add_server (add_servers gs k ss) (k + len ss) s.
Proof.
  revert gs k. induction ss as [|s' ss IH]; intros gs k; simpl.
  - by rewrite len_nil, N.add_0_r.
  - rewrite IH, len_cons. f_equal. lia.
Qed.

Lemma fmap_alter_address f i (gs : list ListenerGroup) :
  (forall g, address (f g) = address g) -> address <$> alter f i gs = address <$> gs.
Proof.
  intros Hf. revert i. induction gs as [|g gs IH]; intros i; [done|].
  destruct i; simpl; rewrite ?Hf; [done|]. f_equal. apply IH.
Qed.

(** A group for another address is unaffected by the next server. *)
Lemma group_ok_other ss s g :
  listen s <> address g -> group_ok ss g -> group_ok (ss ++ [s]) g.
Proof.
  intros Hne [Hi Hd]. split; [|done]. rewrite indices_app, decide_False by done.
  by rewrite app_nil_r.
Qed.

Lemma add_server_ok ss gs s :
  groups_ok ss gs -> groups_ok (ss ++ [s]) (add_server gs (len ss) s).
Proof.
  intros (Hnd & Hok & Hcov). unfold add_server.
  destruct (list_find _ gs) as [[i g]|] eqn:E.
  - apply list_find_Some in E as (Hi & Ha & _). split_and!.
    + by rewrite fmap_alter_address.
    + apply Forall_lookup. intros j g' Hj. rewrite Forall_lookup in Hok.
      destruct (decide (j = i)) as [->|Hne].
      * rewrite list_lookup_alter_eq, Hi in Hj. injection Hj as <-.
        destruct (Hok i g Hi) as [Hg Hd]. split; simpl.
        -- by rewrite indices_app, decide_True, Hg by done.
        -- by destruct (server_indices g).
      * rewrite list_lookup_alter_ne in Hj by done. apply group_ok_other; [|eauto].
        intros Heq. apply Hne. apply (NoDup_lookup _ _ _ (listen s) Hnd);
          rewrite list_lookup_fmap; [rewrite Hj; simpl; congruence|rewrite Hi; simpl; congruence].
    + rewrite fmap_alter_address by done. apply Forall_app. split; [done|].
      constructor; [|done]. rewrite <- Ha. apply list_elem_of_fmap_2.
      by eapply list_elem_of_lookup_2.
  - apply list_find_None in E.
    assert (Hnew : listen s ∉ address <$> gs).
    { intros (g & Hg & Hin)%list_elem_of_fmap. rewrite Forall_forall in E.
      by apply (E g Hin). }
    unfold groups_ok. rewrite fmap_app. split_and!.
    + apply NoDup_app. split_and!; [done| |apply NoDup_singleton].
      intros a Hin ->%list_elem_of_singleton. done.
    + apply Forall_app. split.
      * rewrite Forall_forall in *. intros g Hg. apply group_ok_other; [|by apply Hok].
        intros Heq. by apply (E g Hg).
      * constructor; [|done]. split; [|done]. simpl.
        rewrite indices_app, decide_True by done. unfold indices.
        rewrite indices_from_none; [done|]. rewrite Forall_forall in *.
        intros s' Hs' Heq. apply Hnew. rewrite <- Heq. by apply Hcov.
    + apply Forall_app. split.
      * eapply Forall_impl; [exact Hcov|]. intros s' Hs'. simpl in Hs'. set_solver.
      * constructor; [|done]. simpl. set_solver.
Qed.

Lemma group_listeners_ok ss : groups_ok ss (group_listeners ss).
Proof.
  unfold group_listeners. induction ss as [|s ss IH] using rev_ind.
  - split_and!; constructor.
  - rewrite add_servers_app. by apply add_server_ok.
Qed.

(** What is bound is what the configuration groups. *)
Lemma bound_groups `{SocketApi} config bound :
  bind_worker_listeners config = Ok bound ->
  group <$> bound = group_listeners (servers (http config)).
Proof.
  intros Hb%collect_fmap_Forall2.
  induction Hb as [|g b gs bs Hg Hgs IH]; [done|]. rewrite fmap_cons, IH. f_equal.
  apply bind_ok in Hg as (s & _ & Hg). by injection Hg as <-.
Qed.

(** ** Properties *)

(** Virtual hosting: binding the listeners of a configuration gives one socket
    per distinct address; each group holds exactly the servers that listen on
    its address, in the order of the configuration, and its default is the first
    of them; every server is in the group of its address. *)
Theorem bind_worker_listeners_correct `{SocketApi} config bound :
  bind_worker_listeners config = Ok bound ->
  let ss := servers (http config) in
  let gs := group <$> bound in
  NoDup (address <$> gs) /\
  Forall (fun g => server_indices g = indices (address g) ss /\
                   head (server_indices g) = Some (default_server g)) gs /\
  Forall (fun s => listen s ∈ address <$> gs) ss.
Proof.
  intros Hb ss gs. assert (gs = group_listeners ss) as ->; [|apply group_listeners_ok].
  by apply bound_groups.
Qed.

#[local] Instance example_api : SocketApi := {
  Socket := N;
  socket_new a := Ok 3;
  set_reuse_address _ := Ok tt;
  set_reuse_port _ := Ok tt;
  set_nonblocking _ := Ok tt;
  bind _ _ := Ok tt;
  listen_backlog _ _ := Ok tt;
}.

Definition example_config : Config :=
  let server name port := mkServer (Some (str name)) [] (SocketAddrV4 0 port) None in
  let c := default_config None in
  mkConfig (mkHttpConfig [server "a"%string 80; server "b"%string 81; server "c"%string 80])
    (runtime c) (worker_count c) (worker c) (proxy c) (dns c) (upstream_groups c).

Lemma bind_worker_listeners_correct_witness :
  exists bound, bind_worker_listeners example_config = Ok bound /\
    Forall (fun g => head (server_indices g) = Some (default_server g)) (group <$> bound) /\
    server_indices <$> (group <$> bound) = [[0; 2]; [1]].
Proof.
  destruct (bind_worker_listeners example_config) as [bound|e] eqn:E;
    [|vm_compute in E; discriminate E].
  destruct (bind_worker_listeners_correct _ _ E) as (_ & Hf & _).
  exists bound. split_and!; [done| |].
  - eapply Forall_impl; [exact Hf|]. by intros g [].
  - vm_compute in E. injection E as <-. reflexivity.
Defined.
