(* ===== verification/Token.v ===== *)
(** * Event tokens ([run/slave/src/runtime/readiness/token.rs])

    A token packs a slab slot, the generation of its occupant and the side of
    the connection into one [usize]; listeners use small tokens and the waker the
    largest one. *)

From S2P Require Import Prelude RustStd.

Local Open Scope N_scope.

Definition Token := N.

Definition CONTROL_TOKEN : Token := usize_max.
Definition CONNECTION_TAG : N := N.shiftl 1 (USIZE_BITS - 1).
Definition UPSTREAM_TAG : N := N.shiftl 1 (USIZE_BITS - 2).
Definition SLOT_BITS : N := USIZE_BITS / 2.
Definition SLOT_MASK : N := N.shiftl 1 SLOT_BITS - 1.
Definition GENERATION_BITS : N := USIZE_BITS - SLOT_BITS - 2.
Definition GENERATION_MASK : N := N.shiftl 1 GENERATION_BITS - 1.

Record ConnectionId := mkConnectionId {
  slot : N;
  generation : N;
}.

#[export] Instance ConnectionId_eq_dec : EqDecision ConnectionId.
Proof. solve_decision. Defined.

#[export] Program Instance ConnectionId_countable : Countable ConnectionId :=
  inj_countable (fun id => (slot id, generation id))
    (fun p => Some (mkConnectionId p.1 p.2)) _.
Next Obligation. by intros []. Qed.

Inductive SocketRole := Client | Upstream.

#[export] Instance SocketRole_eq_dec : EqDecision SocketRole.
Proof. solve_decision. Defined.

Definition role_tag (role : SocketRole) : N :=
  match role with Client => 0 | Upstream => UPSTREAM_TAG end.

Definition token (id : ConnectionId) (role : SocketRole) : io_result Token :=
  if (SLOT_MASK <? slot id) || (generation id =? 0) || (GENERATION_MASK <? generation id)
  then Err InvalidInput
  else
    let token :=
      N.lor (N.lor (N.lor CONNECTION_TAG (role_tag role))
                   (N.shiftl (generation id) SLOT_BITS)) (slot id) in
    if token =? CONTROL_TOKEN then Err InvalidInput else Ok token.

Definition from_token (token : Token) : option (ConnectionId * SocketRole) :=
  if (token =? CONTROL_TOKEN) || (N.land token CONNECTION_TAG =? 0) then None
  else
    let generation := N.land (N.shiftr token SLOT_BITS) GENERATION_MASK in
    let role := if N.land token UPSTREAM_TAG =? 0 then Client else Upstream in
    if negb (generation =? 0)
    then Some (mkConnectionId (N.land token SLOT_MASK) generation, role)
    else None.

Definition next_generation (previous : N) : N :=
  let next := N.land (wrapping_add 64 previous 1) GENERATION_MASK in
  if next =? 0 then 1 else next.

(** ** Lemmas *)

Lemma lor_shifted a b k : b < 2 ^ k -> N.lor (a * 2 ^ k) b = a * 2 ^ k + b.
Proof.
  intros Hb. assert (N.land (a * 2 ^ k) b = 0) as Hd.
  { apply N.bits_inj_0. intros i. rewrite N.land_spec, <- N.shiftl_mul_pow2.
    destruct (N.lt_ge_cases i k) as [Hi|Hi].
    - by rewrite N.shiftl_spec_low.
    - rewrite <- (N.mod_small b (2 ^ k)), N.mod_pow2_bits_high by done.
      apply andb_false_r. }
  rewrite N.add_nocarry_lxor by done. by rewrite N.lxor_lor.
Qed.

Definition role_bit (role : SocketRole) : N :=
  match role with Client => 0 | Upstream => 1 end.

(** The packed word as a sum of its fields. *)
Definition packed (id : ConnectionId) (role : SocketRole) : N :=
  (2 + role_bit role) * 2 ^ 62 + generation id * 2 ^ 32 + slot id.

Definition id_wf (id : ConnectionId) : Prop :=
  slot id < 2 ^ 32 /\ 0 < generation id < 2 ^ 30.

Lemma pack_word id role :
  id_wf id ->
  N.lor (N.lor (N.lor CONNECTION_TAG (role_tag role))
               (N.shiftl (generation id) SLOT_BITS)) (slot id) = packed id role.
Proof.
  intros [Hs Hg]. change SLOT_BITS with 32. rewrite N.shiftl_mul_pow2.
  assert (N.lor CONNECTION_TAG (role_tag role) = (2 + role_bit role) * 2 ^ 62) as ->
    by (by destruct role).
  rewrite (lor_shifted _ (generation id * 2 ^ 32) 62) by lia.
  replace ((2 + role_bit role) * 2 ^ 62 + generation id * 2 ^ 32)
    with (((2 + role_bit role) * 2 ^ 30 + generation id) * 2 ^ 32) by lia.
  rewrite lor_shifted by done. unfold packed. lia.
Qed.

Lemma land_ones_mod a k : N.land a (N.shiftl 1 k - 1) = a mod 2 ^ k.
Proof.
  rewrite N.shiftl_1_l. replace (2 ^ k - 1) with (N.ones k); [apply N.land_ones|].
  rewrite N.ones_equiv. by rewrite N.pred_sub.
Qed.

(** [land] with a power of two tests one bit. *)
Lemma land_pow2_zero a k : (N.land a (N.shiftl 1 k) =? 0) = negb (N.testbit a k).
Proof.
  rewrite N.shiftl_1_l. destruct (N.testbit a k) eqn:E.
  - apply N.eqb_neq. intros H. apply (f_equal (fun n => N.testbit n k)) in H.
    rewrite N.land_spec, E, N.pow2_bits_true in H. done.
  - apply N.eqb_eq, N.bits_inj_0. intros i. rewrite N.land_spec.
    destruct (N.eq_dec i k) as [->|Hi]; [by rewrite E|].
    rewrite N.pow2_bits_false by done. apply andb_false_r.
Qed.

Lemma testbit_div a k : N.testbit a k = N.odd (a / 2 ^ k).
Proof. by rewrite <- N.shiftr_div_pow2, <- N.bit0_odd, N.shiftr_spec', N.add_0_l. Qed.

Lemma div_sum a b k : b < 2 ^ k -> (a * 2 ^ k + b) / 2 ^ k = a.
Proof.
  intros Hb. rewrite N.div_add_l by (by apply N.pow_nonzero).
  rewrite N.div_small by done. lia.
Qed.

Lemma mod_sum a b k : b < 2 ^ k -> (a * 2 ^ k + b) mod 2 ^ k = b.
Proof.
  intros Hb. rewrite N.add_comm, N.Div0.mod_add. by apply N.mod_small.
Qed.

Lemma packed_fields id role :
  id_wf id ->
  N.testbit (packed id role) 63 = true /\
  N.testbit (packed id role) 62 = bool_decide (role = Upstream) /\
  (packed id role / 2 ^ 32) mod 2 ^ 30 = generation id /\
  packed id role mod 2 ^ 32 = slot id.
Proof.
  intros [Hs Hg]. set (w := packed id role).
  assert (H62 : w = (2 + role_bit role) * 2 ^ 62 + (generation id * 2 ^ 32 + slot id))
    by (subst w; unfold packed; lia).
  assert (H32 : w = ((2 + role_bit role) * 2 ^ 30 + generation id) * 2 ^ 32 + slot id)
    by (subst w; unfold packed; lia).
  assert (H63 : w = 1 * 2 ^ 63 + (role_bit role * 2 ^ 62 + generation id * 2 ^ 32 + slot id))
    by (subst w; unfold packed; lia).
  split_and!.
  - rewrite testbit_div, H63, div_sum; [done|]. destruct role; unfold role_bit; lia.
  - rewrite testbit_div, H62, div_sum by lia. by destruct role.
  - rewrite H32, div_sum, mod_sum by lia. done.
  - rewrite H32, mod_sum by done. done.
Qed.

Lemma token_ok id role t :
  token id role = Ok t <-> id_wf id /\ t = packed id role /\ t <> CONTROL_TOKEN.
Proof.
  unfold token. destruct (_ || _) eqn:E.
  - split; [done|]. intros [[Hs Hg] _]. exfalso.
    rewrite !orb_true_iff, !N.ltb_lt, N.eqb_eq in E.
    change SLOT_MASK with (2 ^ 32 - 1) in E. change GENERATION_MASK with (2 ^ 30 - 1) in E.
    lia.
  - rewrite !orb_false_iff, !N.ltb_ge, N.eqb_neq in E.
    assert (Hw : id_wf id).
    { change SLOT_MASK with (2 ^ 32 - 1) in E. change GENERATION_MASK with (2 ^ 30 - 1) in E.
      unfold id_wf. lia. }
    rewrite pack_word by done.
    destruct (N.eqb_spec (packed id role) CONTROL_TOKEN); naive_solver.
Qed.

Lemma from_token_packed id role :
  id_wf id -> packed id role <> CONTROL_TOKEN ->
  from_token (packed id role) = Some (id, role).
Proof.
  intros Hw Hc. pose proof (packed_fields id role Hw) as (H63 & H62 & Hg & Hs).
  unfold from_token. rewrite (proj2 (N.eqb_neq _ _) Hc).
  change CONNECTION_TAG with (N.shiftl 1 63). change UPSTREAM_TAG with (N.shiftl 1 62).
  rewrite !land_pow2_zero, H63, H62. cbn [negb orb].
  change GENERATION_MASK with (N.shiftl 1 30 - 1). change SLOT_MASK with (N.shiftl 1 32 - 1).
  rewrite !land_ones_mod, N.shiftr_div_pow2. change SLOT_BITS with 32. rewrite Hg, Hs.
  destruct Hw as [_ [Hg0 _]]. rewrite (proj2 (N.eqb_neq (generation id) 0)) by lia.
  cbn [negb]. by destruct id, role.
Qed.

Lemma next_generation_wf g : 0 < next_generation g < 2 ^ 30.
Proof.
  unfold next_generation. change GENERATION_MASK with (N.shiftl 1 30 - 1).
  rewrite land_ones_mod. pose proof (N.mod_lt (wrapping_add 64 g 1) (2 ^ 30) ltac:(done)) as Hm.
  destruct (N.eqb_spec (wrapping_add 64 g 1 mod 2 ^ 30) 0); [done|].
  generalize dependent (wrapping_add 64 g 1 mod 2 ^ 30). lia.
Qed.

Lemma next_generation_step g :
  0 < g < 2 ^ 30 -> next_generation g = if g =? 2 ^ 30 - 1 then 1 else g + 1.
Proof.
  intros Hg. unfold next_generation. change GENERATION_MASK with (N.shiftl 1 30 - 1).
  rewrite land_ones_mod. unfold wrapping_add. rewrite (N.mod_small (g + 1)) by lia.
  destruct (N.eqb_spec g (2 ^ 30 - 1)) as [->|Hne]; [done|].
  rewrite N.mod_small by lia. by rewrite (proj2 (N.eqb_neq _ _)) by lia.
Qed.

(** The generation of the [k]-th occupant of a slot (from zero). *)
Definition occupant_generation (k : N) : N := N.iter (k + 1) next_generation 0.

Lemma occupant_generation_closed k :
  occupant_generation k = k mod (2 ^ 30 - 1) + 1.
Proof.
  unfold occupant_generation. induction k as [|k IH] using N.peano_ind; [done|].
  rewrite <- N.add_1_r, (N.add_1_r (k + 1)), N.iter_succ, IH.
  assert (Hm : k mod (2 ^ 30 - 1) < 2 ^ 30 - 1) by (by apply N.mod_lt).
  rewrite next_generation_step by (revert Hm; generalize (k mod (2 ^ 30 - 1)); lia).
  rewrite <- (N.Div0.add_mod_idemp_l k 1). revert Hm. generalize (k mod (2 ^ 30 - 1)).
  intros m Hm. destruct (N.eqb_spec (m + 1) (2 ^ 30 - 1)) as [E|E].
  - by rewrite E.
  - rewrite N.mod_small by lia. done.
Qed.

(** ** Properties *)

(** C35. Tokens identify sockets: a token is decoded to the identifier and role it
    was made from, fits 64 bits, and is none of the tokens of the listeners or of
    the waker. *)
Theorem token_round_trip id role t :
  token id role = Ok t ->
  from_token t = Some (id, role) /\ t <> CONTROL_TOKEN /\ 2 ^ 63 <= t < 2 ^ 64.
Proof.
  intros (Hw & -> & Hc)%token_ok. split; [by apply from_token_packed|]. split; [done|].
  destruct Hw as [Hs Hg]. unfold packed. destruct role; unfold role_bit; lia.
Qed.

Lemma token_round_trip_witness :
  match token (mkConnectionId 7 3) Upstream with
  | Ok t => from_token t = Some (mkConnectionId 7 3, Upstream)
  | Err _ => False
  end.
Proof.
  destruct (token (mkConnectionId 7 3) Upstream) as [t|e] eqn:E.
  - exact (proj1 (token_round_trip _ _ _ E)).
  - vm_compute in E. discriminate E.
Defined.

(** Which identifiers have a token: every slot of 32 bits with a generation of
    30 bits other than zero, except that the upstream side of the last slot in its
    last generation would be the waker's token. *)
Theorem token_defined id role :
  is_ok (token id role) = true <->
  id_wf id /\ ~ (role = Upstream /\ slot id = 2 ^ 32 - 1 /\ generation id = 2 ^ 30 - 1).
Proof.
  assert (Hc : id_wf id -> (packed id role = CONTROL_TOKEN <->
    role = Upstream /\ slot id = 2 ^ 32 - 1 /\ generation id = 2 ^ 30 - 1)).
  { intros [Hs Hg]. unfold packed. change CONTROL_TOKEN with (2 ^ 64 - 1).
    destruct role; unfold role_bit; split.
    - intros ?. exfalso. lia.
    - by intros [].
    - intros ?. split; [done|]. lia.
    - intros [_ ?]. lia. }
  destruct (token id role) as [t|e] eqn:E; simpl.
  - apply token_ok in E as (Hw & -> & Ht). split; [|done]. intros _. split; [done|].
    by rewrite <- Hc.
  - split; [done|]. intros [Hw Hn]. exfalso.
    assert (token id role = Ok (packed id role)) as E'.
    { apply token_ok. split_and!; [done..|]. by rewrite Hc. }
    congruence.
Qed.

(** Generations protect from stale events: they are never zero, fit their 30
    bits, and the occupants of a slot only share a generation when a multiple of
    [2^30 - 1] occupants lie between them, so an older event never decodes to a
    current identifier before that. *)
Theorem generations_distinct k k' :
  id_wf (mkConnectionId 0 (occupant_generation k)) /\
  (occupant_generation k = occupant_generation k' <->
   k mod (2 ^ 30 - 1) = k' mod (2 ^ 30 - 1)).
Proof.
  split.
  - split; [done|]. cbn [generation]. rewrite occupant_generation_closed.
    assert (Hm : k mod (2 ^ 30 - 1) < 2 ^ 30 - 1) by (by apply N.mod_lt).
    revert Hm. generalize (k mod (2 ^ 30 - 1)). lia.
  - rewrite !occupant_generation_closed. generalize (k mod (2 ^ 30 - 1)), (k' mod (2 ^ 30 - 1)).
    intros. lia.
Qed.
