(* ===== verification/Resolver.v ===== *)
(** * The resolver threads

    Models [runtime/readiness/resolver.rs] and [runtime/io_uring/resolver.rs], which
    differ only in how they wake the worker: a pool of threads that share one queue of
    tasks under a mutex, look names up with the system and send the results back. The
    threads are interleaved one operation at a time. *)

From S2P Require Import Prelude RustStd Config.

Module Resolver.

Section Resolver.

(** The identifiers of connections, and what the system may say of a name. *)
Context {Id : Type} (says : bytes -> io_result (list SocketAddr) -> Prop).

Record ResolveTask := mkTask { task_id : Id; task_address : bytes }.

Record ResolveResult := mkResult {
  result_id : Id;
  result_addresses : io_result (list SocketAddr);
}.

(** Where a thread is in its loop: at [tasks.lock()], in [recv] with the lock held, in
    [to_socket_addrs], at [send], at the wake-up of the worker, or returned. *)
Inductive Thread :=
| Locking
| Receiving
| LookingUp (t : ResolveTask)
| Sending (r : ResolveResult)
| Waking
| Returned.

(** The two channels, with whether the worker still holds its ends, the mutex's holder,
    the threads, and whether the worker has a wake-up to read. *)
Record DnsResolver := mkResolver {
  tasks : list ResolveTask;
  sender : bool;
  holder : option nat;
  threads : list Thread;
  results : list ResolveResult;
  receiver : bool;
  woken : bool;
}.

Definition set_thread (i : nat) (t : Thread) (r : DnsResolver) : DnsResolver :=
  mkResolver (tasks r) (sender r) (holder r) (<[i := t]> (threads r)) (results r)
    (receiver r) (woken r).

Definition set_holder (h : option nat) (r : DnsResolver) : DnsResolver :=
  mkResolver (tasks r) (sender r) h (threads r) (results r) (receiver r) (woken r).

Definition set_tasks (ts : list ResolveTask) (r : DnsResolver) : DnsResolver :=
  mkResolver ts (sender r) (holder r) (threads r) (results r) (receiver r) (woken r).

Definition set_results (rs : list ResolveResult) (r : DnsResolver) : DnsResolver :=
  mkResolver (tasks r) (sender r) (holder r) (threads r) rs (receiver r) (woken r).

Definition set_woken (b : bool) (r : DnsResolver) : DnsResolver :=
  mkResolver (tasks r) (sender r) (holder r) (threads r) (results r) (receiver r) b.

Definition close_tasks (r : DnsResolver) : DnsResolver :=
  mkResolver (tasks r) false (holder r) (threads r) (results r) (receiver r) (woken r).

Definition close_results (r : DnsResolver) : DnsResolver :=
  mkResolver (tasks r) (sender r) (holder r) (threads r) (results r) false (woken r).

(** [DnsResolver::new]: the threads are spawned in order; a failure drops the channels. *)
Fixpoint spawn_all (spawns : list (io_result unit)) : io_result (list Thread) :=
  match spawns with
  | [] => Ok []
  | Ok _ :: spawns => threads ← spawn_all spawns; Ok (Locking :: threads)
  | Err e :: _ => Err e
  end.

Definition new (spawns : list (io_result unit)) : io_result DnsResolver :=
  threads ← spawn_all spawns; Ok (mkResolver [] true None threads [] true false).

Definition returned (t : Thread) : bool := match t with Returned => true | _ => false end.

(** [resolve]: the receiver of the tasks lives as long as a thread holds it. *)
Definition resolve (id : Id) (address : bytes) (r : DnsResolver) : io_result unit * DnsResolver :=
  if forallb returned (threads r) then (Err BrokenPipe, r)
  else (Ok tt, set_tasks (tasks r ++ [mkTask id address]) r).

(** [drain]: [try_recv] until it finds nothing. *)
Definition drain (r : DnsResolver) : list ResolveResult * DnsResolver :=
  (results r, set_results [] r).

(** One operation of thread [i], when it does not block; [answer] is what the system says
    if it looks a name up. *)
Definition thread_step (i : nat) (answer : io_result (list SocketAddr)) (r : DnsResolver) :
    option DnsResolver :=
  t ← threads r !! i;
  match t with
  | Locking =>
    match holder r with
    | None => Some (set_holder (Some i) (set_thread i Receiving r))
    | Some _ => None
    end
  | Receiving =>
    match tasks r with
    | t :: ts => Some (set_holder None (set_thread i (LookingUp t) (set_tasks ts r)))
    | [] =>
      if sender r then None else Some (set_holder None (set_thread i Returned r))
    end
  | LookingUp t => Some (set_thread i (Sending (mkResult (task_id t) answer)) r)
  | Sending result =>
    if receiver r then Some (set_thread i Waking (set_results (results r ++ [result]) r))
    else Some (set_thread i Returned r)
  | Waking => Some (set_thread i Locking (set_woken true r))
  | Returned => None
  end.

(** ** The pool and its worker

    What the worker has asked and received is remembered; [attending] holds between the
    reading of a wake-up and the end of a drain. *)
Record System := mkSystem {
  resolver : DnsResolver;
  asked : list ResolveTask;
  delivered : list ResolveResult;
  attending : bool;
}.

Definition start (r : DnsResolver) : System := mkSystem r [] [] false.

Inductive thread_moves : System -> System -> Prop :=
| thread_move i answer s r :
    (forall t, threads (resolver s) !! i = Some (LookingUp t) -> says (task_address t) answer) ->
    thread_step i answer (resolver s) = Some r ->
    thread_moves s (mkSystem r (asked s) (delivered s) (attending s)).

(** The worker asks, reads a wake-up, takes a result or finds none left; dropping the
    resolver closes the tasks, then the results. *)
Inductive worker_moves : System -> System -> Prop :=
| worker_resolves id address s r :
    sender (resolver s) = true ->
    resolve id address (resolver s) = (Ok tt, r) ->
    worker_moves s (mkSystem r (asked s ++ [mkTask id address]) (delivered s) (attending s))
| worker_attends s :
    sender (resolver s) = true ->
    worker_moves s (mkSystem (set_woken false (resolver s)) (asked s) (delivered s) true)
| worker_takes s x xs :
    attending s = true -> results (resolver s) = x :: xs ->
    worker_moves s
      (mkSystem (set_results xs (resolver s)) (asked s) (delivered s ++ [x]) true)
| worker_drained s :
    attending s = true -> results (resolver s) = [] ->
    worker_moves s (mkSystem (resolver s) (asked s) (delivered s) false)
| worker_drops_tasks s :
    attending s = false ->
    worker_moves s (mkSystem (close_tasks (resolver s)) (asked s) (delivered s) false)
| worker_drops_results s :
    sender (resolver s) = false ->
    worker_moves s (mkSystem (close_results (resolver s)) (asked s) (delivered s) false).

Definition moves (s s' : System) : Prop := thread_moves s s' \/ worker_moves s s'.

Lemma thread_moves_inv s s' : thread_moves s s' -> exists i answer r,
  (forall t, threads (resolver s) !! i = Some (LookingUp t) -> says (task_address t) answer) /\
  thread_step i answer (resolver s) = Some r.
Proof. destruct 1 as [i answer s r]. by exists i, answer, r. Qed.

(** What a thread holds. *)
Definition looking (t : Thread) : option ResolveTask :=
  match t with LookingUp t => Some t | _ => None end.

Definition sending (t : Thread) : option ResolveResult :=
  match t with Sending r => Some r | _ => None end.

(** A result answers a task: for its connection, with what the system says of its name. *)
Definition answers (t : ResolveTask) (r : ResolveResult) : Prop :=
  result_id r = task_id t /\ says (task_address t) (result_addresses r).

(** The results so far, wherever they are. *)
Definition outcomes (s : System) : list ResolveResult :=
  omap sending (threads (resolver s)) ++ results (resolver s) ++ delivered s.

(** Every task asked is queued, being looked up, or answered once. *)
Definition accounted (s : System) : Prop :=
  exists ts rs, asked s ≡ₚ tasks (resolver s) ++ omap looking (threads (resolver s)) ++ ts /\
    rs ≡ₚ outcomes s /\ Forall2 answers ts rs.

(** A worker with results to take has been woken, will be, or is taking them. *)
Definition noticed (s : System) : Prop :=
  results (resolver s) <> [] ->
  woken (resolver s) = true \/ attending s = true \/ Waking ∈ threads (resolver s).

Record Inv (s : System) : Prop := {
  inv_lock i : threads (resolver s) !! i = Some Receiving <-> holder (resolver s) = Some i;
  inv_alive : sender (resolver s) = true -> receiver (resolver s) = true /\ Returned ∉ threads (resolver s);
  inv_accounted : receiver (resolver s) = true -> accounted s;
  inv_noticed : receiver (resolver s) = true -> noticed s;
}.

(** ** Lists of threads *)

Lemma omap_insert {B} (f : Thread -> option B) (l : list Thread) i x y :
  l !! i = Some x ->
  exists rest, omap f l ≡ₚ option_list (f x) ++ rest /\
    omap f (<[i := y]> l) ≡ₚ option_list (f y) ++ rest.
Proof.
  intros Hi. exists (omap f (take i l ++ drop (S i) l)).
  assert (Hlt : (i < length l)%nat) by (by eapply lookup_lt_Some).
  split.
  - rewrite <- (take_drop_middle l i x Hi) at 1. rewrite !omap_app. simpl.
    destruct (f x); simpl; [by rewrite Permutation_middle|done].
  - rewrite insert_take_drop by done. rewrite !omap_app. simpl.
    destruct (f y); simpl; [by rewrite Permutation_middle|done].
Qed.

Lemma omap_none {B} (f : Thread -> option B) l :
  Forall (fun t => f t = None) l -> omap f l = [].
Proof. induction 1 as [|t l Ht _ IH]; [done|]. simpl. by rewrite Ht. Qed.

Lemma lock_insert (l : list Thread) i x y h h' :
  l !! i = Some x -> (forall j, l !! j = Some Receiving <-> h = Some j) ->
  (y = Receiving <-> h' = Some i) -> (forall j, j <> i -> h = Some j <-> h' = Some j) ->
  forall j, <[i := y]> l !! j = Some Receiving <-> h' = Some j.
Proof.
  intros Hi Hl Hy Hh j. destruct (decide (j = i)) as [->|Hne].
  - rewrite list_lookup_insert_eq by (by eapply lookup_lt_Some). rewrite <- Hy. naive_solver.
  - rewrite list_lookup_insert_ne by done. rewrite Hl. by apply Hh.
Qed.

Lemma elem_of_insert (l : list Thread) i x y t :
  l !! i = Some x -> t ∈ l -> t <> x -> t ∈ <[i := y]> l.
Proof.
  intros Hi [j Hj]%list_elem_of_lookup Hne. apply list_elem_of_lookup. exists j.
  rewrite list_lookup_insert_ne; [done|]. intros ->. congruence.
Qed.

Lemma elem_of_insert_inv (l : list Thread) i y t :
  t ∈ <[i := y]> l -> t = y \/ t ∈ l.
Proof.
  intros [j Hj]%list_elem_of_lookup. destruct (decide (i = j)) as [->|Hne].
  - apply list_lookup_insert_Some in Hj as [(_ & -> & _)|[? _]]; [by left|done].
  - rewrite list_lookup_insert_ne in Hj by done. right. by eapply list_elem_of_lookup_2.
Qed.

(** ** The invariant *)

(** What an operation of thread [i], which goes from [x] to [y], owes the invariant. *)
Lemma Inv_set s i x y ts h rs w ts' rs' :
  Inv s -> threads (resolver s) !! i = Some x ->
  (y = Receiving <-> h = Some i) -> (forall j, j <> i -> holder (resolver s) = Some j <-> h = Some j) ->
  (sender (resolver s) = true -> y <> Returned) ->
  (receiver (resolver s) = true ->
    Forall2 answers ts' rs' /\
    tasks (resolver s) ++ option_list (looking x) ≡ₚ ts ++ option_list (looking y) ++ ts' /\
    option_list (sending y) ++ rs ≡ₚ option_list (sending x) ++ results (resolver s) ++ rs') ->
  y = Waking \/ w = true \/ (x <> Waking /\ rs = results (resolver s) /\ w = woken (resolver s)) ->
  Inv (mkSystem (mkResolver ts (sender (resolver s)) h (<[i := y]> (threads (resolver s))) rs
         (receiver (resolver s)) w) (asked s) (delivered s) (attending s)).
Proof.
  intros [Hlock Halive Hacc Hnot] Hi Hy Hh Hret Hnew Hw. constructor; simpl.
  - by eapply lock_insert.
  - intros Hs. destruct (Halive Hs) as [Hr Hall]. split; [done|].
    intros [E|?]%elem_of_insert_inv; [|done]. by apply (Hret Hs).
  - intros Hr. destruct (Hacc Hr) as (ts0 & rs0 & Hasked & Hout & Hans).
    destruct (Hnew Hr) as (Hans' & Hts & Hrs).
    destruct (omap_insert looking _ i x y Hi) as (restl & El & El').
    destruct (omap_insert sending _ i x y Hi) as (rests & Es & Es').
    exists (ts0 ++ ts'), (rs0 ++ rs'). split; [|split; [|by apply Forall2_app]]; simpl.
    + rewrite Hasked, El, El'. rewrite !app_assoc, Hts. solve_Permutation.
    + unfold outcomes in *. simpl. rewrite Hout, Es, Es'.
      transitivity ((option_list (sending x) ++ results (resolver s) ++ rs') ++ rests ++ delivered s);
        [solve_Permutation|]. rewrite <- Hrs. solve_Permutation.
  - intros Hr Hne. simpl in *. destruct Hw as [->|[->|(Hx & -> & ->)]]; [|by left|].
    + right. right. apply list_elem_of_lookup. exists i.
      apply list_lookup_insert_eq. by eapply lookup_lt_Some.
    + destruct (Hnot Hr Hne) as [?|[?|?]]; [by left|by right; left|]. right. right.
      by eapply elem_of_insert.
Qed.

Lemma Inv_thread s s' : thread_moves s s' -> Inv s -> Inv s'.
Proof.
  intros Hmove Hinv. destruct Hmove as [i answer s r Hsays Hstep].
  unfold thread_step in Hstep. destruct (threads (resolver s) !! i) as [t|] eqn:Hi; [|done].
  simpl in Hstep. pose proof (inv_lock _ Hinv i) as Hlock. rewrite Hi in Hlock.
  destruct t as [| |t|x| |].
  - destruct (holder (resolver s)) eqn:Hh; [done|]. injection Hstep as <-.
    eapply (Inv_set s i _ Receiving _ _ _ _ [] []); try done; try naive_solver; try congruence.
    intros _. split; [done|]. simpl. by rewrite !app_nil_r.
  - destruct (tasks (resolver s)) as [|t ts] eqn:Ht.
    + destruct (sender (resolver s)) eqn:Hs; [done|]. injection Hstep as <-.
      unfold set_thread, set_holder. simpl.
      eapply (Inv_set s i _ Returned _ _ _ _ [] []); try done; try naive_solver; try congruence.
      intros _. split; [done|]. simpl. by rewrite !app_nil_r.
    + injection Hstep as <-.
      eapply (Inv_set s i _ (LookingUp t) _ _ _ _ [] []); try done; try naive_solver; try congruence.
      intros _. split; [done|]. simpl. rewrite Ht, !app_nil_r. split; [|done]. solve_Permutation.
  - injection Hstep as <-.
    eapply (Inv_set s i _ (Sending _) _ _ _ _ [t] [mkResult (task_id t) answer]); try done; try naive_solver; try congruence.
    intros _. split; [constructor; [|done]; split; [done|]; by apply Hsays|]. simpl.
    split; [done|]. solve_Permutation.
  - destruct (receiver (resolver s)) eqn:Hr; injection Hstep as <-;
      unfold set_thread, set_results; simpl.
    + eapply (Inv_set s i _ Waking _ _ _ _ [] []); try done; try naive_solver; try congruence.
      intros _. split; [done|]. simpl. split; [done|]. rewrite app_nil_r. solve_Permutation.
    + eapply (Inv_set s i _ Returned _ _ _ _ [] []); try done; try naive_solver; try congruence.
      all: intros H; apply (inv_alive _ Hinv) in H as [? _]; congruence.
  - injection Hstep as <-.
    eapply (Inv_set s i _ Locking _ _ _ _ [] []); try done; try naive_solver; try congruence.
    intros _. split; [done|]. simpl. by rewrite !app_nil_r.
  - done.
Qed.

Lemma Inv_worker s s' : worker_moves s s' -> Inv s -> Inv s'.
Proof.
  intros Hmove Hinv. pose proof Hinv as [Hlock Halive Hacc Hnot].
  destruct Hmove as [id address s r Hs Hr|s Hs|s x xs Ha Hrs|s Ha Hrs|s Ha|s Hs].
  - unfold resolve in Hr. destruct (forallb _ _); [done|]. injection Hr as <-.
    constructor; simpl; try done. intros Hr.
    destruct (Hacc Hr) as (ts & rs & Hasked & Hout & Hans).
    exists ts, rs. split; [|by split]. simpl. rewrite Hasked. solve_Permutation.
  - constructor; simpl; try done. intros _ _. by right; left.
  - constructor; simpl; try done; [|intros _ _; by right; left]. intros Hr.
    destruct (Hacc Hr) as (ts & rs & Hasked & Hout & Hans).
    exists ts, rs. split; [done|]. split; [|done]. rewrite Hout. unfold outcomes. simpl.
    rewrite Hrs. simpl. solve_Permutation.
  - constructor; simpl; try done. by intros _ Hne.
  - constructor; simpl; try done. intros Hr Hne. destruct (Hnot Hr Hne) as [?|[?|?]].
    + by left.
    + congruence.
    + by right; right.
  - constructor; simpl; try done. intros Hs'. congruence.
Qed.

Lemma Inv_start spawns r : new spawns = Ok r -> Inv (start r).
Proof.
  unfold new. intros (l & Hl & [= <-])%bind_ok.
  assert (Hall : Forall (fun t => t = Locking) l).
  { revert l Hl. induction spawns as [|[[]|] spawns IH]; intros l; [by intros [= <-]| |done].
    simpl. intros (l' & Hl' & [= <-])%bind_ok. constructor; [done|]. by apply IH. }
  clear Hl.
  assert (Homap : forall B (f : Thread -> option B), f Locking = None -> omap f l = []).
  { intros B f Hf. apply omap_none. by apply (Forall_impl _ _ _ Hall); intros ? ->. }
  rewrite Forall_lookup in Hall. constructor; simpl.
  - intros i. split; [|done]. by intros H%Hall.
  - intros _. split; [done|]. by intros [i H%Hall]%list_elem_of_lookup.
  - intros _. exists [], []. unfold outcomes. simpl. by rewrite !Homap.
  - by intros _ Hne.
Qed.

(** ** Progress *)

Definition weight (t : Thread) : nat :=
  match t with
  | Returned => 0 | Receiving => 1 | Locking => 2 | Waking => 3 | Sending _ => 4
  | LookingUp _ => 5
  end.

Definition total_weight (l : list Thread) : nat := sum_list_with weight l.

(** A bound on the operations the threads can do without the worker. *)
Definition work (s : System) : nat :=
  5 * length (tasks (resolver s)) + total_weight (threads (resolver s)).

Lemma total_weight_insert (l : list Thread) i x y :
  l !! i = Some x -> (total_weight (<[i := y]> l) + weight x = total_weight l + weight y)%nat.
Proof.
  unfold total_weight. revert i. induction l as [|t l IH]; intros [|i] Hi; simpl in *; try done.
  - injection Hi as ->. lia.
  - specialize (IH i Hi). lia.
Qed.

Lemma thread_moves_work s s' : thread_moves s s' -> (work s' < work s)%nat.
Proof.
  destruct 1 as [i answer s r _ Hstep]. unfold thread_step in Hstep.
  destruct (threads (resolver s) !! i) as [t|] eqn:Hi; [|done]. simpl in Hstep. unfold work.
  pose proof (fun y => total_weight_insert _ i t y Hi) as Hw.
  destruct t as [| |t|x| |]; simpl in Hw; try done.
  - case_match; [done|]. injection Hstep as <-. simpl. specialize (Hw Receiving). simpl in Hw. lia.
  - destruct (tasks (resolver s)) as [|t ts] eqn:Ht; [case_match; [done|]|]; injection Hstep as <-; simpl.
    + rewrite Ht. specialize (Hw Returned). simpl in *. lia.
    + specialize (Hw (LookingUp t)). simpl in *. lia.
  - injection Hstep as <-. simpl. specialize (Hw (Sending (mkResult (task_id t) answer))).
    simpl in Hw. lia.
  - case_match; injection Hstep as <-; simpl.
    + specialize (Hw Waking). simpl in Hw. lia.
    + specialize (Hw Returned). simpl in Hw. lia.
  - injection Hstep as <-. simpl. specialize (Hw Locking). simpl in Hw. lia.
Qed.

(** No thread can go on. *)
Definition quiet (s : System) : Prop := forall s', ~ thread_moves s s'.

(** Threads that cannot go on wait for a task, or have returned. *)
Lemma quiet_threads s :
  (forall a, exists r, says a r) -> Inv s -> quiet s ->
  (sender (resolver s) = true -> tasks (resolver s) = [] \/ threads (resolver s) = []) /\
  omap looking (threads (resolver s)) = [] /\ omap sending (threads (resolver s)) = [] /\
  (Waking ∉ threads (resolver s)) /\
  (sender (resolver s) = false -> Forall (fun t => t = Returned) (threads (resolver s))).
Proof.
  intros Htotal Hinv Hquiet.
  assert (Hstuck : forall i t, threads (resolver s) !! i = Some t ->
    t = Locking /\ holder (resolver s) <> None \/
    t = Receiving /\ tasks (resolver s) = [] /\ sender (resolver s) = true \/ t = Returned).
  { intros i t Hi. destruct (Htotal (match t with LookingUp t => task_address t | _ => [] end))
      as [answer Hsays].
    destruct (thread_step i answer (resolver s)) as [r|] eqn:Hstep.
    { exfalso. eapply Hquiet, (thread_move i answer); [|exact Hstep].
      rewrite Hi. intros t' [= ->]. exact Hsays. }
    unfold thread_step in Hstep. rewrite Hi in Hstep. simpl in Hstep.
    destruct t; try done; repeat (case_match; try done); naive_solver. }
  assert (Hholder : forall j, holder (resolver s) = Some j ->
    tasks (resolver s) = [] /\ sender (resolver s) = true).
  { intros j Hj%(inv_lock _ Hinv). destruct (Hstuck _ _ Hj) as [[? _]|[(_ & ? & ?)|?]]; done. }
  assert (Hnone : forall B (f : Thread -> option B),
    f Locking = None -> f Receiving = None -> f Returned = None ->
    omap f (threads (resolver s)) = []).
  { intros B f H1 H2 H3.
    assert (Hf : Forall (fun t => f t = None) (threads (resolver s))).
    { apply Forall_lookup. intros i t Hi.
      destruct (Hstuck i t Hi) as [[-> _]|[[-> _]| ->]]; done. }
    by apply omap_none. }
  split; [|split; [by apply Hnone|split; [by apply Hnone|split]]].
  - intros Hs. destruct (threads (resolver s)) as [|t l] eqn:E; [by right|]. left.
    destruct (Hstuck 0%nat t) as [[_ H]|[(_ & H & _)| ->]]; [done| |done|].
    + destruct (holder (resolver s)) as [j|] eqn:Hj; [|done]. by apply (Hholder j).
    + apply (inv_alive _ Hinv) in Hs as [_ Hs]. rewrite E in Hs. by set_solver.
  - intros [i Hi]%list_elem_of_lookup. by destruct (Hstuck _ _ Hi) as [[? _]|[[? _]|?]].
  - intros Hs. apply Forall_lookup. intros i t Hi.
    destruct (Hstuck i t Hi) as [[_ H]|[(_ & _ & H)|H]]; [|congruence|done].
    destruct (holder (resolver s)) as [j|] eqn:Hj; [|done].
    destruct (Hholder j eq_refl). congruence.
Qed.

(** ** Properties *)

Definition reachable (r : DnsResolver) (s : System) : Prop := rtc moves (start r) s.

Lemma resolver_reachable_Inv spawns r s : new spawns = Ok r -> reachable r s -> Inv s.
Proof.
  intros Hnew Hs. apply (rtc_ind_r (R := moves) (fun s => Inv s) (start r)); [by eapply Inv_start| |exact Hs].
  intros s1 s2 _ [Hm|Hm] IH; [by eapply Inv_thread|by eapply Inv_worker].
Qed.

Lemma thread_moves_length s s' : thread_moves s s' ->
  length (threads (resolver s')) = length (threads (resolver s)).
Proof.
  destruct 1 as [i answer s r _ Hstep]. unfold thread_step in Hstep.
  destruct (threads (resolver s) !! i) as [t|]; [|done]. simpl in Hstep.
  destruct t; repeat (case_match; try done); simplify_eq; simpl; by rewrite ?length_insert.
Qed.

Lemma moves_length s s' : moves s s' ->
  length (threads (resolver s')) = length (threads (resolver s)).
Proof.
  intros [H|H]; [by apply thread_moves_length|]. destruct H; simpl; try done.
  unfold resolve in *. case_match; by simplify_eq.
Qed.

Lemma spawn_all_length spawns l : spawn_all spawns = Ok l -> length l = length spawns.
Proof.
  revert l. induction spawns as [|[[]|] spawns IH]; intros l; [by intros [= <-]| |done].
  simpl. intros (l' & Hl & [= <-])%bind_ok. simpl. by rewrite (IH l').
Qed.

Lemma reachable_length r s : reachable r s ->
  length (threads (resolver s)) = length (threads r).
Proof.
  intros Hs. apply (rtc_ind_r (R := moves) (fun s => length (threads (resolver s)) = length (threads r))
    (start r)); [done| |exact Hs].
  intros s1 s2 _ Hm <-. by apply moves_length.
Qed.

(** C15. While the worker lives, the pool of threads that resolves names loses nothing and
    answers nothing twice, however its threads and the worker interleave: every task asked
    is still queued, held by one thread, or answered by exactly one result, for the same
    connection and with what the system says of its name; at most one thread waits for a
    task with the lock held; and when results wait for the worker it has been woken, is
    about to be, or is already taking them, so that no wake-up is lost. *)
Theorem resolver_answers_once spawns r s :
  new spawns = Ok r -> reachable r s -> receiver (resolver s) = true ->
  accounted s /\ noticed s /\
  (forall i j, threads (resolver s) !! i = Some Receiving ->
    threads (resolver s) !! j = Some Receiving -> i = j).
Proof.
  intros Hnew Hs Hr. pose proof (resolver_reachable_Inv _ _ _ Hnew Hs) as Hinv.
  split; [by apply Hinv|]. split; [by apply Hinv|].
  intros i j Hi%(inv_lock _ Hinv) Hj%(inv_lock _ Hinv). congruence.
Qed.

(** C29. The pool settles: if every lookup returns, the threads can only do a bounded
    number of operations before they wait for the worker, and when they do, every task
    asked has its one result, taken or waiting with the worker woken - or, once the worker
    has dropped its resolver, every thread has returned. *)
Theorem resolver_settles spawns r s n s' :
  (forall a, exists x, says a x) -> new spawns = Ok r -> spawns <> [] -> reachable r s ->
  nsteps thread_moves n s s' ->
  (n <= work s)%nat /\
  (quiet s' -> sender (resolver s') = true ->
    (exists ts rs, asked s' ≡ₚ ts /\ rs ≡ₚ results (resolver s') ++ delivered s' /\
      Forall2 answers ts rs) /\
    (results (resolver s') <> [] -> woken (resolver s') = true \/ attending s' = true)) /\
  (quiet s' -> sender (resolver s') = false ->
    Forall (fun t => t = Returned) (threads (resolver s'))).
Proof.
  intros Htotal Hnew Hspawns Hs Hn.
  assert (Hs' : reachable r s').
  { unfold reachable. etrans; [exact Hs|]. apply (rtc_subrel thread_moves); [by left|].
    by eapply rtc_nsteps_2. }
  pose proof (resolver_reachable_Inv _ _ _ Hnew Hs') as Hinv. split; [|split].
  - clear -Hn. induction Hn as [|n s1 s2 s3 H _ IH]; [lia|].
    apply thread_moves_work in H. lia.
  - intros Hq Halive. destruct (quiet_threads s' Htotal Hinv Hq) as (Ht & Hl & Hsend & Hw & _).
    destruct (inv_alive _ Hinv Halive) as [Hr _]. split.
    + destruct (inv_accounted _ Hinv Hr) as (ts & rs & Hasked & Hout & Hans).
      exists ts, rs. unfold outcomes in Hout. rewrite Hl in Hasked. rewrite Hsend in Hout.
      destruct (Ht Halive) as [E|E]; [by rewrite E in Hasked|].
      apply (f_equal length) in E. rewrite (reachable_length r s') in E by done.
      unfold new in Hnew. apply bind_ok in Hnew as (l & Hnew & [= <-]). simpl in E.
      rewrite (spawn_all_length _ _ Hnew) in E. by destruct spawns.
    + intros Hne. destruct (inv_noticed _ Hinv Hr Hne) as [?|[?|?]]; [by left|by right|done].
  - intros Hq Hdead. by apply quiet_threads.
Qed.

End Resolver.

(** ** A run: two threads, one task

    The system knows one address for every name. *)
Definition example_says (name : bytes) (answer : io_result (list SocketAddr)) : Prop :=
  answer = Ok [SocketAddrV4 1 80].

Definition example_pool : DnsResolver (Id := N) :=
  mkResolver [] true None [Locking; Locking] [] true false.

(** The worker has asked. *)
Definition example_asked : System (Id := N) :=
  mkSystem (set_tasks [mkTask 7%N (str "a:80")] example_pool) [mkTask 7%N (str "a:80")] [] false.

(** The threads go on in the given order. *)
Fixpoint run_threads (order : list nat) (s : System (Id := N)) : option System :=
  match order with
  | [] => Some s
  | i :: order =>
    r ← thread_step i (Ok [SocketAddrV4 1 80]) (resolver s);
    run_threads order (mkSystem r (asked s) (delivered s) (attending s))
  end.

Lemma run_threads_moves order s s' :
  run_threads order s = Some s' -> nsteps (thread_moves example_says) (length order) s s'.
Proof.
  revert s. induction order as [|i order IH]; intros s; simpl; [intros [= <-]; constructor|].
  intros H. destruct (thread_step i _ _) as [r|] eqn:Hr; [|done]. simpl in H.
  econstructor; [|by apply IH]. by apply (thread_move _ i (Ok [SocketAddrV4 1 80])).
Qed.

(** One thread takes the task and answers, the other takes the lock. *)
Definition example_settled : System (Id := N) :=
  mkSystem (mkResolver [] true (Some 1%nat) [Locking; Receiving]
    [mkResult 7%N (Ok [SocketAddrV4 1 80])] true true) [mkTask 7%N (str "a:80")] [] false.

Lemma example_reachable : reachable example_says example_pool example_asked.
Proof.
  apply rtc_once. right. by apply (worker_resolves 7%N (str "a:80") (start example_pool)).
Qed.

Lemma example_settles :
  nsteps (thread_moves example_says) 6 example_asked example_settled.
Proof. by apply (run_threads_moves [0; 0; 0; 0; 1; 0]%nat). Qed.

Lemma resolver_answers_once_witness :
  accounted example_says example_settled /\ noticed example_settled.
Proof.
  destruct (resolver_answers_once example_says [Ok tt; Ok tt] example_pool example_settled)
    as (H1 & H2 & _); [done| |done|by split].
  unfold reachable. etrans; [exact example_reachable|].
  apply (rtc_subrel (thread_moves example_says)); [by left|].
  exact (rtc_nsteps_2 _ _ _ example_settles).
Defined.

Lemma example_quiet : quiet example_says example_settled.
Proof.
  intros s' (i & answer & r & Hsays & Hstep)%thread_moves_inv. by destruct i as [|[|i]].
Qed.

Lemma resolver_settles_witness :
  (6 <= work example_asked)%nat /\ quiet example_says example_settled /\
  (woken (resolver example_settled) = true \/ attending example_settled = true).
Proof.
  destruct (resolver_settles example_says [Ok tt; Ok tt] example_pool example_asked 6
    example_settled) as (H & Hq & _);
    [|done|done|exact example_reachable|exact example_settles|].
  - intros name. by exists (Ok [SocketAddrV4 1 80]).
  - split; [exact H|]. split; [exact example_quiet|]. by apply Hq; [exact example_quiet|..].
Defined.

End Resolver.
