(* ===== verification/Master.v ===== *)
(** * The supervising process ([run/master/src/main.rs])

    The master forks one worker per CPU slot, restarts the ones that fail with
    an exponential delay, and on a signal stops them and waits for them. Durations
    and instants are nanoseconds. *)

From stdpp Require Import gmultiset.
From S2P Require Import Prelude RustStd.

Local Open Scope N_scope.

Definition from_millis (ms : N) : N := ms * 1000000.
Definition from_secs (s : N) : N := s * 1000000000.

Definition RESTART_BASE_DELAY : N := from_millis 100.
Definition RESTART_MAX_DELAY : N := from_secs 10.
Definition RESTART_STABLE_WINDOW : N := from_secs 30.

(** [Duration::MAX]: [u64::MAX] seconds and 999999999 nanoseconds. *)
Definition DURATION_MAX : N := 2 ^ 64 * 1000000000 - 1.

Definition saturating_mul (d n : N) : N := N.min (d * n) DURATION_MAX.

Definition Pid := N.

Record WorkerSlot := mkWorkerSlot {
  cpu_id : N;
  pid : option Pid;
  failures : N;
  started_at : N;
  restart_at : option N;
}.

(** [nix::sys::wait::WaitStatus]. *)
Inductive WaitStatus :=
| Exited (p : Pid) (code : Z)
| Signaled (p : Pid) (signal : N) (core_dumped : bool)
| Stopped (p : Pid) (signal : N)
| Continued (p : Pid)
| StillAlive.

Inductive Errno := ECHILD | ESRCH | OtherErrno (n : N).

#[export] Instance Errno_eq_dec : EqDecision Errno.
Proof. solve_decision. Defined.

Definition status_pid (status : WaitStatus) : option Pid :=
  match status with
  | Exited p _ | Signaled p _ _ => Some p
  | _ => None
  end.

Definition status_failed (status : WaitStatus) : bool :=
  match status with Exited _ 0 => false | _ => true end.

Definition restart_delay (failures : N) : N :=
  let exponent := N.min (saturating_sub failures 1) 16 in
  N.min (saturating_mul RESTART_BASE_DELAY (N.shiftl 1 exponent)) RESTART_MAX_DELAY.

(** What the system answers during one iteration of the supervising loop: the
    flag, [kill] per process, [waitpid], the clock when an exit is handled and a
    restart scheduled, and for each worker slot the clock when it is examined,
    the outcome of a [fork], and the clock after it. *)
Record Answers := mkAnswers {
  shutdown_requested : bool;
  kill : Pid -> option Errno;
  waitpid : result Errno WaitStatus;
  exit_now : N;
  schedule_now : N;
  slot_now : N -> N;
  spawned_now : N -> N;
  fork : N -> result Errno Pid;
}.

Record Master := mkMaster {
  workers : list WorkerSlot;
  stopping : bool;
}.

(** How an iteration ends: the loop goes on, after so many nanoseconds of sleep,
    or [supervise_workers] returns. *)
Inductive Iteration :=
| Loop (m : Master) (slept : N)
| Return (r : result Errno unit).

(** The loop that sends SIGTERM; a process that is gone is not an error. *)
Fixpoint kill_all (kill : Pid -> option Errno) (ws : list WorkerSlot) : result Errno unit :=
  match ws with
  | [] => Ok tt
  | w :: ws =>
    match pid w with
    | None => kill_all kill ws
    | Some p =>
      match kill p with
      | None => kill_all kill ws
      | Some e => if decide (e = ESRCH) then kill_all kill ws else Err e
      end
    end
  end.

(** A worker whose process has exited. *)
Definition worker_exited (stopping failed : bool) (now later : N) (w : WorkerSlot) : WorkerSlot :=
  let w := {| cpu_id := cpu_id w; pid := None; failures := failures w;
              started_at := started_at w; restart_at := restart_at w |} in
  if negb stopping && failed then
    let failures :=
      if RESTART_STABLE_WINDOW <=? saturating_sub now (started_at w)
      then 0 else failures w in
    let failures := saturating_add 32 failures 1 in
    {| cpu_id := cpu_id w; pid := None; failures := failures;
       started_at := started_at w; restart_at := Some (later + restart_delay failures) |}
  else w.

(** [workers.iter_mut().find(|worker| worker.pid == Some(pid))]. *)
Definition update_exited (m : Master) (status : WaitStatus) (p : Pid) (now later : N) :
    option (list WorkerSlot) :=
  match list_find (fun w => pid w = Some p) (workers m) with
  | None => None
  | Some (i, _) =>
    Some (alter (worker_exited (stopping m) (status_failed status) now later) i (workers m))
  end.

Definition is_due (now : N) (w : WorkerSlot) : bool :=
  bool_decide (pid w = None) &&
  match restart_at w with Some t => t <=? now | None => false end.

(** The restarting loop; a failing [fork] returns from [supervise_workers]. *)
Fixpoint restart_due (a : Answers) (ws : list WorkerSlot) :
    result Errno (list WorkerSlot) :=
  match ws with
  | [] => Ok []
  | w :: ws =>
    w ←
      (if is_due (slot_now a (cpu_id w)) w then
         p ← fork a (cpu_id w);
         Ok {| cpu_id := cpu_id w; pid := Some p; failures := failures w;
               started_at := spawned_now a (cpu_id w); restart_at := None |}
       else Ok w);
    rest ← restart_due a ws; Ok (w :: rest)
  end.

Definition all_gone (ws : list WorkerSlot) : bool :=
  forallb (fun w => bool_decide (pid w = None)) ws.

Definition none_left (ws : list WorkerSlot) : bool :=
  forallb (fun w => bool_decide (pid w = None) && bool_decide (restart_at w = None)) ws.

(** The end of an iteration, after [waitpid] was handled. *)
Definition finish_iteration (a : Answers) (m : Master) (slept : N) : Iteration :=
  if stopping m && all_gone (workers m) then Return (Ok tt)
  else if stopping m then Loop m slept
  else
    match restart_due a (workers m) with
    | Err e => Return (Err e)
    | Ok ws =>
      if none_left ws then Return (Ok tt)
      else Loop {| workers := ws; stopping := stopping m |} slept
    end.

(** The [match waitpid(...)]. *)
Definition handle_wait (a : Answers) (m : Master) : Iteration :=
  match waitpid a with
  | Ok StillAlive => finish_iteration a m (from_millis 50)
  | Ok status =>
    match status_pid status with
    | None => Loop m 0 (* continue *)
    | Some p =>
      match update_exited m status p (exit_now a) (schedule_now a) with
      | None => Loop m 0 (* continue *)
      | Some ws => finish_iteration a {| workers := ws; stopping := stopping m |} 0
      end
    end
  | Err e => if decide (e = ECHILD) then finish_iteration a m 0 else Return (Err e)
  end.

(** One iteration of the loop of [supervise_workers]. *)
Definition supervise_step (m : Master) (a : Answers) : Iteration :=
  if shutdown_requested a && negb (stopping m) then
    match kill_all (kill a) (workers m) with
    | Err e => Return (Err e)
    | Ok _ => handle_wait a {| workers := workers m; stopping := true |}
    end
  else handle_wait a m.

(** The start of [main]: the workers, one per CPU slot. *)
Definition initial_worker (cpu : N) (p : Pid) (now : N) : WorkerSlot :=
  {| cpu_id := cpu; pid := Some p; failures := 0; started_at := now; restart_at := None |}.

Fixpoint spawn_workers (count : nat) (cpu : N) (fork : N -> result Errno Pid)
    (clock : N -> N) : result Errno (list WorkerSlot) :=
  match count with
  | O => Ok []
  | S count =>
    p ← fork cpu;
    rest ← spawn_workers count (cpu + 1) fork clock;
    Ok (initial_worker cpu p (clock cpu) :: rest)
  end.

(** Several iterations: the states reached while the loop goes on. *)
Inductive supervised (m : Master) : list Answers -> Master -> Prop :=
| supervised_start : supervised m [] m
| supervised_loop history m1 a m2 slept :
    supervised m history m1 -> supervise_step m1 a = Loop m2 slept ->
    supervised m (history ++ [a]) m2.

(** ** Invariants *)

(** A slot never holds a process and a planned restart, and counts failures on 32
    bits. *)
Definition slot_wf (w : WorkerSlot) : Prop :=
  (pid w = None \/ restart_at w = None) /\ failures w < 2 ^ 32.

Definition master_wf (m : Master) : Prop := Forall slot_wf (workers m).

(** ** Lemmas *)

Lemma restart_delay_spec f :
  restart_delay f = N.min (RESTART_BASE_DELAY * 2 ^ N.min (f - 1) 16) RESTART_MAX_DELAY.
Proof.
  unfold restart_delay, saturating_mul, saturating_sub. rewrite N.shiftl_1_l.
  assert (H : 2 ^ N.min (f - 1) 16 <= 2 ^ 16) by (apply N.pow_le_mono_r; lia).
  revert H. generalize (2 ^ N.min (f - 1) 16). intros n Hn.
  unfold RESTART_BASE_DELAY, RESTART_MAX_DELAY, DURATION_MAX, from_millis, from_secs.
  change (2 ^ 64) with 18446744073709551616. change (2 ^ 16) with 65536 in Hn. lia.
Qed.

Lemma restart_delay_bounds f : RESTART_BASE_DELAY <= restart_delay f <= RESTART_MAX_DELAY.
Proof.
  rewrite restart_delay_spec.
  assert (H : 2 ^ 0 <= 2 ^ N.min (f - 1) 16) by (apply N.pow_le_mono_r; lia).
  revert H. generalize (2 ^ N.min (f - 1) 16). change (2 ^ 0) with 1. intros n Hn.
  unfold RESTART_BASE_DELAY, RESTART_MAX_DELAY, from_millis, from_secs. lia.
Qed.

Lemma worker_exited_wf st fl now later w :
  slot_wf w -> slot_wf (worker_exited st fl now later w).
Proof.
  intros [Hp Hf]. unfold worker_exited. destruct (negb st && fl); (split; [by left|]); simpl;
    [|done]. unfold saturating_add. change (2 ^ 32 - 1) with 4294967295.
  change (2 ^ 32) with 4294967296. lia.
Qed.

Lemma restart_due_lookup a ws ws' :
  restart_due a ws = Ok ws' ->
  Forall2 (fun w w' =>
    if is_due (slot_now a (cpu_id w)) w
    then exists p, fork a (cpu_id w) = Ok p /\
      w' = {| cpu_id := cpu_id w; pid := Some p; failures := failures w;
              started_at := spawned_now a (cpu_id w); restart_at := None |}
    else w' = w) ws ws'.
Proof.
  revert ws'. induction ws as [|w ws IH]; intros ws' H; simpl in H; [inv_ok; constructor|].
  apply bind_ok in H as (w' & Hw & H). inv_ok. constructor; [|auto].
  destruct (is_due _ w); [|by injection Hw as <-].
  apply bind_ok in Hw as (p & Hp & Hw). injection Hw as <-. eauto.
Qed.

Lemma restart_due_wf a ws ws' :
  Forall slot_wf ws -> restart_due a ws = Ok ws' -> Forall slot_wf ws'.
Proof.
  intros Hws H%restart_due_lookup.
  eapply Forall2_Forall_r; [exact H|]. eapply Forall_impl; [exact Hws|].
  intros w [Hp Hf] w' Hw. destruct (is_due _ w); [|by subst].
  destruct Hw as (p & _ & ->). split; simpl; auto.
Qed.

Lemma update_exited_Some m status p now later ws :
  update_exited m status p now later = Some ws ->
  exists i w, workers m !! i = Some w /\ pid w = Some p /\
    ws = alter (worker_exited (stopping m) (status_failed status) now later) i (workers m).
Proof.
  unfold update_exited. destruct (list_find _ _) as [[i w]|] eqn:E; [|done].
  intros [= <-]. apply list_find_Some in E as (Hi & Hp & _). eauto.
Qed.

(** What one iteration of the loop keeps. *)
Definition keeps (m m' : Master) : Prop :=
  (master_wf m -> master_wf m') /\ cpu_id <$> workers m' = cpu_id <$> workers m /\
  (stopping m = true -> stopping m' = true).

Lemma keeps_trans m1 m2 m3 : keeps m1 m2 -> keeps m2 m3 -> keeps m1 m3.
Proof. unfold keeps. intros (? & E1 & ?) (? & E2 & ?). rewrite E2, E1. auto. Qed.

Lemma keeps_refl m : keeps m m.
Proof. by split_and!. Qed.

Lemma finish_iteration_keeps a m slept m' slept' :
  finish_iteration a m slept = Loop m' slept' -> keeps m m'.
Proof.
  unfold finish_iteration. destruct (stopping m) eqn:Es; simpl.
  - destruct (all_gone _); [done|]. intros [= <- <-]. apply keeps_refl.
  - destruct (restart_due a (workers m)) as [ws|] eqn:E; [|done].
    destruct (none_left ws); [done|]. intros [= <- <-]. unfold keeps; simpl.
    split_and!; [|apply restart_due_lookup in E|congruence].
    + intros Hw. by eapply restart_due_wf.
    + induction E as [|w w' ws0 ws1 Hw E IH]; [done|]. rewrite !fmap_cons, IH. f_equal.
      destruct (is_due _ w); [|by subst]. by destruct Hw as (p & _ & ->).
Qed.

Lemma worker_exited_cpu st fl now later w :
  cpu_id (worker_exited st fl now later w) = cpu_id w.
Proof. unfold worker_exited. by destruct (_ && _). Qed.

Lemma update_exited_keeps m status p now later ws :
  update_exited m status p now later = Some ws ->
  keeps m {| workers := ws; stopping := stopping m |}.
Proof.
  intros (i & w & Hi & _ & ->)%update_exited_Some. unfold keeps; simpl. split_and!; [| |done].
  - intros Hw. unfold master_wf in *; simpl. rewrite Forall_lookup in *. intros j x Hj.
    destruct (decide (j = i)) as [->|Hne].
    + rewrite list_lookup_alter_eq, Hi in Hj. injection Hj as <-.
      by eapply worker_exited_wf, Hw.
    + rewrite list_lookup_alter_ne in Hj by done. by eapply Hw.
  - apply list_eq. intros j. rewrite !list_lookup_fmap.
    destruct (decide (j = i)) as [->|Hne].
    + rewrite list_lookup_alter_eq. destruct (workers m !! i); [|done]. simpl.
      by rewrite worker_exited_cpu.
    + by rewrite list_lookup_alter_ne.
Qed.

Lemma handle_wait_keeps a m m' slept : handle_wait a m = Loop m' slept -> keeps m m'.
Proof.
  unfold handle_wait. intros H.
  destruct (waitpid a) as [st|e]; [|case_decide; [|done]; by eapply finish_iteration_keeps].
  assert (H' : st = StillAlive /\ finish_iteration a m (from_millis 50) = Loop m' slept \/
    match status_pid st with
    | None => Loop m 0
    | Some p =>
      match update_exited m st p (exit_now a) (schedule_now a) with
      | None => Loop m 0
      | Some ws => finish_iteration a {| workers := ws; stopping := stopping m |} 0
      end
    end = Loop m' slept) by (destruct st; auto). clear H.
  destruct H' as [[_ H]|H]; [by eapply finish_iteration_keeps|].
  destruct (status_pid st) as [p|]; [|injection H as <- _; apply keeps_refl].
  destruct (update_exited _ _ _ _ _) as [ws|] eqn:E; [|injection H as <- _; apply keeps_refl].
  eapply keeps_trans; [by eapply update_exited_keeps|by eapply finish_iteration_keeps].
Qed.

Lemma supervise_step_keeps m a m' slept : supervise_step m a = Loop m' slept -> keeps m m'.
Proof.
  unfold supervise_step. destruct (_ && _); [|apply handle_wait_keeps].
  destruct (kill_all _ _); [|done]. intros H%handle_wait_keeps.
  eapply keeps_trans; [|exact H]. by split_and!.
Qed.

Lemma spawn_workers_ok count cpu f c ws :
  spawn_workers count cpu f c = Ok ws ->
  Forall slot_wf ws /\ length ws = count /\ Forall (fun w => pid w <> None) ws.
Proof.
  revert cpu ws. induction count as [|n IH]; intros cpu ws H; simpl in H; inv_ok.
  - split_and!; constructor.
  - destruct (IH _ _ Hok0) as (H1 & H2 & H3).
    split_and!; [constructor; [by split; [right|]|done]|simpl; lia|by constructor].
Qed.

Definition live (m : Master) : list Pid := omap pid (workers m).

Lemma live_nil m : live m = [] <-> all_gone (workers m) = true.
Proof.
  unfold live, all_gone. induction (workers m) as [|w ws IH]; [done|]. simpl.
  destruct (pid w) as [p|]; simpl; [by split|exact IH].
Qed.

Lemma omap_alter_gone g ws i w p :
  ws !! i = Some w -> pid w = Some p -> pid (g w) = None ->
  omap pid ws ≡ₚ p :: omap pid (alter g i ws).
Proof.
  intros Hi Hp Hg. revert i Hi. induction ws as [|x ws IH]; intros i Hi; [done|].
  destruct i as [|i]; simpl in Hi.
  - injection Hi as ->. simpl. by rewrite Hp, Hg.
  - specialize (IH i Hi). simpl. destruct (pid x) as [q|]; [|exact IH].
    rewrite IH. apply Permutation_swap.
Qed.

Lemma worker_exited_pid st fl now later w : pid (worker_exited st fl now later w) = None.
Proof. unfold worker_exited. by destruct (_ && _). Qed.

(** An exit takes one process off the live ones. *)
Lemma update_exited_live m status p now later :
  p ∈ live m ->
  exists ws, update_exited m status p now later = Some ws /\
    live m ≡ₚ p :: live {| workers := ws; stopping := stopping m |}.
Proof.
  intros (w & Hw & Hp)%list_elem_of_omap. unfold update_exited, live; simpl.
  destruct (list_find (fun w => pid w = Some p) (workers m)) as [[i w']|] eqn:E.
  - apply list_find_Some in E as (Hi & Hp' & _). eexists. split; [done|].
    by eapply omap_alter_gone; [|done|apply worker_exited_pid].
  - apply list_find_None in E. rewrite Forall_forall in E. by apply E in Hp.
Qed.

(** The iterations of the loop on a sequence of answers. *)
Fixpoint supervise (m : Master) (answers : list Answers) : Iteration :=
  match answers with
  | [] => Loop m 0
  | a :: answers =>
    match supervise_step m a with
    | Loop m _ => supervise m answers
    | r => r
    end
  end.

(** *** Slots without a process *)

(** Neither a process nor a planned restart. *)
Definition retired (w : WorkerSlot) : Prop := pid w = None /\ restart_at w = None.

(** The answers [a] report that the process of the slot has exited, without an error or
    while the master was stopping. *)
Definition retires (m : Master) (a : Answers) (w : WorkerSlot) : Prop :=
  exists p status, pid w = Some p /\ waitpid a = Ok status /\ status_pid status = Some p /\
    (status_failed status = false \/ stopping m = true \/ shutdown_requested a = true).

Lemma finish_iteration_retired a m slept m' slept' i w :
  finish_iteration a m slept = Loop m' slept' -> workers m' !! i = Some w -> retired w ->
  workers m !! i = Some w.
Proof.
  unfold finish_iteration. destruct (stopping m) eqn:Es; simpl.
  { destruct (all_gone _); [done|]. by intros [= <- _]. }
  destruct (restart_due a (workers m)) as [ws|] eqn:E; [|done].
  destruct (none_left ws); [done|]. intros [= <- _] Hi [Hp _]. simpl in Hi.
  apply restart_due_lookup in E.
  destruct (Forall2_lookup_r _ _ _ _ _ E Hi) as (w0 & Hw0 & H).
  destruct (is_due _ w0); [|by subst]. destruct H as (p & _ & ->). done.
Qed.

Lemma update_exited_retired m status p now later ws i w :
  master_wf m -> update_exited m status p now later = Some ws -> ws !! i = Some w -> retired w ->
  workers m !! i = Some w \/
  exists w0, workers m !! i = Some w0 /\ pid w0 = Some p /\
    (status_failed status = false \/ stopping m = true).
Proof.
  intros Hwf (j & w0 & Hj & Hp & ->)%update_exited_Some Hi [_ Hr].
  destruct (decide (i = j)) as [->|Hne]; [|rewrite list_lookup_alter_ne in Hi by done; by left].
  right. exists w0. split_and!; [done..|]. rewrite list_lookup_alter_eq, Hj in Hi.
  injection Hi as <-. unfold worker_exited in Hr.
  destruct (stopping m); [by right|]. destruct (status_failed status); [done|by left].
Qed.

(** An iteration leaves a slot without a process only as it was or by an exit. *)
Lemma handle_wait_retired a m m' slept i w :
  master_wf m -> handle_wait a m = Loop m' slept -> workers m' !! i = Some w -> retired w ->
  workers m !! i = Some w \/
  exists w0 p status, workers m !! i = Some w0 /\ pid w0 = Some p /\ waitpid a = Ok status /\
    status_pid status = Some p /\ (status_failed status = false \/ stopping m = true).
Proof.
  intros Hwf H Hi Hr. unfold handle_wait in H.
  destruct (waitpid a) as [st|e]; [|case_decide; [|done]; left; by eapply finish_iteration_retired].
  assert (H' : finish_iteration a m (from_millis 50) = Loop m' slept \/
    match status_pid st with
    | None => Loop m 0
    | Some p =>
      match update_exited m st p (exit_now a) (schedule_now a) with
      | None => Loop m 0
      | Some ws => finish_iteration a {| workers := ws; stopping := stopping m |} 0
      end
    end = Loop m' slept) by (destruct st; auto). clear H.
  destruct H' as [H|H]; [left; by eapply finish_iteration_retired|].
  destruct (status_pid st) as [p|] eqn:Est; [|injection H as <- _; by left].
  destruct (update_exited _ _ _ _ _) as [ws|] eqn:E; [|injection H as <- _; by left].
  eapply finish_iteration_retired in H; [|done..]. simpl in H.
  destruct (update_exited_retired _ _ _ _ _ _ _ _ Hwf E H Hr) as [?|(w0 & H1 & H2 & H3)];
    [by left|right]. by exists w0, p, st.
Qed.

Lemma supervise_step_retired m a m' slept i w :
  master_wf m -> supervise_step m a = Loop m' slept -> workers m' !! i = Some w -> retired w ->
  workers m !! i = Some w \/ exists w0, workers m !! i = Some w0 /\ retires m a w0.
Proof.
  intros Hwf H Hi Hr.
  assert (Hcase : exists m1, workers m1 = workers m /\
      (stopping m1 = true -> stopping m = true \/ shutdown_requested a = true) /\
      handle_wait a m1 = Loop m' slept).
  { unfold supervise_step in H. destruct (_ && _) eqn:E; [|by exists m; auto].
    destruct (kill_all _ _); [|done]. apply andb_true_iff in E as [E _].
    eexists. split_and!; [|by right|exact H]. done. }
  destruct Hcase as (m1 & Ew & Est & Hm1). rewrite <- Ew.
  assert (Hwf1 : master_wf m1) by (unfold master_wf; by rewrite Ew).
  destruct (handle_wait_retired _ _ _ _ _ _ Hwf1 Hm1 Hi Hr)
    as [?|(w0 & p & st & H0 & Hp & Ha & Hst & Hc)]; [by left|right].
  exists w0. split; [done|]. exists p, st. tauto.
Qed.

(** *** Stopping *)

(** The process an answer reports as exited. *)
Definition exited (a : Answers) : option Pid :=
  match waitpid a with Ok status => status_pid status | Err _ => None end.

(** [waitpid] succeeds, or there is no child to wait for. *)
Definition waits (a : Answers) : Prop :=
  match waitpid a with Ok _ => True | Err e => e = ECHILD end.

Definition live_set (m : Master) : gmultiset Pid := list_to_set_disj (live m).

(** The live processes whose exits the answers have not reported. *)
Definition outstanding (m : Master) (answers : list Answers) : gmultiset Pid :=
  live_set m ∖ list_to_set_disj (omap exited answers).

Lemma live_set_empty m : live_set m = ∅ <-> all_gone (workers m) = true.
Proof.
  rewrite <- live_nil. unfold live_set. destruct (live m) as [|p ps]; [done|].
  split; [|done]. simpl. multiset_solver.
Qed.

Lemma live_set_update m status p now later ws :
  update_exited m status p now later = Some ws ->
  live_set {| workers := ws; stopping := stopping m |} = live_set m ∖ {[+ p +]}.
Proof.
  intros H. assert (Hin : p ∈ live m).
  { apply update_exited_Some in H as (i & w & Hi & Hp & _). apply list_elem_of_omap.
    exists w. split; [by eapply list_elem_of_lookup_2|done]. }
  destruct (update_exited_live m status p now later Hin) as (ws' & E & Hl).
  rewrite H in E. injection E as <-. unfold live_set. rewrite Hl. simpl. multiset_solver.
Qed.

Lemma live_set_unknown m status p now later :
  update_exited m status p now later = None -> live_set m ∖ {[+ p +]} = live_set m.
Proof.
  intros H. assert (p ∉ live_set m).
  { unfold live_set. rewrite elem_of_list_to_set_disj. intros Hin.
    destruct (update_exited_live m status p now later Hin) as (ws & E & _). congruence. }
  multiset_solver.
Qed.

Lemma stopping_finish a m slept :
  stopping m = true ->
  finish_iteration a m slept =
    if decide (live_set m = ∅) then Return (Ok tt) else Loop m slept.
Proof.
  intros Hst. unfold finish_iteration. rewrite Hst. simpl.
  destruct (all_gone (workers m)) eqn:E.
  - by rewrite decide_True by (by apply live_set_empty).
  - rewrite decide_False; [done|]. rewrite live_set_empty. congruence.
Qed.

(** An iteration of a master that is stopping. *)
Lemma stopping_step m a :
  stopping m = true -> live_set m <> ∅ -> waits a ->
  exists m' slept, stopping m' = true /\ live_set m' = outstanding m [a] /\
    supervise_step m a = if decide (live_set m' = ∅) then Return (Ok tt) else Loop m' slept.
Proof.
  intros Hst Hne Hw. unfold supervise_step. rewrite Hst, andb_false_r.
  unfold handle_wait, waits, outstanding, exited in *. simpl.
  assert (Hstay : forall slept, (if decide (live_set m = ∅) then Return (Ok tt) else Loop m slept)
    = Loop m slept) by (intros; by rewrite decide_False).
  destruct (waitpid a) as [st|e].
  2: { subst e. rewrite decide_True, stopping_finish by done. eexists m, _.
       split_and!; [done| |done]. simpl. multiset_solver. }
  destruct (status_pid st) as [p|] eqn:Ep; simpl.
  - destruct (update_exited m st p (exit_now a) (schedule_now a)) as [ws|] eqn:E.
    + exists {| workers := ws; stopping := stopping m |}, 0. split_and!; [done| |].
      * rewrite (live_set_update _ _ _ _ _ _ E). multiset_solver.
      * rewrite <- stopping_finish with (a := a) by done. by destruct st.
    + exists m, 0. split_and!; [done| |rewrite Hstay; by destruct st].
      rewrite <- (live_set_unknown _ _ _ _ _ E) at 1. multiset_solver.
  - destruct st; try done; [exists m, 0|exists m, 0|exists m, (from_millis 50)];
      (split_and!; [done|multiset_solver|]); rewrite ?stopping_finish by done; by rewrite Hstay.
Qed.

Lemma difference_disj_union (X Y Z : gmultiset Pid) : X ∖ (Y ⊎ Z) = X ∖ Y ∖ Z.
Proof. multiset_solver. Qed.

Lemma outstanding_step m a m' answers :
  live_set m' = outstanding m [a] -> outstanding m (a :: answers) = outstanding m' answers.
Proof.
  unfold outstanding. intros ->. change (a :: answers) with ([a] ++ answers).
  by rewrite omap_app, list_to_set_disj_app, difference_disj_union.
Qed.

(** ** Properties *)

Definition quiet (wait : result Errno WaitStatus) : Answers := {|
  shutdown_requested := false; kill := fun _ => None; waitpid := wait;
  exit_now := 1000; schedule_now := 1000; slot_now := fun _ => 1000;
  fork := fun cpu => Ok (20 + cpu); spawned_now := fun _ => 1000;
|}.

Definition two_workers (stopping : bool) : Master :=
  {| workers := [initial_worker 0 10 0; initial_worker 1 11 0]; stopping := stopping |}.

(** Back-off: the delay before a restart starts at 100 ms, doubles with each
    consecutive failure, and stays between 100 ms and 10 s. *)
Theorem restart_delay_correct f :
  RESTART_BASE_DELAY <= restart_delay f <= RESTART_MAX_DELAY /\
  restart_delay 1 = RESTART_BASE_DELAY /\
  (1 <= f -> restart_delay (f + 1) = N.min (2 * restart_delay f) RESTART_MAX_DELAY).
Proof.
  split; [apply restart_delay_bounds|]. rewrite !restart_delay_spec. split; [done|].
  intros Hf. destruct (N.lt_ge_cases (f - 1) 16) as [H|H].
  - replace (N.min (f + 1 - 1) 16) with (N.succ (N.min (f - 1) 16)) by lia.
    rewrite N.pow_succ_r'. generalize (2 ^ N.min (f - 1) 16). intros n.
    unfold RESTART_BASE_DELAY, RESTART_MAX_DELAY, from_millis, from_secs. lia.
  - replace (N.min (f + 1 - 1) 16) with 16 by lia.
    replace (N.min (f - 1) 16) with 16 by lia. done.
Qed.

(** C30. The supervisor's invariant: in every state its loop reaches from the workers
    [main] spawns, each slot keeps its CPU, counts its failures on 32 bits, and never holds
    both a process and a planned restart; and it holds neither only once the exit of its
    process was reported without an error, or while the master was stopping - so a worker
    that failed before any shutdown is replaced or about to be. *)
Theorem supervise_invariant count fork clock ws history m :
  spawn_workers count 0 fork clock = Ok ws ->
  supervised {| workers := ws; stopping := false |} history m ->
  master_wf m /\ cpu_id <$> workers m = cpu_id <$> ws /\ length (workers m) = count /\
  forall i w, workers m !! i = Some w -> retired w ->
    exists before a later m1 w1, history = before ++ a :: later /\
      supervised {| workers := ws; stopping := false |} before m1 /\
      workers m1 !! i = Some w1 /\ retires m1 a w1.
Proof.
  intros Hs Hr. destruct (spawn_workers_ok _ _ _ _ _ Hs) as (Hwf & Hlen & Hpids).
  assert (Hkeeps : forall h m, supervised {| workers := ws; stopping := false |} h m ->
    keeps {| workers := ws; stopping := false |} m).
  { intros h m' H. induction H as [|h m1 a m2 slept _ IH Hstep]; [apply keeps_refl|].
    eapply keeps_trans; [exact IH|by eapply supervise_step_keeps]. }
  pose proof (Hkeeps _ _ Hr) as (Hk & Hc & _). split_and!; [by apply Hk|done| |].
  { apply (f_equal length) in Hc. rewrite !length_fmap in Hc. simpl in Hc. congruence. }
  clear Hk Hc. induction Hr as [|history m1 a m2 slept Hr IH Hstep]; intros i w Hi Hret.
  - rewrite Forall_lookup in Hpids. by destruct (Hpids i w Hi (proj1 Hret)).
  - destruct (Hkeeps _ _ Hr) as (Hk & _).
    destruct (supervise_step_retired _ _ _ _ _ _ (Hk Hwf) Hstep Hi Hret) as [Hw|(w0 & Hw & Hx)].
    + destruct (IH i w Hw Hret) as (h1 & a1 & h2 & m0 & w1 & -> & H).
      exists h1, a1, (h2 ++ [a]), m0, w1. by rewrite <- app_assoc.
    + by exists history, a, [], m1, w0.
Qed.

Definition crash : Answers := quiet (Ok (Signaled 11 9 false)).

Definition after_crash : Master :=
  match supervise_step (two_workers false) crash with
  | Loop m _ => m
  | Return _ => two_workers false
  end.

Lemma supervise_invariant_witness :
  supervised (two_workers false) ([] ++ [crash]) after_crash /\ master_wf after_crash /\
  restart_at <$> workers after_crash = [None; Some (1000 + from_millis 100)].
Proof.
  assert (H : supervised (two_workers false) ([] ++ [crash]) after_crash).
  { apply (supervised_loop _ _ (two_workers false) _ _ 0); [constructor|reflexivity]. }
  split; [exact H|]. split; [|reflexivity].
  exact (proj1 (supervise_invariant 2 (fun cpu => Ok (10 + cpu)) (fun _ => 0) _ _ _ eq_refl H)).
Defined.

(** C37. Shutdown ends: once the master is stopping with live processes, its loop returns,
    successfully, exactly when the exits of all of them have been reported, in whatever
    order and with whatever status, and never before: whatever else [waitpid] answers
    in between (nobody has exited, a process it does not know, a process that was stopped
    or continued, no child), it goes on, forks nothing, and still waits for exactly the
    processes whose exits were not reported. *)
Theorem shutdown_terminates m answers :
  stopping m = true -> live_set m <> ∅ -> Forall waits answers ->
  if decide (outstanding m answers = ∅) then supervise m answers = Return (Ok tt)
  else exists m', supervise m answers = Loop m' 0 /\ stopping m' = true /\
    live_set m' = outstanding m answers.
Proof.
  intros Hst Hne Hw. revert m Hst Hne.
  induction Hw as [|a answers Ha Hw IH]; intros m Hst Hne.
  { assert (E : outstanding m [] = live_set m) by (unfold outstanding; simpl; multiset_solver).
    rewrite E, decide_False by done. by exists m. }
  destruct (stopping_step m a Hst Hne Ha) as (m' & slept & Hst' & Hl & Hstep).
  rewrite (outstanding_step m a m' answers Hl). cbn [supervise]. rewrite Hstep.
  destruct (decide (live_set m' = ∅)) as [E|E]; [|by apply IH].
  rewrite decide_True; [done|]. unfold outstanding. rewrite E. multiset_solver.
Qed.

(** Nobody has exited; a process that is not a worker has; then the two workers. *)
Definition example_exits : list Answers :=
  [quiet (Ok StillAlive); quiet (Ok (Exited 11 0)); quiet (Ok (Exited 99 0)); quiet (Err ECHILD);
   quiet (Ok (Signaled 10 15 false))].

Lemma shutdown_terminates_witness :
  supervise (two_workers true) example_exits = Return (Ok tt) /\
  exists m', supervise (two_workers true) (take 4 example_exits) = Loop m' 0 /\ live m' = [10].
Proof.
  assert (Hw : Forall waits example_exits) by (by repeat constructor).
  assert (Hne : live_set (two_workers true) <> ∅) by (by apply (bool_decide_unpack _)).
  split.
  - pose proof (shutdown_terminates (two_workers true) example_exits eq_refl Hne Hw) as H.
    rewrite decide_True in H by (by apply (bool_decide_unpack _)). exact H.
  - pose proof (shutdown_terminates (two_workers true) (take 4 example_exits) eq_refl Hne
      (Forall_take _ 4%nat _ Hw)) as H.
    rewrite decide_False in H by (by apply (bool_decide_unpack _)).
    destruct H as (m' & E & _). exists m'. split; [exact E|].
    vm_compute in E. injection E as <-. reflexivity.
Defined.

(** While every worker is gone and a restart is planned for later, an iteration
    changes nothing and does not sleep: the loop spins until the restart is due. *)
Theorem supervise_spins a m :
  waitpid a = Err ECHILD -> shutdown_requested a = false -> stopping m = false ->
  Forall (fun w => pid w = None /\ exists t, restart_at w = Some t /\ slot_now a (cpu_id w) < t)
    (workers m) ->
  workers m <> [] ->
  supervise_step m a = Loop m 0.
Proof.
  intros Hw Hs Hst Hall Hne. unfold supervise_step. rewrite Hs. simpl.
  unfold handle_wait. rewrite Hw, decide_True by done. unfold finish_iteration.
  rewrite Hst. simpl.
  assert (restart_due a (workers m) = Ok (workers m)) as ->.
  { induction Hall as [|w ws (Hp & t & Ht & Hlt) Hall IH]; [done|]. cbn [restart_due].
    unfold is_due. rewrite Hp, Ht, (proj2 (N.leb_gt _ _)) by done.
    rewrite andb_false_r. simpl. destruct ws; [done|]. by rewrite IH. }
  destruct m as [[|w ws] st]; [done|]. simpl in *. subst st.
  apply Forall_cons_iff in Hall as [(Hp & t & Ht & _) _]. by rewrite Ht, andb_false_r.
Qed.

Lemma supervise_spins_witness :
  let w := {| cpu_id := 0; pid := None; failures := 1; started_at := 0;
              restart_at := Some (from_millis 100) |} in
  let m := {| workers := [w]; stopping := false |} in
  supervise_step m (quiet (Err ECHILD)) = Loop m 0.
Proof.
  intros w m. apply supervise_spins; [done|done|done| |done].
  constructor; [split; [done|]|constructor]. by exists (from_millis 100).
Defined.
