(* ===== verification/Runtime.v ===== *)
(** * The worker's runtime interface ([run/slave/src/runtime/mod.rs],
    [run/slave/src/startup.rs])

    Limits taken from the configuration, metric counters, the choice of a
    runtime, and the shutdown handle that a signal thread and the worker share. *)

From S2P Require Import Prelude RustStd Config.

Local Open Scope N_scope.

(** [Duration::from_millis], in nanoseconds. *)
Definition from_millis (ms : N) : N := ms * 1000000.

Record WorkerLimits := mkWorkerLimits {
  max_connections : N;
  max_read_buffer_size : N;
  max_write_buffer_size : N;
  idle_timeout : N;
  drain_timeout : N;
}.

Definition worker_limits_from_config (c : WorkerConfig) : WorkerLimits := {|
  max_connections := Config.max_connections c;
  max_read_buffer_size := Config.max_read_buffer_size c;
  max_write_buffer_size := Config.max_write_buffer_size c;
  idle_timeout := from_millis (idle_timeout_ms c);
  drain_timeout := from_millis (drain_timeout_ms c);
|}.

Definition default_worker_limits : WorkerLimits :=
  worker_limits_from_config default_worker_config.

Record ProxyLimits := mkProxyLimits {
  connect_timeout : N;
  write_timeout : N;
  read_timeout : N;
}.

Definition proxy_limits_from_config (c : ProxyTimeoutConfig) : ProxyLimits := {|
  connect_timeout := from_millis (connect_timeout_ms c);
  write_timeout := from_millis (write_timeout_ms c);
  read_timeout := from_millis (read_timeout_ms c);
|}.

Definition default_proxy_limits : ProxyLimits :=
  proxy_limits_from_config default_proxy_timeout_config.

Record DnsLimits := mkDnsLimits {
  resolver_threads : N;
  dns_timeout : N;
}.

Definition dns_limits_from_config (c : DnsConfig) : DnsLimits := {|
  resolver_threads := Config.resolver_threads c;
  dns_timeout := from_millis (timeout_ms c);
|}.

Definition default_dns_limits : DnsLimits := dns_limits_from_config default_dns_config.

(** ** Metrics: relaxed 64-bit counters *)

Record WorkerMetrics := mkWorkerMetrics {
  m_accepted : N;
  m_requests : N;
  m_responses : N;
  m_bytes_read : N;
  m_bytes_written : N;
  m_errors : N;
}.

Definition no_metrics : WorkerMetrics := mkWorkerMetrics 0 0 0 0 0 0.

Definition fetch_add (counter n : N) : N := wrapping_add 64 counter n.

Definition accepted (m : WorkerMetrics) : WorkerMetrics :=
  mkWorkerMetrics (fetch_add (m_accepted m) 1) (m_requests m) (m_responses m)
    (m_bytes_read m) (m_bytes_written m) (m_errors m).

Definition request (m : WorkerMetrics) : WorkerMetrics :=
  mkWorkerMetrics (m_accepted m) (fetch_add (m_requests m) 1) (m_responses m)
    (m_bytes_read m) (m_bytes_written m) (m_errors m).

Definition response (m : WorkerMetrics) : WorkerMetrics :=
  mkWorkerMetrics (m_accepted m) (m_requests m) (fetch_add (m_responses m) 1)
    (m_bytes_read m) (m_bytes_written m) (m_errors m).

Definition read_bytes (count : N) (m : WorkerMetrics) : WorkerMetrics :=
  mkWorkerMetrics (m_accepted m) (m_requests m) (m_responses m)
    (fetch_add (m_bytes_read m) count) (m_bytes_written m) (m_errors m).

Definition wrote_bytes (count : N) (m : WorkerMetrics) : WorkerMetrics :=
  mkWorkerMetrics (m_accepted m) (m_requests m) (m_responses m)
    (m_bytes_read m) (fetch_add (m_bytes_written m) count) (m_errors m).

Definition error (m : WorkerMetrics) : WorkerMetrics :=
  mkWorkerMetrics (m_accepted m) (m_requests m) (m_responses m)
    (m_bytes_read m) (m_bytes_written m) (fetch_add (m_errors m) 1).

(** ** Choosing a runtime (Linux) *)

Inductive SelectedRuntime :=
| SelectedEpoll (max_events : N)
| SelectedKqueue (max_events : N)
| SelectedIoUring (sq_entries cq_entries buf_ring_size buf_size : N).

Definition runtime_name (r : SelectedRuntime) : bytes :=
  match r with
  | SelectedEpoll _ => str "epoll"
  | SelectedKqueue _ => str "kqueue"
  | SelectedIoUring _ _ _ _ => str "io_uring"
  end.

(** [probe] is [IoUringRuntime::probe]. *)
Definition select_auto_runtime (probe : N -> N -> N -> N -> io_result unit)
    (max_events sq cq ring size : N) : SelectedRuntime :=
  match probe sq cq ring size with
  | Ok _ => SelectedIoUring sq cq ring size
  | Err _ => SelectedEpoll max_events
  end.

Definition select_runtime (probe : N -> N -> N -> N -> io_result unit)
    (config : AsyncRuntimeConfig) : SelectedRuntime :=
  match config with
  | Auto max_events sq cq ring size => select_auto_runtime probe max_events sq cq ring size
  | Epoll max_events => SelectedEpoll max_events
  | Kqueue max_events => SelectedKqueue max_events
  | IoUring sq cq ring size => SelectedIoUring sq cq ring size
  end.

(** [pin_to_cpu]: the core chosen among those available; [None] is the panic of a
    remainder by zero. *)
Definition pin_to_cpu {Core : Type} (core_ids : option (list Core))
    (set_for_current : Core -> bool) (cpu_id : N) : option (io_result Core) :=
  match core_ids with
  | None => Some (Err Unsupported)
  | Some [] => None
  | Some ids =>
    match ids !! N.to_nat (cpu_id mod len ids) with
    | None => Some (Err InvalidInput)
    | Some core => Some (if set_for_current core then Ok core else Err OtherKind)
    end
  end.

(** ** The shutdown handle

    The atomic flag, the waker and the event descriptor, shared by the thread
    that waits for a signal and by the worker that installs the last two. Every
    access to one of them is an atomic step. *)
Record ShutdownState := mkShutdownState {
  requested : bool;
  waker : bool;
  eventfd : bool;
  wakes : N;
  eventfd_writes : N;
}.

Definition new_shutdown : ShutdownState := mkShutdownState false false false 0 0.

Inductive ShutdownOp :=
| StoreRequested
| WakeWaker
| WriteEventfd
| InstallWaker
| InstallEventfd
| RequestIfRequested.

(** [ShutdownHandle::request]. *)
Definition request_ops : list ShutdownOp := [StoreRequested; WakeWaker; WriteEventfd].

Definition install_waker_ops : list ShutdownOp := [InstallWaker].

(** [ShutdownHandle::install_eventfd]. *)
Definition install_eventfd_ops : list ShutdownOp := [InstallEventfd; RequestIfRequested].

#[export] Instance ShutdownOp_eq_dec : EqDecision ShutdownOp.
Proof. solve_decision. Defined.

#[export] Instance ShutdownState_eq_dec : EqDecision ShutdownState.
Proof. solve_decision. Defined.

(** The effect of a step on the state, and what the thread still has to do. *)
Definition shutdown_op (op : ShutdownOp) (rest : list ShutdownOp) (s : ShutdownState) :
    ShutdownState * list ShutdownOp :=
  match op with
  | StoreRequested =>
    (mkShutdownState true (waker s) (eventfd s) (wakes s) (eventfd_writes s), rest)
  | WakeWaker =>
    (mkShutdownState (requested s) (waker s) (eventfd s)
       (if waker s then wakes s + 1 else wakes s) (eventfd_writes s), rest)
  | WriteEventfd =>
    (mkShutdownState (requested s) (waker s) (eventfd s) (wakes s)
       (if eventfd s then eventfd_writes s + 1 else eventfd_writes s), rest)
  | InstallWaker =>
    (mkShutdownState (requested s) true (eventfd s) (wakes s) (eventfd_writes s), rest)
  | InstallEventfd =>
    (mkShutdownState (requested s) (waker s) true (wakes s) (eventfd_writes s), rest)
  | RequestIfRequested => (s, if requested s then request_ops ++ rest else rest)
  end.

(** What remains of each thread's calls, and the shared state. *)
Definition config : Type := list ShutdownOp * list ShutdownOp * ShutdownState.

(** The signal thread and the worker: either takes its next step. *)
Inductive interleave : config -> config -> Prop :=
| step_signal op rest ops s s' rest' :
    shutdown_op op rest s = (s', rest') ->
    interleave (op :: rest, ops, s) (rest', ops, s')
| step_worker op rest ops s s' rest' :
    shutdown_op op rest s = (s', rest') ->
    interleave (ops, op :: rest, s) (ops, rest', s').

(** ** Exploring every interleaving *)

Definition successors (c : config) : list config :=
  let '(signal, worker, s) := c in
  match signal with
  | [] => []
  | op :: rest => let '(s', rest') := shutdown_op op rest s in [(rest', worker, s')]
  end ++
  match worker with
  | [] => []
  | op :: rest => let '(s', rest') := shutdown_op op rest s in [(signal, rest', s')]
  end.

Lemma interleave_successors c c' : interleave c c' <-> c' ∈ successors c.
Proof.
  split.
  - destruct 1 as [op rest ops s s' rest' E|op rest ops s s' rest' E];
      unfold successors; rewrite E.
    + by left.
    + apply elem_of_app. right. by left.
  - destruct c as [[signal worker] s]. unfold successors. intros [H|H]%elem_of_app.
    + destruct signal as [|op rest]; [by apply elem_of_nil in H|].
      destruct (shutdown_op op rest s) as [s' rest'] eqn:E.
      apply list_elem_of_singleton in H as ->. by constructor.
    + destruct worker as [|op rest]; [by apply elem_of_nil in H|].
      destruct (shutdown_op op rest s) as [s' rest'] eqn:E.
      apply list_elem_of_singleton in H as ->. by constructor.
Qed.

(** The configurations found in so many rounds of exploration. *)
Fixpoint explore (rounds : nat) (found : list config) : list config :=
  match rounds with
  | O => found
  | S rounds => explore rounds (remove_dups (found ++ mjoin (successors <$> found)))
  end.

Definition closed_set (found : list config) : bool :=
  forallb (fun c => forallb (fun c' => bool_decide (c' ∈ found)) (successors c)) found.

(** A closed set holds everything reachable from its elements. *)
Lemma closed_set_reachable found c c' :
  closed_set found = true -> c ∈ found -> rtc interleave c c' -> c' ∈ found.
Proof.
  intros Hc Hin Hr. induction Hr as [c|c c1 c' Hs Hr IH]; [done|]. apply IH.
  unfold closed_set in Hc. apply forallb_Forall in Hc. rewrite Forall_forall in Hc.
  specialize (Hc c Hin). simpl in Hc. apply forallb_Forall in Hc.
  rewrite Forall_forall in Hc. apply interleave_successors, Hc in Hs.
  by apply bool_decide_eq_true in Hs.
Qed.

(** [request] on one thread against the installation of a wake-up on another:
    fourteen rounds are more than the steps both threads can take. *)
Definition reachable_from (worker : list ShutdownOp) : list config :=
  explore 14 [(request_ops, worker, new_shutdown)].

(** ** Properties *)

(** C36. No shutdown is lost: whichever way [request] interleaves with the
    installation of the event descriptor, once both calls have returned the
    request is recorded and the descriptor has been written, so that a worker
    blocked on it wakes up. The number of writes is one or two. *)
Theorem shutdown_reaches_eventfd s :
  rtc interleave (request_ops, install_eventfd_ops, new_shutdown) ([], [], s) ->
  requested s = true /\ eventfd s = true /\ 1 <= eventfd_writes s <= 2.
Proof.
  intros Hr. apply (closed_set_reachable (reachable_from install_eventfd_ops)) in Hr;
    [|by vm_compute|by apply (bool_decide_unpack _); vm_compute].
  assert (H : forallb (fun c => let '(signal, worker, s) := c in
      negb (bool_decide (signal = [] /\ worker = [])) ||
      (requested s && eventfd s && (1 <=? eventfd_writes s) && (eventfd_writes s <=? 2)))
    (reachable_from install_eventfd_ops) = true) by (by vm_compute).
  apply forallb_Forall in H. rewrite Forall_forall in H. specialize (H _ Hr). simpl in H.
  rewrite !andb_true_iff, !N.leb_le in H. naive_solver.
Qed.

(** The signal is handled between the two steps of the installation. *)
Lemma shutdown_reaches_eventfd_witness :
  exists s, rtc interleave (request_ops, install_eventfd_ops, new_shutdown) ([], [], s) /\
    1 <= eventfd_writes s <= 2.
Proof.
  assert (H : rtc interleave (request_ops, install_eventfd_ops, new_shutdown)
    ([], [], mkShutdownState true false true 0 2)).
  { eapply rtc_l; [by eapply step_signal|]. eapply rtc_l; [by eapply step_worker|].
    eapply rtc_l; [by eapply step_worker|]. eapply rtc_l; [by eapply step_signal|].
    eapply rtc_l; [by eapply step_signal|]. eapply rtc_l; [by eapply step_worker|].
    eapply rtc_l; [by eapply step_worker|]. eapply rtc_l; [by eapply step_worker|].
    apply rtc_refl. }
  eexists. split; [exact H|]. exact (proj2 (proj2 (shutdown_reaches_eventfd _ H))).
Defined.
