(* ===== verification/Ssl.v ===== *)
(** * TLS configurations ([run/slave/src/ssl.rs])

    From the TLS blocks of the configured servers to the configurations the workers
    accept connections with. Files, the PEM parser and rustls are an interface. *)

From S2P Require Import Prelude RustStd Config Runtime.

Local Open Scope N_scope.

(** The protocol versions and cipher suites of rustls, by name. *)
Inductive ProtocolVersion := TLS12 | TLS13.

Inductive SupportedCipherSuite :=
| TLS13_AES_256_GCM_SHA384
| TLS13_AES_128_GCM_SHA256
| TLS13_CHACHA20_POLY1305_SHA256
| TLS_ECDHE_ECDSA_WITH_AES_256_GCM_SHA384
| TLS_ECDHE_ECDSA_WITH_AES_128_GCM_SHA256
| TLS_ECDHE_ECDSA_WITH_CHACHA20_POLY1305_SHA256
| TLS_ECDHE_RSA_WITH_AES_256_GCM_SHA384
| TLS_ECDHE_RSA_WITH_AES_128_GCM_SHA256
| TLS_ECDHE_RSA_WITH_CHACHA20_POLY1305_SHA256.

#[export] Instance ProtocolVersion_eq_dec : EqDecision ProtocolVersion.
Proof. solve_decision. Defined.

#[export] Instance SupportedCipherSuite_eq_dec : EqDecision SupportedCipherSuite.
Proof. solve_decision. Defined.

(** [File::open], [rustls_pemfile] on what the file holds, and the builder of
    [ServerConfig]: first the versions against the provider's suites, then the
    certificate chain and its key. An error of rustls has no [io::ErrorKind]. *)
Class TlsApi := {
  File : Type;
  CertificateDer : Type;
  PrivateKeyDer : Type;
  ServerConfig : Type;
  file_open : bytes -> io_result File;
  certs : File -> list (result unit CertificateDer);
  private_key : File -> result unit (option PrivateKeyDer);
  with_protocol_versions : list SupportedCipherSuite -> list ProtocolVersion -> result unit unit;
  with_single_cert : list SupportedCipherSuite -> list ProtocolVersion ->
    list CertificateDer -> PrivateKeyDer -> result unit ServerConfig;
}.

Definition supported_protocol (protocol : SslProtocol) : ProtocolVersion :=
  match protocol with Tlsv1_2 => TLS12 | Tlsv1_3 => TLS13 end.

Definition supported_cipher (cipher : SslCipher) : SupportedCipherSuite :=
  match cipher with
  | Tls13Aes256GcmSha384 => TLS13_AES_256_GCM_SHA384
  | Tls13Aes128GcmSha256 => TLS13_AES_128_GCM_SHA256
  | Tls13Chacha20Poly1305Sha256 => TLS13_CHACHA20_POLY1305_SHA256
  | TlsEcdheEcdsaWithAes256GcmSha384 => TLS_ECDHE_ECDSA_WITH_AES_256_GCM_SHA384
  | TlsEcdheEcdsaWithAes128GcmSha256 => TLS_ECDHE_ECDSA_WITH_AES_128_GCM_SHA256
  | TlsEcdheEcdsaWithChacha20Poly1305Sha256 => TLS_ECDHE_ECDSA_WITH_CHACHA20_POLY1305_SHA256
  | TlsEcdheRsaWithAes256GcmSha384 => TLS_ECDHE_RSA_WITH_AES_256_GCM_SHA384
  | TlsEcdheRsaWithAes128GcmSha256 => TLS_ECDHE_RSA_WITH_AES_128_GCM_SHA256
  | TlsEcdheRsaWithChacha20Poly1305Sha256 => TLS_ECDHE_RSA_WITH_CHACHA20_POLY1305_SHA256
  end.

Section Loading.

Context {api : TlsApi}.

Record LoadedSslConfig := mkLoadedSslConfig {
  server_config : ServerConfig;
  handshake_timeout : N;
}.

Definition ssl_config_error (e : unit) : ErrorKind := InvalidInput.

(** A parse error of the PEM file. *)
Definition invalid_data (e : unit) : ErrorKind := InvalidData.

Definition load_certificates (path : bytes) : io_result (list CertificateDer) :=
  file ← file_open path;
  certificates ← map_err invalid_data (collect_results (certs file));
  match certificates with
  | [] => Err InvalidData
  | _ => Ok certificates
  end.

Definition load_private_key (path : bytes) : io_result PrivateKeyDer :=
  file ← file_open path;
  key ← map_err invalid_data (private_key file);
  ok_or key InvalidData.

Definition load_ssl_config (config : SslServerConfig) : io_result LoadedSslConfig :=
  certificates ← load_certificates (certificate_path config);
  key ← load_private_key (private_key_path config);
  let versions := supported_protocol <$> protocols config in
  let cipher_suites := supported_cipher <$> ciphers config in
  _ ← map_err ssl_config_error (with_protocol_versions cipher_suites versions);
  server ← map_err ssl_config_error (with_single_cert cipher_suites versions certificates key);
  Ok (mkLoadedSslConfig server (from_millis (handshake_timeout_ms config))).

Definition load_server_ssl (server : Server) : io_result (option LoadedSslConfig) :=
  transpose (load_ssl_config <$> ssl server).

Definition load_ssl_configs (servers : list Server) : io_result (list (option LoadedSslConfig)) :=
  collect_results (load_server_ssl <$> servers).

(** ** Specification *)

(** What the program asks rustls for on behalf of a TLS block: the certificates and the
    key that its two files hold, and its own versions and suites. *)
Definition configured (c : SslServerConfig) (cfg : LoadedSslConfig) : Prop :=
  exists cert_file key_file chain key,
    file_open (certificate_path c) = Ok cert_file /\ certs cert_file = Ok <$> chain /\
    chain <> [] /\
    file_open (private_key_path c) = Ok key_file /\ private_key key_file = Ok (Some key) /\
    with_protocol_versions (supported_cipher <$> ciphers c) (supported_protocol <$> protocols c)
      = Ok tt /\
    with_single_cert (supported_cipher <$> ciphers c) (supported_protocol <$> protocols c)
      chain key = Ok (server_config cfg) /\
    handshake_timeout cfg = from_millis (handshake_timeout_ms c).

(** A server with a TLS block is loaded as configured, one without stays plain. *)
Definition loaded (s : Server) (cfg : option LoadedSslConfig) : Prop :=
  match ssl s, cfg with
  | None, None => True
  | Some c, Some cfg => configured c cfg
  | _, _ => False
  end.

(** ** Lemmas *)

Lemma load_certificates_ok path chain :
  load_certificates path = Ok chain <->
  exists file, file_open path = Ok file /\ certs file = Ok <$> chain /\ chain <> [].
Proof.
  unfold load_certificates. rewrite bind_ok. split.
  - intros (file & Hf & (l & Hl & Hm)%bind_ok). exists file.
    apply map_err_ok, collect_results_ok in Hl. destruct l; [done|]. by injection Hm as <-.
  - intros (file & Hf & Hc & Hne). exists file. split; [done|]. apply bind_ok. exists chain.
    rewrite map_err_ok, collect_results_ok. split; [done|]. by destruct chain.
Qed.

Lemma load_private_key_ok path key :
  load_private_key path = Ok key <->
  exists file, file_open path = Ok file /\ private_key file = Ok (Some key).
Proof.
  unfold load_private_key. rewrite bind_ok. split.
  - intros (file & Hf & (k & Hk & ->%ok_or_ok)%bind_ok). exists file.
    by rewrite map_err_ok in Hk.
  - intros (file & Hf & Hk). exists file. split; [done|]. apply bind_ok. exists (Some key).
    by rewrite map_err_ok.
Qed.

Lemma load_ssl_config_ok c cfg : load_ssl_config c = Ok cfg <-> configured c cfg.
Proof.
  unfold load_ssl_config, configured. split.
  - intros H. inv_ok. apply map_err_ok in Hok1, Hok2. destruct a1.
    apply load_certificates_ok in Hok as (f & Hf & Hc & Hne).
    apply load_private_key_ok in Hok0 as (f' & Hf' & Hk). by exists f, f', a, a0.
  - intros (f & f' & chain & key & Hf & Hc & Hne & Hf' & Hk & Hv & Hs & Ht).
    rewrite bind_ok. exists chain. split; [apply load_certificates_ok; by exists f|].
    rewrite bind_ok. exists key. split; [apply load_private_key_ok; by exists f'|].
    rewrite Hv. simpl. rewrite Hs. simpl. destruct cfg; simpl in *. by subst.
Qed.

Lemma load_server_ssl_ok s cfg : load_server_ssl s = Ok cfg <-> loaded s cfg.
Proof.
  unfold load_server_ssl, loaded. destruct (ssl s) as [c|]; simpl.
  - destruct (load_ssl_config c) as [x|e] eqn:E; simpl.
    + apply load_ssl_config_ok in E as Hx. destruct cfg as [y|]; [|done].
      rewrite <- load_ssl_config_ok, E. naive_solver.
    + destruct cfg as [y|]; [|done]. rewrite <- load_ssl_config_ok, E. naive_solver.
  - destruct cfg; naive_solver.
Qed.

Lemma load_ssl_configs_ok servers l :
  load_ssl_configs servers = Ok l <-> Forall2 loaded servers l.
Proof.
  unfold load_ssl_configs. rewrite collect_fmap_Forall2.
  split; intros H; eapply Forall2_impl; try exact H; intros; by apply load_server_ssl_ok.
Qed.

End Loading.
