(* ===== verification/Handler.v ===== *)
(** * Handlers of an event loop

    Computations over a worker's state and the world outside it, which return, fail
    with an [io::Error] that [?] propagates, or panic; their weakest preconditions.
    Both event loops ([Readiness.v] and [Uring.v]) are written in this monad. *)

From S2P Require Import Prelude RustStd.

Record State (W U : Type) := mkState {
  worker : W;
  world : U;
}.

Arguments mkState {W U} worker world.
Arguments worker {W U} s : rename.
Arguments world {W U} s : rename.

Inductive Outcome (S A : Type) : Type :=
| Ret (a : A) (s : S)
| Fail (e : ErrorKind) (s : S)
| Panicked.

Arguments Ret {S A} a s.
Arguments Fail {S A} e s.
Arguments Panicked {S A}.

(** A handler over the worker [W] and the world [U]. *)
Definition Handler (W U A : Type) : Type := State W U -> Outcome (State W U) A.

Section Handlers.

Context {W U : Type}.

Notation M := (Handler W U).

#[export] Instance Handler_ret : MRet M := fun A a s => Ret a s.

#[export] Instance Handler_bind : MBind M :=
  fun A B f m s =>
    match m s with
    | Ret a s' => f a s'
    | Fail e s' => Fail e s'
    | Panicked => Panicked
    end.

Definition panic {A} : M A := fun s => Panicked.

Definition fail {A} (e : ErrorKind) : M A := fun s => Fail e s.

(** The [?] operator on a result. *)
Definition lift {A} (r : io_result A) : M A :=
  fun s => match r with Ok a => Ret a s | Err e => Fail e s end.

(** Keep the error of a call as a value: [if let Err(error) = ...]. *)
Definition attempt {A} (m : M A) : M (io_result A) :=
  fun s =>
    match m s with
    | Ret a s' => Ret (Ok a) s'
    | Fail e s' => Ret (Err e) s'
    | Panicked => Panicked
    end.

Definition sys {A} (f : U -> A * U) : M A :=
  fun s => let '(a, u) := f (world s) in Ret a (mkState (worker s) u).

Definition gets {A} (f : W -> A) : M A := fun s => Ret (f (worker s)) s.

Definition modify (f : W -> W) : M unit := fun s => Ret tt (mkState (f (worker s)) (world s)).

Definition skip : M unit := mret tt.

(** [Option::unwrap], or an index that may be out of range. *)
Definition unwrap {A} (o : option A) : M A :=
  match o with Some a => mret a | None => panic end.

(** A loop over a list whose body may leave with [?]. *)
Fixpoint for_all {A} (f : A -> M unit) (l : list A) : M unit :=
  match l with
  | [] => skip
  | a :: l => f a;; for_all f l
  end.

(** A bind whose first half returns. *)
Lemma bind_Ret {A B} (m : M A) (f : A -> M B) s a s' :
  m s = Ret a s' -> (m ≫= f) s = f a s'.
Proof. unfold mbind, Handler_bind. by intros ->. Qed.

(** ** Weakest preconditions

    [wp m Q R s]: from [s], [m] does not panic; if it returns, [Q] holds of the
    result and the state, and if it fails, [R] holds of the state. *)
Definition wp {A} (m : M A) (Q : A -> State W U -> Prop) (R : State W U -> Prop)
    (s : State W U) : Prop :=
  match m s with
  | Ret a s' => Q a s'
  | Fail _ s' => R s'
  | Panicked => False
  end.

Lemma wp_mono {A} (m : M A) (Q Q' : A -> State W U -> Prop) (R R' : State W U -> Prop) s :
  wp m Q R s -> (forall a s', Q a s' -> Q' a s') -> (forall s', R s' -> R' s') ->
  wp m Q' R' s.
Proof. unfold wp. destruct (m s); eauto. Qed.

Lemma wp_ret {A} (a : A) (Q : A -> State W U -> Prop) R s : Q a s -> wp (mret a) Q R s.
Proof. intros H. exact H. Qed.

Lemma wp_skip (Q : unit -> State W U -> Prop) R s : Q tt s -> wp skip Q R s.
Proof. intros H. exact H. Qed.

Lemma wp_bind {A B} (m : M A) (f : A -> M B) (Q : B -> State W U -> Prop) R s :
  wp m (fun a s' => wp (f a) Q R s') R s -> wp (m ≫= f) Q R s.
Proof. unfold wp, mbind, Handler_bind. by destruct (m s). Qed.

Lemma wp_sys {A} (f : U -> A * U) (Q : A -> State W U -> Prop) R w u :
  (forall a u', f u = (a, u') -> Q a (mkState w u')) -> wp (sys f) Q R (mkState w u).
Proof. unfold wp, sys. simpl. destruct (f u) as [a u']. auto. Qed.

Lemma wp_gets {A} (f : W -> A) (Q : A -> State W U -> Prop) R w u :
  Q (f w) (mkState w u) -> wp (gets f) Q R (mkState w u).
Proof. intros H. exact H. Qed.

Lemma wp_modify f (Q : unit -> State W U -> Prop) R w u :
  Q tt (mkState (f w) u) -> wp (modify f) Q R (mkState w u).
Proof. intros H. exact H. Qed.

Lemma wp_fail {A} e (Q : A -> State W U -> Prop) (R : State W U -> Prop) s :
  R s -> wp (fail e) Q R s.
Proof. intros H. exact H. Qed.

Lemma wp_lift {A} (r : io_result A) (Q : A -> State W U -> Prop) (R : State W U -> Prop) s :
  (forall a, r = Ok a -> Q a s) -> (forall e, r = Err e -> R s) -> wp (lift r) Q R s.
Proof. unfold wp, lift. destruct r; eauto. Qed.

Lemma wp_attempt {A} (m : M A) (Q : io_result A -> State W U -> Prop) R s :
  wp m (fun a s' => Q (Ok a) s') (fun s' => forall e, Q (Err e) s') s -> wp (attempt m) Q R s.
Proof. unfold wp, attempt. destruct (m s); auto. Qed.

Lemma wp_and {A} (m : M A) (Q Q' : A -> State W U -> Prop) (R R' : State W U -> Prop) s :
  wp m Q R s -> wp m Q' R' s -> wp m (fun a s => Q a s /\ Q' a s) (fun s => R s /\ R' s) s.
Proof. unfold wp. by destruct (m s). Qed.

Lemma wp_unwrap {A} (o : option A) a (Q : A -> State W U -> Prop) R s :
  o = Some a -> Q a s -> wp (unwrap o) Q R s.
Proof. by intros ->. Qed.

Lemma wp_total {A} (m : M A) Q s :
  wp m Q (fun _ => False) s -> exists a s', m s = Ret a s' /\ Q a s'.
Proof. unfold wp. destruct (m s); naive_solver. Qed.

(** Reading a [Ret] back as a [wp]. *)
Lemma wp_of_Ret {A} (m : M A) (Q : A -> State W U -> Prop) R s a s' :
  m s = Ret a s' -> Q a s' -> wp m Q R s.
Proof. unfold wp. by intros ->. Qed.

End Handlers.

(** ** Scripted runs *)

Local Open Scope N_scope.

(** A test of the state in which an operation returns. *)
Definition returns {S A} (o : Outcome S A) (test : A -> S -> bool) : bool :=
  match o with Ret a s => test a s | _ => false end.

Lemma returns_Ret {S A} (o : Outcome S A) test a s :
  returns o test = true -> o = Ret a s -> test a s = true.
Proof. intros H ->. exact H. Qed.

(** One more than the largest key. *)
Definition next_key (keys : gset N) : N :=
  foldr (fun k n => N.max (k + 1) n) 0 (elements keys).

Lemma next_key_fresh keys : next_key keys ∉ keys.
Proof.
  assert (H : forall l k, k ∈ l -> k < foldr (fun k n => N.max (k + 1) n) 0 l).
  { intros l k. induction 1; simpl; lia. }
  intros Hin. apply elem_of_elements, H in Hin. unfold next_key in Hin. lia.
Qed.
