(* ===== verification/Connection.v ===== *)
(** * Connections of the readiness runtime
    ([run/slave/src/runtime/readiness/connection.rs], [readiness/proxy.rs])

    The interface of the operating system and of the libraries the worker calls,
    and the state of one client connection: its buffers, its TLS session and its
    protocol phase, with the upstream half while it is proxied. *)

From S2P Require Import Prelude RustStd Config Http StaticFiles Runtime Token.

Local Open Scope N_scope.

(** [mio::Interest]. *)
Inductive Interest := READABLE | WRITABLE | READABLE_WRITABLE.

(** The readiness flags of an event, as the worker snapshots them. *)
Record ReadyEvent := mkReadyEvent {
  ev_token : Token;
  ev_readable : bool;
  ev_writable : bool;
  ev_error : bool;
  ev_read_closed : bool;
  ev_write_closed : bool;
}.

(** ** The environment

    An operation reads and changes the world: the state of everything outside
    the worker. [io_result]s are the documented results of the calls. A TLS
    session is a value; its operations that do not touch the socket are
    functions. *)
Class Env := {
  World : Type;
  Socket : Type;
  TcpListener : Type;
  Ssl : Type;
  SslConfig : Type;
  Stream : Type;
  (** [Instant::now], in nanoseconds *)
  now : World -> N * World;
  (** the results of the successive [accept] calls of one accept loop; after the
      last one [accept] would block *)
  accepts : TcpListener -> World -> list (io_result Socket) * World;
  (** [read] into a buffer of the given length: the bytes read *)
  sock_read : Socket -> N -> World -> io_result bytes * World;
  (** the results of successive [read]s, up to one that is not interrupted *)
  sock_reads : Socket -> N -> World -> list (io_result bytes) * World;
  sock_write : Socket -> bytes -> World -> io_result N * World;
  take_error : Socket -> World -> io_result (option ErrorKind) * World;
  connect : SocketAddr -> World -> io_result Socket * World;
  register : Socket -> Token -> Interest -> World -> io_result unit * World;
  reregister : Socket -> Token -> Interest -> World -> io_result unit * World;
  deregister : Socket -> World -> io_result unit * World;
  register_listener : TcpListener -> Token -> World -> io_result unit * World;
  deregister_listener : TcpListener -> World -> io_result unit * World;
  (** [Poll::poll] with a timeout in nanoseconds *)
  poll : N -> World -> io_result (list ReadyEvent) * World;
  shutdown_is_requested : World -> bool * World;
  (** the channel to the resolver threads and back *)
  resolver_resolve : ConnectionId -> bytes -> World -> io_result unit * World;
  resolver_drain : World -> list (ConnectionId * io_result (list SocketAddr)) * World;
  (** [rustls] *)
  ssl_new : SslConfig -> World -> io_result Ssl * World;
  ssl_config_handshake_timeout : SslConfig -> N;
  read_tls : Ssl -> Socket -> World -> (io_result N * Ssl) * World;
  process_new_packets : Ssl -> io_result unit * Ssl;
  reader_read : Ssl -> N -> io_result bytes * Ssl;
  writer_write : Ssl -> bytes -> io_result N * Ssl;
  write_tls : Ssl -> Socket -> World -> (io_result N * Ssl) * World;
  wants_write : Ssl -> bool;
  is_handshaking : Ssl -> bool;
  send_close_notify : Ssl -> Ssl;
  (** [spawn_file_stream] and [StaticStream::try_next] *)
  spawn_stream : bytes * N * N -> World -> Stream * World;
  stream_try_next : Stream -> World -> io_result StaticChunk * World;
  (** [Slab::vacant_entry]: the key, given the occupied ones *)
  vacant_key : gset N -> World -> N * World;
  (** the order in which a [HashSet] is drained *)
  drain_order : gset ConnectionId -> World -> list ConnectionId * World;
}.

(** What the worker relies on: a call never reports more bytes than it was given
    room for, a vacant slab entry is vacant, and a set is drained entirely. *)
Class EnvOk (env : Env) := {
  sock_read_len s n w b w' : sock_read s n w = (Ok b, w') -> len b <= n;
  sock_reads_len s n w rs w' b : sock_reads s n w = (rs, w') -> Ok b ∈ rs -> len b <= n;
  sock_write_len s b w n w' : sock_write s b w = (Ok n, w') -> n <= len b;
  reader_read_len ssl n b ssl' : reader_read ssl n = (Ok b, ssl') -> len b <= n;
  writer_write_len ssl b n ssl' : writer_write ssl b = (Ok n, ssl') -> n <= len b;
  vacant_key_fresh keys w k w' : vacant_key keys w = (k, w') -> k ∉ keys;
  drain_order_all ids w l w' : drain_order ids w = (l, w') -> l ≡ₚ elements ids;
}.

(** What has gone through a socket so far: the bytes it has taken, those it has given,
    and whether it has given its end of file. *)
Record Channel := mkChannel {
  ch_sent : bytes;
  ch_received : bytes;
  ch_ended : bool;
}.

Definition channel_write (r : io_result N) (b : bytes) (ch : Channel) : Channel := {|
  ch_sent := ch_sent ch ++ match r with Ok n => take (N.to_nat n) b | Err _ => [] end;
  ch_received := ch_received ch; ch_ended := ch_ended ch;
|}.

Definition channel_read (r : io_result bytes) (ch : Channel) : Channel := {|
  ch_sent := ch_sent ch;
  ch_received := ch_received ch ++ match r with Ok b => b | Err _ => [] end;
  ch_ended := ch_ended ch || match r with Ok [] => true | _ => false end;
|}.

(** The channels as a reading of the world: a write appends what it reports, a read
    what it returns, on their own socket only; the clock, the poller and [SO_ERROR] move
    no bytes. *)
Class Wire (env : Env) := {
  wire : Socket -> World -> Channel;
  wire_write s b w r w' : sock_write s b w = (r, w') ->
    wire s w' = channel_write r b (wire s w);
  wire_write_other s b w r w' s' : sock_write s b w = (r, w') -> s' <> s -> wire s' w' = wire s' w;
  wire_read s n w r w' : sock_read s n w = (r, w') -> wire s w' = channel_read r (wire s w);
  wire_read_other s n w r w' s' : sock_read s n w = (r, w') -> s' <> s -> wire s' w' = wire s' w;
  wire_reads s n w rs w' : sock_reads s n w = (rs, w') ->
    wire s w' = foldl (fun ch r => channel_read r ch) (wire s w) rs;
  reads_interrupted s n w rs w' : sock_reads s n w = (rs, w') ->
    Forall (eq (Err Interrupted)) (removelast rs);
  wire_reads_other s n w rs w' s' : sock_reads s n w = (rs, w') -> s' <> s ->
    wire s' w' = wire s' w;
  wire_now w t w' s : now w = (t, w') -> wire s w' = wire s w;
  wire_take_error s' w r w' s : take_error s' w = (r, w') -> wire s w' = wire s w;
  wire_reregister s' t i w r w' s : reregister s' t i w = (r, w') -> wire s w' = wire s w;
  wire_deregister s' w r w' s : deregister s' w = (r, w') -> wire s w' = wire s w;
}.

Definition sent {env : Env} {wr : Wire env} (s : Socket) (w : World) : bytes := ch_sent (wire s w).

Definition received {env : Env} {wr : Wire env} (s : Socket) (w : World) : bytes :=
  ch_received (wire s w).

Definition ended {env : Env} {wr : Wire env} (s : Socket) (w : World) : bool :=
  ch_ended (wire s w).

Section Wires.

Context {env : Env} {wr : Wire env}.

Lemma sent_write s b w r w' :
  sock_write s b w = (r, w') ->
  sent s w' = sent s w ++ match r with Ok n => take (N.to_nat n) b | Err _ => [] end.
Proof. unfold sent. by intros ->%wire_write. Qed.

Lemma received_read s n w r w' :
  sock_read s n w = (r, w') ->
  received s w' = received s w ++ match r with Ok b => b | Err _ => [] end.
Proof. unfold received. by intros ->%wire_read. Qed.

Lemma sent_now s w t w' : now w = (t, w') -> sent s w' = sent s w.
Proof. unfold sent. by intros H%(wire_now _ _ _ s); rewrite H. Qed.

Lemma received_now s w t w' : now w = (t, w') -> received s w' = received s w.
Proof. unfold received. by intros H%(wire_now _ _ _ s); rewrite H. Qed.

End Wires.

Inductive ProxyPhase := Connecting | WritingRequest | ReadingResponse.

#[export] Instance ProxyPhase_eq_dec : EqDecision ProxyPhase.
Proof. solve_decision. Defined.

Definition phase_timeout (phase : ProxyPhase) (limits : ProxyLimits) : N :=
  match phase with
  | Connecting => connect_timeout limits
  | WritingRequest => write_timeout limits
  | ReadingResponse => read_timeout limits
  end.

Definition timeout_message (phase : ProxyPhase) : bytes :=
  match phase with
  | Connecting => str "upstream connect timed out"
  | WritingRequest => str "upstream request write timed out"
  | ReadingResponse => str "upstream response timed out"
  end.

Record PendingRequest := mkPendingRequest {
  pending_head : RequestHead;
  body_start : N;
  body_end : N;
}.

Record ResolvingState := mkResolvingState {
  resolving_buffer : bytes;
  resolving_started_at : N;
}.

Section Connections.

Context {env : Env}.

Record SslSession := mkSslSession {
  ssl_connection : Ssl;
  ssl_started_at : N;
  handshake_timeout : N;
}.

Record ProxyState := mkProxyState {
  upstream : Socket;
  request_buffer : bytes;
  request_offset : N;
  upstream_eof : bool;
  response_started : bool;
  proxy_phase : ProxyPhase;
  phase_progress_at : N;
}.

(** [ProxyState::new]. *)
Definition new_proxy (upstream : Socket) (request_buffer : bytes) (now : N) : ProxyState := {|
  upstream := upstream; request_buffer := request_buffer; request_offset := 0;
  upstream_eof := false; response_started := false; proxy_phase := Connecting;
  phase_progress_at := now;
|}.

Definition transition (phase : ProxyPhase) (now : N) (p : ProxyState) : ProxyState := {|
  upstream := upstream p; request_buffer := request_buffer p;
  request_offset := request_offset p; upstream_eof := upstream_eof p;
  response_started := response_started p; proxy_phase := phase; phase_progress_at := now;
|}.

(** [request_offset += written; record_progress()]. *)
Definition request_sent (written now : N) (p : ProxyState) : ProxyState := {|
  upstream := upstream p; request_buffer := request_buffer p;
  request_offset := request_offset p + written; upstream_eof := upstream_eof p;
  response_started := response_started p; proxy_phase := proxy_phase p;
  phase_progress_at := now;
|}.

(** [response_started = true; record_progress()]. *)
Definition response_received (now : N) (p : ProxyState) : ProxyState := {|
  upstream := upstream p; request_buffer := request_buffer p;
  request_offset := request_offset p; upstream_eof := upstream_eof p;
  response_started := true; proxy_phase := proxy_phase p; phase_progress_at := now;
|}.

Definition set_upstream_eof (p : ProxyState) : ProxyState := {|
  upstream := upstream p; request_buffer := request_buffer p;
  request_offset := request_offset p; upstream_eof := true;
  response_started := response_started p; proxy_phase := proxy_phase p;
  phase_progress_at := phase_progress_at p;
|}.

Inductive ConnectionPhase :=
| Reading (pending_request : option PendingRequest)
| WritingResponse
| Resolving (resolution : ResolvingState)
| Proxying (proxy : ProxyState).

Record Connection := mkConnection {
  socket : Socket;
  read_buffer : bytes;
  write_buffer : bytes;
  write_offset : N;
  listener_group : N;
  last_progress : N;
  conn_generation : N;
  static_stream : option Stream;
  ssl : option SslSession;
  ssl_closing : bool;
  phase : ConnectionPhase;
}.

(** [Connection::new], the TLS session and the clock given. *)
Definition new_connection (socket : Socket) (listener_group generation : N)
    (ssl : option SslSession) (now : N) : Connection := {|
  socket := socket; read_buffer := []; write_buffer := []; write_offset := 0;
  listener_group := listener_group; last_progress := now; conn_generation := generation;
  static_stream := None; ssl := ssl; ssl_closing := false; phase := Reading None;
|}.

(** *** Field updates *)

Definition set_read_buffer (b : bytes) (c : Connection) : Connection :=
  mkConnection (socket c) b (write_buffer c) (write_offset c) (listener_group c)
    (last_progress c) (conn_generation c) (static_stream c) (ssl c) (ssl_closing c) (phase c).

(** [write_buffer = b; write_offset = offset]. *)
Definition set_write_buffer (b : bytes) (offset : N) (c : Connection) : Connection :=
  mkConnection (socket c) (read_buffer c) b offset (listener_group c)
    (last_progress c) (conn_generation c) (static_stream c) (ssl c) (ssl_closing c) (phase c).

Definition set_last_progress (t : N) (c : Connection) : Connection :=
  mkConnection (socket c) (read_buffer c) (write_buffer c) (write_offset c)
    (listener_group c) t (conn_generation c) (static_stream c) (ssl c) (ssl_closing c)
    (phase c).

Definition set_static_stream (s : option Stream) (c : Connection) : Connection :=
  mkConnection (socket c) (read_buffer c) (write_buffer c) (write_offset c)
    (listener_group c) (last_progress c) (conn_generation c) s (ssl c) (ssl_closing c)
    (phase c).

(** The TLS session after an operation on it. *)
Definition set_ssl_connection (s : Ssl) (c : Connection) : Connection :=
  mkConnection (socket c) (read_buffer c) (write_buffer c) (write_offset c)
    (listener_group c) (last_progress c) (conn_generation c) (static_stream c)
    ((fun session => mkSslSession s (ssl_started_at session) (handshake_timeout session))
       <$> ssl c)
    (ssl_closing c) (phase c).

Definition set_ssl_closing (c : Connection) : Connection :=
  mkConnection (socket c) (read_buffer c) (write_buffer c) (write_offset c)
    (listener_group c) (last_progress c) (conn_generation c) (static_stream c) (ssl c)
    true (phase c).

Definition set_phase (p : ConnectionPhase) (c : Connection) : Connection :=
  mkConnection (socket c) (read_buffer c) (write_buffer c) (write_offset c)
    (listener_group c) (last_progress c) (conn_generation c) (static_stream c) (ssl c)
    (ssl_closing c) p.

(** *** The methods of [Connection] *)

Definition ssl_wants_write (c : Connection) : bool :=
  match ssl c with Some s => wants_write (ssl_connection s) | None => false end.

Definition ssl_handshake_expired (now : N) (c : Connection) : bool :=
  match ssl c with
  | Some s =>
    is_handshaking (ssl_connection s)
    && (handshake_timeout s <=? saturating_sub now (ssl_started_at s))
  | None => false
  end.

Definition proxy (c : Connection) : option ProxyState :=
  match phase c with Proxying p => Some p | _ => None end.

(** [proxy_mut]: change the proxy state in place. *)
Definition update_proxy (f : ProxyState -> ProxyState) (c : Connection) : Connection :=
  match phase c with Proxying p => set_phase (Proxying (f p)) c | _ => c end.

Definition resolution (c : Connection) : option ResolvingState :=
  match phase c with Resolving r => Some r | _ => None end.

Definition is_proxying (c : Connection) : bool :=
  match phase c with Proxying _ => true | _ => false end.

Definition is_resolving (c : Connection) : bool :=
  match phase c with Resolving _ => true | _ => false end.

Definition is_handling_request (c : Connection) : bool :=
  match phase c with Resolving _ | Proxying _ => true | _ => false end.

Definition is_writing_response (c : Connection) : bool :=
  match phase c with WritingResponse => true | _ => false end.

Definition pending_request (c : Connection) : option PendingRequest :=
  match phase c with Reading p => p | _ => None end.

Definition set_pending_request (r : PendingRequest) (c : Connection) : Connection :=
  match phase c with Reading _ => set_phase (Reading (Some r)) c | _ => c end.

Definition take_pending_request (c : Connection) : option PendingRequest * Connection :=
  match phase c with
  | Reading p => (p, set_phase (Reading None) c)
  | _ => (None, c)
  end.

Definition begin_response (c : Connection) : Connection := set_phase WritingResponse c.

Definition begin_resolving (request_buffer : bytes) (now : N) (c : Connection) : Connection :=
  set_phase (Resolving (mkResolvingState request_buffer now)) c.

Definition take_resolution (c : Connection) : option ResolvingState * Connection :=
  match phase c with
  | Resolving r => (Some r, set_phase WritingResponse c)
  | _ => (None, c)
  end.

Definition begin_proxy (p : ProxyState) (c : Connection) : Connection :=
  set_phase (Proxying p) c.

Definition detach_proxy (c : Connection) : option ProxyState * Connection :=
  match phase c with
  | Proxying p => (Some p, set_phase WritingResponse c)
  | _ => (None, c)
  end.

End Connections.
