(* ===== verification/Readiness.v ===== *)
(** * The readiness worker ([run/slave/src/runtime/readiness/worker.rs])

    The event loop behind epoll and kqueue: every handler of [ReadinessWorker],
    over the worker's state and the world of [Connection.Env]. A handler returns,
    fails with an [io::Error] that [?] propagates to [run], or panics. *)

From stdpp Require Import sorting.
From S2P Require Import Prelude RustStd Config Http Router LoadBalancer Proxy StaticFiles Runtime Token Handler Connection.

Local Open Scope N_scope.

Definition MAX_READS_PER_EVENT : nat := 16.
Definition MAX_WRITES_PER_EVENT : nat := 16.
Definition READ_BUFFER_SIZE : N := 8 * 1024.

Section Worker.

Context {env : Env} {fs : Filesystem} {mime : MimeGuess}.

Record RegisteredListener := mkRegisteredListener {
  l_socket : TcpListener;
  l_default_server : N;
  l_server_indices : list N;
  l_ssl : option SslConfig;
}.

Record ReadinessWorker := mkWorker {
  listeners : list RegisteredListener;
  connections : gmap N Connection;
  generations : list N;
  pending_writes : gset ConnectionId;
  pending_upstream_writes : gset ConnectionId;
  pending_upstream_reads : gset ConnectionId;
  servers : list Server;
  limits : WorkerLimits;
  proxy_limits : ProxyLimits;
  dns_limits : DnsLimits;
  metrics : WorkerMetrics;
  balancer : UpstreamBalancer;
  draining : bool;
  drain_started_at : option N;
}.

(** *** Field updates *)

Definition set_connections (m : gmap N Connection) (w : ReadinessWorker) : ReadinessWorker :=
  mkWorker (listeners w) m (generations w) (pending_writes w) (pending_upstream_writes w)
    (pending_upstream_reads w) (servers w) (limits w) (proxy_limits w) (dns_limits w)
    (metrics w) (balancer w) (draining w) (drain_started_at w).

Definition set_generations (g : list N) (w : ReadinessWorker) : ReadinessWorker :=
  mkWorker (listeners w) (connections w) g (pending_writes w) (pending_upstream_writes w)
    (pending_upstream_reads w) (servers w) (limits w) (proxy_limits w) (dns_limits w)
    (metrics w) (balancer w) (draining w) (drain_started_at w).

Definition set_pending (writes upstream_writes upstream_reads : gset ConnectionId)
    (w : ReadinessWorker) : ReadinessWorker :=
  mkWorker (listeners w) (connections w) (generations w) writes upstream_writes
    upstream_reads (servers w) (limits w) (proxy_limits w) (dns_limits w)
    (metrics w) (balancer w) (draining w) (drain_started_at w).

Definition set_pending_writes (p : gset ConnectionId) (w : ReadinessWorker) :
    ReadinessWorker :=
  set_pending p (pending_upstream_writes w) (pending_upstream_reads w) w.

Definition set_pending_upstream_writes (p : gset ConnectionId) (w : ReadinessWorker) :
    ReadinessWorker :=
  set_pending (pending_writes w) p (pending_upstream_reads w) w.

Definition set_pending_upstream_reads (p : gset ConnectionId) (w : ReadinessWorker) :
    ReadinessWorker :=
  set_pending (pending_writes w) (pending_upstream_writes w) p w.

Definition update_metrics (f : WorkerMetrics -> WorkerMetrics) (w : ReadinessWorker) :
    ReadinessWorker :=
  mkWorker (listeners w) (connections w) (generations w) (pending_writes w)
    (pending_upstream_writes w) (pending_upstream_reads w) (servers w) (limits w)
    (proxy_limits w) (dns_limits w) (f (metrics w)) (balancer w) (draining w)
    (drain_started_at w).

Definition set_balancer (b : UpstreamBalancer) (w : ReadinessWorker) : ReadinessWorker :=
  mkWorker (listeners w) (connections w) (generations w) (pending_writes w)
    (pending_upstream_writes w) (pending_upstream_reads w) (servers w) (limits w)
    (proxy_limits w) (dns_limits w) (metrics w) b (draining w) (drain_started_at w).

(** [draining = true; drain_started_at = Some(now)]. *)
Definition set_draining (now : N) (w : ReadinessWorker) : ReadinessWorker :=
  mkWorker (listeners w) (connections w) (generations w) (pending_writes w)
    (pending_upstream_writes w) (pending_upstream_reads w) (servers w) (limits w)
    (proxy_limits w) (dns_limits w) (metrics w) (balancer w) true (Some now).

(** ** State, errors and panics: the handlers of [Handler.v] over this worker *)

Notation M := (Handler ReadinessWorker World).

(** [self.connections[slot]]: a panic when the slot is vacant. *)
Definition index (slot : N) : M Connection :=
  fun s =>
    match connections (worker s) !! slot with
    | Some c => Ret c s
    | None => Panicked
    end.

Definition update (slot : N) (f : Connection -> Connection) : M unit :=
  c ← index slot;
  modify (fun w => set_connections (<[slot := f c]> (connections w)) w).

Definition clock : M N := sys now.

Definition metric (f : WorkerMetrics -> WorkerMetrics) : M unit := modify (update_metrics f).

Definition is_current_in (w : ReadinessWorker) (id : ConnectionId) : bool :=
  match connections w !! slot id with
  | Some c => conn_generation c =? generation id
  | None => false
  end.

Definition is_current (id : ConnectionId) : M bool := gets (fun w => is_current_in w id).

(** [Slab::iter] goes through the occupied slots in ascending order. *)
Definition slot_le (a b : N * Connection) : Prop := a.1 <= b.1.

#[export] Instance slot_le_dec a b : Decision (slot_le a b).
Proof. unfold slot_le. apply _. Defined.

Definition slab_iter (m : gmap N Connection) : list (N * Connection) :=
  merge_sort slot_le (map_to_list m).

(** The identifiers of the connections that satisfy a test. *)
Definition ids_where (p : Connection -> bool) (w : ReadinessWorker) : list ConnectionId :=
  omap (fun '(slot, c) => if p c then Some (mkConnectionId slot (conn_generation c)) else None)
    (slab_iter (connections w)).

(** ** Errors on a socket, removal, interest *)

Definition log_socket_error (id : ConnectionId) (error_event : bool) : M unit :=
  current ← is_current id;
  if negb error_event || negb current then skip
  else
    metric Runtime.error;;
    c ← index (slot id);
    _ ← sys (take_error (socket c));
    skip.

Definition remove_connection (id : ConnectionId) : M unit :=
  current ← is_current id;
  if negb current then skip
  else
    modify (fun w => set_pending (pending_writes w ∖ {[id]}) (pending_upstream_writes w ∖ {[id]})
                       (pending_upstream_reads w ∖ {[id]}) w);;
    c ← index (slot id);
    modify (fun w => set_connections (delete (slot id) (connections w)) w);;
    (match (detach_proxy c).1 with
     | Some p =>
       if upstream_eof p then skip
       else _ ← sys (deregister (upstream p)); skip
     | None => skip
     end);;
    _ ← sys (deregister (socket c));
    skip.

Definition reregister_client (id : ConnectionId) (interest : Interest) : M unit :=
  c ← index (slot id);
  t ← lift (token id Client);
  r ← sys (reregister (socket c) t interest);
  match r with
  | Ok _ => skip
  | Err _ => remove_connection id
  end.

Definition close_client (id : ConnectionId) : M unit :=
  current ← is_current id;
  if negb current then skip
  else
    c ← index (slot id);
    match ssl c with
    | Some session =>
      if ssl_closing c then remove_connection id
      else
        update (slot id) (fun c =>
          set_ssl_closing (set_ssl_connection (send_close_notify (ssl_connection session)) c));;
        reregister_client id WRITABLE
    | None => remove_connection id
    end.

(** ** Responses *)

Definition queue_response (id : ConnectionId) (response : bytes) : M unit :=
  current ← is_current id;
  if negb current then skip
  else
    max ← gets (fun w => max_write_buffer_size (limits w));
    let response :=
      if max <? len response then response_bytes 500 (str "response is too large")
      else response in
    update (slot id) (fun c => set_write_buffer response 0 (begin_response c));;
    c ← index (slot id);
    t ← lift (token id Client);
    r ← sys (reregister (socket c) t WRITABLE);
    match r with
    | Ok _ => skip
    | Err _ => remove_connection id
    end.

Definition queue_static_response (id : ConnectionId) (head : bytes) (stream : option Stream) :
    M unit :=
  current ← is_current id;
  if negb current then skip
  else
    update (slot id) (set_static_stream stream);;
    queue_response id head.

Definition response_for (ss : list Server) (server_index : N) (target : bytes) : bytes :=
  match ss !! N.to_nat server_index with
  | None => response_bytes 500 (str "server configuration is unavailable")
  | Some server =>
    match route server target with
    | Some (Response status body) => response_bytes status body
    | Some (Static _) => response_bytes 500 (str "static stream was not prepared")
    | Some (Config.Proxy _ _ _ _) =>
      response_bytes 501 (str "configured action is not implemented")
    | None => response_bytes 404 (str "not found")
    end
  end.

Definition advance_static_stream (id : ConnectionId) : M unit :=
  current ← is_current id;
  if negb current then skip
  else
    c ← index (slot id);
    match static_stream c with
    | None => panic (* [unwrap] *)
    | Some stream =>
      next ← sys (stream_try_next stream);
      match next with
      | Ok (Data b) =>
        update (slot id) (set_write_buffer b 0);;
        t ← lift (token id Client);
        r ← sys (reregister (socket c) t WRITABLE);
        lift r
      | Ok Pending =>
        t ← lift (token id Client);
        r ← sys (reregister (socket c) t READABLE);
        lift r
      | Ok Finished => metric Runtime.response;; remove_connection id
      | Err _ => metric Runtime.error;; remove_connection id
      end
    end.

Definition drained (c : Connection) : bool := write_offset c =? len (write_buffer c).

Definition is_streaming (c : Connection) : bool :=
  match static_stream c with Some _ => true | None => false end.

Definition pump_static_streams : M unit :=
  ready ← gets (ids_where (fun c => is_streaming c && drained c));
  for_all advance_static_stream ready.

(** ** Proxying: resolution, the request, the response *)

Definition bad_gateway : bytes := response_bytes 502 (str "upstream connection failed").

Definition fail_proxy (id : ConnectionId) (status : N) (message : bytes) : M unit :=
  current ← is_current id;
  if negb current then skip
  else
    c ← index (slot id);
    let can_send_error :=
      match proxy c with Some p => negb (response_started p) | None => false end
      && bool_decide (write_buffer c = []) in
    (match detach_proxy c with
     | (Some p, c') =>
       update (slot id) (fun _ => c');;
       _ ← sys (take_error (upstream p));
       _ ← sys (deregister (upstream p));
       skip
     | (None, _) => skip
     end);;
    modify (fun w => set_pending_upstream_reads (pending_upstream_reads w ∖ {[id]}) w);;
    modify (fun w => set_pending_upstream_writes (pending_upstream_writes w ∖ {[id]}) w);;
    if can_send_error then queue_response id (response_bytes status message)
    else remove_connection id.

Definition fail_resolution (id : ConnectionId) (status : N) (message : bytes) : M unit :=
  current ← is_current id;
  if negb current then skip
  else
    c ← index (slot id);
    if negb (is_resolving c) then skip
    else queue_response id (response_bytes status message).

Definition start_proxy (id : ConnectionId) (upstream_url : bytes) (request : RequestHead)
    (body : bytes) : M unit :=
  match Proxy.parse upstream_url with
  | Err _ => fail InvalidInput
  | Ok upstream =>
    let request_buffer := request_bytes upstream request body in
    max ← gets (fun w => max_read_buffer_size (limits w));
    if max <? len request_buffer then fail InvalidData
    else
      t ← clock;
      update (slot id) (begin_resolving request_buffer t);;
      r ← sys (resolver_resolve id (connect_address upstream));
      lift r
  end.

(** The end of [finish_resolution], with the first address. *)
Definition connect_resolved (id : ConnectionId) (address : SocketAddr) : M unit :=
  c ← index (slot id);
  match take_resolution c with
  | (None, _) => skip
  | (Some resolution, c') =>
    update (slot id) (fun _ => c');;
    r ← sys (connect address);
    match r with
    | Err _ => queue_response id bad_gateway
    | Ok socket =>
      t ← lift (token id Upstream);
      r ← sys (register socket t READABLE_WRITABLE);
      match r with
      | Err _ => queue_response id bad_gateway
      | Ok _ =>
        now ← clock;
        update (slot id) (begin_proxy (new_proxy socket (resolving_buffer resolution) now))
      end
    end
  end.

Definition finish_resolution (result : ConnectionId * io_result (list SocketAddr)) : M unit :=
  let '(id, addresses) := result in
  current ← is_current id;
  if negb current then skip
  else
    c ← index (slot id);
    if negb (is_resolving c) then skip
    else
      match addresses with
      | Ok (address :: _) => connect_resolved id address
      | Ok [] => fail_resolution id 502 (str "upstream has no address")
      | Err _ => fail_resolution id 502 (str "upstream DNS resolution failed")
      end.

Definition process_dns_results : M unit :=
  results ← sys resolver_drain;
  for_all finish_resolution results.

(** How the loop that writes the request ends. *)
Inductive UpstreamWrite :=
| UpstreamBlocked (* [return Ok(())] *)
| UpstreamFailed (made_progress : bool)
| UpstreamFinished (made_progress : bool)
| UpstreamBudget (made_progress : bool).

(** The proxy state of a slot: [proxy_mut().unwrap()]. *)
Definition index_proxy (slot : N) : M ProxyState :=
  c ← index slot;
  match proxy c with Some p => mret p | None => panic end.

Definition request_done (p : ProxyState) : bool :=
  request_offset p =? len (request_buffer p).

(** A slice [&buffer[offset..]]. *)
Definition slice_from (buffer : bytes) (offset : N) : M bytes :=
  if len buffer <? offset then panic else mret (drop (N.to_nat offset) buffer).

Fixpoint upstream_write_loop (n : nat) (id : ConnectionId) (made_progress : bool) :
    M UpstreamWrite :=
  p ← index_proxy (slot id);
  match n with
  | O => mret (if request_done p then UpstreamFinished made_progress
               else UpstreamBudget made_progress)
  | S n =>
    if request_done p then mret (UpstreamFinished made_progress)
    else
      rest ← slice_from (request_buffer p) (request_offset p);
      r ← sys (sock_write (upstream p) rest);
      match r with
      | Ok 0 => mret (UpstreamFailed made_progress)
      | Ok written =>
        t ← clock;
        update (slot id) (update_proxy (request_sent written t));;
        upstream_write_loop n id true
      | Err WouldBlock => mret UpstreamBlocked
      | Err Interrupted => upstream_write_loop n id made_progress
      | Err _ => mret (UpstreamFailed made_progress)
      end
  end.

(** The end of a write that completed the request. *)
Definition request_written (id : ConnectionId) : M unit :=
  _ ← index_proxy (slot id);
  now ← clock;
  update (slot id) (update_proxy (transition ReadingResponse now));;
  p ← index_proxy (slot id);
  t ← lift (token id Upstream);
  r ← sys (reregister (upstream p) t READABLE);
  match r with
  | Ok _ => skip
  | Err _ => fail_proxy id 502 (str "upstream connection failed")
  end.

Definition write_progress (id : ConnectionId) (made_progress : bool) : M unit :=
  current ← is_current id;
  if made_progress && current then t ← clock; update (slot id) (set_last_progress t)
  else skip.

Definition write_upstream_request (id : ConnectionId) : M unit :=
  current ← is_current id;
  if negb current then skip
  else
    c ← index (slot id);
    match proxy c with
    | None => skip
    | Some p =>
      if decide (proxy_phase p = ReadingResponse) then skip
      else
        connect_error ←
          (if decide (proxy_phase p = Connecting) then
             r ← sys (take_error (upstream p));
             e ← lift r;
             match e with
             | Some _ => mret true
             | None =>
               now ← clock;
               update (slot id) (update_proxy (transition WritingRequest now));;
               mret false
             end
           else mret false);
        outcome ←
          (if connect_error : bool then mret (UpstreamFailed false)
           else upstream_write_loop MAX_WRITES_PER_EVENT id false);
        match outcome with
        | UpstreamBlocked => skip
        | UpstreamFailed made_progress =>
          write_progress id made_progress;;
          fail_proxy id 502 (str "upstream connection failed")
        | UpstreamFinished made_progress =>
          write_progress id made_progress;; request_written id
        | UpstreamBudget made_progress =>
          write_progress id made_progress;;
          modify (fun w => set_pending_upstream_writes ({[id]} ∪ pending_upstream_writes w) w)
        end
    end.

Definition mark_upstream_eof (id : ConnectionId) : M unit :=
  current ← is_current id;
  if negb current then skip
  else
    c ← index (slot id);
    (match proxy c with
     | Some p =>
       update (slot id) (update_proxy set_upstream_eof);;
       _ ← sys (deregister (upstream p)); skip
     | None => skip
     end);;
    if bool_decide (write_buffer c = []) then remove_connection id else skip.

(** The first [read] that is not interrupted. *)
Fixpoint first_uninterrupted (rs : list (io_result bytes)) : io_result bytes :=
  match rs with
  | [] => Err WouldBlock
  | Err Interrupted :: rs => first_uninterrupted rs
  | r :: _ => r
  end.

Definition read_upstream_response (id : ConnectionId) : M unit :=
  current ← is_current id;
  if negb current then skip
  else
    c ← index (slot id);
    match proxy c with
    | None => skip
    | Some p =>
      if negb (bool_decide (write_buffer c = []))
         || negb (bool_decide (proxy_phase p = ReadingResponse))
      then skip
      else
        max ← gets (fun w => max_write_buffer_size (limits w));
        let read_limit := N.min READ_BUFFER_SIZE max in
        rs ← sys (sock_reads (upstream p) read_limit);
        match first_uninterrupted rs with
        | Ok [] => mark_upstream_eof id
        | Ok b =>
          metric (Runtime.read_bytes (len b));;
          t ← clock;
          update (slot id) (update_proxy (response_received t));;
          update (slot id) (fun c => set_write_buffer (write_buffer c ++ b) 0 c);;
          t ← clock;
          update (slot id) (set_last_progress t);;
          reregister_client id WRITABLE
        | Err WouldBlock => skip
        | Err _ => fail_proxy id 502 (str "upstream response failed")
        end
    end.

(** ** Writing to the client *)

Inductive ClientWrite := WriteBlocked | WriteFailed | WriteStopped.

(** One [write]: the TLS session first takes application data, then writes its
    records. *)
Definition write_step (id : ConnectionId) (c : Connection) : M (io_result N) :=
  match ssl c with
  | Some session =>
    if write_offset c <? len (write_buffer c) then
      rest ← slice_from (write_buffer c) (write_offset c);
      let '(r, s) := writer_write (ssl_connection session) rest in
      update (slot id) (set_ssl_connection s);; mret r
    else
      '(r, s) ← sys (write_tls (ssl_connection session) (socket c));
      update (slot id) (set_ssl_connection s);; mret r
  | None =>
    rest ← slice_from (write_buffer c) (write_offset c);
    sys (sock_write (socket c) rest)
  end.

Fixpoint write_loop (n : nat) (id : ConnectionId) : M ClientWrite :=
  match n with
  | O => mret WriteStopped
  | S n =>
    c ← index (slot id);
    if drained c && negb (ssl_wants_write c) then mret WriteStopped
    else
      let writing_application := write_offset c <? len (write_buffer c) in
      r ← write_step id c;
      match r with
      | Ok 0 => mret WriteFailed
      | Ok written =>
        metric (Runtime.wrote_bytes written);;
        (if writing_application
         then update (slot id) (fun c =>
                set_write_buffer (write_buffer c) (write_offset c + written) c)
         else skip);;
        t ← clock;
        update (slot id) (set_last_progress t);;
        c ← index (slot id);
        if drained c && negb (ssl_wants_write c) then mret WriteStopped
        else write_loop n id
      | Err WouldBlock => mret WriteBlocked
      | Err Interrupted => write_loop n id
      | Err _ => mret WriteFailed
      end
  end.

(** A response, or a chunk of one, has been written out. *)
Definition response_written (id : ConnectionId) : M unit :=
  c ← index (slot id);
  match static_stream c with
  | Some _ => advance_static_stream id
  | None =>
    metric Runtime.response;;
    draining ← gets draining;
    match proxy c with
    | None => close_client id
    | Some p =>
      if (draining : bool) || upstream_eof p then close_client id
      else
        update (slot id) (set_write_buffer [] 0);;
        reregister_client id READABLE;;
        modify (fun w => set_pending_upstream_reads ({[id]} ∪ pending_upstream_reads w) w)
    end
  end.

Definition write_ready (id : ConnectionId) : M unit :=
  current ← is_current id;
  if negb current then skip
  else
    c ← index (slot id);
    if drained c && bool_decide (ssl c <> None) && negb (ssl_wants_write c)
    then reregister_client id READABLE
    else
      outcome ← write_loop MAX_WRITES_PER_EVENT id;
      match outcome with
      | WriteBlocked => skip
      | WriteFailed => remove_connection id
      | WriteStopped =>
        current ← is_current id;
        if negb current then skip
        else
          c ← index (slot id);
          if drained c && negb (ssl_wants_write c) then
            if is_writing_response c || is_proxying c then response_written id
            else reregister_client id READABLE
          else if is_writing_response c then
            modify (fun w => set_pending_writes ({[id]} ∪ pending_writes w) w)
          else skip
      end.

(** ** Accepting *)

(** [Connection::new]. *)
Definition make_connection (stream : Socket) (listener_group generation : N)
    (config : option SslConfig) : M Connection :=
  session ←
    (match config with
     | None => mret None
     | Some config =>
       s ← sys (ssl_new config);
       s ← lift s;
       started ← clock;
       mret (Some (mkSslSession s started (ssl_config_handshake_timeout config)))
     end);
  t ← clock;
  mret (new_connection stream listener_group generation session t).

(** [generations.resize(slot + 1, 0)] when it is too short. *)
Definition resize_generations (g : list N) (slot : N) : list N :=
  if len g <=? slot then g ++ replicate (N.to_nat slot + 1 - length g) 0 else g.

Definition register_connection (stream : Socket) (listener_group : N) : M unit :=
  keys ← gets (fun w => dom (connections w));
  slot ← sys (vacant_key keys);
  if SLOT_MASK <? slot then fail OtherKind
  else
    g ← gets (fun w => resize_generations (generations w) slot);
    match g !! N.to_nat slot with
    | None => panic
    | Some previous =>
      let generation := next_generation previous in
      modify (set_generations (<[N.to_nat slot := generation]> g));;
      let id := mkConnectionId slot generation in
      ls ← gets listeners;
      match ls !! N.to_nat listener_group with
      | None => panic
      | Some listener =>
        connection ← make_connection stream listener_group generation (l_ssl listener);
        modify (fun w => set_connections (<[slot := connection]> (connections w)) w);;
        t ← lift (token id Client);
        r ← sys (register stream t READABLE);
        match r with
        | Ok _ => skip
        | Err e =>
          modify (fun w => set_connections (delete slot (connections w)) w);;
          fail e
        end
      end
    end.

(** The loop of [accept_ready] over the results of [accept]. *)
Fixpoint accept_loop (listener_index : N) (results : list (io_result Socket)) : M unit :=
  match results with
  | [] => skip
  | Ok stream :: results =>
    count ← gets (fun w => N.of_nat (size (connections w)));
    max ← gets (fun w => max_connections (limits w));
    if max <=? count then accept_loop listener_index results
    else
      metric Runtime.accepted;;
      _ ← attempt (register_connection stream listener_index);
      accept_loop listener_index results
  | Err Interrupted :: results => accept_loop listener_index results
  | Err _ :: _ => skip
  end.

Definition accept_ready (listener_index : N) : M unit :=
  ls ← gets listeners;
  match ls !! N.to_nat listener_index with
  | None => panic
  | Some listener =>
    results ← sys (accepts (l_socket listener));
    accept_loop listener_index results
  end.

(** ** Reading a request *)

(** How the read loop of [connection_ready] ends. *)
Inductive ReadOutcome :=
| ReadNothing
| ReadClose
| ReadError (status : N) (message : bytes)
| ReadRequest (request : RequestHead) (body : bytes) (listener_group : N).

(** One [read], through the TLS session when there is one. *)
Definition read_step (id : ConnectionId) (c : Connection) : M (io_result bytes) :=
  match ssl c with
  | None => sys (sock_read (socket c) READ_BUFFER_SIZE)
  | Some session =>
    '(r, s) ← sys (read_tls (ssl_connection session) (socket c));
    match r with
    | Ok 0 => update (slot id) (set_ssl_connection s);; mret (Ok [])
    | Ok _ =>
      match process_new_packets s with
      | (Err _, s) => update (slot id) (set_ssl_connection s);; mret (Err InvalidData)
      | (Ok _, s) =>
        let '(r, s) := reader_read s READ_BUFFER_SIZE in
        update (slot id) (set_ssl_connection s);; mret r
      end
    | Err e => update (slot id) (set_ssl_connection s);; mret (Err e)
    end
  end.

(** What the buffer of a connection without a pending request holds so far. *)
Inductive Head :=
| HeadIncomplete
| HeadError (status : N) (message : bytes)
| HeadPending (request : PendingRequest).

Definition examine_head (max : N) (buffer : bytes) : Head :=
  match parse_request_head buffer with
  | Ok Incomplete => HeadIncomplete
  | Ok (Complete head consumed) =>
    match body_length head with
    | Ok n =>
      match checked_add 64 consumed n with
      | None => HeadError 413 (str "request is too large")
      | Some body_end =>
        if max <? body_end then HeadError 413 (str "request is too large")
        else HeadPending (mkPendingRequest head consumed body_end)
      end
    | Err UnsupportedTransferEncoding =>
      HeadError 501 (str "transfer encoding is not supported")
    | Err _ => HeadError 400 (str "invalid content length")
    end
  | Err _ => HeadError 400 (str "invalid HTTP request")
  end.

(** The slice [&buffer[start..end]]. *)
Definition slice_range (buffer : bytes) (start stop : N) : M bytes :=
  if (stop <? start) || (len buffer <? stop) then panic
  else mret (take (N.to_nat (stop - start)) (drop (N.to_nat start) buffer)).

(** A pending request whose body has arrived is taken: [None] to read on. *)
Definition complete_request (id : ConnectionId) : M (option ReadOutcome) :=
  c ← index (slot id);
  match pending_request c with
  | Some p =>
    if body_end p <=? len (read_buffer c) then
      update (slot id) (fun c => (take_pending_request c).2);;
      body ← slice_range (read_buffer c) (body_start p) (body_end p);
      metric Runtime.request;;
      mret (Some (ReadRequest (pending_head p) body (listener_group c)))
    else mret None
  | None => mret None
  end.

Fixpoint read_loop (n : nat) (id : ConnectionId) : M ReadOutcome :=
  match n with
  | O => mret ReadNothing
  | S n =>
    c ← index (slot id);
    r ← read_step id c;
    match r with
    | Ok [] => mret (if decide (ssl c <> None) then ReadNothing else ReadClose)
    | Ok b =>
      metric (Runtime.read_bytes (len b));;
      max ← gets (fun w => max_read_buffer_size (limits w));
      if max <? len (read_buffer c) + len b
      then mret (ReadError 413 (str "request is too large"))
      else
        update (slot id) (fun c => set_read_buffer (read_buffer c ++ b) c);;
        t ← clock;
        update (slot id) (set_last_progress t);;
        c ← index (slot id);
        let head :=
          match pending_request c with
          | None => examine_head max (read_buffer c)
          | Some _ => HeadIncomplete
          end in
        match head with
        | HeadError status message => mret (ReadError status message)
        | HeadPending p =>
          update (slot id) (set_pending_request p);;
          done ← complete_request id;
          match done with Some outcome => mret outcome | None => read_loop n id end
        | HeadIncomplete =>
          done ← complete_request id;
          match done with Some outcome => mret outcome | None => read_loop n id end
        end
    | Err WouldBlock => mret ReadNothing
    | Err Interrupted => read_loop n id
    | Err _ => mret ReadClose
    end
  end.

(** The reads while the request is handled elsewhere: bytes are dropped, an end of
    file or an error closes; [true] to close. *)
Fixpoint discard_loop (n : nat) (id : ConnectionId) : M bool :=
  match n with
  | O => mret false
  | S n =>
    c ← index (slot id);
    r ← sys (sock_read (socket c) READ_BUFFER_SIZE);
    match r with
    | Ok [] => mret true
    | Ok _ => t ← clock; update (slot id) (set_last_progress t);; discard_loop n id
    | Err WouldBlock => mret false
    | Err Interrupted => discard_loop n id
    | Err _ => mret true
    end
  end.

Definition client_during_proxy_ready (id : ConnectionId) : M unit :=
  _ ← index (slot id);
  close ← discard_loop MAX_READS_PER_EVENT id;
  if close : bool then remove_connection id else skip.

(** The static branch: the file's thread starts with the response. *)
Definition respond_static (id : ConnectionId) (directory : bytes) (request : RequestHead) :
    M unit :=
  match static_stream_response directory request with
  | Ok response =>
    stream ←
      (match stream response with
       | Some args => s ← sys (spawn_stream args); mret (Some s)
       | None => mret None
       end);
    queue_static_response id (head response) stream
  | Err e => queue_response id (static_error_response e)
  end.

(** The proxy branch; [None] of [select] is a panic. [false] is the early
    [return Ok(())]. *)
Definition respond_proxy (id : ConnectionId) (action : Action) (request : RequestHead)
    (body : bytes) : M bool :=
  b ← gets balancer;
  match select b action with
  | None => panic
  | Some (b, r) =>
    modify (set_balancer b);;
    match r with
    | Err _ =>
      queue_response id (response_bytes 502 (str "upstream configuration failed"));;
      mret false
    | Ok upstream =>
      r ← attempt (start_proxy id upstream request body);
      (match r with
       | Ok _ => skip
       | Err _ => queue_response id bad_gateway
       end);;
      mret true
    end
  end.

Definition respond (id : ConnectionId) (request : RequestHead) (body : bytes)
    (listener_group : N) : M bool :=
  ls ← gets listeners;
  ss ← gets servers;
  match ls !! N.to_nat listener_group with
  | None => fail InvalidData
  | Some listener =>
    let server_index :=
      select_server (l_server_indices listener) (l_default_server listener) request ss in
    match ss !! N.to_nat server_index with
    | None =>
      queue_response id (response_bytes 500 (str "server configuration is unavailable"));;
      mret false
    | Some server =>
      match route server (target request) with
      | Some (Config.Proxy _ _ _ _ as action) => respond_proxy id action request body
      | Some (Static directory) => respond_static id directory request;; mret true
      | _ =>
        queue_response id (response_for ss server_index (target request));; mret true
      end
    end
  end.

Definition handle_read (id : ConnectionId) (outcome : ReadOutcome) : M bool :=
  match outcome with
  | ReadNothing => mret true
  | ReadClose => remove_connection id;; mret true
  | ReadError status message => queue_response id (response_bytes status message);; mret true
  | ReadRequest request body listener_group => respond id request body listener_group
  end.

Definition connection_ready (id : ConnectionId) : M unit :=
  current ← is_current id;
  if negb current then skip
  else
    c ← index (slot id);
    if is_handling_request c then client_during_proxy_ready id
    else
      outcome ← read_loop MAX_READS_PER_EVENT id;
      go_on ← handle_read id outcome;
      current ← is_current id;
      if negb go_on || negb current then skip
      else
        c ← index (slot id);
        if ssl_wants_write c then reregister_client id READABLE_WRITABLE else skip.

(** ** Dispatch *)

Definition dispatch_client (id : ConnectionId) (event : ReadyEvent) : M unit :=
  if ev_error event then log_socket_error id true;; remove_connection id
  else
    (if ev_writable event then write_ready id else skip);;
    draining ← gets draining;
    (if ev_readable event && negb draining then connection_ready id else skip);;
    current ← is_current id;
    if (ev_read_closed event || ev_write_closed event) && current then
      c ← index (slot id);
      if drained c then remove_connection id else skip
    else skip.

Definition dispatch_upstream (id : ConnectionId) (event : ReadyEvent) : M unit :=
  c ← index (slot id);
  if negb (is_proxying c) then skip
  else if ev_error event then fail_proxy id 502 (str "upstream connection failed")
  else
    (if ev_writable event then write_upstream_request id else skip);;
    current ← is_current id;
    (if ev_readable event && current then read_upstream_response id else skip);;
    current ← is_current id;
    if (ev_read_closed event || ev_write_closed event) && current then
      modify (fun w => set_pending_upstream_reads ({[id]} ∪ pending_upstream_reads w) w)
    else skip.

Definition dispatch (event : ReadyEvent) : M unit :=
  if ev_token event =? CONTROL_TOKEN then process_dns_results
  else
    count ← gets (fun w => len (listeners w));
    draining ← gets draining;
    if ev_token event <? count then
      (if ev_readable event && negb draining then accept_ready (ev_token event) else skip)
    else
      match from_token (ev_token event) with
      | None => skip
      | Some (id, role) =>
        current ← is_current id;
        if negb current then skip
        else
          match role with
          | Client => dispatch_client id event
          | Upstream => dispatch_upstream id event
          end
      end.

(** ** Deadlines *)

Definition expired (now since timeout : N) : bool := timeout <=? saturating_sub now since.

Definition close_idle_connections : M unit :=
  now ← clock;
  ids ← gets (fun w => ids_where (fun c =>
    negb (is_handling_request c) && expired now (last_progress c) (idle_timeout (limits w))) w);
  for_all remove_connection ids;;
  ids ← gets (ids_where (ssl_handshake_expired now));
  for_all remove_connection ids.

Definition close_expired_resolutions : M unit :=
  now ← clock;
  ids ← gets (fun w => ids_where (fun c =>
    match resolution c with
    | Some r => expired now (resolving_started_at r) (dns_timeout (dns_limits w))
    | None => false
    end) w);
  for_all (fun id => fail_resolution id 504 (str "upstream DNS resolution timed out")) ids.

(** The proxied connections past the deadline of their phase, with that phase. *)
Definition expired_proxies (now : N) (w : ReadinessWorker) : list (ConnectionId * ProxyPhase) :=
  omap (fun '(slot, c) =>
    match proxy c with
    | Some p =>
      if expired now (phase_progress_at p) (phase_timeout (proxy_phase p) (proxy_limits w))
      then Some (mkConnectionId slot (conn_generation c), proxy_phase p) else None
    | None => None
    end) (slab_iter (connections w)).

Definition close_expired_proxies : M unit :=
  now ← clock;
  ids ← gets (expired_proxies now);
  for_all (fun '(id, phase) => fail_proxy id 504 (timeout_message phase)) ids.

(** [started.elapsed() >= drain_timeout], the clock read only when draining. *)
Definition drain_deadline_expired : M bool :=
  started ← gets drain_started_at;
  match started with
  | None => mret false
  | Some started =>
    now ← clock;
    timeout ← gets (fun w => drain_timeout (limits w));
    mret (expired now started timeout)
  end.

Definition all_ids : ReadinessWorker -> list ConnectionId := ids_where (fun _ => true).

(** A failed removal is only logged. *)
Definition close_all_connections : M unit :=
  ids ← gets all_ids;
  for_all (fun id => _ ← attempt (remove_connection id); skip) ids.

Definition begin_shutdown : M unit :=
  now ← clock;
  modify (set_draining now);;
  ls ← gets listeners;
  for_all (fun l => _ ← sys (deregister_listener (l_socket l)); skip) ls;;
  ids ← gets (ids_where (fun c =>
    negb (is_streaming c) && (len (write_buffer c) <=? write_offset c)));
  for_all remove_connection ids.

(** ** The loop *)

(** Take the identifiers of a pending set, in the order of its iterator. *)
Definition drain_set (get : ReadinessWorker -> gset ConnectionId)
    (set : gset ConnectionId -> ReadinessWorker -> ReadinessWorker) : M (list ConnectionId) :=
  ids ← gets get;
  modify (set ∅);;
  sys (drain_order ids).

Definition if_current (f : ConnectionId -> M unit) (id : ConnectionId) : M unit :=
  current ← is_current id;
  if current : bool then f id else skip.

(** The part of an iteration before [poll]. *)
Definition maintain : M unit :=
  process_dns_results;;
  close_expired_resolutions;;
  close_expired_proxies;;
  close_idle_connections;;
  pump_static_streams;;
  scheduled_writes ← drain_set pending_writes set_pending_writes;
  for_all (if_current write_ready) scheduled_writes;;
  upstream_writes ← drain_set pending_upstream_writes set_pending_upstream_writes;
  for_all (if_current write_upstream_request) upstream_writes;;
  upstream_reads ← drain_set pending_upstream_reads set_pending_upstream_reads;
  for_all (if_current read_upstream_response) upstream_reads.

Definition no_pending (w : ReadinessWorker) : bool :=
  bool_decide (pending_writes w = ∅) && bool_decide (pending_upstream_writes w = ∅)
  && bool_decide (pending_upstream_reads w = ∅).

(** One iteration of the loop of [run]; [true] when it returns. *)
Definition tick : M bool :=
  requested ← sys shutdown_is_requested;
  draining_now ← gets draining;
  (if (requested : bool) && negb draining_now then begin_shutdown else skip);;
  draining_now ← gets draining;
  empty ← gets (fun w => bool_decide (connections w = ∅));
  if draining_now && (empty : bool) then mret true
  else
    deadline ← drain_deadline_expired;
    if deadline : bool then close_all_connections;; mret true
    else
      maintain;;
      timeout ← gets (fun w => if no_pending w then from_millis 100 else 0);
      r ← sys (poll timeout);
      match r with
      | Ok events => for_all dispatch events;; mret false
      | Err Interrupted => mret false
      | Err e => fail e
      end.

(** At most [n] iterations of the loop of [run]; [true] when it has returned. *)
Fixpoint run_for (n : nat) : M bool :=
  match n with
  | O => mret false
  | S n =>
    stop ← tick;
    if stop : bool then mret true else run_for n
  end.

(** ** Construction *)

Fixpoint register_listeners (index : N) (ls : list RegisteredListener) (w : World) :
    io_result unit * World :=
  match ls with
  | [] => (Ok tt, w)
  | l :: ls =>
    match register_listener (l_socket l) index w with
    | (Ok _, w) => register_listeners (index + 1) ls w
    | (Err e, w) => (Err e, w)
    end
  end.

(** The state at the end of [new]. *)
Definition initial_worker (ls : list RegisteredListener) (ss : list Server)
    (limits : WorkerLimits) (proxy_limits : ProxyLimits) (dns_limits : DnsLimits)
    (groups : gmap bytes UpstreamGroup) : ReadinessWorker := {|
  listeners := ls; connections := ∅; generations := []; pending_writes := ∅;
  pending_upstream_writes := ∅; pending_upstream_reads := ∅; servers := ss;
  limits := limits; proxy_limits := proxy_limits; dns_limits := dns_limits;
  metrics := no_metrics; balancer := with_groups groups; draining := false;
  drain_started_at := None;
|}.

(** A bound listener: its socket, its default server and its servers. *)
Definition registered_listener (ssl_configs : list (option SslConfig))
    (group : TcpListener * N * list N) : RegisteredListener :=
  let '(socket, default_server, server_indices) := group in
  {| l_socket := socket; l_default_server := default_server;
     l_server_indices := server_indices;
     l_ssl := match ssl_configs !! N.to_nat default_server with
              | Some c => c | None => None end |}.

(** [ReadinessWorker::new], after the poller, its waker and the resolver exist. *)
Definition new (groups : list (TcpListener * N * list N)) (ss : list Server)
    (ssl_configs : list (option SslConfig)) (limits : WorkerLimits)
    (proxy_limits : ProxyLimits) (dns_limits : DnsLimits)
    (upstream_groups : gmap bytes UpstreamGroup) (w : World) :
    io_result ReadinessWorker * World :=
  let ls := registered_listener ssl_configs <$> groups in
  if negb (len ssl_configs =? len ss) then (Err InvalidInput, w)
  else
    match register_listeners 0 ls w with
    | (Ok _, w) =>
      (Ok (initial_worker ls ss limits proxy_limits dns_limits upstream_groups), w)
    | (Err e, w) => (Err e, w)
    end.

End Worker.
