(* ===== verification/ReadinessInv.v ===== *)
(** * Invariants of the readiness worker

    The invariant of the worker's state, and a proof for every handler that it
    preserves the invariant, touches no connection but its own, and never
    panics. *)

From stdpp Require Import sorting.
From S2P Require Import Prelude RustStd Config Http Router LoadBalancer Proxy StaticFiles Runtime Token Handler Connection Readiness.

Local Open Scope N_scope.

Section Invariants.

Context {env : Env} {fs : Filesystem} {mime : MimeGuess} {env_ok : EnvOk env}.

Notation M := (Handler ReadinessWorker World).
Notation State := (State ReadinessWorker World).

Lemma wp_index k c (Q : Connection -> State -> Prop) R w u :
  connections w !! k = Some c -> Q c (mkState w u) -> wp (index k) Q R (mkState w u).
Proof. unfold wp, index. simpl. by intros ->. Qed.

(** ** The invariant *)

Definition phase_ok (max_read : N) (p : ConnectionPhase) : Prop :=
  match p with
  | Reading (Some r) => body_start r <= body_end r <= max_read
  | Resolving r => len (resolving_buffer r) <= max_read
  | Proxying p =>
    request_offset p <= len (request_buffer p) /\ len (request_buffer p) <= max_read
  | _ => True
  end.

(** A connection in slot [k]: it has the current generation of the slot, a token,
    a listener, and buffers within the limits. *)
Definition conn_ok (w : ReadinessWorker) (k : N) (c : Connection) : Prop :=
  id_wf (mkConnectionId k (conn_generation c)) /\
  generations w !! N.to_nat k = Some (conn_generation c) /\
  listener_group c < len (listeners w) /\
  len (read_buffer c) <= max_read_buffer_size (limits w) /\
  write_offset c <= len (write_buffer c) /\
  phase_ok (max_read_buffer_size (limits w)) (phase c).

Record Inv (w : ReadinessWorker) : Prop := {
  inv_connections : map_Forall (conn_ok w) (connections w);
  inv_size : N.of_nat (size (connections w)) <= max_connections (limits w);
  inv_groups : groups_wf (balancer w);
  inv_servers : Forall (server_wf (groups (balancer w))) (servers w);
  inv_drain : draining w = true -> is_Some (drain_started_at w);
}.

(** What no handler changes. *)
Definition same_config (w w' : ReadinessWorker) : Prop :=
  listeners w' = listeners w /\ servers w' = servers w /\ limits w' = limits w /\
  proxy_limits w' = proxy_limits w /\ dns_limits w' = dns_limits w /\
  groups (balancer w') = groups (balancer w).

(** What a handler of slot [k] may change: the connection there, which it may
    remove but not replace. *)
Definition evolves (k : N) (w w' : ReadinessWorker) : Prop :=
  same_config w w' /\ generations w' = generations w /\
  draining w' = draining w /\ drain_started_at w' = drain_started_at w /\
  (forall j, j <> k -> connections w' !! j = connections w !! j) /\
  (forall c', connections w' !! k = Some c' ->
     exists c, connections w !! k = Some c /\ conn_generation c = conn_generation c').

Definition G (k : N) (w0 : ReadinessWorker) (s : State) : Prop :=
  Inv (worker s) /\ evolves k w0 (worker s).

(** A handler of the connection [id]. *)
Definition handler {A} (id : ConnectionId) (m : M A) : Prop :=
  forall w0 s, G (slot id) w0 s -> wp m (fun _ => G (slot id) w0) (G (slot id) w0) s.

Lemma same_config_refl w : same_config w w.
Proof. by split_and!. Qed.

Lemma same_config_trans w1 w2 w3 :
  same_config w1 w2 -> same_config w2 w3 -> same_config w1 w3.
Proof. unfold same_config. intuition congruence. Qed.

Lemma evolves_refl k w : evolves k w w.
Proof. split; [apply same_config_refl|]. split_and!; eauto. Qed.

Lemma evolves_trans k w1 w2 w3 : evolves k w1 w2 -> evolves k w2 w3 -> evolves k w1 w3.
Proof.
  intros (Hc & Hg & Hd & Hs & Ho & Hk) (Hc' & Hg' & Hd' & Hs' & Ho' & Hk').
  split; [by eapply same_config_trans|]. split_and!; try congruence.
  - intros j Hj. by rewrite Ho', Ho.
  - intros c' Hc2. destruct (Hk' _ Hc2) as (c1 & Hc1 & E1).
    destruct (Hk _ Hc1) as (c0 & Hc0 & E0). exists c0. split; [done|congruence].
Qed.

Lemma evolves_limits k w w' : evolves k w w' -> limits w' = limits w.
Proof. by intros ((_ & _ & -> & _) & _). Qed.

(** [conn_ok] only depends on what [evolves] keeps. *)
Lemma conn_ok_evolves k w w' j c :
  evolves k w w' -> conn_ok w j c -> conn_ok w' j c.
Proof.
  intros ((El & _ & Elim & _) & Eg & _) (H1 & H2 & H3 & H4 & H5 & H6).
  unfold conn_ok. rewrite El, Elim, Eg. by split_and!.
Qed.

Lemma Inv_evolves k w w' :
  Inv w -> evolves k w w' -> (forall c', connections w' !! k = Some c' -> conn_ok w' k c') ->
  Inv w'.
Proof.
  intros [Hc Hs Hg Hsv Hd] Hev Hk. pose proof Hev as (Hcfg & Eg & Ed & Et & Ho & Hkk).
  assert (Hok : map_Forall (conn_ok w') (connections w')).
  { intros j c Hj. destruct (decide (j = k)) as [->|Hne]; [by apply Hk|].
    rewrite Ho in Hj by done. by eapply conn_ok_evolves, Hc. }
  destruct Hcfg as (El & Es & Elim & _ & _ & Eb). constructor.
  - exact Hok.
  - rewrite Elim. transitivity (N.of_nat (size (connections w))); [|done].
    rewrite <- !size_dom. apply N2Z.inj_le. rewrite !nat_N_Z. apply Nat2Z.inj_le.
    apply subseteq_size. intros j [c Hj]%elem_of_dom. apply elem_of_dom.
    destruct (decide (j = k)) as [->|Hne].
    + destruct (Hkk _ Hj) as (c0 & Hc0 & _). by exists c0.
    + rewrite Ho in Hj by done. by exists c.
  - unfold groups_wf. by rewrite Eb.
  - by rewrite Es, Eb.
  - by rewrite Ed, Et.
Qed.

(** *** The steps of a handler *)

Lemma G_world k w0 w u u' : G k w0 (mkState w u) -> G k w0 (mkState w u').
Proof. done. Qed.

(** A change that leaves the connections and the configuration alone. *)
Definition bookkeeping (f : ReadinessWorker -> ReadinessWorker) : Prop :=
  forall w, same_config w (f w) /\ generations (f w) = generations w /\
    draining (f w) = draining w /\ drain_started_at (f w) = drain_started_at w /\
    connections (f w) = connections w.

Lemma bookkeeping_evolves k f w : bookkeeping f -> evolves k w (f w).
Proof.
  intros H. destruct (H w) as (Hc & Hg & Hd & Hs & E). split_and!; try done.
  - intros. by rewrite E.
  - rewrite E. eauto.
Qed.

Lemma G_evolves k w0 w w' u :
  G k w0 (mkState w u) -> evolves k w w' ->
  (forall c', connections w' !! k = Some c' -> conn_ok w' k c') -> G k w0 (mkState w' u).
Proof.
  intros [Hi He] Hev Hk. split; [by eapply Inv_evolves|by eapply evolves_trans].
Qed.

Lemma G_bookkeeping k w0 w u f :
  bookkeeping f -> G k w0 (mkState w u) -> G k w0 (mkState (f w) u).
Proof.
  intros Hf HG. pose proof (bookkeeping_evolves k f w Hf) as Hev.
  eapply G_evolves; [done..|]. intros c' Hc'. destruct HG as [[Hc _ _ _ _] _].
  destruct (Hf w) as (_ & _ & _ & _ & E). rewrite E in Hc'.
  eapply conn_ok_evolves; [done|]. by apply Hc.
Qed.

Lemma G_conn k w0 w u c :
  G k w0 (mkState w u) -> connections w !! k = Some c -> conn_ok w k c.
Proof. intros [[Hc _ _ _ _] _] Hk. by apply Hc. Qed.

(** Updating the connection of the slot. *)
Lemma wp_update k w0 w u f c (Q : unit -> State -> Prop) R :
  G k w0 (mkState w u) -> connections w !! k = Some c ->
  conn_ok w k (f c) -> conn_generation (f c) = conn_generation c ->
  (forall w', G k w0 (mkState w' u) -> connections w' !! k = Some (f c) ->
     evolves k w w' -> Q tt (mkState w' u)) ->
  wp (update k f) Q R (mkState w u).
Proof.
  intros HG Hc Hok Hgen HQ. unfold update. apply wp_bind, (wp_index _ c); [done|].
  apply wp_modify.
  assert (Hev : evolves k w (set_connections (<[k:=f c]> (connections w)) w)).
  { split_and!; try done.
    - intros j Hj. simpl. by rewrite lookup_insert_ne.
    - intros c' Hc'. simpl in Hc'. rewrite lookup_insert_eq in Hc'. injection Hc' as <-.
      by exists c. }
  apply HQ; [|by simpl; rewrite lookup_insert_eq|done].
  eapply G_evolves; [done..|]. intros c' Hc'. simpl in Hc'. rewrite lookup_insert_eq in Hc'.
  injection Hc' as <-. by eapply conn_ok_evolves.
Qed.

(** Removing it. *)
Lemma G_delete k w0 w u :
  G k w0 (mkState w u) -> G k w0 (mkState (set_connections (delete k (connections w)) w) u).
Proof.
  intros HG. eapply G_evolves; [done| |].
  - split_and!; try done.
    + intros j Hj. simpl. by rewrite lookup_delete_ne.
    + intros c' Hc'. simpl in Hc'. by rewrite lookup_delete_eq in Hc'.
  - intros c' Hc'. simpl in Hc'. by rewrite lookup_delete_eq in Hc'.
Qed.

Lemma is_current_in_Some w id :
  is_current_in w id = true ->
  exists c, connections w !! slot id = Some c /\ conn_generation c = generation id.
Proof.
  unfold is_current_in. destruct (connections w !! slot id) as [c|]; [|done].
  intros H%N.eqb_eq. eauto.
Qed.

(** [if !self.is_current(id) { return Ok(()); }]. *)
Lemma wp_current {A} id (k : bool -> M A) (Q : A -> State -> Prop) R w u :
  (is_current_in w id = false -> wp (k false) Q R (mkState w u)) ->
  (forall c, connections w !! slot id = Some c -> conn_generation c = generation id ->
     wp (k true) Q R (mkState w u)) ->
  wp (current ← is_current id; k current) Q R (mkState w u).
Proof.
  intros H1 H2. apply wp_bind, wp_gets. destruct (is_current_in w id) eqn:E; [|by apply H1].
  apply is_current_in_Some in E as (c & Hc & Hg). by eapply H2.
Qed.

Lemma wp_handler {A} id (m : M A) w0 s (Q : A -> State -> Prop) (R : State -> Prop) :
  handler id m -> G (slot id) w0 s ->
  (forall a s', G (slot id) w0 s' -> Q a s') -> (forall s', G (slot id) w0 s' -> R s') ->
  wp m Q R s.
Proof. intros Hm HG HQ HR. eapply wp_mono; [by apply Hm|auto|auto]. Qed.


Lemma wp_bookkeeping k w0 w u f (Q : unit -> State -> Prop) R :
  G k w0 (mkState w u) -> bookkeeping f ->
  (forall w', G k w0 (mkState w' u) -> connections w' !! k = connections w !! k ->
     evolves k w w' -> Q tt (mkState w' u)) ->
  wp (modify f) Q R (mkState w u).
Proof.
  intros HG Hf HQ. apply wp_modify, HQ.
  - by apply G_bookkeeping.
  - destruct (Hf w) as (_ & _ & _ & _ & E). by rewrite E.
  - by apply bookkeeping_evolves.
Qed.

Lemma wp_delete k w0 w u (Q : unit -> State -> Prop) R :
  G k w0 (mkState w u) ->
  (forall w', G k w0 (mkState w' u) -> connections w' !! k = None -> Q tt (mkState w' u)) ->
  wp (modify (fun w => set_connections (delete k (connections w)) w)) Q R (mkState w u).
Proof.
  intros HG HQ. apply wp_modify, HQ; [by apply G_delete|]. simpl. apply lookup_delete_eq.
Qed.

(** Comparisons decided by a case. *)
Ltac decided :=
  repeat match goal with
  | H : (_ <? _) = false |- _ => apply N.ltb_ge in H
  | H : (_ <? _) = true |- _ => apply N.ltb_lt in H
  | H : (_ <=? _) = false |- _ => apply N.leb_gt in H
  | H : (_ <=? _) = true |- _ => apply N.leb_le in H
  | H : (_ =? _) = false |- _ => apply N.eqb_neq in H
  | H : (_ =? _) = true |- _ => apply N.eqb_eq in H
  end.

(** Simplify the obligation that an update keeps [conn_ok]. *)
Ltac solve_conn :=
  match goal with
  | HG : G ?k _ (mkState ?w _), Hc : connections ?w !! ?k = Some ?c
    |- conn_ok ?w ?k _ =>
    let H := fresh in let Hp := fresh in
    pose proof (G_conn _ _ _ _ _ HG Hc) as H;
    destruct H as (? & ? & ? & ? & ? & Hp);
    try match goal with H : phase c = _ |- _ => rewrite H in Hp; simpl in Hp end;
    decided; unfold conn_ok; split_and!; try assumption; simpl; rewrite ?len_app;
    try match goal with H : phase c = _ |- _ => rewrite H; simpl end; auto with lia
  end.

Lemma detach_proxy_Some c p c' :
  detach_proxy c = (Some p, c') -> phase c = Proxying p /\ c' = set_phase WritingResponse c.
Proof. unfold detach_proxy. destruct (phase c); naive_solver. Qed.

Lemma take_resolution_Some c r c' :
  take_resolution c = (Some r, c') ->
  phase c = Resolving r /\ c' = set_phase WritingResponse c.
Proof. unfold take_resolution. destruct (phase c); naive_solver. Qed.

Lemma proxy_Some c p : proxy c = Some p -> phase c = Proxying p.
Proof. unfold proxy. destruct (phase c); naive_solver. Qed.

(** The same for the proxy state of a proxied connection. *)
Lemma wp_update_proxy k w0 w u f c p (Q : unit -> State -> Prop) R :
  G k w0 (mkState w u) -> connections w !! k = Some c -> phase c = Proxying p ->
  conn_ok w k (set_phase (Proxying (f p)) c) ->
  (forall w', G k w0 (mkState w' u) ->
     connections w' !! k = Some (set_phase (Proxying (f p)) c) ->
     evolves k w w' -> Q tt (mkState w' u)) ->
  wp (update k (update_proxy f)) Q R (mkState w u).
Proof.
  intros HG Hc Hp Hok HQ.
  assert (E : update_proxy f c = set_phase (Proxying (f p)) c)
    by (unfold update_proxy; by rewrite Hp).
  eapply wp_update; [done..|by rewrite E|by rewrite E|]. rewrite E. exact HQ.
Qed.

(** A change of the worker that is not about connections. *)
Ltac wp_bookkeep HG w k :=
  let E := fresh "Hc" in
  eapply wp_bookkeeping; [exact HG|by intros ?|intros ? ? E ?];
  try match goal with H : connections w !! k = Some _ |- _ => rewrite H in E end.

(** One step of a handler. *)
Ltac wp_step :=
  match goal with
  | |- wp skip _ _ _ => apply wp_skip
  | |- wp (mret _) _ _ _ => apply wp_ret
  | |- wp (fail _) _ _ _ => apply wp_fail
  | |- wp (is_current _ ≫= _) _ _ _ => apply wp_current; [intros _|intros ? ? ?]
  | |- wp (_ ≫= _) _ _ _ => apply wp_bind
  | |- wp clock _ _ _ => apply wp_sys; intros ? ? ?
  | |- wp (sys _) _ _ _ => apply wp_sys; intros ? ? ?
  | |- wp (gets _) _ _ _ => apply wp_gets
  | |- wp (lift _) _ _ _ => apply wp_lift; intros ? ?
  | H : connections ?w !! ?k = Some ?c |- wp (index ?k) _ _ (mkState ?w _) =>
    apply (wp_index _ c); [exact H|]
  | HG : G ?k _ (mkState ?w _) |- wp (modify _) _ _ (mkState ?w _) =>
    first [ apply (wp_delete _ _ _ _ _ _ HG); intros ? ? ? | wp_bookkeep HG w k ]
  | HG : G ?k _ (mkState ?w _) |- wp (metric _) _ _ (mkState ?w _) => wp_bookkeep HG w k
  | HG : G ?k _ (mkState ?w _), Hc : connections ?w !! ?k = Some ?c
    |- wp (update ?k _) _ _ (mkState ?w _) =>
    first [eapply wp_update_proxy; [exact HG|exact Hc|eassumption|solve_conn|intros ? ? ? ?]
      |eapply wp_update; [exact HG|exact Hc|solve_conn|done|intros ? ? ? ?]]
  | |- G _ _ _ => assumption
  end; cbn [negb orb andb].

Ltac wp_case :=
  match goal with
  | |- wp (if ?b then _ else _) _ _ _ =>
    let E := fresh "Eb" in
    destruct b eqn:E; rewrite ?orb_true_r, ?orb_false_r, ?andb_true_r, ?andb_false_r in E;
    try discriminate E
  | |- wp (match ?x with _ => _ end) _ _ _ => destruct x eqn:?
  end.

(** What a case says of the phase of the connection. *)
Ltac wp_phase :=
  match goal with
  | H : detach_proxy _ = (Some _, _) |- _ => apply detach_proxy_Some in H as [? ->]
  | H : take_resolution _ = (Some _, _) |- _ => apply take_resolution_Some in H as [? ->]
  | H : proxy _ = Some _ |- _ => apply proxy_Some in H
  | H : connections ?w !! ?k = Some _, H' : connections ?w !! ?k = Some _ |- _ =>
    rewrite H in H'; injection H' as <-
  end.

Ltac wp_auto := repeat first [wp_step | wp_case].

Lemma remove_connection_handler id : handler id (remove_connection id).
Proof.
  intros w0 [w u] HG. unfold remove_connection. wp_auto.
Qed.


(** Calling a handler. *)
Create HintDb handlers.
Hint Resolve remove_connection_handler : handlers.

Ltac wp_call :=
  match goal with
  | HG : G (slot ?id) _ (mkState ?w _) |- wp _ _ _ (mkState ?w _) =>
    eapply (wp_handler id); [solve [eauto with handlers]|exact HG|intros ? [? ?] ?|intros [? ?] ?]
  end.

Ltac wp_auto ::= repeat first [wp_phase | wp_step | wp_call | wp_case].

Lemma log_socket_error_handler id e : handler id (log_socket_error id e).
Proof. intros w0 [w u] HG. unfold log_socket_error. wp_auto. Qed.

(** [reregister_client] indexes the slot, which must be occupied. *)
Lemma reregister_client_spec id i w0 w u c :
  G (slot id) w0 (mkState w u) -> connections w !! slot id = Some c ->
  wp (reregister_client id i) (fun _ => G (slot id) w0) (G (slot id) w0) (mkState w u).
Proof. intros HG Hc. unfold reregister_client. wp_auto. Qed.

Ltac wp_spec lem :=
  eapply wp_mono; [eapply lem; first [eassumption|reflexivity]|intros ? [? ?] ?|intros [? ?] ?].

Ltac wp_auto ::=
  repeat first [wp_phase | wp_step | wp_call | wp_spec reregister_client_spec | wp_case].

Lemma close_client_handler id : handler id (close_client id).
Proof. intros w0 [w u] HG. unfold close_client. wp_auto. Qed.

Lemma queue_response_handler id r : handler id (queue_response id r).
Proof. intros w0 [w u] HG. unfold queue_response. wp_auto. Qed.

Hint Resolve log_socket_error_handler close_client_handler queue_response_handler : handlers.

Lemma queue_static_response_handler id h r : handler id (queue_static_response id h r).
Proof. intros w0 [w u] HG. unfold queue_static_response. wp_auto. Qed.

Lemma fail_resolution_handler id st m : handler id (fail_resolution id st m).
Proof. intros w0 [w u] HG. unfold fail_resolution. wp_auto. Qed.

Hint Resolve queue_static_response_handler fail_resolution_handler : handlers.

Lemma fail_proxy_handler id st m : handler id (fail_proxy id st m).
Proof. intros w0 [w u] HG. unfold fail_proxy. wp_auto.
Qed.

Hint Resolve fail_proxy_handler : handlers.

(** [start_proxy] also indexes the slot. *)
Lemma start_proxy_spec id url r b w0 w u c :
  G (slot id) w0 (mkState w u) -> connections w !! slot id = Some c ->
  wp (start_proxy id url r b) (fun _ => G (slot id) w0) (G (slot id) w0) (mkState w u).
Proof. intros HG Hc. unfold start_proxy. wp_auto. Qed.

Lemma connect_resolved_spec id a w0 w u c :
  G (slot id) w0 (mkState w u) -> connections w !! slot id = Some c ->
  wp (connect_resolved id a) (fun _ => G (slot id) w0) (G (slot id) w0) (mkState w u).
Proof.
  intros HG Hc. pose proof (G_conn _ _ _ _ _ HG Hc) as (_ & _ & _ & _ & _ & Hph).
  unfold connect_resolved. wp_auto.
  rewrite H in Hph. simpl in Hph. rewrite (evolves_limits _ _ _ H2). lia.
Qed.

Lemma finish_resolution_handler id a : handler id (finish_resolution (id, a)).
Proof.
  intros w0 [w u] HG. unfold finish_resolution.
  repeat first [wp_phase | wp_step | wp_call | wp_spec connect_resolved_spec | wp_case].
Qed.

(** *** The upstream half *)

(** The slot of [id] holds a proxied connection. *)
Definition proxied (id : ConnectionId) (s : State) : Prop :=
  exists c p, connections (worker s) !! slot id = Some c /\ phase c = Proxying p.

Lemma wp_index_proxy k c p (Q : ProxyState -> State -> Prop) R w u :
  connections w !! k = Some c -> phase c = Proxying p -> Q p (mkState w u) ->
  wp (index_proxy k) Q R (mkState w u).
Proof.
  intros Hc Hp HQ. unfold index_proxy. apply wp_bind, (wp_index _ c); [done|].
  unfold proxy. rewrite Hp. by apply wp_ret.
Qed.

Lemma wp_slice_from b n (Q : bytes -> State -> Prop) R s :
  n <= len b -> Q (drop (N.to_nat n) b) s -> wp (slice_from b n) Q R s.
Proof.
  intros Hn HQ. unfold slice_from. destruct (len b <? n) eqn:E; decided; [lia|]. done.
Qed.

Lemma upstream_write_loop_spec n id : forall made w0 w u c p,
  G (slot id) w0 (mkState w u) -> connections w !! slot id = Some c -> phase c = Proxying p ->
  wp (upstream_write_loop n id made)
    (fun _ s => G (slot id) w0 s /\ proxied id s) (G (slot id) w0) (mkState w u).
Proof.
  induction n as [|n IH]; intros made w0 w u c p HG Hc Hp; simpl;
    apply wp_bind, (wp_index_proxy _ c p); try done.
  - apply wp_ret. split; [done|]. by exists c, p.
  - destruct (request_done p); [apply wp_ret; split; [done|]; by exists c, p|].
    pose proof (G_conn _ _ _ _ _ HG Hc) as (_ & _ & _ & _ & _ & Hph).
    rewrite Hp in Hph. simpl in Hph.
    apply wp_bind, wp_slice_from; [lia|]. apply wp_bind, wp_sys. intros r u' Hr.
    assert (Hstay : G (slot id) w0 (mkState w u') /\ proxied id (mkState w u'))
      by (split; [done|by exists c, p]).
    destruct r as [[|m]|[]]; try (by apply wp_ret); [|by eapply IH].
    apply sock_write_len in Hr. rewrite len_drop in Hr.
    wp_step. wp_step. wp_step. wp_step. by eapply IH.
Qed.


Lemma request_written_spec id w0 w u c p :
  G (slot id) w0 (mkState w u) -> connections w !! slot id = Some c -> phase c = Proxying p ->
  wp (request_written id) (fun _ => G (slot id) w0) (G (slot id) w0) (mkState w u).
Proof.
  intros HG Hc Hp. pose proof (G_conn _ _ _ _ _ HG Hc) as (_ & _ & _ & _ & _ & Hph).
  unfold request_written.
  wp_step. eapply wp_index_proxy; [done..|]. do 4 wp_step. wp_step.
  eapply wp_index_proxy; [done..|]. wp_auto.
Qed.

Lemma write_progress_spec id made w0 w u c p :
  G (slot id) w0 (mkState w u) -> connections w !! slot id = Some c -> phase c = Proxying p ->
  wp (write_progress id made) (fun _ s => G (slot id) w0 s /\ proxied id s)
    (G (slot id) w0) (mkState w u).
Proof.
  intros HG Hc Hp. unfold write_progress. wp_auto;
    (split; [assumption|]); eexists _, p; simpl; eauto.
Qed.

(** A loop that leaves the slot proxied. *)
Ltac wp_proxied lem :=
  eapply wp_mono;
    [eapply lem; first [eassumption|reflexivity]|intros ? [? ?] [? (? & ? & ? & ?)]; simpl in *|intros [? ?] ?].

Lemma write_upstream_request_handler id : handler id (write_upstream_request id).
Proof.
  intros w0 [w u] HG. unfold write_upstream_request.
  repeat first [ wp_phase | wp_step | wp_call | wp_proxied write_progress_spec
               | wp_proxied upstream_write_loop_spec | wp_spec request_written_spec | wp_case ].
Qed.

Lemma mark_upstream_eof_handler id : handler id (mark_upstream_eof id).
Proof. intros w0 [w u] HG. unfold mark_upstream_eof. wp_auto. Qed.

Hint Resolve write_upstream_request_handler mark_upstream_eof_handler : handlers.

Lemma read_upstream_response_handler id : handler id (read_upstream_response id).
Proof.
  intros w0 [w u] HG. unfold read_upstream_response. wp_auto.
Qed.

Hint Resolve read_upstream_response_handler : handlers.

(** *** Writing to the client *)

(** The slot of [id] is occupied. *)
Definition occupied (id : ConnectionId) (s : State) : Prop :=
  exists c, connections (worker s) !! slot id = Some c.

Lemma advance_static_stream_spec id w0 w u :
  G (slot id) w0 (mkState w u) ->
  (forall c, connections w !! slot id = Some c -> static_stream c <> None) ->
  wp (advance_static_stream id) (fun _ => G (slot id) w0) (G (slot id) w0) (mkState w u).
Proof.
  intros HG Hs. unfold advance_static_stream. wp_auto. by destruct (Hs c).
Qed.

(** One write leaves the connection as it was, its TLS session apart, and takes no
    more than what is left of the buffer. *)
Lemma write_step_spec id w0 w u c :
  G (slot id) w0 (mkState w u) -> connections w !! slot id = Some c ->
  wp (write_step id c)
    (fun r s => G (slot id) w0 s /\ (exists c',
       connections (worker s) !! slot id = Some c' /\ write_buffer c' = write_buffer c /\
       write_offset c' = write_offset c) /\
       forall n, r = Ok n -> write_offset c < len (write_buffer c) ->
         write_offset c + n <= len (write_buffer c))
    (G (slot id) w0) (mkState w u).
Proof.
  intros HG Hc. pose proof (G_conn _ _ _ _ _ HG Hc) as (_ & _ & _ & _ & Hw & _).
  unfold write_step. destruct (ssl c) as [session|].
  - destruct (_ <? _) eqn:E; decided.
    + wp_step. apply wp_slice_from; [lia|].
      destruct (writer_write _ _) as [r s'] eqn:Ew. wp_auto.
      split; [done|]. split; [by eexists|]. intros n -> _.
      apply writer_write_len in Ew. rewrite len_drop in Ew. lia.
    + wp_auto. split; [done|]. split; [by eexists|]. intros n _ Hlt. lia.
  - wp_step. apply wp_slice_from; [lia|]. apply wp_sys. intros r u' Hr.
    split; [done|]. split; [by exists c|]. intros n -> _.
    apply sock_write_len in Hr. rewrite len_drop in Hr. lia.
Qed.

Lemma write_loop_spec n id : forall w0 w u,
  G (slot id) w0 (mkState w u) -> occupied id (mkState w u) ->
  wp (write_loop n id) (fun _ s => G (slot id) w0 s /\ occupied id s)
    (G (slot id) w0) (mkState w u).
Proof.
  induction n as [|n IH]; intros w0 w u HG [c Hc]; simpl in *; [wp_auto; by split; [|exists c]|].
  wp_step. wp_step. wp_case; [wp_auto; by split; [|exists c]|]. wp_step.
  eapply wp_mono; [by apply write_step_spec| |done].
  intros r [w' u'] (HG' & (c' & Hc' & Eb' & Eo) & Hn). simpl in *.
  destruct r as [[|m]|[]]; try (wp_step; by split; [|exists c']); [|apply IH; [done|by exists c']].
  specialize (Hn _ eq_refl). wp_step. wp_step. wp_step.
  destruct (write_offset c <? len (write_buffer c)) eqn:E; decided;
    [specialize (Hn E); rewrite <- Eb', <- Eo in Hn|]; wp_auto;
    first [apply IH; [done|by eexists] | split; [done|by eexists]].
Qed.

Lemma response_written_spec id w0 w u c :
  G (slot id) w0 (mkState w u) -> connections w !! slot id = Some c ->
  wp (response_written id) (fun _ => G (slot id) w0) (G (slot id) w0) (mkState w u).
Proof.
  intros HG Hc. unfold response_written. wp_auto.
  eapply wp_mono; [apply advance_static_stream_spec; [done|]|auto..].
  intros c'. rewrite Hc. intros [= <-]. congruence.
Qed.

Lemma write_ready_handler id : handler id (write_ready id).
Proof.
  intros w0 [w u] HG. unfold write_ready. wp_auto.
  eapply wp_mono; [apply write_loop_spec; [done|by eexists]| |done].
  intros ? [? ?] [? [? ?]]. simpl in *.
  repeat first [wp_phase | wp_step | wp_call | wp_spec reregister_client_spec
               | wp_spec response_written_spec | wp_case].
Qed.

Hint Resolve write_ready_handler : handlers.

(** *** Reading a request *)

(** A read only changes the TLS session. *)
Lemma read_step_spec id w0 w u c :
  G (slot id) w0 (mkState w u) -> connections w !! slot id = Some c ->
  wp (read_step id c)
    (fun _ s => G (slot id) w0 s /\ exists c',
       connections (worker s) !! slot id = Some c' /\ read_buffer c' = read_buffer c /\
       phase c' = phase c)
    (G (slot id) w0) (mkState w u).
Proof.
  intros HG Hc. unfold read_step. wp_auto; (split; [done|]); by eexists.
Qed.

Lemma examine_head_pending max b p :
  examine_head max b = HeadPending p -> body_start p <= body_end p <= max.
Proof.
  unfold examine_head. destruct (parse_request_head b) as [[|head n]|]; try done.
  destruct (body_length head) as [k|[]]; try done.
  destruct (checked_add 64 n k) as [e|] eqn:E; [|done].
  apply checked_add_Some in E as [-> _].
  destruct (_ <? _) eqn:E; [done|]. intros [= <-]. decided. simpl. lia.
Qed.

Lemma wp_slice_range b m n (Q : bytes -> State -> Prop) R s :
  m <= n <= len b ->
  Q (take (N.to_nat (n - m)) (drop (N.to_nat m) b)) s -> wp (slice_range b m n) Q R s.
Proof.
  intros Hn HQ. unfold slice_range.
  destruct (n <? m) eqn:E1; decided; [lia|]. destruct (len b <? n) eqn:E2; decided; [lia|]. done.
Qed.

Lemma complete_request_spec id w0 w u c :
  G (slot id) w0 (mkState w u) -> connections w !! slot id = Some c ->
  wp (complete_request id) (fun _ s => G (slot id) w0 s /\ occupied id s)
    (G (slot id) w0) (mkState w u).
Proof.
  intros HG Hc. pose proof (G_conn _ _ _ _ _ HG Hc) as (_ & _ & _ & _ & _ & Hph).
  assert (Hstay : G (slot id) w0 (mkState w u) /\ occupied id (mkState w u))
    by (split; [done|by exists c]).
  unfold complete_request, pending_request. wp_step. wp_step.
  destruct (phase c) as [[r|]| | |] eqn:Hp; try by wp_step.
  destruct (_ <=? _) eqn:E; [|by wp_step]. decided. simpl in Hph.
  apply wp_bind. eapply wp_update; [done..| | |].
  - unfold take_pending_request. rewrite Hp. solve_conn.
  - unfold take_pending_request. by rewrite Hp.
  - intros w' HG' Hc' _. wp_step. apply wp_slice_range; [lia|]. wp_auto.
    split; [done|]. eexists. simpl. eauto.
Qed.

Lemma set_pending_request_conn_ok w k c p :
  conn_ok w k c -> body_start p <= body_end p <= max_read_buffer_size (limits w) ->
  conn_ok w k (set_pending_request p c) /\
  conn_generation (set_pending_request p c) = conn_generation c.
Proof.
  intros (? & ? & ? & ? & ? & ?) Hp. unfold set_pending_request, conn_ok.
  destruct (phase c) eqn:E; split_and!; simpl; rewrite ?E; auto with lia.
Qed.

Lemma read_loop_spec n id : forall w0 w u,
  G (slot id) w0 (mkState w u) -> occupied id (mkState w u) ->
  wp (read_loop n id) (fun _ s => G (slot id) w0 s /\ occupied id s)
    (G (slot id) w0) (mkState w u).
Proof.
  induction n as [|n IH]; intros w0 w u HG [c Hc]; simpl in *; [wp_auto; by split; [|exists c]|].
  do 3 wp_step. eapply wp_mono; [by apply read_step_spec| |done].
  intros r [w' u'] (HG' & c' & Hc' & Eb & Ep). simpl in *.
  destruct r as [[|b0 b]|[]]; try (wp_step; by split; [|exists c']);
    [|apply IH; [done|by exists c']].
  do 4 wp_step. wp_case; [wp_step; split; [done|by eexists]|]. rewrite <- Eb in Eb0.
  repeat wp_step.
  assert (Hmax : max_read_buffer_size (limits w'0) = max_read_buffer_size (limits w'2))
    by (by erewrite (evolves_limits _ w'1 w'2), (evolves_limits _ w'0 w'1)).
  assert (Hgo : forall w c u, G (slot id) w0 (mkState w u) -> connections w !! slot id = Some c ->
    wp (done ← complete_request id;
        match done with Some outcome => mret outcome | None => read_loop n id end)
      (fun _ s => G (slot id) w0 s /\ occupied id s) (G (slot id) w0) (mkState w u)).
  { clear -IH env_ok. intros w c u HG Hc. wp_step.
    eapply wp_mono; [by eapply complete_request_spec| |done].
    intros [o|] [] [? ?]; [by wp_step|by apply IH]. }
  destruct (match pending_request _ with Some _ => _ | None => _ end) as [|st m|p] eqn:E;
    [by eapply Hgo|wp_step; split; [done|by eexists]|].
  destruct (pending_request _); [done|]. apply examine_head_pending in E. rewrite Hmax in E.
  match goal with HG : G _ _ (mkState ?w _), H : connections ?w !! _ = Some ?c |- wp _ _ _ (mkState ?w _) =>
    destruct (set_pending_request_conn_ok w (slot id) c p) as [??];
      [by eapply G_conn|done|]
  end.
  wp_step. eapply wp_update; [done..|]. intros. by eapply Hgo.
Qed.

(** *** Answering *)

Lemma G_balancer k w0 w u b :
  G k w0 (mkState w u) -> groups b = groups (balancer w) ->
  G k w0 (mkState (set_balancer b w) u).
Proof.
  intros HG Hb. eapply G_evolves; [done| |].
  - split_and!; try done; eauto.
  - intros c' Hc'. exact (G_conn _ _ _ _ _ HG Hc').
Qed.

Lemma route_wf w server i t a :
  Inv w -> servers w !! i = Some server -> route server t = Some a ->
  action_wf (groups (balancer w)) a.
Proof.
  intros [_ _ _ Hs _]. by apply route_action_wf.
Qed.

Lemma respond_static_handler id d r : handler id (respond_static id d r).
Proof. intros w0 [w u] HG. unfold respond_static. wp_auto. Qed.

Hint Resolve respond_static_handler : handlers.

Lemma respond_proxy_spec id a r b w0 w u c :
  G (slot id) w0 (mkState w u) -> connections w !! slot id = Some c ->
  action_wf (groups (balancer w)) a ->
  wp (respond_proxy id a r b) (fun _ => G (slot id) w0) (G (slot id) w0) (mkState w u).
Proof.
  intros HG Hc Ha. unfold respond_proxy. wp_step. wp_step.
  destruct (select_wf (balancer w) a) as (b' & res & -> & Hb & _); [apply HG|done|].
  wp_step. apply wp_modify. pose proof (G_balancer _ _ _ _ b' HG Hb) as HG'.
  destruct res as [url|e]; [|wp_auto].
  wp_step. apply wp_attempt. eapply wp_mono; [by eapply start_proxy_spec| |].
  - intros ? [? ?] ?. wp_auto.
  - intros [? ?] ? e. wp_auto.
Qed.

Lemma respond_spec id r b l w0 w u c :
  G (slot id) w0 (mkState w u) -> connections w !! slot id = Some c ->
  wp (respond id r b l) (fun _ => G (slot id) w0) (G (slot id) w0) (mkState w u).
Proof.
  intros HG Hc. unfold respond. wp_auto.
  all: eapply respond_proxy_spec; [done..|].
  all: eapply route_wf; [apply HG|done|done].
Qed.

Lemma handle_read_spec id o w0 w u c :
  G (slot id) w0 (mkState w u) -> connections w !! slot id = Some c ->
  wp (handle_read id o) (fun _ => G (slot id) w0) (G (slot id) w0) (mkState w u).
Proof.
  intros HG Hc. unfold handle_read.
  repeat first [wp_phase | wp_step | wp_call | wp_spec respond_spec | wp_case].
Qed.

Lemma discard_loop_spec n id : forall w0 w u,
  G (slot id) w0 (mkState w u) -> occupied id (mkState w u) ->
  wp (discard_loop n id) (fun _ s => G (slot id) w0 s) (G (slot id) w0) (mkState w u).
Proof.
  induction n as [|n IH]; intros w0 w u HG [c Hc]; simpl in *; [by wp_auto|].
  do 4 wp_step. destruct a as [[|b0 b]|[]]; try (by wp_step); [|apply IH; [done|by exists c]].
  repeat wp_step. apply IH; [done|by eexists].
Qed.

Lemma client_during_proxy_ready_spec id w0 w u c :
  G (slot id) w0 (mkState w u) -> connections w !! slot id = Some c ->
  wp (client_during_proxy_ready id) (fun _ => G (slot id) w0) (G (slot id) w0) (mkState w u).
Proof.
  intros HG Hc. unfold client_during_proxy_ready. do 3 wp_step.
  eapply wp_mono; [apply discard_loop_spec; [done|by exists c]| |done].
  intros close [w' u'] HG'. wp_auto.
Qed.

Lemma connection_ready_handler id : handler id (connection_ready id).
Proof.
  intros w0 [w u] HG. unfold connection_ready.
  wp_step; [wp_auto|]. do 2 wp_step. wp_case; [wp_spec client_during_proxy_ready_spec; wp_auto|].
  wp_step. eapply wp_mono; [apply read_loop_spec; [done|by eexists]| |done].
  intros o [w' u'] [HG' [c' Hc']]. simpl in *. wp_step.
  eapply wp_mono; [by eapply handle_read_spec| |done].
  intros go_on [w'' u''] HG''. wp_auto.
Qed.

Hint Resolve connection_ready_handler : handlers.

Lemma dispatch_client_handler id e : handler id (dispatch_client id e).
Proof. intros w0 [w u] HG. unfold dispatch_client. wp_auto. Qed.

(** [dispatch] has checked that the slot is occupied. *)
Lemma dispatch_upstream_spec id e w0 w u c :
  G (slot id) w0 (mkState w u) -> connections w !! slot id = Some c ->
  wp (dispatch_upstream id e) (fun _ => G (slot id) w0) (G (slot id) w0) (mkState w u).
Proof. intros HG Hc. unfold dispatch_upstream. wp_auto. Qed.

End Invariants.
