(* ===== verification/ReadinessLoop.v ===== *)
(** * The loop of the readiness worker

    The invariant of [ReadinessInv.v] carried through every operation that works
    on many connections, the accept path, shutdown, and one iteration of the
    loop; the reachable states of a worker. *)

From stdpp Require Import sorting.
From S2P Require Import Prelude RustStd Config Http Router LoadBalancer Proxy StaticFiles Runtime Token Handler Connection Readiness ReadinessInv.

Local Open Scope N_scope.

Section Loop.

Context {env : Env} {fs : Filesystem} {mime : MimeGuess} {env_ok : EnvOk env}.

Notation M := (Handler ReadinessWorker World).
Notation State := (State ReadinessWorker World).

(** ** Operations that add no connection *)

(** Every connection left is one that was there. *)
Definition shrinks (w w' : ReadinessWorker) : Prop :=
  same_config w w' /\ generations w' = generations w /\
  draining w' = draining w /\ drain_started_at w' = drain_started_at w /\
  forall k c', connections w' !! k = Some c' ->
    exists c, connections w !! k = Some c /\ conn_generation c = conn_generation c'.

Definition S (w0 : ReadinessWorker) (s : State) : Prop :=
  Inv (worker s) /\ shrinks w0 (worker s).

Definition quiet {A} (m : M A) : Prop :=
  forall w0 s, S w0 s -> wp m (fun _ => S w0) (S w0) s.

#[export] Instance shrinks_preorder : PreOrder shrinks.
Proof.
  split.
  - intros w. split_and!; eauto. apply same_config_refl.
  - intros w1 w2 w3 (Hc & Hg & Hd & Hs & Hk) (Hc' & Hg' & Hd' & Hs' & Hk').
    split; [by eapply same_config_trans|]. split_and!; try congruence.
    intros k c' H. destruct (Hk' _ _ H) as (c1 & H1 & E1).
    destruct (Hk _ _ H1) as (c0 & H0 & E0). exists c0. split; [done|congruence].
Qed.

Lemma evolves_shrinks k w w' : evolves k w w' -> shrinks w w'.
Proof.
  intros (Hc & Hg & Hd & Hs & Ho & Hk). split_and!; try done.
  intros j c' Hj. destruct (decide (j = k)) as [->|Hne]; [by apply Hk|].
  rewrite Ho in Hj by done. eauto.
Qed.

Lemma S_start s : Inv (worker s) -> S (worker s) s.
Proof. by split. Qed.

Lemma S_G k w0 s s' : S w0 s -> G k (worker s) s' -> S w0 s'.
Proof.
  intros [_ Hs] [Hi He]. split; [done|]. etrans; [done|by eapply evolves_shrinks].
Qed.

Lemma G_start k w0 s : S w0 s -> G k (worker s) s.
Proof. intros [Hi _]. split; [done|apply evolves_refl]. Qed.

Lemma handler_quiet {A} id (m : M A) : handler id m -> quiet m.
Proof.
  intros Hm w0 s HS. eapply wp_mono; [by eapply Hm, G_start| |]; simpl; eauto using S_G.
Qed.

Lemma wp_quiet {A} (m : M A) w0 s (Q : A -> State -> Prop) (R : State -> Prop) :
  quiet m -> S w0 s -> (forall a s', S w0 s' -> Q a s') -> (forall s', S w0 s' -> R s') ->
  wp m Q R s.
Proof. intros Hm HS HQ HR. eapply wp_mono; [by apply Hm|auto|auto]. Qed.

Lemma quiet_bind {A B} (m : M A) (f : A -> M B) :
  quiet m -> (forall a, quiet (f a)) -> quiet (m ≫= f).
Proof.
  intros Hm Hf w0 s HS. apply wp_bind. eapply (wp_quiet m); [done..| |done].
  intros a s' HS'. by apply Hf.
Qed.

Lemma quiet_ret {A} (a : A) : quiet (mret a).
Proof. intros w0 s HS. by apply wp_ret. Qed.

Lemma quiet_skip : quiet skip.
Proof. intros w0 s HS. by apply wp_skip. Qed.

Lemma quiet_sys {A} (f : World -> A * World) : quiet (sys f).
Proof. intros w0 [w u] HS. apply wp_sys. intros a u' _. exact HS. Qed.

Lemma quiet_gets {A} (f : ReadinessWorker -> A) : quiet (gets f).
Proof. intros w0 [w u] HS. by apply wp_gets. Qed.

Lemma quiet_attempt {A} (m : M A) : quiet m -> quiet (attempt m).
Proof.
  intros Hm w0 s HS. apply wp_attempt. eapply (wp_quiet m); [done..|eauto|eauto].
Qed.

Lemma quiet_bookkeeping f : bookkeeping f -> quiet (modify f).
Proof.
  intros Hf w0 [w u] HS. apply wp_modify. eapply (S_G 0); [exact HS|].
  apply G_bookkeeping; [done|]. by eapply G_start.
Qed.

Lemma quiet_for_all {A} (f : A -> M unit) l : (forall a, quiet (f a)) -> quiet (for_all f l).
Proof.
  intros Hf. induction l as [|a l IH]; simpl; [apply quiet_skip|]. by apply quiet_bind.
Qed.

Lemma quiet_is_current_then {A} id (f : bool -> M A) :
  (forall b, quiet (f b)) -> quiet (current ← is_current id; f current).
Proof. intros Hf. apply quiet_bind; [apply quiet_gets|done]. Qed.

Create HintDb quiet.
Hint Resolve quiet_ret quiet_skip quiet_sys quiet_gets quiet_attempt quiet_for_all : quiet.

(** Go through the binds and cases of an operation. *)
Ltac quiet :=
  repeat match goal with
  | |- forall _, _ => intro
  | |- quiet (_ ≫= _) => apply quiet_bind
  | |- quiet (for_all _ _) => apply quiet_for_all
  | |- quiet (attempt _) => apply quiet_attempt
  | |- quiet (modify _) => apply quiet_bookkeeping; by intros ?
  | |- quiet (let '(_, _) := ?x in _) => destruct x
  | |- quiet (match ?x with _ => _ end) => destruct x
  | |- quiet _ => solve [eauto with quiet]
  end.

Lemma remove_connection_quiet id : quiet (remove_connection id).
Proof. eapply handler_quiet, remove_connection_handler. Qed.

Lemma fail_resolution_quiet id st m : quiet (fail_resolution id st m).
Proof. eapply handler_quiet, fail_resolution_handler. Qed.

Lemma fail_proxy_quiet id st m : quiet (fail_proxy id st m).
Proof. eapply handler_quiet, fail_proxy_handler. Qed.

Lemma finish_resolution_quiet r : quiet (finish_resolution r).
Proof. destruct r as [id a]. eapply handler_quiet, finish_resolution_handler. Qed.

Lemma write_ready_quiet id : quiet (write_ready id).
Proof. eapply handler_quiet, write_ready_handler. Qed.

Lemma write_upstream_request_quiet id : quiet (write_upstream_request id).
Proof. eapply handler_quiet, write_upstream_request_handler. Qed.

Lemma read_upstream_response_quiet id : quiet (read_upstream_response id).
Proof. eapply handler_quiet, read_upstream_response_handler. Qed.

Lemma dispatch_client_quiet id e : quiet (dispatch_client id e).
Proof. eapply handler_quiet, dispatch_client_handler. Qed.

Hint Resolve remove_connection_quiet fail_resolution_quiet fail_proxy_quiet
  finish_resolution_quiet write_ready_quiet write_upstream_request_quiet
  read_upstream_response_quiet dispatch_client_quiet : quiet.

Lemma process_dns_results_quiet : quiet process_dns_results.
Proof. unfold process_dns_results. quiet. Qed.

Lemma close_expired_resolutions_quiet : quiet close_expired_resolutions.
Proof. unfold close_expired_resolutions, clock. quiet. Qed.

Lemma close_expired_proxies_quiet : quiet close_expired_proxies.
Proof. unfold close_expired_proxies, clock. quiet. Qed.

Lemma close_idle_connections_quiet : quiet close_idle_connections.
Proof. unfold close_idle_connections, clock. quiet. Qed.

Lemma close_all_connections_quiet : quiet close_all_connections.
Proof. unfold close_all_connections. quiet. Qed.

Lemma drain_deadline_expired_quiet : quiet drain_deadline_expired.
Proof. unfold drain_deadline_expired, clock. quiet. Qed.

Lemma if_current_quiet f id : quiet (f id) -> quiet (if_current f id).
Proof. intros Hf. unfold if_current. quiet. Qed.

Hint Resolve process_dns_results_quiet close_expired_resolutions_quiet
  close_expired_proxies_quiet close_idle_connections_quiet close_all_connections_quiet
  drain_deadline_expired_quiet if_current_quiet : quiet.

(** ** The slab's iterator *)

Lemma slab_iter_Permutation m : slab_iter m ≡ₚ map_to_list m.
Proof. apply merge_sort_Permutation. Qed.

Lemma elem_of_slab_iter m k c : (k, c) ∈ slab_iter m <-> m !! k = Some c.
Proof. rewrite slab_iter_Permutation. apply elem_of_map_to_list. Qed.

Lemma elem_of_ids_where p w id :
  id ∈ ids_where p w <->
  exists c, connections w !! slot id = Some c /\ conn_generation c = generation id /\ p c = true.
Proof.
  unfold ids_where. rewrite list_elem_of_omap. split.
  - intros ([k c] & Hk%elem_of_slab_iter & Hp). destruct (p c) eqn:E; [|done].
    injection Hp as <-. by exists c.
  - intros (c & Hc & Hg & Hp). exists (slot id, c). rewrite elem_of_slab_iter, Hp, Hg.
    split; [done|by destruct id].
Qed.

Lemma ids_where_NoDup p w : NoDup (slot <$> ids_where p w).
Proof.
  assert (Hs : forall l : list (N * Connection),
    sublist (slot <$> omap (fun '(slot, c) =>
      if p c then Some (mkConnectionId slot (conn_generation c)) else None) l) l.*1).
  { intros l. induction l as [|[k c] l IH]; simpl; [constructor|].
    destruct (p c); simpl; by constructor. }
  eapply sublist_NoDup; [|apply Hs].
  rewrite slab_iter_Permutation. apply NoDup_fst_map_to_list.
Qed.

Lemma advance_all_spec ids : forall w0 w u,
  NoDup (slot <$> ids) ->
  (forall id c, id ∈ ids -> connections w !! slot id = Some c -> static_stream c <> None) ->
  S w0 (mkState w u) ->
  wp (for_all advance_static_stream ids) (fun _ => S w0) (S w0) (mkState w u).
Proof.
  induction ids as [|id ids IH]; intros w0 w u Hnd Hst HS; [by apply wp_skip|].
  apply NoDup_cons in Hnd as [Hni Hnd]. apply wp_bind.
  eapply wp_mono; [apply (advance_static_stream_spec id w); [by eapply (G_start _ _ _ HS)|]| |].
  - intros c. apply Hst. left.
  - intros ? [w' u'] HG. apply IH; [done| |by eapply (S_G _ _ _ _ HS)].
    intros id' c Hid Hc. destruct HG as [_ (_ & _ & _ & _ & Ho & _)]. simpl in Ho.
    rewrite Ho in Hc; [eapply Hst; [by right|done]|].
    intros E. apply Hni. rewrite <- E. by apply list_elem_of_fmap_2.
  - intros s HG. by eapply S_G.
Qed.

Lemma pump_static_streams_quiet : quiet pump_static_streams.
Proof.
  intros w0 [w u] HS. unfold pump_static_streams. apply wp_bind, wp_gets, advance_all_spec;
    [apply ids_where_NoDup| |done].
  intros id c (c' & Hc' & _ & Hp)%elem_of_ids_where Hc. rewrite Hc in Hc'.
  injection Hc' as <-. apply andb_true_iff in Hp as [Hp _]. unfold is_streaming in Hp.
  by destruct (static_stream c).
Qed.

Lemma maintain_quiet : quiet maintain.
Proof.
  unfold maintain, drain_set. pose proof pump_static_streams_quiet. quiet.
Qed.

(** ** Accepting a connection *)

(** What an accept may change besides: generations move on, connections appear. *)
Definition grows (w w' : ReadinessWorker) : Prop :=
  same_config w w' /\ draining w' = draining w /\ drain_started_at w' = drain_started_at w.

#[export] Instance grows_preorder : PreOrder grows.
Proof.
  split.
  - intros w. split_and!; eauto. apply same_config_refl.
  - intros w1 w2 w3 (? & ? & ?) (? & ? & ?). split; [by eapply same_config_trans|].
    split; congruence.
Qed.

Lemma shrinks_grows w w' : shrinks w w' -> grows w w'.
Proof. by intros (? & ? & ? & ? & ?). Qed.

Definition T (w0 : ReadinessWorker) (s : State) : Prop := Inv (worker s) /\ grows w0 (worker s).

Lemma resize_generations_lookup g k :
  (exists x, resize_generations g k !! N.to_nat k = Some x) /\
  forall i x, g !! i = Some x -> resize_generations g k !! i = Some x.
Proof.
  unfold resize_generations. destruct (_ <=? _) eqn:E.
  - apply N.leb_le in E. unfold len in E. split.
    + apply lookup_lt_is_Some. rewrite length_app, length_replicate. lia.
    + intros i x Hi. by apply lookup_app_l_Some.
  - apply N.leb_gt in E. unfold len in E. split; [|done].
    apply lookup_lt_is_Some. lia.
Qed.

(** A vacant slot gets the next generation. *)
Lemma Inv_generation w k g x :
  Inv w -> connections w !! k = None -> g = resize_generations (generations w) k ->
  Inv (set_generations (<[N.to_nat k := x]> g) w).
Proof.
  intros [Hc Hs Hg Hsv Hd] Hk ->. constructor; [|done..].
  intros j c Hj. simpl in Hj. destruct (Hc j c Hj) as (H1 & H2 & H3). split; [done|].
  split; [|done]. simpl. assert (j <> k) by congruence.
  rewrite list_lookup_insert_ne by lia. by apply resize_generations_lookup.
Qed.

(** A new connection in a vacant slot, below the limit. *)
Lemma Inv_insert w k c :
  Inv w -> connections w !! k = None -> conn_ok w k c ->
  N.of_nat (size (connections w)) < max_connections (limits w) ->
  Inv (set_connections (<[k := c]> (connections w)) w).
Proof.
  intros [Hc Hs Hg Hsv Hd] Hk Hok Hlt. constructor; [| |done..].
  - simpl. apply map_Forall_insert_2; [done|]. exact Hc.
  - simpl. rewrite map_size_insert_None by done. lia.
Qed.

Lemma wp_make_connection stream l g config w u (Q : Connection -> State -> Prop) R :
  (forall session t u', Q (new_connection stream l g session t) (mkState w u')) ->
  (forall u', R (mkState w u')) ->
  wp (make_connection stream l g config) Q R (mkState w u).
Proof.
  intros HQ HR. unfold make_connection. apply wp_bind. destruct config as [config|].
  - apply wp_bind, wp_sys. intros r u1 _. apply wp_bind, wp_lift; [|auto].
    intros s _. apply wp_bind, wp_sys. intros t u2 _. apply wp_ret, wp_bind, wp_sys.
    intros t' u3 _. by apply wp_ret.
  - apply wp_ret, wp_bind, wp_sys. intros t u1 _. by apply wp_ret.
Qed.

Lemma register_connection_spec stream l w0 w u :
  T w0 (mkState w u) -> l < len (listeners w) ->
  N.of_nat (size (connections w)) < max_connections (limits w) ->
  wp (register_connection stream l) (fun _ => T w0) (T w0) (mkState w u).
Proof.
  intros [Hi Hg] Hl Hsize. unfold register_connection. simpl in Hi, Hg.
  apply wp_bind, wp_gets, wp_bind, wp_sys. intros k u1 Hk.
  apply vacant_key_fresh, not_elem_of_dom in Hk.
  destruct (SLOT_MASK <? k) eqn:Ek; [by apply wp_fail|].
  apply wp_bind, wp_gets.
  destruct (resize_generations_lookup (generations w) k) as [[x Hx] _]. rewrite Hx.
  apply wp_bind, wp_modify, wp_bind, wp_gets. simpl.
  pose proof (Inv_generation w k _ (next_generation x) Hi Hk eq_refl) as Hi1.
  destruct (lookup_lt_is_Some_2 (listeners w) (N.to_nat l)) as [lst Hlst];
    [unfold len in Hl; lia|]. rewrite Hlst.
  set (w1 := set_generations _ w) in *.
  assert (Hg1 : grows w0 w1) by (etrans; [exact Hg|]; by split_and!).
  apply wp_bind, wp_make_connection; [|done]. intros session t u2.
  assert (Hok : conn_ok w1 k (new_connection stream l (next_generation x) session t)).
  { pose proof (next_generation_wf x). apply N.ltb_ge in Ek.
    change SLOT_MASK with (2 ^ 32 - 1) in Ek.
    assert (Hgen : generations w1 !! N.to_nat k = Some (next_generation x))
      by (apply list_lookup_insert_eq; by apply lookup_lt_Some in Hx).
    unfold conn_ok, id_wf. simpl. split_and!; first [done|exact Hl|lia|apply N.le_0_l]. }
  pose proof (Inv_insert w1 k _ Hi1 Hk Hok Hsize) as Hi2.
  apply wp_bind, wp_modify, wp_bind, wp_lift; [|done]. intros tok _.
  apply wp_bind, wp_sys. intros r u3 _. destruct r; [by apply wp_skip|].
  apply wp_bind, wp_modify, wp_fail.
  match goal with |- T _ (mkState (set_connections _ ?w2) _) =>
    destruct (G_delete k w2 w2 u3) as [Hd _]; [by split; [|apply evolves_refl]|] end.
  by split.
Qed.

Lemma T_bookkeeping w0 w u f : bookkeeping f -> T w0 (mkState w u) -> T w0 (mkState (f w) u).
Proof.
  intros Hf [Hi Hg]. pose proof (G_bookkeeping 0 w w u f Hf) as [Hi' He].
  - by split; [|apply evolves_refl].
  - split; [done|]. etrans; [done|]. by eapply shrinks_grows, evolves_shrinks.
Qed.

Lemma accept_loop_spec l results : forall w0 w u,
  T w0 (mkState w u) -> l < len (listeners w) ->
  wp (accept_loop l results) (fun _ => T w0) (T w0) (mkState w u).
Proof.
  induction results as [|r results IH]; intros w0 w u HT Hl; [by apply wp_skip|].
  destruct r as [stream|[]]; simpl; try (by apply wp_skip); [|by apply IH].
  apply wp_bind, wp_gets, wp_bind, wp_gets. destruct (_ <=? _) eqn:E; [by apply IH|].
  apply N.leb_gt in E. apply wp_bind, wp_modify, wp_bind, wp_attempt.
  assert (HT' : T w (mkState (update_metrics Runtime.accepted w) u)).
  { apply T_bookkeeping; [by intros ?|]. by split; [apply HT|]. }
  assert (Hgo : forall s, T w s -> wp (accept_loop l results) (fun _ => T w0) (T w0) s).
  { intros [w' u'] [Hi' Hg']. pose proof HT as [_ Hg]. apply IH.
    - split; [done|]. by etrans.
    - destruct Hg' as [(El & _) _]. simpl in El. by rewrite El. }
  eapply wp_mono; [by apply (register_connection_spec stream l w)|auto|auto].
Qed.

Lemma accept_ready_spec l w0 w u :
  T w0 (mkState w u) -> l < len (listeners w) ->
  wp (accept_ready l) (fun _ => T w0) (T w0) (mkState w u).
Proof.
  intros HT Hl. unfold accept_ready. apply wp_bind, wp_gets.
  destruct (lookup_lt_is_Some_2 (listeners w) (N.to_nat l)) as [lst ->];
    [unfold len in Hl; lia|].
  apply wp_bind, wp_sys. intros rs u' _. by apply accept_loop_spec.
Qed.

(** ** Dispatching the events *)

(** What an event may change; no connection appears while draining. *)
Definition advances (w w' : ReadinessWorker) : Prop :=
  grows w w' /\ (draining w = true -> shrinks w w').

#[export] Instance advances_preorder : PreOrder advances.
Proof.
  split; [by split|]. intros w1 w2 w3 [Hg Hs] [Hg' Hs']. split; [by etrans|].
  intros Hd. etrans; [by apply Hs|]. apply Hs'. destruct Hg as (_ & E & _). congruence.
Qed.

Definition U (w0 : ReadinessWorker) (s : State) : Prop := Inv (worker s) /\ advances w0 (worker s).

Lemma shrinks_advances w w' : shrinks w w' -> advances w w'.
Proof. split; [by apply shrinks_grows|done]. Qed.

Lemma U_trans w0 w s : advances w0 w -> U w s -> U w0 s.
Proof. intros H [Hi Ha]. split; [done|by etrans]. Qed.

Lemma dispatch_upstream_quiet id e :
  quiet (current ← is_current id;
         if negb current then skip else dispatch_upstream id e).
Proof.
  eapply (handler_quiet id). intros w0 [w u] HG.
  apply wp_current; [intros _; by apply wp_skip|]. intros c Hc _.
  by eapply dispatch_upstream_spec.
Qed.

Lemma wp_quiet_advances m w u :
  quiet m -> Inv w -> wp m (fun _ : unit => U w) (U w) (mkState w u).
Proof.
  intros Hm Hi. eapply (wp_quiet m w); [done|by split| |];
    intros; destruct_and?; split; try apply H; apply shrinks_advances, H.
Qed.

Lemma dispatch_spec e w u : Inv w -> wp (dispatch e) (fun _ => U w) (U w) (mkState w u).
Proof.
  intros Hi. unfold dispatch. destruct (_ =? CONTROL_TOKEN).
  { apply wp_quiet_advances; [apply process_dns_results_quiet|done]. }
  apply wp_bind, wp_gets, wp_bind, wp_gets. destruct (_ <? _) eqn:Et.
  - apply N.ltb_lt in Et.
    assert (Hstay : U w (mkState w u)) by by split.
    destruct (ev_readable e); [|by apply wp_skip]. simpl.
    destruct (draining w) eqn:Ed; [by apply wp_skip|]. simpl.
    eapply wp_mono; [by apply (accept_ready_spec _ w)| |];
      [intros _ s [Hi' Hg]|intros s [Hi' Hg]]; (split; [done|]; split; [done|congruence]).
  - destruct (from_token _) as [[id role]|]; [|by apply wp_skip].
    apply wp_quiet_advances; [|done]. destruct role; [quiet|apply dispatch_upstream_quiet].
Qed.

(** ** Removals, exactly *)

(** What [remove_connection] does to the worker. *)
Definition forget (id : ConnectionId) (w : ReadinessWorker) : ReadinessWorker :=
  if is_current_in w id then
    set_connections (delete (slot id) (connections w))
      (set_pending (pending_writes w ∖ {[id]}) (pending_upstream_writes w ∖ {[id]})
         (pending_upstream_reads w ∖ {[id]}) w)
  else w.

Lemma remove_connection_eq id w u :
  exists u', remove_connection id (mkState w u) = Ret tt (mkState (forget id w) u').
Proof.
  unfold remove_connection, forget, is_current, gets, mbind, Handler_bind. simpl.
  destruct (is_current_in w id) eqn:E; [|by exists u]. simpl.
  apply is_current_in_Some in E as (c & Hc & _). unfold index, modify. simpl. rewrite Hc.
  destruct (detach_proxy c).1 as [p|]; simpl; [|unfold sys; simpl; destruct (deregister _ _); by eexists].
  destruct (upstream_eof p); unfold sys; simpl;
    [destruct (deregister _ _); by eexists|].
  destruct (deregister (upstream p) u) as [r1 u1]. simpl.
  destruct (deregister _ _). by eexists.
Qed.

(** The connections other than those of [ids]. *)
Definition without (ids : list ConnectionId) (m : gmap N Connection) : gmap N Connection :=
  filter (fun '(k, c) => mkConnectionId k (conn_generation c) ∉ ids) m.

Lemma forget_connections id w : connections (forget id w) = without [id] (connections w).
Proof.
  unfold forget, without. apply map_eq. intros k.
  destruct (is_current_in w id) eqn:E; simpl.
  - apply is_current_in_Some in E as (c & Hc & Hg).
    destruct (decide (k = slot id)) as [->|Hne].
    + rewrite lookup_delete_eq. symmetry. apply map_lookup_filter_None. right.
      intros c' Hc' Hni. rewrite Hc in Hc'. injection Hc' as <-. apply Hni.
      rewrite Hg. destruct id. by apply list_elem_of_singleton.
    + rewrite lookup_delete_ne by done. symmetry.
      destruct (connections w !! k) as [c'|] eqn:Hk.
      * apply map_lookup_filter_Some. split; [done|].
        intros E'%list_elem_of_singleton. by subst id.
      * apply map_lookup_filter_None. by left.
  - symmetry. destruct (connections w !! k) as [c'|] eqn:Hk.
    + apply map_lookup_filter_Some. split; [done|].
      intros E'%list_elem_of_singleton. subst id. unfold is_current_in in E. simpl in E.
      rewrite Hk in E. by apply N.eqb_neq in E.
    + apply map_lookup_filter_None. by left.
Qed.

Lemma without_app ids ids' m : without (ids ++ ids') m = without ids' (without ids m).
Proof.
  unfold without. apply map_eq. intros k. apply option_eq. intros c.
  rewrite !map_lookup_filter_Some, elem_of_app. tauto.
Qed.

Definition forget_all (ids : list ConnectionId) (w : ReadinessWorker) : ReadinessWorker :=
  foldl (fun w id => forget id w) w ids.

Lemma remove_all_eq ids : forall w u,
  exists u', for_all remove_connection ids (mkState w u) =
    Ret tt (mkState (forget_all ids w) u').
Proof.
  induction ids as [|id ids IH]; intros w u; [by exists u|].
  simpl. unfold mbind, Handler_bind. destruct (remove_connection_eq id w u) as [u1 ->]. apply IH.
Qed.

Lemma remove_all_attempt_eq ids : forall w u,
  exists u', for_all (fun id => _ ← attempt (remove_connection id); skip) ids (mkState w u) =
    Ret tt (mkState (forget_all ids w) u').
Proof.
  induction ids as [|id ids IH]; intros w u; [by exists u|].
  simpl. unfold mbind, Handler_bind, attempt.
  destruct (remove_connection_eq id w u) as [u1 ->]. apply IH.
Qed.

Lemma forget_all_connections ids w :
  connections (forget_all ids w) = without ids (connections w).
Proof.
  revert w. induction ids as [|id ids IH]; intros w; simpl.
  - unfold without. symmetry. apply map_filter_id. intros k c _. by apply not_elem_of_nil.
  - rewrite IH, forget_connections. symmetry. apply (without_app [id] ids).
Qed.

Lemma forget_same id w :
  same_config w (forget id w) /\ generations (forget id w) = generations w /\
  draining (forget id w) = draining w /\ drain_started_at (forget id w) = drain_started_at w.
Proof. unfold forget. by destruct (is_current_in w id). Qed.

Lemma forget_all_same ids : forall w,
  same_config w (forget_all ids w) /\ generations (forget_all ids w) = generations w /\
  draining (forget_all ids w) = draining w /\
  drain_started_at (forget_all ids w) = drain_started_at w.
Proof.
  induction ids as [|id ids IH]; intros w; [by split_and!|].
  destruct (forget_same id w) as (Hc & Hg & Hd & Hs).
  destruct (IH (forget id w)) as (Hc' & Hg' & Hd' & Hs'). simpl.
  split; [by eapply same_config_trans|]. split_and!; congruence.
Qed.

(** Removing the connections that satisfy a test keeps the others. *)
Lemma without_ids_where p w :
  without (ids_where p w) (connections w) = filter (fun kc => p kc.2 = false) (connections w).
Proof.
  unfold without. apply map_filter_ext. intros k c Hk. rewrite elem_of_ids_where. simpl.
  split.
  - intros Hn. destruct (p c) eqn:E; [|done]. exfalso. apply Hn. by exists c.
  - intros Hp (c' & Hc' & _ & Hp'). congruence.
Qed.

(** ** Shutdown *)

Lemma close_all_connections_eq w u :
  exists w' u', close_all_connections (mkState w u) = Ret tt (mkState w' u') /\
    connections w' = ∅ /\ shrinks w w'.
Proof.
  destruct (remove_all_attempt_eq (all_ids w) w u) as [u' E].
  exists (forget_all (all_ids w) w), u'. split; [exact E|].
  assert (Hnil : connections (forget_all (all_ids w) w) = ∅).
  { rewrite forget_all_connections. unfold all_ids. rewrite without_ids_where.
    apply map_empty. intros k. apply map_lookup_filter_None. by right. }
  split; [done|]. destruct (forget_all_same (all_ids w) w) as (Hc & Hg & Hd & Hs).
  split_and!; try done. intros k c'. by rewrite Hnil.
Qed.

Lemma deregister_all_eq ls : forall (w : ReadinessWorker) (u : World),
  exists u', for_all (fun l => _ ← sys (deregister_listener (l_socket l)); skip) ls
    (mkState w u) = Ret tt (mkState w u').
Proof.
  induction ls as [|l ls IH]; intros w u; [by exists u|].
  simpl. unfold mbind, Handler_bind, sys. simpl. destruct (deregister_listener _ u) as [r u1]. apply IH.
Qed.

(** The connections that shutdown closes at once: nothing of a response to write. *)
Definition at_rest (c : Connection) : bool :=
  negb (is_streaming c) && (len (write_buffer c) <=? write_offset c).

Lemma begin_shutdown_eq w u t u1 :
  now u = (t, u1) ->
  exists w' u', begin_shutdown (mkState w u) = Ret tt (mkState w' u') /\
    connections w' = filter (fun kc => at_rest kc.2 = false) (connections w) /\
    shrinks (set_draining t w) w'.
Proof.
  intros Ht. unfold begin_shutdown. rewrite (bind_Ret _ _ _ t (mkState w u1))
    by (unfold clock, sys; simpl; by rewrite Ht).
  set (w1 := set_draining t w).
  destruct (deregister_all_eq (listeners w1) w1 u1) as [u2 Hl].
  rewrite (bind_Ret _ _ _ tt (mkState w1 u1)) by done.
  rewrite (bind_Ret _ _ _ (listeners w1) (mkState w1 u1)) by done.
  rewrite (bind_Ret _ _ _ _ _ Hl).
  rewrite (bind_Ret _ _ _ (ids_where at_rest w1) (mkState w1 u2)) by done.
  destruct (remove_all_eq (ids_where at_rest w1) w1 u2) as [u3 Hr].
  exists (forget_all (ids_where at_rest w1) w1), u3.
  split; [exact Hr|].
  rewrite forget_all_connections, without_ids_where. split; [done|].
  destruct (forget_all_same (ids_where at_rest w1) w1) as (Hc & Hg & Hd & Hs).
  split_and!; try done. intros k c'.
  rewrite forget_all_connections, without_ids_where. intros [Hk _]%map_lookup_filter_Some.
  by exists c'.
Qed.

Lemma Inv_draining t w : Inv w -> Inv (set_draining t w).
Proof. intros [Hc Hs Hg Hsv Hd]. constructor; done. Qed.

Lemma begin_shutdown_Inv w u :
  Inv w ->
  wp begin_shutdown (fun _ s => Inv (worker s) /\ draining (worker s) = true /\
      same_config w (worker s)) (fun _ => False) (mkState w u).
Proof.
  intros Hi. destruct (now u) as [t u1] eqn:Ht.
  assert (Hq : wp begin_shutdown (fun _ => S (set_draining t w)) (S (set_draining t w))
    (mkState w u)).
  { unfold begin_shutdown, clock. apply wp_bind, wp_sys. rewrite Ht. intros ? ? [= <- <-].
    apply wp_bind, wp_modify.
    assert (HS : S (set_draining t w) (mkState (set_draining t w) u1))
      by (by split; [apply Inv_draining|]).
    apply (wp_quiet (_ ≫= _) (set_draining t w)); [|done..].
    quiet. }
  destruct (begin_shutdown_eq w u t u1 Ht) as (w' & u' & E & _ & Hs).
  unfold wp in *. rewrite E in *. destruct Hq as [Hi' _]. split; [done|].
  destruct Hs as (Hc & _ & Hd & _). by split.
Qed.

(** ** One iteration *)

(** From one iteration to the next. *)
Definition ticks (w w' : ReadinessWorker) : Prop :=
  same_config w w' /\ (draining w = true -> shrinks w w').

#[export] Instance ticks_preorder : PreOrder ticks.
Proof.
  split; [intros w; by split; [apply same_config_refl|]|].
  intros w1 w2 w3 [Hc Hs] [Hc' Hs']. split; [by eapply same_config_trans|].
  intros Hd. specialize (Hs Hd). etrans; [done|]. apply Hs'.
  destruct Hs as (_ & _ & E & _). congruence.
Qed.

Definition V (w0 : ReadinessWorker) (s : State) : Prop := Inv (worker s) /\ ticks w0 (worker s).

Lemma advances_ticks w w' : advances w w' -> ticks w w'.
Proof. intros [(Hc & _) Hs]. by split. Qed.

Lemma V_trans w0 w s : ticks w0 w -> V w s -> V w0 s.
Proof. intros H [Hi Ha]. split; [done|by etrans]. Qed.

Lemma wp_quiet_V {A} (m : M A) w0 s (Q : A -> State -> Prop) (R : State -> Prop) :
  quiet m -> V w0 s -> (forall a s', V w0 s' -> Q a s') -> (forall s', V w0 s' -> R s') ->
  wp m Q R s.
Proof.
  intros Hm [Hi Ht] HQ HR.
  assert (Hs : forall s', S (worker s) s' -> V w0 s').
  { intros s' [Hi' Hs]. split; [done|]. etrans; [done|].
    by apply advances_ticks, shrinks_advances. }
  eapply (wp_quiet m (worker s)); [done|by split|eauto|eauto].
Qed.

Lemma dispatch_all_V es : forall w0 s, V w0 s -> wp (for_all dispatch es) (fun _ => V w0) (V w0) s.
Proof.
  induction es as [|e es IH]; intros w0 [w u] [Hi Ht]; [by apply wp_skip|].
  assert (Hs : forall s', U w s' -> V w0 s')
    by (intros s' [Hi' Ha]; split; [done|]; etrans; [done|by apply advances_ticks]).
  apply wp_bind. eapply wp_mono; [by apply dispatch_spec|eauto|eauto].
Qed.

Lemma tick_V w u : Inv w -> wp tick (fun _ => V w) (V w) (mkState w u).
Proof.
  intros Hi. unfold tick. apply wp_bind, wp_sys. intros requested u1 _.
  apply wp_bind, wp_gets, wp_bind.
  assert (Hrest : forall s, V w s ->
    wp (draining_now ← gets draining;
        empty ← gets (fun w => bool_decide (connections w = ∅));
        if draining_now && (empty : bool) then mret true
        else
          deadline ← drain_deadline_expired;
          if deadline : bool then close_all_connections;; mret true
          else
            maintain;;
            timeout ← gets (fun w => if no_pending w then from_millis 100 else 0);
            r ← sys (poll timeout);
            match r with
            | Ok events => for_all dispatch events;; mret false
            | Err Interrupted => mret false
            | Err e => fail e
            end) (fun _ => V w) (V w) s).
  { intros [w' u'] HV. apply wp_bind, wp_gets, wp_bind, wp_gets.
    destruct (_ && _); [by apply wp_ret|]. apply wp_bind.
    eapply wp_quiet_V; [apply drain_deadline_expired_quiet|done| |done].
    intros [] s HV'.
    { apply wp_bind. eapply wp_quiet_V; [apply close_all_connections_quiet|done| |done].
      intros _ s' HV''. by apply wp_ret. }
    apply wp_bind. eapply wp_quiet_V; [apply maintain_quiet|done| |done].
    intros _ [w1 u2] HV''. apply wp_bind, wp_gets, wp_bind, wp_sys. intros r u3 _.
    destruct r as [es|e].
    - apply wp_bind. eapply wp_mono; [by apply dispatch_all_V| |done].
      intros ? s' ?. by apply wp_ret.
    - by destruct e; first [apply wp_fail|apply wp_ret]. }
  destruct (requested && negb (draining w)) eqn:Eb.
  - apply andb_true_iff in Eb as [_ Ed%negb_true_iff].
    eapply wp_mono; [by apply begin_shutdown_Inv| |done].
    intros _ s (Hi' & _ & Hc). apply Hrest. split; [done|]. split; [done|congruence].
  - apply wp_skip, Hrest. by split.
Qed.

(** ** Reachable states *)

(** The states of a worker started with a valid configuration: [new], the
    iterations of [run], and any change of the world in between. *)
Inductive reachable : State -> Prop :=
| reachable_new config listener_groups ssl_configs limits proxy_limits dns_limits u w u' :
    config_wf config ->
    new listener_groups (Config.servers (http config)) ssl_configs limits proxy_limits
      dns_limits (upstream_groups config) u = (Ok w, u') ->
    reachable (mkState w u')
| reachable_tick s s' : reachable s -> tick s = Ret false s' -> reachable s'
| reachable_world w u u' : reachable (mkState w u) -> reachable (mkState w u').

Lemma initial_worker_Inv ls limits plimits dlimits config :
  config_wf config ->
  Inv (initial_worker ls (Config.servers (http config)) limits plimits dlimits
         (upstream_groups config)).
Proof.
  intros (_ & _ & _ & _ & Hg & Hs).
  constructor; simpl; [apply map_Forall_empty|rewrite map_size_empty; lia|done..].
Qed.

Lemma reachable_Inv s : reachable s -> Inv (worker s).
Proof.
  induction 1 as [c g sc l p d u w u' Hc Hn|[w u] s' _ IH Ht|w u u' _ IH].
  - unfold new in Hn. destruct (negb _); [done|].
    destruct (register_listeners _ _ _) as [[]]; [|done].
    injection Hn as <- _. by apply initial_worker_Inv.
  - pose proof (tick_V w u IH) as Hv. unfold wp in Hv. rewrite Ht in Hv. apply Hv.
  - done.
Qed.

Lemma tick_never_panics s : Inv (worker s) -> tick s <> Panicked.
Proof.
  destruct s as [w u]. intros Hi E. pose proof (tick_V w u Hi) as Hv. unfold wp in Hv.
  by rewrite E in Hv.
Qed.

Lemma run_for_reachable n : forall s s',
  reachable s -> run_for n s = Ret false s' -> reachable s'.
Proof.
  induction n as [|n IH]; intros s s' Hr H; simpl in H; [by injection H as <-|].
  unfold mbind, Handler_bind in H. destruct (tick s) as [[] s1|e s1|] eqn:E; try done.
  eapply IH; [by eapply reachable_tick|done].
Qed.

End Loop.
