(* ===== verification/Script.v ===== *)
(** * A scripted world

    A concrete environment for the runs that witness the theorems of the readiness
    worker: a clock that advances with each reading, sockets whose reads are
    scripted and whose writes take a bounded number of bytes, and logs of what was
    received and sent. *)

From S2P Require Import Prelude RustStd Config Http StaticFiles Runtime Token Handler Connection.

Local Open Scope N_scope.

Record Script := mkScript {
  time : N;
  reads : gmap N (list (io_result bytes));
  taken : gmap N bytes;
  written : gmap N bytes;
  finished : gset N;
  capacity : N;
  incoming : list (io_result N);
  events : list (io_result (list ReadyEvent));
  resolved : list (ConnectionId * io_result (list SocketAddr));
  stopping : bool;
}.

(** A script that only has a clock, some reads and a capacity for writes. *)
Definition script (t : N) (rs : gmap N (list (io_result bytes))) (cap : N) : Script := {|
  time := t; reads := rs; taken := ∅; written := ∅; finished := ∅;
  capacity := cap; incoming := []; events := []; resolved := []; stopping := false;
|}.

Definition append (s : N) (b : bytes) (m : gmap N bytes) : gmap N bytes :=
  <[s := default [] (m !! s) ++ b]> m.

(** The next scripted read of at most [n] bytes; without one the socket would
    block. *)
Definition script_read (s n : N) (w : Script) : io_result bytes * Script :=
  match reads w !! s with
  | Some (r :: rs) =>
    let r := match r with Ok b => Ok (take (N.to_nat n) b) | Err e => Err e end in
    (r, {| time := time w; reads := <[s := rs]> (reads w);
           taken := append s (match r with Ok b => b | Err _ => [] end) (taken w);
           written := written w;
           finished := if bool_decide (r = Ok []) then {[s]} ∪ finished w else finished w;
           capacity := capacity w; incoming := incoming w;
           events := events w; resolved := resolved w; stopping := stopping w |})
  | _ => (Err WouldBlock, w)
  end.

Definition script_write (s : N) (b : bytes) (w : Script) : io_result N * Script :=
  let n := N.min (capacity w) (len b) in
  (Ok n, {| time := time w; reads := reads w; taken := taken w;
            written := append s (take (N.to_nat n) b) (written w); finished := finished w;
            capacity := capacity w;
            incoming := incoming w; events := events w; resolved := resolved w;
            stopping := stopping w |}).

Definition script_now (w : Script) : N * Script :=
  (time w, {| time := time w + 1; reads := reads w; taken := taken w;
              written := written w; finished := finished w;
              capacity := capacity w; incoming := incoming w;
              events := events w; resolved := resolved w; stopping := stopping w |}).

Definition script_accepts (l : N) (w : Script) : list (io_result N) * Script :=
  (incoming w, {| time := time w; reads := reads w; taken := taken w;
                  written := written w; finished := finished w;
                  capacity := capacity w; incoming := [];
                  events := events w; resolved := resolved w; stopping := stopping w |}).

Definition script_poll (timeout : N) (w : Script) : io_result (list ReadyEvent) * Script :=
  match events w with
  | [] => (Ok [], w)
  | e :: es => (e, {| time := time w + timeout; reads := reads w; taken := taken w;
                      written := written w; finished := finished w;
                      capacity := capacity w; incoming := incoming w;
                      events := es; resolved := resolved w; stopping := stopping w |})
  end.

Definition script_drain (w : Script) :
    list (ConnectionId * io_result (list SocketAddr)) * Script :=
  (resolved w, {| time := time w; reads := reads w; taken := taken w;
                  written := written w; finished := finished w;
                  capacity := capacity w; incoming := incoming w;
                  events := events w; resolved := []; stopping := stopping w |}).

#[export] Instance script_env : Env := {
  World := Script; Socket := N; TcpListener := N; Ssl := unit; SslConfig := unit;
  Stream := list StaticChunk;
  now := script_now;
  accepts := script_accepts;
  sock_read := script_read;
  sock_reads s n w := let '(r, w) := script_read s n w in ([r], w);
  sock_write := script_write;
  take_error s w := (Ok None, w);
  connect a w := (Ok 1000, w);
  register s t i w := (Ok tt, w);
  reregister s t i w := (Ok tt, w);
  deregister s w := (Ok tt, w);
  register_listener l t w := (Ok tt, w);
  deregister_listener l w := (Ok tt, w);
  poll := script_poll;
  shutdown_is_requested w := (stopping w, w);
  resolver_resolve id a w := (Ok tt, w);
  resolver_drain := script_drain;
  ssl_new c w := (Ok tt, w);
  ssl_config_handshake_timeout c := 0;
  read_tls s k w := ((Err WouldBlock, tt), w);
  process_new_packets s := (Ok tt, tt);
  reader_read s n := (Err WouldBlock, tt);
  writer_write s b := (Err WouldBlock, tt);
  write_tls s k w := ((Err WouldBlock, tt), w);
  wants_write s := false;
  is_handshaking s := false;
  send_close_notify s := tt;
  spawn_stream a w := ([Finished], w);
  stream_try_next s w := (Ok (match s with c :: _ => c | [] => Finished end), w);
  vacant_key keys w := (next_key keys, w);
  drain_order ids w := (elements ids, w);
}.

Lemma script_read_len s n w b w' : script_read s n w = (Ok b, w') -> len b <= n.
Proof.
  unfold script_read. destruct (reads w !! s) as [[|[b'|e] rs]|]; try done.
  intros [= <- _]. rewrite len_take. lia.
Qed.

#[export] Instance script_env_ok : EnvOk script_env.
Proof.
  constructor; simpl.
  - apply script_read_len.
  - intros s n w rs w' b. destruct (script_read s n w) as [r w1] eqn:E. intros [= <- <-].
    intros E'%list_elem_of_singleton. subst r. by eapply script_read_len.
  - intros s b w n w' [= <- _]. lia.
  - done.
  - done.
  - intros keys w k w' [= <- _]. apply next_key_fresh.
  - by intros ids w l w' [= <- _].
Qed.

Lemma append_lookup s b m : default [] (append s b m !! s) = default [] (m !! s) ++ b.
Proof. unfold append. by rewrite lookup_insert_eq. Qed.

Lemma append_lookup_ne s s' b m : s' <> s -> default [] (append s b m !! s') = default [] (m !! s').
Proof. intros H. unfold append. by rewrite lookup_insert_ne. Qed.

Definition script_channel (s : N) (w : Script) : Channel :=
  mkChannel (default [] (written w !! s)) (default [] (taken w !! s))
    (bool_decide (s ∈ finished w)).

Lemma script_channel_read s n w r w' :
  script_read s n w = (r, w') ->
  script_channel s w' = channel_read r (script_channel s w).
Proof.
  unfold script_read, channel_read, script_channel.
  destruct (reads w !! s) as [[|r0 rs]|]; intros [= <- <-]; cbn;
    try by rewrite app_nil_r, orb_false_r.
  rewrite append_lookup. f_equal.
  destruct r0 as [b|e]; [|by rewrite orb_false_r].
  destruct (take (N.to_nat n) b) as [|x l].
  - rewrite (bool_decide_eq_true_2 (Ok [] = Ok [])), orb_true_r by done.
    apply bool_decide_eq_true_2. set_solver.
  - by rewrite (bool_decide_eq_false_2 (Ok (x :: l) = Ok [])), orb_false_r.
Qed.

Lemma script_channel_read_other s n w r w' s' :
  script_read s n w = (r, w') -> s' <> s -> script_channel s' w' = script_channel s' w.
Proof.
  unfold script_read, script_channel.
  destruct (reads w !! s) as [[|r0 rs]|]; intros [= _ <-] Hne; cbn; try done.
  rewrite append_lookup_ne by done. f_equal.
  apply bool_decide_ext. case_bool_decide as H; [clear H|done].
  rewrite elem_of_union, elem_of_singleton. tauto.
Qed.

#[export] Instance script_wire : Wire script_env.
Proof.
  refine {| wire := script_channel |}; simpl.
  - intros s b w r w' [= <- <-]. unfold script_channel, channel_write. cbn.
    by rewrite append_lookup.
  - intros s b w r w' s' [= _ <-] Hne. unfold script_channel. cbn.
    by rewrite append_lookup_ne.
  - apply script_channel_read.
  - apply script_channel_read_other.
  - intros s n w rs w'. destruct (script_read s n w) as [r w1] eqn:E. intros [= <- <-].
    by apply script_channel_read in E.
  - intros s n w rs w'. destruct (script_read s n w) as [r w1] eqn:E. intros [= <- <-]. by constructor.
  - intros s n w rs w' s'. destruct (script_read s n w) as [r w1] eqn:E. intros [= <- <-].
    by eapply script_channel_read_other.
  - by intros w t w' s [= <- <-].
  - by intros s' w r w' s [= <- <-].
  - by intros s' t i w r w' s [= <- <-].
  - by intros s' w r w' s [= <- <-].
Defined.

(** ** Numbered sockets

    The same world with a counter: [accept] and [connect] give their sockets the next
    numbers. *)

Definition Numbered : Type := Script * N.

Definition with_number {A} (f : Script -> A * Script) (w : Numbered) : A * Numbered :=
  let '(a, s) := f w.1 in (a, (s, w.2)).

Fixpoint number_sockets (n : N) (results : list (io_result N)) : list (io_result N) * N :=
  match results with
  | [] => ([], n)
  | Ok _ :: results => let '(rs, m) := number_sockets (n + 1) results in (Ok n :: rs, m)
  | Err e :: results => let '(rs, m) := number_sockets n results in (Err e :: rs, m)
  end.

Definition numbered_accepts (l : N) (w : Numbered) : list (io_result N) * Numbered :=
  let '(results, s) := script_accepts l w.1 in
  let '(results, n) := number_sockets w.2 results in (results, (s, n)).

Definition numbered_env : Env := {|
  World := Numbered; Socket := N; TcpListener := N; Ssl := unit; SslConfig := unit;
  Stream := list StaticChunk;
  now := with_number script_now;
  accepts := numbered_accepts;
  sock_read s n := with_number (script_read s n);
  sock_reads s n := with_number (@sock_reads script_env s n);
  sock_write s b := with_number (script_write s b);
  take_error s := with_number (@take_error script_env s);
  connect a w := (Ok w.2, (w.1, w.2 + 1));
  register s t i := with_number (@register script_env s t i);
  reregister s t i := with_number (@reregister script_env s t i);
  deregister s := with_number (@deregister script_env s);
  register_listener l t := with_number (@register_listener script_env l t);
  deregister_listener l := with_number (@deregister_listener script_env l);
  poll t := with_number (script_poll t);
  shutdown_is_requested := with_number (@shutdown_is_requested script_env);
  resolver_resolve id a := with_number (@resolver_resolve script_env id a);
  resolver_drain := with_number script_drain;
  ssl_new c := with_number (@ssl_new script_env c);
  ssl_config_handshake_timeout c := 0;
  read_tls s k := with_number (@read_tls script_env s k);
  process_new_packets s := (Ok tt, tt);
  reader_read s n := (Err WouldBlock, tt);
  writer_write s b := (Err WouldBlock, tt);
  write_tls s k := with_number (@write_tls script_env s k);
  wants_write s := false;
  is_handshaking s := false;
  send_close_notify s := tt;
  spawn_stream a := with_number (@spawn_stream script_env a);
  stream_try_next s := with_number (@stream_try_next script_env s);
  vacant_key keys := with_number (@vacant_key script_env keys);
  drain_order ids := with_number (@drain_order script_env ids);
|}.

Lemma with_number_inv {A} (f : Script -> A * Script) w a w' :
  with_number f w = (a, w') -> f w.1 = (a, w'.1) /\ w'.2 = w.2.
Proof. unfold with_number. destruct (f w.1) as [b s]. by intros [= <- <-]. Qed.

Lemma numbered_env_ok : EnvOk numbered_env.
Proof.
  constructor.
  - intros s n w b w' [H _]%with_number_inv. exact (@sock_read_len _ script_env_ok _ _ _ _ _ H).
  - intros s n w rs w' b [H _]%with_number_inv. exact (@sock_reads_len _ script_env_ok _ _ _ _ _ _ H).
  - intros s b w n w' [H _]%with_number_inv. exact (@sock_write_len _ script_env_ok _ _ _ _ _ H).
  - done.
  - done.
  - intros keys w k w' [H _]%with_number_inv. exact (@vacant_key_fresh _ script_env_ok _ _ _ _ H).
  - intros ids w l w' [H _]%with_number_inv. exact (@drain_order_all _ script_env_ok _ _ _ _ H).
Qed.

Definition numbered_wire : Wire numbered_env.
Proof.
  refine {| wire := fun (s : @Socket numbered_env) (w : @World numbered_env) => script_channel s w.1 |}.
  - intros s b w r w' [H _]%with_number_inv. exact (@wire_write _ script_wire _ _ _ _ _ H).
  - intros s b w r w' s' [H _]%with_number_inv. exact (@wire_write_other _ script_wire _ _ _ _ _ _ H).
  - intros s n w r w' [H _]%with_number_inv. exact (@wire_read _ script_wire _ _ _ _ _ H).
  - intros s n w r w' s' [H _]%with_number_inv. exact (@wire_read_other _ script_wire _ _ _ _ _ _ H).
  - intros s n w r w' [H _]%with_number_inv. exact (@wire_reads _ script_wire _ _ _ _ _ H).
  - intros s n w r w' [H _]%with_number_inv. exact (@reads_interrupted _ script_wire _ _ _ _ _ H).
  - intros s n w r w' s' [H _]%with_number_inv. exact (@wire_reads_other _ script_wire _ _ _ _ _ _ H).
  - intros w t w' s [H _]%with_number_inv. exact (@wire_now _ script_wire _ _ _ s H).
  - intros s' w r w' s [H _]%with_number_inv. exact (@wire_take_error _ script_wire _ _ _ _ s H).
  - intros s' t i w r w' s [H _]%with_number_inv.
    exact (@wire_reregister _ script_wire _ _ _ _ _ _ s H).
  - intros s' w r w' s [H _]%with_number_inv. exact (@wire_deregister _ script_wire _ _ _ _ s H).
Defined.
