(* ===== verification/ReadinessIO.v ===== *)
(** * The bytes the readiness worker moves

    What the worker reads, writes and forwards against the bytes on the wire
    ([Connection.Wire]): a request is assembled from its reads, a response reaches
    its client, and a forwarded request its upstream, in order and without loss. *)

From S2P Require Import Prelude RustStd Config Http Router LoadBalancer Proxy StaticFiles Runtime Token Handler Connection Readiness ReadinessInv ReadinessLoop Script.

Local Open Scope N_scope.

Section IO.

Context {env : Env} {fs : Filesystem} {mime : MimeGuess} {env_ok : EnvOk env} {wr : Wire env}.

Notation M := (Handler ReadinessWorker World).
Notation State := (State ReadinessWorker World).

(** ** Bytes on the wire *)

Lemma wp_update_slot k w u f c (Q : unit -> State -> Prop) R :
  connections w !! k = Some c ->
  Q tt (mkState (set_connections (<[k := f c]> (connections w)) w) u) ->
  wp (update k f) Q R (mkState w u).
Proof. intros Hc HQ. unfold update. apply wp_bind, (wp_index _ c), wp_modify; done. Qed.

(** The connection after [k] more bytes of its write buffer have gone out. *)
Definition progressed (k t : N) (c : Connection) : Connection :=
  set_last_progress t (set_write_buffer (write_buffer c) (write_offset c + k) c).

Definition unwritten (c : Connection) : bytes := drop (N.to_nat (write_offset c)) (write_buffer c).

Lemma progressed_0 c : progressed 0 (last_progress c) c = c.
Proof. unfold progressed. rewrite N.add_0_r. by destruct c. Qed.

Lemma progressed_progressed k t k' t' c :
  progressed k' t' (progressed k t c) = progressed (k + k') t' c.
Proof. unfold progressed. simpl. by rewrite N.add_assoc. Qed.

(** What a write of the connection [c] in [u] may have done. *)
Definition wrote (id : ConnectionId) (c : Connection) (u : World) (s : State) : Prop :=
  exists k t, k <= len (unwritten c) /\
    connections (worker s) !! slot id = Some (progressed k t c) /\
    sent (socket c) (world s) = sent (socket c) u ++ take (N.to_nat k) (unwritten c) /\
    (forall s', s' <> socket c -> wire s' (world s) = wire s' u).

(** The bytes a write takes. *)
Definition bytes_taken (r : io_result N) : N := match r with Ok n => n | Err _ => 0 end.

(** The writes of a loop on the socket [x], with their results: each is offered all that
    is left, and the only other call between two worlds is the clock. *)
Inductive socket_writes (x : Socket) : bytes -> World -> list (io_result N) -> World -> Prop :=
| writes_none rest u : socket_writes x rest u [] u
| writes_some rest u r u1 rs u2 : sock_write x rest u = (r, u1) ->
    socket_writes x (drop (N.to_nat (bytes_taken r)) rest) u1 rs u2 -> socket_writes x rest u (r :: rs) u2
| writes_clock rest u t u1 rs u2 : now u = (t, u1) ->
    socket_writes x rest u1 rs u2 -> socket_writes x rest u rs u2.

(** The results after which more is written. *)
Definition writes_on (r : io_result N) : Prop :=
  match r with Ok n => n <> 0 | Err e => e = Interrupted end.

(** The results that end the connection: nothing was taken, or the socket failed. *)
Definition write_fails (r : io_result N) : Prop :=
  match r with Ok n => n = 0 | Err e => e <> WouldBlock /\ e <> Interrupted end.

Definition write_blocks (r : io_result N) : Prop := r = Err WouldBlock.

(** Some results that go on, and then one that satisfies [P]. *)
Definition ends_with {A} (goes P : io_result A -> Prop) (rs : list (io_result A)) : Prop :=
  exists rs' r, rs = rs' ++ [r] /\ Forall goes rs' /\ P r.

Lemma ends_with_last {A} (goes P : io_result A -> Prop) r : P r -> ends_with goes P [r].
Proof. intros Hr. by exists [], r. Qed.

Lemma ends_with_cons {A} (goes P : io_result A -> Prop) r rs :
  goes r -> ends_with goes P rs -> ends_with goes P (r :: rs).
Proof. intros Hr (rs' & r' & -> & Hrs & HP). exists (r :: rs'), r'. split_and!; auto. Qed.

Lemma ends_with_app {A} (goes P : io_result A -> Prop) rs rs' :
  Forall goes rs -> ends_with goes P rs' -> ends_with goes P (rs ++ rs').
Proof. induction 1; simpl; [done|]. intros. by apply ends_with_cons; auto. Qed.

Lemma take_take_drop {A} (a b : nat) (l : list A) :
  take a l ++ take b (drop a l) = take (a + b) l.
Proof.
  revert l. induction a as [|a IH]; intros l; [done|]. destruct l as [|x l]; simpl.
  - by rewrite take_nil.
  - by rewrite IH.
Qed.

Lemma unwritten_progressed k t c : unwritten (progressed k t c) = drop (N.to_nat k) (unwritten c).
Proof.
  unfold unwritten, progressed. simpl. rewrite drop_drop. f_equal. lia.
Qed.

Lemma wrote_refl id c w u : connections w !! slot id = Some c -> wrote id c u (mkState w u).
Proof.
  intros Hc. exists 0, (last_progress c). rewrite progressed_0. split_and!; [lia|done| |done].
  simpl. by rewrite take_0, app_nil_r.
Qed.

Lemma wrote_trans id c k t u u1 s :
  k <= len (unwritten c) ->
  sent (socket c) u1 = sent (socket c) u ++ take (N.to_nat k) (unwritten c) ->
  (forall s', s' <> socket c -> wire s' u1 = wire s' u) ->
  wrote id (progressed k t c) u1 s -> wrote id c u s.
Proof.
  intros Hk Hs Ho (k' & t' & Hk' & Hc & Hs' & Ho'). rewrite unwritten_progressed in *.
  rewrite len_drop in Hk'. rewrite progressed_progressed in Hc.
  exists (k + k'), t'. split_and!; [lia|done| |].
  2: { intros s' Hne. rewrite (Ho' s' Hne). by apply Ho. }
  simpl in Hs'. rewrite Hs', Hs, <- app_assoc.
  f_equal. rewrite take_take_drop. f_equal. lia.
Qed.

Lemma wrote_world id c u u' s :
  sent (socket c) u' = sent (socket c) u ->
  (forall s', s' <> socket c -> wire s' u' = wire s' u) ->
  wrote id c u' s -> wrote id c u s.
Proof.
  intros E Ho (k & t & Hk & Hc & Hs & Ho'). exists k, t. rewrite <- E. split_and!; [done..|].
  intros s' Hne. rewrite (Ho' s' Hne). by apply Ho.
Qed.

(** The loop that writes to a plain connection returns, and what it has taken off
    the buffer is what the socket took; it only waits with bytes left. *)
Lemma write_loop_wrote n id : forall w u c,
  connections w !! slot id = Some c -> ssl c = None ->
  write_offset c <= len (write_buffer c) ->
  wp (write_loop n id)
    (fun r s => wrote id c u s /\
       (r = WriteBlocked -> exists c', connections (worker s) !! slot id = Some c' /\
          drained c' = false))
    (fun _ => False) (mkState w u).
Proof.
  induction n as [|n IH]; intros w u c Hc Hssl Ho; simpl;
    [apply wp_ret; by split; [apply wrote_refl|]|].
  assert (Hw : ssl_wants_write c = false) by (unfold ssl_wants_write; by rewrite Hssl).
  apply wp_bind, (wp_index _ c); [done|]. rewrite Hw, andb_true_r.
  destruct (drained c) eqn:Ed; [apply wp_ret; by split; [apply wrote_refl|]|].
  pose proof Ed as Hne. unfold drained in Hne. apply N.eqb_neq in Hne.
  destruct (_ <? _) eqn:El; [|apply N.ltb_ge in El; lia].
  apply wp_bind. unfold write_step. rewrite Hssl.
  apply wp_bind, wp_slice_from; [done|]. fold (unwritten c). apply wp_sys. intros r u1 Hr.
  pose proof (sent_write _ _ _ _ _ Hr) as Hs.
  pose proof (fun s' => wire_write_other _ _ _ _ _ s' Hr) as Ho1.
  assert (Hno : (r = Ok 0 \/ exists e, r = Err e) -> wrote id c u (mkState w u1)).
  { intros Hr'. apply (wrote_world _ _ _ u1); [|done|by apply wrote_refl]. rewrite Hs.
    destruct Hr' as [->|[e ->]]; by rewrite ?take_0, app_nil_r. }
  destruct r as [[|m]|[]];
    try (apply wp_ret; split; [apply Hno; eauto|intros _; simpl; eauto]).
  - clear Hno. pose proof (sock_write_len _ _ _ _ _ Hr) as Hm.
    apply wp_bind, wp_modify, wp_bind, (wp_update_slot _ _ _ _ c); [done|].
    apply wp_bind, wp_sys. intros t u2 Ht. pose proof (sent_now (socket c) _ _ _ Ht) as Hs2.
    apply wp_bind. eapply wp_update_slot; [simpl; apply lookup_insert_eq|].
    apply wp_bind. eapply wp_index; [simpl; apply lookup_insert_eq|].
    fold (progressed (N.pos m) t c).
    assert (Hfin : forall s, wrote id (progressed (N.pos m) t c) u2 s -> wrote id c u s).
    { intros s. apply wrote_trans; [done|by rewrite Hs2|].
      intros s' Hs'. rewrite (wire_now _ _ _ s' Ht). by apply Ho1. }
    destruct (_ && _).
    + apply wp_ret. split; [|done]. apply Hfin, wrote_refl. simpl. apply lookup_insert_eq.
    + eapply wp_mono; [apply IH| |done].
      * simpl. apply lookup_insert_eq.
      * done.
      * simpl. unfold unwritten in Hm. rewrite len_drop in Hm. lia.
      * intros r s [Hr' Hb]. by split; [apply Hfin|].
  - eapply wp_mono; [by apply IH| |done]. intros r s [Hr' Hb]. split; [|done].
    eapply wrote_world; [|exact Ho1|done]. by rewrite Hs, app_nil_r.
Qed.

(** Why the loop that writes to [c] stopped: the socket blocked, the socket failed, or
    everything is out or the budget [n] is used up. *)
Definition write_ended (n : nat) (id : ConnectionId) (c : Connection) (u : World)
    (outcome : ClientWrite) (s : State) : Prop :=
  exists rs, socket_writes (socket c) (unwritten c) u rs (world s) /\
    match outcome with
    | WriteBlocked => ends_with writes_on write_blocks rs
    | WriteFailed => ends_with writes_on write_fails rs
    | WriteStopped => Forall writes_on rs /\
        (length rs = n \/ exists c', connections (worker s) !! slot id = Some c' /\ drained c' = true)
    end.

Lemma write_ended_drained n id c w u :
  connections w !! slot id = Some c -> drained c = true ->
  write_ended n id c u WriteStopped (mkState w u).
Proof. intros Hc Hd. exists []. split; [constructor|]. split; [done|]. eauto. Qed.

Lemma write_ended_end n id c u r u1 o w :
  sock_write (socket c) (unwritten c) u = (r, u1) ->
  match o with WriteBlocked => write_blocks r | WriteFailed => write_fails r | _ => False end ->
  write_ended n id c u o (mkState w u1).
Proof.
  intros Hr Ho. exists [r]. split; [eapply writes_some; [done|constructor]|].
  destruct o; try done; by apply ends_with_last.
Qed.

Lemma write_ended_S n id c u r u1 o c' s :
  sock_write (socket c) (unwritten c) u = (r, u1) -> writes_on r -> socket c' = socket c ->
  unwritten c' = drop (N.to_nat (bytes_taken r)) (unwritten c) ->
  write_ended n id c' u1 o s -> write_ended (Datatypes.S n) id c u o s.
Proof.
  intros Hr Hon Es Eu (rs & Hrs & Ho). exists (r :: rs). split.
  - eapply writes_some; [done|]. by rewrite <- Eu, <- Es.
  - destruct o as [| |]; try by apply ends_with_cons.
    destruct Ho as [Hf Hend]. split; [by constructor|].
    destruct Hend as [Hn|Hd]; [left; simpl; lia|by right].
Qed.

Lemma write_ended_clock n id c u t u1 o s :
  now u = (t, u1) -> write_ended n id c u1 o s -> write_ended n id c u o s.
Proof. intros Ht (rs & Hrs & Ho). exists rs. split; [by eapply writes_clock|done]. Qed.

Lemma write_loop_ended n id : forall w u c,
  connections w !! slot id = Some c -> ssl c = None ->
  write_offset c <= len (write_buffer c) ->
  wp (write_loop n id) (write_ended n id c u) (fun _ => False) (mkState w u).
Proof.
  induction n as [|n IH]; intros w u c Hc Hssl Ho; simpl.
  { apply wp_ret. exists []. split; [constructor|]. by split; [|left]. }
  assert (Hw : ssl_wants_write c = false) by (unfold ssl_wants_write; by rewrite Hssl).
  apply wp_bind, (wp_index _ c); [done|]. rewrite Hw, andb_true_r.
  destruct (drained c) eqn:Ed; [by apply wp_ret, write_ended_drained|].
  pose proof Ed as Hne. unfold drained in Hne. apply N.eqb_neq in Hne.
  destruct (_ <? _) eqn:El; [|apply N.ltb_ge in El; lia].
  apply wp_bind. unfold write_step. rewrite Hssl.
  apply wp_bind, wp_slice_from; [done|]. fold (unwritten c). apply wp_sys. intros r u1 Hr.
  destruct r as [[|m]|[]]; try (apply wp_ret; eapply write_ended_end; done).
  - pose proof (sock_write_len _ _ _ _ _ Hr) as Hm.
    apply wp_bind, wp_modify, wp_bind, (wp_update_slot _ _ _ _ c); [done|].
    apply wp_bind, wp_sys. intros t u2 Ht.
    apply wp_bind. eapply wp_update_slot; [simpl; apply lookup_insert_eq|].
    apply wp_bind. eapply wp_index; [simpl; apply lookup_insert_eq|].
    fold (progressed (N.pos m) t c).
    assert (Hgo : forall o s, write_ended n id (progressed (N.pos m) t c) u2 o s ->
      write_ended (Datatypes.S n) id c u o s).
    { intros o s H. apply (write_ended_S n id c u _ u1 o (progressed (N.pos m) t c) s Hr);
        [done|done|apply unwritten_progressed|by eapply write_ended_clock]. }
    destruct (_ && _) eqn:Ed'; [apply andb_true_iff in Ed' as [Ed' _]|clear Ed'].
    + apply wp_ret, Hgo, write_ended_drained; [simpl; apply lookup_insert_eq|done].
    + eapply wp_mono; [apply IH|apply Hgo|done].
      * simpl. apply lookup_insert_eq.
      * done.
      * simpl. unfold unwritten in Hm. rewrite len_drop in Hm. lia.
  - eapply wp_mono; [by apply IH| |done]. intros o s.
    by apply (write_ended_S n id c u _ u1 o c s Hr).
Qed.

Lemma remove_connection_wire id w u :
  exists u', remove_connection id (mkState w u) = Ret tt (mkState (forget id w) u') /\
    forall s, wire s u' = wire s u.
Proof.
  unfold remove_connection, forget, is_current, gets, mbind, Handler_bind. simpl.
  destruct (is_current_in w id) eqn:E; [|by exists u]. simpl.
  apply is_current_in_Some in E as (c & Hc & _). unfold index, modify. simpl. rewrite Hc.
  destruct (detach_proxy c).1 as [p|]; simpl.
  - destruct (upstream_eof p); unfold sys; simpl.
    + destruct (deregister _ _) eqn:E1. simpl. eexists. split; [done|]. intros s.
      by eapply wire_deregister.
    + destruct (deregister (upstream p) u) as [r1 u1] eqn:E1. simpl.
      destruct (deregister (socket c) u1) as [r2 u2] eqn:E2. exists u2. split; [done|].
      intros s. by rewrite (wire_deregister _ _ _ _ _ E2), (wire_deregister _ _ _ _ _ E1).
  - unfold sys. simpl. destruct (deregister _ _) eqn:E1. simpl. eexists.
    split; [done|]. intros s. by eapply wire_deregister.
Qed.

Lemma is_current_in_occupied w id c :
  connections w !! slot id = Some c -> conn_generation c = generation id ->
  is_current_in w id = true.
Proof. intros Hc Hg. unfold is_current_in. rewrite Hc. by apply N.eqb_eq. Qed.

Lemma forget_lookup w id c :
  connections w !! slot id = Some c -> conn_generation c = generation id ->
  connections (forget id w) !! slot id = None.
Proof.
  intros Hc Hg. unfold forget. rewrite (is_current_in_occupied w id c) by done.
  simpl. apply lookup_delete_eq.
Qed.

(** What writing a response has done: the writes [rs] sent [k] bytes of what was left,
    and the connection is gone because that was all or the last write failed, or waits
    with the rest because the last write blocked or the budget is used up. *)
Definition delivering (id : ConnectionId) (c : Connection) (u : World) (s : State) : Prop :=
  exists rs k t u1, socket_writes (socket c) (unwritten c) u rs u1 /\
    sent (socket c) (world s) = sent (socket c) u1 /\
    k <= len (unwritten c) /\
    sent (socket c) (world s) = sent (socket c) u ++ take (N.to_nat k) (unwritten c) /\
    ((connections (worker s) !! slot id = None /\
      (k = len (unwritten c) \/ ends_with writes_on write_fails rs)) \/
     (connections (worker s) !! slot id = Some (progressed k t c) /\ k < len (unwritten c) /\
      (ends_with writes_on write_blocks rs \/
       Forall writes_on rs /\ length rs = MAX_WRITES_PER_EVENT))).

Lemma drained_progressed k t c :
  write_offset c <= len (write_buffer c) -> k <= len (unwritten c) ->
  drained (progressed k t c) = (k =? len (unwritten c)).
Proof.
  intros Ho Hk. unfold drained, progressed, unwritten in *. simpl. rewrite len_drop in *.
  destruct (N.eqb_spec (write_offset c + k) (len (write_buffer c)));
    destruct (N.eqb_spec k (len (write_buffer c) - N.of_nat (N.to_nat (write_offset c)))); lia.
Qed.

(** Removing the connection once the response is out, or after a write that failed. *)
Lemma wp_remove_wrote id c u w u1 rs k t R :
  conn_generation c = generation id ->
  connections w !! slot id = Some (progressed k t c) ->
  sent (socket c) u1 = sent (socket c) u ++ take (N.to_nat k) (unwritten c) ->
  socket_writes (socket c) (unwritten c) u rs u1 -> k <= len (unwritten c) ->
  (k = len (unwritten c) \/ ends_with writes_on write_fails rs) ->
  wp (remove_connection id) (fun _ => delivering id c u) R (mkState w u1).
Proof.
  intros Hg Hc Hs Hrs Hk Hend.
  destruct (remove_connection_wire id w u1) as (u2 & E & Hs2).
  eapply wp_of_Ret; [exact E|]. exists rs, k, t, u1. simpl in *.
  assert (Es : sent (socket c) u2 = sent (socket c) u1) by (unfold sent; by rewrite Hs2).
  rewrite Es. split_and!; [done..|]. left. split; [by eapply forget_lookup|done].
Qed.

(** C7. A response reaches its client: writing to a plain connection whose response
    is queued offers the socket what is left, in order and without loss, until all is
    out, the socket blocks or fails, or the writes of an event are used up. The
    connection is closed only when the last byte is out or the last write failed
    (took nothing, or an error other than blocking or interruption); it stays, with
    exactly the rest to write, only when the last write blocked or the budget of writes
    is used up. *)
Theorem response_delivered id w u c :
  connections w !! slot id = Some c -> conn_generation c = generation id ->
  ssl c = None -> phase c = WritingResponse -> static_stream c = None ->
  write_offset c <= len (write_buffer c) ->
  exists s', write_ready id (mkState w u) = Ret tt s' /\ delivering id c u s'.
Proof.
  intros Hc Hg Hssl Hp Hst Ho.
  cut (wp (write_ready id) (fun _ => delivering id c u) (fun _ => False) (mkState w u)).
  { intros ([] & s' & ?)%wp_total. by exists s'. }
  unfold write_ready. apply wp_bind, wp_gets.
  rewrite (is_current_in_occupied w id c) by done. cbn [negb].
  apply wp_bind, (wp_index _ c); [done|]. rewrite Hssl, (bool_decide_eq_false_2 _) by auto.
  rewrite andb_false_r. cbn [andb]. apply wp_bind.
  eapply wp_mono; [by apply wp_and; [apply write_loop_wrote|apply write_loop_ended]| |by intros ? []].
  intros r [w' u'] [[Hw Hb] (rs & Hrs & Hend)].
  destruct Hw as (k & t & Hk & Hck & Hs & _). simpl in *.
  pose proof (drained_progressed k t c Ho Hk) as Hd. destruct r.
  - apply wp_skip. destruct (Hb eq_refl) as (c' & Hc' & Hd'). rewrite Hck in Hc'.
    injection Hc' as <-. rewrite Hd in Hd'. apply N.eqb_neq in Hd'.
    exists rs, k, t, u'. split_and!; [done..|]. right. split_and!; [done|lia|by left].
  - eapply wp_remove_wrote; [done..|by right].
  - apply wp_bind, wp_gets. rewrite (is_current_in_occupied w' id _ Hck) by done. cbn [negb].
    apply wp_bind, (wp_index _ _ _ _ _ _ Hck).
    assert (ssl_wants_write (progressed k t c) = false) as ->
      by (unfold ssl_wants_write; simpl; by rewrite Hssl).
    unfold is_writing_response. simpl. rewrite Hp. simpl. rewrite andb_true_r, Hd.
    destruct (N.eqb_spec k (len (unwritten c))) as [Ek|Ek].
    + unfold response_written. apply wp_bind, (wp_index _ _ _ _ _ _ Hck). simpl. rewrite Hst.
      apply wp_bind, wp_modify, wp_bind, wp_gets. unfold proxy. simpl. rewrite Hp.
      unfold close_client. apply wp_bind, wp_gets.
      rewrite (is_current_in_occupied _ id (progressed k t c)) by done. cbn [negb].
      apply wp_bind. eapply wp_index; [exact Hck|]. simpl. rewrite Hssl.
      eapply wp_remove_wrote; [done..|by left].
    + apply wp_modify. exists rs, k, t, u'. split_and!; [done..|]. right.
      split_and!; [done|lia|]. right. destruct Hend as [Hf [Hn|(c' & Hc' & Hd')]]; [done|].
      rewrite Hck in Hc'. injection Hc' as <-. by rewrite Hd in Hd'.
Qed.

(** ** Assembling a request *)

(** A plain connection between two reads: the request head is still incomplete, or
    it is the head of what has been read and its body is still incomplete. *)
Definition assembling (c : Connection) : Prop :=
  ssl c = None /\
  match phase c with
  | Reading None => parse_request_head (read_buffer c) = Ok Incomplete
  | Reading (Some p) =>
    parse_request_head (read_buffer c) = Ok (Complete (pending_head p) (body_start p)) /\
    body_length (pending_head p) = Ok (body_end p - body_start p) /\
    body_start p <= body_end p /\ len (read_buffer c) < body_end p
  | _ => False
  end.

(** The reads of a loop on the socket [x], with their results; the only other call
    between two worlds is the clock. *)
Inductive socket_reads (x : Socket) : World -> list (io_result bytes) -> World -> Prop :=
| reads_none u : socket_reads x u [] u
| reads_some u r u1 rs u2 : sock_read x READ_BUFFER_SIZE u = (r, u1) ->
    socket_reads x u1 rs u2 -> socket_reads x u (r :: rs) u2
| reads_clock u t u1 rs u2 : now u = (t, u1) -> socket_reads x u1 rs u2 -> socket_reads x u rs u2.

(** The bytes of a read, and of several. *)
Definition bytes_read (r : io_result bytes) : bytes := match r with Ok b => b | Err _ => [] end.

Definition all_read (rs : list (io_result bytes)) : bytes := concat (map bytes_read rs).

(** The results after which more is read. *)
Definition reads_on (r : io_result bytes) : Prop :=
  match r with Ok b => b <> [] | Err e => e = Interrupted end.

(** The results that end the connection: the end of the stream, or a failed socket. *)
Definition read_closes (r : io_result bytes) : Prop :=
  match r with Ok b => b = [] | Err e => e <> WouldBlock /\ e <> Interrupted end.

Definition read_blocks (r : io_result bytes) : Prop := r = Err WouldBlock.

(** Why a read loop ended after the reads [rs]: it waits only when the socket blocked or
    the budget [n] is used up, and closes only when the client ended or failed. *)
Definition reads_until (n : nat) (rs : list (io_result bytes)) (o : ReadOutcome) : Prop :=
  match o with
  | ReadNothing => ends_with reads_on read_blocks rs \/ Forall reads_on rs /\ length rs = n
  | ReadClose => ends_with reads_on read_closes rs
  | _ => Forall reads_on rs
  end.

Lemma socket_reads_app x u rs u1 rs' u2 :
  socket_reads x u rs u1 -> socket_reads x u1 rs' u2 -> socket_reads x u (rs ++ rs') u2.
Proof.
  induction 1; simpl; [done| |]; intros; [eapply reads_some|eapply reads_clock]; eauto.
Qed.

Lemma socket_reads_one x u r u1 :
  sock_read x READ_BUFFER_SIZE u = (r, u1) -> socket_reads x u [r] u1.
Proof. intros H. eapply reads_some; [exact H|constructor]. Qed.

Lemma socket_reads_received x u rs u' :
  socket_reads x u rs u' -> received x u' = received x u ++ all_read rs.
Proof.
  induction 1 as [u|u r u1 rs u2 Hr _ IH|u t u1 rs u2 Ht _ IH].
  - by rewrite app_nil_r.
  - rewrite IH, (received_read _ _ _ _ _ Hr), <- app_assoc. done.
  - by rewrite IH, (received_now _ _ _ _ Ht).
Qed.

Lemma all_read_app rs rs' : all_read (rs ++ rs') = all_read rs ++ all_read rs'.
Proof. unfold all_read. by rewrite map_app, concat_app. Qed.

Lemma reads_until_app n m rs rs' o :
  Forall reads_on rs -> m = (length rs + n)%nat -> reads_until n rs' o ->
  reads_until m (rs ++ rs') o.
Proof.
  intros Hf -> Ho. destruct o; simpl in *; try by apply Forall_app.
  - destruct Ho as [Ho|[Hf' Hn]]; [left; by apply ends_with_app|right].
    rewrite length_app, Hn. split; [by apply Forall_app|done].
  - by apply ends_with_app.
Qed.

(** What a read loop makes of the buffer [b]: [limit] is the largest buffer. *)
Inductive assembled (limit group : N) (c' : Connection) (b : bytes) : ReadOutcome -> Prop :=
| assembled_nothing : assembling c' -> read_buffer c' = b -> assembled limit group c' b ReadNothing
| assembled_close : assembling c' -> read_buffer c' = b -> assembled limit group c' b ReadClose
| assembled_too_large : limit < len b ->
    assembled limit group c' b (ReadError 413 (str "request is too large"))
| assembled_error status message : examine_head limit b = HeadError status message ->
    assembled limit group c' b (ReadError status message)
| assembled_request head k n :
    parse_request_head b = Ok (Complete head k) -> body_length head = Ok n ->
    k + n <= len b -> len b <= limit ->
    assembled limit group c' b
      (ReadRequest head (take (N.to_nat n) (drop (N.to_nat k) b)) group).

(** What reading keeps of a connection. *)
Definition same_client (c c' : Connection) : Prop :=
  socket c' = socket c /\ ssl c' = ssl c /\ listener_group c' = listener_group c /\
  conn_generation c' = conn_generation c /\ static_stream c' = static_stream c /\
  write_buffer c' = write_buffer c /\ write_offset c' = write_offset c.

Lemma same_client_trans c1 c2 c3 : same_client c1 c2 -> same_client c2 c3 -> same_client c1 c3.
Proof. unfold same_client. intuition congruence. Qed.

(** A loop of at most [n] reads on the connection [c], which ends with [outcome]: the
    reads [rs] it made, why it stopped, and what it made of the bytes they gave. *)
Definition reading (n : nat) (id : ConnectionId) (c : Connection) (w : ReadinessWorker)
    (u : World) (outcome : ReadOutcome) (s : State) : Prop :=
  exists rs c', socket_reads (socket c) u rs (world s) /\ reads_until n rs outcome /\
    received (socket c) (world s) = received (socket c) u ++ all_read rs /\
    connections (worker s) !! slot id = Some c' /\ same_client c c' /\
    same_config w (worker s) /\
    assembled (max_read_buffer_size (limits w)) (listener_group c) c'
      (read_buffer c ++ all_read rs) outcome.

(** The head is looked for in the buffer that has grown to [b]. *)
Lemma examine_head_spec max b p :
  examine_head max b = HeadPending p ->
  parse_request_head b = Ok (Complete (pending_head p) (body_start p)) /\
  body_length (pending_head p) = Ok (body_end p - body_start p) /\
  body_start p <= body_end p.
Proof.
  unfold examine_head. destruct (parse_request_head b) as [[|head n]|]; try done.
  destruct (body_length head) as [k|[]] eqn:Hk; try done.
  destruct (checked_add 64 n k) as [e|] eqn:E; [|done].
  apply checked_add_Some in E as [-> _].
  destruct (_ <? _) eqn:E; [done|]. intros [= <-]. simpl.
  rewrite Hk. split_and!; [done|f_equal; lia|lia].
Qed.

Lemma examine_head_incomplete max b :
  examine_head max b = HeadIncomplete -> parse_request_head b = Ok Incomplete.
Proof.
  unfold examine_head. destruct (parse_request_head b) as [[|head n]|]; try done.
  destruct (body_length head) as [k|[]]; try done.
  destruct (checked_add 64 n k); [|done]. by destruct (_ <? _).
Qed.

(** A head that is complete stays so as the buffer grows. *)
Lemma parse_request_head_grows b r head k :
  parse_request_head b = Ok (Complete head k) ->
  parse_request_head (b ++ r) = Ok (Complete head k).
Proof.
  intros H. pose proof H as (i & Hi & _)%parse_request_head_Complete.
  by erewrite parse_request_head_app.
Qed.

(** [complete_request] takes the pending request exactly when its body is there. *)
Lemma complete_request_eq id c w u (Q : option ReadOutcome -> State -> Prop) R :
  connections w !! slot id = Some c ->
  match phase c with
  | Reading (Some p) =>
    body_start p <= body_end p /\
    (body_end p <= len (read_buffer c) ->
     forall w', same_config w w' ->
       connections w' !! slot id = Some (set_phase (Reading None) c) ->
       Q (Some (ReadRequest (pending_head p)
            (take (N.to_nat (body_end p - body_start p))
               (drop (N.to_nat (body_start p)) (read_buffer c))) (listener_group c)))
         (mkState w' u)) /\
    (len (read_buffer c) < body_end p -> Q None (mkState w u))
  | _ => Q None (mkState w u)
  end ->
  wp (complete_request id) Q R (mkState w u).
Proof.
  intros Hc H. unfold complete_request, pending_request. apply wp_bind, (wp_index _ c); [done|].
  destruct (phase c) as [[p|]| | |] eqn:Hp; try by apply wp_ret.
  destruct H as (Hb & Hdone & Hmore).
  destruct (body_end p <=? len (read_buffer c)) eqn:E;
    [apply N.leb_le in E|apply N.leb_gt in E; by apply wp_ret, Hmore].
  apply wp_bind, (wp_update_slot _ _ _ _ c); [done|].
  apply wp_bind, wp_slice_range; [lia|]. apply wp_bind, wp_modify, wp_ret, Hdone.
  - done.
  - by split_and!.
  - simpl. rewrite lookup_insert_eq. unfold take_pending_request. by rewrite Hp.
Qed.

Lemma reading_trans rs n m id c w u c1 w1 u1 o s :
  socket_reads (socket c) u rs u1 -> Forall reads_on rs -> m = (length rs + n)%nat ->
  same_client c c1 -> read_buffer c1 = read_buffer c ++ all_read rs -> same_config w w1 ->
  reading n id c1 w1 u1 o s -> reading m id c w u o s.
Proof.
  intros Hr Hf Hm Hsame Hb Hcfg (rs' & c' & Hr' & Hu & Hrec & Hc' & Hsame' & Hcfg' & Ha).
  pose proof Hsame as (Es & _ & El & _). pose proof Hcfg as (_ & _ & Elim & _).
  pose proof (socket_reads_received _ _ _ _ Hr) as Hrec0.
  exists (rs ++ rs'), c'. rewrite all_read_app. rewrite Es in Hr', Hrec.
  rewrite Hrec0, <- app_assoc in Hrec. rewrite Hb, <- app_assoc, Elim, El in Ha.
  split_and!; [by eapply socket_reads_app|by eapply reads_until_app|done|done| |
    by eapply same_config_trans|done].
  by eapply same_client_trans.
Qed.

(** The loop ends here, without another read. *)
Lemma reading_here n id c w u o :
  connections w !! slot id = Some c -> reads_until n [] o ->
  assembled (max_read_buffer_size (limits w)) (listener_group c) c (read_buffer c) o ->
  reading n id c w u o (mkState w u).
Proof.
  intros Hc Hu Ha. exists [], c. unfold all_read. simpl. rewrite !app_nil_r.
  split_and!; try done. constructor.
Qed.

(** The loop ends with a read that gave nothing. *)
Lemma reading_end n id c w u r u1 o :
  connections w !! slot id = Some c -> sock_read (socket c) READ_BUFFER_SIZE u = (r, u1) ->
  bytes_read r = [] -> reads_until n [r] o ->
  assembled (max_read_buffer_size (limits w)) (listener_group c) c (read_buffer c) o ->
  reading n id c w u o (mkState w u1).
Proof.
  intros Hc Hr E Hu Ha. exists [r], c.
  pose proof (socket_reads_one _ _ _ _ Hr) as Hrs.
  pose proof (socket_reads_received _ _ _ _ Hrs) as Hrec.
  assert (Ea : all_read [r] = []) by (unfold all_read; simpl; by rewrite E).
  split_and!; try done. by rewrite Ea, app_nil_r.
Qed.

(** A change of the phase alone. *)
Lemma reading_same n id c w u c1 w1 o s :
  same_client c c1 -> read_buffer c1 = read_buffer c -> same_config w w1 ->
  reading n id c1 w1 u o s -> reading n id c w u o s.
Proof.
  intros Hs Hb Hcfg. apply (reading_trans [] n n); try done; [constructor|].
  unfold all_read. simpl. by rewrite app_nil_r.
Qed.

(** The end of a read that got bytes, on the connection with the longer buffer:
    the request is delivered, or the loop goes on. *)
Lemma complete_or_continue n id c w u (k : M ReadOutcome) (Q : ReadOutcome -> State -> Prop) :
  connections w !! slot id = Some c -> ssl c = None ->
  len (read_buffer c) <= max_read_buffer_size (limits w) ->
  match phase c with
  | Reading None => parse_request_head (read_buffer c) = Ok Incomplete
  | Reading (Some p) =>
    parse_request_head (read_buffer c) = Ok (Complete (pending_head p) (body_start p)) /\
    body_length (pending_head p) = Ok (body_end p - body_start p) /\
    body_start p <= body_end p
  | _ => False
  end ->
  (forall o s, reading n id c w u o s -> Q o s) ->
  (assembling c -> wp k Q (fun _ => False) (mkState w u)) ->
  wp (done ← complete_request id;
      match done with Some outcome => mret outcome | None => k end)
    Q (fun _ => False) (mkState w u).
Proof.
  intros Hc Hssl Hlen Hph HQ Hk. apply wp_bind, (complete_request_eq id c); [done|].
  destruct (phase c) as [[p|]| | |] eqn:Hp; try done.
  - destruct Hph as (Hparse & Hbl & Hle). split_and!; [done| |].
    + intros Hend w' Hcfg Hc'. apply wp_ret, HQ. exists [], (set_phase (Reading None) c).
      unfold all_read. simpl. rewrite !app_nil_r. split_and!; try done; [constructor|].
      apply assembled_request; [done..|lia|done].
    + intros Hlt. apply Hk. split; [done|]. by rewrite Hp.
  - apply Hk. split; [done|]. by rewrite Hp.
Qed.

(** The connection with the bytes [b] appended at time [t]. *)
Definition received_more (t : N) (b : bytes) (c : Connection) : Connection :=
  set_last_progress t (set_read_buffer (read_buffer c ++ b) c).

Lemma received_more_same t b c : same_client c (received_more t b c).
Proof. by split_and!. Qed.

(** After a read that fits: the head is examined if it was still open, and the
    request is delivered or the loop [k] goes on. *)
Lemma examine_continues n id c t b w u (k : M ReadOutcome) :
  assembling c -> len (read_buffer c) + len b <= max_read_buffer_size (limits w) ->
  let c1 := received_more t b c in
  connections w !! slot id = Some c1 ->
  (forall w' c2, same_config w w' -> connections w' !! slot id = Some c2 ->
     same_client c1 c2 -> read_buffer c2 = read_buffer c1 -> assembling c2 ->
     wp k (reading n id c1 w u) (fun _ => False) (mkState w' u)) ->
  wp (match
        match pending_request c1 with
        | None => examine_head (max_read_buffer_size (limits w)) (read_buffer c1)
        | Some _ => HeadIncomplete
        end with
      | HeadError status message => mret (ReadError status message)
      | HeadPending p =>
        update (slot id) (set_pending_request p);;
        done ← complete_request id;
        match done with Some outcome => mret outcome | None => k end
      | HeadIncomplete =>
        done ← complete_request id;
        match done with Some outcome => mret outcome | None => k end
      end)
    (reading n id c1 w u) (fun _ => False) (mkState w u).
Proof.
  intros [Hssl Hph] Hmax c1 Hc1 Hk.
  assert (Hlen : len (read_buffer c1) <= max_read_buffer_size (limits w))
    by (simpl; by rewrite len_app).
  unfold pending_request. change (phase c1) with (phase c).
  destruct (phase c) as [[p|]| | |] eqn:Hp; try done.
  - destruct Hph as (Hparse & Hbl & Hle & _).
    apply (complete_or_continue n id c1); [done..| |done|by intros; eapply Hk].
    change (phase c1) with (phase c). rewrite Hp.
    split_and!; [by apply parse_request_head_grows|done|done].
  - destruct (examine_head _ _) as [|st m|p] eqn:Eh.
    + apply examine_head_incomplete in Eh.
      apply (complete_or_continue n id c1); [done..| |done|by intros; eapply Hk].
      change (phase c1) with (phase c). by rewrite Hp.
    + apply wp_ret, reading_here; [done|by constructor|by apply assembled_error].
    + pose proof (examine_head_spec _ _ _ Eh) as (Hparse & Hbl & Hle).
      apply wp_bind, (wp_update_slot _ _ _ _ c1); [done|].
      assert (E : set_pending_request p c1 = set_phase (Reading (Some p)) c1).
      { unfold set_pending_request. change (phase c1) with (phase c). by rewrite Hp. }
      rewrite E. set (c2 := set_phase (Reading (Some p)) c1) in *.
      set (w' := set_connections _ w).
      assert (Hc2 : connections w' !! slot id = Some c2) by (simpl; apply lookup_insert_eq).
      apply (complete_or_continue n id c2 w' u); [done..|by split_and!| |].
      * intros o s. by apply (reading_same n id c1 w u c2 w').
      * intros Has. by apply (Hk w' c2).
Qed.

Lemma read_loop_reads n id : forall w u c,
  connections w !! slot id = Some c -> assembling c ->
  wp (read_loop n id) (reading n id c w u) (fun _ => False) (mkState w u).
Proof.
  induction n as [|n IH]; intros w u c Hc Has; simpl.
  { apply wp_ret, reading_here; [done|by right|by constructor]. }
  pose proof Has as [Hssl Hph].
  apply wp_bind, (wp_index _ c); [done|]. apply wp_bind. unfold read_step. rewrite Hssl.
  apply wp_sys. intros r u1 Hr. pose proof (socket_reads_one _ _ _ _ Hr) as Hrs.
  destruct r as [[|b0 b]|e].
  - rewrite (decide_False (P := None <> None)) by auto.
    apply wp_ret. eapply reading_end; [done..| |by constructor]. by apply ends_with_last.
  - apply wp_bind, wp_modify, wp_bind, wp_gets.
    set (b' := b0 :: b) in *. change (limits (update_metrics _ w)) with (limits w).
    assert (Eb : all_read [Ok b'] = b') by (unfold all_read; simpl; by rewrite app_nil_r).
    destruct (_ <? _) eqn:Emax.
    + apply N.ltb_lt in Emax. apply wp_ret. exists [Ok b'], c.
      pose proof (socket_reads_received _ _ _ _ Hrs) as Hrec. rewrite Eb in *.
      split_and!; try done; [by apply Forall_singleton|].
      apply assembled_too_large. by rewrite len_app.
    + apply N.ltb_ge in Emax.
      apply wp_bind, (wp_update_slot _ _ _ _ c); [done|].
      apply wp_bind, wp_sys. intros t u2 Ht.
      apply wp_bind. eapply wp_update_slot; [apply lookup_insert_eq|].
      apply wp_bind. eapply wp_index; [apply lookup_insert_eq|].
      fold (received_more t b' c). set (c1 := received_more t b' c). set (w1 := set_connections _ _).
      assert (Hc1 : connections w1 !! slot id = Some c1) by (simpl; apply lookup_insert_eq).
      eapply wp_mono; [apply (examine_continues n id c t b' w1 u2 (read_loop n id)); [done..|]| |done].
      * intros w' c2 Hcfg Hc2 Hsame Hb Has2. eapply wp_mono; [by apply (IH w' u2 c2)| |done].
        intros o s. by apply (reading_same n id c1 w1 u2 c2 w').
      * intros o s. apply (reading_trans [Ok b'] n (Datatypes.S n) id c w u c1 w1 u2);
          [|by apply Forall_singleton|done|done|by rewrite Eb|done].
        eapply reads_some; [exact Hr|]. eapply reads_clock; [exact Ht|constructor].
  - destruct e; try (apply wp_ret; eapply reading_end; [done..| |by constructor];
      (left; by apply ends_with_last) || by apply ends_with_last).
    eapply wp_mono; [by apply (IH w u1 c)| |done]. intros o s.
    apply (reading_trans [Err Interrupted] n (Datatypes.S n) id c w u c w u1);
      [done|by apply Forall_singleton|done|done|by rewrite app_nil_r|done].
Qed.

(** C6. A request is assembled from its fragments, however they arrive: a loop of at most
    [n] reads returns, and what it makes of a plain connection is what the bytes received
    so far prescribe. It waits, with exactly those bytes and the request incomplete, only
    when the socket blocked or the [n] reads are used up, and closes only when the client
    ended its stream or the socket failed; a read that is interrupted or gives bytes is
    followed by another unless the request is then complete, which is delivered with the
    head parsed from the bytes and the body they announce, or is answered with an error. *)
Theorem request_assembled n id w u c :
  connections w !! slot id = Some c -> assembling c ->
  exists outcome s', read_loop n id (mkState w u) = Ret outcome s' /\
    reading n id c w u outcome s'.
Proof. intros Hc Has. by apply wp_total, read_loop_reads. Qed.

(** ** Answering *)

Lemma client_token id : id_wf id -> exists t, token id Client = Ok t.
Proof.
  intros Hw. exists (packed id Client). apply token_ok. split_and!; [done..|].
  destruct Hw as [Hs Hg]. unfold packed, role_bit. change CONTROL_TOKEN with (2 ^ 64 - 1). lia.
Qed.

(** The response that is written in the place of one that is too large. *)
Definition fitting (w : ReadinessWorker) (response : bytes) : bytes :=
  if max_write_buffer_size (limits w) <? len response
  then response_bytes 500 (str "response is too large") else response.

(** Queuing a response in the world [u]: the client is registered for writing. If the
    poller accepts, the response is the write buffer of the connection, nothing of it
    written yet, and nothing else has happened; the connection is dropped only if the
    poller refuses. *)
Definition queued (id : ConnectionId) (c : Connection) (response : bytes) (u : World)
    (s : State) : Prop :=
  exists t, token id Client = Ok t /\
    match reregister (socket c) t WRITABLE u with
    | (Ok _, u') => world s = u' /\
        connections (worker s) !! slot id = Some (set_write_buffer response 0 (begin_response c))
    | (Err _, u') => connections (worker s) !! slot id = None /\
        world s = snd (deregister (socket c) u')
    end.

Lemma remove_connection_world id w u c :
  connections w !! slot id = Some c -> conn_generation c = generation id ->
  phase c = WritingResponse ->
  remove_connection id (mkState w u) =
    Ret tt (mkState (forget id w) (snd (deregister (socket c) u))).
Proof.
  intros Hc Hg Hp. unfold remove_connection, forget, is_current, gets, mbind, Handler_bind.
  simpl. rewrite (is_current_in_occupied w id c) by done. simpl.
  unfold index, modify. simpl. rewrite Hc. simpl. unfold detach_proxy. rewrite Hp.
  unfold sys. simpl. by destruct (deregister _ _).
Qed.

(** The two ends of queuing a response, [w'] being the worker with the response queued. *)
Lemma wp_queue_response id w u c response (Q : unit -> State -> Prop) R :
  id_wf id -> connections w !! slot id = Some c -> conn_generation c = generation id ->
  (forall t r u' w', token id Client = Ok t -> reregister (socket c) t WRITABLE u = (r, u') ->
     connections w' !! slot id =
       Some (set_write_buffer (fitting w response) 0 (begin_response c)) ->
     match r with
     | Ok _ => Q tt (mkState w' u')
     | Err _ => forall s, remove_connection id (mkState w' u') = Ret tt s ->
         connections (worker s) !! slot id = None -> Q tt s
     end) ->
  wp (queue_response id response) Q R (mkState w u).
Proof.
  intros Hw Hc Hg HQ. unfold queue_response. apply wp_bind, wp_gets.
  rewrite (is_current_in_occupied w id c) by done. cbn [negb].
  apply wp_bind, wp_gets. fold (fitting w response).
  apply wp_bind, (wp_update_slot _ _ _ _ c); [done|].
  apply wp_bind. eapply wp_index; [apply lookup_insert_eq|].
  destruct (client_token id Hw) as [t Ht]. apply wp_bind, wp_lift; [|by rewrite Ht].
  intros t' Ht'. apply wp_bind, wp_sys. intros r u' Hr.
  match goal with |- wp _ _ _ (mkState ?w' _) =>
    specialize (HQ t' r u' w' Ht' Hr (lookup_insert_eq _ _ _)); destruct r as [[]|e];
    [by apply wp_skip|];
    destruct (remove_connection_eq id w' u') as [u2 E];
    eapply wp_of_Ret; [exact E|]; apply (HQ _ E);
    apply (forget_lookup w' id (set_write_buffer (fitting w response) 0 (begin_response c)))
  end; [apply lookup_insert_eq|done].
Qed.

Lemma queue_response_queued id w u c response (Q : unit -> State -> Prop) R :
  id_wf id -> connections w !! slot id = Some c -> conn_generation c = generation id ->
  (forall s, queued id c (fitting w response) u s -> Q tt s) ->
  wp (queue_response id response) Q R (mkState w u).
Proof.
  intros Hw Hc Hg HQ. apply (wp_queue_response id w u c); [done..|].
  intros t r u' w' Ht Hr Hc'. unfold queued in HQ. destruct r as [x|e].
  - apply HQ. exists t. by rewrite Hr.
  - intros s Hs Hn. apply HQ. exists t. rewrite Hr. split_and!; [done..|].
    by rewrite (remove_connection_world id w' u' _ Hc') in Hs by done; injection Hs as <-.
Qed.

(** What the router prescribes without touching a file or an upstream. *)
Definition fixed_response (server : Server) (target : bytes) : option bytes :=
  match route server target with
  | Some (Response status body) => Some (response_bytes status body)
  | None => Some (response_bytes 404 (str "not found"))
  | _ => None
  end.

Lemma respond_fixed id w u c g listener server request body response :
  Inv w -> connections w !! slot id = Some c -> conn_generation c = generation id ->
  listeners w !! N.to_nat g = Some listener ->
  servers w !! N.to_nat (select_server (l_server_indices listener)
    (l_default_server listener) request (servers w)) = Some server ->
  fixed_response server (target request) = Some response ->
  exists s', respond id request body g (mkState w u) = Ret true s' /\
    queued id c (fitting w response) u s'.
Proof.
  intros Hi Hc Hg Hl Hs Hr.
  assert (Hw : id_wf id).
  { pose proof (inv_connections w Hi _ _ Hc) as [Hw _]. rewrite Hg in Hw. by destruct id. }
  cut (wp (respond id request body g)
         (fun b s => b = true /\ queued id c (fitting w response) u s) (fun _ => False)
         (mkState w u)).
  { intros (b & s' & E & -> & Hq)%wp_total. by exists s'. }
  unfold respond. apply wp_bind, wp_gets, wp_bind, wp_gets. rewrite Hl, Hs.
  unfold fixed_response in Hr.
  destruct (route server (target request)) as [[]|] eqn:Er; try done; injection Hr as <-;
    apply wp_bind; unfold response_for; rewrite Hs, Er;
    apply (queue_response_queued id w u c); try done; intros s Hq; by apply wp_ret.
Qed.

(** A request for a configured response, or for a target no location matches,
    is answered: the response the router prescribes (404 without a match, 500 in
    the place of one over the size limit) becomes the write buffer of the
    connection, which starts writing it, unless the poller refuses the socket. *)
Theorem request_answered id w u c g listener server request body response :
  Inv w -> connections w !! slot id = Some c -> conn_generation c = generation id ->
  listeners w !! N.to_nat g = Some listener ->
  servers w !! N.to_nat (select_server (l_server_indices listener)
    (l_default_server listener) request (servers w)) = Some server ->
  fixed_response server (target request) = Some response ->
  exists s', respond id request body g (mkState w u) = Ret true s' /\
    queued id c (fitting w response) u s'.
Proof. apply respond_fixed. Qed.

(** ** The request on its way to the upstream *)

Definition unsent (p : ProxyState) : bytes :=
  drop (N.to_nat (request_offset p)) (request_buffer p).

(** [k] more bytes of the request have gone out. *)
Definition forwarded (id : ConnectionId) (c : Connection) (p : ProxyState) (u : World)
    (k : N) (s : State) : Prop :=
  k <= len (unsent p) /\
  sent (upstream p) (world s) = sent (upstream p) u ++ take (N.to_nat k) (unsent p) /\
  exists t, connections (worker s) !! slot id =
    Some (set_phase (Proxying (request_sent k t p)) c).

Definition upstream_written (id : ConnectionId) (c : Connection) (p : ProxyState) (u : World)
    (outcome : UpstreamWrite) (s : State) : Prop :=
  exists k, forwarded id c p u k s /\
    match outcome with
    | UpstreamFinished _ => k = len (unsent p)
    | UpstreamBlocked | UpstreamBudget _ => k < len (unsent p)
    | UpstreamFailed _ => True
    end.

Lemma request_sent_0 p : request_sent 0 (phase_progress_at p) p = p.
Proof. unfold request_sent. rewrite N.add_0_r. by destruct p. Qed.

Lemma forwarded_0 id c p w u :
  connections w !! slot id = Some c -> phase c = Proxying p -> forwarded id c p u 0 (mkState w u).
Proof.
  intros Hc Hp. split_and!; [lia|by rewrite take_0, app_nil_r|].
  exists (phase_progress_at p). rewrite request_sent_0. simpl. rewrite Hc, <- Hp.
  by destruct c.
Qed.

Lemma request_done_unsent p :
  request_offset p <= len (request_buffer p) ->
  request_done p = (len (unsent p) =? 0).
Proof.
  intros Ho. unfold request_done, unsent. rewrite len_drop, N2Nat.id.
  destruct (N.eqb_spec (request_offset p) (len (request_buffer p)));
    destruct (N.eqb_spec (len (request_buffer p) - request_offset p) 0); lia.
Qed.

Lemma upstream_written_trans id c p k t u u1 o s :
  k <= len (unsent p) ->
  sent (upstream p) u1 = sent (upstream p) u ++ take (N.to_nat k) (unsent p) ->
  upstream_written id (set_phase (Proxying (request_sent k t p)) c) (request_sent k t p) u1 o s ->
  upstream_written id c p u o s.
Proof.
  intros Hk Hs (k' & (Hk' & Hs' & t' & Hc') & Ho).
  assert (E : unsent (request_sent k t p) = drop (N.to_nat k) (unsent p)).
  { unfold unsent. simpl. rewrite drop_drop. f_equal. lia. }
  rewrite E, len_drop, N2Nat.id in *. exists (k + k'). split.
  - split_and!; [lia| |].
    + simpl in Hs'. rewrite Hs', Hs, <- app_assoc, take_take_drop. do 2 f_equal. lia.
    + exists t'. rewrite Hc'. unfold request_sent, set_phase. simpl. by rewrite N.add_assoc.
  - destruct o; lia || done.
Qed.

Lemma upstream_written_world id c p u u1 o s :
  sent (upstream p) u1 = sent (upstream p) u ->
  upstream_written id c p u1 o s -> upstream_written id c p u o s.
Proof.
  intros E (k & (Hk & Hs & Ht) & Ho). exists k. split; [|done].
  split_and!; [done|by rewrite <- E|done].
Qed.

(** Nothing more has gone out. *)
Lemma upstream_written_here id c p w u o :
  connections w !! slot id = Some c -> phase c = Proxying p ->
  match o with
  | UpstreamFinished _ => len (unsent p) = 0
  | UpstreamFailed _ => True
  | _ => len (unsent p) <> 0
  end -> upstream_written id c p u o (mkState w u).
Proof. intros Hc Hp Ho. exists 0. split; [by apply forwarded_0|]. destruct o; lia || done. Qed.

Lemma upstream_write_loop_written n id : forall made w u c p,
  connections w !! slot id = Some c -> phase c = Proxying p ->
  request_offset p <= len (request_buffer p) ->
  wp (upstream_write_loop n id made) (upstream_written id c p u) (fun _ => False) (mkState w u).
Proof.
  induction n as [|n IH]; intros made w u c p Hc Hp Ho; simpl;
    apply wp_bind, (wp_index_proxy _ c p); try done;
    rewrite (request_done_unsent p Ho); destruct (len (unsent p) =? 0) eqn:Ed;
    [apply N.eqb_eq in Ed|apply N.eqb_neq in Ed|apply N.eqb_eq in Ed|apply N.eqb_neq in Ed];
    try (by apply wp_ret, upstream_written_here).
  apply wp_bind, wp_slice_from; [done|]. fold (unsent p). apply wp_bind, wp_sys. intros r u1 Hr.
  pose proof (sent_write _ _ _ _ _ Hr) as Hs.
  assert (Hno : (r = Ok 0 \/ exists e, r = Err e) -> sent (upstream p) u1 = sent (upstream p) u).
  { intros Hr'. rewrite Hs. by destruct Hr' as [->|[e ->]]; rewrite ?take_0, app_nil_r. }
  destruct r as [[|m]|e].
  - apply wp_ret, (upstream_written_world _ _ _ _ u1); [by apply Hno; left|].
    by apply upstream_written_here.
  - clear Hno. pose proof (sock_write_len _ _ _ _ _ Hr) as Hm.
    apply wp_bind, wp_sys. intros t u2 Ht. pose proof (sent_now (upstream p) _ _ _ Ht) as Hs2.
    apply wp_bind, (wp_update_slot _ _ _ _ c); [done|].
    assert (E : update_proxy (request_sent (N.pos m) t) c =
      set_phase (Proxying (request_sent (N.pos m) t p)) c)
      by (unfold update_proxy; by rewrite Hp).
    rewrite E. eapply wp_mono; [apply IH| |done].
    + apply lookup_insert_eq.
    + done.
    + simpl. unfold unsent in Hm. rewrite len_drop in Hm. lia.
    + intros o s. apply upstream_written_trans; [done|]. by rewrite Hs2.
  - assert (Hs' : sent (upstream p) u1 = sent (upstream p) u) by (apply Hno; eauto).
    destruct e; try (apply wp_ret, (upstream_written_world _ _ _ _ u1);
      [done|by apply upstream_written_here]).
    eapply wp_mono; [by apply IH| |done]. intros o s. by apply upstream_written_world.
Qed.

(** The request reaches the upstream: the loop that forwards it returns; the
    upstream's socket has taken a prefix of what was left, in order and without
    loss, the connection holds exactly the rest, and the loop reports the end
    when and only when nothing is left (other outcomes being an error or a later
    retry). *)
Theorem request_forwarded n id made w u c p :
  connections w !! slot id = Some c -> phase c = Proxying p ->
  request_offset p <= len (request_buffer p) ->
  exists outcome s', upstream_write_loop n id made (mkState w u) = Ret outcome s' /\
    upstream_written id c p u outcome s'.
Proof. intros. by apply wp_total, upstream_write_loop_written. Qed.

End IO.

(** ** Runs *)

#[local] Instance script_fs : Filesystem := example_fs.
#[local] Instance script_mime : MimeGuess := example_mime.

Definition script_limits : WorkerLimits := {|
  max_connections := 4; max_read_buffer_size := 1000; max_write_buffer_size := 1000;
  idle_timeout := 1000000000; drain_timeout := 1000000000;
|}.

Definition script_listener : RegisteredListener := mkRegisteredListener (env := script_env) 5 0 [0] None.

(** A worker with one listener and the given connections. *)
Definition script_worker (ss : list Server) (cs : gmap N Connection) : ReadinessWorker :=
  set_generations [7; 3]
    (set_connections cs
       (initial_worker [script_listener] ss script_limits
          (mkProxyLimits 10 10 10) (mkDnsLimits 1 10) ∅)).

(** The client on socket 8, in slot 0 with generation 7. *)
Definition script_client : Connection := new_connection 8 0 7 None 0.

Definition script_id : ConnectionId := mkConnectionId 0 7.

(** The states of a scripted run. *)
Definition ScriptState : Type := State (ReadinessWorker (env := script_env)) Script.

(** What a scripted socket has taken. *)
Definition script_sent (s : N) (st : ScriptState) : bytes := @sent script_env script_wire s (world st).

(** The client with the response [hello] queued. *)
Definition script_responding : Connection :=
  set_write_buffer (str "hello") 0 (begin_response script_client).

Lemma response_delivered_witness :
  exists s', write_ready script_id
    (mkState (script_worker [] {[0 := script_responding]}) (script 0 ∅ 2)) = Ret tt s' /\
    bool_decide (size (connections (worker s')) = 0%nat)
      && bool_decide (script_sent 8 s' = str "hello") = true.
Proof.
  destruct (response_delivered script_id (script_worker [] {[0 := script_responding]})
    (script 0 ∅ 2) script_responding) as (s' & E & _); [done..|].
  exists s'. split; [exact E|].
  refine (returns_Ret _ (fun _ s => bool_decide (size (connections (worker s)) = 0%nat)
    && bool_decide (script_sent 8 s = str "hello")) _ _ _ E).
  by vm_compute.
Defined.

(** A POST in two reads, the body cut in the middle. *)
Definition script_reads : gmap N (list (io_result bytes)) :=
  {[8 := [Ok (take 59 example_request); Err Interrupted; Ok (drop 59 example_request)]]}.

Lemma request_assembled_witness :
  exists o s', read_loop 16 script_id
    (mkState (script_worker [] {[0 := script_client]}) (script 0 script_reads 2)) = Ret o s' /\
    (match o with ReadRequest head body g => bool_decide (body = str "{}") | _ => false end) = true.
Proof.
  destruct (request_assembled 16 script_id (script_worker [] {[0 := script_client]})
    (script 0 script_reads 2) script_client) as (o & s' & E & _); [done|by split|].
  exists o, s'. split; [exact E|].
  refine (returns_Ret _ (fun o _ => match o with
    | ReadRequest head body g => bool_decide (body = str "{}") | _ => false end) _ _ _ E).
  by vm_compute.
Defined.

Definition script_server : Server := {|
  server_name := None;
  locations := [{| matcher := Exact (str "/hi"); action := Response 200 (str "hey") |}];
  listen := SocketAddrV4 0 8089; Config.ssl := None;
|}.

Definition script_request : RequestHead :=
  {| method := str "GET"; target := str "/hi"; version := Http11; headers := [] |}.

Lemma script_worker_Inv : Inv (script_worker [script_server] {[0 := script_client]}).
Proof.
  constructor; simpl; [|vm_compute; discriminate|by apply map_Forall_empty|repeat constructor; done|done].
  apply map_Forall_singleton. unfold conn_ok, id_wf. split_and!; vm_compute; done.
Qed.

Lemma request_answered_witness :
  exists s', respond script_id script_request [] 0
    (mkState (script_worker [script_server] {[0 := script_client]}) (script 0 ∅ 2)) = Ret true s' /\
    queued script_id script_client (response_bytes 200 (str "hey")) (script 0 ∅ 2) s'.
Proof.
  apply (request_answered script_id (script_worker [script_server] {[0 := script_client]})
    (script 0 ∅ 2) script_client 0 script_listener
    script_server script_request [] (response_bytes 200 (str "hey"))); try done.
  apply script_worker_Inv.
Defined.

(** The same client while its request is written to the upstream on socket 9. *)
Definition script_proxy : ProxyState :=
  transition WritingRequest 0 (new_proxy 9 (str "GET / HTTP/1.1") 0).

Lemma request_forwarded_witness :
  exists o s', upstream_write_loop 16 script_id false
    (mkState (script_worker [] {[0 := set_phase (Proxying script_proxy) script_client]})
       (script 0 ∅ 5)) = Ret o s' /\
    bool_decide (script_sent 9 s' = str "GET / HTTP/1.1") = true.
Proof.
  destruct (request_forwarded 16 script_id false
    (script_worker [] {[0 := set_phase (Proxying script_proxy) script_client]})
    (script 0 ∅ 5) (set_phase (Proxying script_proxy) script_client) script_proxy)
    as (o & s' & E & _); [done|done|vm_compute; discriminate|].
  exists o, s'. split; [exact E|].
  refine (returns_Ret _ (fun _ s => bool_decide (script_sent 9 s = str "GET / HTTP/1.1")) _ _ _ E).
  by vm_compute.
Defined.
