(* ===== verification/ReadinessFrame.v ===== *)
(** * The sockets of the readiness worker

    A handler uses no socket but those of its connection and those it opens. Whatever
    follows from that alone is proved once for all the handlers, against the interface
    [Framed], which two invariants implement: that no two connections share a socket, and
    that a connection is left alone, with the bytes of its sockets, by the handlers of the
    others. *)

From S2P Require Import Prelude RustStd Config Http Router LoadBalancer Proxy StaticFiles Runtime Token Handler Connection Readiness ReadinessInv ReadinessLoop Script ReadinessIO.

Local Open Scope N_scope.

(** ** The sockets that exist *)

(** Between [u] and [u'], only the sockets of [P] move bytes, what was sent stays sent, and
    an open socket stays open. *)
Record disturbs {env : Env} {wr : Wire env} (opened : Socket -> World -> Prop)
    (P : Socket -> Prop) (u u' : World) : Prop := {
  ds_wire x : ~ P x -> wire x u' = wire x u;
  ds_sent x : sent x u `prefix_of` sent x u';
  ds_opened x : opened x u -> opened x u';
}.

(** A call that moves the bytes of the socket [s] only, or of none. *)
Definition moves {env : Env} {wr : Wire env} (opened : Socket -> World -> Prop) (s : Socket)
    {A} (f : World -> A * World) : Prop :=
  forall u a u', f u = (a, u') -> disturbs opened (eq s) u u'.

Definition silent {env : Env} {wr : Wire env} (opened : Socket -> World -> Prop)
    {A} (f : World -> A * World) : Prop :=
  forall u a u', f u = (a, u') -> disturbs opened (fun _ => False) u u'.

(** The sockets of [rs] have just been opened. *)
Definition opens {env : Env} (opened : Socket -> World -> Prop) (rs : list Socket)
    (u u' : World) : Prop :=
  NoDup rs /\ forall x, x ∈ rs -> ~ opened x u /\ opened x u'.

Definition oks {A} (rs : list (io_result A)) : list A :=
  omap (fun r => match r with Ok a => Some a | Err _ => None end) rs.

(** What the worker relies on: a call touches the socket it is given, and the sockets that
    [accept] and [connect] return are new. *)
Class SocketTable (env : Env) {wr : Wire env} := {
  opened : Socket -> World -> Prop;
  tb_now : silent opened now;
  tb_accepts l : silent opened (accepts l);
  tb_accepts_opens l u rs u' : accepts l u = (rs, u') -> opens opened (oks rs) u u';
  tb_connect a : silent opened (connect a);
  tb_connect_opens a u x u' : connect a u = (Ok x, u') -> opens opened [x] u u';
  tb_read x n : moves opened x (sock_read x n);
  tb_reads x n : moves opened x (sock_reads x n);
  tb_write x b : moves opened x (sock_write x b);
  tb_take_error x : silent opened (take_error x);
  tb_register x t i : silent opened (register x t i);
  tb_reregister x t i : silent opened (reregister x t i);
  tb_deregister x : silent opened (deregister x);
  tb_register_listener l t : silent opened (register_listener l t);
  tb_deregister_listener l : silent opened (deregister_listener l);
  tb_poll t : silent opened (poll t);
  tb_shutdown_is_requested : silent opened shutdown_is_requested;
  tb_resolve id a : silent opened (resolver_resolve id a);
  tb_drain : silent opened resolver_drain;
  tb_ssl_new c : silent opened (ssl_new c);
  tb_read_tls t x : moves opened x (read_tls t x);
  tb_write_tls t x : moves opened x (write_tls t x);
  tb_spawn a : silent opened (spawn_stream a);
  tb_stream s : silent opened (stream_try_next s);
  tb_vacant_key keys : silent opened (vacant_key keys);
  tb_drain_order ids : silent opened (drain_order ids);
}.

Create HintDb respects.

Section Disturbs.

Context {env : Env} {wr : Wire env} {opened : Socket -> World -> Prop}.

Notation disturbs := (disturbs opened).

#[export] Instance disturbs_preorder P : PreOrder (disturbs P).
Proof.
  split; [by split|]. intros u1 u2 u3 [W S O] [W' S' O'].
  split; intros x; [intros Hx; by rewrite W', W|etrans; [apply S|apply S']|auto].
Qed.

Lemma disturbs_weaken (P Q : Socket -> Prop) u u' :
  (forall x, P x -> Q x) -> disturbs P u u' -> disturbs Q u u'.
Proof. intros H [W S O]. split; [intros x Hx; apply W; auto|done..]. Qed.

Lemma disturbs_silent P u u' : disturbs (fun _ => False) u u' -> disturbs P u u'.
Proof. by apply disturbs_weaken. Qed.

Lemma disturbs_own (P : Socket -> Prop) x u u' : P x -> disturbs (eq x) u u' -> disturbs P u u'.
Proof. intros Hx. apply disturbs_weaken. by intros ? <-. Qed.

End Disturbs.

#[export] Hint Resolve tb_now tb_accepts tb_connect tb_read tb_reads tb_write tb_take_error tb_register tb_reregister tb_deregister tb_register_listener tb_deregister_listener tb_poll tb_shutdown_is_requested tb_resolve tb_drain tb_ssl_new tb_read_tls tb_write_tls tb_spawn tb_stream tb_vacant_key tb_drain_order : respects.

(** ** Predicates that a handler preserves *)

Section Preserves.

Context {W U : Type} (J : State W U -> Prop).

(** Whether [m] returns or fails. *)
Definition preserves {A} (m : Handler W U A) : Prop :=
  forall s, J s ->
  match m s with
  | Ret _ s' | Fail _ s' => J s'
  | Panicked => True
  end.

Lemma preserves_bind {A B} (m : Handler W U A) (f : A -> Handler W U B) :
  preserves m -> (forall a, preserves (f a)) -> preserves (m ≫= f).
Proof.
  intros Hm Hf s Hs. unfold mbind, Handler_bind. specialize (Hm s Hs).
  destruct (m s); [by apply Hf|done..].
Qed.

Lemma preserves_ret {A} (a : A) : preserves (mret a).
Proof. by intros s Hs. Qed.

Lemma preserves_skip : preserves skip.
Proof. apply preserves_ret. Qed.

Lemma preserves_fail {A} e : preserves (@fail _ _ A e).
Proof. by intros s Hs. Qed.

Lemma preserves_gets {A} (f : W -> A) : preserves (gets f).
Proof. by intros s Hs. Qed.

Lemma preserves_attempt {A} (m : Handler W U A) : preserves m -> preserves (attempt m).
Proof. intros Hm s Hs. unfold attempt. specialize (Hm s Hs). by destruct (m s). Qed.

Lemma preserves_for_all {A} (f : A -> Handler W U unit) l :
  (forall a, preserves (f a)) -> preserves (for_all f l).
Proof.
  intros H. induction l as [|a l IH]; simpl; [apply preserves_skip|]. by apply preserves_bind.
Qed.

(** What was read from the worker is known of its state. *)
Lemma preserves_gets_bind {A B} (f : W -> A) (g : A -> Handler W U B) :
  (forall s, J s -> match g (f (worker s)) s with Ret _ s' | Fail _ s' => J s' | Panicked => True end) ->
  preserves (gets f ≫= g).
Proof. intros H s Hs. by apply H. Qed.

Lemma preserves_Ret {A} (m : Handler W U A) s a s' : preserves m -> J s -> m s = Ret a s' -> J s'.
Proof. intros Hm Hs E. specialize (Hm s Hs). by rewrite E in Hm. Qed.

End Preserves.

(** ** The interface of the handlers *)

Section Frame.

Context {env : Env} {fs : Filesystem} {mime : MimeGuess} {env_ok : EnvOk env} {wr : Wire env}.
Context {tb : SocketTable env}.

Notation M := (Handler ReadinessWorker World).
Notation State := (State ReadinessWorker World).

Definition owns (c : Connection) (x : Socket) : Prop :=
  x = socket c \/ exists p, phase c = Proxying p /\ x = upstream p.

(** [c'] has the sockets of [c], or fewer. *)
Definition inherits (c c' : Connection) : Prop :=
  socket c' = socket c /\
  forall p', phase c' = Proxying p' -> exists p, phase c = Proxying p /\ upstream p' = upstream p.

(** [c'] has the client of [c] and the upstream [x]. *)
Definition adopts (x : Socket) (c c' : Connection) : Prop :=
  socket c' = socket c /\ forall p', phase c' = Proxying p' -> upstream p' = x.

(** What the handlers keep: a predicate [good] of the state and of the sockets that are
    open but not yet given to a connection, for handlers of the slots in [mine], which use
    the sockets in [usable]. *)
Record Framed (good : list Socket -> State -> Prop) (mine : N -> Prop) (usable : Socket -> Prop) :
    Prop := {
  fr_world rs w u u' : good rs (mkState w u) -> disturbs opened usable u u' -> good rs (mkState w u');
  fr_worker rs w w' u :
    good rs (mkState w u) -> connections w' = connections w -> good rs (mkState w' u);
  fr_update rs w u k c c' :
    good rs (mkState w u) -> mine k -> connections w !! k = Some c -> inherits c c' ->
    good rs (mkState (set_connections (<[k := c']> (connections w)) w) u);
  fr_delete rs w u k :
    good rs (mkState w u) -> mine k ->
    good rs (mkState (set_connections (delete k (connections w)) w) u);
  fr_owner rs w u k c x :
    good rs (mkState w u) -> mine k -> connections w !! k = Some c -> owns c x -> usable x;
  fr_drop x rs s : good (x :: rs) s -> good rs s;
  fr_open rs w u u' :
    good [] (mkState w u) -> disturbs opened (fun _ => False) u u' -> opens opened rs u u' ->
    good rs (mkState w u');
  fr_adopt x rs w u k c c' :
    good (x :: rs) (mkState w u) -> mine k -> connections w !! k = Some c -> adopts x c c' ->
    good rs (mkState (set_connections (<[k := c']> (connections w)) w) u);
}.

(** New connections are ours, and may be added. *)
Record Admits (good : list Socket -> State -> Prop) (mine : N -> Prop) : Prop := {
  ad_vacant rs w u k : good rs (mkState w u) -> connections w !! k = None -> mine k;
  ad_insert x rs w u k c :
    good (x :: rs) (mkState w u) -> connections w !! k = None -> socket c = x -> proxy c = None ->
    good rs (mkState (set_connections (<[k := c]> (connections w)) w) u);
}.

Context (good : list Socket -> State -> Prop) (mine : N -> Prop) (usable : Socket -> Prop).
Context (framed : Framed good mine usable).

(** From the sockets [rs] in reserve to [rs'], whether [m] returns or fails. *)
Definition spends {A} (rs : list Socket) (m : M A) (rs' : list Socket) : Prop :=
  forall s, good rs s ->
  match m s with
  | Ret _ s' | Fail _ s' => good rs' s'
  | Panicked => True
  end.

Definition respects {A} (m : M A) : Prop := forall rs, spends rs m rs.

Lemma respects_preserves {A} (m : M A) : respects m -> preserves (good []) m.
Proof. intros Hm. apply Hm. Qed.

(** *** The operations of the monad *)

Lemma respects_bind {A B} (m : M A) (f : A -> M B) :
  respects m -> (forall a, respects (f a)) -> respects (m ≫= f).
Proof.
  intros Hm Hf rs s Hs. unfold mbind, Handler_bind. specialize (Hm rs s Hs).
  destruct (m s); [by apply Hf|done..].
Qed.

Lemma respects_ret {A} (a : A) : respects (mret a).
Proof. by intros rs s Hs. Qed.

Lemma respects_skip : respects skip.
Proof. apply respects_ret. Qed.

Lemma respects_panic {A} : respects (@panic _ _ A).
Proof. by intros rs s Hs. Qed.

Lemma respects_fail {A} e : respects (@fail _ _ A e).
Proof. by intros rs s Hs. Qed.

Lemma respects_lift {A} (r : io_result A) : respects (lift r).
Proof. intros rs s Hs. unfold lift. by destruct r. Qed.

Lemma respects_attempt {A} (m : M A) : respects m -> respects (attempt m).
Proof. intros Hm rs s Hs. unfold attempt. specialize (Hm rs s Hs). by destruct (m s). Qed.

Lemma respects_gets {A} (f : ReadinessWorker -> A) : respects (gets f).
Proof. by intros rs s Hs. Qed.

Lemma respects_silent {A} (f : World -> A * World) : silent opened f -> respects (sys f).
Proof.
  intros Hf rs [w u] Hs. unfold sys. simpl. destruct (f u) as [a u'] eqn:E.
  eapply (fr_world _ _ _ framed); [exact Hs|]. eapply disturbs_silent, Hf, E.
Qed.

Lemma respects_moves {A} x (f : World -> A * World) :
  moves opened x f -> usable x -> respects (sys f).
Proof.
  intros Hf Hx rs [w u] Hs. unfold sys. simpl. destruct (f u) as [a u'] eqn:E.
  eapply (fr_world _ _ _ framed); [exact Hs|]. eapply disturbs_own; [exact Hx|]. by eapply Hf.
Qed.

Lemma respects_modify f :
  (forall w, connections (f w) = connections w) -> respects (modify f).
Proof. intros Hf rs [w u] Hs. simpl. by eapply (fr_worker _ _ _ framed). Qed.

Lemma respects_for_all {A} (f : A -> M unit) l :
  (forall a, respects (f a)) -> respects (for_all f l).
Proof.
  intros H. induction l as [|a l IH]; simpl; [apply respects_skip|]. by apply respects_bind.
Qed.

(** What is at hand of the connection in a slot of ours. *)
Lemma respects_index_bind {B} k (f : Connection -> M B) :
  mine k -> (forall c, (forall x, owns c x -> usable x) -> respects (f c)) ->
  respects (index k ≫= f).
Proof.
  intros Hk Hf rs [w u] Hs. unfold mbind, Handler_bind, index. simpl.
  destruct (connections w !! k) as [c|] eqn:Hc; [|done]. apply Hf; [|done].
  intros x Hx. by eapply (fr_owner _ _ _ framed).
Qed.

Lemma respects_index_proxy_bind {B} k (f : ProxyState -> M B) :
  mine k -> (forall p, usable (upstream p) -> respects (f p)) -> respects (index_proxy k ≫= f).
Proof.
  intros Hk Hf rs [w u] Hs. unfold index_proxy, mbind, Handler_bind, index. simpl.
  destruct (connections w !! k) as [c|] eqn:Hc; [|done]. destruct (proxy c) as [p|] eqn:Hp; [|done].
  apply Hf; [|done]. eapply (fr_owner _ _ _ framed); [done..|]. right. apply proxy_Some in Hp. eauto.
Qed.

(** A handler from the states in which the slot [k] holds [c]. *)
Definition respects_from {A} (k : N) (c : Connection) (m : M A) : Prop :=
  forall rs s, good rs s -> connections (worker s) !! k = Some c ->
  match m s with
  | Ret _ s' | Fail _ s' => good rs s'
  | Panicked => True
  end.

Lemma respects_index_from {B} k (f : Connection -> M B) :
  mine k -> (forall c, (forall x, owns c x -> usable x) -> respects_from k c (f c)) ->
  respects (index k ≫= f).
Proof.
  intros Hk Hf rs [w u] Hs. unfold mbind, Handler_bind, index. simpl.
  destruct (connections w !! k) as [c|] eqn:Hc; [|done]. apply Hf; [|done..].
  intros x Hx. by eapply (fr_owner _ _ _ framed).
Qed.

Lemma respects_from_any {A} k c (m : M A) : respects m -> respects_from k c m.
Proof. intros Hm rs s Hs _. by apply Hm. Qed.

Lemma respects_from_bind {A B} k c (m : M A) (f : A -> M B) :
  respects_from k c m -> (forall a, respects (f a)) -> respects_from k c (m ≫= f).
Proof.
  intros Hm Hf rs s Hs Hc. unfold mbind, Handler_bind. specialize (Hm rs s Hs Hc).
  destruct (m s); [by apply Hf|done..].
Qed.

Lemma respects_from_replace k c c' :
  mine k -> inherits c c' -> respects_from k c (update k (fun _ => c')).
Proof.
  intros Hk Hi rs [w u] Hs Hc. unfold update, mbind, Handler_bind, index, modify.
  simpl in *. rewrite Hc. by eapply (fr_update _ _ _ framed).
Qed.

Lemma respects_update k f : mine k -> (forall c, inherits c (f c)) -> respects (update k f).
Proof.
  intros Hk Hf rs [w u] Hs. unfold update, mbind, Handler_bind, index, modify. simpl.
  destruct (connections w !! k) as [c|] eqn:Hc; [|done]. by eapply (fr_update _ _ _ framed).
Qed.

Lemma respects_delete k :
  mine k -> respects (modify (fun w => set_connections (delete k (connections w)) w)).
Proof. intros Hk rs [w u] Hs. by apply (fr_delete _ _ _ framed). Qed.

(** *** Changes of a connection *)

Lemma inherits_refl c : inherits c c.
Proof. split; [done|eauto]. Qed.

Lemma inherits_trans c1 c2 c3 : inherits c1 c2 -> inherits c2 c3 -> inherits c1 c3.
Proof.
  intros [E1 H1] [E2 H2]. split; [congruence|]. intros p3 Hp.
  destruct (H2 _ Hp) as (p2 & Hp2 & ->). by apply H1.
Qed.

Lemma inherits_same c c' : socket c' = socket c -> phase c' = phase c -> inherits c c'.
Proof. intros E Ep. split; [done|]. rewrite Ep. eauto. Qed.

Lemma inherits_phase p c : (forall q, p <> Proxying q) -> inherits c (set_phase p c).
Proof. intros H. split; [done|]. simpl. intros q Hq. by destruct (H q). Qed.

Lemma inherits_update_proxy f c :
  (forall p, upstream (f p) = upstream p) -> inherits c (update_proxy f c).
Proof.
  intros H. unfold update_proxy. destruct (phase c) eqn:E; try apply inherits_refl.
  split; [done|]. simpl. intros p [= <-]. eauto.
Qed.

Lemma inherits_set_pending_request r c : inherits c (set_pending_request r c).
Proof.
  unfold set_pending_request. destruct (phase c); try apply inherits_refl. by apply inherits_phase.
Qed.

Lemma inherits_take_pending_request c : inherits c (take_pending_request c).2.
Proof.
  unfold take_pending_request. destruct (phase c); try apply inherits_refl. by apply inherits_phase.
Qed.

End Frame.

#[export] Hint Resolve respects_ret respects_skip respects_panic respects_fail respects_lift respects_attempt respects_gets respects_silent respects_moves respects_update respects_delete : respects.
#[export] Hint Extern 2 (respects _ (modify _)) => (eapply respects_modify; [eassumption|done]) : respects.
#[export] Hint Extern 1 (inherits _ _) => (first [apply inherits_same; reflexivity | apply inherits_phase; done | apply inherits_update_proxy; done | apply inherits_set_pending_request | apply inherits_take_pending_request]) : respects.

(** Through a handler, down to the operations of the database. *)
Ltac respect :=
  repeat (cbv zeta beta;
    first [solve [eauto 4 with respects] |
    lazymatch goal with
    | |- respects _ (mbind _ (index _)) =>
        eapply respects_index_bind; [eassumption|solve [eauto with respects]|intros ? ?]
    | |- respects _ (mbind _ (index_proxy _)) =>
        eapply respects_index_proxy_bind; [eassumption|solve [eauto with respects]|intros ? ?]
    | |- respects _ (mbind _ _) => apply respects_bind; [|intros ?]
    | |- respects _ (match ?x with _ => _ end) => destruct x eqn:?
    | |- respects _ (for_all _ _) => apply respects_for_all; intros ?
    end]).

(** ** The handlers *)

Section Handlers.

Context {env : Env} {fs : Filesystem} {mime : MimeGuess} {env_ok : EnvOk env} {wr : Wire env}.
Context {tb : SocketTable env}.

Notation M := (Handler ReadinessWorker World).
Notation State := (State ReadinessWorker World).

Context (good : list Socket -> State -> Prop) (mine : N -> Prop) (usable : Socket -> Prop).
Context (framed : Framed good mine usable).

Notation respects := (respects good).

Lemma owns_socket c : owns c (socket c).
Proof. by left. Qed.

Lemma owns_upstream c p : proxy c = Some p -> owns c (upstream p).
Proof. intros H%proxy_Some. right. eauto. Qed.

#[local] Hint Resolve owns_socket owns_upstream : respects.

Lemma respects_clock : respects clock.
Proof. unfold clock. respect. Qed.

Lemma respects_metric f : respects (metric f).
Proof. unfold metric. respect. Qed.

Lemma respects_is_current id : respects (is_current id).
Proof. unfold is_current. respect. Qed.

Lemma respects_slice_from b n : respects (slice_from b n).
Proof. unfold slice_from. respect. Qed.

Lemma respects_slice_range b m n : respects (slice_range b m n).
Proof. unfold slice_range. respect. Qed.

#[local] Hint Resolve respects_clock respects_metric respects_is_current respects_slice_from respects_slice_range : respects.

(** *** A connection *)

Context (id : ConnectionId) (Hmine : mine (slot id)).

Lemma respects_log_socket_error e : respects (log_socket_error id e).
Proof. unfold log_socket_error. respect. Qed.

Lemma respects_remove_connection : respects (remove_connection id).
Proof. unfold remove_connection. respect. Qed.
#[local] Hint Resolve respects_log_socket_error respects_remove_connection : respects.

Lemma respects_reregister_client i : respects (reregister_client id i).
Proof. unfold reregister_client. respect. Qed.
#[local] Hint Resolve respects_reregister_client : respects.

Lemma respects_close_client : respects (close_client id).
Proof. unfold close_client. respect. Qed.
#[local] Hint Resolve respects_close_client : respects.

Lemma respects_queue_response b : respects (queue_response id b).
Proof. unfold queue_response. respect. Qed.
#[local] Hint Resolve respects_queue_response : respects.

Lemma respects_queue_static_response b st : respects (queue_static_response id b st).
Proof. unfold queue_static_response. respect. Qed.
#[local] Hint Resolve respects_queue_static_response : respects.

Lemma respects_advance_static_stream : respects (advance_static_stream id).
Proof. unfold advance_static_stream. respect. Qed.
#[local] Hint Resolve respects_advance_static_stream : respects.

(** *** Answering and the upstream *)

Lemma respects_fail_proxy n b : respects (fail_proxy id n b).
Proof.
  unfold fail_proxy. apply respects_bind; [respect|]. intros current. destruct (negb current); [respect|].
  eapply respects_index_from; [done..|]. intros c Hc. cbv zeta. apply respects_from_bind; [|intros ?; respect].
  unfold detach_proxy. destruct (phase c) eqn:Hp; try solve [apply respects_from_any; respect].
  apply respects_from_bind; [|intros ?; respect].
  eapply respects_from_replace; [done..|]. by apply inherits_phase.
Qed.
#[local] Hint Resolve respects_fail_proxy : respects.

Lemma respects_fail_resolution n b : respects (fail_resolution id n b).
Proof. unfold fail_resolution. respect. Qed.
#[local] Hint Resolve respects_fail_resolution : respects.

Lemma respects_start_proxy u r b : respects (start_proxy id u r b).
Proof. unfold start_proxy, begin_resolving. respect. Qed.
#[local] Hint Resolve respects_start_proxy : respects.

Lemma spends_drop {A} (m : M A) x rs : respects m -> spends good (x :: rs) m rs.
Proof.
  intros Hm s Hs. specialize (Hm (x :: rs) s Hs).
  destruct (m s); try by eapply (fr_drop _ _ _ framed). done.
Qed.

Lemma spends_bind {A B} (m : M A) (f : A -> M B) x rs :
  respects m -> (forall a, spends good (x :: rs) (f a) rs) -> spends good (x :: rs) (m ≫= f) rs.
Proof.
  intros Hm Hf s Hs. unfold mbind, Handler_bind. specialize (Hm (x :: rs) s Hs).
  destruct (m s); [by apply Hf|by eapply (fr_drop _ _ _ framed)|done].
Qed.

Lemma spends_adopt rs x f :
  (forall c, adopts x c (f c)) -> spends good (x :: rs) (update (slot id) f) rs.
Proof.
  intros Hf [w u] Hs. unfold update, mbind, Handler_bind, index, modify. simpl.
  destruct (connections w !! slot id) as [c|] eqn:Hc; [|done]. by eapply (fr_adopt _ _ _ framed).
Qed.

Lemma connect_spends {B} address (f : io_result Socket -> M B) :
  (forall x, spends good [x] (f (Ok x)) []) -> (forall e, respects (f (Err e))) ->
  spends good [] (r ← sys (connect address); f r) [].
Proof.
  intros Hok Herr [w u] Hs. unfold mbind, Handler_bind, sys. simpl.
  destruct (connect address u) as [r u'] eqn:E. destruct r as [x|e].
  - apply Hok. eapply (fr_open _ _ _ framed); [done|by eapply tb_connect|by eapply tb_connect_opens].
  - apply Herr. eapply (fr_world _ _ _ framed); [done|]. eapply disturbs_silent. by eapply tb_connect.
Qed.

Lemma preserves_connect_resolved address : preserves (good []) (connect_resolved id address).
Proof.
  unfold connect_resolved. intros [w u] Hs. unfold mbind at 1, Handler_bind at 1, index at 1. simpl.
  destruct (connections w !! slot id) as [c|] eqn:Hc; [|done].
  unfold take_resolution. destruct (phase c) eqn:Hp; try done.
  unfold mbind at 1, Handler_bind at 1, update, mbind at 1, Handler_bind at 1, index, modify.
  simpl. rewrite Hc. apply connect_spends.
  - intros x. apply spends_bind; [respect|]. intros t. apply spends_bind; [respect|]. intros [|e];
      [|apply spends_drop; respect].
    apply spends_bind; [respect|]. intros now. apply spends_adopt. intros c'. split; [done|].
    by intros p' [= <-].
  - intros e. respect.
  - eapply (fr_update _ _ _ framed); [done..|]. by apply inherits_phase.
Qed.

Lemma preserves_index_bind {B} k (f : Connection -> M B) :
  (forall c, preserves (good []) (f c)) -> preserves (good []) (index k ≫= f).
Proof.
  intros Hf s Hs. unfold mbind, Handler_bind, index. destruct (connections (worker s) !! k); [|done].
  by apply Hf.
Qed.

Lemma preserves_finish_resolution addresses :
  preserves (good []) (finish_resolution (id, addresses)).
Proof.
  unfold finish_resolution. apply preserves_bind; [apply respects_preserves; respect|]. intros current.
  destruct (negb current); [apply respects_preserves; respect|].
  apply preserves_index_bind. intros c.
  destruct (negb (is_resolving c)); [apply respects_preserves; respect|].
  destruct addresses as [[|a l]|e]; [|apply preserves_connect_resolved|];
    apply respects_preserves; respect.
Qed.

Lemma respects_upstream_write_loop n made : respects (upstream_write_loop n id made).
Proof. revert made. induction n as [|n IH]; intros made; simpl; respect. Qed.
#[local] Hint Resolve respects_upstream_write_loop : respects.

Lemma respects_request_written : respects (request_written id).
Proof. unfold request_written. respect. Qed.
#[local] Hint Resolve respects_request_written : respects.

Lemma respects_write_progress made : respects (write_progress id made).
Proof. unfold write_progress. respect. Qed.
#[local] Hint Resolve respects_write_progress : respects.

Lemma respects_write_upstream_request : respects (write_upstream_request id).
Proof. unfold write_upstream_request. respect. Qed.

Lemma respects_mark_upstream_eof : respects (mark_upstream_eof id).
Proof. unfold mark_upstream_eof. respect. Qed.
#[local] Hint Resolve respects_mark_upstream_eof : respects.

Lemma respects_read_upstream_response : respects (read_upstream_response id).
Proof. unfold read_upstream_response. respect. Qed.

(** *** The client *)

Lemma respects_write_step c : usable (socket c) -> respects (write_step id c).
Proof. intros Hc. unfold write_step. respect. Qed.
#[local] Hint Resolve respects_write_step : respects.

Lemma respects_write_loop n : respects (write_loop n id).
Proof. induction n as [|n IH]; simpl; respect. Qed.
#[local] Hint Resolve respects_write_loop : respects.

Lemma respects_response_written : respects (response_written id).
Proof. unfold response_written. respect. Qed.
#[local] Hint Resolve respects_response_written : respects.

Lemma respects_write_ready : respects (write_ready id).
Proof. unfold write_ready. respect. Qed.

Lemma respects_read_step c : usable (socket c) -> respects (read_step id c).
Proof. intros Hc. unfold read_step. respect. Qed.
#[local] Hint Resolve respects_read_step : respects.

Lemma respects_complete_request : respects (complete_request id).
Proof. unfold complete_request. respect. Qed.
#[local] Hint Resolve respects_complete_request : respects.

Lemma respects_read_loop n : respects (read_loop n id).
Proof. induction n as [|n IH]; simpl; respect. Qed.
#[local] Hint Resolve respects_read_loop : respects.

Lemma respects_discard_loop n : respects (discard_loop n id).
Proof. induction n as [|n IH]; simpl; respect. Qed.
#[local] Hint Resolve respects_discard_loop : respects.

Lemma respects_respond_static d r : respects (respond_static id d r).
Proof. unfold respond_static. respect. Qed.
#[local] Hint Resolve respects_respond_static : respects.

Lemma respects_respond_proxy a r b : respects (respond_proxy id a r b).
Proof. unfold respond_proxy. respect. Qed.
#[local] Hint Resolve respects_respond_proxy : respects.

Lemma respects_respond r b l : respects (respond id r b l).
Proof. unfold respond. respect. Qed.
#[local] Hint Resolve respects_respond : respects.

Lemma respects_connection_ready : respects (connection_ready id).
Proof. unfold connection_ready, client_during_proxy_ready, handle_read. respect. Qed.

#[local] Hint Resolve respects_write_upstream_request respects_read_upstream_response respects_write_ready respects_connection_ready : respects.

Lemma respects_dispatch_client e : respects (dispatch_client id e).
Proof. unfold dispatch_client. respect. Qed.

Lemma respects_dispatch_upstream e : respects (dispatch_upstream id e).
Proof. unfold dispatch_upstream. respect. Qed.

End Handlers.

(** *** Accepting *)

Section Accept.

Context {env : Env} {fs : Filesystem} {mime : MimeGuess} {env_ok : EnvOk env} {wr : Wire env}.
Context {tb : SocketTable env}.

Notation M := (Handler ReadinessWorker World).
Notation State := (State ReadinessWorker World).

Context (good : list Socket -> State -> Prop) (mine : N -> Prop) (usable : Socket -> Prop).
Context (framed : Framed good mine usable) (admits : Admits good mine).

Notation respects := (respects good).

#[local] Hint Resolve respects_clock respects_metric : respects.

(** From [P] to [Q], whether [m] returns or fails. *)
Definition leads {A} (P : State -> Prop) (m : M A) (Q : State -> Prop) : Prop :=
  forall s, P s ->
  match m s with
  | Ret _ s' | Fail _ s' => Q s'
  | Panicked => True
  end.

Lemma leads_bind {A B} (P P' Q : State -> Prop) (m : M A) (f : A -> M B) :
  leads P m P' -> (forall s, P' s -> Q s) ->
  (forall a, (exists s s', m s = Ret a s') -> leads P' (f a) Q) -> leads P (m ≫= f) Q.
Proof.
  intros Hm Hq Hf s Hs. unfold mbind, Handler_bind. specialize (Hm s Hs).
  destruct (m s) as [a s'|e s'|] eqn:E; [|by apply Hq|done]. apply Hf; eauto.
Qed.

Lemma leads_mono {A} (P P' Q : State -> Prop) (m : M A) :
  leads P' m Q -> (forall s, P s -> P' s) -> leads P m Q.
Proof. intros Hm H s Hs. by apply Hm, H. Qed.

(** *** A new connection *)

Section Register.

Context (stream : Socket) (rs : list Socket) (k : N).

(** The slot is free for the socket. *)
Definition vacant (s : State) : Prop :=
  good (stream :: rs) s /\ connections (worker s) !! k = None.

Lemma vacant_good s : vacant s -> good rs s.
Proof. intros [Hs _]. by eapply (fr_drop _ _ _ framed). Qed.

Lemma leads_sys {A} (f : World -> A * World) : silent opened f -> leads vacant (sys f) vacant.
Proof.
  intros Hf [w u] [Hs Hk]. unfold sys. simpl. destruct (f u) as [a u'] eqn:E. split; [|done].
  eapply (fr_world _ _ _ framed); [exact Hs|]. by eapply disturbs_silent, Hf.
Qed.

Lemma leads_make_connection l g config : leads vacant (make_connection stream l g config) vacant.
Proof.
  assert (Hclock : leads vacant clock vacant) by (apply leads_sys, tb_now).
  unfold make_connection. eapply leads_bind; [|done|].
  - destruct config as [config|]; [|by intros s Hs].
    eapply leads_bind; [apply leads_sys, tb_ssl_new|done|]. intros r _.
    eapply leads_bind; [|done|]; [intros s Hs; by destruct r|]. intros t _.
    eapply leads_bind; [exact Hclock|done|]. by intros started _ s Hs.
  - intros session _. eapply leads_bind; [exact Hclock|done|]. by intros t _ s Hs.
Qed.

Lemma make_connection_new l g config s c s' :
  make_connection stream l g config s = Ret c s' -> socket c = stream /\ proxy c = None.
Proof.
  unfold make_connection, mbind, Handler_bind. destruct (match config with _ => _ end s); try done.
  destruct (clock _); try done. by intros [= <- _].
Qed.

Lemma leads_insert c :
  socket c = stream -> proxy c = None ->
  leads vacant (modify (fun w => set_connections (<[k := c]> (connections w)) w)) (good rs).
Proof. intros Hc Hp [w u] [Hs Hk]. by eapply (ad_insert _ _ admits). Qed.

End Register.

Lemma spends_vacant_key {B} stream rs (f : N -> M B) :
  (forall k, mine k -> leads (vacant stream rs k) (f k) (good rs)) ->
  spends good (stream :: rs)
    (keys ← gets (fun w => dom (connections w)); k ← sys (vacant_key keys); f k) rs.
Proof.
  intros Hf [w u] Hs. unfold mbind, Handler_bind, gets, sys. simpl.
  destruct (vacant_key (dom (connections w)) u) as [k u1] eqn:Ek.
  pose proof (vacant_key_fresh _ _ _ _ Ek) as Hk. apply not_elem_of_dom in Hk.
  assert (Hv : vacant stream rs k (mkState w u1)).
  { split; [|done]. eapply (fr_world _ _ _ framed); [exact Hs|].
    by eapply disturbs_silent, tb_vacant_key. }
  apply Hf; [|done]. eapply (ad_vacant _ _ admits); [apply Hv|exact Hk].
Qed.

Lemma spends_register_connection stream l rs :
  spends good (stream :: rs) (register_connection stream l) rs.
Proof.
  unfold register_connection. apply spends_vacant_key. intros k Hk.
  pose proof (vacant_good stream rs k) as Hdrop.
  destruct (SLOT_MASK <? k); [intros s Hs; by apply Hdrop|].
  eapply leads_bind; [intros s Hs; exact Hs|exact Hdrop|]. intros g _.
  destruct (g !! N.to_nat k); [|by intros s Hs]. cbv zeta.
  eapply leads_bind; [|exact Hdrop|].
  { intros [w u] [Hs Hv]. split; [by eapply (fr_worker _ _ _ framed)|done]. }
  intros [] _. eapply leads_bind; [intros s Hs; exact Hs|exact Hdrop|]. intros ls _.
  destruct (ls !! N.to_nat l); [|by intros s Hs].
  eapply leads_bind; [apply leads_make_connection|exact Hdrop|].
  intros c (s & s' & [Hc Hp]%make_connection_new).
  eapply leads_bind; [by apply leads_insert|done|]. intros [] _.
  enough (H : respects (t ← lift (token (mkConnectionId k (next_generation n)) Client);
    r ← sys (register stream t READABLE);
    match r with
    | Ok _ => skip
    | Err e => modify (fun w => set_connections (delete k (connections w)) w);; fail e
    end)) by apply H.
  respect.
Qed.

Lemma good_drop_all rs s : good rs s -> good [] s.
Proof. induction rs as [|x rs IH]; [done|]. intros Hs. eapply IH, (fr_drop _ _ _ framed), Hs. Qed.

Lemma respects_leads {A} (m : M A) rs : respects m -> leads (good rs) m (good rs).
Proof. intros Hm. apply Hm. Qed.

Lemma leads_attempt {A} P (m : M A) Q : leads P m Q -> leads P (attempt m) Q.
Proof. intros Hm s Hs. unfold attempt. specialize (Hm s Hs). by destruct (m s). Qed.

Lemma leads_accept_loop l results : leads (good (oks results)) (accept_loop l results) (good []).
Proof.
  induction results as [|[x|e] results IH]; simpl; [apply respects_leads; respect| |].
  - change (oks (Ok x :: results)) with (x :: oks results).
    pose proof (good_drop_all (x :: oks results)) as Hall.
    eapply leads_bind; [apply respects_leads; respect|exact Hall|]. intros count _.
    eapply leads_bind; [apply respects_leads; respect|exact Hall|]. intros max _.
    destruct (max <=? count).
    { eapply leads_mono; [exact IH|]. intros s. by apply (fr_drop _ _ _ framed). }
    eapply leads_bind; [apply respects_leads; respect|exact Hall|]. intros [] _.
    eapply leads_bind; [apply leads_attempt, spends_register_connection|apply good_drop_all|].
    by intros r _.
  - change (oks (Err e :: results)) with (oks results).
    destruct e; try done; intros s Hs; by eapply good_drop_all.
Qed.

Lemma preserves_accept_ready i : preserves (good []) (accept_ready i).
Proof.
  unfold accept_ready. apply preserves_gets_bind. intros [w u] Hs. simpl.
  destruct (listeners w !! N.to_nat i) as [l|]; [|done]. unfold mbind, Handler_bind, sys. simpl.
  destruct (accepts (l_socket l) u) as [rs u'] eqn:E. apply leads_accept_loop.
  eapply (fr_open _ _ _ framed); [done|by eapply tb_accepts|by eapply tb_accepts_opens].
Qed.

End Accept.

(** ** The loop *)

Section Loop.

Context {env : Env} {fs : Filesystem} {mime : MimeGuess} {env_ok : EnvOk env} {wr : Wire env}.
Context {tb : SocketTable env}.

Notation M := (Handler ReadinessWorker World).
Notation State := (State ReadinessWorker World).

(** What the handlers of the connections keep, the loop keeps. *)
Record Looped (J : State -> Prop) : Prop := {
  lp_world w u u' : J (mkState w u) -> disturbs opened (fun _ => False) u u' -> J (mkState w u');
  lp_worker w w' u : J (mkState w u) -> connections w' = connections w -> J (mkState w' u);
  lp_accept i : preserves J (accept_ready i);
  lp_remove id : preserves J (remove_connection id);
  lp_resolution id n b : preserves J (fail_resolution id n b);
  lp_expire id p : preserves J (fail_proxy id 504 (timeout_message p));
  lp_finish r : preserves J (finish_resolution r);
  lp_static id : preserves J (advance_static_stream id);
  lp_write id : preserves J (write_ready id);
  lp_upstream_write id : preserves J (write_upstream_request id);
  lp_upstream_read id : preserves J (read_upstream_response id);
  lp_client id e : preserves J
    (current ← is_current id; if negb current then skip else dispatch_client id e);
  lp_upstream id e : preserves J
    (current ← is_current id; if negb current then skip else dispatch_upstream id e);
}.

Context (J : State -> Prop) (looped : Looped J).

Notation preserves := (preserves J).

Lemma preserves_sys {A} (f : World -> A * World) : silent opened f -> preserves (sys f).
Proof.
  intros Hf [w u] Hs. unfold sys. simpl. destruct (f u) as [a u'] eqn:E.
  eapply (lp_world _ looped); [exact Hs|]. by eapply Hf.
Qed.

Lemma preserves_modify f : (forall w, connections (f w) = connections w) -> preserves (modify f).
Proof. intros Hf [w u] Hs. simpl. by eapply (lp_worker _ looped). Qed.

#[local] Hint Resolve preserves_ret preserves_skip preserves_fail preserves_gets preserves_attempt preserves_sys : respects.
#[local] Hint Resolve lp_accept lp_remove lp_resolution lp_expire lp_finish lp_static lp_write lp_upstream_write lp_upstream_read : respects.
#[local] Hint Extern 2 (ReadinessFrame.preserves _ (modify _)) => (apply preserves_modify; done) : respects.

Ltac preserve :=
  repeat (cbv zeta beta;
    first [solve [eauto 4 with respects] |
    lazymatch goal with
    | |- ReadinessFrame.preserves _ (mbind _ _) => apply preserves_bind; [|intros ?]
    | |- ReadinessFrame.preserves _ (match ?x with _ => _ end) => destruct x
    | |- ReadinessFrame.preserves _ (for_all _ _) => apply preserves_for_all; intros ?
    end]).

Lemma preserves_clock : preserves clock.
Proof. unfold clock. preserve. Qed.

Lemma preserves_is_current id : preserves (is_current id).
Proof. unfold is_current. preserve. Qed.
#[local] Hint Resolve preserves_clock preserves_is_current : respects.

Lemma preserves_process_dns_results : preserves process_dns_results.
Proof. unfold process_dns_results. preserve. Qed.
#[local] Hint Resolve preserves_process_dns_results : respects.

Lemma preserves_drain_set get set :
  (forall p w, connections (set p w) = connections w) -> preserves (drain_set get set).
Proof. intros Hset. unfold drain_set. preserve. Qed.

Lemma preserves_maintain : preserves maintain.
Proof.
  unfold maintain, close_expired_resolutions, close_expired_proxies, close_idle_connections,
    pump_static_streams, if_current.
  repeat (first [apply preserves_drain_set; done | progress preserve]).
Qed.
#[local] Hint Resolve preserves_maintain : respects.

Lemma preserves_dispatch e : preserves (dispatch e).
Proof.
  unfold dispatch. destruct (_ =? CONTROL_TOKEN); [preserve|].
  apply preserves_bind; [preserve|intros count]. apply preserves_bind; [preserve|intros draining].
  destruct (_ <? count); [preserve|]. destruct (from_token _) as [[id []]|];
    [apply (lp_client _ looped)|apply (lp_upstream _ looped)|preserve].
Qed.
#[local] Hint Resolve preserves_dispatch : respects.

Lemma preserves_tick : preserves tick.
Proof.
  unfold tick, begin_shutdown, drain_deadline_expired, close_all_connections. preserve.
Qed.

Lemma preserves_run_for n : preserves (run_for n).
Proof. induction n as [|n IH]; simpl; [preserve|]. apply preserves_bind; [apply preserves_tick|]. intros []; [preserve|done]. Qed.

End Loop.

Section Looped.

Context {env : Env} {fs : Filesystem} {mime : MimeGuess} {env_ok : EnvOk env} {wr : Wire env}.
Context {tb : SocketTable env}.

Notation State := (State ReadinessWorker World).

(** What the handlers of all the connections keep, the loop keeps. *)
Lemma framed_looped (good : list Socket -> State -> Prop) mine usable :
  Framed good mine usable -> Admits good mine -> (forall k, mine k) -> Looped (good []).
Proof.
  intros H Ha Hm. pose proof (fun id => Hm (slot id)) as Hid.
  assert (Hdispatch : forall id (m : Handler ReadinessWorker World unit), respects good m ->
    preserves (good []) (current ← is_current id; if negb current then skip else m)).
  { intros id m Hr. apply respects_preserves. apply respects_bind; [apply respects_is_current|].
    intros []; [done|apply respects_skip]. }
  split.
  - intros w u u' Hs Hu. eapply (fr_world _ _ _ H); [exact Hs|]. by apply disturbs_silent.
  - intros w w' u. apply (fr_worker _ _ _ H).
  - intros i. by eapply preserves_accept_ready.
  - intros id. eapply respects_preserves, respects_remove_connection; eauto.
  - intros id n b. eapply respects_preserves, respects_fail_resolution; eauto.
  - intros id p. eapply respects_preserves, respects_fail_proxy; eauto.
  - intros [id r]. eapply preserves_finish_resolution; eauto.
  - intros id. eapply respects_preserves, respects_advance_static_stream; eauto.
  - intros id. eapply respects_preserves, respects_write_ready; eauto.
  - intros id. eapply respects_preserves, respects_write_upstream_request; eauto.
  - intros id. eapply respects_preserves, respects_read_upstream_response; eauto.
  - intros id e. eapply Hdispatch, respects_dispatch_client; eauto.
  - intros id e. eapply Hdispatch, respects_dispatch_upstream; eauto.
Qed.

End Looped.
