(* ===== verification/ReadinessSockets.v ===== *)
(** * Whose sockets are whose

    No two connections of the readiness worker share a socket, in any state its loop
    reaches; and the events of other connections leave a connection and the bytes of its
    sockets alone. Both follow from what [ReadinessFrame] shows of every handler. *)

From S2P Require Import Prelude RustStd Config Http Router LoadBalancer Proxy StaticFiles Runtime Token Handler Connection Readiness ReadinessInv ReadinessLoop Script ReadinessIO ReadinessFrame.

Local Open Scope N_scope.

(** ** No two connections share a socket *)

Section Distinct.

Context {env : Env} {fs : Filesystem} {mime : MimeGuess} {env_ok : EnvOk env} {wr : Wire env}.
Context {tb : SocketTable env}.

Notation State := (State ReadinessWorker World).

(** Every socket of a connection is open and its own, and those of [rs] are nobody's. *)
Record distinct (rs : list Socket) (s : State) : Prop := {
  di_open k c x : connections (worker s) !! k = Some c -> owns c x -> opened x (world s);
  di_own j k c d x : connections (worker s) !! j = Some c -> connections (worker s) !! k = Some d ->
    owns c x -> owns d x -> j = k;
  di_two k c p : connections (worker s) !! k = Some c -> phase c = Proxying p ->
    upstream p <> socket c;
  di_free k c x : connections (worker s) !! k = Some c -> owns c x -> x ∉ rs;
  di_reserve : NoDup rs /\ forall x, x ∈ rs -> opened x (world s);
}.

Lemma inherits_owns c c' x : inherits c c' -> owns c' x -> owns c x.
Proof.
  intros [E H] [->|(p' & Hp' & ->)]; [left; done|]. right.
  destruct (H p' Hp') as (p & Hp & ->). eauto.
Qed.

(** The slot [k] holds [c], whose sockets are those of the connection before or those taken
    from the reserve. *)
Lemma distinct_insert rs rs' w u k c :
  distinct rs (mkState w u) -> (rs' `sublist_of` rs) ->
  (forall x, owns c x -> (x ∉ rs') /\
     (x ∈ rs \/ exists c0, connections w !! k = Some c0 /\ owns c0 x)) ->
  (forall p, phase c = Proxying p -> upstream p <> socket c) ->
  distinct rs' (mkState (set_connections (<[k := c]> (connections w)) w) u).
Proof.
  intros [D1 D2 D3 D4 [D5 D6]] Hrs Hc Hp. simpl in *.
  assert (Hother : forall j d x, j <> k -> connections w !! j = Some d -> owns d x -> ~ owns c x).
  { intros j d x Hj Hd Hx Hcx. destruct (Hc x Hcx) as [_ [Hin|(c0 & Hc0 & Hx0)]].
    - by eapply D4.
    - eapply Hj, D2; eauto. }
  split; simpl.
  - intros j d x. rewrite lookup_insert_Some. intros [[<- <-]|[Hj Hd]] Hx; [|by eapply D1].
    destruct (Hc x Hx) as [_ [Hin|(c0 & Hc0 & Hx0)]]; [by apply D6|by eapply D1].
  - intros i j d1 d2 x. rewrite !lookup_insert_Some.
    intros [[<- <-]|[Hi Hd1]] [[<- <-]|[Hj Hd2]] H1 H2; [done|..|by eapply D2].
    + exfalso. by eapply (Hother j d2).
    + exfalso. by eapply (Hother i d1).
  - intros j d p. rewrite lookup_insert_Some. intros [[<- <-]|[Hj Hd]]; [by apply Hp|by eapply D3].
  - intros j d x. rewrite lookup_insert_Some. intros [[<- <-]|[Hj Hd]] Hx; [by apply Hc|].
    intros Hin. eapply D4; eauto. by eapply sublist_subseteq.
  - split; [by eapply sublist_NoDup|]. intros x Hx. apply D6. by eapply sublist_subseteq.
Qed.

Lemma distinct_framed : Framed distinct (fun _ => True) (fun _ => True).
Proof.
  split; try done.
  - intros rs w u u' [D1 D2 D3 D4 [D5 D6]] [_ _ Ho]. split; simpl in *; eauto.
  - intros rs w w' u [] E. split; simpl in *; rewrite ?E; done.
  - intros rs w u k c c' Hd _ Hc Hi. eapply distinct_insert; [done..| |].
    + intros x Hx. apply (inherits_owns c) in Hx; [|done]. split; [by eapply di_free|]. eauto.
    + intros p' Hp'. destruct Hi as [E Hi]. destruct (Hi p' Hp') as (p & Hp & ->). rewrite E.
      by eapply (di_two _ _ Hd).
  - intros rs w u k [D1 D2 D3 D4 D5] _. split; simpl in *; [..|done].
    all: intros *; rewrite !lookup_delete_Some; naive_solver.
  - intros x rs s [D1 D2 D3 D4 [D5 D6]]. apply NoDup_cons in D5 as [_ D5].
    split; try done; [|by split; [|intros y Hy; apply D6; right]].
    intros k c y Hc Hy Hin. eapply D4; eauto. by right.
  - intros rs w u u' [D1 D2 D3 D4 _] [_ _ Ho] [Hn Hnew]. split; simpl in *; eauto.
    + intros k c x Hc Hx Hin. by eapply Hnew, D1.
    + split; [done|]. intros x Hx. by apply Hnew.
  - intros x rs w u k c c' Hd _ Hc [E Hp]. pose proof (di_reserve _ _ Hd) as [[Hx _]%NoDup_cons _].
    eapply distinct_insert; [exact Hd|by apply sublist_cons| |].
    + intros y [->|(p' & Hp' & ->)].
      * rewrite E. assert (Ho : owns c (socket c)) by by left.
        split; [|by eauto]. intros Hin. eapply (di_free _ _ Hd); eauto. by right.
      * rewrite (Hp p' Hp'). split; [done|]. left. by left.
    + intros p' Hp'. rewrite (Hp p' Hp'), E. intros Ex.
      eapply (di_free _ _ Hd k c x); [exact Hc|by left|by left].
Qed.

Lemma distinct_admits : Admits distinct (fun _ => True).
Proof.
  split; [done|].
  intros x rs w u k c Hd _ E Hp. pose proof (di_reserve _ _ Hd) as [[Hx _]%NoDup_cons _].
  assert (Hno : forall p, phase c <> Proxying p)
    by (intros p E'; unfold proxy in Hp; by rewrite E' in Hp).
  eapply distinct_insert; [exact Hd|by apply sublist_cons| |].
  + intros y [->|(p' & Hp' & _)]; [|by destruct (Hno p')]. rewrite E. split; [done|]. left. by left.
  + intros p' Hp'. by destruct (Hno p').
Qed.

End Distinct.

(** ** A connection apart *)

Section Apart.

Context {env : Env} {fs : Filesystem} {mime : MimeGuess} {env_ok : EnvOk env} {wr : Wire env}.
Context {tb : SocketTable env}.

Notation State := (State ReadinessWorker World).

(** The connection in the slot of [kept], if any, is left as it is, no other has the sockets
    [theirs], and no byte has moved on these since [u0]. *)
Context (kept : option (N * Connection)) (theirs : Socket -> Prop) (u0 : World).

Record apart (rs : list Socket) (s : State) : Prop := {
  ap_kept k c : kept = Some (k, c) -> connections (worker s) !! k = Some c;
  ap_others j d x : connections (worker s) !! j = Some d -> owns d x -> theirs x ->
    exists c, kept = Some (j, c);
  ap_reserve x : x ∈ rs -> ~ theirs x;
  ap_opened x : theirs x -> opened x (world s);
  ap_world : disturbs opened (fun x => ~ theirs x) u0 (world s);
}.

(** A slot that is not the one kept. *)
Definition elsewhere_slot (k : N) : Prop := forall c, kept <> Some (k, c).

Lemma apart_framed : Framed apart elsewhere_slot (fun x => ~ theirs x).
Proof.
  split.
  - intros rs w u u' [A1 A2 A3 A4 A5] Hu. split; simpl in *; try done.
    + intros x Hx. apply Hu, A4, Hx.
    + by etrans.
  - intros rs w w' u [] E. split; simpl in *; rewrite ?E; done.
  - intros rs w u k c c' [A1 A2 A3 A4 A5] Hk Hc Hi. split; simpl in *; try done.
    + intros j d Hj. rewrite lookup_insert_ne; [by apply A1|]. intros ->. by eapply Hk.
    + intros j d x. rewrite lookup_insert_Some. intros [[<- <-]|[Hj Hd]]; [|by apply A2].
      intros Hx. apply (inherits_owns c) in Hx; [|done]. by eapply A2.
  - intros rs w u k [A1 A2 A3 A4 A5] Hk. split; simpl in *; try done.
    + intros j d Hj. rewrite lookup_delete_ne; [by apply A1|]. intros ->. by eapply Hk.
    + intros j d x. rewrite lookup_delete_Some. intros [_ Hd]. by apply A2.
  - intros rs w u k c x [A1 A2 A3 A4 A5] Hk Hc Hx Ht. destruct (A2 _ _ _ Hc Hx Ht) as [d Hd].
    by eapply Hk.
  - intros x rs s []. split; try done. intros y Hy. apply ap_reserve0. by right.
  - intros rs w u u' [A1 A2 A3 A4 A5] Hu [_ Hnew]. simpl in *. split; simpl; try done.
    + intros x Hx Ht. destruct (Hnew x Hx) as [Hno _]. by apply Hno, A4.
    + intros x Hx. apply Hu, A4, Hx.
    + etrans; [exact A5|]. by apply disturbs_silent.
  - intros x rs w u k c c' [A1 A2 A3 A4 A5] Hk Hc [E Hp]. split; simpl in *; try done.
    + intros j d Hj. rewrite lookup_insert_ne; [by apply A1|]. intros ->. by eapply Hk.
    + intros j d y. rewrite lookup_insert_Some. intros [[<- <-]|[Hj Hd]]; [|by apply A2].
      intros [->|(p & Hp' & ->)] Ht; [eapply A2; [exact Hc|by left|congruence]|].
      rewrite (Hp _ Hp') in Ht. destruct (A3 x); [by left|done].
    + intros y Hy. apply A3. by right.
Qed.

Lemma apart_admits : Admits apart elsewhere_slot.
Proof.
  split.
  - intros rs w u k [A1 _ _ _ _] Hk c Hc. apply A1 in Hc. simpl in Hc. congruence.
  - intros x rs w u k c [A1 A2 A3 A4 A5] Hk E Hp. split; simpl in *; try done.
    + intros j d Hj. rewrite lookup_insert_ne; [by apply A1|]. intros ->. apply A1 in Hj. congruence.
    + intros j d y. rewrite lookup_insert_Some. intros [[<- <-]|[Hj Hd]]; [|by apply A2].
      intros [->|(p & Hp' & _)] Ht; [|unfold proxy in Hp; by rewrite Hp' in Hp].
      rewrite E in Ht. destruct (A3 x); [by left|done].
    + intros y Hy. apply A3. by right.
Qed.

End Apart.

(** ** Properties *)

Section Properties.

Context {env : Env} {fs : Filesystem} {mime : MimeGuess} {env_ok : EnvOk env} {wr : Wire env}.
Context {tb : SocketTable env}.

Notation State := (State ReadinessWorker World).

(** The states of a worker started with a valid configuration: [new], the iterations of
    [run], and any change of the world that closes no socket. *)
Inductive reached : State -> Prop :=
| reached_new config listener_groups ssl_configs limits proxy_limits dns_limits u w u' :
    config_wf config ->
    new listener_groups (Config.servers (http config)) ssl_configs limits proxy_limits
      dns_limits (upstream_groups config) u = (Ok w, u') ->
    reached (mkState w u')
| reached_tick s s' : reached s -> tick s = Ret false s' -> reached s'
| reached_world w u u' :
    reached (mkState w u) -> disturbs opened (fun _ => True) u u' -> reached (mkState w u').

Lemma reached_reachable s : reached s -> reachable s.
Proof.
  induction 1; [by eapply reachable_new|by eapply reachable_tick|by eapply reachable_world].
Qed.

Lemma new_no_connections groups servers ssl_configs limits proxy_limits dns_limits upstreams u w u' :
  new groups servers ssl_configs limits proxy_limits dns_limits upstreams u = (Ok w, u') ->
  connections w = ∅.
Proof.
  unfold new. destruct (negb _); [done|]. destruct (register_listeners _ _ _) as [[]]; [|done].
  by intros [= <- _].
Qed.

Lemma reached_distinct s : reached s -> distinct [] s.
Proof.
  induction 1 as [config g sc l p d u w u' _ Hn|s s' _ IH Ht|w u u' _ IH Hu].
  - apply new_no_connections in Hn. split; simpl; rewrite ?Hn; try done.
    split; [constructor|]. by intros x ?%not_elem_of_nil.
  - eapply preserves_Ret; [|exact IH|exact Ht]. apply preserves_tick.
    by eapply framed_looped; [apply distinct_framed|apply distinct_admits|].
  - eapply (fr_world _ _ _ distinct_framed); [exact IH|exact Hu].
Qed.

(** C27. No two connections share a socket: in every state that the loop reaches, whatever
    it accepts, connects, closes and forgets, the client socket and the upstream socket of
    every connection are open, they are two sockets, and they are those of no other
    connection. *)
Theorem sockets_are_owned_once s :
  reached s ->
  forall k c x, connections (worker s) !! k = Some c -> owns c x ->
  opened x (world s) /\
  (forall p, phase c = Proxying p -> upstream p <> socket c) /\
  (forall j d, connections (worker s) !! j = Some d -> owns d x -> j = k).
Proof.
  intros Hs%reached_distinct k c x Hc Hx. split; [|split].
  - by eapply di_open.
  - intros p. by apply (di_two _ _ Hs k).
  - intros j d Hd Hdx. by eapply (di_own _ _ Hs).
Qed.

(** The event is for a listener, or for a connection that is not [c] in the slot [k]. *)
Definition foreign_event (k : N) (c : Connection) (e : ReadyEvent) : Prop :=
  ev_token e <> CONTROL_TOKEN /\
  forall id role, from_token (ev_token e) = Some (id, role) ->
    slot id <> k \/ generation id <> conn_generation c.

Lemma distinct_apart s k c :
  distinct [] s -> connections (worker s) !! k = Some c ->
  apart (Some (k, c)) (owns c) (world s) [] s.
Proof.
  intros Hd Hc. split.
  - by intros j d [= <- <-].
  - intros j d x Hj Hx Ht. exists c. by rewrite (di_own _ _ Hd j k d c x Hj Hc Hx Ht).
  - by intros x ?%not_elem_of_nil.
  - intros x. by apply (di_open _ _ Hd k).
  - reflexivity.
Qed.

Lemma foreign_dispatch k c theirs u0 e :
  foreign_event k c e -> preserves (apart (Some (k, c)) theirs u0 []) (dispatch e).
Proof.
  intros [Hc Hf]. unfold dispatch. rewrite (proj2 (N.eqb_neq _ _) Hc).
  pose proof (apart_framed (Some (k, c)) theirs u0) as Hframed.
  pose proof (apart_admits (Some (k, c)) theirs u0) as Hadmits.
  apply preserves_bind; [apply preserves_gets|]. intros count.
  apply preserves_bind; [apply preserves_gets|]. intros draining.
  destruct (_ <? count).
  { destruct (_ && _); [by eapply preserves_accept_ready|apply preserves_skip]. }
  destruct (from_token _) as [[id role]|] eqn:Et; [|apply preserves_skip].
  apply preserves_gets_bind. intros s Hs.
  destruct (is_current_in (worker s) id) eqn:Ecur; [|done].
  assert (Hmine : elsewhere_slot (Some (k, c)) (slot id)).
  { intros d [= E Ed]. apply is_current_in_Some in Ecur as (d' & Hd' & Hg).
    pose proof (ap_kept _ _ _ _ _ Hs k c eq_refl) as Hk. rewrite E in Hk.
    destruct (Hf id role eq_refl) as [H|H]; [by apply H|]. congruence. }
  destruct role.
  - exact (respects_dispatch_client _ _ _ Hframed id Hmine e [] s Hs).
  - exact (respects_dispatch_upstream _ _ _ Hframed id Hmine e [] s Hs).
Qed.

(** C28. Connections are isolated: in every state that the loop reaches, an event of a
    listener, of another connection or of an earlier one in the same slot leaves a
    connection exactly as it is, and moves no byte on its sockets, whether the handler
    returns or fails. *)
Theorem events_isolated s k c e :
  reached s -> connections (worker s) !! k = Some c -> foreign_event k c e ->
  match dispatch e s with
  | Ret _ s' | Fail _ s' =>
    connections (worker s') !! k = Some c /\
    forall x, owns c x -> wire x (world s') = wire x (world s)
  | Panicked => True
  end.
Proof.
  intros Hs%reached_distinct Hc He.
  pose proof (foreign_dispatch k c (owns c) (world s) e He s (distinct_apart s k c Hs Hc)) as H.
  destruct (dispatch e s) as [[] s'|er s'|]; [|..]; try done.
  all: split; [by eapply ap_kept|]; intros x Hx; eapply (ds_wire _ _ _ _ (ap_world _ _ _ _ _ H)); tauto.
Qed.

End Properties.

(** ** A world with such sockets *)

Lemma number_sockets_range results : forall n rs m,
  number_sockets n results = (rs, m) ->
  n <= m /\ NoDup (oks rs) /\ forall x, x ∈ oks rs -> n <= x < m.
Proof.
  induction results as [|[a|e] results IH]; intros n rs m; simpl.
  - intros [= <- <-]. split_and!; [lia|constructor|]. by intros x ?%not_elem_of_nil.
  - destruct (number_sockets (n + 1) results) as [l k] eqn:E. intros [= <- <-].
    destruct (IH _ _ _ E) as (Hm & Hn & Hx). change (oks (Ok n :: l)) with (n :: oks l).
    split_and!; [lia| |].
    + constructor; [|done]. intros ?%Hx. lia.
    + intros x [->|Hin]%elem_of_cons; [lia|]. apply Hx in Hin. lia.
  - destruct (number_sockets n results) as [l k] eqn:E. intros [= <- <-]. by destruct (IH _ _ _ E).
Qed.

(** The sockets below the counter are open. *)
Definition numbered_opened (s : N) (w : Numbered) : Prop := s < w.2.

Section Numbered.

#[local] Existing Instance numbered_env.
#[local] Existing Instance numbered_wire.

Notation below := (numbered_opened : @Socket numbered_env -> @World numbered_env -> Prop).

Lemma numbered_moves {A} (x : N) (f : Script -> A * Script) :
  (forall w a w', f w = (a, w') ->
     (forall y, y <> x -> script_channel y w' = script_channel y w) /\
     ch_sent (script_channel x w) `prefix_of` ch_sent (script_channel x w')) ->
  moves (env := numbered_env) below x (with_number f).
Proof.
  intros Hf u a u' [H Hn]%with_number_inv. destruct (Hf _ _ _ H) as [Ho Hp]. split.
  - intros y Hy. apply Ho. intros ->. by apply Hy.
  - intros y. destruct (decide (y = x)) as [->|Hy]; [exact Hp|].
    change (ch_sent (script_channel y u.1) `prefix_of` ch_sent (script_channel y u'.1)).
    by rewrite (Ho y Hy).
  - intros y. change (y < u.2 -> y < u'.2). by rewrite Hn.
Qed.

Lemma numbered_silent {A} (f : Script -> A * Script) :
  (forall w a w', f w = (a, w') -> forall y, script_channel y w' = script_channel y w) ->
  silent (env := numbered_env) below (with_number f).
Proof.
  intros Hf u a u' [H Hn]%with_number_inv. split.
  - intros y _. exact (Hf _ _ _ H y).
  - intros y. change (ch_sent (script_channel y u.1) `prefix_of` ch_sent (script_channel y u'.1)).
    by rewrite (Hf _ _ _ H y).
  - intros y. change (y < u.2 -> y < u'.2). by rewrite Hn.
Qed.

Lemma numbered_read_moves x n :
  moves (env := numbered_env) below x (with_number (script_read x n)).
Proof.
  apply numbered_moves. intros w r w' H. split.
  - intros y Hy. by eapply script_channel_read_other.
  - by rewrite (script_channel_read _ _ _ _ _ H).
Qed.

Lemma numbered_accepts_opens l u rs u' :
  numbered_accepts l u = (rs, u') ->
  silent (env := numbered_env) below (numbered_accepts l) ->
  opens (env := numbered_env) below (oks rs) u u'.
Proof.
  unfold numbered_accepts. destruct u as [w n]. simpl.
  destruct (number_sockets n (incoming w)) as [l' m] eqn:E. intros [= <- <-] _.
  destruct (number_sockets_range _ _ _ _ E) as (Hm & Hn & Hx). split; [exact Hn|].
  intros x Hin. specialize (Hx x Hin). unfold numbered_opened. simpl. lia.
Qed.

Lemma numbered_accepts_silent l : silent (env := numbered_env) below (numbered_accepts l).
Proof.
  intros [w n] rs u'. unfold numbered_accepts. simpl.
  destruct (number_sockets n (incoming w)) as [l' m] eqn:E. intros [= <- <-].
  destruct (number_sockets_range _ _ _ _ E) as (Hm & _ & _). split; simpl.
  - done.
  - done.
  - unfold numbered_opened. simpl. lia.
Qed.

Definition numbered_table : SocketTable numbered_env.
Proof.
  refine {| opened := below |}; try (by intros; apply numbered_silent; intros w r w' [= <- <-]).
  - apply numbered_accepts_silent.
  - intros l u rs u' H. eapply numbered_accepts_opens; [exact H|apply numbered_accepts_silent].
  - intros a [w n] x u' [= <- <-]. split; simpl; [done|done|]. unfold numbered_opened. simpl. lia.
  - intros a [w n] x u' [= <- <-]. split; [repeat constructor; set_solver|].
    intros y ->%list_elem_of_singleton. unfold numbered_opened. simpl. lia.
  - apply numbered_read_moves.
  - intros x n. apply numbered_moves. intros w rs w'. simpl.
    destruct (script_read x n w) as [r w1] eqn:E. intros [= <- <-]. split.
    + intros y Hy. by eapply script_channel_read_other.
    + pose proof (f_equal ch_sent (script_channel_read _ _ _ _ _ E)) as Hs. simpl in Hs. by rewrite Hs.
  - intros x b. apply numbered_moves. intros w r w' [= <- <-]. unfold script_channel. split; simpl.
    + intros y Hy. by rewrite append_lookup_ne.
    + rewrite append_lookup. by apply prefix_app_r.
  - intros t. apply numbered_silent. intros w r w'. unfold script_poll.
    destruct (events w); by intros [= <- <-].
  - intros t x. by apply numbered_moves; intros w a w' [= <- <-].
  - intros t x. by apply numbered_moves; intros w a w' [= <- <-].
Defined.

End Numbered.

(** ** A run

    Two clients connect, on the sockets 8 and 9; the request of the first goes to an
    upstream, on the socket 10. *)

#[local] Existing Instance numbered_env.
#[local] Existing Instance numbered_env_ok.
#[local] Existing Instance numbered_wire.
#[local] Existing Instance numbered_table.
#[local] Instance numbered_fs : Filesystem := example_fs.
#[local] Instance numbered_mime : MimeGuess := example_mime.

Definition NumberedState : Type := State (ReadinessWorker (env := numbered_env)) Numbered.

Definition numbered_server : Server := {|
  server_name := None;
  locations := [{| matcher := Prefix (str "/");
                   action := Config.Proxy (Some (str "http://10.0.0.1:80")) None [] RoundRobin |}];
  listen := SocketAddrV4 0 8089; Config.ssl := None;
|}.

Definition numbered_config : Config := {|
  http := {| Config.servers := [numbered_server] |};
  runtime := default_runtime_config; worker_count := 1; Config.worker := default_worker_config;
  Config.proxy := default_proxy_timeout_config; dns := default_dns_config; upstream_groups := ∅;
|}.

Lemma numbered_config_wf : config_wf numbered_config.
Proof.
  destruct (default_config_valid (Some 1) map_to_list) as (_ & H1 & H2 & H3 & H4 & H5 & _); [done|].
  split_and!; try done. apply Forall_singleton. split; [done|]. apply Forall_singleton.
  constructor; vm_compute; done.
Qed.

Definition numbered_id : ConnectionId := mkConnectionId 0 1.

Definition numbered_other : ConnectionId := mkConnectionId 1 1.

Definition readable_on (t : Token) : ReadyEvent := mkReadyEvent t true false false false false.

Definition writable_on (t : Token) : ReadyEvent := mkReadyEvent t false true false false false.

(** What the sockets give, in order. *)
Definition numbered_reads : gmap N (list (io_result bytes)) :=
  {[8 := [Ok (str "GET / HTTP/1.1" ++ crlf ++ str "Host: a" ++ crlf ++ crlf)];
    9 := [Ok (str "nonsense" ++ crlf ++ crlf)];
    10 := [Ok (str "HTTP/1.1 200"); Err Interrupted; Ok (str " OK"); Ok []]]}.

(** What the poller reports, one list for each iteration of the loop. *)
Definition numbered_events : list (io_result (list ReadyEvent)) :=
  [ Ok [readable_on 0];
    Ok [readable_on (packed numbered_id Client)];
    Ok [writable_on (packed numbered_id Upstream)];
    Ok [readable_on (packed numbered_id Upstream); readable_on (packed numbered_other Client)];
    Err Interrupted;
    Ok [writable_on (packed numbered_other Client); writable_on (packed numbered_id Client)];
    Ok [readable_on (packed numbered_id Upstream)];
    Ok [writable_on (packed numbered_id Client)] ].

Definition numbered_world (results : list (ConnectionId * io_result (list SocketAddr))) (w : Numbered) :
    Numbered :=
  ({| time := time w.1; reads := reads w.1; taken := taken w.1; written := written w.1;
      finished := finished w.1; capacity := capacity w.1; incoming := incoming w.1;
      events := events w.1; resolved := results; stopping := stopping w.1 |}, w.2).

(** The next event comes an iteration later. *)
Definition numbered_delay (w : Numbered) : Numbered :=
  ({| time := time w.1; reads := reads w.1; taken := taken w.1; written := written w.1;
      finished := finished w.1; capacity := capacity w.1; incoming := incoming w.1;
      events := Ok [] :: events w.1; resolved := resolved w.1; stopping := stopping w.1 |}, w.2).

Definition numbered_limits : ProxyLimits := mkProxyLimits 1000000000 1000000000 1000000000.

Definition numbered_start : option NumberedState :=
  match new [(5, 0, [0])] (Config.servers (http numbered_config)) [None] script_limits
    numbered_limits (mkDnsLimits 1 1000000000) (upstream_groups numbered_config)
    ({| time := 1000; reads := numbered_reads; taken := ∅; written := ∅; finished := ∅;
        capacity := 50; incoming := [Ok 0; Ok 0]; events := numbered_events; resolved := [];
        stopping := false |}, 8) with
  | (Ok w, u) => Some (mkState w u)
  | (Err _, _) => None
  end.

(** [n] iterations, if the loop does not end. *)
Definition iterate (n : nat) (s : NumberedState) : option NumberedState :=
  match run_for n s with Ret false s' => Some s' | _ => None end.

(** Until the name of the upstream is resolved; [f] is what happens then. *)
Definition numbered_resolved (f : Numbered -> Numbered) : option NumberedState :=
  s ← numbered_start;
  s ← iterate 2 s;
  iterate 1 (mkState (worker s)
    (f (numbered_world [(numbered_id, Ok [SocketAddrV4 1 80])] (world s)))).

(** Until the upstream is connecting. *)
Definition numbered_connecting : option NumberedState := numbered_resolved numbered_delay.

(** Until the request has been sent to the upstream. *)
Definition numbered_proxied : option NumberedState := numbered_resolved id.

Lemma numbered_world_disturbs rs w : disturbs opened (fun _ => True) w (numbered_world rs w).
Proof. by split. Qed.

Lemma numbered_delay_disturbs w : disturbs opened (fun _ => True) w (numbered_delay w).
Proof. by split. Qed.

Lemma iterate_reached n : forall s s', reached s -> iterate n s = Some s' -> reached s'.
Proof.
  unfold iterate. induction n as [|n IH]; intros s s' Hs; simpl; [by intros [= <-]|].
  unfold mbind, Handler_bind. destruct (tick s) as [[] s1|e s1|] eqn:E; try done.
  apply IH. by eapply reached_tick.
Qed.

Lemma numbered_resolved_reached f s :
  (forall w, disturbs opened (fun _ => True) w (f w)) -> numbered_resolved f = Some s -> reached s.
Proof.
  intros Hf. unfold numbered_resolved, numbered_start.
  destruct (new _ _ _ _ _ _ _ _) as [[w|e] u] eqn:E; [|done]. simpl.
  destruct (iterate 2 _) as [s1|] eqn:E1; [|done]. simpl. apply iterate_reached.
  apply (reached_world (env := numbered_env) _ (world s1));
    [|etrans; [apply numbered_world_disturbs|apply Hf]].
  assert (H : reached (mkState w u)) by (eapply (reached_new numbered_config); [apply numbered_config_wf|exact E]).
  apply (iterate_reached _ _ _ H) in E1. by destruct s1.
Qed.

Lemma numbered_proxied_reached s : numbered_proxied = Some s -> reached s.
Proof. by apply numbered_resolved_reached. Qed.

Lemma numbered_connecting_reached s : numbered_connecting = Some s -> reached s.
Proof. apply numbered_resolved_reached, numbered_delay_disturbs. Qed.

(** Two clients, the first with an upstream. *)
Definition proxied_on (k : N) (x y : N) (s : NumberedState) : bool :=
  bool_decide (size (connections (worker s)) = 2%nat) &&
  match connections (worker s) !! k with
  | Some c =>
    match proxy c with
    | Some p => bool_decide (socket c = x) && bool_decide (upstream p = y)
    | None => false
    end
  | None => false
  end.

Lemma numbered_proxied_test :
  match numbered_proxied with Some s => proxied_on 0 8 10 s | None => false end = true.
Proof. by vm_compute. Qed.

Lemma proxied_on_inv k x y s :
  proxied_on k x y s = true ->
  size (connections (worker s)) = 2%nat /\
  exists c p, connections (worker s) !! k = Some c /\ phase c = Proxying p /\
    socket c = x /\ upstream p = y.
Proof.
  unfold proxied_on. intros [Hs%bool_decide_eq_true H]%andb_true_iff. split; [done|].
  destruct (connections (worker s) !! k) as [c|] eqn:Hc; [|done].
  destruct (proxy c) as [p|] eqn:Hp; [|done]. apply proxy_Some in Hp.
  apply andb_true_iff in H as [Hx%bool_decide_eq_true Hy%bool_decide_eq_true]. by exists c, p.
Qed.

Lemma sockets_are_owned_once_witness :
  exists s : NumberedState, reached s /\ size (connections (worker s)) = 2%nat /\
    opened 10 (world s) /\
    forall j d, connections (worker s) !! j = Some d -> owns d 10 -> j = 0.
Proof.
  pose proof numbered_proxied_test as Htest.
  destruct numbered_proxied as [s|] eqn:E; [|done]. apply numbered_proxied_reached in E.
  apply proxied_on_inv in Htest as (Hsize & c & p & Hc & Hp & _ & Hup).
  assert (Hx : owns c 10) by (right; exists p; by rewrite Hup).
  destruct (sockets_are_owned_once s E 0 c 10 Hc Hx) as (Ho & _ & Hown). by exists s.
Defined.

(** The other client's nonsense, while the first is served. *)
Definition numbered_nonsense : ReadyEvent := readable_on (packed numbered_other Client).

Lemma numbered_nonsense_test :
  match numbered_proxied with
  | Some s => proxied_on 0 8 10 s && returns (dispatch numbered_nonsense s) (fun _ _ => true)
  | None => false
  end = true.
Proof. by vm_compute. Qed.

Lemma numbered_nonsense_foreign c : foreign_event 0 c numbered_nonsense.
Proof. split; [done|]. intros id role. vm_compute. intros [= <- _]. by left. Qed.

Lemma events_isolated_witness :
  exists (s s' : NumberedState) c, reached s /\ connections (worker s) !! 0 = Some c /\
    dispatch numbered_nonsense s = Ret tt s' /\
    connections (worker s') !! 0 = Some c /\ wire 10 (world s') = wire 10 (world s).
Proof.
  pose proof numbered_nonsense_test as Htest. pose proof numbered_proxied_reached as Hreached.
  destruct numbered_proxied as [s|]; [|done]. specialize (Hreached s eq_refl).
  apply andb_true_iff in Htest as [(_ & c & p & Hc & Hp & _ & Hup)%proxied_on_inv Hret].
  pose proof (events_isolated s 0 c numbered_nonsense Hreached Hc (numbered_nonsense_foreign c)) as H.
  destruct (dispatch numbered_nonsense s) as [[] s'|e s'|] eqn:Ed; [|discriminate Hret..].
  destruct H as [Hk Hw]. exists s, s', c. split; [exact Hreached|]. split; [exact Hc|].
  split; [exact Ed|]. split; [exact Hk|]. apply Hw. right. exists p. by rewrite Hup.
Defined.
