(* ===== verification/ReadinessRelay.v ===== *)
(** * The request and the response that the readiness worker passes on

    A proxied exchange against the bytes on the wire: whatever the events of its connection,
    the upstream is sent the request, and then the client what the upstream sent, in order
    and without loss. *)

From S2P Require Import Prelude RustStd Config Http Router LoadBalancer Proxy StaticFiles Runtime Token Handler Connection Readiness ReadinessInv ReadinessLoop Script ReadinessIO.

Local Open Scope N_scope.

(** Successive reads amount to the one that is not interrupted. *)
Lemma reads_first rs (ch : Channel) :
  Forall (eq (Err Interrupted)) (removelast rs) ->
  foldl (fun ch r => channel_read r ch) ch rs = channel_read (first_uninterrupted rs) ch.
Proof.
  assert (Hno : forall e, channel_read (Err e) ch = ch)
    by (intros e; destruct ch; unfold channel_read; simpl; by rewrite app_nil_r, orb_false_r).
  induction rs as [|r rs IH]; simpl; [by rewrite Hno|].
  destruct rs as [|r' rs].
  - intros _. simpl. by destruct r as [b|[]]; rewrite ?Hno.
  - intros [<- Hrs]%Forall_cons. rewrite Hno. by apply IH.
Qed.

(** No byte has moved but those the socket [x] was sent. *)
Definition quiet {env : Env} {wr : Wire env} (x : Socket) (u u' : World) : Prop :=
  (forall y, y <> x -> wire y u' = wire y u) /\ received x u' = received x u /\
  ended x u' = ended x u.

Section Quiet.

Context {env : Env} {wr : Wire env}.

Lemma quiet_wires x u u' : (forall y, wire y u' = wire y u) -> quiet x u u'.
Proof. intros H. unfold quiet, received, ended. split_and!; intros; by rewrite H. Qed.

Lemma quiet_trans x u1 u2 u3 : quiet x u1 u2 -> quiet x u2 u3 -> quiet x u1 u3.
Proof.
  intros (H1 & H2 & H3) (K1 & K2 & K3). split_and!; [|congruence..].
  intros y Hy. by rewrite K1, H1.
Qed.

Lemma quiet_write x b u r u' : sock_write x b u = (r, u') -> quiet x u u'.
Proof.
  intros H. split; [intros y Hy; by eapply wire_write_other|].
  unfold received, ended. by rewrite (wire_write _ _ _ _ _ H).
Qed.

End Quiet.

Section Relay.

Context {env : Env} {fs : Filesystem} {mime : MimeGuess} {env_ok : EnvOk env} {wr : Wire env}.

Notation M := (Handler ReadinessWorker World).
Notation State := (State ReadinessWorker World).

(** The connection and its two sockets; the bytes [req0] that its upstream was sent or
    will be sent, those [out0] that its client was sent or will be sent, and those [in0]
    read from its upstream, when we start looking. *)
Context (id : ConnectionId) (client up : Socket) (req0 out0 in0 : bytes).

(** What the upstream has still to be sent. *)
Definition request_left (p : ProxyState) : bytes :=
  if decide (proxy_phase p = ReadingResponse) then [] else unsent p.

(** The connection [c] passes the request on to the upstream [p], then relays its response:
    of the [r] bytes read since, what the client has not been sent is what remains in the
    buffer. *)
Record relaying (c : Connection) (p : ProxyState) (r : bytes) (s : State) : Prop := {
  rl_current : connections (worker s) !! slot id = Some c;
  rl_generation : conn_generation c = generation id;
  rl_phase : phase c = Proxying p;
  rl_eof : upstream_eof p = false;
  rl_offset : request_offset p <= len (request_buffer p);
  rl_request : sent up (world s) ++ request_left p = req0;
  rl_reading : r = [] \/ proxy_phase p = ReadingResponse;
  rl_plain : ssl c = None /\ static_stream c = None;
  rl_sockets : socket c = client /\ upstream p = up;
  rl_range : write_offset c <= len (write_buffer c);
  rl_received : received up (world s) = in0 ++ r;
  rl_sent : sent client (world s) ++ unwritten c = out0 ++ r;
  rl_open : ended up (world s) = false;
  rl_started : response_started p = false -> r = [];
}.

(** The upstream was sent a prefix of the request, the whole if it has answered. *)
Definition requested (r : bytes) (s : State) : Prop :=
  exists left, sent up (world s) ++ left = req0 /\ (r = [] \/ left = []).

(** The connection is gone: the client was sent a prefix, and everything if the upstream
    had come to its end. *)
Definition closed (r : bytes) (s : State) : Prop :=
  connections (worker s) !! slot id = None /\ requested r s /\
  received up (world s) = in0 ++ r /\
  exists l, sent client (world s) ++ l = out0 ++ r /\ (ended up (world s) = true -> l = []).

(** The connection answers with an error instead: nothing has been relayed. *)
Definition refused (r : bytes) (s : State) : Prop :=
  r = [] /\ requested r s /\ received up (world s) = in0 /\ sent client (world s) = out0 /\
  exists c, connections (worker s) !! slot id = Some c /\ proxy c = None /\ socket c = client.

Definition relayed (s : State) : Prop :=
  exists r, (exists c p, relaying c p r s) \/ closed r s \/ refused r s.

(** Relaying, or the connection is gone. *)
Definition on_or_closed (s : State) : Prop :=
  exists r, (exists c p, relaying c p r s) \/ closed r s.

Lemma on_relaying c p r s : relaying c p r s -> on_or_closed s.
Proof. intros H. exists r. left. by exists c, p. Qed.

Lemma on_closed r s : closed r s -> on_or_closed s.
Proof. intros H. exists r. by right. Qed.

Lemma on_relayed s : on_or_closed s -> relayed s.
Proof. intros (r & [H|H]); exists r; auto. Qed.

Hypothesis Hid : id_wf id.
Hypothesis Hne : client <> up.

(** ** Lemmas *)

Lemma relaying_current c p r w u : relaying c p r (mkState w u) -> is_current_in w id = true.
Proof. intros H. by apply (is_current_in_occupied w id c); apply H. Qed.

(** What neither touches the connection nor moves a byte. *)
Lemma relaying_frame c p r w u w' u' :
  relaying c p r (mkState w u) -> connections w' = connections w ->
  (forall k, wire k u' = wire k u) -> relaying c p r (mkState w' u').
Proof.
  intros [] E Hu. constructor; simpl in *; try done; unfold received, sent, ended in *;
    rewrite ?Hu, ?E; done.
Qed.

Lemma relaying_world c p r w u u' :
  relaying c p r (mkState w u) -> (forall k, wire k u' = wire k u) ->
  relaying c p r (mkState w u').
Proof. intros H Hu. by apply (relaying_frame c p r w u). Qed.

Lemma requested_frame r w u w' u' :
  requested r (mkState w u) -> sent up u' = sent up u -> requested r (mkState w' u').
Proof. unfold requested. simpl. by intros H ->. Qed.

Lemma request_left_reading p : proxy_phase p = ReadingResponse -> request_left p = [].
Proof. intros H. unfold request_left. by rewrite decide_True. Qed.

Lemma relaying_requested c p r s : relaying c p r s -> requested r s.
Proof.
  intros []. exists (request_left p). split; [done|]. destruct rl_reading0; [by left|right].
  by apply request_left_reading.
Qed.

Lemma closed_frame r w u w' u' :
  closed r (mkState w u) -> connections w' = connections w -> (forall k, wire k u' = wire k u) ->
  closed r (mkState w' u').
Proof.
  intros (Hc & Hq & H) E Hu. split; [by rewrite <- Hc; simpl; rewrite E|].
  split; [eapply requested_frame; [exact Hq|]|]; unfold received, sent, ended in *; simpl in *;
    by rewrite ?Hu.
Qed.

Lemma on_or_closed_worker w w' u :
  on_or_closed (mkState w u) -> connections w' = connections w -> on_or_closed (mkState w' u).
Proof.
  intros (r & [(c & p & H)|H]) E.
  - eapply on_relaying, relaying_frame; [exact H|done..].
  - eapply on_closed, closed_frame; [exact H|done..].
Qed.

(** A change of the connection that keeps what it relays. *)
Lemma relaying_update c p r w u f :
  relaying c p r (mkState w u) ->
  (forall c, conn_generation (f c) = conn_generation c /\ phase (f c) = phase c /\
     ssl (f c) = ssl c /\ static_stream (f c) = static_stream c /\ socket (f c) = socket c) ->
  write_offset (f c) <= len (write_buffer (f c)) -> unwritten (f c) = unwritten c ->
  relaying (f c) p r (mkState (set_connections (<[slot id := f c]> (connections w)) w) u).
Proof.
  intros [] Hf Ho Hu. destruct (Hf c) as (E1 & E2 & E3 & E4 & E5).
  constructor; simpl in *; try by rewrite ?E1, ?E2, ?E3, ?E4, ?E5, ?Hu.
  apply lookup_insert_eq.
Qed.

Lemma relaying_touch c p r w u t :
  relaying c p r (mkState w u) ->
  relaying (set_last_progress t c) p r
    (mkState (set_connections (<[slot id := set_last_progress t c]> (connections w)) w) u).
Proof. intros H. apply relaying_update; [done|done|apply H|done]. Qed.

(** Dropping the connection. *)
Lemma wp_remove_closed c r l w u :
  connections w !! slot id = Some c -> conn_generation c = generation id ->
  requested r (mkState w u) -> received up u = in0 ++ r -> sent client u ++ l = out0 ++ r ->
  (ended up u = true -> l = []) ->
  wp (remove_connection id) (fun _ => closed r) (fun _ => False) (mkState w u).
Proof.
  intros Hc Hg Hq Hr Hs He. destruct (remove_connection_wire id w u) as (u' & E & Hu).
  eapply wp_of_Ret; [exact E|]. unfold closed.
  split; [by eapply forget_lookup|]. split.
  - eapply requested_frame; [exact Hq|]. unfold sent. by rewrite Hu.
  - unfold received, sent, ended in *. simpl. rewrite !Hu. split; [done|]. by exists l.
Qed.

Lemma wp_remove_relaying c p r w u :
  relaying c p r (mkState w u) ->
  wp (remove_connection id) (fun _ => closed r) (fun _ => False) (mkState w u).
Proof.
  intros H. pose proof (relaying_requested _ _ _ _ H). destruct H. simpl in *.
  eapply wp_remove_closed; try done. by rewrite rl_open0.
Qed.

Lemma wp_reregister c p r i w u :
  relaying c p r (mkState w u) ->
  wp (reregister_client id i) (fun _ s => relaying c p r s \/ closed r s) (fun _ => False)
    (mkState w u).
Proof.
  intros H. unfold reregister_client. apply wp_bind, (wp_index _ c); [apply H|].
  destruct (client_token id Hid) as [t Ht]. apply wp_bind, wp_lift; [|by rewrite Ht].
  intros t' _. apply wp_bind, wp_sys. intros res u' Hu.
  assert (H' : relaying c p r (mkState w u')).
  { eapply relaying_world; [exact H|]. intros k. by eapply wire_reregister. }
  destruct res; [apply wp_skip; by left|].
  eapply wp_mono; [by apply (wp_remove_relaying c p r)| |done]. intros [] s H1. by right.
Qed.

(** *** Writing to the client *)

Lemma relaying_progressed c p r w u k t w' u' :
  relaying c p r (mkState w u) -> k <= len (unwritten c) ->
  connections w' !! slot id = Some (progressed k t c) ->
  sent (socket c) u' = sent (socket c) u ++ take (N.to_nat k) (unwritten c) ->
  (forall s', s' <> socket c -> wire s' u' = wire s' u) ->
  relaying (progressed k t c) p r (mkState w' u').
Proof.
  intros [] Hk Hc Hs Ho. destruct rl_sockets0 as [E1 E2]. simpl in *.
  assert (Hup : wire up u' = wire up u) by (apply Ho; congruence).
  assert (Hreq : sent up u' = sent up u) by (unfold sent; by rewrite Hup).
  constructor; simpl; rewrite ?Hreq; try done; unfold received, ended in *; rewrite ?Hup; try done.
  - unfold unwritten in Hk. rewrite len_drop in Hk. lia.
  - rewrite <- E1, Hs, unwritten_progressed, <- app_assoc, take_drop, E1. done.
Qed.

Lemma drained_unwritten c :
  write_offset c <= len (write_buffer c) -> drained c = true -> unwritten c = [].
Proof.
  unfold drained, unwritten. intros _ ->%N.eqb_eq. unfold len. by rewrite Nat2N.id, drop_all.
Qed.

(** A relayed chunk has been written out. *)
Lemma wp_chunk_written c p r w u :
  relaying c p r (mkState w u) -> drained c = true ->
  wp (response_written id) (fun _ => on_or_closed) (fun _ => False) (mkState w u).
Proof.
  intros H Hd. pose proof H as []. simpl in *.
  destruct rl_plain0 as [Hssl Hst]. pose proof rl_eof0 as Heof.
  pose proof (drained_unwritten c rl_range0 Hd) as Hu.
  unfold response_written. apply wp_bind, (wp_index _ c); [done|]. rewrite Hst.
  apply wp_bind, wp_modify, wp_bind, wp_gets. unfold proxy at 1. rewrite rl_phase0.
  set (w1 := update_metrics _ w).
  assert (H1 : relaying c p r (mkState w1 u)) by (eapply relaying_frame; [exact H|done..]).
  rewrite Heof, orb_false_r. destruct (draining _).
  - unfold close_client. apply wp_bind, wp_gets. rewrite (relaying_current _ _ _ _ _ H1). cbn [negb].
    apply wp_bind, (wp_index _ c); [done|]. rewrite Hssl.
    eapply wp_mono; [by apply (wp_remove_relaying c p r)| |done]. intros [] s. apply on_closed.
  - apply wp_bind, (wp_update_slot _ _ _ _ c); [done|]. set (w2 := set_connections _ w1).
    assert (H2 : relaying (set_write_buffer [] 0 c) p r (mkState w2 u)).
    { apply relaying_update; [done|done|simpl; lia|by rewrite Hu]. }
    apply wp_bind. eapply wp_mono; [by apply (wp_reregister (set_write_buffer [] 0 c) p r)| |done].
    intros [] [w3 u3] H3. apply wp_modify, (on_or_closed_worker w3); [|done].
    destruct H3 as [H3|H3]; [by eapply on_relaying|by eapply on_closed].
Qed.

Lemma wp_write_ready c p r w u :
  relaying c p r (mkState w u) ->
  wp (write_ready id) (fun _ => on_or_closed) (fun _ => False) (mkState w u).
Proof.
  intros H. pose proof H as []. simpl in *. destruct rl_plain0 as [Hssl Hst].
  unfold write_ready. apply wp_bind, wp_gets. rewrite (relaying_current _ _ _ _ _ H). cbn [negb].
  apply wp_bind, (wp_index _ c); [done|]. rewrite Hssl, (bool_decide_eq_false_2 _) by auto.
  rewrite andb_false_r. cbn [andb]. apply wp_bind.
  eapply wp_mono; [by apply (write_loop_wrote _ id w u c)| |done].
  intros o [w' u'] [(k & t & Hk & Hc & Hs & Ho) _]. simpl in Hc, Hs, Ho.
  assert (H' : relaying (progressed k t c) p r (mkState w' u')) by by eapply relaying_progressed.
  destruct o.
  - apply wp_skip. by eapply on_relaying.
  - eapply wp_mono; [by eapply wp_remove_relaying| |done]. intros [] s. apply on_closed.
  - apply wp_bind, wp_gets. rewrite (relaying_current _ _ _ _ _ H'). cbn [negb].
    apply wp_bind, (wp_index _ _ _ _ _ _ Hc).
    assert (ssl_wants_write (progressed k t c) = false) as ->
      by (unfold ssl_wants_write; simpl; by rewrite Hssl).
    unfold is_writing_response, is_proxying. simpl. rewrite rl_phase0, andb_true_r. cbn [orb].
    destruct (drained _) eqn:Hd; [by eapply wp_chunk_written|].
    apply wp_skip. by eapply on_relaying.
Qed.

(** *** Reading from the client *)

Lemma wp_discard_loop n : forall c p r w u,
  relaying c p r (mkState w u) ->
  wp (discard_loop n id) (fun _ s => exists c', relaying c' p r s) (fun _ => False) (mkState w u).
Proof.
  induction n as [|n IH]; intros c p r w u H; simpl; [apply wp_ret; by exists c|].
  apply wp_bind, (wp_index _ c); [apply H|]. apply wp_bind, wp_sys. intros res u' Hres.
  assert (H' : relaying c p r (mkState w u')).
  { pose proof H as []. simpl in *. destruct rl_sockets0 as [E1 E2].
    rewrite E1 in Hres. pose proof (wire_read _ _ _ _ _ Hres) as Hc.
    assert (Hup : wire up u' = wire up u) by (eapply wire_read_other; [exact Hres|congruence]).
    constructor; simpl; try done; unfold received, sent, ended in *; rewrite ?Hup, ?Hc; done. }
  destruct res as [[|x b]|[]]; try (apply wp_ret; by exists c); [|by eapply IH].
  apply wp_bind, wp_sys. intros t u2 Ht. apply wp_bind, (wp_update_slot _ _ _ _ c); [apply H|].
  eapply IH, relaying_touch, relaying_world; [exact H'|]. intros k. by eapply wire_now.
Qed.

Lemma wp_connection_ready s :
  on_or_closed s -> wp (connection_ready id) (fun _ => on_or_closed) (fun _ => False) s.
Proof.
  destruct s as [w u]. intros (r & [(c & p & H)|H]); unfold connection_ready;
    apply wp_bind, wp_gets.
  - rewrite (relaying_current _ _ _ _ _ H). cbn [negb]. apply wp_bind, (wp_index _ c); [apply H|].
    unfold is_handling_request. rewrite (rl_phase _ _ _ _ H). unfold client_during_proxy_ready.
    apply wp_bind, (wp_index _ c); [apply H|]. apply wp_bind.
    eapply wp_mono; [by eapply wp_discard_loop| |done]. intros close [w' u'] [c' H'].
    destruct close; [|apply wp_skip; by eapply on_relaying].
    eapply wp_mono; [by eapply wp_remove_relaying| |done]. intros [] s. apply on_closed.
  - pose proof (proj1 H) as Hgone. simpl in Hgone.
    assert (is_current_in w id = false) as -> by (unfold is_current_in; by rewrite Hgone).
    apply wp_skip. by eapply on_closed.
Qed.

(** *** The upstream *)

Lemma queue_response_refused c w u response l :
  connections w !! slot id = Some c -> conn_generation c = generation id -> socket c = client ->
  requested l (mkState w u) -> received up u = in0 -> sent client u = out0 ->
  l = @nil Byte.byte ->
  wp (queue_response id response) (fun _ s => closed l s \/ refused l s) (fun _ => False)
    (mkState w u).
Proof.
  intros Hc Hg Hsock Hreq Hr Hs ->.
  assert (Hq : forall s, connections (worker s) !! slot id = None \/
      connections (worker s) !! slot id =
        Some (set_write_buffer (fitting w response) 0 (begin_response c)) ->
    (forall k, wire k (world s) = wire k u) -> closed [] s \/ refused [] s).
  { intros [w' u'] Hq Hu. simpl in Hu.
    assert (Hreq' : requested [] (mkState w' u')).
    { eapply requested_frame; [exact Hreq|]. unfold sent. by rewrite Hu. }
    unfold closed, refused, received, sent in *. simpl.
    rewrite !Hu, Hr, Hs. destruct Hq as [Hq|Hq]; simpl in Hq; [left|right].
    - rewrite !app_nil_r. split_and!; [done..|]. exists []. by rewrite app_nil_r.
    - split_and!; [done..|]. eexists. split; [exact Hq|done]. }
  apply (wp_queue_response id w u c); [done..|]. intros t [[]|e] u' w' _ Hu' Hc'.
  - apply Hq; [by right|]. intros k. by eapply wire_reregister.
  - intros s Hs' Hgone. apply Hq; [by left|]. intros k.
    destruct (remove_connection_wire id w' u') as (u2 & E & Hu2). rewrite E in Hs'.
    injection Hs' as <-. simpl. rewrite Hu2. by eapply wire_reregister.
Qed.

(** The relay fails: an error response if nothing was relayed, else the end. *)
Lemma wp_fail_proxy c p r status message w u :
  relaying c p r (mkState w u) ->
  wp (fail_proxy id status message) (fun _ => relayed) (fun _ => False) (mkState w u).
Proof.
  intros H. pose proof (relaying_requested _ _ _ _ H) as Hreq. pose proof H as []. simpl in *.
  unfold fail_proxy. apply wp_bind, wp_gets. rewrite (relaying_current _ _ _ _ _ H). cbn [negb].
  apply wp_bind, (wp_index _ c); [done|].
  assert (proxy c = Some p) as -> by (unfold proxy; by rewrite rl_phase0).
  unfold detach_proxy. rewrite rl_phase0.
  apply wp_bind, wp_bind, (wp_update_slot _ _ _ _ c); [done|].
  set (c' := set_phase WritingResponse c). set (w1 := set_connections _ w).
  apply wp_bind, wp_sys. intros e u1 Hu1. apply wp_bind, wp_sys. intros d u2 Hu2.
  apply wp_skip, wp_bind, wp_modify, wp_bind, wp_modify.
  set (w2 := set_pending_upstream_writes _ _).
  assert (Hu : forall k, wire k u2 = wire k u).
  { intros k. rewrite (wire_deregister _ _ _ _ k Hu2). by eapply wire_take_error. }
  assert (Hc' : connections w2 !! slot id = Some c') by (simpl; apply lookup_insert_eq).
  assert (Hreq' : requested r (mkState w2 u2)).
  { eapply requested_frame; [exact Hreq|]. unfold sent. by rewrite Hu. }
  destruct (negb (response_started p) && _) eqn:Ecan.
  - apply andb_true_iff in Ecan as [Est%negb_true_iff Ebuf%bool_decide_eq_true].
    pose proof (rl_started0 Est) as Er. rewrite Er, app_nil_r in *.
    assert (unwritten c = []) as E by (unfold unwritten; rewrite Ebuf; apply drop_nil).
    rewrite E, app_nil_r in rl_sent0.
    eapply wp_mono; [apply (queue_response_refused c' w2 u2 _ r)| |done]; try done.
    + apply rl_sockets0.
    + by rewrite Er.
    + unfold received in *. by rewrite Hu.
    + unfold sent in *. by rewrite Hu.
    + intros [] s [Hs|Hs]; exists r; auto.
  - eapply wp_mono; [apply (wp_remove_closed c' r (unwritten c))| |done]; try done;
      unfold received, sent, ended in *; rewrite ?Hu; try done; [by rewrite rl_open0|].
    intros [] s Hs. by apply on_relayed, (on_closed r).
Qed.

(** Bytes of the response arrive. *)
Lemma relaying_received c p r b t t' w u u' :
  relaying c p r (mkState w u) -> write_buffer c = [] -> proxy_phase p = ReadingResponse ->
  received up u' = in0 ++ r ++ b -> sent client u' = sent client u -> ended up u' = false ->
  sent up u' = sent up u ->
  b <> [] ->
  relaying (set_last_progress t' (set_write_buffer b 0 (update_proxy (response_received t) c)))
    (response_received t p) (r ++ b)
    (mkState (set_connections
       (<[slot id := set_last_progress t' (set_write_buffer b 0
             (update_proxy (response_received t) c))]> (connections w)) w) u').
Proof.
  intros [] Hb Hph Hr Hs He Hreq Hne'. unfold update_proxy. rewrite rl_phase0. simpl in *.
  constructor; simpl; try done; [apply lookup_insert_eq|by rewrite Hreq|by right|lia|].
  assert (unwritten c = []) as E by (unfold unwritten; rewrite Hb; apply drop_nil).
  rewrite E, app_nil_r in rl_sent0. rewrite Hs, rl_sent0. unfold unwritten. simpl.
  by rewrite <- app_assoc.
Qed.

Lemma wp_mark_upstream_eof c p r w u u0 :
  relaying c p r (mkState w u0) -> write_buffer c = [] ->
  received up u = in0 ++ r -> sent client u = sent client u0 -> sent up u = sent up u0 ->
  wp (mark_upstream_eof id) (fun _ => on_or_closed) (fun _ => False) (mkState w u).
Proof.
  intros H Hb Hr Hs Hreq. pose proof (relaying_requested _ _ _ _ H) as Hq.
  pose proof H as []. simpl in *. unfold mark_upstream_eof. apply wp_bind, wp_gets. rewrite (relaying_current _ _ _ _ _ H).
  cbn [negb]. apply wp_bind, (wp_index _ c); [done|].
  assert (proxy c = Some p) as -> by (unfold proxy; by rewrite rl_phase0).
  apply wp_bind, wp_bind, (wp_update_slot _ _ _ _ c); [done|].
  apply wp_bind, wp_sys. intros d u1 Hu1. apply wp_skip.
  rewrite Hb, (bool_decide_eq_true_2 ([] = [])) by done.
  assert (unwritten c = []) as E by (unfold unwritten; rewrite Hb; apply drop_nil).
  rewrite E, app_nil_r in rl_sent0.
  eapply wp_mono; [eapply (wp_remove_closed (update_proxy set_upstream_eof c) r [])| |done];
    try (intros [] s; apply on_closed); unfold received, sent, ended in *; try done;
    rewrite ?(wire_deregister _ _ _ _ _ Hu1), ?app_nil_r; try done.
  - simpl. apply lookup_insert_eq.
  - unfold update_proxy. by rewrite rl_phase0.
  - eapply requested_frame; [exact Hq|]. unfold sent. by rewrite (wire_deregister _ _ _ _ _ Hu1).
  - by rewrite Hs, rl_sent0.
Qed.

Lemma wp_read_upstream c p r w u :
  relaying c p r (mkState w u) ->
  wp (read_upstream_response id) (fun _ => relayed) (fun _ => False) (mkState w u).
Proof.
  intros H. pose proof H as []. simpl in *. destruct rl_sockets0 as [E1 E2].
  unfold read_upstream_response. apply wp_bind, wp_gets. rewrite (relaying_current _ _ _ _ _ H).
  cbn [negb]. apply wp_bind, (wp_index _ c); [done|].
  assert (proxy c = Some p) as -> by (unfold proxy; by rewrite rl_phase0).
  assert (Hstay : relayed (mkState w u)) by (exists r; left; by exists c, p).
  destruct (negb _ || _) eqn:Eskip; [by apply wp_skip|].
  apply orb_false_iff in Eskip as
    [Hb%negb_false_iff%bool_decide_eq_true Hph%negb_false_iff%bool_decide_eq_true].
  apply wp_bind, wp_gets, wp_bind, wp_sys. intros rs u1 Hrs. rewrite E2 in Hrs.
  pose proof (wire_reads _ _ _ _ _ Hrs) as Hup.
  rewrite (reads_first _ _ (reads_interrupted _ _ _ _ _ Hrs)) in Hup.
  assert (Hcl : wire client u1 = wire client u) by by eapply wire_reads_other.
  assert (Hreq : sent up u1 = sent up u) by (unfold sent; by rewrite Hup).
  assert (Hquiet : (forall b, first_uninterrupted rs <> Ok b) ->
    forall w1, connections w1 = connections w -> relaying c p r (mkState w1 u1)).
  { intros Hno w1 Ew. constructor; simpl; rewrite ?Ew, ?Hreq; try done;
      unfold received, sent, ended in *; rewrite ?Hcl; try done;
      rewrite Hup; destruct (first_uninterrupted rs) as [b|e] eqn:Ef;
      try (by destruct (Hno b)); simpl; by rewrite ?app_nil_r, ?orb_false_r. }
  destruct (first_uninterrupted rs) as [[|x b]|e] eqn:Ef.
  - eapply wp_mono; [by apply (wp_mark_upstream_eof c p r w u1 u);
      [..|unfold received in *; rewrite Hup; simpl; rewrite app_nil_r|unfold sent; rewrite Hcl|]|
      |done].
    intros [] s. apply on_relayed.
  - set (new := x :: b) in *. apply wp_bind, wp_modify, wp_bind, wp_sys. intros t u2 Ht.
    apply wp_bind, (wp_update_slot _ _ _ _ c); [done|].
    apply wp_bind. eapply wp_update_slot; [simpl; apply lookup_insert_eq|].
    assert (Ebuf : write_buffer (update_proxy (response_received t) c) = [])
      by (unfold update_proxy; by rewrite rl_phase0).
    simpl. rewrite Ebuf. simpl.
    apply wp_bind, wp_sys. intros t' u3 Ht'. apply wp_bind.
    eapply wp_update_slot; [simpl; apply lookup_insert_eq|].
    match goal with |- wp _ _ _ (mkState ?w3 _) => set (w' := w3) end.
    assert (Hw : forall k, wire k u3 = wire k u1).
    { intros k. rewrite (wire_now _ _ _ k Ht'). by eapply wire_now. }
    assert (H' : relaying (set_last_progress t' (set_write_buffer new 0
        (update_proxy (response_received t) c))) (response_received t p) (r ++ new)
        (mkState w' u3)).
    { eapply relaying_frame; [apply (relaying_received c p r new t t' w u u3 H Hb Hph)| |done]; try done.
      - unfold received in *. rewrite Hw, Hup. simpl. by rewrite rl_received0, app_assoc.
      - unfold sent. by rewrite Hw, Hcl.
      - unfold ended in *. rewrite Hw, Hup. simpl. by rewrite rl_open0.
      - by rewrite <- Hreq; unfold sent; rewrite Hw.
      - simpl. by rewrite !insert_insert_eq. }
    eapply wp_mono; [by eapply wp_reregister| |done].
    intros [] s [Hs|Hs]; eapply on_relayed; [by eapply on_relaying|by eapply on_closed].
  - assert (H' : relaying c p r (mkState w u1)) by (by apply Hquiet).
    destruct e; try (by eapply wp_fail_proxy).
    apply wp_skip. by eapply on_relayed, on_relaying.
Qed.

(** *** Passing the request on *)

(** The upstream's half changes, and perhaps bytes went to the upstream. *)
Lemma relaying_phase c p p' r w u w' u' :
  relaying c p r (mkState w u) ->
  connections w' !! slot id = Some (set_phase (Proxying p') c) ->
  upstream p' = upstream p /\ upstream_eof p' = upstream_eof p /\
    response_started p' = response_started p ->
  request_offset p' <= len (request_buffer p') ->
  sent up u' ++ request_left p' = req0 -> r = [] \/ proxy_phase p' = ReadingResponse ->
  quiet up u u' ->
  relaying (set_phase (Proxying p') c) p' r (mkState w' u').
Proof.
  intros [] Hc (E1 & E2 & E3) Ho Hreq Hr [Hother [Hrecv Hend]]. simpl in *.
  constructor; simpl; try done; rewrite ?E1, ?E2, ?E3, ?Hrecv, ?Hend; try done.
  rewrite <- rl_sent0. unfold sent. by rewrite Hother.
Qed.

Lemma wp_write_progress c p r made w u :
  relaying c p r (mkState w u) ->
  wp (write_progress id made) (fun _ s => exists c', relaying c' p r s) (fun _ => False) (mkState w u).
Proof.
  intros H. unfold write_progress. apply wp_bind, wp_gets. rewrite (relaying_current _ _ _ _ _ H).
  destruct made; [|apply wp_skip; by exists c]. simpl.
  apply wp_bind, wp_sys. intros t u1 Ht. apply (wp_update_slot _ _ _ _ c); [apply H|].
  eexists. eapply relaying_touch, relaying_world; [exact H|]. intros x. by eapply wire_now.
Qed.

(** Nothing but the request moves while it is written. *)
Lemma upstream_write_loop_quiet n : forall made w u u0 c p,
  connections w !! slot id = Some c -> phase c = Proxying p ->
  request_offset p <= len (request_buffer p) -> quiet (upstream p) u0 u ->
  wp (upstream_write_loop n id made) (fun _ s => quiet (upstream p) u0 (world s))
    (fun _ => False) (mkState w u).
Proof.
  induction n as [|n IH]; intros made w u u0 c p Hc Hp Ho Hq; simpl;
    apply wp_bind, (wp_index_proxy _ c p); try done.
  destruct (request_done p); [by apply wp_ret|].
  apply wp_bind, wp_slice_from; [done|]. apply wp_bind, wp_sys. intros res u1 Hr.
  assert (Hq1 : quiet (upstream p) u0 u1).
  { eapply quiet_trans; [exact Hq|]. by eapply quiet_write. }
  destruct res as [[|m]|[]]; try (by apply wp_ret); [|by eapply IH].
  apply wp_bind, wp_sys. intros t u2 Ht. apply wp_bind, (wp_update_slot _ _ _ _ c); [done|].
  apply (IH true _ _ u0 (update_proxy (request_sent (N.pos m) t) c) (request_sent (N.pos m) t p)).
  - simpl. apply lookup_insert_eq.
  - unfold update_proxy. by rewrite Hp.
  - pose proof (sock_write_len _ _ _ _ _ Hr) as Hm. rewrite len_drop in Hm. simpl. lia.
  - eapply quiet_trans; [exact Hq1|]. apply quiet_wires. intros x. by eapply wire_now.
Qed.

(** What the loop has written, of a connection that passes its request on. *)
Lemma wp_upstream_write_loop n made c p r w u :
  relaying c p r (mkState w u) -> proxy_phase p <> ReadingResponse ->
  wp (upstream_write_loop n id made)
    (fun outcome s => exists c' p', relaying c' p' r s /\
       match outcome with UpstreamFinished _ => unsent p' = [] | _ => True end)
    (fun _ => False) (mkState w u).
Proof.
  intros H Hph. pose proof H as []. simpl in *. destruct rl_sockets0 as [_ Eup].
  apply (wp_mono _ (fun o s => upstream_written id c p u o s /\ quiet up u (world s))
    _ (fun s => False /\ False)); [|intros o [w' u'] [(k & (Hk & Hs & t & Hc) & Ho) Hq]|by intros ? []].
  { apply wp_and; [by apply upstream_write_loop_written|]. rewrite <- Eup.
    eapply upstream_write_loop_quiet; [done..|]. by apply quiet_wires. }
  simpl in *. rewrite Eup in Hs. set (p' := request_sent k t p) in *.
  assert (Eleft : unsent p' = drop (N.to_nat k) (unsent p)).
  { unfold unsent. simpl. rewrite drop_drop. f_equal. lia. }
  exists (set_phase (Proxying p') c), p'. split.
  - apply (relaying_phase c p p' r w u); try done.
    + simpl. unfold unsent in Hk. rewrite len_drop in Hk. lia.
    + rewrite <- rl_request0. unfold request_left. simpl. rewrite !decide_False by done.
      by rewrite Eleft, Hs, <- app_assoc, take_drop.
  - destruct o; try done. rewrite Eleft, Ho. unfold len. by rewrite Nat2N.id, drop_all.
Qed.

(** The whole request has been sent. *)
Lemma wp_request_written c p r w u :
  relaying c p r (mkState w u) -> unsent p = [] ->
  wp (request_written id) (fun _ => relayed) relayed (mkState w u).
Proof.
  intros H Hall. pose proof H as []. simpl in *. unfold request_written.
  apply wp_bind, (wp_index_proxy _ c p); [done|done|].
  apply wp_bind, wp_sys. intros t u1 Ht. apply wp_bind, (wp_update_slot _ _ _ _ c); [done|].
  set (p1 := transition ReadingResponse t p). set (w1 := set_connections _ w).
  assert (E : update_proxy (transition ReadingResponse t) c = set_phase (Proxying p1) c)
    by (unfold update_proxy; by rewrite rl_phase0).
  assert (H1 : relaying (set_phase (Proxying p1) c) p1 r (mkState w1 u1)).
  { apply (relaying_phase c p p1 r w u w1 u1); try done.
    - simpl. rewrite E. apply lookup_insert_eq.
    - unfold sent. rewrite (wire_now _ _ _ _ Ht). fold (sent up u). rewrite <- rl_request0.
      rewrite (request_left_reading p1) by done. unfold request_left. case_decide; by rewrite ?Hall.
    - by right.
    - unfold quiet, received, ended. split_and!; intros; by rewrite (wire_now _ _ _ _ Ht). }
  apply wp_bind, (wp_index_proxy _ (set_phase (Proxying p1) c) p1); [apply H1|done|].
  apply wp_bind, wp_lift; [|intros e _; by eapply on_relayed, on_relaying].
  intros t2 _. apply wp_bind, wp_sys. intros res u2 Hu.
  assert (H2 : relaying (set_phase (Proxying p1) c) p1 r (mkState w1 u2)).
  { eapply relaying_world; [exact H1|]. intros x. by eapply wire_reregister. }
  destruct res; [|by eapply wp_mono; [eapply wp_fail_proxy| |]]. apply wp_skip. by eapply on_relayed, on_relaying.
Qed.

(** The upstream has connected, or has not. *)
Lemma wp_connected c p r w u :
  relaying c p r (mkState w u) -> proxy_phase p <> ReadingResponse ->
  wp (if decide (proxy_phase p = Connecting) then
        res ← sys (take_error (upstream p));
        e ← lift res;
        match e with
        | Some _ => mret true
        | None =>
          now ← clock;
          update (slot id) (update_proxy (transition WritingRequest now));;
          mret false
        end
      else mret false)
    (fun _ s => exists c' p', relaying c' p' r s /\ proxy_phase p' <> ReadingResponse)
    relayed (mkState w u).
Proof.
  intros H Hph. pose proof H as []. simpl in *.
  assert (Hhere : forall u', (forall x, wire x u' = wire x u) ->
    exists c' p', relaying c' p' r (mkState w u') /\ proxy_phase p' <> ReadingResponse).
  { intros u' Hu. exists c, p. split; [by eapply relaying_world|done]. }
  destruct (decide _) as [Econn|]; [|by apply wp_ret, Hhere].
  apply wp_bind, wp_sys. intros res u1 Hu1.
  assert (Hw1 : forall x, wire x u1 = wire x u) by (intros x; by eapply wire_take_error).
  apply wp_bind, wp_lift; [|intros e _; eapply on_relayed, on_relaying; by eapply relaying_world].
  intros [e|] _; [by apply wp_ret, Hhere|]. apply wp_bind, wp_sys. intros t u2 Hu2.
  apply wp_bind, (wp_update_slot _ _ _ _ c); [done|]. apply wp_ret.
  set (p1 := transition WritingRequest t p). exists (set_phase (Proxying p1) c), p1.
  split; [|done]. unfold update_proxy. rewrite rl_phase0.
  assert (Hw2 : forall x, wire x u2 = wire x u).
  { intros x. rewrite (wire_now _ _ _ x Hu2). apply Hw1. }
  apply (relaying_phase c p p1 r w u); try done.
  - simpl. apply lookup_insert_eq.
  - rewrite <- rl_request0. unfold sent. rewrite Hw2. unfold request_left.
    by rewrite !decide_False.
  - left. by destruct rl_reading0.
  - by apply quiet_wires.
Qed.

Lemma wp_write_upstream c p r w u :
  relaying c p r (mkState w u) ->
  wp (write_upstream_request id) (fun _ => relayed) relayed (mkState w u).
Proof.
  intros H. pose proof H as []. simpl in *. unfold write_upstream_request.
  apply wp_bind, wp_gets. rewrite (relaying_current _ _ _ _ _ H). cbn [negb].
  apply wp_bind, (wp_index _ c); [done|].
  assert (proxy c = Some p) as -> by (unfold proxy; by rewrite rl_phase0).
  destruct (decide (proxy_phase p = ReadingResponse)) as [|Hph];
    [apply wp_skip; by eapply on_relayed, on_relaying|].
  apply wp_bind. eapply wp_mono; [by apply (wp_connected c p r w u)| |done].
  intros failed [w1 u1] (c1 & p1 & H1 & Hph1). apply wp_bind.
  apply (wp_mono _ (fun outcome s => exists c' p', relaying c' p' r s /\
    match outcome with UpstreamFinished _ => unsent p' = [] | _ => True end)
    _ (fun _ => False)); [|clear c1 p1 H1 Hph1|done].
  { destruct failed; [apply wp_ret; by exists c1, p1|by eapply wp_upstream_write_loop]. }
  intros o [w2 u2] (c2 & p2 & H2 & Ho). destruct o as [|made|made|made].
  - apply wp_skip. by eapply on_relayed, on_relaying.
  - apply wp_bind. eapply wp_mono; [by eapply wp_write_progress| |done].
    intros [] [w3 u3] [c3 H3]. by eapply wp_mono; [eapply wp_fail_proxy| |].
  - apply wp_bind. eapply wp_mono; [by eapply wp_write_progress| |done].
    intros [] [w3 u3] [c3 H3]. by eapply wp_request_written.
  - apply wp_bind. eapply wp_mono; [by eapply wp_write_progress| |done].
    intros [] [w3 u3] [c3 H3]. apply wp_modify. eapply on_relayed, on_relaying, relaying_frame; done.
Qed.

(** ** Events *)

Lemma relayed_worker w w' u :
  relayed (mkState w u) -> connections w' = connections w -> relayed (mkState w' u).
Proof.
  intros (r & [(c & p & H)|[H|H]]) E; exists r; [left|right; left|right; right].
  - exists c, p. eapply relaying_frame; [exact H|done..].
  - eapply closed_frame; [exact H|done..].
  - unfold refused in *. simpl in *. by rewrite E.
Qed.

(** The response is read if there still is something to relay. *)
Lemma wp_read_relayed s :
  relayed s -> wp (read_upstream_response id) (fun _ => relayed) (fun _ => False) s.
Proof.
  destruct s as [w u]. intros Hs. pose proof Hs as (r & [(c & p & H)|[H|H]]);
    [by eapply wp_read_upstream|..]; unfold read_upstream_response; apply wp_bind, wp_gets.
  - pose proof (proj1 H) as Hgone. simpl in Hgone.
    assert (is_current_in w id = false) as -> by (unfold is_current_in; by rewrite Hgone).
    by apply wp_skip.
  - destruct (is_current_in w id); [|by apply wp_skip]. cbn [negb].
    destruct H as (_ & _ & _ & _ & c & Hc & Hp & _). apply wp_bind, (wp_index _ c); [done|].
    rewrite Hp. by apply wp_skip.
Qed.

Lemma wp_dispatch_client c p r event w u :
  relaying c p r (mkState w u) ->
  wp (dispatch_client id event) (fun _ => relayed) (fun _ => False) (mkState w u).
Proof.
  intros H. pose proof H as []. simpl in *. unfold dispatch_client.
  destruct (ev_error event).
  - apply wp_bind. unfold log_socket_error. apply wp_bind, wp_gets.
    rewrite (relaying_current _ _ _ _ _ H). cbn [negb orb].
    apply wp_bind, wp_modify, wp_bind, (wp_index _ c); [done|].
    apply wp_bind, wp_sys. intros e u1 Hu1. apply wp_skip.
    eapply wp_mono; [apply (wp_remove_relaying c p r)| |done].
    + eapply relaying_frame; [exact H|done|]. intros k. by eapply wire_take_error.
    + intros [] s Hs. by eapply on_relayed, on_closed.
  - apply wp_bind.
    assert (H1 : wp (if ev_writable event then write_ready id else skip)
      (fun _ => on_or_closed) (fun _ => False) (mkState w u)).
    { destruct (ev_writable event); [by eapply wp_write_ready|].
      apply wp_skip. by eapply on_relaying. }
    eapply wp_mono; [exact H1| |done]. intros [] [w1 u1] Hs1.
    apply wp_bind, wp_gets, wp_bind.
    assert (H2 : wp (if ev_readable event && negb (draining w1) then connection_ready id else skip)
      (fun _ => on_or_closed) (fun _ => False) (mkState w1 u1)).
    { destruct (_ && _); [by apply wp_connection_ready|by apply wp_skip]. }
    eapply wp_mono; [exact H2| |done]. intros [] [w2 u2] Hs2. apply wp_bind, wp_gets.
    clear H1 H2. pose proof Hs2 as (r2 & [(c2 & p2 & Hr)|Hc]).
    + destruct (_ && _); [|apply wp_skip; by apply on_relayed].
      apply wp_bind, (wp_index _ c2); [apply Hr|].
      destruct (drained c2); [|apply wp_skip; by apply on_relayed].
      eapply wp_mono; [by eapply wp_remove_relaying| |done].
      intros [] s Hs. by eapply on_relayed, on_closed.
    + pose proof (proj1 Hc) as Hgone. simpl in Hgone.
      assert (is_current_in w2 id = false) as -> by (unfold is_current_in; by rewrite Hgone).
      rewrite andb_false_r. apply wp_skip. by apply on_relayed.
Qed.

Lemma wp_dispatch_upstream c p r event w u :
  relaying c p r (mkState w u) ->
  wp (dispatch_upstream id event) (fun _ => relayed) relayed (mkState w u).
Proof.
  intros H. pose proof H as []. simpl in *. unfold dispatch_upstream.
  apply wp_bind, (wp_index _ c); [done|]. unfold is_proxying. rewrite rl_phase0. cbn [negb].
  destruct (ev_error event); [by eapply wp_mono; [eapply wp_fail_proxy| |]|].
  apply wp_bind.
  assert (H0 : wp (if ev_writable event then write_upstream_request id else skip)
    (fun _ => relayed) relayed (mkState w u)).
  { destruct (ev_writable event); [by eapply wp_write_upstream|]. apply wp_skip.
    by eapply on_relayed, on_relaying. }
  eapply wp_mono; [exact H0| |done]. clear H0. intros [] [w0 u0] Hs0.
  apply wp_bind, wp_gets, wp_bind.
  assert (H1 : wp (if ev_readable event && is_current_in w0 id then read_upstream_response id else skip)
    (fun _ => relayed) (fun _ => False) (mkState w0 u0)).
  { destruct (_ && _); [by apply wp_read_relayed|by apply wp_skip]. }
  eapply wp_mono; [exact H1| |done]. clear H1. intros [] [w1 u1] Hs1. apply wp_bind, wp_gets.
  destruct (_ && _); [|by apply wp_skip].
  apply wp_modify. by eapply relayed_worker.
Qed.

(** What the loop may call for a connection that is proxied: its events, its pending reads
    and writes, an expiry, and its end. *)
Inductive call : M unit -> Prop :=
| call_client event : call (dispatch_client id event)
| call_upstream event : call (dispatch_upstream id event)
| call_write : call (write_ready id)
| call_forward : call (write_upstream_request id)
| call_read : call (read_upstream_response id)
| call_expire phase : call (fail_proxy id 504 (timeout_message phase))
| call_remove : call (remove_connection id).

Lemma wp_relay_call m c p r s :
  call m -> relaying c p r s -> wp m (fun _ => relayed) relayed s.
Proof.
  destruct s as [w u]. intros Hm H. destruct Hm; [|by eapply wp_dispatch_upstream|..];
    [..|by eapply wp_write_upstream| | |]; apply (wp_mono _ (fun _ => relayed) _ (fun _ => False)); try done.
  - by eapply wp_dispatch_client.
  - eapply wp_mono; [by eapply wp_write_ready| |done]. intros []. apply on_relayed.
  - by eapply wp_read_upstream.
  - by eapply wp_fail_proxy.
  - eapply wp_mono; [by eapply wp_remove_relaying| |done].
    intros [] s Hs. by eapply on_relayed, on_closed.
Qed.

(** Something that leaves the connection and its sockets alone. *)
Definition elsewhere (s s' : State) : Prop :=
  connections (worker s') !! slot id = connections (worker s) !! slot id /\
  wire client (world s') = wire client (world s) /\ wire up (world s') = wire up (world s).

(** A run: while the connection is proxied the loop may call for it, in any order and as
    often as it likes, and anything may happen elsewhere. *)
Inductive runs : State -> State -> Prop :=
| runs_nil s : runs s s
| runs_call s m s1 s2 :
    (exists c, connections (worker s) !! slot id = Some c /\ is_proxying c = true) ->
    call m -> m s = Ret tt s1 -> runs s1 s2 -> runs s s2
| runs_else s s1 s2 : elsewhere s s1 -> runs s1 s2 -> runs s s2.

Lemma relayed_elsewhere s s' : relayed s -> elsewhere s s' -> relayed s'.
Proof.
  intros (r & H) (Ec & Ecl & Eup). exists r. destruct H as [(c & p & [])|[H|H]].
  - left. exists c, p. constructor; rewrite ?Ec; try done;
      unfold received, sent, ended in *; by rewrite ?Ecl, ?Eup.
  - right; left. unfold closed, requested, received, sent, ended in *. by rewrite Ec, Ecl, Eup.
  - right; right. unfold refused, requested, received, sent in *. by rewrite Ec, Ecl, Eup.
Qed.

Lemma runs_relayed s s' : runs s s' -> relayed s -> relayed s'.
Proof.
  induction 1 as [s|s m s1 s2 (c & Hc & Hp) Hm Hs _ IH|s s1 s2 He _ IH]; [done| |].
  - intros (r & [(c' & p & H)|[[H _]|(_ & _ & _ & _ & c' & Hc' & Hp' & _)]]); [|congruence|].
    + apply IH. pose proof (wp_relay_call m c' p r s Hm H) as Hw. unfold wp in Hw.
      by rewrite Hs in Hw.
    + rewrite Hc in Hc'. injection Hc' as <-. unfold proxy, is_proxying in *.
      by destruct (phase c).
  - intros H. apply IH. by eapply relayed_elsewhere.
Qed.

End Relay.

(** ** Properties *)

Section Properties.

Context {env : Env} {fs : Filesystem} {mime : MimeGuess} {env_ok : EnvOk env} {wr : Wire env}.

Notation State := (State ReadinessWorker World).

(** A proxied exchange: take a plain connection whose request goes to its upstream, or which
    relays the response, and let the loop handle its events, pending reads and writes
    and deadlines in any order, anything happening elsewhere in between. No call panics.
    The upstream is sent what the request had left, in order and without loss: all of it
    before any byte of the response is read, and a prefix if the upstream is given up. The
    bytes [r] that the upstream sent meanwhile go to the client in order and
    without loss: what the client was sent, followed by what the connection still holds,
    is what it had been sent or held before followed by [r]; when the connection is closed
    the client was sent a prefix of that, and all of it if the upstream had come to its
    end; and the response is replaced by an error only when nothing of it was relayed. *)
Theorem response_relayed id c p (s s' : State) :
  Inv (worker s) -> connections (worker s) !! slot id = Some c ->
  conn_generation c = generation id -> phase c = Proxying p ->
  upstream_eof p = false ->
  ssl c = None -> static_stream c = None -> socket c <> upstream p ->
  ended (upstream p) (world s) = false ->
  runs id (socket c) (upstream p) s s' ->
  (forall m c', call id m -> connections (worker s') !! slot id = Some c' ->
     is_proxying c' = true -> m s' <> Panicked) /\
  exists r left,
    received (upstream p) (world s') = received (upstream p) (world s) ++ r /\
    sent (upstream p) (world s') ++ left =
      sent (upstream p) (world s) ++ request_left p /\ (r = [] \/ left = []) /\
    ((exists c' p', connections (worker s') !! slot id = Some c' /\ phase c' = Proxying p' /\
        left = request_left p' /\
        sent (socket c) (world s') ++ unwritten c' =
          (sent (socket c) (world s) ++ unwritten c) ++ r) \/
     (connections (worker s') !! slot id = None /\
        exists l, sent (socket c) (world s') ++ l =
            (sent (socket c) (world s) ++ unwritten c) ++ r /\
          (ended (upstream p) (world s') = true -> l = [])) \/
     (r = [] /\ sent (socket c) (world s') = sent (socket c) (world s) ++ unwritten c /\
        exists c', connections (worker s') !! slot id = Some c' /\ proxy c' = None)).
Proof.
  intros Hi Hc Hg Hp Heof Hssl Hst Hne He Hruns.
  destruct (inv_connections _ Hi _ _ Hc) as (Hid & _ & _ & _ & Ho & Hok).
  rewrite Hp in Hok. destruct Hok as [Hoff _].
  rewrite Hg in Hid. replace (mkConnectionId (slot id) (generation id)) with id in Hid by by destruct id.
  apply (runs_relayed id _ _ (sent (upstream p) (world s) ++ request_left p)
    (sent (socket c) (world s) ++ unwritten c) (received (upstream p) (world s)) Hid Hne) in Hruns.
  2: { exists []. left. exists c, p. constructor; try done; rewrite ?app_nil_r; auto. }
  split.
  - intros m c' Hm Hc' Hp' E. destruct Hruns as (r & [(c1 & p1 & H)|[[H _]|H]]).
    + pose proof (wp_relay_call id _ _ _ _ _ Hid Hne m c1 p1 r s' Hm H) as Hw.
      unfold wp in Hw. by rewrite E in Hw.
    + congruence.
    + destruct H as (_ & _ & _ & _ & c1 & Hc1 & Hp1 & _). rewrite Hc' in Hc1. injection Hc1 as <-.
      unfold proxy, is_proxying in *. by destruct (phase c').
  - destruct Hruns as (r & [(c1 & p1 & H)|[(H1 & (l & Hl & Hl') & H2 & H3)|
      (-> & (l & Hl & Hl') & H2 & H3 & c1 & Hc1 & Hp1 & _)]]).
    + destruct H. exists r, (request_left p1). split_and!; [done..| |].
      * destruct rl_reading0; [by left|right]. by apply request_left_reading.
      * left. by exists c1, p1.
    + exists r, l. split_and!; [done..|]. right. left. by split.
    + exists [], l. rewrite app_nil_r. split_and!; [done..|by left|]. right. right. split_and!; eauto.
Qed.

End Properties.

(** ** A run *)

#[local] Instance relay_fs : Filesystem := example_fs.
#[local] Instance relay_mime : MimeGuess := example_mime.

(** Let the loop make the given calls, as long as the connection of [script_id] is
    proxied. *)
Fixpoint make_calls (ms : list (Handler ReadinessWorker Script unit)) (s : ScriptState) :
    option ScriptState :=
  match ms with
  | [] => Some s
  | m :: ms =>
    if default false (is_proxying <$> connections (worker s) !! 0) then
      match m s with Ret _ s' => make_calls ms s' | _ => None end
    else None
  end.

Lemma make_calls_runs client up ms s s' :
  Forall (call script_id) ms -> make_calls ms s = Some s' -> runs script_id client up s s'.
Proof.
  intros H. revert s. induction H as [|m ms Hm _ IH]; intros s; simpl;
    [intros [= ->]; constructor|].
  destruct (connections (worker s) !! 0) as [c|] eqn:Hc; [|done]. simpl.
  destruct (is_proxying c) eqn:Hp; [|done].
  destruct (m s) as [[] s1|e s1|] eqn:E; try done. intros Hs'.
  eapply runs_call; [by exists c|exact Hm|exact E|by apply IH].
Qed.

(** The client waits for the response of the upstream on socket 9, which comes in two
    pieces and an end of file. *)
Definition relay_proxy : ProxyState := transition ReadingResponse 0 script_proxy.

Definition relay_client : Connection := set_phase (Proxying relay_proxy) script_client.

Definition relay_start : ScriptState :=
  mkState (script_worker [script_server] {[0 := relay_client]})
    (script 0 {[9 := [Ok (str "HTTP/1.1 200"); Err Interrupted; Ok (str " OK"); Ok []]]} 5).

Definition relay_writable : ReadyEvent := mkReadyEvent (packed script_id Client) false true false false false.

Definition relay_calls : list (Handler ReadinessWorker Script unit) :=
  [ read_upstream_response script_id; dispatch_client script_id relay_writable;
    read_upstream_response script_id; read_upstream_response script_id;
    write_ready script_id; read_upstream_response script_id ].

Lemma relay_calls_call : Forall (call script_id) relay_calls.
Proof. repeat constructor. Qed.

Lemma relay_start_Inv : Inv (worker relay_start).
Proof.
  constructor; simpl; [|vm_compute; discriminate|by apply map_Forall_empty|repeat constructor; done|done].
  apply map_Forall_singleton. unfold conn_ok, id_wf. split_and!; vm_compute; done.
Qed.

Lemma relay_start_open : @ended script_env script_wire 9 (world relay_start) = false.
Proof. by vm_compute. Qed.

Definition relay_ends (o : option ScriptState) : bool :=
  match o with
  | Some s' =>
    bool_decide (connections (worker s') !! 0 = None) && @ended script_env script_wire 9 (world s')
    && bool_decide (@received script_env script_wire 9 (world s') = str "HTTP/1.1 200 OK")
  | None => false
  end.

Lemma relay_calls_end : relay_ends (make_calls relay_calls relay_start) = true.
Proof. by vm_compute. Qed.

Lemma response_relayed_witness :
  exists s', runs script_id 8 9 relay_start s' /\
    script_sent 8 s' = str "HTTP/1.1 200 OK" /\ connections (worker s') !! 0 = None.
Proof.
  pose proof relay_calls_end as Htest.
  destruct (make_calls relay_calls relay_start) as [s'|] eqn:E; [|done].
  pose proof (make_calls_runs 8 9 _ _ _ relay_calls_call E) as Hruns. unfold relay_ends in Htest.
  rewrite !andb_true_iff, !bool_decide_eq_true in Htest. destruct Htest as [[Hgone Hend] Hrecv].
  exists s'. split; [exact Hruns|]. split; [|exact Hgone].
  assert (Hne : socket relay_client <> upstream relay_proxy) by (simpl; discriminate).
  destruct (proj2 (response_relayed script_id relay_client relay_proxy relay_start s'
    relay_start_Inv eq_refl eq_refl eq_refl eq_refl eq_refl eq_refl Hne relay_start_open Hruns))
    as (r & left & Hr & _ & _ & [(c' & p' & Hc' & _)|[(_ & l & Hs & Hl)|(_ & _ & c' & Hc' & _)]]).
  - discriminate (eq_trans (eq_sym Hc') Hgone).
  - rewrite (Hl Hend), app_nil_r in Hs. unfold script_sent.
    etransitivity; [exact Hs|]. etransitivity; [|exact Hrecv]. symmetry. exact Hr.
  - discriminate (eq_trans (eq_sym Hc') Hgone).
Defined.
