(* ===== verification/ReadinessSession.v ===== *)
(** * A proxied exchange over the whole loop

    The handlers of the connection ([ReadinessRelay]) and what those of the others leave
    alone ([ReadinessFrame], [ReadinessSockets]) together: the loop itself, with whatever
    the poller reports, passes a request on to its upstream and relays the response. *)

From S2P Require Import Prelude RustStd Config Http Router LoadBalancer Proxy StaticFiles Runtime Token Handler Connection Readiness ReadinessInv ReadinessLoop Script ReadinessIO ReadinessFrame ReadinessSockets ReadinessRelay.

Local Open Scope N_scope.

(** ** What the handlers of one slot leave of the others *)

Section Alone.

Context {env : Env} {fs : Filesystem} {mime : MimeGuess} {env_ok : EnvOk env} {wr : Wire env}.
Context {tb : SocketTable env}.

Notation M := (Handler ReadinessWorker World).
Notation State := (State ReadinessWorker World).

(** The slots but [k] are as in [s0], and no socket has been closed since. *)
Definition alone (k : N) (s0 : State) (rs : list Socket) (s : State) : Prop :=
  (forall j, j <> k -> connections (worker s) !! j = connections (worker s0) !! j) /\
  disturbs opened (fun _ => True) (world s0) (world s).

Lemma alone_framed k s0 : Framed (alone k s0) (eq k) (fun _ => True).
Proof.
  split; unfold alone; simpl; try done.
  - intros rs w u u' [Hc Hu] Hu'. split; [done|]. by etrans.
  - by intros rs w w' u Hs ->.
  - intros rs w u j c c' [Hc Hu] <- _ _. split; [|done]. intros i Hi.
    rewrite lookup_insert_ne by done. by apply Hc.
  - intros rs w u j [Hc Hu] <-. split; [|done]. intros i Hi.
    rewrite lookup_delete_ne by done. by apply Hc.
  - intros rs w u u' [Hc Hu] Hu' _. split; [done|]. etrans; [exact Hu|]. by apply disturbs_silent.
  - intros x rs w u j c c' [Hc Hu] <- _ _. split; [|done]. intros i Hi.
    rewrite lookup_insert_ne by done. by apply Hc.
Qed.

End Alone.

Section Session.

Context {env : Env} {fs : Filesystem} {mime : MimeGuess} {env_ok : EnvOk env} {wr : Wire env}.
Context {tb : SocketTable env}.

Notation M := (Handler ReadinessWorker World).
Notation State := (State ReadinessWorker World).

Context (id : ConnectionId) (client up : Socket) (req0 out0 in0 : bytes).

Notation relaying := (relaying id client up req0 out0 in0).
Notation requested := (requested up req0).

(** The connections that satisfy [P] have none of the sockets [theirs]. *)
Definition clear (P : N -> Prop) (theirs : Socket -> Prop) (s : State) : Prop :=
  (forall j d x, P j -> connections (worker s) !! j = Some d -> owns d x -> ~ theirs x) /\
  forall x, theirs x -> opened x (world s).

Definition both (x : Socket) : Prop := x = client \/ x = up.

(** The relay is over, its connection gone: the client has a prefix of the response, and
    all of it if the upstream had come to its end. *)
Definition finished (s : State) : Prop :=
  clear (fun _ => True) both s /\
  exists r, requested r s /\ received up (world s) = in0 ++ r /\
  exists l, sent client (world s) ++ l = out0 ++ r /\ (ended up (world s) = true -> l = []).

(** An error answers in place of the response: nothing of it was read. *)
Definition answered (s : State) : Prop :=
  clear (fun _ => True) (eq up) s /\ requested [] s /\ received up (world s) = in0 /\
  exists l, sent client (world s) = out0 ++ l.

Definition session (s : State) : Prop :=
  (exists c p r, relaying c p r s /\ clear (.≠ slot id) both s) \/ finished s \/ answered s.

Hypothesis Hid : id_wf id.
Hypothesis Hne : client <> up.

(** *** The handlers of the connection itself *)

(** What a handler of the connection does to a relay. *)
Definition relays (m : M unit) : Prop :=
  forall c p r s, relaying c p r s ->
  match m s with
  | Ret _ s' | Fail _ s' => relayed id client up req0 out0 in0 s'
  | Panicked => True
  end.

Lemma call_relays m : call id m -> relays m.
Proof.
  intros Hm c p r s H. pose proof (wp_relay_call id _ _ _ _ _ Hid Hne m c p r s Hm H) as Hw.
  unfold wp in Hw. by destruct (m s).
Qed.

Lemma stays_relays m :
  (forall c p r s, relaying c p r s -> m s = Ret tt s \/ m s = Panicked) -> relays m.
Proof.
  intros Hm c p r s H. destruct (Hm c p r s H) as [-> | ->]; [|done].
  exists r. left. by exists c, p.
Qed.

Lemma relaying_owns c p r s x :
  relaying c p r s -> owns c x -> both x.
Proof.
  intros [_ _ Hp _ _ _ _ _ [<- <-] _ _ _ _ _] [->|(q & Hq & ->)]; [by left|]. right. congruence.
Qed.

Lemma session_relayed s s' c p r :
  relaying c p r s -> clear (.≠ slot id) both s -> relayed id client up req0 out0 in0 s' ->
  alone (slot id) s [] s' -> session s'.
Proof.
  intros Hr [Hc Ho] Hs' [Hother Hu].
  assert (Hc' : clear (.≠ slot id) both s').
  { split; [|intros x Hx; by apply Hu, Ho]. intros j d x Hj Hd. rewrite (Hother j Hj) in Hd.
    by eapply Hc. }
  destruct Hs' as (r' & [(c' & p' & H)|[(Hgone & Hreq & Hin & l & Hl & He)|
    (-> & Hreq & Hin & Hs & c' & Hk & Hp & Hsock)]]).
  - left. by exists c', p', r'.
  - right; left. split; [|by eauto 6]. destruct Hc' as [Hc' Ho']. split; [|done].
    intros j d x _ Hd. destruct (decide (j = slot id)) as [->|Hj]; [congruence|]. by eapply Hc'.
  - right; right. split; [|split_and!; [done..|exists []; by rewrite app_nil_r]].
    destruct Hc' as [Hc' Ho']. split; [|intros x <-; apply Ho'; by right].
    intros j d x _ Hd Hx <-. destruct (decide (j = slot id)) as [->|Hj].
    + rewrite Hk in Hd. injection Hd as <-. destruct Hx as [E|(q & Hq & _)]; [congruence|].
      unfold proxy in Hp. by rewrite Hq in Hp.
    + eapply (Hc' j d up); [done..|]. by right.
Qed.

(** *** The handlers of the others *)

Lemma relaying_apart c p r s s' :
  relaying c p r s -> apart (Some (slot id, c)) both (world s) [] s' ->
  relaying c p r s' /\ clear (.≠ slot id) both s'.
Proof.
  intros Hr H. split.
  - assert (Hw : forall x, both x -> wire x (world s') = wire x (world s)).
    { intros x Hx. apply (ap_world _ _ _ _ _ H). tauto. }
    pose proof (Hw client ltac:(by left)) as Hcl. pose proof (Hw up ltac:(by right)) as Hup.
    destruct Hr. constructor; try done; [by apply (ap_kept _ _ _ _ _ H)|..];
      unfold received, sent, ended in *; by rewrite ?Hcl, ?Hup.
  - split; [|apply H]. intros j d x Hj Hd Hx Ht.
    destruct (ap_others _ _ _ _ _ H j d x Hd Hx Ht) as [c' [= E _]]. by subst.
Qed.

Lemma apart_relaying c p r s :
  relaying c p r s -> clear (.≠ slot id) both s ->
  apart (Some (slot id, c)) both (world s) [] s.
Proof.
  intros Hr [Hc Ho]. split.
  - intros k d [= <- <-]. apply Hr.
  - intros j d x Hd Hx Ht. exists c. destruct (decide (j = slot id)) as [->|Hj]; [done|].
    exfalso. by eapply Hc.
  - by intros x ?%not_elem_of_nil.
  - done.
  - reflexivity.
Qed.

Lemma apart_clear theirs s :
  clear (fun _ => True) theirs s <-> apart None theirs (world s) [] s.
Proof.
  split.
  - intros [Hc Ho]. split; try done.
    + intros j d x Hd Hx Ht. exfalso. by eapply Hc.
    + by intros x ?%not_elem_of_nil.
  - intros H. split; [|apply H]. intros j d x _ Hd Hx Ht. by destruct (ap_others _ _ _ _ _ H j d x Hd Hx Ht).
Qed.

Lemma over_preserved {A} (m : M A) s :
  (forall good mine usable, Framed good mine usable -> Admits good mine -> (forall k, mine k) ->
     preserves (good []) m) ->
  finished s \/ answered s ->
  match m s with Ret _ s' | Fail _ s' => session s' | Panicked => True end.
Proof.
  intros Hm [[Hc (r & Hq & Hr & l & Hl & He)]|[Hc [Hq [Hr (l & Hl)]]]].
  - apply apart_clear in Hc.
    pose proof (Hm _ _ _ (apart_framed None both (world s)) (apart_admits None both (world s))
      ltac:(done) s Hc) as H.
    assert (Hfin : forall s', apart None both (world s) [] s' -> session s').
    { intros s' Ha. right; left.
      assert (Hw : forall x, both x -> wire x (world s') = wire x (world s)).
      { intros x Hx. apply (ap_world _ _ _ _ _ Ha). tauto. }
      pose proof (Hw client ltac:(by left)) as Hcl. pose proof (Hw up ltac:(by right)) as Hup.
      split.
      - split; [|apply Ha]. intros j d x _ Hd Hx Ht. by destruct (ap_others _ _ _ _ _ Ha j d x Hd Hx Ht).
      - exists r. unfold ReadinessRelay.requested, received, sent, ended in *. rewrite Hup, Hcl. eauto. }
    destruct (m s); [by apply Hfin|by apply Hfin|done].
  - apply apart_clear in Hc.
    pose proof (Hm _ _ _ (apart_framed None (eq up) (world s)) (apart_admits None (eq up) (world s))
      ltac:(done) s Hc) as H.
    assert (Hfin : forall s', apart None (eq up) (world s) [] s' -> session s').
    { intros s' Ha. right; right. split; [|split_and!].
      - split; [|apply Ha]. intros j d x _ Hd Hx Ht. by destruct (ap_others _ _ _ _ _ Ha j d x Hd Hx Ht).
      - unfold ReadinessRelay.requested, sent in *.
        rewrite (ds_wire _ _ _ _ (ap_world _ _ _ _ _ Ha) up); tauto.
      - unfold received in *. rewrite (ds_wire _ _ _ _ (ap_world _ _ _ _ _ Ha) up); tauto.
      - destruct (ds_sent _ _ _ _ (ap_world _ _ _ _ _ Ha) client) as [l' ->]. exists (l ++ l').
        by rewrite Hl, app_assoc. }
    destruct (m s); [by apply Hfin|by apply Hfin|done].
Qed.

(** A handler of the connection [id'], which may be ours or another. *)
Lemma session_handler id' (m : M unit) :
  (forall good mine usable, Framed good mine usable -> mine (slot id') -> preserves (good []) m) ->
  (forall s, is_current_in (worker s) id' = false -> m s = Ret tt s) ->
  (id' = id -> relays m) -> preserves session m.
Proof.
  intros Hm Hstale Hown s [(c & p & r & Hr & Hc)|Hover];
    [|apply (over_preserved m s); [intros good mine usable Hf _ Hk; by eapply Hm|exact Hover]].
  destruct (decide (slot id' = slot id)) as [E|E].
  - destruct (is_current_in (worker s) id') eqn:Ecur.
    + assert (id' = id) as ->.
      { apply is_current_in_Some in Ecur as (d & Hd & Hg). rewrite E in Hd.
        pose proof (rl_generation _ _ _ _ _ _ _ _ _ _ Hr) as Hg'.
        rewrite (rl_current _ _ _ _ _ _ _ _ _ _ Hr) in Hd. injection Hd as <-.
        destruct id, id'. simpl in *. congruence. }
      pose proof (Hown eq_refl c p r s Hr) as Hs.
      pose proof (Hm _ _ _ (alone_framed (slot id) s) eq_refl s ltac:(split; done)) as Ha.
      destruct (m s); [by eapply session_relayed|by eapply session_relayed|done].
    + rewrite (Hstale s Ecur). left. by exists c, p, r.
  - assert (Hmine : elsewhere_slot (Some (slot id, c)) (slot id')) by (intros d [= E' _]; by apply E).
    pose proof (Hm _ _ _ (apart_framed _ both (world s)) Hmine s (apart_relaying c p r s Hr Hc)) as Ha.
    destruct (m s); [..|done]; left; exists c, p, r; by apply (relaying_apart c p r s).
Qed.

Lemma session_accept i : preserves session (accept_ready i).
Proof.
  intros s [(c & p & r & Hr & Hc)|Hover];
    [|apply (over_preserved _ s); [intros good mine usable Hf Ha _; by eapply preserves_accept_ready|exact Hover]].
  pose proof (preserves_accept_ready _ _ _ (apart_framed _ both (world s))
    (apart_admits _ both (world s)) i s (apart_relaying c p r s Hr Hc)) as Ha.
  destruct (accept_ready i s); [..|done]; left; exists c, p, r; by apply (relaying_apart c p r s).
Qed.

Lemma session_world w u u' :
  session (mkState w u) -> disturbs opened (fun _ => False) u u' -> session (mkState w u').
Proof.
  intros Hs [Hw _ Ho].
  assert (Hclear : forall P theirs, clear P theirs (mkState w u) -> clear P theirs (mkState w u')).
  { intros P theirs [Hc Hop]. split; [done|]. intros x Hx. apply Ho, (Hop x Hx). }
  destruct Hs as [(c & p & r & Hr & Hc)|[[Hc H]|[Hc H]]].
  - left. exists c, p, r. split; [|by apply Hclear]. eapply relaying_world; [exact Hr|auto].
  - right; left. split; [by apply Hclear|].
    unfold ReadinessRelay.requested, received, sent, ended in *. simpl in *. by rewrite !Hw by auto.
  - right; right. split; [by apply Hclear|].
    unfold ReadinessRelay.requested, received, sent in *. simpl in *.
    by rewrite !Hw by auto.
Qed.

Lemma session_worker w w' u :
  session (mkState w u) -> connections w' = connections w -> session (mkState w' u).
Proof.
  intros Hs E. unfold session, finished, answered, clear in *. simpl in *. rewrite !E.
  destruct Hs as [(c & p & r & Hr & Hc)|Hs]; [|by right].
  left. exists c, p, r. split; [|done]. by eapply relaying_frame.
Qed.

(** *** The loop *)

Lemma not_current id' (m : M unit) (s : State) :
  is_current_in (worker s) id' = false ->
  (current ← is_current id'; if negb current then skip else m) s = Ret tt s.
Proof. intros H. unfold is_current, mbind, Handler_bind, gets. by rewrite H. Qed.

Lemma is_relaying c p r s : relaying c p r s -> is_current_in (worker s) id = true.
Proof. intros []. by eapply is_current_in_occupied. Qed.

(** At a relay the handler [m] goes on with [f], given the connection. *)
Lemma relaying_step (f : Connection -> M unit) c p r s :
  relaying c p r s ->
  (current ← is_current id; if negb current then skip else c ← index (slot id); f c) s = f c s.
Proof.
  intros Hr. unfold is_current, index, mbind, Handler_bind, gets.
  rewrite (is_relaying c p r s Hr). simpl. by rewrite (rl_current _ _ _ _ _ _ _ _ _ _ Hr).
Qed.

Lemma current_relays m :
  relays m -> relays (current ← is_current id; if negb current then skip else m).
Proof.
  intros Hm c p r s Hr. unfold is_current, mbind, Handler_bind, gets.
  rewrite (is_relaying c p r s Hr). exact (Hm c p r s Hr).
Qed.

(** A handler that asks first whether its connection is current. *)
Lemma session_checked id' (m : M unit) :
  (forall good mine usable, Framed good mine usable -> mine (slot id') ->
     preserves (good []) (current ← is_current id'; if negb current then skip else m)) ->
  (id' = id -> relays (current ← is_current id'; if negb current then skip else m)) ->
  preserves session (current ← is_current id'; if negb current then skip else m).
Proof. intros Hm Hown. apply (session_handler id'); [exact Hm|intros s; apply not_current|exact Hown]. Qed.

Lemma respects_checked good id' (m : M unit) :
  respects good m ->
  preserves (good []) (current ← is_current id'; if negb current then skip else m).
Proof.
  intros Hm. apply respects_preserves, respects_bind; [apply respects_is_current|].
  intros []; [exact Hm|apply respects_skip].
Qed.

Lemma skipping_relays f :
  (forall c p r s, relaying c p r s -> f c s = Ret tt s \/ f c s = Panicked) ->
  relays (current ← is_current id; if negb current then skip else c ← index (slot id); f c).
Proof.
  intros Hf. apply stays_relays. intros c p r s Hr. rewrite (relaying_step f c p r s Hr). by eapply Hf.
Qed.

Lemma not_resolving c p r s : relaying c p r s -> is_resolving c = false.
Proof. intros Hr. unfold is_resolving. by rewrite (rl_phase _ _ _ _ _ _ _ _ _ _ Hr). Qed.

Lemma session_looped : Looped session.
Proof.
  split.
  - apply session_world.
  - apply session_worker.
  - apply session_accept.
  - intros id'. apply session_checked; [intros good mine usable Hf Hk; eapply respects_preserves, respects_remove_connection; eauto|].
    intros ->. apply call_relays. constructor.
  - intros id' n b. apply session_checked; [intros good mine usable Hf Hk; eapply respects_preserves, respects_fail_resolution; eauto|].
    intros ->. apply skipping_relays. intros c p r s Hr. left. by rewrite (not_resolving c p r s Hr).
  - intros id' ph. apply session_checked; [intros good mine usable Hf Hk; eapply respects_preserves, respects_fail_proxy; eauto|].
    intros ->. apply call_relays. constructor.
  - intros [id' found]. apply session_checked; [intros good mine usable Hf Hk; eapply preserves_finish_resolution; eauto|].
    intros ->. apply skipping_relays. intros c p r s Hr. left. by rewrite (not_resolving c p r s Hr).
  - intros id'. apply session_checked; [intros good mine usable Hf Hk; eapply respects_preserves, respects_advance_static_stream; eauto|].
    intros ->. apply skipping_relays. intros c p r s Hr. right.
    by rewrite (proj2 (rl_plain _ _ _ _ _ _ _ _ _ _ Hr)).
  - intros id'. apply session_checked; [intros good mine usable Hf Hk; eapply respects_preserves, respects_write_ready; eauto|].
    intros ->. apply call_relays. constructor.
  - intros id'. apply session_checked; [intros good mine usable Hf Hk; eapply respects_preserves, respects_write_upstream_request; eauto|].
    intros ->. apply call_relays. constructor.
  - intros id'. apply session_checked; [intros good mine usable Hf Hk; eapply respects_preserves, respects_read_upstream_response; eauto|].
    intros ->. apply call_relays. constructor.
  - intros id' e. apply session_checked; [intros good mine usable Hf Hk; eapply respects_checked, respects_dispatch_client; eauto|].
    intros ->. apply current_relays, call_relays. constructor.
  - intros id' e. apply session_checked; [intros good mine usable Hf Hk; eapply respects_checked, respects_dispatch_upstream; eauto|].
    intros ->. apply current_relays, call_relays. constructor.
Qed.

End Session.

(** ** Properties *)

Section Properties.

Context {env : Env} {fs : Filesystem} {mime : MimeGuess} {env_ok : EnvOk env} {wr : Wire env}.
Context {tb : SocketTable env}.

Notation State := (State ReadinessWorker World).

Lemma distinct_session id c p s :
  distinct [] s -> connections (worker s) !! slot id = Some c ->
  conn_generation c = generation id -> phase c = Proxying p -> upstream_eof p = false ->
  request_offset p <= len (request_buffer p) ->
  ssl c = None -> static_stream c = None -> write_offset c <= len (write_buffer c) ->
  ended (upstream p) (world s) = false ->
  session id (socket c) (upstream p) (sent (upstream p) (world s) ++ request_left p)
    (sent (socket c) (world s) ++ unwritten c) (received (upstream p) (world s)) s.
Proof.
  intros Hd Hc Hg Hp Heof Hoff Hssl Hst Ho He. left. exists c, p, []. split.
  - constructor; try done; rewrite ?app_nil_r; auto.
  - assert (Hown : forall x, both (socket c) (upstream p) x -> owns c x)
      by (intros x [->| ->]; [by left|right; eauto]).
    split; [|intros x Hx; by eapply di_open, Hown].
    intros j d x Hj Hjd Hx Ht. by eapply Hj, di_own, Hown.
Qed.

Lemma run_for_total n : forall s : State, Inv (worker s) -> run_for n s <> Panicked.
Proof.
  induction n as [|n IH]; intros s Hs; simpl; [done|]. destruct s as [w u].
  pose proof (tick_V w u Hs) as Hv. unfold wp in Hv. unfold mbind, Handler_bind.
  destruct (tick _) as [[] s1|e s1|]; [done| |done|done]. apply IH, Hv.
Qed.

(** What a session says of the two sockets. *)
Lemma session_outcome id client up req0 out0 in0 s :
  session id client up req0 out0 in0 s ->
  exists r left, received up (world s) = in0 ++ r /\ sent up (world s) ++ left = req0 /\
  (r = [] \/ left = []) /\
  ((exists c p, connections (worker s) !! slot id = Some c /\ phase c = Proxying p /\
      socket c = client /\ upstream p = up /\ left = request_left p /\
      sent client (world s) ++ unwritten c = out0 ++ r) \/
   ((forall j d, connections (worker s) !! j = Some d -> ~ owns d client) /\
      exists l, sent client (world s) ++ l = out0 ++ r /\ (ended up (world s) = true -> l = [])) \/
   ((forall j d, connections (worker s) !! j = Some d -> ~ owns d up) /\
      r = [] /\ exists l, sent client (world s) = out0 ++ l)).
Proof.
  intros [(c & p & r & H & _)|[([Hno _] & r & (left & Hq & Hq') & Hr & Hl)|
    ([Hno _] & (left & Hq & Hq') & Hr & Hl)]].
  - pose proof (relaying_requested _ _ _ _ _ _ _ _ _ _ H) as Hreq. destruct H as [].
    destruct rl_sockets. exists r, (request_left p). split_and!; [done..| |].
    + destruct rl_reading; [by left|right]. by apply request_left_reading.
    + left. by exists c, p.
  - exists r, left. split_and!; [done..|]. right; left. split; [|done]. intros j d Hd Hx.
    eapply (Hno j d); [done..|by left].
  - exists [], left. rewrite app_nil_r. split_and!; [done..|by left|]. right; right.
    split_and!; [|done..]. intros j d Hd Hx. by eapply (Hno j d).
Qed.

(** C8. A proxied exchange: take any state that the loop reaches and a plain connection that
    connects to its upstream, sends it the request, or relays its response, and run the loop
    for as many iterations as you like, whatever it is told to do meanwhile, for this
    connection and for the others. The upstream is sent what the request had left, in order
    and without loss: a prefix of it, the connection holding the rest, and all of it before
    any byte [r] of the response is read. These bytes go to the client in order and
    without loss: as long as the connection is there, what the client was sent, followed by
    what is held for it, is what it had been sent or held before followed by [r]; once it is
    closed, the client was sent a prefix of that, and all of it if the upstream had come to
    its end; and an error answers in place of the response only when nothing was read. *)
Theorem readiness_exchange n id c p (s : State) :
  reached s -> connections (worker s) !! slot id = Some c ->
  conn_generation c = generation id -> phase c = Proxying p -> upstream_eof p = false ->
  ssl c = None -> static_stream c = None -> ended (upstream p) (world s) = false ->
  match run_for n s with
  | Ret _ s' | Fail _ s' =>
    exists r left, received (upstream p) (world s') = received (upstream p) (world s) ++ r /\
    sent (upstream p) (world s') ++ left = sent (upstream p) (world s) ++ request_left p /\
    (r = [] \/ left = []) /\
    let before := sent (socket c) (world s) ++ unwritten c in
    let after := sent (socket c) (world s') in
    (exists c' p', connections (worker s') !! slot id = Some c' /\ phase c' = Proxying p' /\
       socket c' = socket c /\ upstream p' = upstream p /\ left = request_left p' /\
       after ++ unwritten c' = before ++ r) \/
    ((forall j d, connections (worker s') !! j = Some d -> ~ owns d (socket c)) /\
       exists l, after ++ l = before ++ r /\ (ended (upstream p) (world s') = true -> l = [])) \/
    ((forall j d, connections (worker s') !! j = Some d -> ~ owns d (upstream p)) /\
       r = [] /\ exists l, after = before ++ l)
  | Panicked => False
  end.
Proof.
  intros Hs Hc Hg Hp Heof Hssl Hst He.
  pose proof (reachable_Inv _ (reached_reachable _ Hs)) as Hi. apply reached_distinct in Hs.
  destruct (inv_connections _ Hi _ _ Hc) as (Hid & _ & _ & _ & Ho & Hok).
  rewrite Hp in Hok. destruct Hok as [Hoff _].
  rewrite Hg in Hid. replace (mkConnectionId (slot id) (generation id)) with id in Hid by by destruct id.
  assert (Hne : socket c <> upstream p) by (intros E; by eapply (di_two _ _ Hs), eq_sym).
  pose proof (preserves_run_for _ (session_looped id _ _ _ _ _ Hid Hne) n s
    (distinct_session id c p s Hs Hc Hg Hp Heof Hoff Hssl Hst Ho He)) as H.
  pose proof (run_for_total n s Hi) as Htotal.
  destruct (run_for n s); [by apply session_outcome|by apply session_outcome|done].
Qed.

End Properties.

(** ** A run *)

#[local] Existing Instance numbered_env.
#[local] Existing Instance numbered_env_ok.
#[local] Existing Instance numbered_wire.
#[local] Existing Instance numbered_table.
#[local] Existing Instance numbered_fs.
#[local] Existing Instance numbered_mime.

(** The first client waits for its upstream to connect. *)
Definition numbered_request : bytes :=
  str "GET / HTTP/1.1" ++ crlf ++ str "Host: 10.0.0.1:80" ++ crlf ++ str "Connection: close"
  ++ crlf ++ crlf.

Definition waits_for (y : Socket) (s : NumberedState) : bool :=
  match connections (worker s) !! 0 with
  | Some c =>
    match proxy c with
    | Some p =>
      bool_decide (conn_generation c = 1) && bool_decide (socket c = 8) &&
      bool_decide (upstream p = y) && bool_decide (request_left p = numbered_request) &&
      negb (upstream_eof p) && match ssl c with None => true | _ => false end &&
      negb (is_streaming c) && bool_decide (unwritten c = [])
    | None => false
    end
  | None => false
  end && negb (ended y (world s)).

Definition session_ends (s s' : NumberedState) : bool :=
  bool_decide (size (connections (worker s')) = 0%nat) && ended 10 (world s') &&
  bool_decide (sent 8 (world s) = []) && bool_decide (sent 10 (world s) = []) &&
  bool_decide (received 10 (world s) = []) &&
  bool_decide (received 10 (world s') = str "HTTP/1.1 200 OK").

Lemma numbered_session_test :
  match numbered_connecting with
  | Some s => waits_for 10 s && returns (run_for 7 s) (fun b s' => negb b && session_ends s s')
  | None => false
  end = true.
Proof. by vm_compute. Qed.

Lemma waits_for_inv y s :
  waits_for y s = true ->
  exists c p, connections (worker s) !! 0 = Some c /\ conn_generation c = 1 /\
    phase c = Proxying p /\ request_left p = numbered_request /\ upstream_eof p = false /\
    ssl c = None /\ static_stream c = None /\ ended y (world s) = false /\
    socket c = 8 /\ upstream p = y /\ unwritten c = [].
Proof.
  unfold waits_for, is_streaming. intros [H He]%andb_true_iff.
  destruct (connections (worker s) !! 0) as [c|]; [|done].
  destruct (proxy c) as [p|] eqn:Hp; [|done]. apply proxy_Some in Hp.
  rewrite !andb_true_iff, !bool_decide_eq_true in H. exists c, p.
  destruct (ssl c), (static_stream c), (upstream_eof p), (ended y (world s)); naive_solver.
Qed.

Lemma session_ends_inv s s' :
  session_ends s s' = true ->
  connections (worker s') = ∅ /\ ended 10 (world s') = true /\ sent 8 (world s) = [] /\
  sent 10 (world s) = [] /\ received 10 (world s) = [] /\
  received 10 (world s') = str "HTTP/1.1 200 OK".
Proof.
  unfold session_ends. rewrite !andb_true_iff, !bool_decide_eq_true.
  intros [[[[[Hs He] H1] H2] H3] H4]. split_and!; try done. by apply map_size_empty_inv.
Qed.

Lemma readiness_exchange_witness :
  exists s s' : NumberedState, reached s /\ run_for 7 s = Ret false s' /\
    sent 8 (world s) = [] /\ sent 10 (world s') = numbered_request /\
    sent 8 (world s') = str "HTTP/1.1 200 OK".
Proof.
  pose proof numbered_session_test as Htest. pose proof numbered_connecting_reached as Hreached.
  destruct numbered_connecting as [s|]; [|discriminate Htest]. specialize (Hreached s eq_refl).
  apply andb_true_iff in Htest as [(c & p & Hc & Hg & Hp & Hleft & Heof & Hssl & Hst & He & Hx & Hy & Hu)
    %waits_for_inv Hret].
  rewrite <- Hy in He.
  pose proof (readiness_exchange 7 numbered_id c p s Hreached Hc Hg Hp Heof Hssl Hst He) as H.
  rewrite Hx, Hy, Hu, Hleft in H.
  destruct (run_for 7 s) as [[] s'|e s'|] eqn:Erun; [discriminate Hret| |discriminate Hret..].
  apply session_ends_inv in Hret as (Hno & Hend & Hs0 & Hq0 & Hr0 & Hr1).
  exists s, s'. split; [exact Hreached|]. split; [exact Erun|]. split; [exact Hs0|].
  cbv zeta in H.
  destruct H as (r & left & Hr & Hreq & Hor & H).
  assert (Er : str "HTTP/1.1 200 OK" = r)
    by (etransitivity; [symmetry; exact Hr1|]; etransitivity; [exact Hr|]; exact (f_equal (.++ r) Hr0)).
  destruct Hor as [E|E]; [discriminate (eq_trans Er E)|].
  split.
  { rewrite E, app_nil_r in Hreq. etransitivity; [exact Hreq|]. exact (f_equal (.++ numbered_request) Hq0). }
  destruct H as [(c' & p' & Hc' & _)|[(_ & l & Hl & Hnil)|(_ & E' & _)]].
  - discriminate (eq_trans (eq_sym (f_equal (.!! 0) Hno)) Hc').
  - rewrite (Hnil Hend), !app_nil_r in Hl. etransitivity; [exact Hl|]. rewrite Er.
    exact (f_equal (.++ r) Hs0).
  - discriminate (eq_trans Er E').
Defined.
