(* ===== verification/ReadinessProps.v ===== *)
(** * What the readiness worker does

    The properties of the event loop: it never panics and keeps its invariant in
    every reachable state, shutdown drains and ends, stale events are ignored,
    deadlines close exactly what has expired, and a failed upstream is answered. *)

From S2P Require Import Prelude RustStd Config Http Router LoadBalancer Proxy StaticFiles Runtime Token Handler Connection Readiness ReadinessInv ReadinessLoop Script ReadinessIO.

Local Open Scope N_scope.

Section Props.

Context {env : Env} {fs : Filesystem} {mime : MimeGuess} {env_ok : EnvOk env}.

Notation M := (Handler ReadinessWorker World).
Notation State := (State ReadinessWorker World).

(** C1. Safety of the event loop: in every state a worker with a valid
    configuration can reach, whatever the operating system, the resolver, the
    clients and the upstreams do, the invariant holds (at most [max_connections]
    connections, each with the current generation of its slot, an encodable
    identifier and buffers within their limits) and the next iteration does not
    panic: no index out of bounds, no [unwrap] of [None], no slice out of range. *)
Theorem worker_never_panics s : reachable s -> Inv (worker s) /\ tick s <> Panicked.
Proof.
  intros Hr. pose proof (reachable_Inv s Hr) as Hi. split; [done|]. by apply tick_never_panics.
Qed.

(** While draining the worker only loses connections: one iteration keeps the
    configuration and the drain deadline, and every connection left was there
    before, in the same slot and generation. *)
Theorem draining_admits_nothing s stop s' :
  reachable s -> draining (worker s) = true -> tick s = Ret stop s' ->
  shrinks (worker s) (worker s').
Proof.
  intros Hr Hd Ht. destruct s as [w u].
  pose proof (tick_V w u (reachable_Inv _ Hr)) as Hv. unfold wp in Hv. rewrite Ht in Hv.
  destruct Hv as [_ [_ Hs]]. by apply Hs.
Qed.

(** A draining worker without connections, or past its deadline, returns. *)
Lemma drained_tick w u requested u1 started :
  draining w = true -> drain_started_at w = Some started ->
  shutdown_is_requested u = (requested, u1) ->
  (connections w = ∅ \/ (exists t u2, now u1 = (t, u2) /\ started + drain_timeout (limits w) <= t)) ->
  exists s', tick (mkState w u) = Ret true s' /\ connections (worker s') = ∅.
Proof.
  intros Hd Hst Hq Hend.
  unfold tick. rewrite (bind_Ret _ _ _ requested (mkState w u1))
    by (unfold sys; simpl; by rewrite Hq).
  rewrite (bind_Ret _ _ _ true (mkState w u1)) by (unfold gets; simpl; by rewrite Hd).
  rewrite andb_false_r. rewrite (bind_Ret _ _ _ tt (mkState w u1)) by done.
  rewrite (bind_Ret _ _ _ true (mkState w u1)) by (unfold gets; simpl; by rewrite Hd).
  rewrite (bind_Ret _ _ _ (bool_decide (connections w = ∅)) (mkState w u1)) by done.
  destruct (decide (connections w = ∅)) as [He|Hne].
  { rewrite bool_decide_eq_true_2 by done. by eexists. }
  rewrite bool_decide_eq_false_2 by done. cbn [andb].
  destruct Hend as [?|(t & u2 & Ht & Hle)]; [done|].
  rewrite (bind_Ret _ _ _ true (mkState w u2)).
  - destruct (close_all_connections_eq w u2) as (w' & u' & E & Hc & _).
    rewrite (bind_Ret _ _ _ _ _ E). by eexists.
  - unfold drain_deadline_expired.
    rewrite (bind_Ret _ _ _ (Some started) (mkState w u1)) by (unfold gets; simpl; by rewrite Hst).
    rewrite (bind_Ret _ _ _ t (mkState w u2)) by (unfold clock, sys; simpl; by rewrite Ht).
    rewrite (bind_Ret _ _ _ (drain_timeout (limits w)) (mkState w u2)) by done.
    unfold expired, saturating_sub. rewrite (proj2 (N.leb_le _ _)); [done|lia].
Qed.

(** C23. Shutdown ends: the first iteration of a draining worker in which no
    connection is left, or the clock has reached the drain deadline, ends [run]
    without an error, with every connection closed. *)
Theorem drain_finishes s requested u1 :
  reachable s -> draining (worker s) = true ->
  shutdown_is_requested (world s) = (requested, u1) ->
  exists started, drain_started_at (worker s) = Some started /\
    (connections (worker s) = ∅ \/
     (exists t u2, now u1 = (t, u2) /\ started + drain_timeout (limits (worker s)) <= t) ->
     exists s', tick s = Ret true s' /\ connections (worker s') = ∅).
Proof.
  intros Hr Hd Hq. destruct s as [w u]. simpl in *.
  destruct (inv_drain w (reachable_Inv _ Hr) Hd) as [started Hst].
  exists started. split; [done|]. by apply (drained_tick w u requested u1).
Qed.

(** Shutdown starts by closing exactly the connections without bytes to write
    and without a file to stream; the others stay, and the drain deadline counts
    from that moment. *)
Theorem shutdown_closes_resting w u t u1 :
  now u = (t, u1) ->
  exists s', begin_shutdown (mkState w u) = Ret tt s' /\
    draining (worker s') = true /\ drain_started_at (worker s') = Some t /\
    connections (worker s') = filter (fun kc => at_rest kc.2 = false) (connections w).
Proof.
  intros Ht. destruct (begin_shutdown_eq w u t u1 Ht) as (w' & u' & E & Hc & Hs).
  exists (mkState w' u'). destruct Hs as (_ & _ & Hd & Hst & _). by split_and!.
Qed.

(** Stale events are ignored: an event whose token decodes to a connection that
    is no longer current changes nothing at all. *)
Theorem stale_event_ignored e id role w u :
  from_token (ev_token e) = Some (id, role) -> is_current_in w id = false ->
  len (listeners w) <= 2 ^ 63 ->
  dispatch e (mkState w u) = Ret tt (mkState w u).
Proof.
  intros Ht Hc Hl. assert (Hge : 2 ^ 63 <= ev_token e /\ (ev_token e =? CONTROL_TOKEN) = false).
  { unfold from_token in Ht. destruct (ev_token e =? CONTROL_TOKEN); [done|].
    split; [|done]. destruct (N.land (ev_token e) CONNECTION_TAG =? 0) eqn:E; [done|].
    change CONNECTION_TAG with (N.shiftl 1 63) in E. rewrite land_pow2_zero in E.
    apply negb_false_iff in E.
    destruct (N.lt_ge_cases (ev_token e) (2 ^ 63)) as [Hlt|]; [|done].
    by rewrite testbit_div, N.div_small in E. }
  destruct Hge as [Hge Hne]. unfold dispatch. rewrite Hne.
  rewrite (bind_Ret _ _ _ (len (listeners w)) (mkState w u)) by done.
  rewrite (bind_Ret _ _ _ (draining w) (mkState w u)) by done.
  rewrite (proj2 (N.ltb_ge _ _)) by lia. rewrite Ht.
  rewrite (bind_Ret _ _ _ false (mkState w u)) by (unfold is_current, gets; simpl; by rewrite Hc).
  done.
Qed.

Lemma next_generation_ne g : 0 < g < 2 ^ 30 -> next_generation g <> g.
Proof. intros Hg. rewrite next_generation_step by done. destruct (N.eqb_spec g (2 ^ 30 - 1)); lia. Qed.

Lemma resize_generations_Some g k i x :
  g !! i = Some x -> resize_generations g k !! i = Some x.
Proof. apply resize_generations_lookup. Qed.

(** The outcome of accepting a connection, whether it succeeds or fails. *)
Definition settles {A} (o : Outcome State A) (P : State -> Prop) : Prop :=
  match o with
  | Ret _ s => P s
  | Fail _ s => P s
  | Panicked => False
  end.

Lemma wp_settles {A} (m : M A) (P : State -> Prop) s :
  wp m (fun _ => P) P s -> settles (m s) P.
Proof. unfold wp, settles. by destruct (m s). Qed.

(** C25. A slot that is used again does not revive its former connection: whatever
    accepting a connection comes to, the identifier of the last occupant of a
    vacant slot is not current afterwards, so that events, DNS answers and
    scheduled work kept for it stay stale. *)
Theorem slot_reuse_keeps_stale stream l w u id :
  id_wf id -> connections w !! slot id = None ->
  generations w !! N.to_nat (slot id) = Some (generation id) -> l < len (listeners w) ->
  settles (register_connection stream l (mkState w u))
    (fun s => is_current_in (worker s) id = false).
Proof.
  intros [Hslot Hgen] Hv Hg Hl. apply wp_settles. unfold register_connection.
  assert (Hstale : forall g c k, k <> slot id \/ conn_generation c <> generation id ->
    is_current_in (set_connections (<[k := c]> (connections w)) (set_generations g w)) id = false).
  { intros g c k Hk. unfold is_current_in. simpl. destruct (decide (k = slot id)) as [->|Hne].
    - rewrite lookup_insert_eq. apply N.eqb_neq. by destruct Hk.
    - by rewrite lookup_insert_ne, Hv. }
  assert (Hgone : forall g, is_current_in (set_generations g w) id = false)
    by (intros g; unfold is_current_in; simpl; by rewrite Hv).
  apply wp_bind, wp_gets, wp_bind, wp_sys. intros k u1 Hk.
  apply vacant_key_fresh, not_elem_of_dom in Hk.
  destruct (SLOT_MASK <? k); [apply wp_fail, (Hgone (generations w))|].
  apply wp_bind, wp_gets.
  destruct (resize_generations_lookup (generations w) k) as [[x Hx] Hkeep]. rewrite Hx.
  apply wp_bind, wp_modify, wp_bind, wp_gets. simpl.
  destruct (lookup_lt_is_Some_2 (listeners w) (N.to_nat l)) as [lst Hlst];
    [unfold len in Hl; lia|]. rewrite Hlst.
  apply wp_bind, wp_make_connection; [|intros; apply Hgone]. intros session t u2.
  assert (Hne : k <> slot id \/ next_generation x <> generation id).
  { destruct (decide (k = slot id)) as [->|]; [right|by left].
    rewrite (Hkeep _ _ Hg) in Hx. injection Hx as <-. by apply next_generation_ne. }
  apply wp_bind, wp_modify, wp_bind, wp_lift; [|intros; by apply Hstale].
  intros tok _. apply wp_bind, wp_sys. intros [] u3 _; [by apply wp_skip, Hstale|].
  apply wp_bind, wp_modify, wp_fail. simpl. rewrite delete_insert_id by done. apply Hgone.
Qed.

(** ** Deadlines *)

(** The connections [close_idle_connections] closes at time [t]. *)
Definition overdue (t : N) (l : WorkerLimits) (c : Connection) : bool :=
  (negb (is_handling_request c) && expired t (last_progress c) (idle_timeout l))
  || ssl_handshake_expired t c.

(** Idle timeouts are exact: with one reading of the clock, the connections
    closed are those that made no progress for the idle timeout while no upstream
    is at work for them, and those whose TLS handshake is overdue; every other
    connection is left as it was. *)
Theorem idle_connections_closed w u t u1 :
  now u = (t, u1) ->
  exists s', close_idle_connections (mkState w u) = Ret tt s' /\
    connections (worker s') =
      filter (fun kc => overdue t (limits w) kc.2 = false) (connections w).
Proof.
  intros Ht. unfold close_idle_connections.
  rewrite (bind_Ret _ _ _ t (mkState w u1)) by (unfold clock, sys; simpl; by rewrite Ht).
  set (idle := fun c => negb (is_handling_request c) && expired t (last_progress c) (idle_timeout (limits w))).
  rewrite (bind_Ret _ _ _ (ids_where idle w) (mkState w u1)) by done.
  destruct (remove_all_eq (ids_where idle w) w u1) as [u2 E1]. rewrite (bind_Ret _ _ _ _ _ E1).
  set (w1 := forget_all (ids_where idle w) w).
  rewrite (bind_Ret _ _ _ (ids_where (ssl_handshake_expired t) w1) (mkState w1 u2)) by done.
  destruct (remove_all_eq (ids_where (ssl_handshake_expired t) w1) w1 u2) as [u3 E2].
  eexists. split; [exact E2|]. simpl.
  rewrite forget_all_connections, without_ids_where. unfold w1.
  rewrite forget_all_connections, without_ids_where.
  apply map_eq. intros k. apply option_eq. intros c. rewrite !map_lookup_filter_Some. simpl.
  unfold overdue. fold (idle c). rewrite orb_false_iff. tauto.
Qed.

(** ** Failed upstreams *)

(** The world once the upstream [x] has been given up: its error is read and the poller
    forgets it. *)
Definition upstream_released (x : Socket) (u : World) : World :=
  snd (deregister x (snd (take_error x u))).

(** C33. A failed upstream is answered once: when a proxied connection fails or
    passes a deadline before any response byte was relayed, the upstream is released and
    the error response (502, or 504 for a deadline; 500 if it is over the size limit)
    becomes the whole write buffer of the client, which is registered for writing; the
    client is dropped instead only if the poller refuses that registration. Once bytes
    were relayed the client is closed, never sent a second response head. *)
Theorem proxy_failure_answered id w u c p status message :
  Inv w -> connections w !! slot id = Some c -> conn_generation c = generation id ->
  phase c = Proxying p ->
  exists s', fail_proxy id status message (mkState w u) = Ret tt s' /\
    if negb (response_started p) && bool_decide (write_buffer c = [])
    then queued id c (fitting w (response_bytes status message))
           (upstream_released (upstream p) u) s'
    else connections (worker s') !! slot id = None.
Proof.
  intros Hi Hc Hg Hp.
  assert (Hw : id_wf id).
  { pose proof (inv_connections w Hi _ _ Hc) as [Hw _]. rewrite Hg in Hw. by destruct id. }
  cut (wp (fail_proxy id status message) (fun _ s' =>
    if negb (response_started p) && bool_decide (write_buffer c = [])
    then queued id c (fitting w (response_bytes status message))
           (upstream_released (upstream p) u) s'
    else connections (worker s') !! slot id = None) (fun _ => False) (mkState w u)).
  { intros ([] & s' & E & Hq)%wp_total. by exists s'. }
  unfold fail_proxy. apply wp_bind, wp_gets.
  rewrite (is_current_in_occupied w id c) by done. cbn [negb].
  apply wp_bind, (wp_index _ c); [done|]. unfold proxy, detach_proxy. rewrite Hp.
  apply wp_bind, wp_bind, (wp_update_slot _ _ _ _ c); [done|].
  apply wp_bind, wp_sys. intros r1 u1 E1. apply wp_bind, wp_sys. intros r2 u2 E2.
  assert (upstream_released (upstream p) u = u2) as ->
    by (unfold upstream_released; rewrite E1; simpl; by rewrite E2).
  apply wp_skip, wp_bind, wp_modify, wp_bind, wp_modify.
  set (w1 := set_pending_upstream_writes _ _).
  assert (Hc1 : connections w1 !! slot id = Some (begin_response c)) by (simpl; apply lookup_insert_eq).
  destruct (negb (response_started p) && bool_decide (write_buffer c = [])).
  - apply (queue_response_queued id w1 u2 (begin_response c)); try done.
  - destruct (remove_connection_eq id w1 u2) as [u3 E].
    eapply wp_of_Ret; [exact E|]. by apply (forget_lookup w1 id (begin_response c)).
Qed.

End Props.

(** ** Runs *)

#[local] Existing Instance script_fs.
#[local] Existing Instance script_mime.

(** The token of the first client of the first slot. *)
Definition script_token : Token := packed (mkConnectionId 0 1) Client.

(** A worker of the default configuration on the listener 5, in a world where the
    client 8 connects and asks for a target, in two reads. *)
Definition script_start (stop : bool) : ScriptState :=
  match new [(5, 0, [0])] (Config.servers (http (default_config None))) [None] script_limits
    (mkProxyLimits 10 10 10) (mkDnsLimits 1 10) (upstream_groups (default_config None))
    {| time := 1000; reads := script_reads; taken := ∅; written := ∅; finished := ∅; capacity := 50;
       incoming := [Ok 8];
       events := [ Ok [mkReadyEvent 0 true false false false false];
                   Ok [mkReadyEvent script_token true false false false false] ];
       resolved := []; stopping := stop |} with
  | (Ok w, u) => mkState w u
  | (Err _, u) => mkState (script_worker [] ∅) u
  end.

Lemma script_start_reachable stop : reachable (script_start stop).
Proof.
  unfold script_start. destruct (new _ _ _ _ _ _ _ _) as [[w|e] u] eqn:E; [|done].
  eapply reachable_new; [|exact E]. by apply (default_config_valid None map_to_list).
Qed.

(** Another world, in which the administrator stops the worker at time [t]. *)
Definition script_stop (t : N) : World :=
  {| time := t; reads := ∅; taken := ∅; written := ∅; finished := ∅; capacity := 50; incoming := [];
     events := []; resolved := []; stopping := true |}.

Lemma worker_never_panics_witness :
  match run_for 1 (script_start false) with
  | Ret false s => size (connections (worker s)) = 1%nat /\ Inv (worker s) /\ tick s <> Panicked
  | _ => False
  end.
Proof.
  pose proof (script_start_reachable false) as H0.
  assert (Ht : returns (run_for 1 (script_start false)) (fun b s =>
    negb b && bool_decide (size (connections (worker s)) = 1%nat)) = true) by (by vm_compute).
  destruct (run_for 1 (script_start false)) as [[] s|e s|] eqn:E; try discriminate Ht.
  split; [exact (bool_decide_eq_true_1 _ Ht)|].
  exact (worker_never_panics s (run_for_reachable 1 _ _ H0 E)).
Defined.

(** One connection, draining since 500000000. *)
Definition drains (s : ScriptState) : bool :=
  bool_decide (size (connections (worker s)) = 1%nat /\ draining (worker s) = true /\
    drain_started_at (worker s) = Some 500000000 /\
    drain_timeout (limits (worker s)) = 1000000000).

(** The state in which the worker has been asked to stop, with a response queued:
    it drains. *)
Lemma script_draining : { s : ScriptState | reachable s /\ drains s = true }.
Proof.
  pose proof (script_start_reachable false) as H0.
  assert (Ht : returns (run_for 2 (script_start false)) (fun b s => negb b &&
    returns (run_for 1 (mkState (worker s) (script_stop 500000000))) (fun b s => negb b &&
      drains s)) = true) by (by vm_compute).
  destruct (run_for 2 (script_start false)) as [[] [w u]|e s|] eqn:E; try discriminate Ht.
  cbn [returns negb andb worker] in Ht.
  destruct (run_for 1 (mkState w (script_stop 500000000))) as [[] s'|e s'|] eqn:E';
    try discriminate Ht.
  exists s'. split; [|exact Ht].
  apply (run_for_reachable 1 (mkState w (script_stop 500000000))); [|exact E'].
  eapply reachable_world, run_for_reachable; [exact H0|exact E].
Defined.

Lemma draining_admits_nothing_witness :
  exists s, draining (worker s) = true /\ size (connections (worker s)) = 1%nat /\
    forall stop s', tick s = Ret stop s' -> shrinks (worker s) (worker s').
Proof.
  destruct script_draining as (s & Hr & (Hs & Hd & _)%bool_decide_eq_true_1). exists s.
  split; [exact Hd|]. split; [exact Hs|].
  intros stop s' E. exact (draining_admits_nothing s stop s' Hr Hd E).
Defined.

Lemma drain_finishes_witness :
  exists s s', draining (worker s) = true /\ size (connections (worker s)) = 1%nat /\
    tick s = Ret true s' /\ connections (worker s') = ∅.
Proof.
  destruct script_draining as ([w u] & Hr & (Hs & Hd & Hst & Hl)%bool_decide_eq_true_1).
  cbn [worker] in *.
  pose proof (reachable_world w u (script_stop 5000000000) Hr) as Hr'.
  destruct (drain_finishes _ true (script_stop 5000000000) Hr' Hd eq_refl) as (t0 & E & Hend).
  cbn [worker] in *. rewrite Hst in E. injection E as <-.
  destruct Hend as (s' & Htick & Hc).
  - right. exists 5000000000, (snd (now (script_stop 5000000000))).
    split; [reflexivity|]. rewrite Hl. discriminate.
  - by exists (mkState w (script_stop 5000000000)), s'.
Defined.

(** The client on socket 9, in slot 1 with generation 3. *)
Definition script_other : Connection := new_connection (env := script_env) 9 0 3 None 0.

(** One client with a response to write, one that rests. *)
Definition script_pair : gmap N Connection :=
  {[0 := script_responding; 1 := script_other]}.

Lemma shutdown_closes_resting_witness :
  exists s', begin_shutdown (mkState (script_worker [] script_pair) (script 7 ∅ 50)) = Ret tt s' /\
    draining (worker s') = true /\
    bool_decide (dom (connections (worker s')) = {[0]}) = true.
Proof.
  destruct (shutdown_closes_resting (script_worker [] script_pair) (script 7 ∅ 50) 7
    (snd (script_now (script 7 ∅ 50)))) as (s' & E & Hd & _); [reflexivity|].
  exists s'. split; [exact E|]. split; [exact Hd|].
  refine (returns_Ret _ (fun _ s => bool_decide (dom (connections (worker s)) = {[0]})) _ _ _ E).
  by vm_compute.
Defined.

(** An event for generation 6 of the slot that holds generation 7. *)
Lemma stale_event_ignored_witness :
  let e := mkReadyEvent (packed (mkConnectionId 0 6) Client) true true true true true in
  let s := mkState (script_worker [] script_pair) (script 7 script_reads 50) in
  dispatch e s = Ret tt s.
Proof.
  exact (stale_event_ignored
    (mkReadyEvent (packed (mkConnectionId 0 6) Client) true true true true true)
    (mkConnectionId 0 6) Client (script_worker [] script_pair) (script 7 script_reads 50)
    eq_refl eq_refl ltac:(vm_compute; discriminate)).
Defined.

Lemma slot_reuse_keeps_stale_witness :
  settles (register_connection (env := script_env) 8 0
    (mkState (script_worker [] {[1 := script_other]}) (script 7 ∅ 50)))
    (fun s => is_current_in (worker s) (mkConnectionId 0 7) = false).
Proof.
  apply (slot_reuse_keeps_stale (env := script_env) 8 0 (script_worker [] {[1 := script_other]})
    (script 7 ∅ 50) (mkConnectionId 0 7)); [by split|done..].
Defined.

Lemma idle_connections_closed_witness :
  exists s', close_idle_connections
      (mkState (script_worker [] {[0 := set_last_progress 999999990 script_client;
                                   1 := script_other]})
         (script 1000000005 ∅ 50)) = Ret tt s' /\
    bool_decide (dom (connections (worker s')) = {[0]}) = true.
Proof.
  destruct (idle_connections_closed
    (script_worker [] {[0 := set_last_progress 999999990 script_client;
                        1 := script_other]})
    (script 1000000005 ∅ 50) 1000000005 (snd (script_now (script 1000000005 ∅ 50))))
    as (s' & E & _); [reflexivity|].
  exists s'. split; [exact E|].
  refine (returns_Ret _ (fun _ s => bool_decide (dom (connections (worker s)) = {[0]})) _ _ _ E).
  by vm_compute.
Defined.

Lemma script_proxying_Inv :
  Inv (script_worker [] {[0 := set_phase (Proxying script_proxy) script_client]}).
Proof.
  constructor; simpl; [|vm_compute; discriminate|by apply map_Forall_empty|constructor|done].
  apply map_Forall_singleton. unfold conn_ok, id_wf. split_and!; vm_compute; done.
Qed.

Lemma proxy_failure_answered_witness :
  exists s', fail_proxy script_id 504 (str "upstream response timed out")
      (mkState (script_worker [] {[0 := set_phase (Proxying script_proxy) script_client]})
         (script 7 ∅ 50)) = Ret tt s' /\
    queued script_id (set_phase (Proxying script_proxy) script_client)
      (response_bytes 504 (str "upstream response timed out"))
      (upstream_released 9 (script 7 ∅ 50)) s'.
Proof.
  exact (proxy_failure_answered script_id
    (script_worker [] {[0 := set_phase (Proxying script_proxy) script_client]}) (script 7 ∅ 50)
    (set_phase (Proxying script_proxy) script_client) script_proxy 504
    (str "upstream response timed out") script_proxying_Inv eq_refl eq_refl eq_refl).
Defined.
