(* ===== verification/Operation.v ===== *)
(** * Operation identifiers of the io_uring runtime
    ([run/slave/src/runtime/io_uring/operation.rs], [connection.rs])

    The 64-bit [user_data] of a submission and of its completion: the kind, the
    generation and the slot of the operation, and the reserved values. *)

From S2P Require Import Prelude RustStd Token.

Local Open Scope N_scope.

Module Uring.

Inductive OperationKind :=
| Accept | Read | Write | ProxyConnect | ProxyWrite | ProxyRead.

Record OperationId := mkOperationId {
  op_slot : N;
  op_generation : N;
  kind : OperationKind;
}.

#[export] Instance OperationKind_eq_dec : EqDecision OperationKind.
Proof. solve_decision. Defined.

#[export] Instance OperationId_eq_dec : EqDecision OperationId.
Proof. solve_decision. Defined.

Definition U64_MAX : N := 2 ^ 64 - 1.

Definition CONTROL_USER_DATA : N := 0.
Definition CANCEL_USER_DATA : N := U64_MAX.
Definition DNS_USER_DATA : N := U64_MAX - 1.
Definition TIMER_USER_DATA : N := U64_MAX - 2.
Definition PROXY_CANCEL_USER_DATA : N := U64_MAX - 3.

(** [self.kind as u64]. *)
Definition kind_code (k : OperationKind) : N :=
  match k with
  | Accept => 1 | Read => 2 | Write => 3
  | ProxyConnect => 4 | ProxyWrite => 5 | ProxyRead => 6
  end.

Definition kind_of_code (code : N) : option OperationKind :=
  match code with
  | 1 => Some Accept
  | 2 => Some Read
  | 3 => Some Write
  | 4 => Some ProxyConnect
  | 5 => Some ProxyWrite
  | 6 => Some ProxyRead
  | _ => None
  end.

Definition encode (o : OperationId) : N :=
  N.lor (N.lor (N.shiftl (kind_code (kind o)) 48) (N.shiftl (op_generation o) 32)) (op_slot o).

(** [as u16] and [as u32] keep the low bits. *)
Definition as_u16 (n : N) : N := N.land n (N.shiftl 1 16 - 1).
Definition as_u32 (n : N) : N := N.land n (N.shiftl 1 32 - 1).

Definition decode (value : N) : option OperationId :=
  match kind_of_code (as_u16 (N.shiftr value 48)) with
  | None => None
  | Some k =>
    let generation := as_u16 (N.shiftr value 32) in
    if generation =? 0 then None
    else Some {| op_slot := as_u32 value; op_generation := generation; kind := k |}
  end.

(** [next_generation] of 16 bits. *)
Definition next_generation (previous : N) : N :=
  let next := wrapping_add 16 previous 1 in
  if next =? 0 then 1 else next.

(** ** Lemmas *)

Definition operation_wf (o : OperationId) : Prop :=
  op_slot o < 2 ^ 32 /\ 0 < op_generation o < 2 ^ 16.

Definition reserved : list N :=
  [CONTROL_USER_DATA; CANCEL_USER_DATA; DNS_USER_DATA; TIMER_USER_DATA; PROXY_CANCEL_USER_DATA].

Lemma kind_of_code_Some c k : kind_of_code c = Some k <-> c = kind_code k.
Proof.
  split; [|intros ->; by destruct k]. unfold kind_of_code.
  destruct c as [|[[p|p|]|[p|p|]|]]; try destruct p; try done; by intros [= <-].
Qed.

Lemma kind_code_range k : 0 < kind_code k < 7.
Proof. by destruct k. Qed.

(** The word as a sum of its fields. *)
Lemma encode_sum o :
  operation_wf o ->
  encode o = kind_code (kind o) * 2 ^ 48 + op_generation o * 2 ^ 32 + op_slot o.
Proof.
  intros [Hs Hg]. unfold encode. rewrite !N.shiftl_mul_pow2.
  replace (kind_code (kind o) * 2 ^ 48) with (kind_code (kind o) * 2 ^ 16 * 2 ^ 32) by lia.
  replace (N.lor (kind_code (kind o) * 2 ^ 16 * 2 ^ 32) (op_generation o * 2 ^ 32))
    with ((kind_code (kind o) * 2 ^ 16 + op_generation o) * 2 ^ 32).
  - rewrite lor_shifted by done. lia.
  - rewrite <- lor_shifted by lia. by rewrite <- !N.shiftl_mul_pow2, N.shiftl_lor.
Qed.

Lemma decode_Some v o :
  v < 2 ^ 64 -> (decode v = Some o <-> operation_wf o /\ v = encode o).
Proof.
  intros Hv. unfold decode, as_u16, as_u32. rewrite !land_ones_mod, !N.shiftr_div_pow2.
  assert (Hd : v = v / 2 ^ 48 * 2 ^ 48 + (v / 2 ^ 32) mod 2 ^ 16 * 2 ^ 32 + v mod 2 ^ 32).
  { pose proof (N.div_mod v (2 ^ 32) ltac:(done)) as E1.
    pose proof (N.div_mod (v / 2 ^ 32) (2 ^ 16) ltac:(done)) as E2.
    rewrite N.Div0.div_div in E2. change (2 ^ 32 * 2 ^ 16) with (2 ^ 48) in E2. lia. }
  assert (Hk : v / 2 ^ 48 < 2 ^ 16) by (apply N.Div0.div_lt_upper_bound; lia).
  pose proof (N.mod_lt (v / 2 ^ 32) (2 ^ 16) ltac:(done)) as Hg.
  pose proof (N.mod_lt v (2 ^ 32) ltac:(done)) as Hs.
  rewrite (N.mod_small (v / 2 ^ 48)) by done.
  revert Hd Hk Hg Hs. generalize (v / 2 ^ 48), ((v / 2 ^ 32) mod 2 ^ 16), (v mod 2 ^ 32).
  intros code g s Hd Hk Hg Hs. split.
  - destruct (kind_of_code code) as [k|] eqn:Ek; [|done]. apply kind_of_code_Some in Ek.
    destruct (N.eqb_spec g 0) as [->|Hne]; [done|]. intros [= <-].
    assert (Hwf : operation_wf {| op_slot := s; op_generation := g; kind := k |})
      by (split; simpl; lia).
    split; [done|]. rewrite encode_sum by done. simpl. by rewrite <- Ek.
  - intros [Hwf E]. rewrite encode_sum in E by done. destruct Hwf as [Hws Hwg].
    pose proof (kind_code_range (kind o)).
    assert (code = kind_code (kind o) /\ g = op_generation o /\ s = op_slot o)
      as (-> & -> & ->) by lia.
    rewrite (proj2 (kind_of_code_Some _ _) eq_refl), (proj2 (N.eqb_neq _ _)) by lia.
    by destruct o.
Qed.

Lemma encode_range o : operation_wf o -> 2 ^ 48 <= encode o < 7 * 2 ^ 48.
Proof.
  intros Hwf. rewrite encode_sum by done. destruct Hwf as [Hs Hg].
  pose proof (kind_code_range (kind o)). lia.
Qed.

Lemma uring_next_generation_wf g : g < 2 ^ 16 -> 0 < next_generation g < 2 ^ 16.
Proof.
  intros Hg. unfold next_generation, wrapping_add.
  destruct (N.eqb_spec ((g + 1) mod 2 ^ 16) 0) as [|Hne]; [done|].
  pose proof (N.mod_lt (g + 1) (2 ^ 16) ltac:(done)).
  generalize dependent ((g + 1) mod 2 ^ 16). lia.
Qed.

Lemma uring_next_generation_ne g : g < 2 ^ 16 -> next_generation g <> g.
Proof.
  intros Hg. unfold next_generation, wrapping_add.
  destruct (N.eq_dec g (2 ^ 16 - 1)) as [->|Hne]; [done|].
  rewrite N.mod_small by lia. rewrite (proj2 (N.eqb_neq _ _)); lia.
Qed.

(** ** Properties *)

(** Operation identifiers and 64-bit words correspond exactly: a word decodes to
    an operation if and only if it is the encoding of that operation and the
    operation has a 32-bit slot and a non-zero 16-bit generation; the values
    reserved for the control, DNS, timer and cancellation completions are no
    operation's. *)
Theorem operation_round_trip v o :
  v < 2 ^ 64 ->
  (decode v = Some o <-> operation_wf o /\ v = encode o) /\
  (operation_wf o -> encode o < 2 ^ 64 /\ encode o ∉ reserved) /\
  (v ∈ reserved -> decode v = None).
Proof.
  intros Hv. split; [by apply decode_Some|].
  assert (Hres : forall o, operation_wf o -> encode o ∉ reserved).
  { intros o' Hwf Hin. pose proof (encode_range o' Hwf).
    unfold reserved, CONTROL_USER_DATA, CANCEL_USER_DATA, DNS_USER_DATA, TIMER_USER_DATA,
      PROXY_CANCEL_USER_DATA, U64_MAX in Hin. set_unfold in Hin. lia. }
  split.
  - intros Hwf. pose proof (encode_range o Hwf). split; [lia|by apply Hres].
  - intros Hin. destruct (decode v) as [o'|] eqn:E; [|done].
    apply decode_Some in E as [Hwf ->]; [|done]. by apply Hres in Hin.
Qed.

Lemma operation_round_trip_witness :
  let o := mkOperationId 7 9 ProxyRead in
  decode (encode o) = Some o /\ decode CANCEL_USER_DATA = None.
Proof.
  split.
  - apply (operation_round_trip (encode (mkOperationId 7 9 ProxyRead)) (mkOperationId 7 9 ProxyRead));
      [done|]. split; [|done]. by split.
  - destruct (operation_round_trip CANCEL_USER_DATA (mkOperationId 7 9 ProxyRead)) as (_ & _ & H);
      [done|]. apply H. vm_compute. right. left.
Defined.

End Uring.
