(* ===== verification/BufferRing.v ===== *)
(** * The provided-buffer ring ([run/slave/src/runtime/io_uring/buffer_ring.rs])

    The receive buffers the worker shares with the kernel: the ring of descriptors
    with its 16-bit tail, the copy out of a buffer and its publication. The kernel's
    side of the protocol is a step relation, and the pair refines a queue of free
    buffers: no buffer is lent twice, and no free buffer is lost. *)

From S2P Require Import Prelude RustStd.

Local Open Scope N_scope.

Module BufferRing.

Definition BUFFER_GROUP : N := 0.

(** [BufRingEntry]: the address is the buffer it points to. *)
Record Entry := mkEntry {
  entry_addr : N;
  entry_len : N;
  entry_bid : N;
}.

Record ProvidedBufferRing := mkRing {
  entries : list Entry;
  buffers : list bytes;
  mask : N;
  tail : N;
  buffer_len : N;
}.

(** [publish]; [None] when [self.buffers[id]] or the entry is out of range. *)
Definition publish (id : N) (r : ProvidedBufferRing) : option ProvidedBufferRing :=
  let index := N.land (tail r) (mask r) in
  if (len (buffers r) <=? id) || (len (entries r) <=? index) then None
  else
    Some {| entries := <[N.to_nat index := mkEntry id (buffer_len r) id]> (entries r);
            buffers := buffers r; mask := mask r; tail := wrapping_add 16 (tail r) 1;
            buffer_len := buffer_len r |}.

(** [copy_and_release]; the outer option is a panic. *)
Definition copy_and_release (id length : N) (r : ProvidedBufferRing) :
    option (io_result bytes * ProvidedBufferRing) :=
  match buffers r !! N.to_nat id with
  | None => Some (Err InvalidData, r)
  | Some buffer =>
    r ← publish id r;
    Some (if len buffer <? length then Err InvalidData
          else Ok (take (N.to_nat length) buffer), r)
  end.

(** [for id in 0..entry_count { pool.publish(id) }]. *)
Fixpoint publish_all (ids : list N) (r : ProvidedBufferRing) : option ProvidedBufferRing :=
  match ids with
  | [] => Some r
  | id :: ids => r ← publish id r; publish_all ids r
  end.

Definition is_power_of_two (n : N) : bool := (0 <? n) && (n =? 2 ^ N.log2 n).

(** [register]: [page_size] is [sysconf]'s answer, [allocate] that of the allocator
    and [register_ring] that of the kernel. *)
Definition register (page_size : io_result N) (allocate : N -> bool)
    (register_ring : io_result unit) (entry_count buffer_size : N) :
    option (io_result ProvidedBufferRing) :=
  if (entry_count =? 0) || negb (is_power_of_two entry_count) || (32768 <? entry_count)
  then Some (Err InvalidInput)
  else if 2 ^ 32 <=? buffer_size then Some (Err InvalidInput)
  else if buffer_size =? 0 then Some (Err InvalidInput)
  else
    match page_size with
    | Err e => Some (Err e)
    | Ok page_size =>
      if negb (is_power_of_two page_size) then Some (Err InvalidInput)
      else if negb (allocate (entry_count * 16)) then Some (Err OutOfMemory)
      else
        let ids := N.of_nat <$> seq 0 (N.to_nat entry_count) in
        pool ← publish_all ids
          {| entries := replicate (N.to_nat entry_count) (mkEntry 0 0 0);
             buffers := replicate (N.to_nat entry_count)
                          (replicate (N.to_nat buffer_size) "000"%byte);
             mask := entry_count - 1; tail := 0; buffer_len := buffer_size |};
        Some (match register_ring with Ok _ => Ok pool | Err e => Err e end)
    end.

(** ** The kernel's side

    The kernel consumes the descriptors from its own head, as long as it differs
    from the published tail, and fills the buffers it has taken. *)
Definition kernel_take (head : N) (r : ProvidedBufferRing) : option (N * N) :=
  if head =? tail r then None
  else
    e ← entries r !! N.to_nat (N.land head (mask r));
    Some (entry_bid e, wrapping_add 16 head 1).

(** The kernel writes [b] at the start of a buffer. *)
Definition fill (id : N) (b : bytes) (r : ProvidedBufferRing) : ProvidedBufferRing :=
  {| entries := entries r;
     buffers := alter (fun old => b ++ drop (length b) old) (N.to_nat id) (buffers r);
     mask := mask r; tail := tail r; buffer_len := buffer_len r |}.

(** The ring, the kernel's head, and the buffers lent to receive operations with the
    bytes the kernel wrote. *)
Record System := mkSystem {
  ring : ProvidedBufferRing;
  head : N;
  lent : list (N * bytes);
}.

(** What the worker and the kernel see of a step. *)
Inductive Event :=
| Lend (id : N) (b : bytes)
| GiveBack (id : N) (r : io_result bytes).

(** The kernel takes a buffer for a receive and fills at most its length; the worker
    copies a completed buffer out and gives it back. *)
Inductive ring_step : System -> Event -> System -> Prop :=
| ring_lend s id h' b :
    kernel_take (head s) (ring s) = Some (id, h') -> len b <= buffer_len (ring s) ->
    ring_step s (Lend id b) (mkSystem (fill id b (ring s)) h' ((id, b) :: lent s))
| ring_give_back s id b r r' lent1 lent2 :
    lent s = lent1 ++ (id, b) :: lent2 ->
    copy_and_release id (len b) (ring s) = Some (r, r') ->
    ring_step s (GiveBack id r) (mkSystem r' (head s) (lent1 ++ lent2)).

Inductive ring_run : System -> list Event -> System -> Prop :=
| ring_run_nil s : ring_run s [] s
| ring_run_snoc s t s' e s'' :
    ring_run s t s' -> ring_step s' e s'' -> ring_run s (t ++ [e]) s''.

(** ** The specification: a queue of free buffers and the lent ones *)
Record Pool := mkPool {
  free : list N;
  out : list (N * bytes);
}.

Inductive pool_step : Pool -> Event -> Pool -> Prop :=
| pool_lend q o id b : pool_step (mkPool (id :: q) o) (Lend id b) (mkPool q ((id, b) :: o))
| pool_give_back q o1 o2 id b :
    pool_step (mkPool q (o1 ++ (id, b) :: o2)) (GiveBack id (Ok b))
              (mkPool (q ++ [id]) (o1 ++ o2)).

Inductive pool_run : Pool -> list Event -> Pool -> Prop :=
| pool_run_nil p : pool_run p [] p
| pool_run_snoc p t p' e p'' :
    pool_run p t p' -> pool_step p' e p'' -> pool_run p (t ++ [e]) p''.

(** ** The queue of free buffers *)

(** The free buffers, oldest first, are [q]. *)
Definition holds (r : ProvidedBufferRing) (h : N) (q : list N) : Prop :=
  len q <= mask r + 1 /\ tail r = (h + len q) mod 2 ^ 16 /\
  forall i id, q !! i = Some id ->
    entry_bid <$> entries r !! N.to_nat ((h + N.of_nat i) mod (mask r + 1)) = Some id /\
    entry_addr <$> entries r !! N.to_nat ((h + N.of_nat i) mod (mask r + 1)) = Some id.

(** The ring's shape: [2^k] entries and as many buffers of one size. *)
Definition ring_wf (r : ProvidedBufferRing) : Prop :=
  (exists k, k <= 15 /\ mask r + 1 = 2 ^ k) /\
  len (entries r) = mask r + 1 /\ len (buffers r) = mask r + 1 /\
  Forall (fun b => len b = buffer_len r) (buffers r).

(** The ids [0 .. n). *)
Definition all_ids (n : N) : list N := N.of_nat <$> seq 0 (N.to_nat n).

(** The system's ring holds the pool's free buffers, every buffer is free or lent,
    and only once, and a lent one still starts with what the kernel wrote. *)
Definition implements (s : System) (p : Pool) : Prop :=
  ring_wf (ring s) /\ head s < 2 ^ 16 /\ lent s = out p /\
  holds (ring s) (head s) (free p) /\
  free p ++ (out p).*1 ≡ₚ all_ids (mask (ring s) + 1) /\
  Forall (fun '(id, b) =>
    exists rest, buffers (ring s) !! N.to_nat id = Some (b ++ rest)) (out p).

Lemma land_mask r n :
  ring_wf r -> N.land n (mask r) = n mod (mask r + 1).
Proof.
  intros ((k & Hk & E) & _). rewrite E. replace (mask r) with (N.ones k).
  - apply N.land_ones.
  - rewrite N.ones_equiv. lia.
Qed.

(** A 16-bit counter and its wrap-around agree modulo the size of the ring. *)
Lemma wrap_mod r n : ring_wf r -> (n mod 2 ^ 16) mod (mask r + 1) = n mod (mask r + 1).
Proof.
  intros ((k & Hk & E) & _). rewrite E.
  replace (2 ^ 16) with (2 ^ k * 2 ^ (16 - k)) by (rewrite <- N.pow_add_r; f_equal; lia).
  rewrite N.Div0.mod_mul_r, N.mul_comm, N.Div0.mod_add. apply N.Div0.mod_mod.
Qed.

Lemma index_ne h i j n : 0 < n -> i < j -> j - i < n -> (h + i) mod n <> (h + j) mod n.
Proof.
  intros Hn Hij Hlt E.
  pose proof (N.div_mod (h + i) n ltac:(lia)) as E1.
  pose proof (N.div_mod (h + j) n ltac:(lia)) as E2. rewrite E in E1.
  assert (Hq : (h + i) / n <= (h + j) / n) by (apply N.Div0.div_le_mono; lia).
  destruct (N.eq_dec ((h + i) / n) ((h + j) / n)) as [Eq|Hne]; [rewrite Eq in E1; lia|].
  assert (Hs : (h + i) / n + 1 <= (h + j) / n) by lia.
  pose proof (N.mul_le_mono_l _ _ n Hs). lia.
Qed.

Lemma publish_holds id r h q :
  ring_wf r -> holds r h q -> len q < mask r + 1 -> id < mask r + 1 ->
  exists r', publish id r = Some r' /\ ring_wf r' /\ holds r' h (q ++ [id]) /\
    mask r' = mask r /\ buffers r' = buffers r /\ buffer_len r' = buffer_len r.
Proof.
  intros Hwf (Hlen & Htail & Hq) Hfree Hid. pose proof Hwf as (Hm & He & Hb & Hsize).
  assert (Hidx : N.land (tail r) (mask r) = (h + len q) mod (mask r + 1))
    by (by rewrite land_mask, Htail, wrap_mod).
  pose proof (N.mod_lt (h + len q) (mask r + 1) ltac:(lia)) as Hlt.
  unfold publish. rewrite Hidx, (proj2 (N.leb_gt _ _)), (proj2 (N.leb_gt _ _)) by lia.
  eexists. split; [reflexivity|]. split; [|split; [|done]].
  { split; [done|]. simpl. split; [|done]. rewrite <- He. unfold len. by rewrite length_insert. }
  unfold holds. cbn [mask tail entries]. rewrite len_app, len_cons, len_nil. split; [lia|]. split.
  - unfold wrapping_add. rewrite Htail, N.Div0.add_mod_idemp_l. f_equal. lia.
  - intros i x Hi. destruct (decide (i < length q)%nat) as [Hlt'|Hge].
    + rewrite lookup_app_l in Hi by done.
      rewrite list_lookup_insert_ne; [by apply Hq|].
      intros E. apply N2Nat.inj in E. symmetry in E.
      revert E. apply index_ne; unfold len in *; lia.
    + rewrite lookup_app_r in Hi by lia.
      apply list_lookup_singleton_Some in Hi as [Hi <-].
      replace i with (length q) by lia. fold (len q).
      rewrite list_lookup_insert_eq; [done|]. unfold len in *. lia.
Qed.

Lemma kernel_take_holds r h q id h' :
  ring_wf r -> h < 2 ^ 16 -> holds r h q -> kernel_take h r = Some (id, h') ->
  exists q', q = id :: q' /\ holds r h' q' /\ h' < 2 ^ 16.
Proof.
  intros Hwf Hh (Hlen & Htail & Hq). unfold kernel_take.
  destruct (N.eqb_spec h (tail r)) as [|Hne]; [done|].
  destruct q as [|x q].
  { exfalso. apply Hne. rewrite Htail, len_nil, N.add_0_r. by rewrite N.mod_small. }
  destruct (Hq 0%nat x eq_refl) as [Hx _]. rewrite N.add_0_r in Hx.
  rewrite land_mask by done. destruct (entries r !! _) as [e|]; [|done]. simpl in *.
  injection Hx as ->. intros [= <- <-]. exists q. split; [done|].
  split; [|by apply N.mod_lt].
  rewrite len_cons in *. split; [lia|]. split.
  - rewrite Htail. unfold wrapping_add. rewrite N.Div0.add_mod_idemp_l. f_equal. lia.
  - intros i y Hi. pose proof Hwf as Hwf'. unfold wrapping_add.
    assert (Hmod : ((h + 1) mod 2 ^ 16 + N.of_nat i) mod (mask r + 1)
                   = (h + N.of_nat (S i)) mod (mask r + 1)).
    { rewrite <- N.Div0.add_mod_idemp_l, wrap_mod, N.Div0.add_mod_idemp_l by done.
      f_equal. lia. }
    rewrite Hmod. by apply Hq.
Qed.

Lemma elem_of_all_ids n id : id ∈ all_ids n <-> id < n.
Proof.
  unfold all_ids. rewrite list_elem_of_fmap. split.
  - intros (i & -> & Hi%elem_of_seq). lia.
  - intros Hlt. exists (N.to_nat id). split; [lia|]. apply elem_of_seq. lia.
Qed.

Lemma NoDup_all_ids n : NoDup (all_ids n).
Proof. apply NoDup_fmap_2; [apply _|]. apply NoDup_seq. Qed.

Lemma len_all_ids n : len (all_ids n) = n.
Proof. unfold all_ids, len. rewrite length_fmap, length_seq. lia. Qed.

Section implements.

Context (s : System) (p : Pool) (H : implements s p).

Lemma implements_NoDup : NoDup (free p ++ (out p).*1).
Proof. destruct H as (_ & _ & _ & _ & Hp & _). rewrite Hp. apply NoDup_all_ids. Qed.

Lemma implements_count : len (free p) + len (out p) = mask (ring s) + 1.
Proof.
  destruct H as (_ & _ & _ & _ & Hp & _). apply Permutation_length in Hp.
  rewrite length_app, length_fmap in Hp. pose proof (len_all_ids (mask (ring s) + 1)).
  unfold len in *. lia.
Qed.

Lemma implements_bound id : id ∈ free p ++ (out p).*1 -> id < mask (ring s) + 1.
Proof.
  destruct H as (_ & _ & _ & _ & Hp & _). rewrite Hp. by rewrite elem_of_all_ids.
Qed.

End implements.

(** Filling a buffer keeps the shape of the ring and its descriptors. *)
Lemma fill_wf id b r : ring_wf r -> len b <= buffer_len r -> ring_wf (fill id b r).
Proof.
  intros (Hm & He & Hb & Hsize) Hle. split; [done|]. split; [done|]. split.
  - simpl. unfold len in *. by rewrite length_alter.
  - simpl. apply Forall_alter; [done|]. intros old _ Hold.
    rewrite len_app, len_drop. unfold len in *. lia.
Qed.

Lemma lend_implements s p id h' b :
  implements s p -> kernel_take (head s) (ring s) = Some (id, h') ->
  len b <= buffer_len (ring s) ->
  exists p', pool_step p (Lend id b) p' /\
    implements (mkSystem (fill id b (ring s)) h' ((id, b) :: lent s)) p'.
Proof.
  intros Himpl Htake Hle. pose proof (implements_NoDup s p Himpl) as Hnd.
  pose proof (implements_bound s p Himpl) as Hbound.
  destruct Himpl as (Hwf & Hh & Hout & Hq & Hperm & Hlent). destruct p as [q o]. simpl in *.
  destruct (kernel_take_holds _ _ _ _ _ Hwf Hh Hq Htake) as (q' & -> & Hq' & Hh').
  exists (mkPool q' ((id, b) :: o)). split; [constructor|].
  split; [by apply fill_wf|]. split; [done|]. simpl. split; [by rewrite Hout|].
  split; [done|]. split; [by rewrite <- Hperm, <- Permutation_middle|].
  constructor.
  - destruct (lookup_lt_is_Some_2 (buffers (ring s)) (N.to_nat id)) as [old Hold].
    { destruct Hwf as (_ & _ & Hb & _). specialize (Hbound id ltac:(set_solver)).
      unfold len in Hb. lia. }
    exists (drop (length b) old). by rewrite list_lookup_alter_eq, Hold.
  - apply Forall_forall. intros [id' b'] Hin.
    rewrite Forall_forall in Hlent. destruct (Hlent _ Hin) as [rest Hrest].
    exists rest. rewrite list_lookup_alter_ne; [done|]. intros E%N2Nat.inj. subst id'.
    apply NoDup_app in Hnd as (_ & Hdisj & _).
    apply (Hdisj id); [by left|]. apply list_elem_of_fmap. by exists (id, b').
Qed.

Lemma give_back_implements s p id b lent1 lent2 :
  implements s p -> lent s = lent1 ++ (id, b) :: lent2 ->
  exists r' p', copy_and_release id (len b) (ring s) = Some (Ok b, r') /\
    pool_step p (GiveBack id (Ok b)) p' /\
    implements (mkSystem r' (head s) (lent1 ++ lent2)) p'.
Proof.
  intros Himpl Hsplit. pose proof (implements_count s p Himpl) as Hcount.
  pose proof (implements_bound s p Himpl) as Hbound.
  destruct Himpl as (Hwf & Hh & Hout & Hq & Hperm & Hlent).
  destruct p as [q o]. simpl in *. rewrite Hsplit in Hout. subst o.
  rewrite fmap_app, fmap_cons in Hbound, Hperm. simpl in *.
  rewrite len_app, len_cons in Hcount.
  apply Forall_app in Hlent as [Hl1 [[rest Hrest] Hl2]%Forall_cons_1].
  destruct (publish_holds id (ring s) (head s) q Hwf Hq) as (r' & Er & Hwf' & Hq' & Em & Eb & El).
  { lia. }
  { apply Hbound. set_solver. }
  exists r', (mkPool (q ++ [id]) (lent1 ++ lent2)).
  split.
  - unfold copy_and_release. rewrite Hrest, Er. simpl.
    rewrite (proj2 (N.ltb_ge _ _)) by (rewrite len_app; lia).
    unfold len. by rewrite Nat2N.id, take_app_length.
  - split; [constructor|]. split; [done|]. split; [done|]. split; [done|]. split; [done|].
    simpl. rewrite Em, Eb. split; [|by apply Forall_app].
    rewrite <- Hperm, fmap_app, <- app_assoc. simpl. by rewrite Permutation_middle.
Qed.

Lemma register_bound n : is_power_of_two n = true -> n <= 32768 ->
  exists k, k <= 15 /\ n = 2 ^ k.
Proof.
  unfold is_power_of_two. intros [_ E%N.eqb_eq]%andb_true_iff Hle.
  exists (N.log2 n). split; [|done]. change 15 with (N.log2 32768). by apply N.log2_le_mono.
Qed.

Lemma publish_all_holds ids r h q :
  ring_wf r -> holds r h q -> len q + len ids <= mask r + 1 ->
  Forall (fun id => id < mask r + 1) ids ->
  exists r', publish_all ids r = Some r' /\ ring_wf r' /\ holds r' h (q ++ ids) /\
    mask r' = mask r.
Proof.
  revert r q. induction ids as [|id ids IH]; intros r q Hwf Hq Hlen Hids.
  - exists r. by rewrite app_nil_r.
  - rewrite len_cons in Hlen. apply Forall_cons_1 in Hids as [Hid Hids].
    destruct (publish_holds id r h q Hwf Hq) as (r' & Er & Hwf' & Hq' & Em & _); [lia|done|].
    destruct (IH r' (q ++ [id])) as (r'' & Er'' & Hwf'' & Hq'' & Em''); try done.
    { rewrite len_app, len_cons, len_nil. lia. }
    { by rewrite Em. }
    exists r''. simpl. rewrite Er. simpl. split; [done|]. split; [done|].
    rewrite <- app_assoc in Hq''. split; [done|congruence].
Qed.

(** The zeroed ring of [register]. *)
Definition zeroed (n size : N) : ProvidedBufferRing :=
  {| entries := replicate (N.to_nat n) (mkEntry 0 0 0);
     buffers := replicate (N.to_nat n) (replicate (N.to_nat size) "000"%byte);
     mask := n - 1; tail := 0; buffer_len := size |}.

Lemma publish_all_zeroed n size :
  is_power_of_two n = true -> n <= 32768 -> size < 2 ^ 32 ->
  exists r, publish_all (all_ids n) (zeroed n size) = Some r /\ ring_wf r /\
    holds r 0 (all_ids n) /\ mask r + 1 = n.
Proof.
  intros Hpow Hle Hsize. destruct (register_bound n Hpow Hle) as (k & Hk & Ek).
  assert (Hn : 0 < n) by (rewrite Ek; apply N.neq_0_lt_0, N.pow_nonzero; lia).
  assert (Hwf : ring_wf (zeroed n size)).
  { split; [exists k; simpl; lia|]. unfold len. simpl. rewrite !length_replicate.
    split; [lia|]. split; [lia|]. apply Forall_replicate. rewrite length_replicate. lia. }
  destruct (publish_all_holds (all_ids n) (zeroed n size) 0 []) as (r & Er & Hwf' & Hq & Em).
  - done.
  - split; [|split]; simpl; [rewrite len_nil; lia|done|done].
  - rewrite len_all_ids. simpl. rewrite len_nil. lia.
  - apply Forall_forall. intros id Hid%elem_of_all_ids. simpl. lia.
  - exists r. split; [done|]. split; [done|]. split; [done|]. rewrite Em. simpl. lia.
Qed.

(** What [register] asks of the count of buffers and of the system, not of their size. *)
Definition registrable (page_size : io_result N) (allocate : N -> bool)
    (register_ring : io_result unit) (n : N) : bool :=
  is_power_of_two n && (n <=? 32768)
  && match page_size with Ok p => is_power_of_two p | Err _ => false end
  && allocate (n * 16)
  && match register_ring with Ok _ => true | Err _ => false end.

(** [register] never panics, and accepts exactly the counts and sizes above. *)
Lemma register_spec page_size allocate register_ring n size :
  match register page_size allocate register_ring n size with
  | Some (Ok r) =>
    registrable page_size allocate register_ring n = true /\ 0 < size < 2 ^ 32 /\
    publish_all (all_ids n) (zeroed n size) = Some r
  | Some (Err _) => registrable page_size allocate register_ring n = false \/ ~ 0 < size < 2 ^ 32
  | None => False
  end.
Proof.
  unfold register, registrable. destruct (N.eqb_spec n 0) as [->|Hn]; [by left|]. simpl.
  destruct (is_power_of_two n) eqn:Hpow; [|by left]. simpl.
  destruct (N.ltb_spec 32768 n) as [H|Hle]; [left; by rewrite (proj2 (N.leb_gt _ _) H)|].
  rewrite (proj2 (N.leb_le _ _) Hle).
  destruct (N.leb_spec (2 ^ 32) size) as [|Hs]; [right; lia|].
  destruct (N.eqb_spec size 0) as [|Hs']; [right; lia|].
  destruct page_size as [p|]; [|by left]. destruct (is_power_of_two p); [|by left]. simpl.
  destruct (allocate (n * 16)); [|by left]. simpl.
  destruct (publish_all_zeroed n size) as (r & E & _); [done..|].
  change (publish_all _ _) with (publish_all (all_ids n) (zeroed n size)). rewrite E. simpl.
  destruct register_ring; [|by left]. split; [done|]. split; [lia|done].
Qed.

Lemma register_Ok page_size allocate register_ring n size :
  (exists r, register page_size allocate register_ring n size = Some (Ok r)) <->
  registrable page_size allocate register_ring n = true /\ 0 < size < 2 ^ 32.
Proof.
  pose proof (register_spec page_size allocate register_ring n size) as H.
  destruct (register _ _ _ _ _) as [[r|e]|]; [|split; [by intros [? ?]|]|done].
  - split; [by split; apply H|]. intros _. by exists r.
  - intros [Hreg Hsize]. rewrite Hreg in H. by destruct H.
Qed.

(** A registered ring holds every buffer. *)
Lemma register_implements page_size allocate register_ring n size r :
  register page_size allocate register_ring n size = Some (Ok r) ->
  implements (mkSystem r 0 []) (mkPool (all_ids n) []) /\ mask r + 1 = n.
Proof.
  intros H. pose proof (register_spec page_size allocate register_ring n size) as Hspec.
  rewrite H in Hspec. destruct Hspec as (Hreg & [_ Hsize] & Hr).
  unfold registrable in Hreg. rewrite !andb_true_iff, N.leb_le in Hreg.
  destruct Hreg as ((((Hpow & Hle) & _) & _) & _).
  destruct (publish_all_zeroed n size Hpow Hle Hsize) as (r' & Er & Hwf & Hq & Em).
  rewrite Hr in Er. injection Er as <-. split; [|done].
  split; [done|]. split; [done|]. split; [done|]. split; [done|].
  split; [|done]. simpl. rewrite app_nil_r. by rewrite Em.
Qed.

Lemma run_implements s p t s' :
  ring_run s t s' -> implements s p -> exists p', pool_run p t p' /\ implements s' p'.
Proof.
  induction 1 as [s|s t s' e s'' Hrun IH Hstep]; intros Hs; [by exists p; split; [constructor|]|].
  destruct (IH Hs) as (p' & Hp' & Hs').
  inversion Hstep as [? id h' b Htake Hle|? id b r r' l1 l2 Hlent Hcopy]; subst.
  - destruct (lend_implements _ _ _ _ _ Hs' Htake Hle) as (p'' & Hp'' & Hs'').
    exists p''. split; [by econstructor|done].
  - destruct (give_back_implements _ _ _ _ _ _ Hs' Hlent) as (r'' & p'' & E & Hp'' & Hs'').
    rewrite E in Hcopy. injection Hcopy as <- <-. exists p''. split; [by econstructor|done].
Qed.

Lemma pool_run_ids p t p' : pool_run p t p' -> free p' ++ (out p').*1 ≡ₚ free p ++ (out p).*1.
Proof.
  induction 1 as [|p t p' e p'' _ IH Hstep]; [done|]. rewrite <- IH.
  inversion Hstep; subst; simpl; [by rewrite Permutation_middle|].
  rewrite !fmap_app, fmap_cons, <- !app_assoc. simpl. by rewrite Permutation_middle.
Qed.

(** ** Properties *)

(** C12. The provided-buffer ring refines a pool of buffers: whatever the kernel and
    the worker do from a ring that [register] accepted, the sequence of lends and
    returns is one of a queue that starts with every buffer free, lends the oldest
    free one and gets each back once with exactly the bytes the kernel wrote; no
    buffer is both free and lent, none is lost, and giving a lent buffer back never
    panics. *)
Theorem buffer_ring_refines_pool page_size allocate register_ring n size r t s :
  register page_size allocate register_ring n size = Some (Ok r) ->
  ring_run (mkSystem r 0 []) t s ->
  exists p, pool_run (mkPool (all_ids n) []) t p /\ lent s = out p /\
    free p ++ (out p).*1 ≡ₚ all_ids n /\
    (forall id b, (id, b) ∈ lent s ->
      exists r', copy_and_release id (len b) (ring s) = Some (Ok b, r')).
Proof.
  intros Hreg Hrun. destruct (register_implements _ _ _ _ _ _ Hreg) as [H0 Hmask].
  destruct (run_implements _ _ _ _ Hrun H0) as (p & Hp & Himpl). exists p.
  split; [done|]. split; [apply Himpl|]. split.
  - rewrite (pool_run_ids _ _ _ Hp). simpl. by rewrite app_nil_r.
  - intros id b (l1 & l2 & E)%list_elem_of_split.
    destruct (give_back_implements _ _ _ _ _ _ Himpl E) as (r' & _ & Hr' & _). by exists r'.
Qed.

(** The same run, executed. *)
Definition lend (id : N) (b : bytes) (s : System) : option System :=
  '(id', h') ← kernel_take (head s) (ring s);
  if (id' =? id) && (len b <=? buffer_len (ring s))
  then Some (mkSystem (fill id b (ring s)) h' ((id, b) :: lent s)) else None.

Lemma lend_step id b s s' : lend id b s = Some s' -> ring_step s (Lend id b) s'.
Proof.
  unfold lend. destruct (kernel_take _ _) as [[id' h']|] eqn:E; [|done]. simpl.
  destruct (N.eqb_spec id' id) as [->|]; [|done]. simpl.
  destruct (N.leb_spec (len b) (buffer_len (ring s))); [|done]. intros [= <-]. by constructor.
Qed.

Lemma buffer_ring_refines_pool_witness :
  exists r s p, register (Ok 4096) (fun _ => true) (Ok tt) 2 4 = Some (Ok r) /\
    ring_run (mkSystem r 0 []) [Lend 0 (str "ab"); Lend 1 []] s /\
    free p ++ (out p).*1 ≡ₚ all_ids 2 /\ lent s = out p.
Proof.
  destruct (register (Ok 4096) (fun _ => true) (Ok tt) 2 4) as [[r|]|] eqn:E; [|done|done].
  destruct (lend 0 (str "ab") (mkSystem r 0 [])) as [s1|] eqn:E1.
  2: { vm_compute in E. injection E as <-. done. }
  destruct (lend 1 [] s1) as [s2|] eqn:E2.
  2: { vm_compute in E. injection E as <-. vm_compute in E1. injection E1 as <-. done. }
  assert (Hrun : ring_run (mkSystem r 0 []) [Lend 0 (str "ab"); Lend 1 []] s2).
  { apply (ring_run_snoc _ [Lend 0 (str "ab")] s1); [|by apply lend_step].
    apply (ring_run_snoc _ [] (mkSystem r 0 [])); [constructor|by apply lend_step]. }
  destruct (buffer_ring_refines_pool _ _ _ _ _ _ _ _ E Hrun) as (p & _ & Hout & Hperm & _).
  exists r, s2, p. by split.
Defined.

End BufferRing.
