(* ===== verification/UringConnection.v ===== *)
(** * Listeners and connections of the io_uring runtime
    ([run/slave/src/runtime/io_uring/listener.rs], [connection.rs], [capabilities.rs])

    The interface of the libraries and of the operating system, the entries the worker
    queues for the kernel, and the state of a listener, of a client connection and of
    its upstream half. A descriptor is its number. *)

From S2P Require Import Prelude RustStd Config Http StaticFiles Runtime Operation.

Import Uring.

Local Open Scope N_scope.

(** [ConnectionId]: a 32-bit slot and a 16-bit generation. *)
Record ConnectionId := mkConnectionId {
  slot : N;
  generation : N;
}.

(** ** Descriptors

    What a system call returns, and [last_os_error] after it. *)
Record SysCall := mkSysCall {
  ret : Z;
  last_os_error : ErrorKind;
}.

(** A descriptor, or the error of a negative result. *)
Definition owned_fd (call : SysCall) : io_result N :=
  if (ret call <? 0)%Z then Err (last_os_error call) else Ok (Z.to_N (ret call)).

Definition create_eventfd (eventfd : SysCall) : io_result N := owned_fd eventfd.

(** The interval of the timer, in nanoseconds. *)
Definition TIMER_INTERVAL : N := 50000000.

(** The timer's descriptor; and the one that is dropped when it cannot be armed. *)
Definition create_timerfd (timerfd_create : SysCall) (timerfd_settime : N -> N -> SysCall) :
    io_result N * list N :=
  match owned_fd timerfd_create with
  | Err e => (Err e, [])
  | Ok fd =>
    let armed := timerfd_settime fd TIMER_INTERVAL in
    if (ret armed <? 0)%Z then (Err (last_os_error armed), [fd]) else (Ok fd, [])
  end.

Inductive Domain := AF_INET | AF_INET6.

Definition socket_domain (address : SocketAddr) : Domain :=
  match address with SocketAddrV4 _ _ => AF_INET | SocketAddrV6 _ _ _ _ => AF_INET6 end.

(** ** The environment: everything but the completions of the ring

    The world is the state of everything outside the worker; [io_result]s are the
    documented results of the calls. *)
Class UringEnv := {
  World : Type;
  Ssl : Type;
  SslConfig : Type;
  Stream : Type;
  (** [Instant::now], in nanoseconds *)
  now : World -> N * World;
  (** the results of the [submit]s that one [push_entry] needs until there is room *)
  submits : World -> list (io_result unit) * World;
  submit : World -> io_result unit * World;
  (** [libc::socket], non-blocking *)
  sys_socket : Domain -> World -> SysCall * World;
  shutdown_is_requested : World -> bool * World;
  shutdown_request : World -> unit * World;
  (** the channel to the resolver threads and back *)
  resolver_resolve : ConnectionId -> bytes -> World -> io_result unit * World;
  resolver_drain : World -> list (ConnectionId * io_result (list SocketAddr)) * World;
  (** [rustls]; [read_tls] tells how much of the received bytes it took, [write_tls]
      what it appends to the buffer, [reader_read_to_end] the plaintext read so far *)
  ssl_new : SslConfig -> World -> io_result Ssl * World;
  ssl_config_handshake_timeout : SslConfig -> N;
  read_tls : Ssl -> bytes -> io_result N * Ssl;
  process_new_packets : Ssl -> io_result unit * Ssl;
  reader_read_to_end : Ssl -> (bytes * io_result unit) * Ssl;
  writer_write : Ssl -> bytes -> io_result N * Ssl;
  write_tls : Ssl -> io_result bytes * Ssl;
  wants_write : Ssl -> bool;
  is_handshaking : Ssl -> bool;
  send_close_notify : Ssl -> Ssl;
  (** [spawn_file_stream] and [StaticStream::try_next] *)
  spawn_stream : bytes * N * N -> World -> Stream * World;
  stream_try_next : Stream -> World -> io_result StaticChunk * World;
  (** [Slab::vacant_entry]: the key, given the occupied ones *)
  vacant_key : gset N -> World -> N * World;
}.

Definition create_upstream_socket {env : UringEnv} (address : SocketAddr) (w : World) :
    io_result N * World :=
  let '(call, w) := sys_socket (socket_domain address) w in (owned_fd call, w).

(** A vacant slab entry is vacant. *)
Class UringEnvOk (env : UringEnv) := {
  vacant_key_fresh keys w k w' : vacant_key keys w = (k, w') -> k ∉ keys;
}.

(** ** Submission entries

    What an entry asks of the kernel; a send holds the bytes its pointer and length
    designate when it is queued. *)
Inductive Op :=
| OpAccept (fd : N) (multishot : bool)
| OpSend (fd : N) (buffer : bytes)
| OpRecv (fd length : N)
| OpConnect (fd : N) (address : SocketAddr)
| OpRead (fd : N)
| OpAsyncCancel (target : N).

Record Entry := mkEntry {
  op : Op;
  user_data : N;
}.

#[export] Instance Op_eq_dec : EqDecision Op.
Proof. solve_decision. Defined.

#[export] Instance Entry_eq_dec : EqDecision Entry.
Proof. solve_decision. Defined.

(** [OperationId::accept], [read], [write], ... of a slot and a generation. *)
Definition operation (k : OperationKind) (id : ConnectionId) : N :=
  encode (mkOperationId (slot id) (generation id) k).

(** ** Capabilities *)

Record Capabilities := mkCapabilities {
  cap_accept : bool;
  cap_connect : bool;
  cap_recv : bool;
  cap_send : bool;
  cap_read : bool;
  cap_async_cancel : bool;
}.

(** The operations the probe asks for. *)
Inductive Opcode := AcceptCode | ConnectCode | RecvCode | SendCode | ReadCode | AsyncCancelCode.

(** [Capabilities::probe]: what [register_probe] answers, and what it says of each
    operation. *)
Definition probe_capabilities (register_probe : io_result (Opcode -> bool)) :
    io_result Capabilities :=
  is_supported ← register_probe;
  Ok {| cap_accept := is_supported AcceptCode;
        cap_connect := is_supported ConnectCode;
        cap_recv := is_supported RecvCode;
        cap_send := is_supported SendCode;
        cap_read := is_supported ReadCode;
        cap_async_cancel := is_supported AsyncCancelCode |}.

(** [validate_required]; the message names the missing operations. *)
Definition missing_operations (c : Capabilities) : list bytes :=
  omap (fun '(name, supported) => if supported : bool then None else Some name)
    [(str "accept", cap_accept c); (str "connect", cap_connect c);
     (str "recv", cap_recv c); (str "send", cap_send c); (str "read", cap_read c);
     (str "async_cancel", cap_async_cancel c)].

Definition validate_required (c : Capabilities) : io_result unit :=
  if bool_decide (missing_operations c = []) then Ok tt else Err Unsupported.

Section Connections.

Context {env : UringEnv}.

(** ** Listeners *)

Inductive AcceptMode := SingleShot | Multishot.

#[export] Instance AcceptMode_eq_dec : EqDecision AcceptMode.
Proof. solve_decision. Defined.

Record UringListener := mkListener {
  l_socket : N;
  l_default_server : N;
  l_server_indices : list N;
  l_ssl : option SslConfig;
  l_generation : N;
  accept_mode : AcceptMode;
  accept_pending : bool;
}.

Definition new_listener (socket default_server : N) (server_indices : list N)
    (ssl : option SslConfig) (mode : AcceptMode) : UringListener :=
  mkListener socket default_server server_indices ssl 1 mode false.

Definition accept_operation (listener_index : N) (l : UringListener) : io_result N :=
  if 2 ^ 32 <=? listener_index then Err InvalidInput
  else Ok (encode (mkOperationId listener_index (l_generation l) Accept)).

Definition accept_entry (listener_index : N) (l : UringListener) : io_result Entry :=
  operation ← accept_operation listener_index l;
  Ok (mkEntry (OpAccept (l_socket l) (bool_decide (accept_mode l = Multishot))) operation).

Definition mark_accept_submitted (l : UringListener) : UringListener :=
  mkListener (l_socket l) (l_default_server l) (l_server_indices l) (l_ssl l)
    (l_generation l) (accept_mode l) true.

Definition record_completion (has_more : bool) (l : UringListener) : UringListener :=
  mkListener (l_socket l) (l_default_server l) (l_server_indices l) (l_ssl l)
    (l_generation l) (accept_mode l) (bool_decide (accept_mode l = Multishot) &&
    has_more).

Definition fall_back_to_single_shot (l : UringListener) : UringListener :=
  mkListener (l_socket l) (l_default_server l) (l_server_indices l) (l_ssl l)
    (l_generation l) SingleShot false.

(** ** The upstream half of a proxied connection *)

Inductive ProxyPhase := Resolving | Connecting | WritingRequest | ReadingResponse.

#[export] Instance ProxyPhase_eq_dec : EqDecision ProxyPhase.
Proof. solve_decision. Defined.

Definition timeout_message (phase : ProxyPhase) : bytes :=
  match phase with
  | Resolving => str "upstream DNS resolution timed out"
  | Connecting => str "upstream connect timed out"
  | WritingRequest => str "upstream request write timed out"
  | ReadingResponse => str "upstream response timed out"
  end.

Record UringProxy := mkProxy {
  upstream : option N;
  address : option SocketAddr;
  addresses : list SocketAddr;
  proxy_buffer : bytes;
  request_offset : N;
  response_started : bool;
  phase : ProxyPhase;
  progress_at : N;
  operation_pending : bool;
  timed_out : bool;
}.

(** [UringProxy::resolving]. *)
Definition new_proxy (request_buffer : bytes) (now : N) : UringProxy :=
  mkProxy None None [] request_buffer 0 false Resolving now false false.

Definition transition (next : ProxyPhase) (now : N) (p : UringProxy) : UringProxy :=
  mkProxy (upstream p) (address p) (addresses p) (proxy_buffer p) (request_offset p)
    (response_started p) next now (operation_pending p) false.

Definition record_progress (now : N) (p : UringProxy) : UringProxy :=
  mkProxy (upstream p) (address p) (addresses p) (proxy_buffer p) (request_offset p)
    (response_started p) (phase p) now (operation_pending p) (timed_out p).

(** [proxy.addresses = addresses]. *)
Definition set_addresses (l : list SocketAddr) (p : UringProxy) : UringProxy :=
  mkProxy (upstream p) (address p) l (proxy_buffer p) (request_offset p)
    (response_started p) (phase p) (progress_at p) (operation_pending p) (timed_out p).

(** [proxy.upstream = Some(socket); proxy.address = Some(address)]. *)
Definition set_upstream (socket : N) (a : SocketAddr) (p : UringProxy) : UringProxy :=
  mkProxy (Some socket) (Some a) (addresses p) (proxy_buffer p) (request_offset p)
    (response_started p) (phase p) (progress_at p) (operation_pending p) (timed_out p).

Definition set_operation_pending (b : bool) (p : UringProxy) : UringProxy :=
  mkProxy (upstream p) (address p) (addresses p) (proxy_buffer p) (request_offset p)
    (response_started p) (phase p) (progress_at p) b (timed_out p).

Definition set_timed_out (p : UringProxy) : UringProxy :=
  mkProxy (upstream p) (address p) (addresses p) (proxy_buffer p) (request_offset p)
    (response_started p) (phase p) (progress_at p) (operation_pending p) true.

Definition set_response_started (p : UringProxy) : UringProxy :=
  mkProxy (upstream p) (address p) (addresses p) (proxy_buffer p) (request_offset p)
    true (phase p) (progress_at p) (operation_pending p) (timed_out p).

(** [proxy.request_offset += written]. *)
Definition add_request_offset (written : N) (p : UringProxy) : UringProxy :=
  mkProxy (upstream p) (address p) (addresses p) (proxy_buffer p) (request_offset p +
    written) (response_started p) (phase p) (progress_at p) (operation_pending p)
    (timed_out p).

(** ** Client connections *)

Record UringSslSession := mkSslSession {
  ssl_connection : Ssl;
  started_at : N;
  handshake_timeout : N;
  closing : bool;
}.

Definition set_ssl_connection (s : Ssl) (session : UringSslSession) : UringSslSession :=
  mkSslSession s (started_at session) (handshake_timeout session) (closing session).

Record PendingRequest := mkPendingRequest {
  pending_head : RequestHead;
  body_start : N;
  body_end : N;
}.

Record CompletedRequest := mkCompletedRequest {
  completed_head : RequestHead;
  completed_body : bytes;
}.

Record UringConnection := mkConnection {
  socket : N;
  conn_generation : N;
  listener_index : N;
  read_pending : bool;
  request_buffer : bytes;
  pending_request : option PendingRequest;
  request : option CompletedRequest;
  write_buffer : bytes;
  write_offset : N;
  write_pending : bool;
  ssl_write_buffer : bytes;
  ssl_write_offset : N;
  proxy : option UringProxy;
  static_stream : option Stream;
  ssl : option UringSslSession;
}.

(** [UringConnection::new], the TLS session given. *)
Definition new_connection (socket generation listener_index : N)
    (ssl : option UringSslSession) : UringConnection :=
  mkConnection socket generation listener_index false [] None None [] 0 false [] 0 None
    None ssl.

Definition connection_id (slot : N) (c : UringConnection) : ConnectionId :=
  mkConnectionId slot (conn_generation c).

Definition matches_generation (generation : N) (c : UringConnection) : bool :=
  conn_generation c =? generation.

Definition mark_read_submitted (c : UringConnection) : UringConnection :=
  mkConnection (socket c) (conn_generation c) (listener_index c) true (request_buffer c)
    (pending_request c) (request c) (write_buffer c) (write_offset c) (write_pending c)
    (ssl_write_buffer c) (ssl_write_offset c) (proxy c) (static_stream c) (ssl c).

Definition mark_read_completed (c : UringConnection) : UringConnection :=
  mkConnection (socket c) (conn_generation c) (listener_index c) false (request_buffer
    c) (pending_request c) (request c) (write_buffer c) (write_offset c) (write_pending
    c) (ssl_write_buffer c) (ssl_write_offset c) (proxy c) (static_stream c) (ssl c).

Definition queue_response (response : bytes) (c : UringConnection) : UringConnection :=
  mkConnection (socket c) (conn_generation c) (listener_index c) (read_pending c)
    (request_buffer c) (pending_request c) (request c) response 0 (write_pending c)
    (ssl_write_buffer c) (ssl_write_offset c) (proxy c) (static_stream c) (ssl c).

Definition mark_write_submitted (c : UringConnection) : UringConnection :=
  mkConnection (socket c) (conn_generation c) (listener_index c) (read_pending c)
    (request_buffer c) (pending_request c) (request c) (write_buffer c) (write_offset c)
    true (ssl_write_buffer c) (ssl_write_offset c) (proxy c) (static_stream c) (ssl c).

Definition mark_write_completed (c : UringConnection) : UringConnection :=
  mkConnection (socket c) (conn_generation c) (listener_index c) (read_pending c)
    (request_buffer c) (pending_request c) (request c) (write_buffer c) (write_offset c)
    false (ssl_write_buffer c) (ssl_write_offset c) (proxy c) (static_stream c) (ssl c).

Definition set_request_buffer (b : bytes) (c : UringConnection) : UringConnection :=
  mkConnection (socket c) (conn_generation c) (listener_index c) (read_pending c) b
    (pending_request c) (request c) (write_buffer c) (write_offset c) (write_pending c)
    (ssl_write_buffer c) (ssl_write_offset c) (proxy c) (static_stream c) (ssl c).

Definition set_pending_request (r : option PendingRequest) (c : UringConnection) :
    UringConnection :=
  mkConnection (socket c) (conn_generation c) (listener_index c) (read_pending c)
    (request_buffer c) r (request c) (write_buffer c) (write_offset c) (write_pending c)
    (ssl_write_buffer c) (ssl_write_offset c) (proxy c) (static_stream c) (ssl c).

(** [pending_request.take(); request = Some(...)]. *)
Definition set_request (r : CompletedRequest) (c : UringConnection) : UringConnection :=
  mkConnection (socket c) (conn_generation c) (listener_index c) (read_pending c)
    (request_buffer c) None (Some r) (write_buffer c) (write_offset c) (write_pending c)
    (ssl_write_buffer c) (ssl_write_offset c) (proxy c) (static_stream c) (ssl c).

Definition add_write_offset (written : N) (c : UringConnection) : UringConnection :=
  mkConnection (socket c) (conn_generation c) (listener_index c) (read_pending c)
    (request_buffer c) (pending_request c) (request c) (write_buffer c) (write_offset c
    + written) (write_pending c) (ssl_write_buffer c) (ssl_write_offset c) (proxy c)
    (static_stream c) (ssl c).

(** [ssl_write_buffer] and [ssl_write_offset]. *)
Definition set_ssl_output (b : bytes) (offset : N) (c : UringConnection) :
    UringConnection :=
  mkConnection (socket c) (conn_generation c) (listener_index c) (read_pending c)
    (request_buffer c) (pending_request c) (request c) (write_buffer c) (write_offset c)
    (write_pending c) b offset (proxy c) (static_stream c) (ssl c).

Definition set_proxy (p : option UringProxy) (c : UringConnection) : UringConnection :=
  mkConnection (socket c) (conn_generation c) (listener_index c) (read_pending c)
    (request_buffer c) (pending_request c) (request c) (write_buffer c) (write_offset c)
    (write_pending c) (ssl_write_buffer c) (ssl_write_offset c) p (static_stream c) (ssl
    c).

Definition set_static_stream (s : option Stream) (c : UringConnection) : UringConnection :=
  mkConnection (socket c) (conn_generation c) (listener_index c) (read_pending c)
    (request_buffer c) (pending_request c) (request c) (write_buffer c) (write_offset c)
    (write_pending c) (ssl_write_buffer c) (ssl_write_offset c) (proxy c) s (ssl c).

Definition set_ssl (s : option UringSslSession) (c : UringConnection) : UringConnection :=
  mkConnection (socket c) (conn_generation c) (listener_index c) (read_pending c)
    (request_buffer c) (pending_request c) (request c) (write_buffer c) (write_offset c)
    (write_pending c) (ssl_write_buffer c) (ssl_write_offset c) (proxy c) (static_stream
    c) s.

End Connections.
