(* ===== verification/Uring.v ===== *)
(** * The io_uring worker ([run/slave/src/runtime/io_uring/worker.rs])

    The completion-driven event loop: every handler of [IoUringWorker], over the
    worker's state and the entries it has queued for the kernel. A handler returns,
    fails with an [io::Error] that [?] propagates out of [run], or panics. *)

From stdpp Require Import sorting.
From S2P Require Import Prelude RustStd Config Http Router LoadBalancer Proxy StaticFiles Runtime Handler Operation BufferRing UringConnection.

Import Uring.

Local Open Scope N_scope.

(** ** [libc] error numbers (Linux) *)
Definition EINTR : Z := 4.
Definition EAGAIN : Z := 11.
Definition EINVAL : Z := 22.
Definition EOPNOTSUPP : Z := 95.
Definition ENOBUFS : Z := 105.
Definition ECANCELED : Z := 125.

(** The completion of an entry: [cqe_buffer] is the provided buffer the kernel
    selected, with the bytes it wrote there; the worker sees its id only. *)
Record Cqe := mkCqe {
  cqe_user_data : N;
  cqe_result : Z;
  cqe_more : bool;
  cqe_buffer : option (N * bytes);
}.

Definition multishot_is_unsupported (result : Z) : bool :=
  (result <? 0)%Z && ((- result =? EINVAL) || (- result =? EOPNOTSUPP))%Z.

(** [matches!(error.raw_os_error(), Some(EAGAIN | EINTR))], and with [ENOBUFS]. *)
Definition is_retryable (result : Z) : bool := ((- result =? EAGAIN) || (- result =? EINTR))%Z.

Definition is_receive_retryable (result : Z) : bool :=
  is_retryable result || (- result =? ENOBUFS)%Z.

Section Worker.

Context {env : UringEnv} {fs : Filesystem} {mime : MimeGuess}.

(** Everything outside the worker: the world, the entries queued and not completed,
    and the kernel's position in the provided-buffer ring. *)
Record Kernel := mkKernel {
  outside : World;
  in_flight : list Entry;
  buffer_head : N;
}.

Record IoUringWorker := mkWorker {
  buffer_ring : BufferRing.ProvidedBufferRing;
  listeners : list UringListener;
  servers : list Server;
  connections : gmap N UringConnection;
  generations : list N;
  buffer_size : N;
  limits : WorkerLimits;
  proxy_limits : ProxyLimits;
  dns_limits : DnsLimits;
  shutdown_eventfd : N;
  shutting_down : bool;
  shutdown_started : option N;
  cancellation_started : bool;
  pending_cancellations : N;
  dns_eventfd : N;
  timerfd : N;
  metrics : WorkerMetrics;
  balancer : UpstreamBalancer;
}.

(** *** Field updates *)

Definition set_buffer_ring (r : BufferRing.ProvidedBufferRing) (w : IoUringWorker) :
    IoUringWorker :=
  mkWorker r (listeners w) (servers w) (connections w) (generations w) (buffer_size w)
    (limits w) (proxy_limits w) (dns_limits w) (shutdown_eventfd w) (shutting_down w)
    (shutdown_started w) (cancellation_started w) (pending_cancellations w) (dns_eventfd
    w) (timerfd w) (metrics w) (balancer w).

Definition set_listeners (l : list UringListener) (w : IoUringWorker) : IoUringWorker :=
  mkWorker (buffer_ring w) l (servers w) (connections w) (generations w) (buffer_size w)
    (limits w) (proxy_limits w) (dns_limits w) (shutdown_eventfd w) (shutting_down w)
    (shutdown_started w) (cancellation_started w) (pending_cancellations w) (dns_eventfd
    w) (timerfd w) (metrics w) (balancer w).

Definition set_connections (m : gmap N UringConnection) (w : IoUringWorker) :
    IoUringWorker :=
  mkWorker (buffer_ring w) (listeners w) (servers w) m (generations w) (buffer_size w)
    (limits w) (proxy_limits w) (dns_limits w) (shutdown_eventfd w) (shutting_down w)
    (shutdown_started w) (cancellation_started w) (pending_cancellations w) (dns_eventfd
    w) (timerfd w) (metrics w) (balancer w).

Definition set_generations (g : list N) (w : IoUringWorker) : IoUringWorker :=
  mkWorker (buffer_ring w) (listeners w) (servers w) (connections w) g (buffer_size w)
    (limits w) (proxy_limits w) (dns_limits w) (shutdown_eventfd w) (shutting_down w)
    (shutdown_started w) (cancellation_started w) (pending_cancellations w) (dns_eventfd
    w) (timerfd w) (metrics w) (balancer w).

(** [shutting_down = true; shutdown_started = Some(now); cancellation_started = true]. *)
Definition set_shutting_down (now : N) (w : IoUringWorker) : IoUringWorker :=
  mkWorker (buffer_ring w) (listeners w) (servers w) (connections w) (generations w)
    (buffer_size w) (limits w) (proxy_limits w) (dns_limits w) (shutdown_eventfd w) true
    (Some now) true (pending_cancellations w) (dns_eventfd w) (timerfd w) (metrics w)
    (balancer w).

Definition set_pending_cancellations (n : N) (w : IoUringWorker) : IoUringWorker :=
  mkWorker (buffer_ring w) (listeners w) (servers w) (connections w) (generations w)
    (buffer_size w) (limits w) (proxy_limits w) (dns_limits w) (shutdown_eventfd w)
    (shutting_down w) (shutdown_started w) (cancellation_started w) n (dns_eventfd w)
    (timerfd w) (metrics w) (balancer w).

Definition update_metrics (f : WorkerMetrics -> WorkerMetrics) (w : IoUringWorker) :
    IoUringWorker :=
  mkWorker (buffer_ring w) (listeners w) (servers w) (connections w) (generations w)
    (buffer_size w) (limits w) (proxy_limits w) (dns_limits w) (shutdown_eventfd w)
    (shutting_down w) (shutdown_started w) (cancellation_started w)
    (pending_cancellations w) (dns_eventfd w) (timerfd w) (f (metrics w)) (balancer w).

Definition set_balancer (b : UpstreamBalancer) (w : IoUringWorker) : IoUringWorker :=
  mkWorker (buffer_ring w) (listeners w) (servers w) (connections w) (generations w)
    (buffer_size w) (limits w) (proxy_limits w) (dns_limits w) (shutdown_eventfd w)
    (shutting_down w) (shutdown_started w) (cancellation_started w)
    (pending_cancellations w) (dns_eventfd w) (timerfd w) (metrics w) b.

(** ** State, errors and panics: the handlers of [Handler.v] over this worker *)

Notation M := (Handler IoUringWorker Kernel).

(** A call outside the worker. *)
Definition call {A} (f : World -> A * World) : M A :=
  sys (fun k => let '(a, w) := f (outside k) in (a, mkKernel w (in_flight k) (buffer_head k))).

Definition clock : M N := call now.

Definition metric (f : WorkerMetrics -> WorkerMetrics) : M unit := modify (update_metrics f).

(** [self.connections[slot]]: a panic when the slot is vacant. *)
Definition index (slot : N) : M UringConnection :=
  fun s =>
    match connections (worker s) !! slot with
    | Some c => Ret c s
    | None => Panicked
    end.

Definition update (slot : N) (f : UringConnection -> UringConnection) : M unit :=
  c ← index slot;
  modify (fun w => set_connections (<[slot := f c]> (connections w)) w).

(** [self.connections.remove(slot)]: a panic when the slot is vacant. *)
Definition remove (slot : N) : M unit :=
  _ ← index slot;
  modify (fun w => set_connections (delete slot (connections w)) w).

(** [self.connections.get(slot)] and the check of the generation. *)
Definition current_in (w : IoUringWorker) (id : ConnectionId) : option UringConnection :=
  c ← connections w !! slot id;
  if matches_generation (generation id) c then Some c else None.

Definition current (id : ConnectionId) : M (option UringConnection) :=
  gets (fun w => current_in w id).

(** [self.connections[slot].proxy.as_mut().unwrap()]. *)
Definition index_proxy (slot : N) : M UringProxy :=
  c ← index slot;
  unwrap (proxy c).

Definition update_proxy (slot : N) (f : UringProxy -> UringProxy) : M unit :=
  p ← index_proxy slot;
  update slot (set_proxy (Some (f p))).

(** A slice [&buffer[offset..]]. *)
Definition slice_from (buffer : bytes) (offset : N) : M bytes :=
  if len buffer <? offset then panic else mret (drop (N.to_nat offset) buffer).

(** The slice [&buffer[start..end]]. *)
Definition slice_range (buffer : bytes) (start stop : N) : M bytes :=
  if (stop <? start) || (len buffer <? stop) then panic
  else mret (take (N.to_nat (stop - start)) (drop (N.to_nat start) buffer)).

(** [u32::try_from(n)] with an error, and with [unwrap]. *)
Definition try_u32 (n : N) : M unit := if 2 ^ 32 <=? n then fail InvalidInput else skip.

Definition unwrap_u32 (n : N) : M unit := if 2 ^ 32 <=? n then panic else skip.

(** [push_entry]: [submit] until the queue has room. *)
Definition push_entry (e : Entry) : M unit :=
  results ← call submits;
  for_all lift results;;
  sys (fun k => (tt, mkKernel (outside k) (in_flight k ++ [e]) (buffer_head k))).

(** [self.ring.submit()?]. *)
Definition ring_submit : M unit := r ← call submit; lift r.

(** [buffer_ring.copy_and_release]; its own [None] is a panic. *)
Definition copy_and_release (id length : N) : M (io_result bytes) :=
  r ← gets buffer_ring;
  '(b, r) ← unwrap (BufferRing.copy_and_release id length r);
  modify (set_buffer_ring r);;
  mret b.

(** The start of both receive handlers: the bytes out of the selected buffer. *)
Definition take_received (result : Z) (buffer_id : option N) : M (option bytes) :=
  if (0 <? result)%Z then
    match buffer_id with
    | None => fail InvalidData
    | Some id =>
      r ← copy_and_release id (Z.to_N result);
      b ← lift r;
      mret (Some b)
    end
  else
    (match buffer_id with
     | Some id => r ← copy_and_release id 0; _ ← lift r; skip
     | None => skip
     end);;
    mret None.

(** ** Accepting *)

Definition update_listener (i : N) (f : UringListener -> UringListener) : M unit :=
  ls ← gets listeners;
  match ls !! N.to_nat i with
  | Some l => modify (fun w => set_listeners (<[N.to_nat i := f l]> (listeners w)) w)
  | None => panic
  end.

Definition submit_accept (i : N) : M unit :=
  ls ← gets listeners;
  match ls !! N.to_nat i with
  | None => fail InvalidInput
  | Some l =>
    if accept_pending l then skip
    else
      entry ← lift (accept_entry i l);
      push_entry entry;;
      update_listener i mark_accept_submitted
  end.

(** ** Sending to and receiving from the client *)

Definition write_entry (id : ConnectionId) (fd : N) (remaining : bytes) : Entry :=
  mkEntry (OpSend fd remaining) (operation Write id).

(** The TLS half of [submit_send]: refill the output when it has been sent. *)
Definition ssl_remaining (id : ConnectionId) (c : UringConnection) (session : UringSslSession) :
    M bytes :=
  (if ssl_write_offset c =? len (ssl_write_buffer c) then
     update (slot id) (set_ssl_output [] 0);;
     (if write_offset c <? len (write_buffer c) then
        rest ← slice_from (write_buffer c) (write_offset c);
        let '(r, s) := writer_write (ssl_connection session) rest in
        update (slot id) (set_ssl (Some (set_ssl_connection s session)));;
        written ← lift r;
        update (slot id) (add_write_offset written)
      else skip);;
     c ← index (slot id);
     session ← unwrap (ssl c);
     if wants_write (ssl_connection session) then
       let '(r, s) := write_tls (ssl_connection session) in
       update (slot id) (set_ssl (Some (set_ssl_connection s session)));;
       output ← lift r;
       update (slot id) (set_ssl_output output 0)
     else skip
   else skip);;
  c ← index (slot id);
  slice_from (ssl_write_buffer c) (ssl_write_offset c).

Definition submit_send (id : ConnectionId) : M unit :=
  connection ← gets (fun w => connections w !! slot id);
  match connection with
  | None => fail InvalidInput
  | Some c =>
    if negb (matches_generation (generation id) c) || write_pending c then skip
    else
      remaining ←
        (match ssl c with
         | Some session => ssl_remaining id c session
         | None => slice_from (write_buffer c) (write_offset c)
         end);
      if bool_decide (remaining = []) then skip
      else
        try_u32 (len remaining);;
        push_entry (write_entry id (socket c) remaining);;
        update (slot id) mark_write_submitted
  end.

Definition recv_entry (id : ConnectionId) (fd length : N) : Entry :=
  mkEntry (OpRecv fd length) (operation Read id).

Definition submit_recv (id : ConnectionId) : M unit :=
  connection ← gets (fun w => connections w !! slot id);
  match connection with
  | None => fail InvalidInput
  | Some c =>
    if negb (matches_generation (generation id) c) || read_pending c then skip
    else
      size ← gets buffer_size;
      unwrap_u32 size;;
      push_entry (recv_entry id (socket c) size);;
      update (slot id) mark_read_submitted
  end.

(** [generations.resize(slot + 1, 0)] when it is too short. *)
Definition resize_generations (g : list N) (slot : N) : list N :=
  if len g <=? slot then g ++ replicate (N.to_nat slot + 1 - length g) 0 else g.

(** The TLS session of [UringConnection::new]. *)
Definition new_session (config : option SslConfig) : M (option UringSslSession) :=
  match config with
  | None => mret None
  | Some config =>
    s ← call (ssl_new config);
    match s with
    | Err _ => fail InvalidInput
    | Ok s =>
      started ← clock;
      mret (Some (mkSslSession s started (ssl_config_handshake_timeout config) false))
    end
  end.

Definition insert_connection (socket listener_index : N) : M ConnectionId :=
  count ← gets (fun w => N.of_nat (size (connections w)));
  max ← gets (fun w => max_connections (limits w));
  if max <=? count then fail WouldBlock
  else
    keys ← gets (fun w => dom (connections w));
    slot ← call (vacant_key keys);
    if 2 ^ 32 <=? slot then fail InvalidInput
    else
      g ← gets (fun w => resize_generations (generations w) slot);
      previous ← unwrap (g !! N.to_nat slot);
      let generation := next_generation previous in
      modify (set_generations (<[N.to_nat slot := generation]> g));;
      ls ← gets listeners;
      listener ← unwrap (ls !! N.to_nat listener_index);
      session ← new_session (l_ssl listener);
      modify (fun w =>
        set_connections (<[slot := new_connection socket generation listener_index session]>
                           (connections w)) w);;
      mret (mkConnectionId slot generation).

Definition handle_accept_completion (o : OperationId) (result : Z) (more : bool) : M unit :=
  let accepted := if (0 <=? result)%Z then Some (Z.to_N result) else None in
  let i := op_slot o in
  ls ← gets listeners;
  match ls !! N.to_nat i with
  | None => skip
  | Some l =>
    if negb (l_generation l =? op_generation o) then skip
    else
      update_listener i (record_completion more);;
      (if bool_decide (accept_mode l = Multishot) && multishot_is_unsupported result
       then update_listener i fall_back_to_single_shot
       else skip);;
      (match accepted with
       | Some fd =>
         stopping ← gets shutting_down;
         if stopping : bool then skip
         else
           metric Runtime.accepted;;
           r ← attempt (insert_connection fd i);
           match r with
           | Ok id => submit_recv id
           | Err _ => skip
           end
       | None =>
         stopping ← gets shutting_down;
         if negb (stopping && (- result =? ECANCELED)%Z) && negb (multishot_is_unsupported result)
         then metric Runtime.error
         else skip
       end);;
      requested ← call shutdown_is_requested;
      if requested : bool then skip
      else
        ls ← gets listeners;
        l ← unwrap (ls !! N.to_nat i);
        if accept_pending l then skip else submit_accept i
  end.

(** ** Answering *)

(** [self.connections[slot].queue_response(...); self.submit_send(id)]. *)
Definition send_response (id : ConnectionId) (response : bytes) : M unit :=
  update (slot id) (queue_response response);;
  submit_send id.

Definition advance_static_stream (id : ConnectionId) : M unit :=
  c ← index (slot id);
  stream ← unwrap (static_stream c);
  next ← call (stream_try_next stream);
  match next with
  | Ok (Data b) => send_response id b
  | Ok Pending => skip
  | Ok Finished => metric Runtime.response;; remove (slot id)
  | Err _ => metric Runtime.error;; remove (slot id)
  end.

Definition queue_static_response (id : ConnectionId) (head : bytes) (stream : option Stream) :
    M unit :=
  update (slot id) (set_static_stream stream);;
  send_response id head.

Definition queue_http_error (id : ConnectionId) (status : N) (message : bytes) : M unit :=
  metric Runtime.error;;
  c ← current id;
  match c with
  | None => skip
  | Some _ =>
    update (slot id) (set_pending_request None);;
    send_response id (response_bytes status message)
  end.

Definition queue_proxy_error (id : ConnectionId) (status : N) (message : bytes) : M unit :=
  metric Runtime.error;;
  c ← current id;
  match c with
  | None => skip
  | Some _ =>
    update (slot id) (set_proxy None);;
    send_response id (response_bytes status message)
  end.

Definition fail_proxy (id : ConnectionId) (status : N) (message : bytes) : M unit :=
  started ← gets (fun w =>
    match connections w !! slot id with
    | Some c => match proxy c with Some p => response_started p | None => false end
    | None => false
    end);
  if started : bool then remove (slot id)
  else queue_proxy_error id status message.

(** ** The upstream *)

Definition connect_entry (id : ConnectionId) (fd : N) (a : SocketAddr) : Entry :=
  mkEntry (OpConnect fd a) (operation ProxyConnect id).

Definition proxy_write_entry (id : ConnectionId) (fd : N) (remaining : bytes) : Entry :=
  mkEntry (OpSend fd remaining) (operation ProxyWrite id).

Definition proxy_read_entry (id : ConnectionId) (fd length : N) : Entry :=
  mkEntry (OpRecv fd length) (operation ProxyRead id).

Definition submit_proxy_connect (id : ConnectionId) : M unit :=
  p ← index_proxy (slot id);
  socket ← unwrap (upstream p);
  a ← unwrap (address p);
  push_entry (connect_entry id socket a);;
  update_proxy (slot id) (set_operation_pending true).

Definition submit_proxy_write (id : ConnectionId) : M unit :=
  p ← index_proxy (slot id);
  remaining ← slice_from (proxy_buffer p) (request_offset p);
  try_u32 (len remaining);;
  socket ← unwrap (upstream p);
  push_entry (proxy_write_entry id socket remaining);;
  update_proxy (slot id) (set_operation_pending true).

Definition submit_proxy_read (id : ConnectionId) : M unit :=
  p ← index_proxy (slot id);
  size ← gets buffer_size;
  unwrap_u32 size;;
  socket ← unwrap (upstream p);
  push_entry (proxy_read_entry id socket size);;
  update_proxy (slot id) (set_operation_pending true).

(** The loop of [try_next_proxy_address] over the addresses left. *)
Fixpoint try_addresses (id : ConnectionId) (l : list SocketAddr) : M unit :=
  match l with
  | [] => queue_proxy_error id 502 (str "upstream connection failed")
  | a :: l =>
    update_proxy (slot id) (set_addresses l);;
    socket ← call (create_upstream_socket a);
    match socket with
    | Err _ => try_addresses id l
    | Ok socket =>
      update_proxy (slot id) (set_upstream socket a);;
      t ← clock;
      update_proxy (slot id) (record_progress t);;
      submit_proxy_connect id
    end
  end.

Definition try_next_proxy_address (id : ConnectionId) : M unit :=
  c ← index (slot id);
  try_addresses id (match proxy c with Some p => addresses p | None => [] end).

Definition finish_resolution (result : ConnectionId * io_result (list SocketAddr)) : M unit :=
  let '(id, found) := result in
  c ← current id;
  match c with
  | None => skip
  | Some c =>
    if decide (phase <$> proxy c = Some Resolving) then
      match found with
      | Ok [] => queue_proxy_error id 502 (str "upstream has no address")
      | Ok l =>
        update_proxy (slot id) (set_addresses l);;
        t ← clock;
        update_proxy (slot id) (transition Connecting t);;
        try_next_proxy_address id
      | Err _ => queue_proxy_error id 502 (str "upstream DNS resolution failed")
      end
    else skip
  end.

Definition submit_dns_read : M unit :=
  fd ← gets dns_eventfd;
  push_entry (mkEntry (OpRead fd) DNS_USER_DATA).

Definition process_dns_results : M unit :=
  results ← call resolver_drain;
  for_all finish_resolution results;;
  stopping ← gets shutting_down;
  if stopping : bool then skip else submit_dns_read.

Definition start_proxy (id : ConnectionId) (upstream_url : bytes) (request : RequestHead)
    (body : bytes) : M unit :=
  match Proxy.parse upstream_url with
  | Err _ => queue_proxy_error id 502 (str "upstream configuration failed")
  | Ok upstream =>
    let buffer := request_bytes upstream request body in
    max ← gets (fun w => max_read_buffer_size (limits w));
    if max <? len buffer then queue_proxy_error id 502 (str "upstream request is too large")
    else
      connection ← gets (fun w => connections w !! slot id);
      match connection with
      | None => skip
      | Some _ =>
        t ← clock;
        update (slot id) (set_proxy (Some (new_proxy buffer t)));;
        r ← call (resolver_resolve id (connect_address upstream));
        match r with
        | Ok _ => skip
        | Err _ => queue_proxy_error id 502 (str "upstream DNS resolution failed")
        end
      end
  end.

(** [current_proxy_mut]. *)
Definition current_proxy (id : ConnectionId) : M (option UringProxy) :=
  gets (fun w => c ← current_in w id; proxy c).

Definition handle_proxy_connect (o : OperationId) (result : Z) : M unit :=
  let id := mkConnectionId (op_slot o) (op_generation o) in
  p ← current_proxy id;
  match p with
  | None => skip
  | Some p =>
    update_proxy (slot id) (set_operation_pending false);;
    if timed_out p then fail_proxy id 504 (str "upstream connect timed out")
    else if (result <? 0)%Z then try_next_proxy_address id
    else
      t ← clock;
      update_proxy (slot id) (transition WritingRequest t);;
      submit_proxy_write id
  end.

Definition handle_proxy_write (o : OperationId) (result : Z) : M unit :=
  let id := mkConnectionId (op_slot o) (op_generation o) in
  p ← current_proxy id;
  match p with
  | None => skip
  | Some p =>
    update_proxy (slot id) (set_operation_pending false);;
    if timed_out p then fail_proxy id 504 (str "upstream request write timed out")
    else if (result <? 0)%Z then
      if is_retryable result then submit_proxy_write id
      else fail_proxy id 502 (str "upstream request write failed")
    else if (result =? 0)%Z then fail_proxy id 502 (str "upstream request write failed")
    else
      let written := Z.to_N result in
      metric (Runtime.wrote_bytes written);;
      if len (proxy_buffer p) - request_offset p <? written then
        fail_proxy id 502 (str "invalid upstream write completion")
      else
        update_proxy (slot id) (add_request_offset written);;
        t ← clock;
        update_proxy (slot id) (record_progress t);;
        if request_offset p + written =? len (proxy_buffer p) then
          t ← clock;
          update_proxy (slot id) (transition ReadingResponse t);;
          submit_proxy_read id
        else submit_proxy_write id
  end.

Definition handle_proxy_read (o : OperationId) (result : Z) (buffer_id : option N) : M unit :=
  received ← take_received result buffer_id;
  let id := mkConnectionId (op_slot o) (op_generation o) in
  max ← gets (fun w => max_write_buffer_size (limits w));
  p ← current_proxy id;
  match p with
  | None => skip
  | Some p =>
    update_proxy (slot id) (set_operation_pending false);;
    if timed_out p then fail_proxy id 504 (str "upstream response timed out")
    else if (result <? 0)%Z then
      if is_receive_retryable result then submit_proxy_read id
      else fail_proxy id 502 (str "upstream response failed")
    else if (result =? 0)%Z then metric Runtime.response;; remove (slot id)
    else
      b ← unwrap received;
      metric (Runtime.read_bytes (len b));;
      if max <? len b then fail_proxy id 502 (str "upstream response chunk is too large")
      else
        update_proxy (slot id) set_response_started;;
        t ← clock;
        update_proxy (slot id) (record_progress t);;
        send_response id b
  end.

(** ** Completions of a send *)

(** The bytes still to send: of the TLS output, or of the response. *)
Definition unsent (c : UringConnection) : N :=
  match ssl c with
  | Some _ => len (ssl_write_buffer c) - ssl_write_offset c
  | None => len (write_buffer c) - write_offset c
  end.

(** [ssl_write_offset += written] or [write_offset += written]. *)
Definition sent (written : N) (c : UringConnection) : UringConnection :=
  match ssl c with
  | Some _ => set_ssl_output (ssl_write_buffer c) (ssl_write_offset c + written) c
  | None => add_write_offset written c
  end.

Definition output_drained (c : UringConnection) : bool :=
  match ssl c with
  | None => write_offset c =? len (write_buffer c)
  | Some session =>
    (ssl_write_offset c =? len (ssl_write_buffer c))
    && (write_offset c =? len (write_buffer c))
    && negb (wants_write (ssl_connection session))
  end.

(** What follows when the output is drained. *)
Definition response_drained (id : ConnectionId) : M unit :=
  c ← index (slot id);
  match static_stream c with
  | Some _ =>
    update (slot id) (queue_response []);;
    advance_static_stream id
  | None =>
    match proxy c with
    | Some _ =>
      update (slot id) (queue_response []);;
      t ← clock;
      update_proxy (slot id) (record_progress t);;
      submit_proxy_read id
    | None =>
      match ssl c with
      | Some session =>
        if closing session then metric Runtime.response;; remove (slot id)
        else
          update (slot id) (set_ssl (Some (mkSslSession
            (send_close_notify (ssl_connection session)) (started_at session)
            (handshake_timeout session) true)));;
          submit_send id
      | None => metric Runtime.response;; remove (slot id)
      end
    end
  end.

Definition handle_write_completion (o : OperationId) (result : Z) : M unit :=
  let id := mkConnectionId (op_slot o) (op_generation o) in
  c ← current id;
  match c with
  | None => skip
  | Some c =>
    update (slot id) mark_write_completed;;
    if (result <? 0)%Z then
      if is_retryable result then submit_send id else remove (slot id)
    else if (result =? 0)%Z then remove (slot id)
    else
      let written := Z.to_N result in
      metric (Runtime.wrote_bytes written);;
      if unsent c <? written then remove (slot id)
      else
        update (slot id) (sent written);;
        c ← index (slot id);
        if output_drained c then response_drained id else submit_send id
  end.

(** ** Routing a request *)

Definition respond_static (id : ConnectionId) (directory : bytes) (request : RequestHead) :
    M unit :=
  match static_stream_response directory request with
  | Ok response =>
    stream ←
      (match stream response with
       | Some args => s ← call (spawn_stream args); mret (Some s)
       | None => mret None
       end);
    queue_static_response id (head response) stream
  | Err e => send_response id (static_error_response e)
  end.

Definition respond_proxy (id : ConnectionId) (action : Action) (request : RequestHead)
    (body : bytes) : M unit :=
  b ← gets balancer;
  '(b, selected) ← unwrap (select b action);
  modify (set_balancer b);;
  match selected with
  | Err _ => queue_proxy_error id 502 (str "upstream configuration failed")
  | Ok upstream => start_proxy id upstream request body
  end.

(** A response that fits the write buffer, or the error that replaces it. *)
Definition limited (max : N) (response : bytes) : bytes :=
  if max <? len response then response_bytes 500 (str "response is too large") else response.

Definition prepare_response (id : ConnectionId) : M unit :=
  connection ← current id;
  match connection with
  | None => skip
  | Some c =>
    match request c with
    | None => skip
    | Some r =>
      ls ← gets listeners;
      match ls !! N.to_nat (listener_index c) with
      | None => remove (slot id)
      | Some listener =>
        ss ← gets servers;
        max ← gets (fun w => max_write_buffer_size (limits w));
        let server_index :=
          select_server (l_server_indices listener) (l_default_server listener)
            (completed_head r) ss in
        let action :=
          server ← ss !! N.to_nat server_index; route server (target (completed_head r)) in
        match action with
        | Some (Response status body) =>
          send_response id (limited max (response_bytes status body))
        | Some (Static directory) => respond_static id directory (completed_head r)
        | Some (Config.Proxy _ _ _ _ as action) =>
          respond_proxy id action (completed_head r) (completed_body r)
        | None =>
          send_response id (limited max
            (match ss !! N.to_nat server_index with
             | None => response_bytes 500 (str "server configuration is unavailable")
             | Some _ => response_bytes 404 (str "not found")
             end))
        end
      end
    end
  end.

(** ** Completions of a receive *)

(** What the buffer of a connection without a pending request holds so far. *)
Inductive Head :=
| HeadIncomplete
| HeadError (status : N) (message : bytes)
| HeadPending (request : PendingRequest).

Definition examine_head (max : N) (buffer : bytes) : Head :=
  match parse_request_head buffer with
  | Ok Incomplete => HeadIncomplete
  | Ok (Complete head consumed) =>
    match body_length head with
    | Err UnsupportedTransferEncoding =>
      HeadError 501 (str "transfer encoding is not supported")
    | Err _ => HeadError 400 (str "invalid content length")
    | Ok n =>
      match checked_add 64 consumed n with
      | None => HeadError 413 (str "request is too large")
      | Some body_end =>
        if max <? body_end then HeadError 413 (str "request is too large")
        else HeadPending (mkPendingRequest head consumed body_end)
      end
    end
  | Err _ => HeadError 400 (str "invalid HTTP request")
  end.

(** A request whose body has arrived is answered; the next receive otherwise. *)
Definition complete_request (id : ConnectionId) : M unit :=
  c ← index (slot id);
  match pending_request c with
  | Some p =>
    if body_end p <=? len (request_buffer c) then
      body ← slice_range (request_buffer c) (body_start p) (body_end p);
      update (slot id) (set_request (mkCompletedRequest (pending_head p) body));;
      metric Runtime.request;;
      prepare_response id
    else submit_recv id
  | None => submit_recv id
  end.

(** The bytes received, in plain text, join the request buffer. *)
Definition receive_plaintext (id : ConnectionId) (received : bytes) : M unit :=
  connection ← current id;
  match connection with
  | None => skip
  | Some c =>
    metric (Runtime.read_bytes (len received));;
    max ← gets (fun w => max_read_buffer_size (limits w));
    let length := len (request_buffer c) + len received in
    if (2 ^ 64 <=? length) || (max <? length)
    then queue_http_error id 413 (str "request is too large")
    else
      update (slot id) (fun c => set_request_buffer (request_buffer c ++ received) c);;
      c ← index (slot id);
      let head :=
        match pending_request c with
        | None => examine_head max (request_buffer c)
        | Some _ => HeadIncomplete
        end in
      match head with
      | HeadError status message => queue_http_error id status message
      | HeadPending p => update (slot id) (set_pending_request (Some p));; complete_request id
      | HeadIncomplete => complete_request id
      end
  end.

(** The TLS session takes what was received: the plaintext, or [None] when the
    connection is removed. *)
Definition receive_tls (id : ConnectionId) (session : UringSslSession) (received : bytes) :
    M (option bytes) :=
  let '(r, s) := read_tls (ssl_connection session) received in
  update (slot id) (set_ssl (Some (set_ssl_connection s session)));;
  match r with
  | Err _ => remove (slot id);; mret None
  | Ok _ =>
    let '(r, s) := process_new_packets s in
    update (slot id) (set_ssl (Some (set_ssl_connection s session)));;
    match r with
    | Err _ => remove (slot id);; mret None
    | Ok _ =>
      let '((plaintext, r), s) := reader_read_to_end s in
      update (slot id) (set_ssl (Some (set_ssl_connection s session)));;
      match r with
      | Ok _ | Err RustStd.WouldBlock =>
        (if wants_write s then submit_send id else skip);;
        mret (Some plaintext)
      | Err _ => remove (slot id);; mret None
      end
    end
  end.

Definition handle_read_completion (o : OperationId) (result : Z) (buffer_id : option N) :
    M unit :=
  received ← take_received result buffer_id;
  let id := mkConnectionId (op_slot o) (op_generation o) in
  connection ← current id;
  match connection with
  | None => skip
  | Some c =>
    update (slot id) mark_read_completed;;
    if (result <=? 0)%Z then
      if (result <? 0)%Z && is_receive_retryable result then submit_recv id
      else remove (slot id)
    else
      b ← unwrap received;
      plaintext ←
        (match ssl c with
         | Some session => receive_tls id session b
         | None => mret (Some b)
         end);
      match plaintext with
      | None => skip
      | Some [] => submit_recv id
      | Some b => receive_plaintext id b
      end
  end.

Definition dispatch_completion (o : OperationId) (cqe : Cqe) : M unit :=
  let result := cqe_result cqe in
  let buffer_id := fst <$> cqe_buffer cqe in
  match kind o with
  | Accept => handle_accept_completion o result (cqe_more cqe)
  | Read => handle_read_completion o result buffer_id
  | Write => handle_write_completion o result
  | ProxyConnect => handle_proxy_connect o result
  | ProxyWrite => handle_proxy_write o result
  | ProxyRead => handle_proxy_read o result buffer_id
  end.

(** ** Deadlines *)

(** [Slab::iter] goes through the occupied slots in ascending order. *)
Definition slot_le (a b : N * UringConnection) : Prop := a.1 <= b.1.

#[export] Instance slot_le_dec a b : Decision (slot_le a b).
Proof. unfold slot_le. apply _. Defined.

Definition slab_iter (m : gmap N UringConnection) : list (N * UringConnection) :=
  merge_sort slot_le (map_to_list m).

(** The identifiers of the connections that satisfy a test. *)
Definition ids_where (p : UringConnection -> bool) (w : IoUringWorker) : list ConnectionId :=
  omap (fun '(slot, c) => if p c then Some (connection_id slot c) else None)
    (slab_iter (connections w)).

Definition submit_shutdown_read : M unit :=
  fd ← gets shutdown_eventfd;
  push_entry (mkEntry (OpRead fd) CONTROL_USER_DATA).

Definition submit_timer_read : M unit :=
  fd ← gets timerfd;
  push_entry (mkEntry (OpRead fd) TIMER_USER_DATA).

Definition phase_timeout (p : ProxyPhase) (w : IoUringWorker) : N :=
  match p with
  | Resolving => dns_timeout (dns_limits w)
  | Connecting => connect_timeout (proxy_limits w)
  | WritingRequest => write_timeout (proxy_limits w)
  | ReadingResponse => read_timeout (proxy_limits w)
  end.

(** The proxied connections past the deadline of their phase. *)
Definition expired_proxy (now : N) (w : IoUringWorker) (c : UringConnection) :
    option (ProxyPhase * bool) :=
  if write_pending c then None
  else
    p ← proxy c;
    if timed_out p then None
    else if phase_timeout (phase p) w <=? saturating_sub now (progress_at p)
    then Some (phase p, operation_pending p) else None.

Definition expired_proxies (now : N) (w : IoUringWorker) :
    list (ConnectionId * ProxyPhase * bool) :=
  omap (fun '(slot, c) =>
    (fun '(ph, pending) => (connection_id slot c, ph, pending)) <$> expired_proxy now w c)
    (slab_iter (connections w)).

(** The operation an upstream phase waits for. *)
Definition phase_operation (p : ProxyPhase) : option OperationKind :=
  match p with
  | Resolving => None
  | Connecting => Some ProxyConnect
  | WritingRequest => Some ProxyWrite
  | ReadingResponse => Some ProxyRead
  end.

Definition expire_proxy (expired : ConnectionId * ProxyPhase * bool) : M unit :=
  let '(id, ph, pending) := expired in
  if negb pending then fail_proxy id 504 (timeout_message ph)
  else
    update_proxy (slot id) set_timed_out;;
    match phase_operation ph with
    | None => skip
    | Some k =>
      push_entry (mkEntry (OpAsyncCancel (operation k id)) PROXY_CANCEL_USER_DATA)
    end.

Definition handshake_expired (now : N) (c : UringConnection) : bool :=
  match ssl c with
  | Some s =>
    is_handshaking (ssl_connection s)
    && (handshake_timeout s <=? saturating_sub now (started_at s))
  | None => false
  end.

Definition pump_static_streams : M unit :=
  ready ← gets (ids_where (fun c =>
    bool_decide (static_stream c <> None) && negb (write_pending c)
    && bool_decide (write_buffer c = [])));
  for_all advance_static_stream ready.

Definition check_proxy_timeouts : M unit :=
  now ← clock;
  expired ← gets (expired_proxies now);
  for_all expire_proxy expired;;
  ids ← gets (ids_where (handshake_expired now));
  for_all (fun id => remove (slot id)) ids;;
  submit_timer_read;;
  pump_static_streams.

(** ** Shutdown *)

(** The accepts to cancel: those pending, by index. *)
Fixpoint accept_targets (i : N) (ls : list UringListener) : io_result (list N) :=
  match ls with
  | [] => Ok []
  | l :: ls =>
    if accept_pending l then
      target ← accept_operation i l; targets ← accept_targets (i + 1) ls; Ok (target :: targets)
    else accept_targets (i + 1) ls
  end.

Definition cancel_entry (target : N) : Entry :=
  mkEntry (OpAsyncCancel target) CANCEL_USER_DATA.

Definition begin_shutdown : M unit :=
  started ← gets cancellation_started;
  if started : bool then skip
  else
    now ← clock;
    modify (set_shutting_down now);;
    ls ← gets listeners;
    targets ← lift (accept_targets 0 ls);
    modify (set_pending_cancellations (len targets));;
    for_all (fun target => push_entry (cancel_entry target)) targets;;
    ring_submit.

Definition shutdown_drained (w : IoUringWorker) : bool :=
  (pending_cancellations w =? 0) && forallb (fun l => negb (accept_pending l)) (listeners w)
  && bool_decide (connections w = ∅).

(** [started.elapsed() >= drain_timeout], the clock read only when it started. *)
Definition shutdown_deadline_reached : M bool :=
  started ← gets shutdown_started;
  match started with
  | None => mret false
  | Some started =>
    now ← clock;
    timeout ← gets (fun w => drain_timeout (limits w));
    mret (timeout <=? saturating_sub now started)
  end.

(** ** The loop of [run] *)

Fixpoint submit_accepts (indices : list N) : M unit :=
  match indices with
  | [] => skip
  | i :: indices => submit_accept i;; submit_accepts indices
  end.

Definition submit_initial_accepts : M unit :=
  count ← gets (fun w => length (listeners w));
  submit_accepts (N.of_nat <$> seq 0 count);;
  ring_submit.

(** [run] before its loop. *)
Definition start : M unit :=
  submit_initial_accepts;;
  submit_shutdown_read;;
  submit_dns_read;;
  submit_timer_read;;
  ring_submit.

(** An iteration up to [submit_and_wait]; [true] when [run] returns. *)
Definition before_wait : M bool :=
  requested ← call shutdown_is_requested;
  (if requested : bool then begin_shutdown else skip);;
  stopping ← gets shutting_down;
  done ← gets shutdown_drained;
  if stopping && (done : bool) then mret true
  else
    deadline ← (if stopping : bool then shutdown_deadline_reached else mret false);
    mret deadline.

Definition handle_completion (cqe : Cqe) : M unit :=
  let user := cqe_user_data cqe in
  if user =? CONTROL_USER_DATA then call shutdown_request
  else if user =? CANCEL_USER_DATA then
    modify (fun w => set_pending_cancellations (saturating_sub (pending_cancellations w) 1) w)
  else if user =? PROXY_CANCEL_USER_DATA then skip
  else if user =? DNS_USER_DATA then process_dns_results
  else if user =? TIMER_USER_DATA then check_proxy_timeouts
  else
    match decode user with
    | None =>
      match fst <$> cqe_buffer cqe with
      | Some id => r ← copy_and_release id (Z.to_N (Z.max (cqe_result cqe) 0)); _ ← lift r; skip
      | None => skip
      end
    | Some o => dispatch_completion o cqe
    end.

(** The completions of an iteration, then its [submit]. *)
Definition after_wait (cqes : list Cqe) : M unit :=
  for_all handle_completion cqes;;
  ring_submit.

(** ** Construction: the state at the end of [new] *)

(** A bound listener: its socket, its default server and its servers. *)
Definition registered_listener (ssl_configs : list (option SslConfig))
    (group : N * N * list N) : UringListener :=
  let '(socket, default_server, server_indices) := group in
  new_listener socket default_server server_indices
    (match ssl_configs !! N.to_nat default_server with Some c => c | None => None end)
    Multishot.

(** The answers of the system during [new], in order. *)
Record Startup := mkStartup {
  s_build : io_result unit;
  s_register_probe : io_result (Opcode -> bool);
  s_page_size : io_result N;
  s_allocate : N -> bool;
  s_register_ring : io_result unit;
  s_eventfd : SysCall;
  s_second_eventfd : SysCall;
  s_resolver : io_result unit;
  s_timerfd_create : SysCall;
  s_timerfd_settime : N -> N -> SysCall;
}.

Definition s_shutdown_eventfd (answers : Startup) : io_result N :=
  create_eventfd (s_eventfd answers).

Definition s_dns_eventfd (answers : Startup) : io_result N :=
  create_eventfd (s_second_eventfd answers).

Definition s_timerfd (answers : Startup) : io_result N :=
  (create_timerfd (s_timerfd_create answers) (s_timerfd_settime answers)).1.

Definition s_probe (answers : Startup) : io_result Capabilities :=
  probe_capabilities (s_register_probe answers).

(** [IoUringWorker::new]; the outer option is a panic. *)
Definition new (answers : Startup) (buf_ring_size buf_size : N)
    (groups : list (N * N * list N)) (ss : list Server) (ssl_configs : list (option SslConfig))
    (limits : WorkerLimits) (proxy_limits : ProxyLimits) (dns_limits : DnsLimits)
    (upstream_groups : gmap bytes UpstreamGroup) : option (io_result IoUringWorker) :=
  match s_build answers, s_probe answers with
  | Err e, _ => Some (Err e)
  | Ok _, Err e => Some (Err e)
  | Ok _, Ok capabilities =>
    match validate_required capabilities with
    | Err e => Some (Err e)
    | Ok _ =>
      registered ← BufferRing.register (s_page_size answers) (s_allocate answers)
        (s_register_ring answers) buf_ring_size buf_size;
      Some (
        buffer_ring ← registered;
        if negb (len ssl_configs =? len ss) then Err InvalidInput
        else
          shutdown_fd ← s_shutdown_eventfd answers;
          dns_fd ← s_dns_eventfd answers;
          _ ← s_resolver answers;
          timer_fd ← s_timerfd answers;
          Ok {| buffer_ring := buffer_ring;
                listeners := registered_listener ssl_configs <$> groups;
                servers := ss; connections := ∅; generations := []; buffer_size := buf_size;
                limits := limits; proxy_limits := proxy_limits; dns_limits := dns_limits;
                shutdown_eventfd := shutdown_fd; shutting_down := false;
                shutdown_started := None; cancellation_started := false;
                pending_cancellations := 0; dns_eventfd := dns_fd; timerfd := timer_fd;
                metrics := no_metrics; balancer := with_groups upstream_groups |})
    end
  end.

(** [IoUringRuntime::probe]: the same resources, with buffers of one byte. *)
Definition probe (answers : Startup) (buf_ring_size buf_size : N) : option (io_result unit) :=
  match s_build answers, s_probe answers with
  | Err e, _ => Some (Err e)
  | Ok _, Err e => Some (Err e)
  | Ok _, Ok capabilities =>
    match validate_required capabilities with
    | Err e => Some (Err e)
    | Ok _ =>
      if (2 ^ 32 <=? buf_size) || (buf_size =? 0) then Some (Err InvalidInput)
      else
        registered ← BufferRing.register (s_page_size answers) (s_allocate answers)
          (s_register_ring answers) buf_ring_size 1;
        Some (match registered with Ok _ => Ok tt | Err e => Err e end)
    end
  end.

End Worker.

