(* ===== verification/UringInv.v ===== *)
(** * The state invariant of the io_uring worker

    The kernel's side of the ring as a relation, and the invariant of [Uring.v] over
    plain connections: every connection has exactly one entry outstanding at the
    kernel, over memory the connection still owns, or waits for the resolver or for a
    file. *)

From S2P Require Import Prelude RustStd Config Http Router LoadBalancer Proxy StaticFiles Runtime Handler Operation BufferRing UringConnection Uring.

Import Uring.

Local Open Scope N_scope.

Section Invariant.

Context {env : UringEnv} {fs : Filesystem} {mime : MimeGuess}.

Notation M := (Handler IoUringWorker Kernel).
Notation State := (State IoUringWorker Kernel).

(** ** The kernel

    What the kernel may answer to an entry: a send reports at most its length, a
    receive of [n] bytes comes with a selected buffer that starts with them, and only
    a successful multishot accept announces more completions. *)
Definition admissible (o : Op) (cqe : Cqe) : Prop :=
  match o with
  | OpAccept _ multishot =>
    cqe_buffer cqe = None /\
    (cqe_more cqe = true -> multishot = true /\ (0 <= cqe_result cqe)%Z)
  | OpSend _ b =>
    cqe_buffer cqe = None /\ cqe_more cqe = false /\ (cqe_result cqe <= Z.of_N (len b))%Z
  | OpRecv _ _ =>
    cqe_more cqe = false /\ ((0 < cqe_result cqe)%Z -> cqe_buffer cqe <> None) /\
    forall id b, cqe_buffer cqe = Some (id, b) -> len b = Z.to_N (cqe_result cqe)
  | OpConnect _ _ | OpRead _ | OpAsyncCancel _ =>
    cqe_buffer cqe = None /\ cqe_more cqe = false
  end.

(** The kernel fills the buffer a completion selects. *)
Inductive selects (r : BufferRing.ProvidedBufferRing) (h : N) :
  option (N * bytes) -> BufferRing.ProvidedBufferRing -> N -> Prop :=
| selects_none : selects r h None r h
| selects_some id b h' :
    BufferRing.kernel_take h r = Some (id, h') -> len b <= BufferRing.buffer_len r ->
    selects r h (Some (id, b)) (BufferRing.fill id b r) h'.

(** The kernel completes an entry; the world may change meanwhile. *)
Inductive serve (s : State) : Cqe * Entry -> State -> Prop :=
| serve_entry l1 e l2 cqe r h u :
    in_flight (world s) = l1 ++ e :: l2 ->
    cqe_user_data cqe = user_data e -> admissible (op e) cqe ->
    selects (buffer_ring (worker s)) (buffer_head (world s)) (cqe_buffer cqe) r h ->
    serve s (cqe, e)
      (mkState (set_buffer_ring r (worker s))
         (mkKernel u (if cqe_more cqe then l1 ++ e :: l2 else l1 ++ l2) h)).

(** The completions of one [submit_and_wait], each with its entry. *)
Inductive serves (s : State) : list (Cqe * Entry) -> State -> Prop :=
| serves_nil : serves s [] s
| serves_cons x s' l s'' : serve s x s' -> serves s' l s'' -> serves s (x :: l) s''.

(** The states of [run] at the top of its loop: [start], then iterations whose
    completions the kernel chooses. *)
Inductive reachable (s0 : State) : State -> Prop :=
| reachable_start s : start s0 = Ret tt s -> reachable s0 s
| reachable_iteration s s1 l s2 s3 :
    reachable s0 s -> before_wait s = Ret false s1 -> serves s1 l s2 ->
    after_wait l.*1 s2 = Ret tt s3 -> reachable s0 s3.

(** ** What a connection waits for *)

(** The entry of a connection at the kernel, over the connection's own memory. *)
Definition activity (size k : N) (c : UringConnection) : option Entry :=
  let id := connection_id k c in
  if read_pending c then Some (recv_entry id (socket c) size)
  else if write_pending c then
    Some (write_entry id (socket c) (drop (N.to_nat (write_offset c)) (write_buffer c)))
  else
    p ← proxy c;
    if negb (operation_pending p) then None
    else
      fd ← upstream p;
      match phase p with
      | Resolving => None
      | Connecting => a ← address p; Some (connect_entry id fd a)
      | WritingRequest =>
        Some (proxy_write_entry id fd (drop (N.to_nat (request_offset p)) (proxy_buffer p)))
      | ReadingResponse => Some (proxy_read_entry id fd size)
      end.

Definition activities (size : N) (m : gmap N UringConnection) : list Entry :=
  omap (fun '(k, c) => activity size k c) (map_to_list m).

(** The upstream waits while a chunk of its response is sent. *)
Definition relays (p : UringProxy) : Prop :=
  phase p = ReadingResponse /\ operation_pending p = false /\ timed_out p = false /\
  is_Some (upstream p).

Definition request_in_range (p : UringProxy) : Prop :=
  request_offset p <= len (proxy_buffer p).

(** The upstream's own operation, or its resolution. *)
Definition proxy_ok (p : UringProxy) : Prop :=
  request_in_range p /\
  match phase p with
  | Resolving => operation_pending p = false
  | Connecting => operation_pending p = true /\ is_Some (upstream p) /\ is_Some (address p)
  | WritingRequest | ReadingResponse => operation_pending p = true /\ is_Some (upstream p)
  end.

Definition may_send (c : UringConnection) : Prop :=
  proxy c = None \/
  (static_stream c = None /\
   exists p, proxy c = Some p /\ relays p /\ request_in_range p).

(** The phases of a plain connection between two completions. *)
Inductive Mode (c : UringConnection) : Prop :=
| Receiving :
    read_pending c = true -> write_pending c = false -> proxy c = None ->
    static_stream c = None -> Mode c
| Sending :
    read_pending c = false -> write_pending c = true ->
    write_offset c < len (write_buffer c) -> may_send c -> Mode c
| Streaming :
    read_pending c = false -> write_pending c = false -> proxy c = None ->
    static_stream c <> None -> write_buffer c = [] -> write_offset c = 0 -> Mode c
| Proxying p :
    read_pending c = false -> write_pending c = false -> static_stream c = None ->
    proxy c = Some p -> proxy_ok p -> Mode c.

(** What holds of a connection at any time. *)
Definition base (k : N) (c : UringConnection) : Prop :=
  ssl c = None /\ k < 2 ^ 32 /\ 0 < conn_generation c < 2 ^ 16 /\
  write_offset c <= len (write_buffer c) /\
  forall r, pending_request c = Some r -> body_start r <= body_end r.

(** ** Listeners and the other entries *)

Fixpoint accepts (i : N) (ls : list UringListener) : list Entry :=
  match ls with
  | [] => []
  | l :: ls =>
    match accept_entry i l with
    | Ok e => if accept_pending l then e :: accepts (i + 1) ls else accepts (i + 1) ls
    | Err _ => accepts (i + 1) ls
    end
  end.

Definition control_entry (w : IoUringWorker) : Entry :=
  mkEntry (OpRead (shutdown_eventfd w)) CONTROL_USER_DATA.
Definition dns_entry (w : IoUringWorker) : Entry := mkEntry (OpRead (dns_eventfd w)) DNS_USER_DATA.
Definition timer_entry (w : IoUringWorker) : Entry := mkEntry (OpRead (timerfd w)) TIMER_USER_DATA.

(** Reads of the worker's own descriptors, and cancellations. *)
Definition is_other (e : Entry) : Prop :=
  user_data e ∈ reserved /\
  match op e with OpRead _ | OpAsyncCancel _ => True | _ => False end.

(** What does not depend on the connections. *)
Record world_ok (lent : list (N * bytes)) (s : State) : Prop := mkWorldOk {
  ok_plain : Forall (fun l => l_ssl l = None) (listeners (worker s));
  ok_listener_generations : Forall (fun l => l_generation l = 1) (listeners (worker s));
  ok_generations : Forall (fun g => g < 2 ^ 16) (generations (worker s));
  ok_size : buffer_size (worker s) < 2 ^ 32;
  ok_groups : groups_wf (balancer (worker s));
  ok_servers :
    Forall (server_wf (groups (balancer (worker s)))) (servers (worker s));
  ok_buffers : exists l p, l ≡ₚ lent /\
    BufferRing.implements
      (BufferRing.mkSystem (buffer_ring (worker s)) (buffer_head (world s)) l) p;
}.

(** The invariant, with the buffers lent to the completions still to handle, the
    entries of those completions, the other entries, and the slot being handled. *)
Record Inv (x : option N) (lent : list (N * bytes)) (owed others : list Entry) (s : State) :
    Prop := mkInv {
  inv_world : world_ok lent s;
  inv_base k c : connections (worker s) !! k = Some c -> base k c;
  inv_mode k c : connections (worker s) !! k = Some c -> x <> Some k -> Mode c;
  inv_others : Forall is_other others;
  inv_entries :
    in_flight (world s) ++ owed ≡ₚ
    activities (buffer_size (worker s)) (connections (worker s))
    ++ accepts 0 (listeners (worker s)) ++ others;
}.

(** ** Outstanding entries *)

(** The slot has no entry at the kernel. *)
Definition at_rest (c : UringConnection) : Prop :=
  read_pending c = false /\ write_pending c = false /\
  forall p, proxy c = Some p -> operation_pending p = false.

Lemma at_rest_activity size k c : at_rest c -> activity size k c = None.
Proof.
  intros (Hr & Hw & Hp). unfold activity. rewrite Hr, Hw.
  destruct (proxy c) as [p|]; [|done]. simpl. by rewrite (Hp p).
Qed.

Lemma activities_delete size m k c :
  m !! k = Some c ->
  activities size m ≡ₚ option_list (activity size k c) ++ activities size (delete k m).
Proof.
  intros Hk. unfold activities. rewrite <- (map_to_list_delete m k c Hk). simpl.
  by destruct (activity size k c).
Qed.

Lemma activities_insert size m k c :
  activities size (<[k := c]> m)
  ≡ₚ option_list (activity size k c) ++ activities size (delete k m).
Proof.
  rewrite (activities_delete size (<[k := c]> m) k c) by apply lookup_insert_eq.
  by rewrite delete_insert_eq.
Qed.

(** A slot without an entry does not count. *)
Lemma activities_rest size m k :
  (forall c, m !! k = Some c -> activity size k c = None) ->
  activities size m ≡ₚ activities size (delete k m).
Proof.
  intros H. destruct (m !! k) as [c|] eqn:Hk; [|by rewrite delete_id].
  rewrite (activities_delete size m k c Hk). by rewrite (H c eq_refl).
Qed.

Lemma elem_of_activities size m e :
  e ∈ activities size m <-> exists k c, m !! k = Some c /\ activity size k c = Some e.
Proof.
  unfold activities. rewrite list_elem_of_omap. split.
  - intros ([k c] & Hin%elem_of_map_to_list & H). eauto.
  - intros (k & c & Hin & H). exists (k, c). by rewrite elem_of_map_to_list.
Qed.

(** The entry of a connection, by cases on what it is. *)
Lemma activity_inv size k c e :
  activity size k c = Some e ->
  let id := connection_id k c in
  (read_pending c = true /\ e = recv_entry id (socket c) size) \/
  (read_pending c = false /\ write_pending c = true /\
   e = write_entry id (socket c) (drop (N.to_nat (write_offset c)) (write_buffer c))) \/
  exists p fd, read_pending c = false /\ write_pending c = false /\ proxy c = Some p /\
    operation_pending p = true /\ upstream p = Some fd /\
    ((phase p = Connecting /\ exists a, address p = Some a /\ e = connect_entry id fd a) \/
     (phase p = WritingRequest /\
      e = proxy_write_entry id fd (drop (N.to_nat (request_offset p)) (proxy_buffer p))) \/
     (phase p = ReadingResponse /\ e = proxy_read_entry id fd size)).
Proof.
  unfold activity. destruct (read_pending c); [intros [= <-]; auto|].
  destruct (write_pending c); [intros [= <-]; auto|].
  destruct (proxy c) as [p|]; [|done]. simpl.
  destruct (operation_pending p) eqn:Hop; [|done]. simpl.
  destruct (upstream p) as [fd|] eqn:Hup; [|done]. simpl. intros H. right. right.
  exists p, fd. do 5 (split; [done|]).
  destruct (phase p); [done| |injection H as <-; auto|injection H as <-; auto].
  destruct (address p) as [a|]; [|done]. injection H as <-. eauto.
Qed.

(** ** Weakest preconditions of the primitive operations *)

Definition settle (x : option N) (lent : list (N * bytes)) (owed others : list Entry) :
    unit -> State -> Prop :=
  fun _ s => Inv x lent owed others s.

Lemma wp_call {A} (f : World -> A * World) (Q : A -> State -> Prop) R w u inf h :
  (forall a u', f u = (a, u') -> Q a (mkState w (mkKernel u' inf h))) ->
  wp (call f) Q R (mkState w (mkKernel u inf h)).
Proof. intros H. unfold wp, call, sys. simpl. destruct (f u) as [a u']. by apply H. Qed.

Lemma wp_clock (Q : N -> State -> Prop) R w u inf h :
  (forall t u', Q t (mkState w (mkKernel u' inf h))) ->
  wp clock Q R (mkState w (mkKernel u inf h)).
Proof. intros H. apply wp_call. auto. Qed.

Lemma wp_for_all_lift {A} (l : list (io_result A)) (Q : unit -> State -> Prop)
    (R : State -> Prop) s :
  Q tt s -> R s -> wp (for_all (fun r => _ ← lift r; skip) l) Q R s.
Proof.
  intros HQ HR. induction l as [|r l IH]; [done|]. simpl. apply wp_bind.
  destruct r; [exact IH|exact HR].
Qed.

Lemma wp_push_entry e (Q : unit -> State -> Prop) (R : State -> Prop) w u inf h :
  (forall u', Q tt (mkState w (mkKernel u' (inf ++ [e]) h))) ->
  (forall u', R (mkState w (mkKernel u' inf h))) ->
  wp (push_entry e) Q R (mkState w (mkKernel u inf h)).
Proof.
  intros HQ HR. unfold push_entry. apply wp_bind, wp_call. intros rs u' _. apply wp_bind.
  induction rs as [|[[]|err] rs IH]; [|exact IH|apply HR]. apply HQ.
Qed.

Lemma uring_wp_index k c (Q : UringConnection -> State -> Prop) R w u :
  connections w !! k = Some c -> Q c (mkState w u) -> wp (index k) Q R (mkState w u).
Proof. intros Hk HQ. unfold wp, index. simpl. by rewrite Hk. Qed.

Lemma uring_wp_update k f c (Q : unit -> State -> Prop) R w u :
  connections w !! k = Some c ->
  Q tt (mkState (set_connections (<[k := f c]> (connections w)) w) u) ->
  wp (update k f) Q R (mkState w u).
Proof.
  intros Hk HQ. unfold update. apply wp_bind. by apply (uring_wp_index k c).
Qed.

Lemma wp_remove k c (Q : unit -> State -> Prop) R w u :
  connections w !! k = Some c ->
  Q tt (mkState (set_connections (delete k (connections w)) w) u) ->
  wp (remove k) Q R (mkState w u).
Proof.
  intros Hk HQ. unfold remove. apply wp_bind. by apply (uring_wp_index k c).
Qed.

Lemma uring_wp_index_proxy k c p (Q : UringProxy -> State -> Prop) R w u :
  connections w !! k = Some c -> proxy c = Some p -> Q p (mkState w u) ->
  wp (index_proxy k) Q R (mkState w u).
Proof.
  intros Hk Hp HQ. unfold index_proxy. apply wp_bind, (uring_wp_index k c); [done|].
  by apply (wp_unwrap _ p).
Qed.

Lemma uring_wp_update_proxy k f c p (Q : unit -> State -> Prop) R w u :
  connections w !! k = Some c -> proxy c = Some p ->
  Q tt (mkState (set_connections (<[k := set_proxy (Some (f p)) c]> (connections w)) w) u) ->
  wp (update_proxy k f) Q R (mkState w u).
Proof.
  intros Hk Hp HQ. unfold update_proxy. apply wp_bind, (uring_wp_index_proxy k c p); [done|done|].
  by apply (uring_wp_update k _ c).
Qed.

Lemma uring_wp_slice_from b n (Q : bytes -> State -> Prop) R s :
  n <= len b -> Q (drop (N.to_nat n) b) s -> wp (slice_from b n) Q R s.
Proof. intros Hn HQ. unfold slice_from. by rewrite (proj2 (N.ltb_ge _ _)). Qed.

Lemma wp_try_u32 n (Q : unit -> State -> Prop) (R : State -> Prop) s :
  Q tt s -> R s -> wp (try_u32 n) Q R s.
Proof. intros HQ HR. unfold try_u32. destruct (_ <=? _); [exact HR|exact HQ]. Qed.

Lemma wp_unwrap_u32 n (Q : unit -> State -> Prop) R s :
  n < 2 ^ 32 -> Q tt s -> wp (unwrap_u32 n) Q R s.
Proof. intros Hn HQ. unfold unwrap_u32. by rewrite (proj2 (N.leb_gt _ _)). Qed.

Lemma uring_wp_current id (Q : option UringConnection -> State -> Prop) R w u :
  Q (current_in w id) (mkState w u) -> wp (current id) Q R (mkState w u).
Proof. intros H. exact H. Qed.

Lemma current_in_Some w id c :
  current_in w id = Some c <->
  connections w !! slot id = Some c /\ conn_generation c = generation id.
Proof.
  unfold current_in, matches_generation. destruct (connections w !! slot id) as [c'|]; simpl;
    [|naive_solver].
  destruct (N.eqb_spec (conn_generation c') (generation id)); naive_solver.
Qed.

(** ** Handling one slot *)

(** The worker apart from its connections, its metrics and its balancer's cursors. *)
Definition frame (w : IoUringWorker) : IoUringWorker :=
  set_connections ∅ (update_metrics (fun _ => no_metrics)
    (set_balancer (with_groups (groups (balancer w))) w)).

(** Only the connection in the slot [k] may have changed, and entries were queued. *)
Definition touches (k : N) (s s' : State) : Prop :=
  frame (worker s') = frame (worker s) /\
  delete k (connections (worker s')) = delete k (connections (worker s)) /\
  in_flight (world s) ⊆ in_flight (world s').

Definition stops (w : IoUringWorker) : bool * option N * bool * N :=
  (shutting_down w, shutdown_started w, cancellation_started w, drain_timeout (limits w)).

(** What every handler keeps: the entries it finds queued, the timer's descriptor, and
    whether the worker stops and since when. *)
Definition grows (s s' : State) : Prop :=
  in_flight (world s) ⊆ in_flight (world s') /\
  timer_entry (worker s') = timer_entry (worker s) /\
  stops (worker s') = stops (worker s).

Lemma touches_refl k s : touches k s s.
Proof. done. Qed.

Lemma touches_trans k s1 s2 s3 : touches k s1 s2 -> touches k s2 s3 -> touches k s1 s3.
Proof.
  intros (H1 & H2 & H3) (H4 & H5 & H6). split; [congruence|]. split; [congruence|].
  by etrans.
Qed.

Lemma touches_grows k s s' : touches k s s' -> grows s s'.
Proof.
  intros (Hf & _ & Hi). split; [done|].
  pose proof (f_equal timer_entry Hf) as E. pose proof (f_equal stops Hf) as E'. done.
Qed.

Lemma grows_refl s : grows s s.
Proof. done. Qed.

Lemma grows_trans s1 s2 s3 : grows s1 s2 -> grows s2 s3 -> grows s1 s3.
Proof.
  intros (H1 & H2 & H3) (H4 & H5 & H6). split; [by etrans|]. split; congruence.
Qed.

Lemma touches_lookup k s s' j :
  touches k s s' -> j <> k -> connections (worker s') !! j = connections (worker s) !! j.
Proof.
  intros (_ & H & _) Hj. rewrite <- (lookup_delete_ne _ k j), H by done. by apply lookup_delete_ne.
Qed.

Section Slot.

Context (lent : list (N * bytes)) (owed others : list Entry) (k : N) (s0 : State).

(** The handler is at slot [k], which holds [c]. *)
Definition At (c : UringConnection) (s : State) : Prop :=
  Inv (Some k) lent owed others s /\ connections (worker s) !! k = Some c /\ touches k s0 s.

(** The slot has been handled. *)
Definition Done (s : State) : Prop :=
  Inv None lent owed others s /\ touches k s0 s.

Definition size_of (s : State) : N := buffer_size (worker s).

Lemma world_ok_frame s s' :
  world_ok lent s -> frame (worker s') = frame (worker s) ->
  buffer_head (world s') = buffer_head (world s) -> world_ok lent s'.
Proof.
  intros [H1 H2 H3 H4 H5 H6 H7] Hf Hh. unfold groups_wf in *.
  pose proof (f_equal listeners Hf) as E1. pose proof (f_equal generations Hf) as E2.
  pose proof (f_equal buffer_size Hf) as E3. pose proof (f_equal buffer_ring Hf) as E4.
  pose proof (f_equal (fun w => groups (balancer w)) Hf) as E5.
  pose proof (f_equal servers Hf) as E6.
  simpl in *. constructor; unfold groups_wf; rewrite ?E1, ?E2, ?E3, ?E4, ?E5, ?E6, ?Hh; done.
Qed.

Lemma At_base c s : At c s -> base k c.
Proof. intros (H & Hk & _). by apply (inv_base _ _ _ _ _ H). Qed.

Lemma At_size c s : At c s -> size_of s < 2 ^ 32.
Proof. intros (H & _ & _). apply (inv_world _ _ _ _ _ H). Qed.

(** Changing the slot without changing its entry. *)
Lemma At_put c c' s :
  At c s -> base k c' -> activity (size_of s) k c' = activity (size_of s) k c ->
  At c' (mkState (set_connections (<[k := c']> (connections (worker s))) (worker s)) (world s)).
Proof.
  intros (H & Hk & Ht) Hb Ha. destruct H as [Hw Hbase Hmode Ho He]. split; [|split].
  - constructor; simpl.
    + by apply (world_ok_frame s).
    + intros j d. destruct (decide (j = k)) as [->|Hne].
      * rewrite lookup_insert_eq. by intros [= <-].
      * rewrite lookup_insert_ne by done. apply Hbase.
    + intros j d Hj Hne. rewrite lookup_insert_ne in Hj by congruence. by apply (Hmode j).
    + done.
    + rewrite He. apply Permutation_app_tail.
      rewrite (activities_delete _ _ k c Hk), activities_insert. unfold size_of in Ha.
      by rewrite Ha.
  - simpl. by rewrite lookup_insert_eq.
  - eapply touches_trans; [exact Ht|]. split; [done|]. simpl. by rewrite delete_insert_eq.
Qed.

(** A change of the metrics, of the balancer or of the world. *)
Lemma At_frame c s s' :
  At c s -> frame (worker s') = frame (worker s) ->
  connections (worker s') = connections (worker s) ->
  in_flight (world s') = in_flight (world s) ->
  buffer_head (world s') = buffer_head (world s) -> At c s'.
Proof.
  intros (H & Hk & Ht) Hf Hc Hi Hh. destruct H as [Hw Hbase Hmode Ho He].
  pose proof (f_equal listeners Hf) as E1. pose proof (f_equal buffer_size Hf) as E2.
  simpl in E1, E2. split; [|split].
  - constructor; rewrite ?Hc, ?Hi, ?E1, ?E2; try done. by apply (world_ok_frame s).
  - by rewrite Hc.
  - eapply touches_trans; [exact Ht|]. split; [done|]. by rewrite Hc, Hi.
Qed.

Lemma wp_call_At {A} (f : World -> A * World) c (Q : A -> State -> Prop) R s :
  At c s -> (forall a s', At c s' -> Q a s') -> wp (call f) Q R s.
Proof.
  intros H HQ. destruct s as [w [u inf h]]. apply wp_call. intros a u' _. apply HQ.
  by apply (At_frame c _ _ H).
Qed.

Lemma wp_metric_At f c (Q : unit -> State -> Prop) R s :
  At c s -> (forall s', At c s' -> Q tt s') -> wp (metric f) Q R s.
Proof.
  intros H HQ. destruct s as [w u]. apply wp_modify, HQ. by apply (At_frame c _ _ H).
Qed.

Lemma wp_index_At c (Q : UringConnection -> State -> Prop) R s :
  At c s -> Q c s -> wp (index k) Q R s.
Proof. intros (_ & Hk & _) HQ. destruct s. by apply (uring_wp_index k c). Qed.

Lemma wp_update_At f c (Q : unit -> State -> Prop) R s :
  At c s -> base k (f c) -> activity (size_of s) k (f c) = activity (size_of s) k c ->
  (forall s', At (f c) s' -> Q tt s') -> wp (update k f) Q R s.
Proof.
  intros H Hb Ha HQ. pose proof H as (_ & Hk & _). pose proof (At_put _ (f c) _ H Hb Ha) as H'.
  destruct s as [w u]. apply (uring_wp_update k f c); [done|]. by apply HQ.
Qed.

Lemma wp_index_proxy_At c p (Q : UringProxy -> State -> Prop) R s :
  At c s -> proxy c = Some p -> Q p s -> wp (index_proxy k) Q R s.
Proof. intros (_ & Hk & _) Hp HQ. destruct s. by apply (uring_wp_index_proxy k c p). Qed.

Lemma wp_update_proxy_At f c p (Q : unit -> State -> Prop) R s :
  At c s -> proxy c = Some p -> at_rest c -> operation_pending (f p) = false ->
  (forall s', At (set_proxy (Some (f p)) c) s' -> Q tt s') -> wp (update_proxy k f) Q R s.
Proof.
  intros H Hp Hrest Hop HQ. pose proof H as (_ & Hk & _).
  assert (Hrest' : at_rest (set_proxy (Some (f p)) c)).
  { destruct Hrest as (? & ? & _). split_and!; simpl; try done. by intros p' [= <-]. }
  assert (H' := At_put _ (set_proxy (Some (f p)) c) _ H (At_base _ _ H)).
  rewrite !at_rest_activity in H' by done. specialize (H' eq_refl).
  destruct s as [w u]. apply (uring_wp_update_proxy k f c p); [done|done|]. by apply HQ.
Qed.

Lemma wp_current_At id c (Q : option UringConnection -> State -> Prop) R s :
  At c s -> slot id = k -> generation id = conn_generation c -> Q (Some c) s ->
  wp (current id) Q R s.
Proof.
  intros (_ & Hk & _) Hs Hg HQ. destruct s as [w u]. apply uring_wp_current.
  rewrite (proj2 (current_in_Some w id c)); [done|]. simpl in *. by rewrite Hs.
Qed.

(** Queue the entry of a slot at rest, then mark it. *)
Lemma wp_push_At e f c (Q : unit -> State -> Prop) s :
  At c s -> at_rest c -> base k (f c) -> Mode (f c) ->
  activity (size_of s) k (f c) = Some e ->
  (forall s', Done s' -> Q tt s') ->
  wp (push_entry e;; update k f) Q (fun _ => True) s.
Proof.
  intros (H & Hk & Ht) Hrest Hb Hm Ha HQ. destruct s as [w [u inf h]].
  apply wp_bind, wp_push_entry; [|done]. intros u'. apply (uring_wp_update k f c); [done|].
  apply HQ. destruct H as [Hw Hbase Hmode Ho He]. simpl in *. split.
  - constructor; simpl.
    + by apply (world_ok_frame _ _ Hw).
    + intros j d. destruct (decide (j = k)) as [->|Hne].
      * rewrite lookup_insert_eq. by intros [= <-].
      * rewrite lookup_insert_ne by done. apply Hbase.
    + intros j d. destruct (decide (j = k)) as [->|Hne].
      * rewrite lookup_insert_eq. by intros [= <-].
      * rewrite lookup_insert_ne by done. intros Hj _. apply (Hmode j d Hj). congruence.
    + done.
    + rewrite activities_insert. unfold size_of in Ha. simpl in Ha. rewrite Ha.
      rewrite (activities_delete _ _ k c Hk), (at_rest_activity _ k c Hrest) in He.
      simpl in *. rewrite <- He, <- app_assoc. simpl. by rewrite <- Permutation_middle.
  - eapply touches_trans; [exact Ht|]. split; [done|]. simpl. rewrite delete_insert_eq.
    split; [done|set_solver].
Qed.

Lemma wp_remove_At c (Q : unit -> State -> Prop) R s :
  At c s -> at_rest c -> (forall s', Done s' -> Q tt s') -> wp (remove k) Q R s.
Proof.
  intros (H & Hk & Ht) Hrest HQ. destruct s as [w u]. apply (wp_remove k c); [done|].
  apply HQ. destruct H as [Hw Hbase Hmode Ho He]. simpl in *. split.
  - constructor; simpl.
    + by apply (world_ok_frame _ _ Hw).
    + intros j d [_ Hj]%lookup_delete_Some. by apply Hbase.
    + intros j d [Hne Hj]%lookup_delete_Some _. apply (Hmode j d Hj). congruence.
    + done.
    + rewrite (activities_delete _ _ k c Hk), (at_rest_activity _ k c Hrest) in He. done.
  - eapply touches_trans; [exact Ht|]. split; [done|]. simpl. by rewrite delete_delete_eq.
Qed.

(** The slot as it is, in one of the phases. *)
Lemma At_Done c s : At c s -> Mode c -> Done s.
Proof.
  intros (H & Hk & Ht) Hm. split; [|done]. destruct H as [Hw Hbase Hmode Ho He].
  constructor; try done. intros j d Hj _. destruct (decide (j = k)) as [->|Hne].
  - congruence.
  - apply (Hmode j d Hj). congruence.
Qed.

(** *** Sending *)

Context (g : N).

Notation id := (mkConnectionId k g).
Notation settles m s := (wp m (fun _ => Done) (fun _ => True) s).

Lemma At_lookup w u c : At c (mkState w u) -> connections w !! slot id = Some c.
Proof. by intros (_ & H & _). Qed.

Lemma activity_sending size c :
  read_pending c = false ->
  activity size k (mark_write_submitted c) =
  Some (write_entry (connection_id k c) (socket c)
          (drop (N.to_nat (write_offset c)) (write_buffer c))).
Proof. intros Hr. unfold activity. simpl. by rewrite Hr. Qed.

Lemma submit_send_spec c s :
  At c s -> conn_generation c = g -> at_rest c -> may_send c ->
  (write_offset c = len (write_buffer c) -> Mode c) -> settles (submit_send id) s.
Proof.
  intros H Hg Hrest Hmay Hempty. pose proof (At_base c s H) as Hbase.
  pose proof Hbase as (Hssl & Hk & Hgen & Hoff & _). pose proof Hrest as (Hr & Hw & Hp).
  unfold submit_send. apply wp_bind. destruct s as [w u]. apply wp_gets.
  rewrite (At_lookup _ _ _ H).
  unfold matches_generation. simpl. rewrite Hg, N.eqb_refl, Hw, Hssl. simpl.
  apply wp_bind, uring_wp_slice_from; [done|].
  case_bool_decide as Hnil.
  - apply wp_skip, (At_Done c); [done|]. apply Hempty.
    pose proof (f_equal len Hnil) as E. rewrite len_drop, len_nil in E. lia.
  - apply wp_bind, wp_try_u32; [|done].
    apply (wp_push_At _ _ c); [done|done|done| | |done].
    + apply Sending; simpl; try done.
      destruct (N.eq_dec (write_offset c) (len (write_buffer c))) as [E|]; [|lia].
      exfalso. apply Hnil. apply len_zero. rewrite len_drop. lia.
    + rewrite activity_sending by done. unfold connection_id. by rewrite Hg.
Qed.

Lemma send_response_spec c r s :
  At c s -> conn_generation c = g -> at_rest c -> may_send c ->
  (r = [] -> static_stream c <> None /\ proxy c = None) ->
  settles (send_response id r) s.
Proof.
  intros H Hg Hrest Hmay Hempty. pose proof (At_base c s H) as Hbase.
  pose proof Hbase as (Hssl & Hk & Hgen & Hoff & Hpend).
  unfold send_response. apply wp_bind.
  apply (wp_update_At _ c); [done| | |].
  - do 3 (split; [done|]). split; [simpl; lia|done].
  - by rewrite !at_rest_activity.
  - intros s' H'. apply (submit_send_spec _ _ H'); try done. simpl.
    intros E. symmetry in E. apply len_zero in E. destruct (Hempty E) as [Hstr Hpr].
    destruct Hrest as (? & ? & ?). by apply Streaming.
Qed.

Lemma may_send_plain c : proxy c = None -> may_send c.
Proof. by left. Qed.

Lemma response_bytes_ne status body : response_bytes status body <> [].
Proof. unfold response_bytes. simpl. done. Qed.

Lemma queue_http_error_spec c status message s :
  At c s -> conn_generation c = g -> at_rest c -> proxy c = None ->
  settles (queue_http_error id status message) s.
Proof.
  intros H Hg Hrest Hp. unfold queue_http_error. apply wp_bind.
  apply (wp_metric_At _ c); [done|]. intros s1 H1. apply wp_bind.
  apply (wp_current_At _ c); [done|done|done|]. apply wp_bind.
  pose proof (At_base c s H) as (Hssl & Hk & Hgen & Hoff & Hpend).
  apply (wp_update_At _ c); [done|do 4 (split; [done|]); done|by rewrite !at_rest_activity|].
  intros s2 H2. apply (send_response_spec _ _ _ H2); try done.
  all: first [by left | intros E; by apply response_bytes_ne in E].
Qed.

Lemma at_rest_no_proxy c : at_rest c -> at_rest (set_proxy None c).
Proof. intros (? & ? & ?). by split_and!. Qed.

Lemma queue_proxy_error_spec c status message s :
  At c s -> conn_generation c = g -> at_rest c ->
  settles (queue_proxy_error id status message) s.
Proof.
  intros H Hg Hrest. unfold queue_proxy_error. apply wp_bind.
  apply (wp_metric_At _ c); [done|]. intros s1 H1. apply wp_bind.
  apply (wp_current_At _ c); [done|done|done|]. apply wp_bind.
  pose proof (At_base c s H) as Hb. pose proof (at_rest_no_proxy c Hrest) as Hrest'.
  apply (wp_update_At _ c); [done|done|by rewrite !at_rest_activity|].
  intros s2 H2. apply (send_response_spec _ _ _ H2); try done.
  all: first [by left | intros E; by apply response_bytes_ne in E].
Qed.

Lemma fail_proxy_spec c status message s :
  At c s -> conn_generation c = g -> at_rest c ->
  settles (fail_proxy id status message) s.
Proof.
  intros H Hg Hrest. unfold fail_proxy. apply wp_bind. destruct s as [w u]. apply wp_gets.
  rewrite (At_lookup _ _ _ H).
  destruct (match proxy c with Some p => response_started p | None => false end).
  - by apply (wp_remove_At c).
  - by apply (queue_proxy_error_spec c).
Qed.

Lemma submit_recv_spec c s :
  At c s -> conn_generation c = g -> at_rest c -> proxy c = None -> static_stream c = None ->
  settles (submit_recv id) s.
Proof.
  intros H Hg Hrest Hp Hstr. pose proof (At_base c s H) as Hbase.
  pose proof Hrest as (Hr & Hw & _). pose proof (At_size c s H) as Hsize.
  unfold submit_recv. apply wp_bind. destruct s as [w u]. apply wp_gets.
  rewrite (At_lookup _ _ _ H).
  unfold matches_generation. simpl. rewrite Hg, N.eqb_refl, Hr. simpl.
  apply wp_bind, wp_gets. apply wp_bind, wp_unwrap_u32; [done|].
  apply (wp_push_At _ _ c); [done|done|done|by apply Receiving| |done].
  unfold activity, connection_id. simpl. by rewrite Hg.
Qed.

(** *** The upstream *)

(** The slot at rest in the middle of a proxy operation. *)
Definition proxying (p : UringProxy) (c : UringConnection) : Prop :=
  conn_generation c = g /\ at_rest c /\ static_stream c = None /\ proxy c = Some p /\
  request_in_range p.

Lemma proxying_put p f c :
  proxying p c -> operation_pending (f p) = false -> request_in_range (f p) ->
  proxying (f p) (set_proxy (Some (f p)) c).
Proof.
  intros (Hg & (Hr & Hw & Hp) & Hs & Hpr & Hrange) Hop Hrange'.
  split; [done|]. split; [|done]. do 2 (split; [done|]). by intros p' [= <-].
Qed.

Lemma wp_update_proxying f p c (Q : unit -> State -> Prop) R s :
  At c s -> proxying p c -> operation_pending (f p) = false -> request_in_range (f p) ->
  (forall c' s', At c' s' -> proxying (f p) c' -> Q tt s') -> wp (update_proxy k f) Q R s.
Proof.
  intros H Hp Hop Hrange HQ. pose proof Hp as (_ & Hrest & _ & Hpr & _).
  apply (wp_update_proxy_At f c p); [done|done|done|done|].
  intros s' H'. apply (HQ _ s' H'). by apply proxying_put.
Qed.

(** Push the entry of the upstream's phase, then mark the proxy. *)
Lemma wp_push_proxy e p c s :
  At c s -> proxying p c -> proxy_ok (set_operation_pending true p) ->
  activity (size_of s) k (set_proxy (Some (set_operation_pending true p)) c) = Some e ->
  settles (push_entry e;; update_proxy k (set_operation_pending true)) s.
Proof.
  intros H (Hg & Hrest & Hs & Hpr & Hrange) Hok Ha.
  pose proof (At_base c s H) as Hbase. pose proof Hrest as (Hr & Hw & _).
  assert (Hpush : settles (push_entry e;;
      update k (set_proxy (Some (set_operation_pending true p)))) s).
  { apply (wp_push_At _ _ c); [done|done|done| |done|done]. by eapply Proxying. }
  revert Hpush. destruct H as (H & Hk & _). unfold wp, mbind, Handler_bind.
  destruct s as [w [u inf h]]. unfold push_entry, mbind, Handler_bind, call, sys. simpl.
  destruct (submits u) as [rs u']. simpl.
  generalize (mkKernel u' inf h). intros kernel.
  destruct (for_all lift rs (mkState w kernel)) as [[] [w1 u1]|e1 s1|] eqn:E; try done.
  assert (w1 = w) as ->.
  { clear -E. revert E. induction rs as [|[[]|] rs IH]; simpl; [by intros [= <- <-]| |done].
    exact IH. }
  simpl. unfold update_proxy, update, index_proxy, index, mbind, Handler_bind. simpl in *.
  rewrite Hk. simpl. rewrite Hpr. simpl. by rewrite Hk.
Qed.

Lemma activity_proxy size c p :
  read_pending c = false -> write_pending c = false -> proxy c = Some p ->
  activity size k c =
  (if negb (operation_pending p) then None
   else
     fd ← upstream p;
     match phase p with
     | Resolving => None
     | Connecting => a ← address p; Some (connect_entry (connection_id k c) fd a)
     | WritingRequest =>
       Some (proxy_write_entry (connection_id k c) fd
               (drop (N.to_nat (request_offset p)) (proxy_buffer p)))
     | ReadingResponse => Some (proxy_read_entry (connection_id k c) fd size)
     end).
Proof. intros Hr Hw Hp. unfold activity. by rewrite Hr, Hw, Hp. Qed.

Lemma submit_proxy_connect_spec p c s :
  At c s -> proxying p c -> phase p = Connecting -> is_Some (upstream p) ->
  is_Some (address p) -> settles (submit_proxy_connect id) s.
Proof.
  intros H Hp Hph [fd Hfd] [a Ha]. pose proof Hp as (Hg & Hrest & _ & Hpr & Hrange).
  unfold submit_proxy_connect. apply wp_bind, (wp_index_proxy_At c p); [done|done|].
  apply wp_bind, (wp_unwrap _ fd); [done|]. apply wp_bind, (wp_unwrap _ a); [done|].
  apply (wp_push_proxy _ p c); [done|done| |].
  - split; [done|]. simpl. by rewrite Hph, Hfd, Ha.
  - destruct Hrest as (Hr & Hw & _). erewrite activity_proxy by done. simpl.
    rewrite Hfd, Hph. simpl. rewrite Ha. unfold connection_id. simpl. by rewrite Hg.
Qed.

Lemma submit_proxy_write_spec p c s :
  At c s -> proxying p c -> phase p = WritingRequest -> is_Some (upstream p) ->
  settles (submit_proxy_write id) s.
Proof.
  intros H Hp Hph [fd Hfd]. pose proof Hp as (Hg & Hrest & _ & Hpr & Hrange).
  unfold submit_proxy_write. apply wp_bind, (wp_index_proxy_At c p); [done|done|].
  apply wp_bind, uring_wp_slice_from; [done|]. apply wp_bind, wp_try_u32; [|done].
  apply wp_bind, (wp_unwrap _ fd); [done|].
  apply (wp_push_proxy _ p c); [done|done| |].
  - split; [done|]. simpl. by rewrite Hph, Hfd.
  - destruct Hrest as (Hr & Hw & _). erewrite activity_proxy by done. simpl.
    rewrite Hfd, Hph. simpl. unfold connection_id. simpl. by rewrite Hg.
Qed.

Lemma submit_proxy_read_spec p c s :
  At c s -> proxying p c -> phase p = ReadingResponse -> is_Some (upstream p) ->
  settles (submit_proxy_read id) s.
Proof.
  intros H Hp Hph [fd Hfd]. pose proof Hp as (Hg & Hrest & _ & Hpr & Hrange).
  pose proof (At_size c s H) as Hsize.
  unfold submit_proxy_read. apply wp_bind, (wp_index_proxy_At c p); [done|done|].
  apply wp_bind. destruct s as [w u]. apply wp_gets. apply wp_bind, wp_unwrap_u32; [done|].
  apply wp_bind, (wp_unwrap _ fd); [done|].
  apply (wp_push_proxy _ p c); [done|done| |].
  - split; [done|]. simpl. by rewrite Hph, Hfd.
  - destruct Hrest as (Hr & Hw & _). erewrite activity_proxy by done. simpl.
    rewrite Hfd, Hph. unfold connection_id. simpl. by rewrite Hg.
Qed.

Lemma try_addresses_spec l p c s :
  At c s -> proxying p c -> phase p = Connecting -> settles (try_addresses id l) s.
Proof.
  revert p c s. induction l as [|a l IH]; intros p c s H Hp Hph; simpl.
  - destruct Hp as (? & ? & _). by apply (queue_proxy_error_spec c).
  - pose proof Hp as (_ & Hrest & _ & Hpr & Hrange).
    assert (Hop : operation_pending p = false) by (by apply Hrest).
    apply wp_bind, (wp_update_proxying _ p c); [done|done|done|done|]. intros c1 s1 H1 Hp1.
    apply wp_bind, (wp_call_At _ c1); [done|]. intros [fd|e] s2 H2; [|by eapply IH].
    apply wp_bind, (wp_update_proxying _ _ c1 _ _ _ H2 Hp1); [done|done|]. intros c3 s3 H3 Hp3.
    apply wp_bind, (wp_call_At _ c3); [done|]. intros t s4 H4.
    apply wp_bind, (wp_update_proxying _ _ c3 _ _ _ H4 Hp3); [done|done|]. intros c5 s5 H5 Hp5.
    apply (submit_proxy_connect_spec _ c5 _ H5 Hp5); simpl; eauto.
Qed.

Lemma try_next_proxy_address_spec p c s :
  At c s -> proxying p c -> phase p = Connecting -> settles (try_next_proxy_address id) s.
Proof.
  intros H Hp Hph. unfold try_next_proxy_address. apply wp_bind, (wp_index_At c); [done|].
  by apply (try_addresses_spec _ p c).
Qed.

Lemma uring_start_proxy_spec url request body c s :
  At c s -> conn_generation c = g -> at_rest c -> static_stream c = None ->
  settles (start_proxy id url request body) s.
Proof.
  intros H Hg Hrest Hstr. unfold start_proxy.
  destruct (Proxy.parse url) as [up|e]; [|by apply (queue_proxy_error_spec c)].
  apply wp_bind. destruct s as [w u]. apply wp_gets. cbv zeta.
  case_match; [by apply (queue_proxy_error_spec c)|].
  apply wp_bind, wp_gets. rewrite (At_lookup _ _ _ H).
  apply wp_bind, (wp_call_At _ c); [done|]. intros t s1 H1.
  pose proof (At_base c _ H) as Hbase. pose proof Hrest as (Hr & Hw & _).
  assert (Hrest' : at_rest (set_proxy (Some (new_proxy (request_bytes up request body) t)) c)).
  { split; [done|]. split; [done|]. by intros p [= <-]. }
  apply wp_bind, (wp_update_At _ c); [done|done|by rewrite !at_rest_activity|].
  intros s2 H2. apply wp_bind. eapply wp_call_At; [exact H2|]. intros [[]|e] s3 H3.
  - apply wp_skip. eapply At_Done; [exact H3|]. eapply Proxying; try done.
    split; [|done]. unfold request_in_range. simpl. lia.
  - by eapply queue_proxy_error_spec.
Qed.

(** *** A request *)

Lemma static_head_ne directory request resp :
  static_stream_response directory request = Ok resp -> StaticFiles.head resp <> [].
Proof.
  unfold static_stream_response. intros H.
  repeat (case_match; simplify_eq/=; try done); inv_ok; repeat case_match; simplify_eq/=;
    inv_ok; repeat case_match; simplify_eq/=; done.
Qed.

Lemma respond_static_spec directory request c s :
  At c s -> conn_generation c = g -> at_rest c -> proxy c = None ->
  settles (respond_static id directory request) s.
Proof.
  intros H Hg Hrest Hp. unfold respond_static.
  destruct (static_stream_response directory request) as [resp|e] eqn:Hresp.
  - assert (Hcont : forall st s, At c s ->
      settles (queue_static_response id (StaticFiles.head resp) st) s).
    { intros st s1 H1. unfold queue_static_response.
      assert (Hrest' : at_rest (set_static_stream st c)) by done.
      pose proof (At_base c _ H1) as Hbase.
      apply wp_bind, (wp_update_At _ c); [done|done|by rewrite !at_rest_activity|].
      intros s2 H2. apply (send_response_spec _ _ _ H2); try done; [by left|].
      by intros E%(static_head_ne _ _ _ Hresp). }
    apply wp_bind. destruct (stream resp); [|by apply wp_ret, Hcont].
    apply wp_bind, (wp_call_At _ c); [done|]. intros st s1 H1. by apply wp_ret, Hcont.
  - apply (send_response_spec c); try done; [by left|].
    intros E. exfalso. revert E. unfold static_error_response. by destruct e.
Qed.

Lemma uring_respond_proxy_spec action request body c s :
  At c s -> conn_generation c = g -> at_rest c -> static_stream c = None ->
  action_wf (groups (balancer (worker s))) action ->
  settles (respond_proxy id action request body) s.
Proof.
  intros H Hg Hrest Hstr Ha. unfold respond_proxy. apply wp_bind. destruct s as [w u].
  apply wp_gets.
  destruct (select_wf (balancer w) action) as (b & r & E & Hgr & _); [|done|].
  { apply (ok_groups _ _ (inv_world _ _ _ _ _ (proj1 H))). }
  apply wp_bind, (wp_unwrap _ (b, r)); [done|]. apply wp_bind, wp_modify.
  assert (H1 : At c (mkState (set_balancer b w) u)).
  { apply (At_frame c _ _ H); try done. unfold frame. simpl. by rewrite Hgr. }
  destruct r; [by apply (uring_start_proxy_spec _ _ _ c)|by apply (queue_proxy_error_spec c)].
Qed.

Lemma limited_ne max r : r <> [] -> limited max r <> [].
Proof. unfold limited. case_match; [intros _; apply response_bytes_ne|done]. Qed.

Lemma prepare_response_spec c s :
  At c s -> conn_generation c = g -> at_rest c -> static_stream c = None -> proxy c = None ->
  is_Some (request c) -> settles (prepare_response id) s.
Proof.
  intros H Hg Hrest Hstr Hp [r Hr]. unfold prepare_response. apply wp_bind.
  apply (wp_current_At _ c); [done|done|done|]. rewrite Hr. apply wp_bind.
  destruct s as [w u]. apply wp_gets.
  destruct (listeners w !! _) as [l|]; [|by apply (wp_remove_At c)].
  apply wp_bind, wp_gets. apply wp_bind, wp_gets. cbv zeta.
  destruct (servers w !! _) as [server|] eqn:Hserver; simpl.
  - destruct (route server _) as [a|] eqn:Hroute.
    + assert (Ha : action_wf (groups (balancer w)) a).
      { eapply route_action_wf; [|done|done].
        apply (ok_servers _ _ (inv_world _ _ _ _ _ (proj1 H))). }
      destruct a; [by apply (uring_respond_proxy_spec _ _ _ c)|by apply (respond_static_spec _ _ c)|].
      apply (send_response_spec c); try done; [by left|].
      intros E. exfalso. by apply limited_ne in E; [|apply response_bytes_ne].
    + apply (send_response_spec c); try done; [by left|].
      intros E. exfalso. by apply limited_ne in E; [|apply response_bytes_ne].
  - apply (send_response_spec c); try done; [by left|].
    intros E. exfalso. by apply limited_ne in E; [|apply response_bytes_ne].
Qed.

Lemma uring_complete_request_spec c s :
  At c s -> conn_generation c = g -> at_rest c -> static_stream c = None -> proxy c = None ->
  settles (complete_request id) s.
Proof.
  intros H Hg Hrest Hstr Hp. unfold complete_request. apply wp_bind, (wp_index_At c); [done|].
  destruct (pending_request c) as [r|] eqn:Hr; [|by apply (submit_recv_spec c)].
  case_match eqn:Hle; [|by apply (submit_recv_spec c)]. apply N.leb_le in Hle.
  pose proof (At_base c _ H) as (Hssl & Hk & Hgen & Hoff & Hpend).
  unfold slice_range. apply wp_bind. rewrite (proj2 (N.ltb_ge _ _)) by (by apply Hpend).
  rewrite (proj2 (N.ltb_ge _ _)) by done. apply wp_ret. apply wp_bind.
  apply (wp_update_At _ c); [done|do 4 (split; [done|]); done|by rewrite !at_rest_activity|].
  intros s1 H1. apply wp_bind. eapply wp_metric_At; [exact H1|]. intros s2 H2.
  by apply (prepare_response_spec _ _ H2).
Qed.

Lemma examine_head_in_range max b r :
  examine_head max b = HeadPending r -> body_start r <= body_end r.
Proof.
  unfold examine_head. repeat (case_match; try done). intros [= <-]. simpl.
  match goal with H : checked_add _ _ _ = Some _ |- _ => unfold checked_add in H end.
  case_match; [|done]. simplify_eq. lia.
Qed.

Lemma receive_plaintext_spec b c s :
  At c s -> conn_generation c = g -> at_rest c -> static_stream c = None -> proxy c = None ->
  settles (receive_plaintext id b) s.
Proof.
  intros H Hg Hrest Hstr Hp. unfold receive_plaintext.
  apply wp_bind, (wp_current_At _ c); [done|done|done|].
  apply wp_bind, (wp_metric_At _ c); [done|]. intros [w u] H1. apply wp_bind, wp_gets.
  cbv zeta. case_match eqn:Hbig; [by apply (queue_http_error_spec c)|]. clear Hbig.
  pose proof (At_base c _ H) as (Hssl & Hk & Hgen & Hoff & Hpend).
  apply wp_bind, (wp_update_At _ c); [done|by do 4 (split; [done|])|by rewrite !at_rest_activity|].
  intros s2 H2. apply wp_bind. eapply wp_index_At; [exact H2|]. simpl.
  case_match eqn:Hhead.
  - by apply (uring_complete_request_spec _ _ H2).
  - by apply (queue_http_error_spec _ _ _ _ H2).
  - assert (Hrange : body_start request <= body_end request).
    { destruct (pending_request c); [done|]. by eapply examine_head_in_range. }
    apply wp_bind. eapply wp_update_At; [exact H2| | |].
    + do 4 (split; [done|]). simpl. by intros r [= <-].
    + by rewrite !at_rest_activity.
    + intros s3 H3. by apply (uring_complete_request_spec _ _ H3).
Qed.

Lemma uring_advance_static_stream_spec c s :
  At c s -> conn_generation c = g -> at_rest c -> proxy c = None ->
  is_Some (static_stream c) -> write_buffer c = [] -> write_offset c = 0 ->
  settles (advance_static_stream id) s.
Proof.
  intros H Hg Hrest Hp [st Hst] Hbuf Hoff. unfold advance_static_stream.
  apply wp_bind, (wp_index_At c); [done|]. apply wp_bind, (wp_unwrap _ st); [done|].
  apply wp_bind, (wp_call_At _ c); [done|]. intros r s1 H1.
  destruct r as [[b| |]|err].
  - apply (send_response_spec c); try done; [by left|]. intros _. split; [congruence|done].
  - apply wp_skip, (At_Done c); [done|]. destruct Hrest as (? & ? & _).
    apply Streaming; try done. congruence.
  - apply wp_bind, (wp_metric_At _ c); [done|]. intros s2 H2. by apply (wp_remove_At c).
  - apply wp_bind, (wp_metric_At _ c); [done|]. intros s2 H2. by apply (wp_remove_At c).
Qed.

(** A drained response ends the connection, or goes on with the next chunk. *)
Lemma response_drained_spec c s :
  At c s -> conn_generation c = g -> at_rest c -> may_send c ->
  settles (response_drained id) s.
Proof.
  intros H Hg Hrest Hmay. unfold response_drained. apply wp_bind, (wp_index_At c); [done|].
  pose proof (At_base c _ H) as (Hssl & Hk & Hgen & Hoff & Hpend).
  assert (Hbase' : base k (queue_response [] c)) by (by do 4 (split; [done|])).
  assert (Hrest' : at_rest (queue_response [] c)) by done.
  destruct (static_stream c) as [st|] eqn:Hst.
  - destruct Hmay as [Hp|(? & _)]; [|congruence].
    apply wp_bind, (wp_update_At _ c); [done|done|by rewrite !at_rest_activity|].
    intros s1 H1. by eapply uring_advance_static_stream_spec.
  - destruct (proxy c) as [p|] eqn:Hp.
    + destruct Hmay as [|(_ & p' & Hp' & (Hph & Hop & _ & Hup) & Hrange)]; [congruence|].
      assert (p' = p) as -> by congruence.
      apply wp_bind, (wp_update_At _ c); [done|done|by rewrite !at_rest_activity|].
      intros s1 H1. apply wp_bind. eapply wp_call_At; [exact H1|]. intros t s2 H2.
      apply wp_bind. eapply (wp_update_proxying _ p); [exact H2|done|done|done|].
      intros c3 s3 H3 Hp3. by apply (submit_proxy_read_spec _ c3 _ H3 Hp3).
    + rewrite Hssl. apply wp_bind, (wp_metric_At _ c); [done|]. intros s2 H2.
      by apply (wp_remove_At c).
Qed.

End Slot.

(** ** Completions *)

Section Completion.

Context (lent : list (N * bytes)) (owed others : list Entry) (e : Entry).
Context (k : N) (c : UringConnection).

Notation id := (connection_id k c).
Notation settles m s :=
  (wp m (fun _ s' => Inv None lent owed others s' /\ grows s s') (fun _ => True) s).

(** The completion of the entry of slot [k] is being handled. *)
Definition completes (s : State) : Prop :=
  Inv None lent (e :: owed) others s /\ connections (worker s) !! k = Some c /\
  activity (size_of s) k c = Some e.

Lemma completes_take c' s :
  completes s -> at_rest c' -> base k c' ->
  At lent owed others k s c'
    (mkState (set_connections (<[k := c']> (connections (worker s))) (worker s)) (world s)).
Proof.
  intros (H & Hk & Ha) Hrest Hb. destruct H as [Hw Hbase Hmode Ho He]. split; [|split].
  - constructor; simpl.
    + by apply (world_ok_frame _ s).
    + intros j d. destruct (decide (j = k)) as [->|Hne].
      * rewrite lookup_insert_eq. by intros [= <-].
      * rewrite lookup_insert_ne by done. apply Hbase.
    + intros j d Hj Hne. rewrite lookup_insert_ne in Hj by congruence. by apply (Hmode j).
    + done.
    + rewrite activities_insert, at_rest_activity by done. simpl.
      rewrite (activities_delete _ _ k c Hk) in He. unfold size_of in Ha. rewrite Ha in He.
      simpl in He. rewrite <- Permutation_middle in He. by apply Permutation_cons_inv in He.
  - simpl. by rewrite lookup_insert_eq.
  - split; [done|]. simpl. by rewrite delete_insert_eq.
Qed.

Lemma wp_update_take f (Q : unit -> State -> Prop) R s :
  completes s -> at_rest (f c) -> base k (f c) ->
  (forall s', At lent owed others k s (f c) s' -> Q tt s') -> wp (update k f) Q R s.
Proof.
  intros H Hrest Hb HQ. pose proof (completes_take (f c) s H Hrest Hb) as H'.
  destruct H as (_ & Hk & _). destruct s as [w u]. apply (uring_wp_update k f c); [done|].
  by apply HQ.
Qed.

Lemma completes_mode s : completes s -> Mode c.
Proof. intros (H & Hk & _). by apply (inv_mode _ _ _ _ _ H k c Hk). Qed.

Lemma completes_base s : completes s -> base k c.
Proof. intros (H & Hk & _). by apply (inv_base _ _ _ _ _ H k c Hk). Qed.

Lemma wp_current_completes (Q : option UringConnection -> State -> Prop) R s :
  completes s -> Q (Some c) s -> wp (current id) Q R s.
Proof.
  intros (_ & Hk & _) HQ. destruct s as [w u]. apply uring_wp_current.
  by rewrite (proj2 (current_in_Some w id c)).
Qed.

(** What a handler proves of its slot is what it leaves. *)
Lemma settles_done (m : M unit) s0 s :
  grows s0 s ->
  wp m (fun _ => Done lent owed others k s) (fun _ => True) s ->
  wp m (fun _ s' => Inv None lent owed others s' /\ grows s0 s') (fun _ => True) s.
Proof.
  intros Hg H. eapply wp_mono; [exact H| |done]. intros a s' [? Ht%touches_grows].
  split; [done|]. by eapply grows_trans.
Qed.

(** *** The client's operations *)

Lemma handle_write_completion_spec result s :
  completes s -> read_pending c = false -> write_pending c = true ->
  (result <= Z.of_N (len (write_buffer c) - write_offset c))%Z ->
  settles (handle_write_completion (mkOperationId k (conn_generation c) Write) result) s.
Proof.
  intros H Hr Hw Hres. pose proof (completes_base s H) as Hbase.
  assert (Hmode : write_offset c < len (write_buffer c) /\ may_send c).
  { destruct (completes_mode s H); congruence || done. }
  destruct Hmode as [Hlt Hmay].
  assert (Hrest : at_rest (mark_write_completed c)).
  { split; [done|]. split; [done|]. simpl. intros p Hp.
    destruct Hmay as [|(_ & p' & Hp' & Hrel & _)]; [congruence|].
    replace p with p' by congruence. apply Hrel. }
  unfold handle_write_completion. simpl. apply wp_bind, wp_current_completes; [done|].
  apply (settles_done _ s s); [done|]. apply wp_bind, wp_update_take; [done|done|done|]. intros s1 H1.
  case_match eqn:Hneg; [|case_match eqn:Hzero].
  - case_match; [|by eapply wp_remove_At].
    eapply submit_send_spec; try done. simpl. intros E. exfalso. simpl in E. lia.
  - by eapply wp_remove_At.
  - apply wp_bind. eapply wp_metric_At; [exact H1|]. intros s2 H2.
    pose proof Hbase as (Hssl & Hk & Hgen & Hoff & Hpend).
    unfold unsent, sent. rewrite Hssl. rewrite (proj2 (N.ltb_ge _ _)) by lia.
    set (c3 := add_write_offset (Z.to_N result) (mark_write_completed c)).
    assert (Hb3 : base k c3) by (do 3 (split; [done|]); split; [simpl; lia|done]).
    assert (Hrest3 : at_rest c3) by done.
    apply wp_bind. apply (wp_update_At _ _ _ _ _ _ _ _ _ _ H2).
    + simpl. by rewrite Hssl.
    + simpl. rewrite Hssl. fold c3. by rewrite !at_rest_activity.
    + simpl. rewrite Hssl. fold c3. intros s3 H3. apply wp_bind.
      eapply wp_index_At; [exact H3|]. unfold output_drained. simpl. rewrite Hssl.
      case_match eqn:Hend; [by eapply response_drained_spec|].
      apply (submit_send_spec _ _ _ _ _ _ _ _ H3); try done.
      apply N.eqb_neq in Hend. done.
Qed.

(** *** The upstream's operations *)

(** The upstream's operation has completed. *)
Lemma wp_take_proxy p (Q : unit -> State -> Prop) R s :
  completes s -> proxy c = Some p -> operation_pending p = true ->
  (forall c' s', At lent owed others k s c' s' ->
     proxying (conn_generation c) (set_operation_pending false p) c' -> Q tt s') ->
  wp (update_proxy k (set_operation_pending false)) Q R s.
Proof.
  intros H Hp Hop HQ. pose proof H as (_ & Hk & _). pose proof (completes_base s H) as Hb.
  set (c' := set_proxy (Some (set_operation_pending false p)) c).
  assert (Hc' : proxying (conn_generation c) (set_operation_pending false p) c').
  { destruct (completes_mode s H) as
      [| _ _ _ [Hn|(_ & p' & Hp' & (_ & Hop' & _) & _)]| |p' Hr Hw Hst Hp' (Hrange & _)];
      try congruence.
    assert (p' = p) as -> by congruence. split; [done|].
    split; [|done]. split; [done|]. split; [done|]. by intros p' [= <-]. }
  pose proof Hc' as (_ & Hrest & _).
  pose proof (completes_take c' s H Hrest Hb) as H'.
  destruct s as [w u]. apply (uring_wp_update_proxy k _ c p); [done|done|]. by apply (HQ c').
Qed.

Lemma wp_current_proxy p (Q : option UringProxy -> State -> Prop) R s :
  completes s -> proxy c = Some p -> Q (Some p) s ->
  wp (current_proxy id) Q R s.
Proof.
  intros (_ & Hk & _) Hp HQ. destruct s as [w u]. unfold current_proxy. apply wp_gets.
  by rewrite (proj2 (current_in_Some w id c)); simpl; rewrite ?Hp.
Qed.

Lemma handle_proxy_connect_spec p result s :
  completes s -> proxy c = Some p -> operation_pending p = true -> phase p = Connecting ->
  is_Some (upstream p) ->
  settles (handle_proxy_connect (mkOperationId k (conn_generation c) ProxyConnect) result) s.
Proof.
  intros H Hp Hop Hph Hup. unfold handle_proxy_connect. simpl.
  apply wp_bind, (wp_current_proxy p); [done|done|]. apply (settles_done _ s s); [done|].
  apply wp_bind, (wp_take_proxy p); [done|done|done|]. intros c1 s1 H1 Hp1.
  pose proof Hp1 as (Hg1 & Hrest1 & _ & Hpr1 & Hrange1).
  case_match eqn:Hcase1; [by eapply fail_proxy_spec|].
  case_match eqn:Hcase2; [by eapply try_next_proxy_address_spec|].
  apply wp_bind. eapply wp_call_At; [exact H1|]. intros t s2 H2.
  apply wp_bind. eapply wp_update_proxying; [exact H2|exact Hp1|done|done|].
  intros c3 s3 H3 Hp3. by eapply submit_proxy_write_spec.
Qed.

Lemma handle_proxy_write_spec p result s :
  completes s -> proxy c = Some p -> operation_pending p = true ->
  phase p = WritingRequest -> is_Some (upstream p) ->
  settles (handle_proxy_write (mkOperationId k (conn_generation c) ProxyWrite) result) s.
Proof.
  intros H Hp Hop Hph Hup. unfold handle_proxy_write. simpl.
  apply wp_bind, (wp_current_proxy p); [done|done|]. apply (settles_done _ s s); [done|].
  apply wp_bind, (wp_take_proxy p); [done|done|done|]. intros c1 s1 H1 Hp1.
  pose proof Hp1 as (Hg1 & Hrest1 & _ & Hpr1 & Hrange1). unfold request_in_range in Hrange1.
  case_match eqn:Hcase3; [by eapply fail_proxy_spec|].
  case_match eqn:Hcase4; [case_match eqn:Hcase5; [by eapply submit_proxy_write_spec|by eapply fail_proxy_spec]|].
  case_match eqn:Hcase6; [by eapply fail_proxy_spec|].
  apply wp_bind. eapply wp_metric_At; [exact H1|]. intros s2 H2.
  destruct (N.ltb_spec (len (proxy_buffer p) - request_offset p) (Z.to_N result)) as [|Hle];
    [by eapply fail_proxy_spec|].
  apply wp_bind. eapply wp_update_proxying; [exact H2|exact Hp1|done| |].
  { unfold request_in_range. simpl in *. lia. }
  intros c3 s3 H3 Hp3. apply wp_bind. eapply wp_call_At; [exact H3|]. intros t s4 H4.
  apply wp_bind. eapply wp_update_proxying; [exact H4|exact Hp3|done|apply Hp3|].
  intros c5 s5 H5 Hp5. case_match eqn:Hcase7; [|by eapply submit_proxy_write_spec].
  apply wp_bind. eapply wp_call_At; [exact H5|]. intros t' s6 H6.
  apply wp_bind. eapply wp_update_proxying; [exact H6|exact Hp5|done|apply Hp5|].
  intros c7 s7 H7 Hp7. by eapply submit_proxy_read_spec.
Qed.

(** *** Receives *)

(** The bytes of a receive, its buffer given back. *)
Definition received (cqe : Cqe) : option bytes :=
  if (0 <? cqe_result cqe)%Z then snd <$> cqe_buffer cqe else None.

(** What the kernel promises of a receive. *)
Definition receive_ok (cqe : Cqe) : Prop :=
  ((0 < cqe_result cqe)%Z -> cqe_buffer cqe <> None) /\
  forall id b, cqe_buffer cqe = Some (id, b) -> len b = Z.to_N (cqe_result cqe).

Lemma copy_and_release_spec (Q : io_result bytes -> State -> Prop) R lent' id b owed' s :
  Inv None ((id, b) :: lent') owed' others s ->
  (forall r, let s' := mkState (set_buffer_ring r (worker s)) (world s) in
     Inv None lent' owed' others s' -> Q (Ok b) s') ->
  wp (copy_and_release id (len b)) Q R s.
Proof.
  intros H HQ. unfold copy_and_release. destruct s as [w u]. apply wp_bind, wp_gets.
  destruct H as [[H1 H2 H3 H4 H5 H6 (l & p & Hl & Himpl)] Hbase Hmode Ho He]. simpl in *.
  assert (Hin : (id, b) ∈ l) by (rewrite Hl; left).
  apply list_elem_of_split in Hin as (l1 & l2 & ->).
  destruct (BufferRing.give_back_implements _ _ _ _ _ _ Himpl eq_refl)
    as (r' & p' & E & _ & Himpl'). simpl in E.
  apply wp_bind, (wp_unwrap _ (Ok b, r')); [done|]. apply wp_bind, wp_modify, wp_ret.
  apply HQ. constructor; simpl; try done. constructor; simpl; try done.
  exists (l1 ++ l2), p'. split; [|done].
  rewrite <- Permutation_middle in Hl. by apply Permutation_cons_inv in Hl.
Qed.

Lemma take_received_spec cqe lent' owed' (Q : option bytes -> State -> Prop) R s :
  Inv None (option_list (cqe_buffer cqe) ++ lent') owed' others s -> receive_ok cqe ->
  (forall s', Inv None lent' owed' others s' ->
     connections (worker s') = connections (worker s) -> size_of s' = size_of s ->
     grows s s' -> Q (received cqe) s') ->
  wp (take_received (cqe_result cqe) (fst <$> cqe_buffer cqe)) Q R s.
Proof.
  intros H [Hsome Hlen] HQ. unfold take_received, received in *.
  destruct (Z.ltb_spec 0 (cqe_result cqe)) as [Hpos|Hneg].
  - destruct (cqe_buffer cqe) as [[id b]|]; [|by destruct (Hsome Hpos)]. simpl in *.
    apply wp_bind. rewrite <- (Hlen id b eq_refl).
    eapply copy_and_release_spec; [exact H|]. intros r s' H'.
    apply wp_bind, wp_lift; [|done]. intros b' [= <-]. by apply wp_ret, HQ.
  - apply wp_bind. destruct (cqe_buffer cqe) as [[id b]|]; simpl in *.
    + pose proof (Hlen id b eq_refl) as Hb. replace (Z.to_N _) with 0 in Hb by lia.
      apply wp_bind. rewrite <- Hb. eapply copy_and_release_spec; [exact H|]. intros r s' H'.
      apply wp_bind, wp_lift; [|done]. intros b' _. by apply wp_skip, wp_ret, HQ.
    + by apply wp_skip, wp_ret, HQ.
Qed.

Lemma handle_read_completion_spec cqe s :
  Inv None (option_list (cqe_buffer cqe) ++ lent) (e :: owed) others s ->
  connections (worker s) !! k = Some c -> activity (size_of s) k c = Some e ->
  receive_ok cqe -> read_pending c = true ->
  settles (handle_read_completion (mkOperationId k (conn_generation c) Read)
             (cqe_result cqe) (fst <$> cqe_buffer cqe)) s.
Proof.
  intros H0 Hk0 Ha0 Hok Hr. unfold handle_read_completion. simpl.
  apply wp_bind, (take_received_spec cqe lent (e :: owed)); [done|done|]. intros s1 H1 E1 E2 Hgrow.
  assert (H : completes s1) by (split; [done|]; by rewrite E1, E2).
  apply (settles_done _ s s1); [done|]. apply wp_bind, wp_current_completes; [done|].
  destruct (completes_mode s1 H) as [_ Hw Hp Hstr| | |]; [|congruence..].
  pose proof (completes_base s1 H) as (Hssl & Hk & Hgen & Hoff & Hpend).
  assert (Hrest : at_rest (mark_read_completed c)).
  { do 2 (split; [done|]). simpl. congruence. }
  apply wp_bind, wp_update_take; [done|done|by do 4 (split; [done|])|]. intros s2 H2.
  destruct (Z.leb_spec (cqe_result cqe) 0) as [Hle|Hpos].
  - case_match eqn:Hcase8; [by eapply submit_recv_spec|by eapply wp_remove_At].
  - destruct Hok as [Hsome _]. unfold received.
    destruct (cqe_buffer cqe) as [[id b]|]; [|by destruct (Hsome Hpos)].
    rewrite (proj2 (Z.ltb_lt _ _)) by done. simpl.
    rewrite Hssl. apply wp_bind, wp_ret.
    destruct b; [by eapply submit_recv_spec|by eapply receive_plaintext_spec].
Qed.

Lemma handle_proxy_read_spec cqe p s :
  Inv None (option_list (cqe_buffer cqe) ++ lent) (e :: owed) others s ->
  connections (worker s) !! k = Some c -> activity (size_of s) k c = Some e ->
  receive_ok cqe -> proxy c = Some p -> operation_pending p = true ->
  phase p = ReadingResponse -> is_Some (upstream p) ->
  settles (handle_proxy_read (mkOperationId k (conn_generation c) ProxyRead)
             (cqe_result cqe) (fst <$> cqe_buffer cqe)) s.
Proof.
  intros H0 Hk0 Ha0 Hok Hp Hop Hph Hup. unfold handle_proxy_read. simpl.
  apply wp_bind, (take_received_spec cqe lent (e :: owed)); [done|done|]. intros s1 H1 E1 E2 Hgrow.
  assert (H : completes s1) by (split; [done|]; by rewrite E1, E2).
  apply (settles_done _ s s1); [done|]. destruct s1 as [w1 u1]. apply wp_bind, wp_gets.
  apply wp_bind, (wp_current_proxy p); [done|done|].
  apply wp_bind, (wp_take_proxy p); [done|done|done|]. intros c2 s2 H2 Hp2.
  pose proof Hp2 as (Hg2 & Hrest2 & Hstr2 & Hpr2 & Hrange2).
  destruct (timed_out p) eqn:Htimed; [by eapply fail_proxy_spec|].
  case_match eqn:Hcase9; [case_match eqn:Hcase10; [by eapply submit_proxy_read_spec|by eapply fail_proxy_spec]|].
  case_match eqn:Hcase11; [apply wp_bind; eapply wp_metric_At; [exact H2|]; intros s3 H3;
               by eapply wp_remove_At|].
  destruct Hok as [Hsome Hlen]. unfold received. rewrite (proj2 (Z.ltb_lt _ _)) by lia.
  destruct (cqe_buffer cqe) as [[id b]|]; [|by destruct Hsome; [lia|]]. simpl.
  specialize (Hlen id b eq_refl).
  apply wp_bind, wp_ret.
  apply wp_bind. eapply wp_metric_At; [exact H2|]. intros s3 H3.
  case_match eqn:Hcase12; [by eapply fail_proxy_spec|].
  apply wp_bind. eapply wp_update_proxying; [exact H3|exact Hp2|done|done|].
  intros c4 s4 H4 Hp4. apply wp_bind. eapply wp_call_At; [exact H4|]. intros t s5 H5.
  apply wp_bind. eapply wp_update_proxying; [exact H5|exact Hp4|done|apply Hp4|].
  intros c6 s6 H6 (Hg6 & Hrest6 & Hstr6 & Hpr6 & Hrange6).
  eapply send_response_spec; [exact H6|done|done| |].
  - right. split; [done|]. eexists. split; [exact Hpr6|]. split; [|done].
    split; [done|]. split; [done|]. by split.
  - intros ->. exfalso. rewrite len_nil in Hlen. lia.
Qed.

End Completion.

End Invariant.
