(* ===== verification/UringScript.v ===== *)
(** * A scripted world for the io_uring worker

    A concrete environment and a concrete kernel for the runs that witness the
    theorems of the io_uring worker. *)

From S2P Require Import Prelude RustStd Config Http Router LoadBalancer StaticFiles Runtime Handler Operation BufferRing UringConnection Uring UringInv.

Import Uring.

Local Open Scope N_scope.

(** A clock that advances with each reading, and whether to stop. *)
Record UringScript := mkUringScript {
  us_time : N;
  us_stopping : bool;
  us_resolved : list (ConnectionId * io_result (list SocketAddr));
}.

(** A TLS session of the script: whether it has records to write, and the plaintext
    it has decrypted; every record it takes is the plaintext itself, and asks for an
    answer. *)
#[export] Instance uring_script_env : UringEnv := {
  World := UringScript; Ssl := bool * bytes; SslConfig := unit; Stream := list StaticChunk;
  now w := (us_time w, mkUringScript (us_time w + 1) (us_stopping w) (us_resolved w));
  submits w := ([Ok tt], w);
  submit w := (Ok tt, w);
  sys_socket d w := (mkSysCall 1000 OtherKind, w);
  shutdown_is_requested w := (us_stopping w, w);
  shutdown_request w := (tt, mkUringScript (us_time w) true (us_resolved w));
  resolver_resolve id a w := (Ok tt, w);
  resolver_drain w := (us_resolved w, mkUringScript (us_time w) (us_stopping w) []);
  ssl_new c w := (Ok (false, []), w);
  ssl_config_handshake_timeout c := 0;
  read_tls s b := (Ok (len b), (true, s.2 ++ b));
  process_new_packets s := (Ok tt, s);
  reader_read_to_end s := ((s.2, Ok tt), (s.1, []));
  writer_write s b := (Ok (len b), (true, s.2));
  write_tls s := (Ok (str "record"), (false, s.2));
  wants_write s := s.1;
  is_handshaking s := true;
  send_close_notify s := (true, s.2);
  spawn_stream a w := ([Finished], w);
  stream_try_next s w := (Ok (match s with c :: _ => c | [] => Finished end), w);
  vacant_key keys w := (next_key keys, w);
}.

#[export] Instance uring_script_ok : UringEnvOk uring_script_env.
Proof. constructor. intros keys w k w' [= <- _]. apply next_key_fresh. Qed.

Section Script.

Context {fs : Filesystem} {mime : MimeGuess}.

Notation State := (State IoUringWorker Kernel).

(** The kernel completes the [n]th entry in flight. *)
Definition complete (n : nat) (result : Z) (more : bool) (buffer : option bytes) (s : State) :
    option ((Cqe * Entry) * State) :=
  e ← in_flight (world s) !! n;
  '(selected, r, h) ←
    (match buffer with
     | None => Some (None, buffer_ring (worker s), buffer_head (world s))
     | Some b =>
       '(id, h) ← BufferRing.kernel_take (buffer_head (world s)) (buffer_ring (worker s));
       if len b <=? BufferRing.buffer_len (buffer_ring (worker s))
       then Some (Some (id, b), BufferRing.fill id b (buffer_ring (worker s)), h) else None
     end);
  let cqe := mkCqe (user_data e) result more selected in
  Some ((cqe, e),
        mkState (set_buffer_ring r (worker s))
          (mkKernel (outside (world s))
             (if more then take n (in_flight (world s)) ++ e :: drop (S n) (in_flight (world s))
              else take n (in_flight (world s)) ++ drop (S n) (in_flight (world s))) h)).

Lemma complete_serve n result more buffer s x s' :
  complete n result more buffer s = Some (x, s') -> admissible (op x.2) x.1 -> serve s x s'.
Proof.
  unfold complete. destruct (in_flight (world s) !! n) as [e|] eqn:He; [|done]. simpl.
  intros H Hadm.
  assert (Hsel : exists selected r h, x = (mkCqe (user_data e) result more selected, e) /\
    selects (buffer_ring (worker s)) (buffer_head (world s)) selected r h /\
    s' = mkState (set_buffer_ring r (worker s))
          (mkKernel (outside (world s))
             (if more then take n (in_flight (world s)) ++ e :: drop (S n) (in_flight (world s))
              else take n (in_flight (world s)) ++ drop (S n) (in_flight (world s))) h)).
  { destruct buffer as [b|]; simpl in H.
    - destruct (BufferRing.kernel_take _ _) as [[id h]|] eqn:Ht; [|done]. simpl in H.
      destruct (N.leb_spec (len b) (BufferRing.buffer_len (buffer_ring (worker s)))); [|done].
      injection H as <- <-. eexists _, _, _. split; [done|]. split; [|done]. by constructor.
    - injection H as <- <-. eexists _, _, _. split; [done|]. split; [|done]. constructor. }
  destruct Hsel as (selected & r & h & -> & Hsel & ->). apply serve_entry; try done.
  by rewrite take_drop_middle.
Qed.

(** [admissible], executed. *)
Definition admissibleb (o : Op) (cqe : Cqe) : bool :=
  let alone := bool_decide (cqe_buffer cqe = None) && negb (cqe_more cqe) in
  match o with
  | OpAccept _ multishot =>
    bool_decide (cqe_buffer cqe = None)
    && implb (cqe_more cqe) (multishot && (0 <=? cqe_result cqe)%Z)
  | OpSend _ b => alone && (cqe_result cqe <=? Z.of_N (len b))%Z
  | OpRecv _ _ =>
    negb (cqe_more cqe) &&
    match cqe_buffer cqe with
    | Some (_, b) => len b =? Z.to_N (cqe_result cqe)
    | None => (cqe_result cqe <=? 0)%Z
    end
  | OpConnect _ _ | OpRead _ | OpAsyncCancel _ => alone
  end.

Lemma admissibleb_ok o cqe : admissibleb o cqe = true -> admissible o cqe.
Proof.
  unfold admissibleb, admissible. destruct o; rewrite ?andb_true_iff, ?bool_decide_eq_true,
    ?negb_true_iff, ?Z.leb_le; try tauto.
  - intros [-> H]. split; [done|]. intros Em. rewrite Em in H. simpl in H.
    apply andb_true_iff in H as [-> H%Z.leb_le]. done.
  - intros [-> H]. split; [done|]. destruct (cqe_buffer cqe) as [[id b]|].
    + apply N.eqb_eq in H. split; [done|]. by intros id' b' [= <- <-].
    + apply Z.leb_le in H. split; [lia|done].
Qed.

(** An iteration in which the kernel completes one entry. *)
Definition iterate (n : nat) (result : Z) (more : bool) (buffer : option bytes) (s : State) :
    option State :=
  match before_wait s with
  | Ret false s1 =>
    '(x, s2) ← complete n result more buffer s1;
    if admissibleb (op x.2) x.1 then
      match after_wait [x.1] s2 with Ret _ s3 => Some s3 | _ => None end
    else None
  | _ => None
  end.

Lemma iterate_reachable n result more buffer s0 s s' :
  reachable s0 s -> iterate n result more buffer s = Some s' -> reachable s0 s'.
Proof.
  unfold iterate. intros Hs H. destruct (before_wait s) as [[] s1| |] eqn:Hb; try done.
  destruct (complete n result more buffer s1) as [[x s2]|] eqn:Hc; [|done]. simpl in H.
  destruct (admissibleb (op x.2) x.1) eqn:Hadm; [|done].
  destruct (after_wait [x.1] s2) as [[] s3| |] eqn:Ha; try done. injection H as <-.
  eapply (reachable_iteration _ _ _ [x]); [exact Hs|exact Hb| |exact Ha].
  eapply serves_cons; [|constructor]. eapply complete_serve; [exact Hc|].
  by apply admissibleb_ok.
Qed.

(** One more iteration of a run. *)
Definition then_iterate (n : nat) (result : Z) (more : bool) (buffer : option bytes)
    (s : option State) : option State :=
  match s with Some s => iterate n result more buffer s | None => None end.

Lemma then_iterate_reachable n result more buffer (P : State -> Prop) o s :
  (forall s, o = Some s -> exists s0, P s0 /\ reachable s0 s) ->
  then_iterate n result more buffer o = Some s -> exists s0, P s0 /\ reachable s0 s.
Proof.
  intros Ho H. destruct o as [s1|]; [|done]. destruct (Ho s1 eq_refl) as (s0 & H0 & Hs).
  exists s0. split; [done|]. by eapply iterate_reachable.
Qed.

End Script.

(** A server that answers every request, and a worker with one plain listener. *)
Definition example_server : Server :=
  mkServer None [mkLocation (Config.Prefix (str "/")) (Response 200 (str "hello"))]
    (SocketAddrV4 0 80) None.

Definition example_answers : Startup := {|
  s_build := Ok tt; s_register_probe := Ok (fun _ => true);
  s_page_size := Ok 4096; s_allocate := fun _ => true; s_register_ring := Ok tt;
  s_eventfd := mkSysCall 100 OtherKind; s_second_eventfd := mkSysCall 101 OtherKind;
  s_resolver := Ok tt; s_timerfd_create := mkSysCall 102 OtherKind;
  s_timerfd_settime := fun _ _ => mkSysCall 0 OtherKind;
|}.

Definition example_limits : WorkerLimits := mkWorkerLimits 8 1024 1024 1000 1000.

Definition example_new : option (io_result IoUringWorker) :=
  new example_answers 4 64 [(5, 0, [0])] [example_server] [None] example_limits
    (mkProxyLimits 100 100 100) (mkDnsLimits 1 100) ∅.

Definition example_world : Kernel := mkKernel (mkUringScript 0 false []) [] 0.

Definition example_request : bytes :=
  str "GET / HTTP/1.1" ++ crlf ++ str "Host: a" ++ crlf ++ crlf.
