(* ===== verification/UringLoop.v ===== *)
(** * The loop of the io_uring worker

    The invariant of [UringInv.v] through the acceptor, the resolver, the deadlines
    and shutdown, through a batch of completions, and so in every reachable state. *)

From stdpp Require Import sorting.
From S2P Require Import Prelude RustStd Config Http Router LoadBalancer Proxy StaticFiles Runtime Handler Operation BufferRing UringConnection Uring UringInv.

Import Uring.

Local Open Scope N_scope.

Section Loop.

Context {env : UringEnv} {fs : Filesystem} {mime : MimeGuess}.

Notation M := (Handler IoUringWorker Kernel).
Notation State := (State IoUringWorker Kernel).

(** ** The other entries *)

Lemma Inv_weaken x lent owed others s : Inv None lent owed others s -> Inv x lent owed others s.
Proof. intros [Hw Hb Hm Ho He]. constructor; try done. intros k c Hk _. by apply (Hm k). Qed.

Lemma At_start lent owed others k c s :
  Inv None lent owed others s -> connections (worker s) !! k = Some c ->
  At lent owed others k s c s.
Proof. intros H Hk. split; [by apply Inv_weaken|by split]. Qed.

Lemma Inv_perm x lent owed others others' s :
  others' ≡ₚ others -> Inv x lent owed others s -> Inv x lent owed others' s.
Proof. intros E [Hw Hb Hm Ho He]. constructor; try done; by rewrite E. Qed.

(** The completion of one of the other entries is being handled. *)
Lemma Inv_take_other lent owed others e s :
  Inv None lent (e :: owed) others s -> e ∈ others ->
  exists others', others ≡ₚ e :: others' /\ Inv None lent owed others' s.
Proof.
  intros H Hin. apply elem_of_Permutation in Hin as [others' E]. exists others'.
  split; [done|]. apply (Inv_perm _ _ _ _ (e :: others')) in H; [|by symmetry].
  destruct H as [Hw Hb Hm [_ Ho]%Forall_cons_1 He]. constructor; try done.
  rewrite <- Permutation_middle in He.
  rewrite (app_assoc (activities _ _)), <- Permutation_middle in He.
  apply Permutation_cons_inv in He. by rewrite <- app_assoc in He.
Qed.

(** What a handler leaves: the invariant, with entries queued. *)
Definition ends (lent : list (N * bytes)) (owed others : list Entry) (s s' : State) : Prop :=
  exists extra, Inv None lent owed (others ++ extra) s' /\ grows s s'.

Notation finishes lent owed others m s :=
  (wp m (fun _ => ends lent owed others s) (fun _ => True) s).

Lemma ends_plain lent owed others s s' :
  Inv None lent owed others s' -> grows s s' -> ends lent owed others s s'.
Proof. intros H Hg. exists []. by rewrite app_nil_r. Qed.

Lemma Done_ends lent owed others k s0 s :
  Done lent owed others k s0 s -> ends lent owed others s0 s.
Proof. intros [H Ht]. apply ends_plain; [done|]. by eapply touches_grows. Qed.

Lemma slot_finishes {A} lent owed others k (m : M A) s :
  wp m (fun _ => Done lent owed others k s) (fun _ => True) s ->
  wp m (fun _ => ends lent owed others s) (fun _ => True) s.
Proof. intros H. eapply wp_mono; [exact H| |done]. intros a s'. apply Done_ends. Qed.

Lemma ends_trans lent owed others extra s1 s2 s3 :
  grows s1 s2 -> ends lent owed (others ++ extra) s2 s3 -> ends lent owed others s1 s3.
Proof.
  intros Hg (extra' & H & Hg'). exists (extra ++ extra'). rewrite app_assoc.
  split; [done|]. by eapply grows_trans.
Qed.

Lemma finishes_bind {A} lent owed others (m : M unit) (f : unit -> M A) (Q : A -> State -> Prop) s :
  finishes lent owed others m s ->
  (forall extra s', Inv None lent owed (others ++ extra) s' -> grows s s' ->
     wp (f tt) Q (fun _ => True) s') ->
  wp (m ≫= f) Q (fun _ => True) s.
Proof.
  intros H Hf. apply wp_bind. eapply wp_mono; [exact H| |done].
  intros [] s' (extra & H' & Hg). by eapply Hf.
Qed.

Lemma push_other_spec lent owed others e s :
  Inv None lent owed others s -> is_other e ->
  wp (push_entry e) (fun _ s' => Inv None lent owed (others ++ [e]) s' /\ grows s s' /\
                                 worker s' = worker s /\ e ∈ in_flight (world s'))
    (fun _ => True) s.
Proof.
  intros H He. destruct s as [w [u inf h]]. apply wp_push_entry; [|done]. intros u'.
  destruct H as [Hw Hb Hm Ho Hperm].
  split; [|split; [split; [simpl; set_solver|done]|split; [done|simpl; set_solver]]].
  constructor; try done.
  - by apply (world_ok_frame _ _ _ Hw).
  - apply Forall_app. split; [done|by constructor].
  - simpl in *. rewrite <- app_assoc. rewrite (Permutation_app_comm [e]), app_assoc, Hperm.
    by rewrite <- !app_assoc.
Qed.

Lemma push_other_finishes lent owed others e s :
  Inv None lent owed others s -> is_other e -> finishes lent owed others (push_entry e) s.
Proof.
  intros H He. eapply wp_mono; [by apply push_other_spec| |done].
  intros a s' (H' & Hg & _). by exists [e].
Qed.

(** ** The resolver *)

Lemma mode_at_rest c p :
  Mode c -> proxy c = Some p -> write_pending c = false -> operation_pending p = false ->
  at_rest c /\ static_stream c = None /\ request_in_range p.
Proof.
  intros [| | |p' Hr Hw Hs Hp' (Hrange & _)] Hp Hnw Hop; try congruence.
  assert (p' = p) as -> by congruence.
  split; [|done]. split; [done|]. split; [done|]. congruence.
Qed.

Lemma finish_resolution_spec lent owed others r s :
  Inv None lent owed others s -> finishes lent owed others (finish_resolution r) s.
Proof.
  intros H. destruct r as [id found]. unfold finish_resolution. destruct s as [w u].
  apply wp_bind, uring_wp_current. destruct (current_in w id) as [c|] eqn:Hc;
    [|by apply wp_skip, ends_plain].
  apply current_in_Some in Hc as [Hk Hg]. destruct id as [k g]. simpl in *.
  case_decide as Hres; [|by apply wp_skip, ends_plain].
  destruct (proxy c) as [p|] eqn:Hp; [|done]. injection Hres as Hph.
  pose proof (inv_mode _ _ _ _ _ H k c Hk ltac:(done)) as Hmode.
  assert (Hidle : write_pending c = false /\ operation_pending p = false).
  { destruct Hmode as [|? ? ? [?|(_ & p' & Hp' & (Hph' & _) & _)]| |p' ? ? ? Hp' (_ & Hok)];
      try congruence. assert (p' = p) as -> by congruence. by rewrite Hph in Hok. }
  destruct Hidle as [Hw Hop]. destruct (mode_at_rest c p Hmode Hp Hw Hop) as (Hrest & Hstr & Hrange).
  pose proof (At_start _ _ _ k c _ H Hk) as HAt.
  assert (Hproxying : proxying g p c) by (by split_and!; try done; apply Hrest).
  apply (slot_finishes _ _ _ k).
  destruct found as [[|a l]|err]; [by eapply queue_proxy_error_spec| |by eapply queue_proxy_error_spec].
  apply wp_bind. eapply wp_update_proxying; [exact HAt|exact Hproxying|done|done|].
  intros c1 s1 H1 Hp1. apply wp_bind. eapply wp_call_At; [exact H1|]. intros t s2 H2.
  apply wp_bind. eapply wp_update_proxying; [exact H2|exact Hp1|done|apply Hp1|].
  intros c3 s3 H3 Hp3. by eapply try_next_proxy_address_spec.
Qed.

Lemma for_all_finishes {A} (f : A -> M unit) lent owed l :
  (forall a others s, Inv None lent owed others s -> finishes lent owed others (f a) s) ->
  forall others s, Inv None lent owed others s -> finishes lent owed others (for_all f l) s.
Proof.
  intros Hf. induction l as [|a l IH]; intros others s H; simpl; [by apply ends_plain|].
  eapply finishes_bind; [by apply Hf|]. intros extra s' H' Hg.
  eapply wp_mono; [by apply IH| |done]. intros ? s''. by eapply ends_trans.
Qed.

Lemma wp_call_Inv {A} (f : World -> A * World) x lent owed others (Q : A -> State -> Prop) R s :
  Inv x lent owed others s ->
  (forall a s', Inv x lent owed others s' -> grows s s' -> worker s' = worker s -> Q a s') ->
  wp (call f) Q R s.
Proof.
  intros H HQ. destruct s as [w [u inf h]]. apply wp_call. intros a u' _. apply HQ; try done.
  destruct H as [Hw Hb Hm Ho He]. constructor; try done. by apply (world_ok_frame _ _ _ Hw).
Qed.

Lemma is_other_read fd user : user ∈ reserved -> is_other (mkEntry (OpRead fd) user).
Proof. intros H. by split. Qed.

Lemma is_other_cancel t user : user ∈ reserved -> is_other (mkEntry (OpAsyncCancel t) user).
Proof. intros H. by split. Qed.

Lemma process_dns_results_spec lent owed others s :
  Inv None lent owed others s -> finishes lent owed others process_dns_results s.
Proof.
  intros H. unfold process_dns_results. apply wp_bind. eapply wp_call_Inv; [done|].
  intros rs s1 H1 Hg1 _.
  eapply (finishes_bind lent owed others).
  { eapply for_all_finishes; [|exact H1]. intros r o s'. apply finish_resolution_spec. }
  intros extra [w u] H2 Hg2. apply wp_bind, wp_gets. destruct (shutting_down w).
  - apply wp_skip. exists extra. split; [done|]. by eapply grows_trans.
  - unfold submit_dns_read. apply wp_bind, wp_gets.
    eapply wp_mono; [apply push_other_finishes; [exact H2|]| |done].
    + apply is_other_read. unfold reserved. set_solver.
    + intros ? s'. apply ends_trans. by eapply grows_trans.
Qed.

(** ** Deadlines *)

(** A loop over distinct slots: each step finds its connection as it was. *)
Lemma for_all_slots {A} (key : A -> N) (P : A -> UringConnection -> Prop) (f : A -> M unit)
    lent owed l :
  NoDup (key <$> l) ->
  (forall a others c s, Inv None lent owed others s ->
     connections (worker s) !! key a = Some c -> P a c ->
     wp (f a) (fun _ s' => ends lent owed others s s' /\ touches (key a) s s') (fun _ => True) s) ->
  forall others s, Inv None lent owed others s ->
    Forall (fun a => exists c, connections (worker s) !! key a = Some c /\ P a c) l ->
    finishes lent owed others (for_all f l) s.
Proof.
  intros Hnd Hf. induction l as [|a l IH]; intros others s H Hl; simpl; [by apply ends_plain|].
  apply NoDup_cons in Hnd as [Hnin Hnd]. apply Forall_cons_1 in Hl as [(c & Hc & HP) Hl].
  apply wp_bind. eapply wp_mono; [by eapply Hf| |done].
  intros [] s' [(extra & H' & Hg) Ht]. eapply wp_mono; [apply IH; [done|exact H'|]| |done].
  - rewrite Forall_forall in Hl |- *. intros b Hb. destruct (Hl b Hb) as (d & Hd & HPd).
    exists d. split; [|done]. rewrite (touches_lookup _ _ _ _ Ht); [done|].
    intros E. apply Hnin. rewrite <- E. by apply list_elem_of_fmap_2.
  - intros ? s''. by apply ends_trans.
Qed.

Lemma slab_iter_NoDup m : NoDup (slab_iter m).*1.
Proof.
  unfold slab_iter. rewrite (merge_sort_Permutation slot_le). apply NoDup_fst_map_to_list.
Qed.

Lemma uring_elem_of_slab_iter m k c : (k, c) ∈ slab_iter m <-> m !! k = Some c.
Proof.
  unfold slab_iter. rewrite (merge_sort_Permutation slot_le). apply elem_of_map_to_list.
Qed.

(** A selection of the slab's entries keeps the slots distinct. *)
Lemma omap_slots_NoDup {A} (key : A -> N) (f : N * UringConnection -> option A) l :
  (forall x a, f x = Some a -> key a = x.1) -> NoDup l.*1 -> NoDup (key <$> omap f l).
Proof.
  intros Hf. induction l as [|x l IH]; simpl; [constructor|]. intros [Hnin Hnd]%NoDup_cons.
  destruct (f x) as [a|] eqn:E; [|by apply IH]. apply NoDup_cons. split; [|by apply IH].
  rewrite (Hf _ _ E). intros (b & Eb & Hb)%list_elem_of_fmap.
  apply list_elem_of_omap in Hb as (y & Hy & E'). apply Hnin.
  rewrite Eb, (Hf _ _ E'). by apply list_elem_of_fmap_2.
Qed.

Lemma expire_proxy_spec lent owed others id ph pending k c s :
  Inv None lent owed others s -> connections (worker s) !! k = Some c ->
  id = connection_id k c -> write_pending c = false ->
  (exists p, proxy c = Some p /\ phase p = ph /\ operation_pending p = pending) ->
  wp (expire_proxy (id, ph, pending))
    (fun _ s' => ends lent owed others s s' /\ touches k s s') (fun _ => True) s.
Proof.
  intros H Hk -> Hw (p & Hp & Hph & Hop). unfold expire_proxy. simpl.
  pose proof (inv_mode _ _ _ _ _ H k c Hk ltac:(done)) as Hmode.
  pose proof (At_start _ _ _ k c _ H Hk) as HAt. destruct pending; simpl.
  - set (c' := set_proxy (Some (set_timed_out p)) c).
    assert (Ha : activity (size_of s) k c' = activity (size_of s) k c).
    { unfold activity. simpl. by rewrite Hp. }
    assert (Hmode' : Mode c').
    { destruct Hmode as [| |? ? ? ?|p' Hr ? Hs Hp' Hok]; try congruence.
      assert (p' = p) as -> by congruence. by eapply Proxying. }
    pose proof (At_put _ _ _ k s c c' s HAt (At_base _ _ _ _ _ _ _ HAt) Ha) as HAt'.
    apply (At_Done _ _ _ _ _ _ _ HAt') in Hmode' as [H1 Ht1].
    apply wp_bind. destruct s as [w u]. apply (uring_wp_update_proxy k _ c p); [done|done|].
    change (set_proxy (Some (set_timed_out p)) c) with c'.
    destruct (phase_operation ph) as [o|].
    + eapply wp_mono; [apply push_other_spec; [exact H1|]| |done].
      { apply is_other_cancel. unfold reserved. set_solver. }
      intros ? s' (H2 & [Hi _] & E & _). split.
      * eexists. split; [exact H2|]. split; [|by rewrite E]. done.
      * destruct Ht1 as (Hf & Hd & _). split; [by rewrite E|]. split; [by rewrite E|done].
    + apply wp_skip. split; [|done]. by apply ends_plain.
  - destruct (mode_at_rest c p Hmode Hp Hw Hop) as (Hrest & _ & _).
    eapply wp_mono; [eapply fail_proxy_spec; [exact HAt|done|done]| |done].
    intros ? s' Hd. split; [exact (Done_ends _ _ _ _ _ _ Hd)|apply Hd].
Qed.

Lemma expired_proxy_inv now w c ph pending :
  expired_proxy now w c = Some (ph, pending) ->
  write_pending c = false /\
  exists p, proxy c = Some p /\ phase p = ph /\ operation_pending p = pending.
Proof.
  unfold expired_proxy. destruct (write_pending c); [done|].
  destruct (proxy c) as [p|]; [|done]. simpl. destruct (timed_out p); [done|].
  case_match; [|done]. intros [= <- <-]. eauto.
Qed.

Lemma elem_of_expired_proxies now w x :
  x ∈ expired_proxies now w ->
  exists k c, connections w !! k = Some c /\ x.1.1 = connection_id k c /\
    expired_proxy now w c = Some (x.1.2, x.2).
Proof.
  unfold expired_proxies. rewrite list_elem_of_omap.
  intros ([k c] & Hin%uring_elem_of_slab_iter & Hf). exists k, c. split; [done|].
  destruct (expired_proxy now w c) as [[ph pending]|]; [|done]. by injection Hf as <-.
Qed.

Lemma expired_proxies_NoDup now w :
  NoDup ((fun x : ConnectionId * ProxyPhase * bool => slot x.1.1) <$> expired_proxies now w).
Proof.
  apply omap_slots_NoDup; [|apply slab_iter_NoDup]. intros [k c] x.
  destruct (expired_proxy now w c) as [[ph pending]|]; [|done]. by intros [= <-].
Qed.

Lemma uring_elem_of_ids_where t w id :
  id ∈ ids_where t w ->
  exists c, connections w !! slot id = Some c /\ t c = true /\ id = connection_id (slot id) c.
Proof.
  unfold ids_where. rewrite list_elem_of_omap.
  intros ([k c] & Hin%uring_elem_of_slab_iter & Hf). exists c.
  destruct (t c) eqn:E; [|done]. by injection Hf as <-.
Qed.

Lemma uring_ids_where_NoDup t w : NoDup (slot <$> ids_where t w).
Proof.
  apply omap_slots_NoDup; [|apply slab_iter_NoDup]. intros [k c] x.
  destruct (t c); [|done]. by intros [= <-].
Qed.

Lemma pump_static_streams_spec lent owed others s :
  Inv None lent owed others s -> finishes lent owed others pump_static_streams s.
Proof.
  intros H. unfold pump_static_streams. destruct s as [w u]. apply wp_bind, wp_gets.
  eapply (for_all_slots slot (fun id c => static_stream c <> None /\ write_pending c = false /\
    write_buffer c = [] /\ id = connection_id (slot id) c)); [apply uring_ids_where_NoDup| |exact H|].
  - clear. intros [k g] others c s H Hk (Hst & Hw & Hbuf & Hid). simpl in *.
    injection Hid as ->. pose proof (inv_mode _ _ _ _ _ H k c Hk ltac:(done)) as Hmode.
    pose proof (At_start _ _ _ k c _ H Hk) as HAt.
    destruct Hmode as [| |Hr _ Hp _ _ Hoff|]; try congruence.
    eapply wp_mono; [eapply uring_advance_static_stream_spec; [exact HAt|done| |done| |done|done]| |done].
    + do 2 (split; [done|]). congruence.
    + destruct (static_stream c); [done|congruence].
    + intros ? s' Hd. split; [exact (Done_ends _ _ _ _ _ _ Hd)|apply Hd].
  - rewrite Forall_forall. intros id (c & Hk & Ht & Hid)%uring_elem_of_ids_where.
    exists c. split; [done|]. rewrite !andb_true_iff in Ht. destruct Ht as [[H1 H2] H3].
    apply bool_decide_eq_true in H1, H3. apply negb_true_iff in H2. done.
Qed.

Lemma check_proxy_timeouts_spec lent owed others s :
  Inv None lent owed others s ->
  wp check_proxy_timeouts
    (fun _ s' => ends lent owed others s s' /\ timer_entry (worker s) ∈ in_flight (world s'))
    (fun _ => True) s.
Proof.
  intros H. unfold check_proxy_timeouts. apply wp_bind. eapply wp_call_Inv; [done|].
  intros now [w1 u1] H1 Hg1 E1. simpl in E1. apply wp_bind, wp_gets.
  eapply (finishes_bind lent owed others).
  { eapply (for_all_slots (fun x => slot x.1.1) (fun x c =>
      x.1.1 = connection_id (slot x.1.1) c /\ write_pending c = false /\
      exists p, proxy c = Some p /\ phase p = x.1.2 /\ operation_pending p = x.2));
      [apply expired_proxies_NoDup| |exact H1|].
    - clear. intros [[id ph] pending] others c s H Hk (Hid & Hw & Hp).
      by eapply expire_proxy_spec.
    - rewrite Forall_forall. intros x (k & c & Hk & Hid & Hex)%elem_of_expired_proxies.
      apply expired_proxy_inv in Hex. exists c. rewrite Hid. done. }
  intros extra [w2 u2] H2 Hg2. apply wp_bind, wp_gets.
  assert (Hnone : ids_where (handshake_expired now) w2 = []).
  { destruct (ids_where (handshake_expired now) w2) as [|id l] eqn:E; [done|].
    assert (Hin : id ∈ ids_where (handshake_expired now) w2) by (rewrite E; left).
    apply uring_elem_of_ids_where in Hin as (c & Hk & Ht & _).
    destruct (inv_base _ _ _ _ _ H2 _ c Hk) as (Hssl & _).
    unfold handshake_expired in Ht. by rewrite Hssl in Ht. }
  rewrite Hnone. simpl. apply wp_bind, wp_skip. unfold submit_timer_read.
  apply wp_bind, wp_bind, wp_gets.
  eapply wp_mono; [apply push_other_spec; [exact H2|]| |done].
  { apply is_other_read. unfold reserved. set_solver. }
  intros [] s3 (H3 & Hg3 & E3 & Hin). eapply wp_mono; [by apply pump_static_streams_spec| |done].
  intros [] s4 (extra' & H4 & Hg4). split.
  - exists (extra ++ [mkEntry (OpRead (timerfd w2)) TIMER_USER_DATA] ++ extra').
    rewrite !app_assoc. split; [done|].
    eapply grows_trans; [exact Hg1|]. eapply grows_trans; [exact Hg2|]. by eapply grows_trans.
  - destruct Hg2 as (_ & Hg2 & _), Hg1 as (_ & Hg1 & _), Hg4 as [Hg4 _]. simpl in *.
    rewrite <- Hg1, <- Hg2. by apply Hg4.
Qed.

(** ** Accepting *)

(** The entry of a listener. *)
Definition accept_of (i : N) (l : UringListener) : option Entry :=
  match accept_entry i l with
  | Ok e => if accept_pending l then Some e else None
  | Err _ => None
  end.

Lemma accepts_cons i l ls :
  accepts i (l :: ls) = option_list (accept_of i l) ++ accepts (i + 1) ls.
Proof.
  simpl. unfold accept_of. destruct (accept_entry i l); [|done]. by destruct (accept_pending l).
Qed.

Lemma accepts_lookup j ls i l :
  ls !! i = Some l ->
  exists rest, forall l',
    accepts j (<[i := l']> ls) ≡ₚ option_list (accept_of (j + N.of_nat i) l') ++ rest.
Proof.
  revert j i. induction ls as [|l0 ls IH]; intros j i Hi; [done|].
  destruct i as [|i]; cbn [insert list_insert].
  - exists (accepts (j + 1) ls). intros l'. rewrite accepts_cons.
    by replace (j + N.of_nat 0) with j by lia.
  - destruct (IH (j + 1) i Hi) as [rest Hrest].
    exists (option_list (accept_of j l0) ++ rest). intros l'.
    change (accepts j (l0 :: <[i:=l']> ls) ≡ₚ
      option_list (accept_of (j + N.of_nat (S i)) l') ++ option_list (accept_of j l0) ++ rest).
    rewrite accepts_cons, Hrest.
    replace (j + 1 + N.of_nat i) with (j + N.of_nat (S i)) by lia.
    by rewrite Permutation_app_swap_app.
Qed.

Lemma elem_of_accepts j ls e :
  e ∈ accepts j ls ->
  exists i l, ls !! i = Some l /\ accept_of (j + N.of_nat i) l = Some e.
Proof.
  revert j. induction ls as [|l ls IH]; intros j; [by intros ?%not_elem_of_nil|].
  rewrite accepts_cons, elem_of_app. intros [He|He].
  - exists 0%nat, l. split; [done|]. replace (j + N.of_nat 0) with j by lia.
    destruct (accept_of j l); simpl in He; set_solver.
  - destruct (IH _ He) as (i & l' & Hi & Ha). exists (S i), l'. split; [done|].
    by replace (j + N.of_nat (S i)) with (j + 1 + N.of_nat i) by lia.
Qed.

(** The state with another listener at [i] and other entries queued. *)
Definition with_listener (i : N) (l : UringListener) (inf : list Entry) (s : State) : State :=
  mkState (set_listeners (<[N.to_nat i := l]> (listeners (worker s))) (worker s))
    (mkKernel (outside (world s)) inf (buffer_head (world s))).

Lemma Inv_listener lent owed owed' others i l l' inf s :
  Inv None lent owed others s -> listeners (worker s) !! N.to_nat i = Some l ->
  l_ssl l' = None -> l_generation l' = 1 ->
  option_list (accept_of i l) ++ inf ++ owed'
    ≡ₚ option_list (accept_of i l') ++ in_flight (world s) ++ owed ->
  Inv None lent owed' others (with_listener i l' inf s).
Proof.
  intros [[H1 H2 H3 H4 H5 H6 H7] Hb Hm Ho He] Hi Hs Hg Hp.
  constructor; try done.
  - constructor; try done; simpl; by apply Forall_insert.
  - simpl. destruct (accepts_lookup 0 _ _ _ Hi) as [rest Hrest].
    rewrite Hrest. pose proof (Hrest l) as Hl. rewrite list_insert_id in Hl by done.
    rewrite Hl in He. rewrite N.add_0_l, N2Nat.id in *. rewrite He in Hp.
    apply (Permutation_app_inv_l (option_list (accept_of i l))). rewrite Hp.
    solve_Permutation.
Qed.

Lemma wp_update_listener i f l (Q : unit -> State -> Prop) R s :
  listeners (worker s) !! N.to_nat i = Some l ->
  Q tt (with_listener i (f l) (in_flight (world s)) s) -> wp (update_listener i f) Q R s.
Proof.
  intros Hi HQ. destruct s as [w [u inf h]]. unfold update_listener.
  apply wp_bind, wp_gets. simpl in Hi. rewrite Hi. by apply wp_modify.
Qed.

Lemma submit_accept_spec lent owed others i s :
  Inv None lent owed others s ->
  wp (submit_accept i) (fun _ s' => Inv None lent owed others s' /\ grows s s')
    (fun _ => True) s.
Proof.
  intros H. unfold submit_accept. destruct s as [w [u inf h]]. apply wp_bind, wp_gets.
  destruct (listeners w !! N.to_nat i) as [l|] eqn:Hi; [|done].
  destruct (accept_pending l) eqn:Hpend; [by apply wp_skip|].
  apply wp_bind, wp_lift; [|done]. intros e He.
  apply wp_bind, wp_push_entry; [|done]. intros u'.
  apply (wp_update_listener _ _ l); [done|]. pose proof (inv_world _ _ _ _ _ H) as Hw.
  split; [|split; [simpl; set_solver|done]].
  apply (Inv_listener lent owed owed others i l _ _ (mkState w (mkKernel u' inf h))); simpl.
  - destruct H as [Hw' Hb Hm Ho Hp]. constructor; try done. by apply (world_ok_frame _ _ _ Hw').
  - done.
  - by eapply (proj1 (Forall_lookup _ _) (ok_plain _ _ Hw)).
  - by eapply (proj1 (Forall_lookup _ _) (ok_listener_generations _ _ Hw)).
  - unfold accept_of. rewrite Hpend. simpl.
    change (accept_entry i (mark_accept_submitted l)) with (accept_entry i l).
    rewrite He. simpl. rewrite <- app_assoc. simpl. by rewrite <- Permutation_middle.
Qed.

Lemma next_generation_range g : g < 2 ^ 16 -> 0 < next_generation g < 2 ^ 16.
Proof. apply uring_next_generation_wf. Qed.

Context {envok : UringEnvOk env}.

Lemma insert_connection_spec lent owed others socket i s :
  Inv None lent owed others s -> is_Some (listeners (worker s) !! N.to_nat i) ->
  wp (insert_connection socket i)
    (fun id s' => exists c, At lent owed others (slot id) s' c s' /\
       conn_generation c = generation id /\ at_rest c /\ proxy c = None /\
       static_stream c = None /\ listeners (worker s') = listeners (worker s) /\ grows s s')
    (fun s' => Inv None lent owed others s' /\
       listeners (worker s') = listeners (worker s) /\ grows s s') s.
Proof.
  intros H [l Hl]. unfold insert_connection. destruct s as [w u]. simpl in Hl.
  apply wp_bind, wp_gets. apply wp_bind, wp_gets. case_match; [by apply wp_fail|].
  apply wp_bind, wp_gets. apply wp_bind. destruct u as [u inf h]. apply wp_call.
  intros k u' Hk%vacant_key_fresh. destruct (N.leb_spec (2 ^ 32) k) as [|Hk32].
  { apply wp_fail. split; [|done]. destruct H as [Hw Hb Hm Ho Hp].
    constructor; try done. by apply (world_ok_frame _ _ _ Hw). }
  apply wp_bind, wp_gets.
  pose proof (inv_world _ _ _ _ _ H) as Hw.
  assert (Hg : exists g, resize_generations (generations w) k !! N.to_nat k = Some g /\
    Forall (fun g => g < 2 ^ 16) (resize_generations (generations w) k)).
  { assert (Hall : Forall (fun g => g < 2 ^ 16) (resize_generations (generations w) k)).
    { unfold resize_generations. case_match; [|apply Hw].
      apply Forall_app. split; [apply Hw|by apply Forall_replicate]. }
    destruct (lookup_lt_is_Some_2 (resize_generations (generations w) k) (N.to_nat k)) as [g Hg];
      [|by exists g].
    unfold resize_generations. destruct (N.leb_spec (len (generations w)) k) as [Hle|Hlt];
      unfold len in *; [|lia]. rewrite length_app, length_replicate. lia. }
  destruct Hg as (g & Hg & Hall). rewrite Hg. apply wp_bind, wp_ret. apply wp_bind, wp_modify.
  apply wp_bind, wp_gets. simpl. rewrite Hl. apply wp_bind, wp_ret.
  assert (Hplain : l_ssl l = None) by (by eapply (proj1 (Forall_lookup _ _) (ok_plain _ _ Hw))).
  unfold new_session. rewrite Hplain. apply wp_bind, wp_ret. apply wp_bind, wp_modify, wp_ret.
  simpl. exists (new_connection socket (next_generation g) i None). split; [|done].
  destruct H as [Hw' Hb Hm Ho Hp].
  pose proof (next_generation_range g) as Hnext.
  assert (Hgl : g < 2 ^ 16) by (by eapply (proj1 (Forall_lookup _ _) Hall)).
  split; [|split; [simpl; by rewrite lookup_insert_eq|done]]. constructor; simpl.
  - destruct Hw as [H1 H2 H3 H4 H5 H6 H7]. constructor; try done.
    simpl. apply Forall_insert; [done|]. by apply Hnext.
  - intros j c. destruct (decide (j = k)) as [->|Hne].
    + rewrite lookup_insert_eq. intros [= <-]. split; [done|]. split; [done|].
      split; [by apply Hnext|]. by split.
    + rewrite lookup_insert_ne by done. apply Hb.
  - intros j c Hj Hne. rewrite lookup_insert_ne in Hj by congruence. by apply (Hm j c Hj).
  - done.
  - rewrite activities_insert, at_rest_activity by done. simpl.
    rewrite delete_id; [done|]. by apply not_elem_of_dom.
Qed.

(** The rest of the handler: the connection, then the next accept. *)
Lemma accept_rest_spec lent owed others i result s :
  Inv None lent owed others s -> is_Some (listeners (worker s) !! N.to_nat i) ->
  wp ((match (if (0 <=? result)%Z then Some (Z.to_N result) else None) with
       | Some fd =>
         stopping ← gets shutting_down;
         if stopping : bool then skip
         else
           metric Runtime.accepted;;
           r ← attempt (insert_connection fd i);
           match r with
           | Ok id => submit_recv id
           | Err _ => skip
           end
       | None =>
         stopping ← gets shutting_down;
         if negb (stopping && (- result =? ECANCELED)%Z) && negb (multishot_is_unsupported result)
         then metric Runtime.error
         else skip
       end);;
      requested ← call shutdown_is_requested;
      if requested : bool then skip
      else
        ls ← gets listeners;
        l ← unwrap (ls !! N.to_nat i);
        if accept_pending l then skip else submit_accept i)
    (fun _ s' => Inv None lent owed others s' /\ grows s s') (fun _ => True) s.
Proof.
  intros H Hl. apply wp_bind.
  eapply wp_mono with (Q := fun _ s' => Inv None lent owed others s' /\ grows s s' /\
    is_Some (listeners (worker s') !! N.to_nat i)) (R := fun _ => True); [| |done].
  - assert (Hmetric : forall f w u, Inv None lent owed others (mkState w u) ->
      Inv None lent owed others (mkState (update_metrics f w) u)).
    { intros f w u [Hw Hb Hm Ho Hp]. constructor; try done. by apply (world_ok_frame _ _ _ Hw). }
    destruct s as [w u]. destruct (0 <=? result)%Z.
    + apply wp_bind, wp_gets. destruct (shutting_down w); [by apply wp_skip|].
      apply wp_bind, wp_modify. apply wp_bind, wp_attempt.
      eapply wp_mono; [apply (insert_connection_spec _ _ _ _ _ _ (Hmetric _ _ _ H) Hl)| |].
      * intros id s' (c & HAt & Hg & Hrest & Hp & Hst & Els & Hgrow). destruct id as [k g].
        simpl in HAt. eapply wp_mono; [by eapply submit_recv_spec| |done].
        intros [] s'' [H'' Ht]. split; [done|]. split.
        -- eapply grows_trans; [exact Hgrow|]. by eapply touches_grows.
        -- pose proof (f_equal listeners (proj1 Ht)) as E. simpl in E, Els.
           by rewrite E, Els.
      * intros s' (H' & Els & Hgrow) e. apply wp_skip. split; [done|]. split; [done|].
        by rewrite Els.
    + apply wp_bind, wp_gets. case_match; [|by apply wp_skip]. apply wp_modify.
      split; [by apply Hmetric|done].
  - intros [] s1 (H1 & Hg1 & [l Hl1]). apply wp_bind. eapply wp_call_Inv; [exact H1|].
    intros requested s2 H2 Hg2 Ew. destruct requested.
    { apply wp_skip. split; [done|]. by eapply grows_trans. }
    destruct s2 as [w2 u2]. apply wp_bind, wp_gets. simpl in Ew. rewrite Ew, Hl1.
    apply wp_bind, wp_ret. destruct (accept_pending l).
    { apply wp_skip. rewrite <- Ew. split; [done|]. by eapply grows_trans. }
    rewrite <- Ew. eapply wp_mono; [by apply submit_accept_spec| |done].
    intros [] s3 [H3 Hg3]. split; [done|]. eapply grows_trans; [exact Hg1|].
    by eapply grows_trans.
Qed.

Lemma handle_accept_completion_spec lent owed others cqe e i l s :
  Inv None lent (if cqe_more cqe then owed else e :: owed) others s ->
  listeners (worker s) !! N.to_nat i = Some l -> accept_of i l = Some e ->
  admissible (op e) cqe ->
  wp (handle_accept_completion (mkOperationId i 1 Accept) (cqe_result cqe) (cqe_more cqe))
    (fun _ s' => Inv None lent owed others s' /\ grows s s') (fun _ => True) s.
Proof.
  intros H Hl He Hadm. pose proof (inv_world _ _ _ _ _ H) as Hw.
  assert (Hlp : l_ssl l = None) by (by eapply (proj1 (Forall_lookup _ _) (ok_plain _ _ Hw))).
  assert (Hlg : l_generation l = 1)
    by (by eapply (proj1 (Forall_lookup _ _) (ok_listener_generations _ _ Hw))).
  unfold handle_accept_completion. simpl. destruct s as [w u]. simpl in Hl.
  apply wp_bind, wp_gets. rewrite Hl, Hlg. simpl.
  apply wp_bind. apply (wp_update_listener i _ l); [done|]. simpl.
  set (l1 := record_completion (cqe_more cqe) l).
  set (s1 := with_listener i l1 (in_flight u) (mkState w u)).
  assert (Haccept : accept_pending l = true /\
    e = mkEntry (OpAccept (l_socket l) (bool_decide (accept_mode l = Multishot)))
          (encode (mkOperationId i (l_generation l) Accept)) /\ (2 ^ 32 <=? i) = false).
  { unfold accept_of, accept_entry, accept_operation in He. destruct (2 ^ 32 <=? i); [done|].
    simpl in He. destruct (accept_pending l); [|done]. by injection He as <-. }
  destruct Haccept as (Hpend & -> & Hi). simpl in Hadm. destruct Hadm as [_ Hmore].
  assert (H1 : Inv None lent owed others s1).
  { apply (Inv_listener _ _ _ _ i l l1 _ _ H Hl Hlp Hlg). rewrite He. simpl.
    destruct (cqe_more cqe) eqn:Em.
    - destruct (Hmore eq_refl) as [Hmode _].
      assert (E : accept_of i l1 = accept_of i l).
      { unfold accept_of, accept_entry, accept_operation. simpl. by rewrite Hmode, Hpend. }
      by rewrite E, He.
    - assert (E : accept_of i l1 = None).
      { unfold accept_of. simpl. rewrite andb_false_r. by case_match. }
      rewrite E. simpl. by rewrite <- Permutation_middle. }
  assert (Hl1 : listeners (worker s1) !! N.to_nat i = Some l1).
  { unfold s1. simpl. rewrite list_lookup_insert_eq; [done|]. by eapply lookup_lt_Some. }
  assert (Hg1 : grows (mkState w u) s1) by done.
  clearbody s1.
  eapply wp_mono with (Q := fun _ s' => Inv None lent owed others s' /\ grows s1 s')
    (R := fun _ => True); [| |done].
  2: { intros [] s' [? ?]. split; [done|]. by eapply grows_trans. }
  destruct (bool_decide (accept_mode l = Multishot) && multishot_is_unsupported (cqe_result cqe))
    eqn:Hunsupported.
  - apply andb_true_iff in Hunsupported as [Hmode Hneg].
    apply bool_decide_eq_true in Hmode.
    assert (Em : cqe_more cqe = false).
    { destruct (cqe_more cqe); [|done]. destruct (Hmore eq_refl) as [_ Hpos].
      unfold multishot_is_unsupported in Hneg. apply andb_true_iff in Hneg as [Hneg _].
      apply Z.ltb_lt in Hneg. lia. }
    apply wp_bind, (wp_update_listener i _ l1); [done|].
    eapply wp_mono; [eapply (accept_rest_spec _ _ _ i)| |done].
    + apply (Inv_listener lent owed owed others i l1 _ _ _ H1); try done.
      unfold accept_of, accept_entry, accept_operation. simpl. rewrite Hi. simpl.
      by rewrite Em, andb_false_r.
    + simpl. rewrite list_lookup_insert_eq; [done|]. by eapply lookup_lt_Some.
    + intros [] s' [? ?]. split; [done|]. by eapply grows_trans.
  - apply wp_bind, wp_skip. by apply accept_rest_spec.
Qed.

(** ** One completion *)

(** The entry of a completion, unless the kernel keeps it for more. *)
Definition final (x : Cqe * Entry) : list Entry := if cqe_more x.1 then [] else [x.2].

Definition lent_of (l : list (Cqe * Entry)) : list (N * bytes) :=
  mjoin ((fun x => option_list (cqe_buffer x.1)) <$> l).

Definition owed_of (l : list (Cqe * Entry)) : list Entry := mjoin (final <$> l).

(** The timer's read is queued, or its completion is about to be handled. *)
Definition armed (owed : list Entry) (s : State) : Prop :=
  timer_entry (worker s) ∈ in_flight (world s) ++ owed.

Lemma reserved_spec v :
  v ∈ reserved <-> v = CONTROL_USER_DATA \/ v = CANCEL_USER_DATA \/ v = DNS_USER_DATA \/
    v = TIMER_USER_DATA \/ v = PROXY_CANCEL_USER_DATA.
Proof. unfold reserved. set_solver. Qed.

Lemma encode_not_reserved o : operation_wf o -> encode o ∉ reserved.
Proof.
  intros Hwf Hin. pose proof (encode_range o Hwf). apply reserved_spec in Hin.
  unfold CONTROL_USER_DATA, CANCEL_USER_DATA, DNS_USER_DATA, TIMER_USER_DATA,
    PROXY_CANCEL_USER_DATA, U64_MAX in Hin. lia.
Qed.

Lemma handle_completion_operation o cqe :
  operation_wf o -> cqe_user_data cqe = encode o ->
  handle_completion cqe = dispatch_completion o cqe.
Proof.
  intros Hwf E. unfold handle_completion. rewrite E.
  pose proof (encode_not_reserved o Hwf) as Hres. rewrite reserved_spec in Hres.
  rewrite !(proj2 (N.eqb_neq _ _)) by tauto.
  rewrite (proj2 (decode_Some (encode o) o ltac:(pose proof (encode_range o Hwf); lia))); done.
Qed.

Lemma activity_completion_spec lent owed others cqe e k c s :
  Inv None (option_list (cqe_buffer cqe) ++ lent) (e :: owed) others s ->
  connections (worker s) !! k = Some c -> activity (size_of s) k c = Some e ->
  cqe_user_data cqe = user_data e -> admissible (op e) cqe ->
  wp (handle_completion cqe) (fun _ s' => Inv None lent owed others s' /\ grows s s')
    (fun _ => True) s.
Proof.
  intros H Hk Ha Huser Hadm.
  pose proof (inv_base _ _ _ _ _ H k c Hk) as (_ & Hk32 & Hgen & _).
  assert (Hwf : forall o, operation_wf (mkOperationId k (conn_generation c) o)) by done.
  destruct (activity_inv _ _ _ _ Ha)
    as [[Hr ->]|[(Hr & Hw & ->)|(p & fd & Hr & Hw & Hp & Hop & Hup & Hcase)]].
  - rewrite (handle_completion_operation _ _ (Hwf Read) Huser). simpl in Hadm.
    apply handle_read_completion_spec with (e := recv_entry (connection_id k c) (socket c) (size_of s));
      try done. apply Hadm.
  - rewrite (handle_completion_operation _ _ (Hwf Write) Huser).
    simpl in Hadm. destruct Hadm as (Eb & _ & Hres). rewrite Eb in H. simpl in H.
    eapply handle_write_completion_spec; [by split|done|done|].
    rewrite len_drop, N2Nat.id in Hres. done.
  - destruct Hcase as [(Hph & a & Had & ->)|[[Hph ->]|[Hph ->]]].
    + rewrite (handle_completion_operation _ _ (Hwf ProxyConnect) Huser).
      simpl in Hadm. destruct Hadm as [Eb _]. rewrite Eb in H. simpl in H.
      eapply handle_proxy_connect_spec with (p := p); [by split|done|done|done|by exists fd].
    + rewrite (handle_completion_operation _ _ (Hwf ProxyWrite) Huser).
      simpl in Hadm. destruct Hadm as [Eb _]. rewrite Eb in H. simpl in H.
      eapply handle_proxy_write_spec with (p := p); [by split|done|done|done|by exists fd].
    + rewrite (handle_completion_operation _ _ (Hwf ProxyRead) Huser).
      by eapply handle_proxy_read_spec; [done|done|done|apply Hadm|done..|exists fd].
Qed.

Lemma accept_completion_spec lent owed others cqe e s :
  Inv None (option_list (cqe_buffer cqe) ++ lent) (final (cqe, e) ++ owed) others s ->
  e ∈ accepts 0 (listeners (worker s)) ->
  cqe_user_data cqe = user_data e -> admissible (op e) cqe ->
  wp (handle_completion cqe) (fun _ s' => Inv None lent owed others s' /\ grows s s')
    (fun _ => True) s.
Proof.
  intros H (i & l & Hl & Ha)%elem_of_accepts Huser Hadm. rewrite N.add_0_l in Ha.
  pose proof (inv_world _ _ _ _ _ H) as Hw.
  assert (Hlg : l_generation l = 1)
    by (by eapply (proj1 (Forall_lookup _ _) (ok_listener_generations _ _ Hw))).
  pose proof Ha as He. unfold accept_of, accept_entry, accept_operation in He.
  destruct (N.leb_spec (2 ^ 32) (N.of_nat i)) as [|Hi]; [done|]. simpl in He.
  destruct (accept_pending l); [|done]. injection He as <-. rewrite Hlg in *.
  assert (Hwf : operation_wf (mkOperationId (N.of_nat i) 1 Accept)) by (by split).
  rewrite (handle_completion_operation _ _ Hwf Huser).
  pose proof Hadm as [Eb _]. rewrite Eb in H. simpl in H.
  eapply handle_accept_completion_spec; [|by rewrite Nat2N.id|exact Ha|done].
  unfold final in H. simpl in H. by destruct (cqe_more cqe).
Qed.

Lemma other_completion_spec lent owed others cqe e s :
  Inv None (option_list (cqe_buffer cqe) ++ lent) (e :: owed) others s -> e ∈ others ->
  cqe_user_data cqe = user_data e -> admissible (op e) cqe ->
  wp (handle_completion cqe)
    (fun _ s' => (exists others', Inv None lent owed others' s') /\ grows s s' /\
      (user_data e = TIMER_USER_DATA -> timer_entry (worker s) ∈ in_flight (world s')))
    (fun _ => True) s.
Proof.
  intros H He Huser Hadm.
  pose proof (proj1 (Forall_forall _ _) (inv_others _ _ _ _ _ H) e He) as [Hres Hop].
  assert (Eb : cqe_buffer cqe = None) by (by destruct (op e); try done; apply Hadm).
  rewrite Eb in H. simpl in H.
  destruct (Inv_take_other _ _ _ _ _ H He) as (others' & _ & H').
  apply reserved_spec in Hres. unfold handle_completion. rewrite Huser.
  destruct Hres as [->|[->|[->|[->| ->]]]]; simpl.
  - eapply wp_call_Inv; [exact H'|]. intros a s' Hs' Hg _. split; [by eexists|done].
  - destruct s as [w u]. apply wp_modify. split; [|done]. exists others'.
    destruct H' as [Hw Hb Hm Ho Hp]. destruct Hw as [H1 H2 H3 H4 H5 H6 H7].
    constructor; try done.
  - eapply wp_mono; [by apply process_dns_results_spec| |done].
    intros [] s' (extra & Hs' & Hg). split; [by eexists|done].
  - eapply wp_mono; [by apply check_proxy_timeouts_spec| |done].
    intros [] s' [(extra & Hs' & Hg) Ht]. split; [by eexists|done].
  - apply wp_skip. split; [by eexists|done].
Qed.

Lemma handle_completion_spec lent owed others x s :
  Inv None (option_list (cqe_buffer x.1) ++ lent) (final x ++ owed) others s ->
  cqe_user_data x.1 = user_data x.2 -> admissible (op x.2) x.1 ->
  x.2 ∈ in_flight (world s) ++ final x ++ owed -> armed (final x ++ owed) s ->
  wp (handle_completion x.1)
    (fun _ s' => (exists others', Inv None lent owed others' s') /\ grows s s' /\ armed owed s')
    (fun _ => True) s.
Proof.
  destruct x as [cqe e]. simpl. intros H Huser Hadm Hin Harmed.
  assert (Hkeep : forall s', grows s s' -> e <> timer_entry (worker s) -> armed owed s').
  { intros s' (Hi & Et & _) Hne. unfold armed in *. rewrite Et. unfold final in Harmed. simpl in Harmed.
    destruct (cqe_more cqe); set_solver. }
  rewrite (inv_entries _ _ _ _ _ H), !elem_of_app in Hin. destruct Hin as [Hin|[Hin|Hin]].
  - apply elem_of_activities in Hin as (k & c & Hk & Ha).
    pose proof (inv_base _ _ _ _ _ H k c Hk) as (_ & Hk32 & Hgen & _).
    assert (Hnt : e <> timer_entry (worker s)).
    { intros ->. by destruct (activity_inv _ _ _ _ Ha) as [[_ E]|[(_ & _ & E)|
        (p & fd & _ & _ & _ & _ & _ & [(_ & a & _ & E)|[[_ E]|[_ E]]])]]. }
    assert (Em : final (cqe, e) = [e]).
    { unfold final. simpl. destruct (activity_inv _ _ _ _ Ha) as [[_ ->]|[(_ & _ & ->)|
        (p & fd & _ & _ & _ & _ & _ & [(_ & a & _ & ->)|[[_ ->]|[_ ->]]])]];
      simpl in Hadm; by destruct (cqe_more cqe); naive_solver. }
    rewrite Em in H. eapply wp_mono; [by eapply activity_completion_spec| |done].
    intros [] s' [Hs' Hg]. split; [by eexists|]. split; [done|]. by apply Hkeep.
  - eapply wp_mono; [by eapply accept_completion_spec| |done].
    intros [] s' [Hs' Hg]. split; [by eexists|]. split; [done|]. apply Hkeep; [done|].
    intros ->. apply elem_of_accepts in Hin as (i & l & _ & Ha).
    unfold accept_of, accept_entry in Ha. destruct (accept_operation _ l); [|done]. simpl in Ha.
    by destruct (accept_pending l).
  - pose proof (proj1 (Forall_forall _ _) (inv_others _ _ _ _ _ H) e Hin) as [_ Hop].
    assert (Em : final (cqe, e) = [e]).
    { unfold final. simpl. destruct (op e); try done; simpl in Hadm; by destruct Hadm as [_ ->]. }
    rewrite Em in H. eapply wp_mono; [by eapply other_completion_spec| |done].
    intros [] s' (Hs' & Hg & Ht). split; [done|]. split; [done|].
    destruct (decide (e = timer_entry (worker s))) as [->|Hne]; [|by apply Hkeep].
    unfold armed. apply elem_of_app. left. destruct Hg as (_ & -> & _). by apply Ht.
Qed.

(** ** A batch of completions *)

Lemma Inv_lists x lent lent' owed owed' others s :
  lent' ≡ₚ lent -> owed' ≡ₚ owed -> Inv x lent owed others s -> Inv x lent' owed' others s.
Proof.
  intros El Eo [[H1 H2 H3 H4 H5 H6 (l & p & Hl & Hp)] Hb Hm Ho He]. constructor; try done.
  - constructor; try done. exists l, p. by rewrite El.
  - by rewrite Eo.
Qed.

(** The completions still to handle come from entries that are outstanding. *)
Fixpoint batch_ok (inf : list Entry) (l : list (Cqe * Entry)) : Prop :=
  match l with
  | [] => True
  | x :: l =>
    cqe_user_data x.1 = user_data x.2 /\ admissible (op x.2) x.1 /\
    x.2 ∈ inf ++ final x ++ owed_of l /\ batch_ok inf l
  end.

Lemma batch_ok_grows inf inf' l : inf ⊆ inf' -> batch_ok inf l -> batch_ok inf' l.
Proof.
  intros Hi. induction l as [|x l IH]; [done|]. intros (H1 & H2 & H3 & H4).
  do 2 (split; [done|]). split; [set_solver|by apply IH].
Qed.

Lemma serve_spec lent owed others x s s' :
  Inv None lent owed others s -> serve s x s' ->
  Inv None (option_list (cqe_buffer x.1) ++ lent) (final x ++ owed) others s' /\
  in_flight (world s) ≡ₚ in_flight (world s') ++ final x /\
  timer_entry (worker s') = timer_entry (worker s) /\
  cqe_user_data x.1 = user_data x.2 /\ admissible (op x.2) x.1.
Proof.
  intros H Hserve. destruct Hserve as [l1 e l2 cqe r h u Hin Huser Hadm Hsel]. simpl.
  set (inf := if cqe_more cqe then l1 ++ e :: l2 else l1 ++ l2).
  assert (Hperm : in_flight (world s) ≡ₚ inf ++ final (cqe, e)).
  { rewrite Hin. unfold inf, final. simpl. destruct (cqe_more cqe); [by rewrite app_nil_r|].
    solve_Permutation. }
  split; [|done]. destruct H as [[H1 H2 H3 H4 H5 H6 (l & p & Hl & Hp)] Hb Hm Ho He].
  constructor; try done.
  - constructor; try done. simpl. inversion Hsel as [|id b h' Htake Hlen]; subst; simpl.
    + by exists l, p.
    + destruct (BufferRing.lend_implements _ _ _ _ b Hp Htake Hlen) as (p' & _ & Hp').
      exists ((id, b) :: l), p'. split; [by rewrite Hl|done].
  - simpl. rewrite app_assoc, <- Hperm. done.
Qed.

Lemma serves_spec lent owed others l s s' :
  Inv None lent owed others s -> serves s l s' ->
  Inv None (lent_of l ++ lent) (owed_of l ++ owed) others s' /\
  in_flight (world s) ≡ₚ in_flight (world s') ++ owed_of l /\
  timer_entry (worker s') = timer_entry (worker s) /\ batch_ok (in_flight (world s')) l.
Proof.
  intros H Hs. revert lent owed H. induction Hs as [s|s x s1 l s2 Hserve Hs IH];
    intros lent owed H; [split; [done|]; split; [by rewrite app_nil_r|done]|].
  destruct (serve_spec _ _ _ _ _ _ H Hserve) as (H1 & Hp1 & Ht1 & Huser & Hadm).
  destruct (IH _ _ H1) as (H2 & Hp2 & Ht2 & Hok).
  change (lent_of (x :: l)) with (option_list (cqe_buffer x.1) ++ lent_of l).
  change (owed_of (x :: l)) with (final x ++ owed_of l).
  assert (Hp : in_flight (world s) ≡ₚ in_flight (world s2) ++ final x ++ owed_of l).
  { rewrite Hp1, Hp2. solve_Permutation. }
  split; [|split; [done|]].
  - eapply Inv_lists; [| |exact H2]; solve_Permutation.
  - split; [congruence|]. do 2 (split; [done|]). split; [|done].
    rewrite <- Hp. destruct Hserve as [l1 e l2 ? ? ? ? -> ? ? ?]. simpl. set_solver.
Qed.

Lemma serves_stops s l s' : serves s l s' -> stops (worker s') = stops (worker s).
Proof. induction 1 as [|s x s1 l s2 [] _ IH]; [done|]. by rewrite IH. Qed.

(** The shutdown's fields change together. *)
Definition stop_ok (w : IoUringWorker) : Prop :=
  cancellation_started w = shutting_down w /\
  (shutting_down w = true -> is_Some (shutdown_started w)).

Lemma stop_ok_same w w' : stops w' = stops w -> stop_ok w -> stop_ok w'.
Proof. intros [= E1 E2 E3 _] [H1 H2]. unfold stop_ok. by rewrite E1, E2, E3. Qed.

(** What holds at the top of the loop of [run]. *)
Definition Top (s : State) : Prop :=
  (exists others, Inv None [] [] others s) /\ armed [] s /\ stop_ok (worker s).

Lemma handle_batch_spec l others s :
  Inv None (lent_of l) (owed_of l) others s -> batch_ok (in_flight (world s)) l ->
  armed (owed_of l) s -> stop_ok (worker s) ->
  wp (for_all handle_completion l.*1)
    (fun _ s' => Top s' /\ stops (worker s') = stops (worker s)) (fun _ => True) s.
Proof.
  revert others s. induction l as [|x l IH]; intros others s H Hok Harmed Hstop.
  - split; [|done]. split; [by eexists|done].
  - destruct Hok as (Huser & Hadm & Hin & Hok). simpl. apply wp_bind.
    eapply wp_mono; [by apply (handle_completion_spec (lent_of l) (owed_of l) others)| |done].
    intros [] s' ((others' & H') & (Hg & _ & Es) & Harmed').
    eapply wp_mono; [eapply (IH others'); [done| |done|by eapply stop_ok_same]| |done].
    + by eapply batch_ok_grows.
    + intros [] s'' [H'' Es'']. split; [done|congruence].
Qed.

Lemma ring_submit_spec (P : State -> Prop) s :
  (forall s', worker s' = worker s -> in_flight (world s') = in_flight (world s) ->
     buffer_head (world s') = buffer_head (world s) -> P s') ->
  wp ring_submit (fun _ => P) (fun _ => True) s.
Proof.
  intros H. unfold ring_submit. destruct s as [w [u inf h]]. apply wp_bind, wp_call.
  intros r u' _. apply wp_lift; [|done]. intros a _. by apply H.
Qed.

Lemma Inv_same x lent owed others s s' :
  Inv x lent owed others s -> worker s' = worker s ->
  in_flight (world s') = in_flight (world s) ->
  buffer_head (world s') = buffer_head (world s) -> Inv x lent owed others s'.
Proof.
  intros [Hw Hb Hm Ho Hp] E1 E2 E3. constructor; rewrite ?E1, ?E2; try done.
  apply (world_ok_frame _ _ _ Hw); [by rewrite E1|done].
Qed.

Lemma Top_same s s' :
  Top s -> worker s' = worker s -> in_flight (world s') = in_flight (world s) ->
  buffer_head (world s') = buffer_head (world s) -> Top s'.
Proof.
  intros [(others & H) [Ha Hs]] E1 E2 E3. split; [|split].
  - exists others. by eapply Inv_same.
  - unfold armed in *. by rewrite E1, E2.
  - by rewrite E1.
Qed.

Lemma after_wait_spec l s s1 :
  Top s -> serves s l s1 ->
  wp (after_wait l.*1) (fun _ s' => Top s' /\ stops (worker s') = stops (worker s))
    (fun _ => True) s1.
Proof.
  intros [(others & H) [Harmed Hstop]] Hs.
  destruct (serves_spec _ _ _ _ _ _ H Hs) as (H1 & Hp & Ht & Hok).
  pose proof (serves_stops _ _ _ Hs) as Es.
  rewrite !app_nil_r in H1. unfold after_wait. apply wp_bind.
  eapply wp_mono; [eapply handle_batch_spec; [exact H1|done| |by eapply stop_ok_same]| |done].
  - unfold armed in *. rewrite Ht, <- Hp. by rewrite app_nil_r in Harmed.
  - intros [] s2 [H2 Es2]. apply ring_submit_spec. intros s3 E1 E2 E3.
    split; [by eapply Top_same|]. rewrite E1. congruence.
Qed.

(** ** Before waiting, and the start *)

Lemma push_cancels_spec lent owed others targets s :
  Inv None lent owed others s ->
  finishes lent owed others (for_all (fun t => push_entry (cancel_entry t)) targets) s.
Proof.
  intros H. eapply for_all_finishes; [|exact H]. intros t o s' H'.
  apply push_other_finishes; [done|]. apply is_other_cancel. unfold reserved. set_solver.
Qed.

Lemma Inv_control x lent owed others w w' u :
  Inv x lent owed others (mkState w u) ->
  buffer_ring w' = buffer_ring w -> listeners w' = listeners w -> servers w' = servers w ->
  connections w' = connections w -> generations w' = generations w ->
  buffer_size w' = buffer_size w -> balancer w' = balancer w ->
  Inv x lent owed others (mkState w' u).
Proof.
  intros [[H1 H2 H3 H4 H5 H6 H7] Hb Hm Ho Hp] E1 E2 E3 E4 E5 E6 E7. simpl in *.
  constructor; simpl; rewrite ?E4, ?E6, ?E2; try done.
  by constructor; simpl; rewrite ?E1, ?E2, ?E3, ?E5, ?E6, ?E7.
Qed.

Lemma Top_ends others s s' :
  armed [] s -> stop_ok (worker s) -> ends [] [] others s s' -> Top s'.
Proof.
  intros Ha Hs (extra & H & Hi & Ht & Es). split; [by eexists|]. split.
  - unfold armed in *. rewrite Ht. set_solver.
  - by eapply stop_ok_same.
Qed.

Lemma begin_shutdown_spec s :
  Top s ->
  wp begin_shutdown
    (fun _ s' => Top s' /\ shutting_down (worker s') = true /\
       (shutting_down (worker s) = true -> stops (worker s') = stops (worker s)))
    (fun _ => True) s.
Proof.
  intros [(others & H) [Ha Hstop]]. unfold begin_shutdown. destruct s as [w u].
  apply wp_bind, wp_gets. destruct Hstop as [Hc Hstarted]. simpl in *.
  destruct (cancellation_started w) eqn:Ec.
  { apply wp_skip. split; [|done]. split; [by eexists|]. split; [done|].
    split; simpl; [congruence|done]. }
  apply wp_bind. eapply wp_call_Inv; [exact H|]. intros now [w1 u1] H1 Hg1 E1. simpl in E1. subst w1.
  apply wp_bind, wp_modify. apply wp_bind, wp_gets.
  apply wp_bind, wp_lift; [|done]. intros targets _. apply wp_bind, wp_modify.
  apply wp_bind. eapply wp_mono; [eapply push_cancels_spec; by eapply Inv_control| |done].
  intros [] s2 H2. apply ring_submit_spec. intros s3 E1 E2 E3.
  assert (Hsd : shutting_down (worker s2) = true).
  { destruct H2 as (_ & _ & _ & _ & Es). by injection Es. }
  split; [|split; [by rewrite E1|simpl; congruence]].
  apply (Top_same s2); [|done..]. eapply Top_ends; [| |exact H2].
  - destruct Hg1 as (Hi1 & Ht1 & _). unfold armed in *.
    change (timer_entry w ∈ in_flight u1 ++ []). simpl in Hi1. set_solver.
  - split; [done|]. simpl. eauto.
Qed.

Lemma wp_call_Top {A} (f : World -> A * World) (Q : A -> State -> Prop) s :
  Top s -> (forall s', Top s' -> worker s' = worker s ->
            Q (f (outside (world s))).1 s') -> wp (call f) Q (fun _ => True) s.
Proof.
  intros [(others & H0) [Ha Hs]] HQ. destruct s as [w [u inf h]]. apply wp_call.
  intros a u' E. simpl in HQ. rewrite E in HQ. apply HQ; [|done].
  split; [|done]. exists others. destruct H0 as [Hw Hb Hm Ho He]. constructor; try done.
  by apply (world_ok_frame _ _ _ Hw).
Qed.

Lemma before_wait_spec s :
  Top s ->
  wp before_wait
    (fun _ s' => Top s' /\
       (shutting_down (worker s) = true -> stops (worker s') = stops (worker s)))
    (fun _ => True) s.
Proof.
  intros H. unfold before_wait.
  apply wp_bind. apply wp_call_Top; [done|]. intros s1 H1 E1.
  apply wp_bind. eapply wp_mono with (Q := fun _ s' => Top s' /\
    (shutting_down (worker s) = true -> stops (worker s') = stops (worker s)))
    (R := fun _ => True); [| |done].
  { destruct (shutdown_is_requested _).1; [|apply wp_skip; by rewrite E1].
    eapply wp_mono; [by apply begin_shutdown_spec| |done]. intros [] s' (Ht & _ & Es).
    rewrite E1 in Es. done. }
  intros [] [w2 u2] [H2 Es]. apply wp_bind, wp_gets. apply wp_bind, wp_gets.
  case_match; [by apply wp_ret|]. apply wp_bind.
  eapply wp_mono with (Q := fun _ s' => Top s' /\
    (shutting_down (worker s) = true -> stops (worker s') = stops (worker s)))
    (R := fun _ => True); [|by intros|done].
  destruct (shutting_down w2); [|by apply wp_ret]. unfold shutdown_deadline_reached.
  apply wp_bind, wp_gets. destruct (shutdown_started w2); [|by apply wp_ret].
  apply wp_bind, wp_call_Top; [done|]. intros [w3 u3] H3 E3. apply wp_bind, wp_gets.
  apply wp_ret. simpl in E3. subst w3. done.
Qed.

Lemma submit_accepts_spec l : forall lent owed others s,
  Inv None lent owed others s ->
  wp (submit_accepts l) (fun _ s' => Inv None lent owed others s' /\ grows s s')
    (fun _ => True) s.
Proof.
  induction l as [|i l IH]; intros lent owed others s H; simpl; [by apply wp_skip|].
  apply wp_bind. eapply wp_mono; [by apply submit_accept_spec| |done].
  intros [] s1 [H1 Hg1]. eapply wp_mono; [by apply IH| |done].
  intros [] s2 [H2 Hg2]. split; [done|]. by eapply grows_trans.
Qed.

Lemma start_spec others s :
  Inv None [] [] others s -> shutting_down (worker s) = false ->
  cancellation_started (worker s) = false -> wp start (fun _ => Top) (fun _ => True) s.
Proof.
  intros H Hsd Hcs. unfold start, submit_initial_accepts. destruct s as [w u].
  apply wp_bind, wp_bind, wp_gets. apply wp_bind.
  eapply wp_mono; [by apply submit_accepts_spec| |done].
  intros [] s1 [H1 Hg1]. apply ring_submit_spec. intros [w2 u2] E1 E2 E3.
  assert (H2 : Inv None [] [] others (mkState w2 u2)) by (by eapply Inv_same).
  assert (Hstop : stop_ok w2).
  { destruct Hg1 as (_ & _ & Es). simpl in *. subst w2. apply (stop_ok_same w); [done|].
    split; congruence. }
  clear H H1 Hg1 E1 E2 E3 Hsd Hcs.
  assert (Hread : forall fd user o s (Q : unit -> State -> Prop), user ∈ reserved ->
    Inv None [] [] o s ->
    (forall s' , Inv None [] [] (o ++ [mkEntry (OpRead fd) user]) s' -> worker s' = worker s ->
       mkEntry (OpRead fd) user ∈ in_flight (world s') -> Q tt s') ->
    wp (push_entry (mkEntry (OpRead fd) user)) Q (fun _ => True) s).
  { intros fd user o s Q Hu Ho HQ.
    eapply wp_mono; [apply push_other_spec; [exact Ho|by apply is_other_read]| |done].
    intros [] s' (H' & _ & E & Hin). by apply HQ. }
  apply wp_bind. unfold submit_shutdown_read. apply wp_bind, wp_gets.
  eapply Hread; [apply reserved_spec; tauto|exact H2|]. intros [w3 u3] H3 E3 _.
  apply wp_bind. unfold submit_dns_read. apply wp_bind, wp_gets.
  eapply Hread; [apply reserved_spec; tauto|exact H3|]. intros [w4 u4] H4 E4 _.
  apply wp_bind. unfold submit_timer_read. apply wp_bind, wp_gets.
  eapply Hread; [apply reserved_spec; tauto|exact H4|]. intros [w5 u5] H5 E5 Hin.
  apply ring_submit_spec. intros s6. apply Top_same. split; [by eexists|].
  simpl in *. subst w5 w4 w3. split; [unfold armed; simpl; set_solver|done].
Qed.

Lemma reachable_Top others s0 s :
  Inv None [] [] others s0 -> shutting_down (worker s0) = false ->
  cancellation_started (worker s0) = false -> reachable s0 s -> Top s.
Proof.
  intros H0 Hsd Hcs. induction 1 as [s Hs|s s1 l s2 s3 _ IH Hb Hserves Ha].
  - pose proof (start_spec _ _ H0 Hsd Hcs) as H. unfold wp in H. by rewrite Hs in H.
  - pose proof (before_wait_spec _ IH) as H1. unfold wp in H1. rewrite Hb in H1.
    destruct H1 as [H1 _].
    pose proof (after_wait_spec _ _ _ H1 Hserves) as H3. unfold wp in H3. rewrite Ha in H3.
    apply H3.
Qed.

(** ** The worker that [new] returns *)

Lemma new_Inv answers ring_size size gs ss ssls l pl dl groups w u :
  new answers ring_size size gs ss ssls l pl dl groups = Some (Ok w) ->
  Forall (fun c => c = None) ssls -> map_Forall group_wf groups ->
  Forall (server_wf groups) ss ->
  Inv None [] [] [] (mkState w (mkKernel u [] 0)) /\
  shutting_down w = false /\ cancellation_started w = false.
Proof.
  intros H Hplain Hgroups Hss. unfold new in H.
  destruct (s_build answers); [|done]. destruct (s_probe answers); [|done].
  destruct (validate_required _); [|done].
  destruct (BufferRing.register _ _ _ _ _) as [registered|] eqn:Hreg; [|done].
  simpl in H. injection H as H. apply bind_ok in H as (r & -> & H).
  destruct (negb _); [done|]. inv_ok.
  destruct (BufferRing.register_implements _ _ _ _ _ _ Hreg) as [Himpl _].
  split; [|done]. constructor; try done; simpl.
  - constructor; simpl; try done.
    + apply Forall_fmap, Forall_forall. intros [[socket default] indices] _. simpl.
      destruct (ssls !! _) as [c|] eqn:Hc; [|done].
      by apply (proj1 (Forall_lookup _ _) Hplain _ _ Hc).
    + apply Forall_fmap, Forall_forall. by intros [[socket default] indices] _.
    + unfold BufferRing.register in Hreg.
      destruct ((ring_size =? 0) || _ || _); [done|].
      by destruct (N.leb_spec (2 ^ 32) size).
    + by exists [], (BufferRing.mkPool (BufferRing.all_ids ring_size) []).
  - assert (Hnone : forall i, accepts i (registered_listener ssls <$> gs) = []).
    { induction gs as [|[[socket default] indices] gs IH]; intros i; [done|]. simpl.
      rewrite IH. by case_match. }
    by rewrite Hnone.
Qed.

End Loop.
