(* ===== verification/UringProps.v ===== *)
(** * What the io_uring worker guarantees

    The properties of the io_uring event loop over plain connections, for everything
    the kernel may answer; that stale completions are ignored; and what becomes of a
    TLS connection while it shakes hands. *)

From S2P Require Import Prelude RustStd Config Http Router LoadBalancer Proxy StaticFiles Runtime Handler Operation BufferRing UringConnection Uring UringInv UringScript UringLoop.

Import Uring.

Local Open Scope N_scope.

Section Properties.

Context {env : UringEnv} {fs : Filesystem} {mime : MimeGuess}.

Notation M := (Handler IoUringWorker Kernel).
Notation State := (State IoUringWorker Kernel).

(** A worker that [new] has just returned, for a checked configuration without TLS. *)
Definition plain_start (s : State) : Prop :=
  exists answers ring_size size gs ss ssls l pl dl groups,
    new answers ring_size size gs ss ssls l pl dl groups = Some (Ok (worker s)) /\
    Forall (fun c => c = None) ssls /\ map_Forall group_wf groups /\
    Forall (server_wf groups) ss /\ in_flight (world s) = [] /\ buffer_head (world s) = 0.

Lemma plain_start_Inv s :
  plain_start s ->
  Inv None [] [] [] s /\ shutting_down (worker s) = false /\
  cancellation_started (worker s) = false.
Proof.
  intros (answers & ring_size & size & gs & ss & ssls & l & pl & dl & groups & H & H1 & H2 & H3
    & Hi & Hh).
  destruct s as [w [u inf h]]. simpl in *. subst. by eapply new_Inv.
Qed.

Lemma plain_start_never_panics `{!UringEnvOk env} s : plain_start s -> start s <> Panicked.
Proof.
  intros (H & H1 & H2)%plain_start_Inv E. pose proof (start_spec _ _ H H1 H2) as Hs.
  unfold wp in Hs. by rewrite E in Hs.
Qed.

Lemma reachable_plain `{!UringEnvOk env} s0 s : plain_start s0 -> reachable s0 s -> Top s.
Proof. intros (H & H1 & H2)%plain_start_Inv. by eapply reachable_Top. Qed.

(** The slice of a live connection's memory that an entry designates: what its
    response, or the request it forwards, still has to send. *)
Definition owns (w : IoUringWorker) (e : Entry) (fd : N) (b : bytes) : Prop :=
  exists k c, connections w !! k = Some c /\
    ((user_data e = operation Write (connection_id k c) /\ fd = socket c /\
      b = drop (N.to_nat (write_offset c)) (write_buffer c)) \/
     (exists p, proxy c = Some p /\ user_data e = operation ProxyWrite (connection_id k c) /\
        upstream p = Some fd /\
        b = drop (N.to_nat (request_offset p)) (proxy_buffer p))).

(** Whom an entry at the kernel belongs to: a live connection that waits for it, and
    whose socket, upstream, address and bytes it designates; a listener with a pending
    accept; or, by one of its reserved identifiers, the worker (a read of a descriptor,
    a cancellation). A receive has no memory of its own: the kernel takes a buffer of the
    shared ring when data arrives. *)
Inductive belongs (w : IoUringWorker) : Entry -> Prop :=
| belongs_receive k c :
    connections w !! k = Some c -> read_pending c = true ->
    belongs w (recv_entry (connection_id k c) (socket c) (buffer_size w))
| belongs_send k c :
    connections w !! k = Some c -> write_pending c = true ->
    belongs w (write_entry (connection_id k c) (socket c)
      (drop (N.to_nat (write_offset c)) (write_buffer c)))
| belongs_connect k c p fd a :
    connections w !! k = Some c -> proxy c = Some p -> operation_pending p = true ->
    upstream p = Some fd -> phase p = Connecting -> address p = Some a ->
    belongs w (connect_entry (connection_id k c) fd a)
| belongs_forward k c p fd :
    connections w !! k = Some c -> proxy c = Some p -> operation_pending p = true ->
    upstream p = Some fd -> phase p = WritingRequest ->
    belongs w (proxy_write_entry (connection_id k c) fd
      (drop (N.to_nat (request_offset p)) (proxy_buffer p)))
| belongs_relay k c p fd :
    connections w !! k = Some c -> proxy c = Some p -> operation_pending p = true ->
    upstream p = Some fd -> phase p = ReadingResponse ->
    belongs w (proxy_read_entry (connection_id k c) fd (buffer_size w))
| belongs_accept i l e :
    listeners w !! i = Some l -> accept_pending l = true ->
    accept_entry (N.of_nat i) l = Ok e -> belongs w e
| belongs_worker e : is_other e -> belongs w e.

Lemma activity_belongs w k c e :
  connections w !! k = Some c -> activity (buffer_size w) k c = Some e -> belongs w e.
Proof.
  intros Hk Ha.
  destruct (activity_inv _ _ _ _ Ha) as [[Hr ->]|[(_ & Hw & ->)|
    (p & fd & _ & _ & Hp & Hop & Hup & [(Hph & a & Hadr & ->)|[[Hph ->]|[Hph ->]]])]].
  - by constructor.
  - by constructor.
  - by apply (belongs_connect w k c p fd a).
  - by apply (belongs_forward w k c p fd).
  - by apply (belongs_relay w k c p fd).
Qed.

(** The entry belongs to a connection's operations. *)
Definition entry_of (id : ConnectionId) (e : Entry) : Prop :=
  exists o, o <> Accept /\ user_data e = operation o id.

Lemma Top_never_panics `{!UringEnvOk env} s :
  Top s ->
  before_wait s <> Panicked /\
  forall s1 l s2, before_wait s = Ret false s1 -> serves s1 l s2 ->
    after_wait l.*1 s2 <> Panicked.
Proof.
  intros H. pose proof (before_wait_spec _ H) as Hb. unfold wp in Hb. split.
  - intros E. by rewrite E in Hb.
  - intros s1 l s2 E Hs Ea. rewrite E in Hb. destruct Hb as [H1 _].
    pose proof (after_wait_spec _ _ _ H1 Hs) as Ha. unfold wp in Ha. by rewrite Ea in Ha.
Qed.

Lemma Top_belongs s e : Top s -> e ∈ in_flight (world s) -> belongs (worker s) e.
Proof.
  intros [(others & H) _] He.
  assert (Hin : e ∈ in_flight (world s) ++ []) by (by rewrite app_nil_r).
  rewrite (inv_entries _ _ _ _ _ H), !elem_of_app in Hin. destruct Hin as [Hin|[Hin|Hin]].
  - apply elem_of_activities in Hin as (k & c & Hk & Ha). by eapply activity_belongs.
  - apply elem_of_accepts in Hin as (i & l & Hl & Ha). unfold accept_of in Ha.
    rewrite N.add_0_l in Ha. destruct (accept_entry _ l) as [e'|] eqn:El; [|done].
    destruct (accept_pending l) eqn:Ep; [|done]. injection Ha as <-.
    by eapply belongs_accept.
  - apply belongs_worker.
    exact (proj1 (Forall_forall _ _) (inv_others _ _ _ _ _ H) e Hin).
Qed.

(** An entry that sends is over the bytes of a live connection. *)
Lemma belongs_owns w e fd b : belongs w e -> op e = OpSend fd b -> owns w e fd b.
Proof.
  intros [k c Hk Hr|k c Hk Hw|k c p fd' a Hk Hp _ Hup|k c p fd' Hk Hp _ Hup|k c p fd' Hk Hp _ Hup
    |i l e' Hl _ He|e' [_ Ho]] Hop; try done.
  - injection Hop as <- <-. exists k, c. split; [done|]. by left.
  - injection Hop as <- <-. exists k, c. split; [done|]. right. by exists p.
  - unfold accept_entry in He. destruct (accept_operation _ l); [|done]. by injection He as <-.
  - by rewrite Hop in Ho.
Qed.

Lemma encode_inj o o' : operation_wf o -> operation_wf o' -> encode o = encode o' -> o = o'.
Proof.
  intros H H' E. pose proof (encode_range o H). pose proof (encode_range o' H').
  pose proof (proj2 (decode_Some (encode o) o ltac:(lia)) (conj H eq_refl)) as D.
  pose proof (proj2 (decode_Some (encode o') o' ltac:(lia)) (conj H' eq_refl)) as D'.
  rewrite E in D. congruence.
Qed.

Lemma entry_of_inv id e o :
  slot id < 2 ^ 32 -> 0 < generation id < 2 ^ 16 -> operation_wf o ->
  user_data e = encode o -> entry_of id e ->
  kind o <> Accept /\ op_slot o = slot id /\ op_generation o = generation id.
Proof.
  intros Hs Hg Hwf He (k & Hk & E). rewrite He in E.
  apply encode_inj in E; [|done|by split]. by subst o.
Qed.

(** Entries that are not the slot's carry other identifiers. *)
Lemma foreign_entry x lent owed others s k c e :
  Inv x lent owed others s -> connections (worker s) !! k = Some c ->
  e ∈ activities (size_of s) (delete k (connections (worker s)))
      ++ accepts 0 (listeners (worker s)) ++ others ->
  ~ entry_of (connection_id k c) e.
Proof.
  intros H Hk He Hof. destruct (inv_base _ _ _ _ _ H k c Hk) as (_ & Hk32 & Hgen & _).
  rewrite !elem_of_app in He. destruct He as [He|[He|He]].
  - apply elem_of_activities in He as (j & d & [Hne Hj]%lookup_delete_Some & Ha).
    destruct (inv_base _ _ _ _ _ H j d Hj) as (_ & Hj32 & Hgj & _).
    assert (Hwf : forall o, operation_wf (mkOperationId j (conn_generation d) o)) by done.
    assert (Ho : exists o, user_data e = encode (mkOperationId j (conn_generation d) o)).
    { destruct (activity_inv _ _ _ _ Ha) as [[_ ->]|[(_ & _ & ->)|
        (p & fd & _ & _ & _ & _ & _ & [(_ & a & _ & ->)|[[_ ->]|[_ ->]]])]];
        [by exists Read|by exists Write|by exists ProxyConnect|by exists ProxyWrite|by exists ProxyRead]. }
    destruct Ho as [o Ho]. eapply entry_of_inv in Hof as (_ & E & _); try done.
    by apply Hne.
  - apply elem_of_accepts in He as (i & l & Hl & Ha).
    pose proof (proj1 (Forall_lookup _ _) (ok_listener_generations _ _ (inv_world _ _ _ _ _ H))
      _ _ Hl) as Hg.
    unfold accept_of, accept_entry, accept_operation in Ha. rewrite N.add_0_l in Ha.
    destruct (N.leb_spec (2 ^ 32) (N.of_nat i)); [done|]. simpl in Ha.
    destruct (accept_pending l); [|done]. injection Ha as <-.
    eapply (entry_of_inv _ _ (mkOperationId (N.of_nat i) (l_generation l) Accept)) in Hof
      as [? _]; try done. rewrite Hg. by split.
  - destruct (proj1 (Forall_forall _ _) (inv_others _ _ _ _ _ H) e He) as [Hres _].
    destruct Hof as (o & _ & E). rewrite E in Hres. revert Hres. by apply encode_not_reserved.
Qed.

(** What a connection waits for when it has no entry at the kernel. *)
Definition waits_elsewhere (c : UringConnection) : Prop :=
  phase <$> proxy c = Some Resolving \/ (static_stream c <> None /\ write_buffer c = []).

Lemma Top_waits s k c :
  Top s -> connections (worker s) !! k = Some c ->
  exists mine rest, in_flight (world s) ≡ₚ mine ++ rest /\
    Forall (fun e => ~ entry_of (connection_id k c) e) rest /\
    ((exists e, mine = [e] /\ entry_of (connection_id k c) e) \/
     (mine = [] /\ waits_elsewhere c)).
Proof.
  intros [(others & H) _] Hk. pose proof (inv_entries _ _ _ _ _ H) as Hp.
  rewrite app_nil_r, (activities_delete _ _ k c Hk), <- app_assoc in Hp.
  eexists _, _. split; [exact Hp|]. split.
  { apply Forall_forall. intros e He. by eapply foreign_entry. }
  destruct (activity _ k c) as [e|] eqn:Ha.
  - left. exists e. split; [done|].
    destruct (activity_inv _ _ _ _ Ha) as [[_ ->]|[(_ & _ & ->)|
      (p & fd & _ & _ & _ & _ & _ & [(_ & a & _ & ->)|[[_ ->]|[_ ->]]])]];
      [by exists Read|by exists Write|by exists ProxyConnect|by exists ProxyWrite|by exists ProxyRead].
  - right. split; [done|]. unfold waits_elsewhere.
    destruct (inv_mode _ _ _ _ _ H k c Hk ltac:(done))
      as [Hr Hw Hpr Hst|Hr Hw Hlt Hm|Hr Hw Hpr Hst Hb Ho|p Hr Hw Hst Hpr [_ Hok]].
    + unfold activity in Ha. by rewrite Hr in Ha.
    + unfold activity in Ha. by rewrite Hr, Hw in Ha.
    + by right.
    + left. rewrite (activity_proxy k _ c p Hr Hw Hpr) in Ha. rewrite Hpr. simpl.
      destruct (phase p); [done|exfalso..].
      * destruct Hok as (Hop & [fd Hfd] & [a Had]). by rewrite Hop, Hfd, Had in Ha.
      * destruct Hok as (Hop & [fd Hfd]). by rewrite Hop, Hfd in Ha.
      * destruct Hok as (Hop & [fd Hfd]). by rewrite Hop, Hfd in Ha.
Qed.

(** ** Properties *)

(** C2. No answer of the kernel makes the io_uring worker panic on plain connections:
    from the state [new] returns for a checked configuration, neither the start of
    [run] nor any iteration of its loop reaches an [unwrap] of [None], a vacant slot
    or a slice out of range, whatever completions the kernel posts for the entries it
    holds, in whatever order and batches, and whatever the resolver, the files and the
    clock do. *)
Theorem uring_worker_never_panics `{!UringEnvOk env} s0 s :
  plain_start s0 ->
  start s0 <> Panicked /\
  (reachable s0 s ->
   before_wait s <> Panicked /\
   forall s1 l s2, before_wait s = Ret false s1 -> serves s1 l s2 ->
     after_wait l.*1 s2 <> Panicked).
Proof.
  intros H0. split.
  - by apply plain_start_never_panics.
  - intros Hs. by apply Top_never_panics, (reachable_plain s0).
Qed.

(** C4. What the kernel works on is owned: in every reachable state of a worker over plain
    connections (servers without TLS), each entry in flight belongs to a live connection
    that waits for it, to a listener with a pending accept, or to the worker itself; and
    each send in flight, to a client or to an upstream, designates exactly the bytes that
    the live connection whose identifier it carries still holds at the offset it has
    reached, so that no buffer in flight is freed, reused or changed. *)
Theorem kernel_memory_is_owned `{!UringEnvOk env} s0 s e :
  plain_start s0 -> reachable s0 s -> e ∈ in_flight (world s) ->
  belongs (worker s) e /\ forall fd b, op e = OpSend fd b -> owns (worker s) e fd b.
Proof.
  intros H0 Hs He. pose proof (Top_belongs s e (reachable_plain s0 s H0 Hs) He) as Hb.
  split; [exact Hb|]. intros fd b. by apply belongs_owns.
Qed.

(** C19. No connection of the io_uring worker is forgotten and none is waited for twice:
    in every reachable state of a worker over plain connections, the kernel holds
    exactly one entry that carries the connection's identifier, or it holds none and
    the connection waits for the resolver or for the next chunk of a file; and the
    read of the timer, which polls those, is in flight. *)
Theorem every_connection_waits `{!UringEnvOk env} s0 s k c :
  plain_start s0 -> reachable s0 s -> connections (worker s) !! k = Some c ->
  timer_entry (worker s) ∈ in_flight (world s) /\
  exists mine rest, in_flight (world s) ≡ₚ mine ++ rest /\
    Forall (fun e => ~ entry_of (connection_id k c) e) rest /\
    ((exists e, mine = [e] /\ entry_of (connection_id k c) e) \/
     (mine = [] /\ waits_elsewhere c)).
Proof.
  intros H0 Hs Hk. pose proof (reachable_plain _ _ H0 Hs) as Ht. split.
  - destruct Ht as (_ & Ha & _). unfold armed in Ha. by rewrite app_nil_r in Ha.
  - by apply Top_waits.
Qed.

(** An iteration of the loop that does not return. *)
Definition iteration (s s' : State) : Prop :=
  exists s1 l s2, before_wait s = Ret false s1 /\ serves s1 l s2 /\
    after_wait l.*1 s2 = Ret tt s'.

Lemma iteration_stops `{!UringEnvOk env} s s' :
  Top s -> shutting_down (worker s) = true -> iteration s s' ->
  Top s' /\ stops (worker s') = stops (worker s).
Proof.
  intros H Hsd (s1 & l & s2 & Hb & Hs & Ha).
  pose proof (before_wait_spec _ H) as H1. unfold wp in H1. rewrite Hb in H1.
  destruct H1 as [H1 E1]. pose proof (after_wait_spec _ _ _ H1 Hs) as H3.
  unfold wp in H3. rewrite Ha in H3. destruct H3 as [H3 E3]. split; [done|].
  rewrite E3. by apply E1.
Qed.

Lemma iterations_stop `{!UringEnvOk env} s s' :
  Top s -> shutting_down (worker s) = true -> rtc iteration s s' ->
  Top s' /\ stops (worker s') = stops (worker s).
Proof.
  intros H Hsd Hs. induction Hs as [s|s s1 s2 H1 _ IH]; [done|].
  destruct (iteration_stops _ _ H Hsd H1) as [Ht E].
  destruct IH as [Ht' E']; [done| |split; [done|congruence]]. by injection E; intros; congruence.
Qed.

(** [before_wait] of a worker that is already stopping only reads. *)
Lemma before_wait_stopping s :
  Top s -> shutting_down (worker s) = true ->
  exists t0, shutdown_started (worker s) = Some t0 /\
  exists w1, (shutdown_is_requested (outside (world s))).2 = w1 /\
    before_wait s =
      (if shutdown_drained (worker s)
       then Ret true (mkState (worker s) (mkKernel w1 (in_flight (world s)) (buffer_head (world s))))
       else
         let '(t, w2) := now w1 in
         Ret (drain_timeout (limits (worker s)) <=? saturating_sub t t0)
           (mkState (worker s) (mkKernel w2 (in_flight (world s)) (buffer_head (world s))))).
Proof.
  intros (_ & _ & [Hc Hst]) Hsd. destruct (Hst Hsd) as [t0 Ht0]. exists t0. split; [done|].
  eexists. split; [done|]. destruct s as [w [u inf h]]. simpl in *.
  assert (Hbegin : forall k, begin_shutdown (mkState w k) = Ret tt (mkState w k)).
  { intros k. unfold begin_shutdown, gets, mbind, Handler_bind. simpl. by rewrite Hc, Hsd. }
  unfold before_wait, call, sys, gets, mbind, Handler_bind. simpl.
  destruct (shutdown_is_requested u) as [r w1]. simpl.
  assert (E : (if r then begin_shutdown else skip) (mkState w (mkKernel w1 inf h))
              = Ret tt (mkState w (mkKernel w1 inf h))) by (by destruct r).
  rewrite E. simpl. rewrite Hsd. destruct (shutdown_drained w); [done|]. simpl.
  unfold shutdown_deadline_reached, clock, call, sys, gets, mbind, Handler_bind. simpl.
  rewrite Ht0. simpl. by destruct (now w1).
Qed.

(** C24. A stopping io_uring worker stops: once it has begun to shut down, it never
    starts over, the next iteration of [run] returns as soon as its listeners' accepts
    are cancelled and its connections are gone, and at the latest the first iteration
    that finds the clock [drain_timeout] past the start of the shutdown returns,
    whatever the kernel has answered in between; and the timer's read stays in flight,
    so that the wait for completions ends. *)
Theorem uring_drain_finishes `{!UringEnvOk env} s0 s s' :
  plain_start s0 -> reachable s0 s -> shutting_down (worker s) = true ->
  rtc iteration s s' ->
  exists t0, shutdown_started (worker s) = Some t0 /\
    shutting_down (worker s') = true /\ shutdown_started (worker s') = Some t0 /\
    timer_entry (worker s') ∈ in_flight (world s') /\
    (shutdown_drained (worker s') = true -> exists s1, before_wait s' = Ret true s1) /\
    ((forall w, t0 + drain_timeout (limits (worker s')) <= (now w).1) ->
     exists s1, before_wait s' = Ret true s1).
Proof.
  intros H0 Hs Hsd Hrun. pose proof (reachable_plain _ _ H0 Hs) as Ht.
  destruct (iterations_stop _ _ Ht Hsd Hrun) as [Ht' [= E1 E2 _ _]].
  rewrite Hsd in E1. destruct (before_wait_stopping _ Ht' E1) as (t0 & Et0 & w1 & _ & Hb).
  exists t0. split; [congruence|]. do 2 (split; [done|]). split; [|split].
  - destruct Ht' as (_ & Ha & _). unfold armed in Ha. by rewrite app_nil_r in Ha.
  - intros Hd. rewrite Hd in Hb. by eexists.
  - intros Hclock. rewrite Hb. destruct (shutdown_drained _); [by eexists|].
    specialize (Hclock w1). destruct (now w1) as [t w2]. simpl in Hclock.
    rewrite (proj2 (N.leb_le _ _)); [by eexists|]. unfold saturating_sub. lia.
Qed.

(** ** Stale completions *)

Lemma copy_and_release_total r id n :
  BufferRing.ring_wf r -> is_Some (BufferRing.copy_and_release id n r).
Proof.
  intros Hwf. pose proof Hwf as (_ & He & _). unfold BufferRing.copy_and_release, BufferRing.publish.
  destruct (BufferRing.buffers r !! N.to_nat id) as [b|] eqn:Hb; [|done].
  apply lookup_lt_Some in Hb. rewrite BufferRing.land_mask by done.
  pose proof (N.mod_lt (BufferRing.tail r) (BufferRing.mask r + 1) ltac:(lia)).
  rewrite (proj2 (N.leb_gt _ _)), (proj2 (N.leb_gt _ _)) by (unfold len in *; lia). by eexists.
Qed.

(** Only the ring of receive buffers differs. *)
Definition releases (s s' : State) : Prop :=
  exists r, s' = mkState (set_buffer_ring r (worker s)) (world s).

Lemma take_received_releases result buffer s (Q : option bytes -> State -> Prop) (R : State -> Prop) :
  BufferRing.ring_wf (buffer_ring (worker s)) ->
  (forall b s', releases s s' -> Q b s') -> (forall s', releases s s' -> R s') ->
  wp (take_received result buffer) Q R s.
Proof.
  intros Hwf HQ HR. assert (Hs : releases s s).
  { exists (buffer_ring (worker s)). by destruct s as [[] u]. }
  assert (Hcopy : forall id n (Q' : io_result bytes -> State -> Prop),
    (forall b s', releases s s' -> Q' b s') -> wp (copy_and_release id n) Q' R s).
  { intros id n Q' HQ'. unfold copy_and_release. destruct s as [w u]. apply wp_bind, wp_gets.
    destruct (copy_and_release_total _ id n Hwf) as [[b r] E]. simpl in E. rewrite E.
    apply wp_bind, (wp_unwrap _ (b, r)); [done|]. apply wp_bind, wp_modify, wp_ret.
    apply HQ'. by exists r. }
  unfold take_received. case_match.
  - destruct buffer as [id|]; [|by apply wp_fail, HR]. apply wp_bind, Hcopy. intros b s' Hs'.
    apply wp_bind, wp_lift; intros; [by apply wp_ret, HQ|by apply HR].
  - apply wp_bind. destruct buffer as [id|]; [|by apply wp_skip, wp_ret, HQ].
    apply wp_bind, Hcopy. intros b s' Hs'.
    apply wp_bind, wp_lift; intros; [by apply wp_skip, wp_ret, HQ|by apply HR].
Qed.

(** A completion of an operation whose connection is gone, or whose slot another
    connection has taken since, changes nothing: the receive buffer it brings goes back
    to the ring, and the worker, its other connections and the kernel's entries stay as
    they are; with or without TLS. *)
Theorem uring_stale_completion_ignored o cqe s :
  kind o <> Accept -> BufferRing.ring_wf (buffer_ring (worker s)) ->
  current_in (worker s) (mkConnectionId (op_slot o) (op_generation o)) = None ->
  wp (dispatch_completion o cqe) (fun _ => releases s) (releases s) s.
Proof.
  intros Hkind Hwf Hnone. assert (Hs : releases s s).
  { exists (buffer_ring (worker s)). by destruct s as [[] u]. }
  assert (Hcur : forall s', releases s s' ->
    current_in (worker s') (mkConnectionId (op_slot o) (op_generation o)) = None).
  { by intros s' [r ->]. }
  assert (Hskip : forall (f : UringConnection -> M unit) s', releases s s' ->
    wp (c ← current (mkConnectionId (op_slot o) (op_generation o));
        match c with None => skip | Some c => f c end) (fun _ => releases s) (releases s) s').
  { intros f s' Hs'. destruct s' as [w u]. apply wp_bind, uring_wp_current.
    pose proof (Hcur _ Hs') as E. cbn [worker] in E. by rewrite E. }
  assert (Hproxy : forall (f : UringProxy -> M unit) s', releases s s' ->
    wp (p ← current_proxy (mkConnectionId (op_slot o) (op_generation o));
        match p with None => skip | Some p => f p end) (fun _ => releases s) (releases s) s').
  { intros f s' Hs'. destruct s' as [w u]. apply wp_bind, wp_gets.
    pose proof (Hcur _ Hs') as E. cbn [worker] in E. by rewrite E. }
  unfold dispatch_completion. destruct (kind o); [done|..].
  - unfold handle_read_completion. apply wp_bind, take_received_releases; [done| |done].
    intros b s' Hs'. by apply Hskip.
  - by apply Hskip.
  - by apply Hproxy.
  - by apply Hproxy.
  - unfold handle_proxy_read. apply wp_bind, take_received_releases; [done| |done].
    intros b [w u] Hs'. apply wp_bind, wp_gets. by apply Hproxy.
Qed.

(** ** TLS *)

(** A TLS connection all of whose output the completion of [n] bytes accounts for. *)
Record flushed (c : UringConnection) (session : UringSslSession) (n : N) : Prop := {
  fl_ssl : ssl c = Some session;
  fl_stream : static_stream c = None;
  fl_response : write_offset c = len (write_buffer c);
  fl_output : ssl_write_offset c + n = len (ssl_write_buffer c);
  fl_quiet : wants_write (ssl_connection session) = false;
  fl_progress : 0 < n;
}.

Lemma index_Ret k c w u :
  connections w !! k = Some c -> index k (mkState w u) = Ret c (mkState w u).
Proof. unfold index. simpl. by intros ->. Qed.

Lemma update_Ret k f c w u :
  connections w !! k = Some c ->
  update k f (mkState w u) =
  Ret tt (mkState (set_connections (<[k := f c]> (connections w)) w) u).
Proof. intros Hk. unfold update. by erewrite bind_Ret by (by apply index_Ret). Qed.

Lemma index_proxy_Ret k c p w u :
  connections w !! k = Some c -> proxy c = Some p ->
  index_proxy k (mkState w u) = Ret p (mkState w u).
Proof.
  intros Hk Hp. unfold index_proxy. erewrite bind_Ret by (by apply index_Ret). by rewrite Hp.
Qed.

Lemma current_Ret id c w u :
  connections w !! slot id = Some c -> conn_generation c = generation id ->
  current id (mkState w u) = Ret (Some c) (mkState w u).
Proof. intros Hk Hg. unfold current, gets. simpl. by rewrite (proj2 (current_in_Some w id c)). Qed.

Lemma flushed_completion id c session n s :
  connections (worker s) !! slot id = Some c -> conn_generation c = generation id ->
  flushed c session n ->
  exists s1, connections (worker s1) !! slot id =
      Some (sent n (mark_write_completed c)) /\
    handle_write_completion (mkOperationId (slot id) (generation id) Write) (Z.of_N n) s
    = response_drained id s1.
Proof.
  intros Hk Hg [Hssl Hst Hoff Hout Hquiet Hpos]. destruct s as [w u], id as [k g]. simpl in *.
  eexists. split; cycle 1.
  - unfold handle_write_completion. erewrite bind_Ret by (by apply current_Ret). cbv beta iota.
    erewrite bind_Ret by (by apply update_Ret).
    rewrite (proj2 (Z.ltb_ge _ _)), (proj2 (Z.eqb_neq _ _)) by lia.
    erewrite bind_Ret by reflexivity. unfold unsent. rewrite Hssl, N2Z.id.
    rewrite (proj2 (N.ltb_ge _ _)) by lia.
    erewrite bind_Ret by (apply update_Ret; simpl; by rewrite lookup_insert_eq).
    erewrite bind_Ret by (apply index_Ret; simpl; by rewrite lookup_insert_eq).
    unfold output_drained, sent. simpl. rewrite Hssl. simpl.
    rewrite Hssl. simpl. rewrite Hoff, Hout, Hquiet, !N.eqb_refl. simpl. reflexivity.
  - simpl. rewrite lookup_insert_eq. unfold sent. simpl. by rewrite Hssl, Hout.
Qed.

(** [kernel_memory_is_owned] does not extend to TLS: a connection that both receives and
    sends is dropped, with the buffer it sends from, by the end of what it receives. *)
Theorem tls_end_frees_sent_buffer id c session result s e fd b :
  connections (worker s) !! slot id = Some c -> conn_generation c = generation id ->
  ssl c = Some session -> e ∈ in_flight (world s) -> op e = OpSend fd b ->
  user_data e = operation Write id ->
  (result <= 0)%Z -> is_receive_retryable result = false ->
  exists s',
    handle_read_completion (mkOperationId (slot id) (generation id) Read) result None s
    = Ret tt s' /\
    connections (worker s') !! slot id = None /\ e ∈ in_flight (world s').
Proof.
  intros Hk Hg Hssl He Hop Huser Hr Hretry. clear Hssl Hop Huser.
  destruct s as [w u], id as [k g]. simpl in *.
  unfold handle_read_completion, take_received. rewrite (proj2 (Z.ltb_ge 0 result)) by lia. simpl.
  eexists. split.
  - erewrite bind_Ret by reflexivity. erewrite bind_Ret by (by apply current_Ret). cbv beta iota.
    erewrite bind_Ret by (by apply update_Ret). rewrite (proj2 (Z.leb_le result 0) Hr), Hretry.
    rewrite andb_false_r. unfold remove.
    erewrite bind_Ret by (apply index_Ret; simpl; by rewrite lookup_insert_eq). reflexivity.
  - simpl. split; [apply lookup_delete_eq|done].
Qed.

(** A TLS connection over io_uring is closed by its own handshake: when the flight
    it has written is sent, with no response, upstream or file yet, the completion makes
    the session send [close_notify] and marks it closing, whether it still shakes hands
    or not, since the handler never asks. *)
Theorem tls_flight_then_close_notify id c session n s :
  connections (worker s) !! slot id = Some c -> conn_generation c = generation id ->
  flushed c session n -> proxy c = None -> closing session = false ->
  exists s1 c1 session1,
    handle_write_completion (mkOperationId (slot id) (generation id) Write) (Z.of_N n) s
    = submit_send id s1 /\
    connections (worker s1) !! slot id = Some c1 /\ ssl c1 = Some session1 /\
    ssl_connection session1 = send_close_notify (ssl_connection session) /\
    closing session1 = true.
Proof.
  intros Hk Hg Hfl Hp Hclosing. destruct (flushed_completion id c session n s Hk Hg Hfl)
    as (s1 & Hk1 & ->). destruct Hfl as [Hssl Hst _ _ _ _].
  destruct s1 as [w u]. simpl in Hk1. unfold sent in Hk1. simpl in Hk1. rewrite Hssl in Hk1.
  eexists (mkState _ u), _, _. split.
  - unfold response_drained. erewrite bind_Ret by (by apply index_Ret). simpl.
    rewrite Hst, Hp, Hssl, Hclosing. erewrite bind_Ret by (by apply update_Ret). reflexivity.
  - simpl. rewrite lookup_insert_eq. done.
Qed.

(** C38. A request that arrives over TLS with handshake records still to send brings the
    io_uring worker down: when the completion of that send drains the output while the
    request's upstream is being resolved, the handler goes on to receive from an
    upstream socket that does not exist yet, and panics. *)
Theorem tls_flight_before_upstream_panics id c session n p s :
  connections (worker s) !! slot id = Some c -> conn_generation c = generation id ->
  flushed c session n -> proxy c = Some p -> upstream p = None ->
  handle_write_completion (mkOperationId (slot id) (generation id) Write) (Z.of_N n) s
  = Panicked.
Proof.
  intros Hk Hg Hfl Hp Hup. destruct (flushed_completion id c session n s Hk Hg Hfl)
    as (s1 & Hk1 & ->). destruct Hfl as [Hssl Hst _ _ _ _].
  destruct s1 as [w [u inf h]]. simpl in Hk1. unfold sent in Hk1. simpl in Hk1.
  rewrite Hssl in Hk1.
  unfold response_drained. erewrite bind_Ret by (by apply index_Ret). simpl. rewrite Hst, Hp.
  erewrite bind_Ret by (by apply update_Ret).
  destruct (now u) as [t u'] eqn:Enow. unfold clock, call.
  erewrite bind_Ret by (unfold sys; simpl; rewrite Enow; reflexivity).
  unfold update_proxy. erewrite bind_Ret; cycle 1.
  { erewrite bind_Ret by (eapply index_proxy_Ret; simpl; [by rewrite lookup_insert_eq|done]).
    apply update_Ret. simpl. by rewrite lookup_insert_eq. }
  unfold submit_proxy_read.
  erewrite bind_Ret by (eapply index_proxy_Ret; simpl; [by rewrite lookup_insert_eq|done]).
  erewrite bind_Ret by reflexivity. unfold unwrap_u32. case_match; [done|].
  erewrite bind_Ret by reflexivity. simpl. by rewrite Hup.
Qed.

(** ** Start-up *)

(** The system grants the descriptors and threads of [new], after its ring. *)
Definition grants (answers : Startup) : Prop :=
  exists shutdown_fd dns_fd timer_fd, s_shutdown_eventfd answers = Ok shutdown_fd /\
    s_dns_eventfd answers = Ok dns_fd /\ s_resolver answers = Ok tt /\
    s_timerfd answers = Ok timer_fd.

(** The part of [probe] that follows its checks, against the ring of [new]. *)
Lemma probe_ring page_size allocate register_ring n size :
  (if (2 ^ 32 <=? size) || (size =? 0) then Some (Err InvalidInput)
   else
     registered ← BufferRing.register page_size allocate register_ring n 1;
     Some (match registered with Ok _ => Ok tt | Err e => Err e end)) = Some (Ok tt) <->
  exists r, BufferRing.register page_size allocate register_ring n size = Some (Ok r).
Proof.
  rewrite BufferRing.register_Ok. destruct (N.leb_spec (2 ^ 32) size); [split; [done|lia]|].
  destruct (N.eqb_spec size 0); [split; [done|lia]|]. simpl.
  pose proof (BufferRing.register_Ok page_size allocate register_ring n 1) as Hone.
  destruct (BufferRing.register _ _ _ _ 1) as [[r|e]|]; simpl.
  - split; [|done]. intros _. split; [|lia]. apply Hone. by exists r.
  - split; [done|]. intros [Hreg _]. by destruct (proj2 Hone) as [r Hr].
  - split; [done|]. intros [Hreg _]. by destruct (proj2 Hone) as [r Hr].
Qed.

(** The preflight of the [auto] runtime is exact: neither [probe] nor [new] panics,
    and [new] succeeds on a system exactly when [probe] does, the TLS configurations match
    the servers and the system grants the descriptors and threads that only [new] asks
    for; in particular the one-byte buffers that [probe] registers are accepted exactly
    when those of the configured size are. *)
Theorem probe_predicts_new answers ring_size size gs ss ssls l pl dl groups :
  (exists w, new answers ring_size size gs ss ssls l pl dl groups = Some (Ok w)) <->
  probe answers ring_size size = Some (Ok tt) /\ len ssls = len ss /\ grants answers.
Proof.
  unfold new, probe, grants. destruct (s_build answers); [|naive_solver].
  destruct (s_probe answers); [|naive_solver]. destruct (validate_required _); [|naive_solver].
  rewrite probe_ring. destruct (BufferRing.register _ _ _ _ size) as [[r|]|]; simpl;
    [|naive_solver|naive_solver].
  destruct (N.eqb_spec (len ssls) (len ss)); simpl; [|naive_solver].
  destruct (s_shutdown_eventfd answers), (s_dns_eventfd answers),
    (s_resolver answers) as [[]|], (s_timerfd answers); naive_solver.
Qed.

End Properties.

(** ** A run *)

#[local] Instance uring_fs : Filesystem := example_fs.
#[local] Instance uring_mime : MimeGuess := example_mime.

Notation ScriptState := (State IoUringWorker Kernel).

Definition example_start : option ScriptState :=
  match example_new with
  | Some (Ok w) =>
    match start (mkState w example_world) with Ret _ s => Some s | _ => None end
  | _ => None
  end.

(** A client connects, then its request arrives. *)
Definition example_answered : option ScriptState :=
  then_iterate 4 27 false (Some example_request) (then_iterate 0 9 true None example_start).

Lemma example_plain_start w :
  example_new = Some (Ok w) -> plain_start (mkState w example_world).
Proof.
  intros E. do 10 eexists. split; [exact E|]. split; [by repeat constructor|].
  split; [apply map_Forall_empty|]. split; [|done].
  constructor; [|constructor]. split; [done|]. repeat constructor.
Qed.

Definition is_send (fd : N) (e : Entry) : bool :=
  match op e with OpSend fd' _ => fd' =? fd | _ => false end.

Lemma example_start_inv s :
  example_start = Some s ->
  exists w, example_new = Some (Ok w) /\ start (mkState w example_world) = Ret tt s.
Proof.
  unfold example_start. generalize example_new. intros [[w|]|]; [|done..].
  intros H. exists w. split; [done|]. revert H. generalize (start (mkState w example_world)).
  intros [[] s'| |]; [|done..]. by intros [= <-].
Qed.

Lemma example_answered_inv s :
  example_answered = Some s -> exists s0, plain_start s0 /\ reachable s0 s.
Proof.
  unfold example_answered. generalize example_start_inv. generalize example_start.
  intros o Ho H. eapply then_iterate_reachable; [|exact H]. intros s2 H2.
  eapply then_iterate_reachable; [|exact H2]. intros s1 (w & Hw & H1)%Ho. exists (mkState w example_world).
  split; [by apply example_plain_start|by apply reachable_start].
Qed.

Definition answering (s : ScriptState) : bool :=
  match connections (worker s) !! 0, in_flight (world s) !! 4%nat with
  | Some _, Some e => is_send 9 e
  | _, _ => false
  end.

Lemma example_answered_test :
  match example_answered with Some s => answering s | None => false end = true.
Proof. by vm_compute. Qed.

(** The run, from the state [new] returns: the first client's answer is being sent. *)
Lemma example_answered_reachable :
  exists s0 s c e b, plain_start s0 /\ reachable s0 s /\
    connections (worker s) !! 0 = Some c /\ e ∈ in_flight (world s) /\ op e = OpSend 9 b.
Proof.
  pose proof example_answered_test as Htest. pose proof example_answered_inv as Hinv.
  revert Htest Hinv. generalize example_answered. intros [s|] Htest Hinv; [|done].
  destruct (Hinv s eq_refl) as (s0 & H0 & Hs). unfold answering in Htest.
  destruct (connections (worker s) !! 0) as [c|] eqn:Hc; [|done].
  destruct (in_flight (world s) !! 4%nat) as [e|] eqn:He; [|done].
  unfold is_send in Htest. destruct (op e) as [|fd b| | | |] eqn:Hop; try done.
  apply N.eqb_eq in Htest as ->.
  exists s0, s, c, e, b. split; [done|]. split; [done|]. split; [done|]. split; [by eapply list_elem_of_lookup_2|done].
Qed.

Lemma uring_worker_never_panics_witness :
  exists s0 s, reachable s0 s /\ start s0 <> Panicked /\ before_wait s <> Panicked.
Proof.
  destruct example_answered_reachable as (s0 & s & _ & _ & _ & H0 & Hs & _).
  exists s0, s. split; [exact Hs|]. destruct (uring_worker_never_panics s0 s H0) as [H1 H2].
  split; [exact H1|]. apply (H2 Hs).
Defined.

Lemma kernel_memory_is_owned_witness :
  exists s0 s e b, reachable s0 s /\ op e = OpSend 9 b /\ belongs (worker s) e /\
    owns (worker s) e 9 b.
Proof.
  destruct example_answered_reachable as (s0 & s & c & e & b & H0 & Hs & Hc & He & Hop).
  exists s0, s, e, b. split; [exact Hs|]. split; [exact Hop|].
  destruct (kernel_memory_is_owned s0 s e H0 Hs He) as [Hb Ho]. split; [exact Hb|].
  exact (Ho 9 b Hop).
Defined.

Lemma every_connection_waits_witness :
  exists s0 s, reachable s0 s /\ timer_entry (worker s) ∈ in_flight (world s).
Proof.
  destruct example_answered_reachable as (s0 & s & c & e & b & H0 & Hs & Hc & He & Hop).
  exists s0, s. split; [exact Hs|]. exact (proj1 (every_connection_waits s0 s 0 c H0 Hs Hc)).
Defined.

(** Then the shutdown's descriptor becomes readable, and a byte of the answer is sent. *)
Definition example_stopping : option ScriptState :=
  then_iterate 3 1 false None (then_iterate 1 8 false None example_answered).

Lemma example_stopping_test :
  match example_stopping with Some s => shutting_down (worker s) | None => false end = true.
Proof. by vm_compute. Qed.

Lemma example_stopping_inv s :
  example_stopping = Some s -> exists s0, plain_start s0 /\ reachable s0 s.
Proof.
  unfold example_stopping. generalize example_answered_inv. generalize example_answered.
  intros o Ho H. eapply then_iterate_reachable; [|exact H]. intros s1 H1.
  eapply then_iterate_reachable; [|exact H1]. exact Ho.
Qed.

Lemma example_stopping_reachable :
  exists s0 s, plain_start s0 /\ reachable s0 s /\ shutting_down (worker s) = true.
Proof.
  pose proof example_stopping_test as Htest. pose proof example_stopping_inv as Hinv.
  revert Htest Hinv. generalize example_stopping. intros [s|] Htest Hinv; [|done].
  destruct (Hinv s eq_refl) as (s0 & H0 & Hs). by exists s0, s.
Qed.

Lemma uring_drain_finishes_witness :
  exists s0 s t0, reachable s0 s /\ shutdown_started (worker s) = Some t0 /\
    timer_entry (worker s) ∈ in_flight (world s).
Proof.
  destruct example_stopping_reachable as (s0 & s & H0 & Hs & Hsd).
  destruct (uring_drain_finishes s0 s s H0 Hs Hsd (rtc_refl _ s)) as (t0 & Ht0 & _ & _ & Ht & _).
  exists s0, s, t0. split; [exact Hs|]. split; [exact Ht0|exact Ht].
Defined.

Lemma example_new_test :
  match example_new with
  | Some (Ok w) => bool_decide (current_in w (mkConnectionId 3 7) = None)
  | _ => false
  end = true.
Proof. by vm_compute. Qed.

Lemma example_new_state :
  exists s : ScriptState, BufferRing.ring_wf (buffer_ring (worker s)) /\
    current_in (worker s) (mkConnectionId 3 7) = None.
Proof.
  pose proof example_new_test as Htest. pose proof example_plain_start as Hplain.
  revert Htest Hplain. generalize example_new. intros [[w|]|] Htest Hplain; [|done..].
  destruct (plain_start_Inv _ (Hplain w eq_refl)) as (H & _). apply inv_world, ok_buffers in H
    as (l & p & _ & Hwf & _).
  exists (mkState w example_world). split; [exact Hwf|]. by apply bool_decide_eq_true in Htest.
Qed.

Lemma uring_stale_completion_ignored_witness :
  exists s : ScriptState,
    wp (dispatch_completion (mkOperationId 3 7 Write) (mkCqe 0 5 false None))
      (fun _ => releases s) (releases s) s.
Proof.
  destruct example_new_state as (s & Hwf & Hnone). exists s.
  exact (uring_stale_completion_ignored (mkOperationId 3 7 Write) (mkCqe 0 5 false None) s
    ltac:(done) Hwf Hnone).
Defined.

(** *** Over TLS *)

Definition example_tls_start (action : Action) : option ScriptState :=
  match new example_answers 4 64 [(5, 0, [0])]
          [mkServer None [mkLocation (Config.Prefix (str "/")) action] (SocketAddrV4 0 443) None]
          [Some tt] example_limits (mkProxyLimits 100 100 100) (mkDnsLimits 1 100) ∅ with
  | Some (Ok w) =>
    match start (mkState w example_world) with Ret _ s => Some s | _ => None end
  | _ => None
  end.

(** A client connects, then [received] arrives through the TLS session, which asks for
    its records to be sent. *)
Definition example_tls (action : Action) (received : bytes) : option ScriptState :=
  then_iterate 4 (Z.of_N (len received)) false (Some received)
    (then_iterate 0 9 true None (example_tls_start action)).

Definition flushedb (c : UringConnection) (session : UringSslSession) (n : N) : bool :=
  bool_decide (static_stream c = None) && (write_offset c =? len (write_buffer c))
  && (ssl_write_offset c + n =? len (ssl_write_buffer c))
  && negb (wants_write (ssl_connection session)) && (0 <? n).

Lemma flushedb_ok c session n :
  ssl c = Some session -> flushedb c session n = true -> flushed c session n.
Proof.
  unfold flushedb. rewrite !andb_true_iff, bool_decide_eq_true, !N.eqb_eq, negb_true_iff,
    N.ltb_lt. intros H ((((H1 & H2) & H3) & H4) & H5). by constructor.
Qed.

(** The first connection, with its TLS session, when [n] more bytes flush it. *)
Definition flushing (n : N) (s : ScriptState) : option (UringConnection * UringSslSession) :=
  c ← connections (worker s) !! 0;
  session ← ssl c;
  if flushedb c session n && (conn_generation c =? 1) then Some (c, session) else None.

Lemma flushing_ok n s c session :
  flushing n s = Some (c, session) ->
  connections (worker s) !! 0 = Some c /\ conn_generation c = 1 /\ flushed c session n.
Proof.
  unfold flushing. destruct (connections (worker s) !! 0) as [d|]; [|done]. simpl.
  destruct (ssl d) as [session'|] eqn:E; [|done]. simpl.
  destruct (flushedb d session' n && (conn_generation d =? 1)) eqn:Hf; [|done].
  intros [= -> ->]. apply andb_true_iff in Hf as [Hf Hg%N.eqb_eq].
  split; [done|]. split; [done|]. by apply flushedb_ok.
Qed.

Lemma example_tls_flight_test :
  match example_tls (Response 200 []) (str "GET") with
  | Some s => match flushing 6 s with
              | Some (c, session) => bool_decide (proxy c = None) && negb (closing session)
                                     && is_handshaking (ssl_connection session)
              | None => false end
  | None => false
  end = true.
Proof. by vm_compute. Qed.

Lemma tls_flight_then_close_notify_witness :
  exists s s1 c1 session1, example_tls (Response 200 []) (str "GET") = Some s /\
    handle_write_completion (mkOperationId 0 1 Write) 6 s = submit_send (mkConnectionId 0 1) s1 /\
    connections (worker s1) !! 0 = Some c1 /\ ssl c1 = Some session1 /\ closing session1 = true.
Proof.
  pose proof example_tls_flight_test as Htest. revert Htest.
  generalize (example_tls (Response 200 []) (str "GET")). intros [s|] Htest; [|done].
  destruct (flushing 6 s) as [[c session]|] eqn:Hf; [|done].
  apply andb_true_iff in Htest as [[Hp Hc]%andb_true_iff _].
  apply bool_decide_eq_true in Hp. apply negb_true_iff in Hc.
  apply flushing_ok in Hf as (Hk & Hg & Hfl).
  destruct (tls_flight_then_close_notify (mkConnectionId 0 1) c session 6 s Hk Hg Hfl Hp Hc)
    as (s1 & c1 & session1 & H1 & H2 & H3 & _ & H4).
  exists s, s1, c1, session1. split; [reflexivity|]. split; [exact H1|].
  split; [exact H2|]. split; [exact H3|exact H4].
Defined.

Definition example_proxy : Action :=
  Config.Proxy (Some (str "http://10.0.0.1:80")) None [] RoundRobin.

Lemma example_tls_proxy_test :
  match example_tls example_proxy example_request with
  | Some s => match flushing 6 s with
              | Some (c, _) => match proxy c with
                               | Some p => bool_decide (upstream p = None) | None => false end
              | None => false end
  | None => false
  end = true.
Proof. by vm_compute. Qed.

Lemma tls_flight_before_upstream_panics_witness :
  exists s, example_tls example_proxy example_request = Some s /\
    handle_write_completion (mkOperationId 0 1 Write) 6 s = Panicked.
Proof.
  pose proof example_tls_proxy_test as Htest. revert Htest.
  generalize (example_tls example_proxy example_request). intros [s|] Htest; [|done].
  destruct (flushing 6 s) as [[c session]|] eqn:Hf; [|done].
  destruct (proxy c) as [p|] eqn:Hp; [|done]. apply bool_decide_eq_true in Htest.
  apply flushing_ok in Hf as (Hk & Hg & Hfl). exists s. split; [reflexivity|].
  exact (tls_flight_before_upstream_panics (mkConnectionId 0 1) c session 6 p s Hk Hg Hfl Hp Htest).
Defined.
