(* ===== verification/UringFrame.v ===== *)
(** * What the io_uring worker leaves alone

    A handler of one connection does not touch another, and the completions of the timer,
    of the resolver and of the shutdown do no more to a connection that sends its response
    than to mark an upstream whose deadline has passed. *)

From S2P Require Import Prelude RustStd Config Http Router LoadBalancer Proxy StaticFiles Runtime Handler Operation BufferRing UringConnection Uring UringInv UringScript UringLoop UringProps.

Import Uring.

Local Open Scope N_scope.

Create HintDb spares.

Section Frame.

Context {env : UringEnv} {fs : Filesystem} {mime : MimeGuess} {env_ok : UringEnvOk env}.

Notation M := (Handler IoUringWorker Kernel).
Notation State := (State IoUringWorker Kernel).

(** The connection [c] in slot [k]. *)
Context (k : N) (c : UringConnection).

(** [m] leaves it as it is, whether it returns or fails. *)
Definition spares {A} (m : M A) : Prop :=
  forall s, connections (worker s) !! k = Some c ->
  match m s with
  | Ret _ s' | Fail _ s' => connections (worker s') !! k = Some c
  | Panicked => True
  end.

(** ** The operations of the monad *)

Lemma spares_bind {A B} (m : M A) (f : A -> M B) :
  spares m -> (forall a, spares (f a)) -> spares (m ≫= f).
Proof.
  intros Hm Hf s Hs. unfold mbind, Handler_bind. specialize (Hm s Hs).
  destruct (m s); [by apply Hf|done..].
Qed.

Lemma spares_ret {A} (a : A) : spares (mret a).
Proof. by intros s Hs. Qed.

Lemma spares_skip : spares skip.
Proof. apply spares_ret. Qed.

Lemma spares_panic {A} : spares (@panic _ _ A).
Proof. by intros s Hs. Qed.

Lemma spares_fail {A} e : spares (@fail _ _ A e).
Proof. by intros s Hs. Qed.

Lemma spares_lift {A} (r : io_result A) : spares (lift r).
Proof. intros s Hs. unfold lift. by destruct r. Qed.

Lemma spares_unwrap {A} (o : option A) : spares (unwrap o).
Proof. destruct o; [apply spares_ret|apply spares_panic]. Qed.

Lemma spares_attempt {A} (m : M A) : spares m -> spares (attempt m).
Proof. intros Hm s Hs. unfold attempt. specialize (Hm s Hs). by destruct (m s). Qed.

Lemma spares_gets {A} (f : IoUringWorker -> A) : spares (gets f).
Proof. by intros s Hs. Qed.

Lemma spares_sys {A} (f : Kernel -> A * Kernel) : spares (sys f).
Proof. intros s Hs. unfold sys. by destruct (f (world s)). Qed.

Lemma spares_modify f :
  (forall w, connections (f w) !! k = connections w !! k) -> spares (modify f).
Proof. intros Hf s Hs. simpl. by rewrite Hf. Qed.

Lemma spares_for_all {A} (f : A -> M unit) l :
  (forall a, a ∈ l -> spares (f a)) -> spares (for_all f l).
Proof.
  induction l as [|a l IH]; intros H; simpl; [apply spares_skip|].
  apply spares_bind; [apply H; left|]. intros _. apply IH. intros b Hb. apply H. by right.
Qed.

(** What was read from the worker holds of the connection. *)
Lemma spares_gets_bind {A B} (f : IoUringWorker -> A) (g : A -> M B) :
  (forall w, connections w !! k = Some c -> spares (g (f w))) -> spares (gets f ≫= g).
Proof. intros H s Hs. by apply (H (worker s) Hs). Qed.

(** The results of [m], from a state with the connection, satisfy [Q]. *)
Definition yields {A} (m : M A) (Q : A -> Prop) : Prop :=
  forall s a s', connections (worker s) !! k = Some c -> m s = Ret a s' -> Q a.

Lemma spares_bind_yields {A B} (m : M A) (f : A -> M B) (Q : A -> Prop) :
  spares m -> yields m Q -> (forall a, Q a -> spares (f a)) -> spares (m ≫= f).
Proof.
  intros Hm Hy Hf s Hs. unfold mbind, Handler_bind. specialize (Hm s Hs).
  destruct (m s) as [a s'|e s'|] eqn:E; [|done..]. apply Hf; [by eapply Hy|done].
Qed.

Lemma yields_bind {A B} (m : M A) (f : A -> M B) (P : A -> Prop) (Q : B -> Prop) :
  spares m -> yields m P -> (forall a, P a -> yields (f a) Q) -> yields (m ≫= f) Q.
Proof.
  intros Hm Hy Hf s b s' Hs. unfold mbind, Handler_bind. specialize (Hm s Hs).
  destruct (m s) as [a s1|e s1|] eqn:E; [|done..]. apply Hf; [by eapply Hy|done].
Qed.

Lemma yields_any {A} (m : M A) : yields m (fun _ => True).
Proof. by intros s a s' _ _. Qed.

Lemma yields_ret {A} (a : A) (Q : A -> Prop) : Q a -> yields (mret a) Q.
Proof. by intros H s b s' _ [= <- _]. Qed.

Lemma yields_fail {A} e (Q : A -> Prop) : yields (fail e) Q.
Proof. by intros s b s' _ H. Qed.

Lemma yields_gets_bind {A B} (f : IoUringWorker -> A) (g : A -> M B) (Q : B -> Prop) :
  (forall w, connections w !! k = Some c -> yields (g (f w)) Q) -> yields (gets f ≫= g) Q.
Proof. intros H s b s' Hs. by apply (H (worker s) Hs). Qed.

Lemma yields_attempt {A} (m : M A) (Q : A -> Prop) :
  yields m Q -> yields (attempt m) (fun r => forall a, r = Ok a -> Q a).
Proof.
  intros H s r s' Hs E a ->. unfold attempt in E. destruct (m s) as [a' s1|e s1|] eqn:Em; try done.
  injection E as <- <-. by eapply H.
Qed.

Lemma spares_call {A} (f : World -> A * World) : spares (call f).
Proof. apply spares_sys. Qed.

Lemma spares_index j : spares (index j).
Proof. intros s Hs. unfold index. by destruct (connections (worker s) !! j). Qed.

End Frame.

#[export] Hint Resolve spares_ret spares_skip spares_panic spares_fail spares_lift spares_unwrap spares_gets spares_sys spares_call spares_index spares_attempt : spares.
#[export] Hint Extern 2 (spares _ _ (modify _)) => (apply spares_modify; done) : spares.

(** Through a handler, down to the operations of the database. *)
Ltac spare :=
  repeat (cbv zeta beta;
    first [solve [eauto 3 with spares] |
    lazymatch goal with
    | |- spares _ _ (mbind _ _) => apply spares_bind; [|intros ?]
    | |- spares _ _ (match ?x with _ => _ end) => destruct x
    | |- spares _ _ (for_all _ _) => apply spares_for_all; intros ? ?
    end]).

Section Handlers.

Context {env : UringEnv} {fs : Filesystem} {mime : MimeGuess} {env_ok : UringEnvOk env}.

Notation M := (Handler IoUringWorker Kernel).
Notation State := (State IoUringWorker Kernel).

Context (k : N) (c : UringConnection).

Notation spares := (spares k c).

(** ** A handler of another connection *)

Lemma spares_clock : spares clock.
Proof. unfold clock. spare. Qed.

Lemma spares_metric f : spares (metric f).
Proof. unfold metric. spare. Qed.

Lemma spares_update j f : j <> k -> spares (update j f).
Proof.
  intros Hj. unfold update. spare. apply spares_modify. intros w. simpl. by rewrite lookup_insert_ne.
Qed.

Lemma spares_remove j : j <> k -> spares (remove j).
Proof.
  intros Hj. unfold remove. spare. apply spares_modify. intros w. simpl. by rewrite lookup_delete_ne.
Qed.

#[local] Hint Resolve spares_clock spares_metric spares_update spares_remove : spares.

Lemma spares_index_proxy j : spares (index_proxy j).
Proof. unfold index_proxy. spare. Qed.
#[local] Hint Resolve spares_index_proxy : spares.

Lemma spares_update_proxy j f : j <> k -> spares (update_proxy j f).
Proof. intros Hj. unfold update_proxy. spare. Qed.
#[local] Hint Resolve spares_update_proxy : spares.

Lemma spares_slice_from b n : spares (slice_from b n).
Proof. unfold slice_from. spare. Qed.
#[local] Hint Resolve spares_slice_from : spares.

Lemma spares_slice_range b m n : spares (slice_range b m n).
Proof. unfold slice_range. spare. Qed.
#[local] Hint Resolve spares_slice_range : spares.

Lemma spares_try_u32 n : spares (try_u32 n).
Proof. unfold try_u32. spare. Qed.
#[local] Hint Resolve spares_try_u32 : spares.

Lemma spares_unwrap_u32 n : spares (unwrap_u32 n).
Proof. unfold unwrap_u32. spare. Qed.
#[local] Hint Resolve spares_unwrap_u32 : spares.

Lemma spares_push_entry e : spares (push_entry e).
Proof. unfold push_entry. spare. Qed.
#[local] Hint Resolve spares_push_entry : spares.

Lemma spares_ring_submit  : spares ring_submit.
Proof. unfold ring_submit. spare. Qed.
#[local] Hint Resolve spares_ring_submit : spares.

Lemma spares_copy_and_release i n : spares (copy_and_release i n).
Proof. unfold copy_and_release. spare. Qed.
#[local] Hint Resolve spares_copy_and_release : spares.

Lemma spares_take_received r b : spares (take_received r b).
Proof. unfold take_received. spare. Qed.
#[local] Hint Resolve spares_take_received : spares.

Lemma spares_update_listener i f : spares (update_listener i f).
Proof. unfold update_listener. spare. Qed.
#[local] Hint Resolve spares_update_listener : spares.

Lemma spares_submit_accept i : spares (submit_accept i).
Proof. unfold submit_accept. spare. Qed.
#[local] Hint Resolve spares_submit_accept : spares.

Lemma spares_new_session o : spares (new_session o).
Proof. unfold new_session. spare. Qed.
#[local] Hint Resolve spares_new_session : spares.

Lemma spares_ssl_remaining id d session : slot id <> k -> spares (ssl_remaining id d session).
Proof. intros Hj. unfold ssl_remaining. spare. Qed.
#[local] Hint Resolve spares_ssl_remaining : spares.

Lemma spares_submit_send id : slot id <> k -> spares (submit_send id).
Proof. intros Hj. unfold submit_send. spare. Qed.
#[local] Hint Resolve spares_submit_send : spares.

Lemma spares_submit_recv id : slot id <> k -> spares (submit_recv id).
Proof. intros Hj. unfold submit_recv. spare. Qed.
#[local] Hint Resolve spares_submit_recv : spares.

(** *** Accepting *)

Lemma yields_vacant_key keys : k ∈ keys -> yields k c (call (vacant_key keys)) (fun j => j <> k).
Proof.
  intros Hk s j s' _ E ->. unfold call, sys in E. simpl in E.
  destruct (vacant_key keys (outside (world s))) as [j' u] eqn:Ev. injection E as -> _.
  by apply vacant_key_fresh in Ev.
Qed.

Lemma insert_connection_spares fd i :
  spares (insert_connection fd i) /\
  yields k c (insert_connection fd i) (fun id => slot id <> k).
Proof.
  assert (Hin : forall w, connections w !! k = Some c -> k ∈ dom (connections w))
    by (intros w Hw; apply elem_of_dom; eauto).
  unfold insert_connection. split.
  - apply spares_bind; [spare|intros n]. apply spares_bind; [spare|intros m].
    destruct (m <=? n); [spare|]. apply spares_gets_bind. intros w Hw.
    eapply spares_bind_yields; [spare|by apply yields_vacant_key, Hin|]. intros j Hj.
    assert (Hins : forall x, spares (modify (fun w => set_connections (<[j := x]> (connections w)) w)))
      by (intros x; apply spares_modify; intros w'; simpl; by rewrite lookup_insert_ne).
    spare.
  - eapply yields_bind; [spare|apply yields_any|]. intros n _.
    eapply yields_bind; [spare|apply yields_any|]. intros m _.
    destruct (m <=? n); [apply yields_fail|].
    apply yields_gets_bind. intros w Hw.
    eapply yields_bind; [spare|by apply yields_vacant_key, Hin|]. intros j Hj.
    destruct (2 ^ 32 <=? j); [apply yields_fail|].
    do 6 (eapply yields_bind; [spare|apply yields_any|]; intros ? _).
    eapply yields_bind; [apply spares_modify; intros w'; simpl; by rewrite lookup_insert_ne
      |apply yields_any|]. intros _ _. by apply yields_ret.
Qed.

Lemma spares_admit fd i :
  spares (r ← attempt (insert_connection fd i);
          match r with Ok id => submit_recv id | Err _ => skip end).
Proof.
  eapply spares_bind_yields; [apply spares_attempt, insert_connection_spares
    |apply yields_attempt, insert_connection_spares|].
  intros [id|e] Hid; [by apply spares_submit_recv, Hid|spare].
Qed.
#[local] Hint Resolve spares_admit : spares.

Lemma spares_handle_accept_completion o result more :
  spares (handle_accept_completion o result more).
Proof. unfold handle_accept_completion. spare. Qed.
#[local] Hint Resolve spares_handle_accept_completion : spares.

(** *** Answering and the upstream *)

Lemma spares_send_response id b : slot id <> k -> spares (send_response id b).
Proof. intros Hj. unfold send_response. spare. Qed.
#[local] Hint Resolve spares_send_response : spares.

Lemma spares_advance_static_stream id : slot id <> k -> spares (advance_static_stream id).
Proof. intros Hj. unfold advance_static_stream. spare. Qed.
#[local] Hint Resolve spares_advance_static_stream : spares.

Lemma spares_queue_static_response id b st : slot id <> k -> spares (queue_static_response id b st).
Proof. intros Hj. unfold queue_static_response. spare. Qed.
#[local] Hint Resolve spares_queue_static_response : spares.

Lemma spares_queue_http_error id n b : slot id <> k -> spares (queue_http_error id n b).
Proof. intros Hj. unfold queue_http_error. spare. Qed.
#[local] Hint Resolve spares_queue_http_error : spares.

Lemma spares_queue_proxy_error id n b : slot id <> k -> spares (queue_proxy_error id n b).
Proof. intros Hj. unfold queue_proxy_error. spare. Qed.
#[local] Hint Resolve spares_queue_proxy_error : spares.

Lemma spares_fail_proxy id n b : slot id <> k -> spares (fail_proxy id n b).
Proof. intros Hj. unfold fail_proxy. spare. Qed.
#[local] Hint Resolve spares_fail_proxy : spares.

Lemma spares_submit_proxy_connect id : slot id <> k -> spares (submit_proxy_connect id).
Proof. intros Hj. unfold submit_proxy_connect. spare. Qed.
#[local] Hint Resolve spares_submit_proxy_connect : spares.

Lemma spares_submit_proxy_write id : slot id <> k -> spares (submit_proxy_write id).
Proof. intros Hj. unfold submit_proxy_write. spare. Qed.
#[local] Hint Resolve spares_submit_proxy_write : spares.

Lemma spares_submit_proxy_read id : slot id <> k -> spares (submit_proxy_read id).
Proof. intros Hj. unfold submit_proxy_read. spare. Qed.
#[local] Hint Resolve spares_submit_proxy_read : spares.

Lemma spares_try_addresses id l : slot id <> k -> spares (try_addresses id l).
Proof. intros Hj. induction l as [|a l IH]; simpl; spare. Qed.
#[local] Hint Resolve spares_try_addresses : spares.

Lemma spares_try_next_proxy_address id : slot id <> k -> spares (try_next_proxy_address id).
Proof. intros Hj. unfold try_next_proxy_address. spare. Qed.
#[local] Hint Resolve spares_try_next_proxy_address : spares.

Lemma spares_start_proxy id u r b : slot id <> k -> spares (start_proxy id u r b).
Proof. intros Hj. unfold start_proxy. spare. Qed.
#[local] Hint Resolve spares_start_proxy : spares.

Lemma spares_respond_static id d r : slot id <> k -> spares (respond_static id d r).
Proof. intros Hj. unfold respond_static. spare. Qed.
#[local] Hint Resolve spares_respond_static : spares.

Lemma spares_respond_proxy id a r b : slot id <> k -> spares (respond_proxy id a r b).
Proof. intros Hj. unfold respond_proxy. spare. Qed.
#[local] Hint Resolve spares_respond_proxy : spares.

Lemma spares_prepare_response id : slot id <> k -> spares (prepare_response id).
Proof. intros Hj. unfold prepare_response. spare. Qed.
#[local] Hint Resolve spares_prepare_response : spares.

Lemma spares_complete_request id : slot id <> k -> spares (complete_request id).
Proof. intros Hj. unfold complete_request. spare. Qed.
#[local] Hint Resolve spares_complete_request : spares.

Lemma spares_receive_plaintext id b : slot id <> k -> spares (receive_plaintext id b).
Proof. intros Hj. unfold receive_plaintext. spare. Qed.
#[local] Hint Resolve spares_receive_plaintext : spares.

Lemma spares_receive_tls id session b : slot id <> k -> spares (receive_tls id session b).
Proof. intros Hj. unfold receive_tls. spare. Qed.
#[local] Hint Resolve spares_receive_tls : spares.

(** *** Shutdown *)

Lemma spares_begin_shutdown : spares begin_shutdown.
Proof. unfold begin_shutdown. spare. Qed.
#[local] Hint Resolve spares_begin_shutdown : spares.

Lemma spares_shutdown_deadline_reached : spares shutdown_deadline_reached.
Proof. unfold shutdown_deadline_reached. spare. Qed.
#[local] Hint Resolve spares_shutdown_deadline_reached : spares.

Lemma spares_before_wait : spares before_wait.
Proof. unfold before_wait. spare. Qed.

(** ** A completion that is not the connection's *)

(** The expiration of another connection's upstream. *)
Lemma spares_expire id ph pending : slot id <> k -> spares (expire_proxy (id, ph, pending)).
Proof. intros Hj. unfold expire_proxy. spare. Qed.

(** The operation is not of this connection. *)
Definition foreign (o : OperationId) : Prop :=
  kind o = Accept \/ op_slot o <> k \/ op_generation o <> conn_generation c.

Lemma spares_current {B} id (f : option UringConnection -> M B) :
  slot id <> k \/ generation id <> conn_generation c ->
  (slot id <> k -> forall d, spares (f d)) -> spares (f None) -> spares (current id ≫= f).
Proof.
  intros Hid Hne Hnone. destruct (decide (slot id = k)) as [E|E]; [|spare; by apply Hne].
  destruct Hid as [Hid|Hid]; [done|]. unfold current. apply spares_gets_bind. intros w Hw.
  unfold current_in, matches_generation. rewrite E, Hw. simpl.
  by rewrite (proj2 (N.eqb_neq _ _)) by done.
Qed.

Lemma spares_current_proxy {B} id (f : option UringProxy -> M B) :
  slot id <> k \/ generation id <> conn_generation c ->
  (slot id <> k -> forall d, spares (f d)) -> spares (f None) -> spares (current_proxy id ≫= f).
Proof.
  intros Hid Hne Hnone. destruct (decide (slot id = k)) as [E|E]; [|spare; by apply Hne].
  destruct Hid as [Hid|Hid]; [done|]. unfold current_proxy. apply spares_gets_bind. intros w Hw.
  unfold current_in, matches_generation. rewrite E, Hw. simpl.
  by rewrite (proj2 (N.eqb_neq _ _)) by done.
Qed.

Lemma spares_dispatch_completion o cqe : foreign o -> spares (dispatch_completion o cqe).
Proof.
  intros Ho. unfold dispatch_completion, foreign in *.
  destruct (kind o) eqn:Hk; [apply spares_handle_accept_completion|..];
    (destruct Ho as [Ho|Ho]; [done|]).
  - unfold handle_read_completion. apply spares_bind; [spare|intros received].
    apply spares_current; [done| |spare]. simpl. intros Hj d. spare.
  - unfold handle_write_completion. apply spares_current; [done| |spare].
    simpl. intros Hj d. unfold response_drained. spare.
  - unfold handle_proxy_connect. apply spares_current_proxy; [done| |spare].
    simpl. intros Hj d. spare.
  - unfold handle_proxy_write. apply spares_current_proxy; [done| |spare].
    simpl. intros Hj d. spare.
  - unfold handle_proxy_read. apply spares_bind; [spare|intros received].
    apply spares_bind; [spare|intros max]. apply spares_current_proxy; [done| |spare].
    simpl. intros Hj d. spare.
Qed.

(** ** The resolver and the timer *)

(** A plain connection that streams no file, and whose upstream has its addresses. *)
Definition settled : Prop :=
  ssl c = None /\ static_stream c = None /\
  forall p, proxy c = Some p -> phase p <> Resolving.

(** A connection that sends, or relays, its response. *)
Definition answering : Prop :=
  ssl c = None /\ static_stream c = None /\
  forall p, proxy c = Some p -> phase p = ReadingResponse.

Lemma answering_settled : answering -> settled.
Proof. intros (H1 & H2 & H3). split_and!; [done..|]. intros p Hp. by rewrite (H3 p Hp). Qed.

(** A resolution of another connection, or of an earlier one. *)
Lemma spares_foreign_resolution r :
  slot r.1 <> k \/ generation r.1 <> conn_generation c -> spares (finish_resolution r).
Proof.
  destruct r as [id found]. intros Hid. unfold finish_resolution.
  apply spares_current; [done|intros Hj d|]; spare.
Qed.

Lemma spares_finish_resolution r : settled -> spares (finish_resolution r).
Proof.
  intros (_ & _ & Hp). destruct r as [id found].
  destruct (decide (slot id = k /\ generation id = conn_generation c)) as [[E Eg]|Hne].
  - unfold finish_resolution, current. apply spares_gets_bind. intros w Hw.
    unfold current_in, matches_generation. rewrite E, Hw, Eg. simpl. rewrite N.eqb_refl.
    rewrite decide_False; [spare|]. destruct (proxy c) as [p|]; [|done]. simpl.
    intros [= E']. by apply (Hp p).
  - apply spares_foreign_resolution. simpl. destruct (decide (slot id = k)); naive_solver.
Qed.

Lemma spares_submit_dns_read : spares submit_dns_read.
Proof. unfold submit_dns_read. spare. Qed.
#[local] Hint Resolve spares_submit_dns_read : spares.

Lemma spares_process_dns_results : settled -> spares process_dns_results.
Proof.
  intros Hc. unfold process_dns_results.
  apply spares_bind; [spare|intros results]. apply spares_bind; [|intros _; spare].
  apply spares_for_all. intros r _. by apply spares_finish_resolution.
Qed.

Lemma spares_pump_static_streams : static_stream c = None -> spares pump_static_streams.
Proof.
  intros Hst. unfold pump_static_streams. apply spares_gets_bind. intros w Hw.
  apply spares_for_all. intros id Hid. apply spares_advance_static_stream. intros E.
  apply uring_elem_of_ids_where in Hid as (d & Hd & Ht & _). rewrite E, Hw in Hd.
  injection Hd as <-. rewrite Hst in Ht. by rewrite bool_decide_eq_false_2 in Ht by naive_solver.
Qed.

Lemma spares_handshakes now w :
  ssl c = None -> connections w !! k = Some c ->
  spares (for_all (fun id => remove (slot id)) (ids_where (handshake_expired now) w)).
Proof.
  intros Hssl Hw. apply spares_for_all. intros id Hid. apply spares_remove. intros E.
  apply uring_elem_of_ids_where in Hid as (d & Hd & Ht & _). rewrite E, Hw in Hd.
  injection Hd as <-. unfold handshake_expired in Ht. by rewrite Hssl in Ht.
Qed.

End Handlers.

Section Completions.

Context {env : UringEnv} {fs : Filesystem} {mime : MimeGuess} {env_ok : UringEnvOk env}.

Notation State := (State IoUringWorker Kernel).

(** ** A completion of another entry *)

(** The connection after the timer: its upstream may be marked as late. *)
Definition later (c c' : UringConnection) : Prop :=
  c' = c \/ exists p, proxy c = Some p /\ c' = set_proxy (Some (set_timed_out p)) c.

Lemma later_answering c c' : later c c' -> answering c -> answering c'.
Proof.
  intros [->|(p & Hp & ->)] (H1 & H2 & H3); [done|]. split_and!; [done..|]. simpl.
  intros p' [= <-]. exact (H3 p Hp).
Qed.

Lemma later_settled c c' : later c c' -> settled c -> settled c'.
Proof.
  intros [->|(p & Hp & ->)] (H1 & H2 & H3); [done|]. split_and!; [done..|]. simpl.
  intros p' [= <-]. exact (H3 p Hp).
Qed.

Lemma later_timed_out c c' p' :
  later c c' -> proxy c' = Some p' -> later c (set_proxy (Some (set_timed_out p')) c').
Proof.
  intros [->|(p & Hp & ->)] Hp'; right; [by exists p'|]. exists p. split; [done|].
  simpl in Hp'. by injection Hp' as <-.
Qed.

(** Of the expirations the timer found, those in slot [k] are of an operation that its
    upstream waits for. *)
Definition expirations (k : N) (c : UringConnection) (x : ConnectionId * ProxyPhase * bool) :
    Prop :=
  slot x.1.1 = k -> x.2 = true /\ is_Some (proxy c).

(** A returning handler that spares the connection. *)
Lemma spares_Ret {A} k c (m : Handler IoUringWorker Kernel A) s a s' :
  spares k c m -> connections (worker s) !! k = Some c -> m s = Ret a s' ->
  connections (worker s') !! k = Some c.
Proof. intros Hm Hs E. specialize (Hm s Hs). by rewrite E in Hm. Qed.

Lemma wp_Ret {A} (m : Handler IoUringWorker Kernel A) Q R s a s' :
  wp m Q R s -> m s = Ret a s' -> Q a s'.
Proof. unfold wp. by intros H E; rewrite E in H. Qed.

Lemma bind_Ret_inv {A B} (m : Handler IoUringWorker Kernel A)
    (f : A -> Handler IoUringWorker Kernel B) s b s' :
  (m ≫= f) s = Ret b s' -> exists a s1, m s = Ret a s1 /\ f a s1 = Ret b s'.
Proof. unfold mbind, Handler_bind. destruct (m s) as [a s1|e s1|]; naive_solver. Qed.

Lemma expire_proxy_later k c c0 x s s' :
  later c c0 -> expirations k c x -> connections (worker s) !! k = Some c0 ->
  expire_proxy x s = Ret tt s' -> exists c', connections (worker s') !! k = Some c' /\ later c c'.
Proof.
  destruct x as [[id ph] pending]. intros Hl Hx Hs E. destruct (decide (slot id = k)) as [Ek|Ek].
  - destruct (Hx Ek) as [Hpending [p0 Hp0]]. simpl in Hpending. subst pending.
    assert (Hp' : exists p', proxy c0 = Some p').
    { destruct Hl as [->|(p & Hp & ->)]; [by exists p0|simpl; eauto]. }
    destruct Hp' as [p' Hp']. destruct s as [w u].
    set (Q := fun (_ : unit) (s : State) =>
      exists c', connections (worker s) !! k = Some c' /\ later c c').
    assert (Hq : forall u', Q tt (mkState (set_connections (<[k := set_proxy
      (Some (set_timed_out p')) c0]> (connections w)) w) u')).
    { intros u'. eexists. simpl. rewrite lookup_insert_eq. split; [done|]. by apply later_timed_out. }
    apply (wp_Ret (expire_proxy (id, ph, true)) Q (fun _ => True) (mkState w u) tt s'); [|done].
    unfold expire_proxy. simpl. rewrite Ek. apply wp_bind, (uring_wp_update_proxy k _ c0 p'); [done..|].
    destruct (phase_operation ph) as [o|]; [|by apply wp_skip]. destruct u as [u inf h].
    apply wp_push_entry; [|done]. intros u'. apply Hq.
  - exists c0. split; [|done]. eapply spares_Ret; [|exact Hs|exact E].
    by apply spares_expire.
Qed.

Lemma expire_all_later k c l : forall c0 s s',
  later c c0 -> Forall (expirations k c) l -> connections (worker s) !! k = Some c0 ->
  for_all expire_proxy l s = Ret tt s' ->
  exists c', connections (worker s') !! k = Some c' /\ later c c'.
Proof.
  induction l as [|x l IH]; intros c0 s s' Hl Hx Hs E; [injection E as <-; by exists c0|].
  apply bind_Ret_inv in E as ([] & s1 & E1 & E2). apply Forall_cons in Hx as [Hx Hxs].
  destruct (expire_proxy_later k c c0 x s s1 Hl Hx Hs E1) as (c1 & Hs1 & Hl1). by eapply IH.
Qed.

(** What the timer does once it has seen to the upstreams. *)
Lemma spares_after_expiry k c now :
  ssl c = None -> static_stream c = None ->
  spares k c (ids ← gets (ids_where (handshake_expired now));
    for_all (fun id => remove (slot id)) ids;;
    submit_timer_read;;
    pump_static_streams).
Proof.
  intros Hssl Hst. apply spares_gets_bind. intros w Hw.
  apply spares_bind; [by apply spares_handshakes|]. intros _. unfold submit_timer_read.
  apply spares_bind; [|intros _; by apply spares_pump_static_streams].
  apply spares_bind; [apply spares_gets|intros fd; apply spares_push_entry].
Qed.

(** The timer, for a connection whose upstream waits for an operation unless it sends. *)
Lemma check_proxy_timeouts_later k c s s' :
  settled c ->
  (forall p, write_pending c = false -> proxy c = Some p -> operation_pending p = true) ->
  connections (worker s) !! k = Some c -> check_proxy_timeouts s = Ret tt s' ->
  exists c', connections (worker s') !! k = Some c' /\ later c c'.
Proof.
  intros Hc Hop Hs E. unfold check_proxy_timeouts in E.
  apply bind_Ret_inv in E as (now & s1 & E1 & E). eapply spares_Ret in E1; [|apply spares_clock|done].
  apply bind_Ret_inv in E as (l & s2 & E2 & E). unfold gets in E2. injection E2 as <- <-.
  apply bind_Ret_inv in E as ([] & s3 & E3 & E).
  apply (expire_all_later k c _ c) in E3; [|by left| |done].
  2: { apply Forall_forall. intros [[id ph] pending] Hin Ek.
    apply elem_of_expired_proxies in Hin as (k' & d & Hd & Hid & Hex). simpl in *. subst id.
    simpl in Ek. subst k'. rewrite E1 in Hd. injection Hd as <-.
    apply expired_proxy_inv in Hex as (Hw & p & Hp & _ & Hpend). split; [|by exists p].
    rewrite <- Hpend. by apply Hop. }
  destruct E3 as (c3 & Hs3 & Hl). exists c3. split; [|done].
  pose proof (later_settled _ _ Hl Hc) as (? & ? & _).
  eapply spares_Ret; [|exact Hs3|exact E]. by apply spares_after_expiry.
Qed.

(** An outstanding entry is the connection's own, another operation's, or none's. *)
Lemma entry_cases lent owed others s k c e :
  Inv None lent owed others s -> connections (worker s) !! k = Some c ->
  e ∈ in_flight (world s) ++ owed ->
  activity (size_of s) k c = Some e \/
  (exists o, operation_wf o /\ user_data e = encode o /\ foreign k c o) \/
  user_data e ∈ reserved.
Proof.
  intros H Hk Hin. rewrite (inv_entries _ _ _ _ _ H), !elem_of_app in Hin.
  destruct Hin as [Hin|[Hin|Hin]].
  - apply elem_of_activities in Hin as (j & d & Hj & Ha).
    destruct (decide (j = k)) as [->|Hne]; [left; by simplify_eq|right; left].
    destruct (inv_base _ _ _ _ _ H j d Hj) as (_ & Hj32 & Hgj & _).
    destruct (activity_inv _ _ _ _ Ha) as [[_ ->]|[(_ & _ & ->)|
      (p & fd & _ & _ & _ & _ & _ & [(_ & a & _ & ->)|[[_ ->]|[_ ->]]])]];
      (eexists; split; [|split; [reflexivity|]]; [done|right; by left]).
  - right; left. apply elem_of_accepts in Hin as (i & l & Hl & Ha). rewrite N.add_0_l in Ha.
    pose proof (proj1 (Forall_lookup _ _)
      (ok_listener_generations _ _ (inv_world _ _ _ _ _ H)) _ _ Hl) as Hg.
    unfold accept_of, accept_entry, accept_operation in Ha.
    destruct (N.leb_spec (2 ^ 32) (N.of_nat i)); [done|]. simpl in Ha.
    destruct (accept_pending l); [|done]. injection Ha as <-.
    exists (mkOperationId (N.of_nat i) (l_generation l) Accept).
    split; [rewrite Hg; by split|]. split; [done|by left].
  - right; right. apply (proj1 (Forall_forall _ _) (inv_others _ _ _ _ _ H) e Hin).
Qed.

(** Such a completion leaves the connection as it is, but for the timer's mark. *)
Lemma foreign_completion cqe e k c s s' :
  (exists o, operation_wf o /\ user_data e = encode o /\ foreign k c o) \/
    user_data e ∈ reserved ->
  cqe_user_data cqe = user_data e -> settled c ->
  (forall p, write_pending c = false -> proxy c = Some p -> operation_pending p = true) ->
  connections (worker s) !! k = Some c -> handle_completion cqe s = Ret tt s' ->
  exists c', connections (worker s') !! k = Some c' /\ later c c'.
Proof.
  intros He Huser Hc Hop Hs E.
  assert (Hsp : forall m, spares k c m -> m s = Ret tt s' ->
    exists c', connections (worker s') !! k = Some c' /\ later c c').
  { intros m Hm Em. exists c. split; [by eapply spares_Ret|by left]. }
  destruct He as [(o & Hwf & Eo & Ho)|Hres].
  - rewrite Eo in Huser. rewrite (handle_completion_operation o cqe Hwf Huser) in E.
    eapply Hsp; [|exact E]. by apply spares_dispatch_completion.
  - unfold handle_completion in E. rewrite Huser in E.
    apply reserved_spec in Hres. destruct Hres as [Ed|[Ed|[Ed|[Ed|Ed]]]]; rewrite Ed in E; simpl in E.
    + eapply Hsp; [|exact E]. apply spares_call.
    + eapply Hsp; [|exact E]. by apply spares_modify.
    + eapply Hsp; [|exact E]. by apply spares_process_dns_results.
    + by eapply check_proxy_timeouts_later.
    + eapply Hsp; [|exact E]. apply spares_skip.
Qed.

End Completions.

(** ** Properties *)

Section Properties.

Context {env : UringEnv} {fs : Filesystem} {mime : MimeGuess}.

Notation State := (State IoUringWorker Kernel).

(** C26. Connections are isolated: in whatever state of the worker, whatever the kernel
    reports, handling the completion of an operation of another slot, of an earlier
    generation of the same slot, or of a listener, leaves a connection exactly as it is,
    whether the handler returns or fails. *)
Theorem connections_isolated `{!UringEnvOk env} k c o cqe (s : State) :
  operation_wf o -> cqe_user_data cqe = encode o -> foreign k c o ->
  connections (worker s) !! k = Some c ->
  match handle_completion cqe s with
  | Ret _ s' | Fail _ s' => connections (worker s') !! k = Some c
  | Panicked => True
  end.
Proof.
  intros Hwf Huser Ho Hs. rewrite (handle_completion_operation o cqe Hwf Huser).
  by apply spares_dispatch_completion.
Qed.

End Properties.

(** ** A run *)

#[local] Instance frame_fs : Filesystem := example_fs.
#[local] Instance frame_mime : MimeGuess := example_mime.

(** Another client is accepted while the first is answered. *)
Definition example_accept : Cqe := mkCqe (encode (mkOperationId 0 1 Accept)) 11 true None.

Lemma example_accept_test :
  match example_answered with
  | Some s =>
    bool_decide (connections (worker s) !! 0 <> None) &&
    match handle_completion example_accept s with
    | Ret _ s' => size (connections (worker s')) =? 2
    | _ => false
    end%nat
  | None => false
  end = true.
Proof. by vm_compute. Qed.

Lemma connections_isolated_witness :
  exists (s s' : ScriptState) c, connections (worker s) !! 0 = Some c /\
    handle_completion example_accept s = Ret tt s' /\ size (connections (worker s')) = 2%nat /\
    connections (worker s') !! 0 = Some c.
Proof.
  pose proof example_accept_test as Htest. revert Htest. generalize example_answered.
  intros [s|] Htest; [|done]. apply andb_true_iff in Htest as [Hc Htest].
  apply bool_decide_eq_true in Hc. destruct (connections (worker s) !! 0) as [c|] eqn:Hk; [|done].
  pose proof (connections_isolated 0 c (mkOperationId 0 1 Accept) example_accept s
    ltac:(done) eq_refl (or_introl eq_refl) Hk) as H.
  destruct (handle_completion example_accept s) as [[] s'|e s'|] eqn:E; [|done..].
  exists s, s', c. split; [exact Hk|]. split; [exact E|].
  split; [by apply Nat.eqb_eq in Htest|exact H].
Defined.
