(* ===== verification/UringIO.v ===== *)
(** * The bytes the io_uring worker sends

    A response, the worker's own or a proxied one, against the bytes that the kernel takes
    and gives: however the kernel splits them into completions, and whatever the worker
    does for its other connections, the client is sent the response in order and without
    loss. *)

From S2P Require Import Prelude RustStd Config Http Router LoadBalancer Proxy StaticFiles Runtime Handler Operation BufferRing UringConnection Uring UringInv UringScript UringLoop UringProps UringFrame.

Import Uring.

Local Open Scope N_scope.

Section Delivery.

Context {env : UringEnv} {fs : Filesystem} {mime : MimeGuess} {env_ok : UringEnvOk env}.

Notation M := (Handler IoUringWorker Kernel).
Notation State := (State IoUringWorker Kernel).

(** The connection: its slot and its generation. *)
Context (k g : N).

Notation id := (mkConnectionId k g).

(** The bytes that the kernel took from the client's sends in a completion. *)
Definition client_bytes (x : Cqe * Entry) : bytes :=
  if user_data x.2 =? operation Write id then
    match op x.2 with OpSend _ b => take (Z.to_nat (cqe_result x.1)) b | _ => [] end
  else [].

(** The bytes of the upstream that a completion brings. *)
Definition upstream_bytes (x : Cqe * Entry) : bytes :=
  if user_data x.2 =? operation ProxyRead id then default [] (received x.1) else [].

(** What the response of [c] still has to send. *)
Definition rest (c : UringConnection) : bytes := drop (N.to_nat (write_offset c)) (write_buffer c).

(** The connection sends its response, or waits for more of a proxied one. *)
Definition carrying (c : UringConnection) : Prop :=
  answering c /\ (write_pending c = false -> write_buffer c = [] /\ is_Some (proxy c)).

(** The last completion of a response. *)
Definition ends (x : Cqe * Entry) : Prop :=
  user_data x.2 = operation Write id \/ user_data x.2 = operation ProxyRead id.

(** It does not lose bytes: a send that went through, or a receive without bytes. *)
Definition lossless (x : Cqe * Entry) : Prop :=
  if user_data x.2 =? operation Write id then (0 < cqe_result x.1)%Z
  else (cqe_result x.1 <= 0)%Z.

(** From the connection [c], the bytes of the completions [xs] are accounted for. *)
Definition still (c : UringConnection) (xs : list (Cqe * Entry)) (s : State) : Prop :=
  exists c', connections (worker s) !! k = Some c' /\ conn_generation c' = g /\ carrying c' /\
    mjoin (client_bytes <$> xs) ++ rest c' = rest c ++ mjoin (upstream_bytes <$> xs).

(** Or they were, up to the completion that ended the response. *)
Definition ended (c : UringConnection) (xs : list (Cqe * Entry)) : Prop :=
  exists xs1 x xs2 lost, xs = xs1 ++ x :: xs2 /\ ends x /\
    mjoin (client_bytes <$> (xs1 ++ [x])) ++ lost =
      rest c ++ mjoin (upstream_bytes <$> (xs1 ++ [x])) /\
    (lossless x -> lost = []).

(** A run of the loop, with the completions it handles. *)
Inductive runs : State -> list (Cqe * Entry) -> State -> Prop :=
| runs_nil s : runs s [] s
| runs_iteration s s1 l s2 s3 xs s' :
    before_wait s = Ret false s1 -> serves s1 l s2 -> after_wait l.*1 s2 = Ret tt s3 ->
    runs s3 xs s' -> runs s (l ++ xs) s'.

Hypothesis Hid : k < 2 ^ 32 /\ 0 < g < 2 ^ 16.

(** ** Lemmas *)

Lemma rest_nil c : write_buffer c = [] -> rest c = [].
Proof. unfold rest. intros ->. apply drop_nil. Qed.

Lemma later_carrying c c' : later c c' -> carrying c -> carrying c' /\ rest c' = rest c /\
  conn_generation c' = conn_generation c.
Proof.
  intros Hl [Ha Hw]. split; [split; [by eapply later_answering|]|];
    destruct Hl as [->|(p & Hp & ->)]; try done.
  intros Hf. destruct (Hw Hf) as [Hb _]. split; [done|by eexists].
Qed.

Lemma operation_ne o o' : o <> o' -> (operation o id =? operation o' id) = false.
Proof.
  intros Hne. apply N.eqb_neq. intros E. apply encode_inj in E; [by injection E as E'|exact Hid..].
Qed.

Lemma foreign_operation c e o :
  conn_generation c = g ->
  (exists o, operation_wf o /\ user_data e = encode o /\ foreign k c o) \/
    user_data e ∈ reserved ->
  o <> Accept -> (user_data e =? operation o id) = false.
Proof.
  intros Hg He Ho. apply N.eqb_neq. intros E. destruct He as [(o' & Hwf & Eo & Hf)|Hres].
  - rewrite Eo in E. apply encode_inj in E; [|done|exact Hid]; subst o'.
    destruct Hf as [Hf|[Hf|Hf]]; [done|done|by rewrite Hg in Hf].
  - rewrite E in Hres. by apply (encode_not_reserved (mkOperationId k g o)).
Qed.

(** A completion of another operation brings and takes nothing. *)
Lemma foreign_bytes c x :
  conn_generation c = g ->
  (exists o, operation_wf o /\ user_data x.2 = encode o /\ foreign k c o) \/
    user_data x.2 ∈ reserved ->
  client_bytes x = [] /\ upstream_bytes x = [].
Proof.
  intros Hg Hx. unfold client_bytes, upstream_bytes. by rewrite !(foreign_operation c).
Qed.

(** ** The connection's own completions *)

(** The send of what remains of the buffer. *)
Lemma wp_resend c (Q : State -> Prop) s :
  connections (worker s) !! k = Some c -> conn_generation c = g -> ssl c = None ->
  write_pending c = false -> write_offset c < len (write_buffer c) ->
  (forall s', connections (worker s') !! k = Some (mark_write_submitted c) -> Q s') ->
  wp (submit_send id) (fun _ => Q) (fun _ => True) s.
Proof.
  intros Hk Hg Hssl Hw Hlt HQ. destruct s as [w [u inf h]]. unfold submit_send.
  apply wp_bind, wp_gets. cbn [worker slot] in *. rewrite Hk. cbn [generation].
  unfold matches_generation. rewrite Hg, N.eqb_refl, Hw, Hssl. simpl.
  apply wp_bind, uring_wp_slice_from; [lia|].
  rewrite bool_decide_eq_false_2.
  2: { intros E%(f_equal length). rewrite length_drop in E. unfold len in Hlt. simpl in E. lia. }
  apply wp_bind, wp_try_u32; [|done]. apply wp_bind, wp_push_entry; [|done].
  intros u'. eapply uring_wp_update; [done|]. apply HQ. simpl. apply lookup_insert_eq.
Qed.

Lemma carrying_sends c : answering c -> write_pending c = true -> carrying c.
Proof. intros Ha Hw. split; [done|]. by rewrite Hw. Qed.

(** The next receive from the upstream. *)
Lemma wp_receive_more c p fd (Q : State -> Prop) s :
  connections (worker s) !! k = Some c -> proxy c = Some p -> upstream p = Some fd ->
  size_of s < 2 ^ 32 ->
  (forall s', connections (worker s') !! k =
     Some (set_proxy (Some (set_operation_pending true p)) c) -> Q s') ->
  wp (submit_proxy_read id) (fun _ => Q) (fun _ => True) s.
Proof.
  intros Hk Hp Hfd Hsize HQ. destruct s as [w [u inf h]]. unfold submit_proxy_read.
  apply wp_bind, (uring_wp_index_proxy k c p); [done..|].
  apply wp_bind, wp_gets. apply wp_bind, wp_unwrap_u32; [done|].
  apply wp_bind, (wp_unwrap _ fd); [done|]. apply wp_bind, wp_push_entry; [|done].
  intros u'. apply (uring_wp_update_proxy k _ c p); [done..|]. apply HQ. simpl.
  apply lookup_insert_eq.
Qed.

Lemma client_bytes_write c x :
  x.2 = write_entry id (socket c) (rest c) ->
  client_bytes x = take (Z.to_nat (cqe_result x.1)) (rest c) /\ upstream_bytes x = [].
Proof.
  intros E. unfold client_bytes, upstream_bytes. rewrite E. simpl. by rewrite N.eqb_refl, operation_ne.
Qed.

(** The whole buffer has been sent: the response ends, or its upstream is read again. *)
Lemma wp_response_drained c (Q : State -> Prop) s :
  connections (worker s) !! k = Some c -> conn_generation c = g -> answering c ->
  write_pending c = false -> (forall p, proxy c = Some p -> is_Some (upstream p)) ->
  size_of s < 2 ^ 32 ->
  (forall c' s', connections (worker s') !! k = Some c' -> conn_generation c' = g ->
     carrying c' -> rest c' = [] -> Q s') ->
  (proxy c = None -> forall s', Q s') ->
  wp (response_drained id) (fun _ => Q) (fun _ => True) s.
Proof.
  intros Hk Hg (Hssl & Hst & Hph) Hw Hup Hsize HQ Hend. destruct s as [w [u inf h]].
  simpl in *. unfold response_drained. apply wp_bind, (uring_wp_index k c); [done|].
  rewrite Hst, Hssl. destruct (proxy c) as [p|] eqn:Hp.
  - apply wp_bind, (uring_wp_update k _ c); [done|]. set (c1 := queue_response [] c).
    apply wp_bind, wp_clock. intros t u1.
    apply wp_bind, (uring_wp_update_proxy k _ c1 p); [simpl; by rewrite lookup_insert_eq|done|].
    set (c2 := set_proxy (Some (record_progress t p)) c1). destruct (Hup p eq_refl) as [fd Hfd].
    apply (wp_receive_more c2 (record_progress t p) fd); [simpl; by rewrite lookup_insert_eq|done..|].
    intros s' Hs'. eapply HQ; [exact Hs'|done| |done].
    split; [|intros _; split; [done|by eexists]]. split_and!; [done..|].
    simpl. intros p' [= <-]. exact (Hph p eq_refl).
  - apply wp_bind, wp_modify. apply (wp_remove k c); [done|]. by apply Hend.
Qed.

(** A send that made progress. *)
Lemma wp_sent c n (Q : State -> Prop) s :
  connections (worker s) !! k = Some c -> conn_generation c = g -> answering c ->
  write_pending c = false -> (forall p, proxy c = Some p -> is_Some (upstream p)) ->
  size_of s < 2 ^ 32 -> write_offset c + n <= len (write_buffer c) ->
  (forall c' s', connections (worker s') !! k = Some c' -> conn_generation c' = g ->
     carrying c' -> rest c' = drop (N.to_nat n) (rest c) -> Q s') ->
  (len (rest c) <= n -> forall s', Q s') ->
  wp (update k (sent n);; c ← index k;
      if output_drained c then response_drained id else submit_send id)
    (fun _ => Q) (fun _ => True) s.
Proof.
  intros Hk Hg Ha Hw Hup Hsize Hle HQ Hend. pose proof Ha as (Hssl & Hst & Hph).
  assert (Hrest : rest (add_write_offset n c) = drop (N.to_nat n) (rest c)).
  { unfold rest. simpl. by rewrite N2Nat.inj_add, drop_drop. }
  assert (Elen : len (rest c) = len (write_buffer c) - write_offset c)
    by (unfold rest; rewrite len_drop; lia).
  destruct s as [w u]. simpl in *. apply wp_bind, (uring_wp_update k _ c); [done|].
  assert (Esent : sent n c = add_write_offset n c) by (unfold sent; by rewrite Hssl).
  rewrite Esent. clear Esent. set (c1 := add_write_offset n c) in *.
  apply wp_bind, (uring_wp_index k c1); [simpl; by rewrite lookup_insert_eq|].
  unfold output_drained. simpl. rewrite Hssl.
  destruct (N.eqb_spec (write_offset c + n) (len (write_buffer c))) as [Eall|Hsome].
  - apply (wp_response_drained c1); try done; [simpl; by rewrite lookup_insert_eq| |].
    + intros c' s' Hs' Hg' Hc' Er. apply (HQ c'); try done. rewrite Er. symmetry.
      apply drop_ge. unfold len in *. lia.
    + intros _. apply Hend. lia.
  - apply (wp_resend c1); try done; [simpl; by rewrite lookup_insert_eq|simpl; lia|].
    intros s' Hs'. eapply HQ; [exact Hs'|done|by apply carrying_sends|exact Hrest].
Qed.

(** A send of the connection's is completed. *)
Lemma write_completion c x s :
  connections (worker s) !! k = Some c -> conn_generation c = g -> carrying c ->
  write_offset c < len (write_buffer c) ->
  (forall p, proxy c = Some p -> is_Some (upstream p)) -> size_of s < 2 ^ 32 ->
  x.2 = write_entry id (socket c) (rest c) -> (cqe_result x.1 <= Z.of_N (len (rest c)))%Z ->
  wp (handle_write_completion (mkOperationId k g Write) (cqe_result x.1))
    (fun _ s' => still c [x] s' \/ ended c [x]) (fun _ => True) s.
Proof.
  intros Hk Hg [Ha _] Hlt Hup Hsize Ex Hle. pose proof Ha as (Hssl & Hst & Hph).
  destruct (client_bytes_write c x Ex) as [Ecl Eup].
  assert (Hless : lossless x <-> (0 < cqe_result x.1)%Z)
    by (unfold lossless; rewrite Ex; simpl; by rewrite N.eqb_refl).
  assert (Hend : forall lost, client_bytes x ++ lost = rest c -> (lossless x -> lost = []) ->
    ended c [x]).
  { intros lost E Hl. exists [], x, [], lost. split; [done|]. split; [left; by rewrite Ex|].
    simpl. by rewrite Eup, !app_nil_r. }
  assert (Hstill : forall c' s', connections (worker s') !! k = Some c' ->
    conn_generation c' = g -> carrying c' -> client_bytes x ++ rest c' = rest c -> still c [x] s').
  { intros c' s' Hk' Hg' Hc' E. exists c'. simpl. rewrite Eup, !app_nil_r. by split_and!. }
  assert (Elen : len (rest c) = len (write_buffer c) - write_offset c)
    by (unfold rest; rewrite len_drop; lia).
  destruct s as [w u]. simpl in *. unfold handle_write_completion.
  apply wp_bind, uring_wp_current. rewrite (proj2 (current_in_Some _ _ c)) by done.
  apply wp_bind, (uring_wp_update k _ c); [done|]. set (c1 := mark_write_completed c). simpl.
  assert (Hk1 : connections (set_connections (<[k := c1]> (connections w)) w) !! k = Some c1)
    by (simpl; by rewrite lookup_insert_eq).
  destruct (Z.leb_spec (cqe_result x.1) 0) as [Hno|Hpos].
  - assert (Enil : client_bytes x = []) by (rewrite Ecl; by replace (Z.to_nat _) with 0%nat by lia).
    assert (Hfail : ended c [x]) by (apply (Hend (rest c)); [by rewrite Enil|rewrite Hless; lia]).
    destruct (Z.ltb_spec (cqe_result x.1) 0) as [Hneg|Hz];
      [destruct (is_retryable _)|rewrite (proj2 (Z.eqb_eq _ _)) by lia];
      try (apply (wp_remove k c1); [exact Hk1|by right]).
    apply (wp_resend c1); try done. intros s1 Hs1. left.
    eapply Hstill; [exact Hs1|done|by apply carrying_sends|by rewrite Enil].
  - rewrite (proj2 (Z.ltb_ge _ _)), (proj2 (Z.eqb_neq _ _)) by lia.
    assert (En : Z.to_nat (cqe_result x.1) = N.to_nat (Z.to_N (cqe_result x.1))) by lia.
    rewrite En in Ecl. apply wp_bind. unfold metric. apply wp_modify. unfold unsent.
    rewrite Hssl, (proj2 (N.ltb_ge _ _)) by lia.
    apply (wp_sent c1); try done; [simpl; lia| |].
    + intros c' s' Hs' Hg' Hc' Er. left. apply (Hstill c'); try done.
      rewrite Er, Ecl. apply take_drop.
    + intros Hall s'. right. apply (Hend []); [|done]. rewrite app_nil_r, Ecl.
      apply take_ge. change (rest c1) with (rest c) in Hall. unfold len in Hall. lia.
Qed.

(** A receive from the upstream is completed: whatever is lost is the chunk it brought. *)
Lemma receive_ends c x :
  write_buffer c = [] -> user_data x.2 = operation ProxyRead id -> ended c [x].
Proof.
  intros Hb Eu. exists [], x, [], (upstream_bytes x). split; [done|]. split; [by right|].
  assert (client_bytes x = []) as Ecl by (unfold client_bytes; by rewrite Eu, operation_ne).
  simpl. rewrite Ecl, rest_nil, !app_nil_r by done. split; [done|].
  unfold lossless. rewrite Eu, operation_ne by done. intros Hr. unfold upstream_bytes, received.
  rewrite (proj2 (Z.ltb_ge 0 _) Hr). by case_match.
Qed.

(** A chunk of the response is sent on. *)
Lemma wp_relay_chunk c p b (Q : State -> Prop) s :
  connections (worker s) !! k = Some c -> conn_generation c = g -> answering c ->
  write_pending c = false -> proxy c = Some p -> 0 < len b ->
  (forall c' s', connections (worker s') !! k = Some c' -> conn_generation c' = g ->
     carrying c' -> rest c' = b -> Q s') ->
  wp (update_proxy k set_response_started;;
      t ← clock; update_proxy k (record_progress t);; send_response id b)
    (fun _ => Q) (fun _ => True) s.
Proof.
  intros Hk Hg (Hssl & Hst & Hph) Hw Hp Hlen HQ. destruct s as [w [u inf h]].
  apply wp_bind, (uring_wp_update_proxy k _ c p); [done..|].
  set (c1 := set_proxy (Some (set_response_started p)) c). apply wp_bind, wp_clock. intros t u'.
  apply wp_bind, (uring_wp_update_proxy k _ c1 (set_response_started p));
    [simpl; by rewrite lookup_insert_eq|done|].
  set (c2 := set_proxy (Some (record_progress t (set_response_started p))) c1).
  unfold send_response.
  apply wp_bind, (uring_wp_update k _ c2); [simpl; by rewrite lookup_insert_eq|].
  apply (wp_resend (queue_response b c2)); try done; [simpl; by rewrite lookup_insert_eq|].
  intros s' Hs'. eapply HQ; [exact Hs'|done| |done].
  apply carrying_sends; [|done]. split_and!; [done..|]. simpl. intros p' [= <-].
  exact (Hph p Hp).
Qed.

(** The start of the handler: the bytes are taken out of the buffer, and the upstream no
    longer waits. *)
Lemma take_proxy_read lent owed others c p cqe s s' :
  Inv None (option_list (cqe_buffer cqe) ++ lent) owed others s -> receive_ok cqe ->
  connections (worker s) !! k = Some c -> conn_generation c = g -> proxy c = Some p ->
  handle_proxy_read (mkOperationId k g ProxyRead) (cqe_result cqe) (fst <$> cqe_buffer cqe) s
  = Ret tt s' ->
  exists max s1, size_of s1 < 2 ^ 32 /\
    connections (worker s1) !! k = Some (set_proxy (Some (set_operation_pending false p)) c) /\
    (if timed_out p then fail_proxy id 504 (str "upstream response timed out")
     else if (cqe_result cqe <? 0)%Z then
       if is_receive_retryable (cqe_result cqe) then submit_proxy_read id
       else fail_proxy id 502 (str "upstream response failed")
     else if (cqe_result cqe =? 0)%Z then metric Runtime.response;; remove k
     else
       b ← unwrap (received cqe);
       metric (Runtime.read_bytes (len b));;
       if max <? len b then fail_proxy id 502 (str "upstream response chunk is too large")
       else
         update_proxy k set_response_started;;
         t ← clock; update_proxy k (record_progress t);; send_response id b) s1 = Ret tt s'.
Proof.
  intros H Hok Hk Hg Hp E. unfold handle_proxy_read in E.
  apply bind_Ret_inv in E as (rcv & s1 & E1 & E).
  eapply (wp_Ret _ (fun r s1 => r = received cqe /\ connections (worker s1) = connections (worker s)
    /\ size_of s1 = size_of s /\ size_of s < 2 ^ 32) (fun _ => True)) in E1.
  2: { eapply take_received_spec; [exact H|done|]. intros s2 _ E2 E3 _. split_and!; [done..|].
       apply (ok_size _ _ (inv_world _ _ _ _ _ H)). }
  destruct E1 as (-> & Econn & Esize & Hsize). rewrite <- Econn in Hk. rewrite <- Esize in Hsize.
  clear H Econn Esize s. destruct s1 as [w u]. simpl in Hk.
  apply bind_Ret_inv in E as (max & s2 & E2 & E). injection E2 as <- <-.
  apply bind_Ret_inv in E as (q & s2 & E2 & E). injection E2 as <- <-.
  simpl in E. unfold current_in, matches_generation in E. simpl in E. rewrite Hk in E. simpl in E.
  rewrite Hg, N.eqb_refl in E. simpl in E. rewrite Hp in E.
  apply bind_Ret_inv in E as ([] & s2 & E2 & E).
  eapply (wp_Ret _ (fun _ s2 => s2 = mkState (set_connections
    (<[k := set_proxy (Some (set_operation_pending false p)) c]> (connections w)) w) u)
    (fun _ => True)) in E2; [|by apply (uring_wp_update_proxy k _ c p)]. subst s2.
  exists (max_write_buffer_size (limits w)). eexists. split; [|split; [|exact E]]; [done|].
  simpl. apply lookup_insert_eq.
Qed.

Lemma read_completion lent owed others c p x s s' :
  Inv None (option_list (cqe_buffer x.1) ++ lent) owed others s -> receive_ok x.1 ->
  connections (worker s) !! k = Some c -> conn_generation c = g -> carrying c ->
  write_pending c = false -> proxy c = Some p -> is_Some (upstream p) ->
  user_data x.2 = operation ProxyRead id ->
  handle_proxy_read (mkOperationId k g ProxyRead) (cqe_result x.1) (fst <$> cqe_buffer x.1) s
  = Ret tt s' ->
  still c [x] s' \/ ended c [x].
Proof.
  intros H Hok Hk Hg [Ha Hidle] Hw Hp [fd Hfd] Eu E. pose proof Ha as (Hssl & Hst & Hph).
  destruct (Hidle Hw) as [Hb _]. pose proof (receive_ends c x Hb Eu) as Hend.
  assert (Hstill : forall c' s', connections (worker s') !! k = Some c' ->
    conn_generation c' = g -> carrying c' -> rest c' = upstream_bytes x -> still c [x] s').
  { intros c' s2 Hk' Hg' Hc' Er. exists c'. do 3 (split; [done|]). simpl. unfold client_bytes.
    by rewrite Eu, operation_ne, Er, (rest_nil c), !app_nil_r. }
  destruct (take_proxy_read lent owed others c p x.1 s s' H Hok Hk Hg Hp E)
    as (max & s1 & Hsize & Hk1 & E1). clear E H Hk.
  set (p1 := set_operation_pending false p) in *. set (c1 := set_proxy (Some p1) c) in *.
  assert (Ha1 : answering c1).
  { split_and!; [done..|]. simpl. intros p' [= <-]. exact (Hph p Hp). }
  destruct (timed_out p); [by right|].
  destruct (Z.ltb_spec (cqe_result x.1) 0) as [Hneg|Hpos].
  { destruct (is_receive_retryable _); [left|by right].
    apply (wp_Ret (submit_proxy_read id) (fun _ => still c [x]) (fun _ => True) s1 tt s'); [|exact E1].
    apply (wp_receive_more c1 p1 fd); try done. intros s2 Hs2. eapply Hstill; [exact Hs2|done| |].
    - split; [|intros _; split; [done|by eexists]]. split_and!; [done..|].
      simpl. intros p' [= <-]. exact (Hph p Hp).
    - rewrite rest_nil by done. unfold upstream_bytes, received.
      by rewrite Eu, N.eqb_refl, (proj2 (Z.ltb_ge 0 _)) by lia. }
  destruct (Z.eqb_spec (cqe_result x.1) 0) as [|Hne]; [by right|].
  apply bind_Ret_inv in E1 as (b & s2 & E2 & E1). destruct (received x.1) as [b'|] eqn:Er; [|done].
  injection E2 as -> <-.
  apply bind_Ret_inv in E1 as ([] & s2 & E2 & E1). injection E2 as <-.
  destruct (_ <? len b); [by right|left].
  assert (Eup : upstream_bytes x = b) by (unfold upstream_bytes; by rewrite Eu, N.eqb_refl, Er).
  assert (Hlen : 0 < len b).
  { unfold received in Er. destruct Hok as [_ Hok]. destruct (0 <? _)%Z; [|done].
    destruct (cqe_buffer x.1) as [[i b']|]; [|done]. injection Er as ->.
    rewrite (Hok i b eq_refl). lia. }
  eapply (wp_Ret _ (fun _ => still c [x]) (fun _ => True)); [|exact E1].
  apply (wp_relay_chunk c1 p1 b); try done. intros c' s2 Hs2 Hg2 Hc2 Er2.
  eapply Hstill; [exact Hs2|done..|by rewrite Eup].
Qed.

(** ** A batch, and a run *)

Lemma own_completion lent owed others x c s s' :
  Inv None (option_list (cqe_buffer x.1) ++ lent) owed others s ->
  connections (worker s) !! k = Some c -> conn_generation c = g -> carrying c ->
  activity (size_of s) k c = Some x.2 ->
  cqe_user_data x.1 = user_data x.2 -> admissible (op x.2) x.1 ->
  handle_completion x.1 s = Ret tt s' -> still c [x] s' \/ ended c [x].
Proof.
  intros H Hk Hg Hc Ha Huser Hadm E.
  pose proof (inv_mode _ _ _ _ _ H k c Hk ltac:(done)) as Hmode.
  pose proof (ok_size _ _ (inv_world _ _ _ _ _ H)) as Hsize.
  pose proof Hc as [(_ & _ & Hph) Hidle].
  assert (Hop : forall o, cqe_user_data x.1 = operation o id ->
    handle_completion x.1 = dispatch_completion (mkOperationId k g o) x.1)
    by (intros o; by apply handle_completion_operation).
  destruct (activity_inv _ _ _ _ Ha) as [[Hr _]|[(Hr & Hw & Ex)|(p & fd & Hr & Hw & Hp & _ & Hup & Hcase)]];
    unfold connection_id in *; rewrite ?Hg in *.
  - destruct Hmode as [_ Hw Hp _| | |]; [|congruence..]. destruct (Hidle Hw) as [_ [p Hp']]. congruence.
  - rewrite (Hop Write) in E by (by rewrite Huser, Ex). rewrite Ex in Hadm.
    destruct Hmode as [|_ _ Hlt Hsend| |]; [congruence| |congruence..].
    apply (wp_Ret (handle_write_completion (mkOperationId k g Write) (cqe_result x.1))
      (fun _ s' => still c [x] s' \/ ended c [x]) (fun _ => True) s tt s'); [|exact E].
    apply write_completion; try done; [|apply Hadm].
    intros p Hp. destruct Hsend as [Hnone|(_ & p' & Hp' & (_ & _ & _ & Hu) & _)]; congruence.
  - destruct Hcase as [[Hphase _]|[[Hphase _]|[_ Ex]]];
      try (rewrite (Hph p Hp) in Hphase; discriminate).
    rewrite (Hop ProxyRead) in E by (by rewrite Huser, Ex). rewrite Ex in Hadm.
    apply (read_completion lent owed others c p x s s'); try done;
      [split; apply Hadm|by rewrite Ex].
Qed.

Lemma ended_app c xs ys : ended c xs -> ended c (xs ++ ys).
Proof.
  intros (xs1 & x & xs2 & lost & -> & H). exists xs1, x, (xs2 ++ ys), lost.
  split; [by rewrite <- app_assoc|done].
Qed.

(** Bytes accounted for so far, then those of the completions that follow. *)
Lemma still_then c c' xs ys s' :
  mjoin (client_bytes <$> xs) ++ rest c' = rest c ++ mjoin (upstream_bytes <$> xs) ->
  still c' ys s' \/ ended c' ys -> still c (xs ++ ys) s' \/ ended c (xs ++ ys).
Proof.
  intros E.
  assert (Hacc : forall ys l,
    mjoin (client_bytes <$> ys) ++ l = rest c' ++ mjoin (upstream_bytes <$> ys) ->
    mjoin (client_bytes <$> (xs ++ ys)) ++ l = rest c ++ mjoin (upstream_bytes <$> (xs ++ ys))).
  { intros ys' l El. by rewrite !fmap_app, !mjoin_app, <- app_assoc, El, !app_assoc, E. }
  intros [(c2 & Hk & Hg & Hc & E2)|(ys1 & y & ys2 & lost & -> & Hy & El & Hl)].
  - left. exists c2. do 3 (split; [done|]). by apply Hacc.
  - right. exists (xs ++ ys1), y, ys2, lost. split; [by rewrite <- app_assoc|].
    split; [done|]. split; [|done]. rewrite <- app_assoc. by apply Hacc.
Qed.

Lemma handle_batch l : forall others c s s',
  Inv None (lent_of l) (owed_of l) others s -> batch_ok (in_flight (world s)) l ->
  armed (owed_of l) s -> connections (worker s) !! k = Some c -> conn_generation c = g ->
  carrying c -> for_all handle_completion l.*1 s = Ret tt s' -> still c l s' \/ ended c l.
Proof.
  induction l as [|x l IH]; intros others c s s' H Hok Harmed Hk Hg Hc E.
  - left. injection E as <-. exists c. do 3 (split; [done|]). simpl. by rewrite app_nil_r.
  - destruct Hok as (Huser & Hadm & Hin & Hok).
    apply bind_Ret_inv in E as ([] & s1 & E1 & E).
    pose proof (wp_Ret _ _ _ _ _ _ (handle_completion_spec (lent_of l) (owed_of l) others x s
      H Huser Hadm Hin Harmed) E1) as ((others1 & H1) & (Hgrow & _) & Harmed1).
    assert (Hstep : still c [x] s1 \/ ended c [x]).
    { destruct (entry_cases _ _ _ _ _ _ _ H Hk Hin) as [Ha|Hf]; [by eapply (own_completion (lent_of l))|left].
      destruct (foreign_completion x.1 x.2 k c s s1 Hf Huser (answering_settled _ (proj1 Hc))) as (c1 & Hk1 & Hl);
        [|done..|].
      - intros p Hw Hp. pose proof Hc as [(_ & _ & Hph) _].
        destruct (inv_mode _ _ _ _ _ H k c Hk ltac:(done)) as
          [_ _ Hp' _|_ Hw' _ _|_ _ Hp' _ _ _|p' _ _ _ Hp' [_ Hmode]]; try congruence.
        rewrite Hp in Hp'. injection Hp' as <-. rewrite (Hph p Hp) in Hmode. apply Hmode.
      - destruct (later_carrying c c1 Hl Hc) as (Hc1 & Hrest & Hg1).
        destruct (foreign_bytes c x Hg Hf) as [E2 E3].
        exists c1. split; [done|]. split; [congruence|]. split; [done|].
        simpl. by rewrite E2, E3, Hrest, !app_nil_r. }
    destruct Hstep as [(c1 & Hk1 & Hg1 & Hc1 & Eb)|Hend]; [|right; by apply (ended_app c [x] l)].
    apply (still_then c c1 [x] l s' Eb). eapply IH; try done. by eapply batch_ok_grows.
Qed.

(** An iteration of the loop, as the handling of a batch. *)
Lemma iteration s s1 l s2 s3 c :
  Top s -> before_wait s = Ret false s1 -> serves s1 l s2 -> after_wait l.*1 s2 = Ret tt s3 ->
  connections (worker s) !! k = Some c ->
  Top s3 /\ exists others s2',
    Inv None (lent_of l) (owed_of l) others s2 /\ batch_ok (in_flight (world s2)) l /\
    armed (owed_of l) s2 /\ connections (worker s2) !! k = Some c /\
    for_all handle_completion l.*1 s2 = Ret tt s2' /\
    forall c', connections (worker s2') !! k = Some c' -> connections (worker s3) !! k = Some c'.
Proof.
  intros Htop Hb Hserves Ha Hk.
  pose proof (wp_Ret _ _ _ _ _ _ (before_wait_spec _ Htop) Hb) as [Htop1 _].
  pose proof (wp_Ret _ _ _ _ _ _ (after_wait_spec _ _ _ Htop1 Hserves) Ha) as [Htop3 _].
  split; [done|]. eapply spares_Ret in Hb; [|apply spares_before_wait|exact Hk].
  destruct Htop1 as [(others & H1) [Harmed1 _]].
  destruct (serves_spec _ _ _ _ _ _ H1 Hserves) as (H2 & Hp2 & Ht2 & Hok2).
  rewrite !app_nil_r in H2. apply bind_Ret_inv in Ha as ([] & s2' & Ha & Hsubmit).
  exists others, s2'. split; [done|]. split; [done|]. split; [|split; [|split; [done|]]].
  - unfold armed in *. rewrite Ht2, <- Hp2. by rewrite app_nil_r in Harmed1.
  - clear - Hb Hserves. induction Hserves as [|s x s1 l s2 [] _ IH]; [done|]. by apply IH.
  - intros c' Hk'. eapply spares_Ret; [apply spares_ring_submit|exact Hk'|exact Hsubmit].
Qed.

Lemma runs_delivers s xs s' :
  runs s xs s' -> forall c, Top s -> connections (worker s) !! k = Some c ->
  conn_generation c = g -> carrying c -> still c xs s' \/ ended c xs.
Proof.
  induction 1 as [s|s s1 l s2 s3 xs s' Hb Hserves Ha _ IH]; intros c Htop Hk Hg Hc.
  - left. exists c. do 3 (split; [done|]). simpl. by rewrite app_nil_r.
  - destruct (iteration s s1 l s2 s3 c Htop Hb Hserves Ha Hk)
      as (Htop3 & others & s2' & H2 & Hok2 & Harmed2 & Hk2 & Ha2 & Hkeeps).
    destruct (handle_batch l others c s2 s2' H2 Hok2 Harmed2 Hk2 Hg Hc Ha2)
      as [(c3 & Hk3 & Hg3 & Hc3 & Eb)|Hend]; [|right; by apply ended_app].
    apply (still_then c c3 l xs s' Eb). apply IH; try done. by apply Hkeeps.
Qed.

End Delivery.

(** ** Properties *)

Section Properties.

Context {env : UringEnv} {fs : Filesystem} {mime : MimeGuess}.

Notation State := (State IoUringWorker Kernel).

(** C10. The io_uring worker delivers a response: take any reachable state in which a plain
    connection sends a response, or relays one from its upstream, and any further run of
    the loop, in which the kernel completes whatever entries it likes, in batches of its
    choice, with as many or as few bytes as it likes, and the worker serves its other
    connections. Then the bytes the kernel took from this client's sends are, in order and
    without loss, those the response had left followed by those the upstream sent: up to
    the end of the run, the connection holding exactly what is still to send, or up to the
    completion that ended the response, after which nothing is missing unless the client's
    send failed, or the last chunk came from an upstream that was given up. *)
Theorem uring_response_delivered `{!UringEnvOk env} s0 (s : State) k c xs s' :
  plain_start s0 -> reachable s0 s -> connections (worker s) !! k = Some c ->
  carrying c -> runs s xs s' ->
  still k (conn_generation c) c xs s' \/ ended k (conn_generation c) c xs.
Proof.
  intros H0 Hs Hk Hc Hruns. pose proof (reachable_plain _ _ H0 Hs) as Htop.
  pose proof Htop as [(others & H) _].
  destruct (inv_base _ _ _ _ _ H k c Hk) as (_ & Hk32 & Hgen & _).
  by eapply runs_delivers.
Qed.

End Properties.

(** ** A run *)

#[local] Instance io_fs : Filesystem := example_fs.
#[local] Instance io_mime : MimeGuess := example_mime.

(** An iteration in which the kernel completes the [n]th entry, with its completion. *)
Definition take_some (n : nat) (result : Z) (buffer : option bytes) (s : ScriptState) :
    option (Cqe * Entry * ScriptState) :=
  match before_wait s with
  | Ret false s1 =>
    '(x, s2) ← complete n result false buffer s1;
    if admissibleb (op x.2) x.1 then
      match after_wait [x.1] s2 with Ret _ s3 => Some (x, s3) | _ => None end
    else None
  | _ => None
  end.

Lemma take_some_runs n result buffer s x s' xs s'' :
  take_some n result buffer s = Some (x, s') -> runs s' xs s'' -> runs s (x :: xs) s''.
Proof.
  unfold take_some. intros H Hruns. destruct (before_wait s) as [[] s1| |] eqn:Hb; try done.
  destruct (complete n result false buffer s1) as [[y s2]|] eqn:Hc; [|done]. simpl in H.
  destruct (admissibleb (op y.2) y.1) eqn:Hadm; [|done].
  destruct (after_wait [y.1] s2) as [[] s3| |] eqn:Ha; try done. injection H as -> ->.
  apply (runs_iteration s s1 [x] s2 s'); [done| |exact Ha|exact Hruns].
  eapply serves_cons; [|constructor]. eapply complete_serve; [exact Hc|].
  by apply admissibleb_ok.
Qed.

(** Several iterations. *)
Fixpoint take_all (l : list (nat * Z * option bytes)) (s : ScriptState) :
    option (list (Cqe * Entry) * ScriptState) :=
  match l with
  | [] => Some ([], s)
  | (n, result, buffer) :: l =>
    '(x, s1) ← take_some n result buffer s; '(xs, s2) ← take_all l s1; Some (x :: xs, s2)
  end.

Lemma take_all_runs l : forall s xs s', take_all l s = Some (xs, s') -> runs s xs s'.
Proof.
  induction l as [|[[n result] buffer] l IH]; intros s xs s' E; simpl in E.
  - injection E as <- <-. constructor.
  - destruct (take_some n result buffer s) as [[x s1]|] eqn:E1; [|done]. simpl in E.
    destruct (take_all l s1) as [[ys s2]|] eqn:E2; [|done]. injection E as <- <-.
    eapply take_some_runs; [exact E1|]. by apply IH.
Qed.

#[global] Arguments take_all : simpl never.

(** The response goes out in two pieces. *)
Definition example_delivered (s : ScriptState) :
    option (UringConnection * list (Cqe * Entry) * ScriptState) :=
  c ← connections (worker s) !! 0;
  '(xs, s2) ← take_all [(4%nat, 5%Z, None); (4%nat, (Z.of_N (len (rest c)) - 5)%Z, None)] s;
  Some (c, xs, s2).

Definition carryingb (c : UringConnection) : bool :=
  bool_decide (ssl c = None) && bool_decide (static_stream c = None)
  && bool_decide (proxy c = None) && write_pending c.

Lemma carryingb_ok c : carryingb c = true -> carrying c.
Proof.
  unfold carryingb. rewrite !andb_true_iff, !bool_decide_eq_true.
  intros [[[Hssl Hst] Hp] Hw]. apply carrying_sends; [|done]. split_and!; [done..|].
  by rewrite Hp.
Qed.

Definition delivers (s : ScriptState) : bool :=
  match example_delivered s with
  | Some (c, xs, s2) =>
    carryingb c && (conn_generation c =? 1) && bool_decide (connections (worker s2) !! 0 = None)
    && bool_decide (mjoin (client_bytes 0 1 <$> xs) = response_bytes 200 (str "hello"))
  | None => false
  end.

Lemma example_delivers :
  match example_answered with Some s => delivers s | None => false end = true.
Proof. by vm_compute. Qed.

Lemma uring_response_delivered_witness :
  exists s0 s c xs s', reachable s0 s /\ runs s xs s' /\ ended 0 1 c xs /\
    mjoin (client_bytes 0 1 <$> xs) = response_bytes 200 (str "hello").
Proof.
  pose proof example_delivers as Htest. pose proof example_answered_inv as Hinv.
  revert Htest Hinv. generalize example_answered. intros [s|] Htest Hinv; [|done].
  destruct (Hinv s eq_refl) as (s0 & H0 & Hs). unfold delivers, example_delivered in Htest.
  destruct (connections (worker s) !! 0) as [c|] eqn:Hk; [|done]. simpl in Htest.
  destruct (take_all _ s) as [[xs s2]|] eqn:Hall; [|done]. simpl in Htest.
  rewrite !andb_true_iff, !bool_decide_eq_true, N.eqb_eq in Htest.
  destruct Htest as (((Hc & Hg) & Hgone) & Hbytes).
  pose proof (take_all_runs _ _ _ _ Hall) as Hruns.
  exists s0, s, c, xs, s2. split; [exact Hs|]. split; [exact Hruns|].
  split; [|exact Hbytes].
  destruct (uring_response_delivered s0 s 0 c _ s2 H0 Hs Hk (carryingb_ok c Hc) Hruns)
    as [(c' & Hk' & _)|He].
  - rewrite Hgone in Hk'. discriminate Hk'.
  - rewrite <- Hg. exact He.
Defined.
