(* ===== verification/UringExchange.v ===== *)
(** * A proxied exchange over io_uring, from end to end

    From the moment a request is handed to its upstream: the bytes the kernel takes for the
    upstream are those of the request, and what the client receives afterwards is the
    upstream's response or an error response, whatever the loop does for the other
    connections. The second half is that of [UringIO.v]. *)

From S2P Require Import Prelude RustStd Config Http Router LoadBalancer Proxy StaticFiles Runtime Handler Operation BufferRing UringConnection Uring UringInv UringScript UringLoop UringProps UringFrame UringIO.

Import Uring.

Local Open Scope N_scope.

(** What the upstream has still to be sent. *)
Definition request_left (p : UringProxy) : bytes :=
  drop (N.to_nat (request_offset p)) (proxy_buffer p).

Section Exchange.

Context {env : UringEnv} {fs : Filesystem} {mime : MimeGuess} {env_ok : UringEnvOk env}.

Notation M := (Handler IoUringWorker Kernel).
Notation State := (State IoUringWorker Kernel).

(** The connection waits for its upstream's address, to connect, or to send the request. *)
Definition forwarding (c : UringConnection) (p : UringProxy) : Prop :=
  ssl c = None /\ static_stream c = None /\ write_pending c = false /\ write_buffer c = [] /\
  proxy c = Some p /\ response_started p = false /\ phase p <> ReadingResponse.

(** The connection: its slot and its generation. *)
Context (k g : N).

Notation id := (mkConnectionId k g).

(** The bytes that the kernel took for the upstream in a completion. *)
Definition forwarded_bytes (x : Cqe * Entry) : bytes :=
  if user_data x.2 =? operation ProxyWrite id then
    match op x.2 with OpSend _ b => take (Z.to_nat (cqe_result x.1)) b | _ => [] end
  else [].

(** The whole request has been sent, and nothing of the response has arrived. *)
Definition listens (c : UringConnection) : Prop :=
  conn_generation c = g /\ carrying c /\ rest c = [] /\ is_Some (proxy c).

(** The upstream was given up, and nothing of the error response has been sent. *)
Definition apologizes (c : UringConnection) : Prop :=
  conn_generation c = g /\ carrying c /\ proxy c = None /\
  exists status message, (status = 502 \/ status = 504) /\ rest c = response_bytes status message.

(** From the upstream [p], the bytes of the completions [xs] are accounted for, and the
    client has received nothing. *)
Definition forwards (p : UringProxy) (xs : list (Cqe * Entry)) (s : State) : Prop :=
  exists c' p', connections (worker s) !! k = Some c' /\ conn_generation c' = g /\
    forwarding c' p' /\ mjoin (client_bytes k g <$> xs) = [] /\
    mjoin (forwarded_bytes <$> xs) ++ request_left p' = request_left p.

(** They were until the connection was [c], which listens having lost nothing, or
    apologizes. *)
Definition turns (p : UringProxy) (xs : list (Cqe * Entry)) (c : UringConnection) : Prop :=
  mjoin (client_bytes k g <$> xs) = [] /\
  exists lost, mjoin (forwarded_bytes <$> xs) ++ lost = request_left p /\
    (listens c /\ lost = [] \/ apologizes c).

Definition turned (p : UringProxy) (xs : list (Cqe * Entry)) (s : State) : Prop :=
  exists c, connections (worker s) !! k = Some c /\ turns p xs c.

(** And then the client is sent what there is to send. *)
Definition exchanged (p : UringProxy) (xs : list (Cqe * Entry)) (s : State) : Prop :=
  exists xs1 xs2 c, xs = xs1 ++ xs2 /\ turns p xs1 c /\
    (still k g c xs2 s \/ ended k g c xs2).

(** The connection forwards, [left] being left to send, or apologizes. *)
Definition tries (left : bytes) (s : State) : Prop :=
  exists c, connections (worker s) !! k = Some c /\
    ((conn_generation c = g /\ exists p, forwarding c p /\ request_left p = left) \/
     apologizes c).

Hypothesis Hid : k < 2 ^ 32 /\ 0 < g < 2 ^ 16.

(** ** Handlers of the connection *)

Lemma forwarding_update c p p' :
  forwarding c p -> response_started p' = response_started p -> phase p' <> ReadingResponse ->
  forwarding (set_proxy (Some p') c) p'.
Proof. intros (? & ? & ? & ? & ? & ? & ?) E Hph. split_and!; try done. by rewrite E. Qed.

Lemma wp_apologize c status message (Q : State -> Prop) s :
  connections (worker s) !! k = Some c -> conn_generation c = g -> ssl c = None ->
  static_stream c = None -> write_pending c = false -> status = 502 \/ status = 504 ->
  (forall c' s', connections (worker s') !! k = Some c' -> apologizes c' -> Q s') ->
  wp (queue_proxy_error id status message) (fun _ => Q) (fun _ => True) s.
Proof.
  intros Hk Hg Hssl Hst Hw Hstatus HQ. destruct s as [w u]. unfold queue_proxy_error, metric.
  apply wp_bind, wp_modify. simpl in Hk.
  apply wp_bind, uring_wp_current. rewrite (proj2 (current_in_Some _ _ c)) by done.
  apply wp_bind, (uring_wp_update k _ c); [done|]. set (c1 := set_proxy None c).
  unfold send_response. apply wp_bind, (uring_wp_update k _ c1); [simpl; by rewrite lookup_insert_eq|].
  apply (wp_resend k g Hid (queue_response (response_bytes status message) c1)); try done.
  { simpl. by rewrite lookup_insert_eq. }
  intros s' Hs'. eapply HQ; [exact Hs'|]. split; [done|].
  split; [apply carrying_sends; [by split_and!|done]|]. split; [done|]. by exists status, message.
Qed.

Lemma wp_give_up c p status message left s :
  connections (worker s) !! k = Some c -> conn_generation c = g -> forwarding c p ->
  status = 502 \/ status = 504 ->
  wp (queue_proxy_error id status message) (fun _ => tries left) (fun _ => True) s.
Proof.
  intros Hk Hg (Hssl & Hst & Hw & _) Hstatus. eapply wp_apologize; [done..|].
  intros c' s' Hk' H. exists c'. by split; [|right].
Qed.

Lemma wp_fail_upstream c p status message left s :
  connections (worker s) !! k = Some c -> conn_generation c = g -> forwarding c p ->
  status = 502 \/ status = 504 ->
  wp (fail_proxy id status message) (fun _ => tries left) (fun _ => True) s.
Proof.
  intros Hk Hg Hf Hstatus. pose proof Hf as (_ & _ & _ & _ & Hp & Hstart & _).
  destruct s as [w u]. unfold fail_proxy. apply wp_bind, wp_gets. cbn [slot worker] in *.
  rewrite Hk, Hp, Hstart. by eapply wp_give_up.
Qed.

(** The next send of the request. *)
Lemma wp_write_more c p fd (Q : State -> Prop) s :
  connections (worker s) !! k = Some c -> proxy c = Some p -> upstream p = Some fd ->
  request_in_range p ->
  (forall s', connections (worker s') !! k =
     Some (set_proxy (Some (set_operation_pending true p)) c) -> Q s') ->
  wp (submit_proxy_write id) (fun _ => Q) (fun _ => True) s.
Proof.
  intros Hk Hp Hfd Hrange HQ. destruct s as [w [u inf h]]. unfold submit_proxy_write.
  apply wp_bind, (uring_wp_index_proxy k c p); [done..|].
  apply wp_bind, uring_wp_slice_from; [done|]. apply wp_bind, wp_try_u32; [|done].
  apply wp_bind, (wp_unwrap _ fd); [done|]. apply wp_bind, wp_push_entry; [|done].
  intros u'. apply (uring_wp_update_proxy k _ c p); [done..|]. apply HQ. simpl.
  apply lookup_insert_eq.
Qed.

Lemma wp_connect_more c p fd a (Q : State -> Prop) s :
  connections (worker s) !! k = Some c -> proxy c = Some p -> upstream p = Some fd ->
  address p = Some a ->
  (forall s', connections (worker s') !! k =
     Some (set_proxy (Some (set_operation_pending true p)) c) -> Q s') ->
  wp (submit_proxy_connect id) (fun _ => Q) (fun _ => True) s.
Proof.
  intros Hk Hp Hfd Ha HQ. destruct s as [w [u inf h]]. unfold submit_proxy_connect.
  apply wp_bind, (uring_wp_index_proxy k c p); [done..|].
  apply wp_bind, (wp_unwrap _ fd); [done|]. apply wp_bind, (wp_unwrap _ a); [done|].
  apply wp_bind, wp_push_entry; [|done].
  intros u'. apply (uring_wp_update_proxy k _ c p); [done..|]. apply HQ. simpl.
  apply lookup_insert_eq.
Qed.

Lemma wp_try_addresses l : forall c p s,
  connections (worker s) !! k = Some c -> conn_generation c = g -> forwarding c p ->
  wp (try_addresses id l) (fun _ => tries (request_left p)) (fun _ => True) s.
Proof.
  induction l as [|a l IH]; intros c p s Hk Hg Hf.
  { eapply wp_give_up; [done..|by left]. }
  pose proof Hf as (_ & _ & _ & _ & Hp & _ & Hph). destruct s as [w [u inf h]]. simpl in *.
  apply wp_bind, (uring_wp_update_proxy k _ c p); [done..|].
  set (p1 := set_addresses l p). set (c1 := set_proxy (Some p1) c).
  assert (Hf1 : forwarding c1 p1) by (by apply (forwarding_update c p)).
  apply wp_bind, wp_call. intros r u1 _. destruct r as [fd|e].
  - apply wp_bind, (uring_wp_update_proxy k _ c1 p1); [simpl; by rewrite lookup_insert_eq|done|].
    apply wp_bind, wp_clock. intros t u2. set (p2 := set_upstream fd a p1).
    apply wp_bind, (uring_wp_update_proxy k _ (set_proxy (Some p2) c1) p2);
      [simpl; by rewrite lookup_insert_eq|done|].
    set (p3 := record_progress t p2).
    apply (wp_connect_more (set_proxy (Some p3) (set_proxy (Some p2) c1)) p3 fd a);
      [simpl; by rewrite lookup_insert_eq|done..|].
    intros s' Hs'. eexists. split; [exact Hs'|]. left. split; [exact Hg|].
    exists (set_operation_pending true p3). split; [|done].
    destruct Hf as (? & ? & ? & ? & ? & ? & ?). by split_and!.
  - apply (IH c1 p1); [simpl; by rewrite lookup_insert_eq|done..].
Qed.

Lemma wp_next_address c p s :
  connections (worker s) !! k = Some c -> conn_generation c = g -> forwarding c p ->
  wp (try_next_proxy_address id) (fun _ => tries (request_left p)) (fun _ => True) s.
Proof.
  intros Hk Hg Hf. destruct s as [w u]. unfold try_next_proxy_address.
  apply wp_bind, (uring_wp_index k c); [done|]. by eapply wp_try_addresses.
Qed.

(** ** The connection's own completions *)

Lemma tries_outcome p x left s' :
  client_bytes k g x = [] -> forwarded_bytes x ++ left = request_left p ->
  tries left s' -> forwards p [x] s' \/ turned p [x] s'.
Proof.
  intros Ecl Eleft (c' & Hk' & [(Hg' & p' & Hf' & <-)|Hc']); [left|right].
  - exists c', p'. do 3 (split; [done|]). simpl. by rewrite Ecl, !app_nil_r.
  - exists c'. split; [done|]. split; [by simpl; rewrite Ecl|]. exists left. simpl.
    rewrite app_nil_r. split; [done|by right].
Qed.

Lemma listens_outcome c p x s' :
  connections (worker s') !! k = Some c -> listens c -> client_bytes k g x = [] ->
  forwarded_bytes x = request_left p -> turned p [x] s'.
Proof.
  intros Hk Hc Ecl Eleft. exists c. split; [done|]. split; [by simpl; rewrite Ecl|].
  exists []. simpl. rewrite !app_nil_r. split; [done|by left].
Qed.

Lemma wp_take_operation c p (f : option UringProxy -> M unit) (Q : unit -> State -> Prop) R s :
  connections (worker s) !! k = Some c -> conn_generation c = g -> proxy c = Some p ->
  wp (f (Some p)) Q R s -> wp (q ← current_proxy id; f q) Q R s.
Proof.
  intros Hk Hg Hp Hf. destruct s as [w u]. apply wp_bind. unfold current_proxy. apply wp_gets.
  rewrite (proj2 (current_in_Some w id c)) by done. simpl. by rewrite Hp.
Qed.

Lemma connect_completion c p x s :
  connections (worker s) !! k = Some c -> conn_generation c = g -> forwarding c p ->
  is_Some (upstream p) -> request_in_range p -> user_data x.2 = operation ProxyConnect id ->
  wp (handle_proxy_connect (mkOperationId k g ProxyConnect) (cqe_result x.1))
    (fun _ s' => forwards p [x] s' \/ turned p [x] s') (fun _ => True) s.
Proof.
  intros Hk Hg Hf [fd Hfd] Hrange Ex. pose proof Hf as (Hssl & Hst & Hw & Hb & Hp & Hstart & Hph).
  apply (wp_mono _ (fun _ => tries (request_left p)) _ (fun _ => True)); [| |done].
  2: { intros _ s' Ht. eapply tries_outcome; [..|exact Ht].
    - unfold client_bytes. by rewrite Ex, operation_ne.
    - unfold forwarded_bytes. by rewrite Ex, operation_ne. }
  unfold handle_proxy_connect. apply (wp_take_operation c p); [done..|].
  destruct s as [w u]. apply wp_bind, (uring_wp_update_proxy k _ c p); [done..|].
  set (p1 := set_operation_pending false p). set (c1 := set_proxy (Some p1) c).
  assert (Hf1 : forwarding c1 p1) by (by apply (forwarding_update c p)).
  set (w1 := set_connections _ _).
  assert (Hk1 : connections w1 !! k = Some c1) by (simpl; by rewrite lookup_insert_eq).
  destruct (timed_out p); [by eapply wp_fail_upstream; [..|right]|].
  destruct (_ <? 0)%Z; [by eapply (wp_next_address c1 p1)|].
  destruct u as [u inf h]. apply wp_bind, wp_clock. intros t u1.
  apply wp_bind, (uring_wp_update_proxy k _ c1 p1); [done..|].
  set (p2 := transition WritingRequest t p1).
  apply (wp_write_more (set_proxy (Some p2) c1) p2 fd); [simpl; by rewrite lookup_insert_eq|done..|].
  intros s' Hs'. eexists. split; [exact Hs'|]. left. split; [exact Hg|].
  exists (set_operation_pending true p2). split; [|done].
  by split_and!.
Qed.

(** The request made progress. *)
Lemma write_progress c p fd n (Q : State -> Prop) s :
  connections (worker s) !! k = Some c -> conn_generation c = g -> forwarding c p ->
  upstream p = Some fd -> request_offset p + n <= len (proxy_buffer p) -> size_of s < 2 ^ 32 ->
  (forall s', tries (drop (N.to_nat n) (request_left p)) s' -> Q s') ->
  (len (request_left p) = n -> forall c' s',
     connections (worker s') !! k = Some c' -> listens c' -> Q s') ->
  wp (update_proxy k (add_request_offset n);;
      t ← clock;
      update_proxy k (record_progress t);;
      if request_offset p + n =? len (proxy_buffer p) then
        t ← clock;
        update_proxy k (transition ReadingResponse t);;
        submit_proxy_read id
      else submit_proxy_write id) (fun _ => Q) (fun _ => True) s.
Proof.
  intros Hk Hg (Hssl & Hst & Hw & Hb & Hp & Hstart & Hph) Hfd Hle Hsize HQ Hall.
  assert (Elen : len (request_left p) = len (proxy_buffer p) - request_offset p)
    by (unfold request_left; rewrite len_drop; lia).
  destruct s as [w [u inf h]]. apply wp_bind, (uring_wp_update_proxy k _ c p); [done..|].
  set (p1 := add_request_offset n p). set (c1 := set_proxy (Some p1) c).
  apply wp_bind, wp_clock. intros t u1.
  apply wp_bind, (uring_wp_update_proxy k _ c1 p1); [simpl; by rewrite lookup_insert_eq|done|].
  set (p2 := record_progress t p1). set (c2 := set_proxy (Some p2) c1).
  destruct (N.eqb_spec (request_offset p + n) (len (proxy_buffer p))) as [Eall|Hsome].
  - apply wp_bind, wp_clock. intros t' u2.
    apply wp_bind, (uring_wp_update_proxy k _ c2 p2); [simpl; by rewrite lookup_insert_eq|done|].
    set (p3 := transition ReadingResponse t' p2).
    apply (wp_receive_more k g (set_proxy (Some p3) c2) p3 fd);
      [simpl; by rewrite lookup_insert_eq|done..|].
    intros s' Hs'. apply (Hall ltac:(lia) _ _ Hs'). split; [done|].
    split; [|split; [by apply rest_nil|by eexists]].
    split; [|intros _; split; [done|by eexists]]. split_and!; [done..|]. by intros p' [= <-].
  - apply (wp_write_more c2 p2 fd); [simpl; by rewrite lookup_insert_eq|done..|].
    intros s' Hs'. apply HQ. eexists. split; [exact Hs'|]. left. split; [exact Hg|].
    exists (set_operation_pending true p2). split; [by split_and!|].
    unfold request_left. simpl. by rewrite N2Nat.inj_add, drop_drop.
Qed.

Lemma write_step c p x s :
  connections (worker s) !! k = Some c -> conn_generation c = g -> forwarding c p ->
  is_Some (upstream p) -> request_in_range p -> size_of s < 2 ^ 32 ->
  client_bytes k g x = [] ->
  forwarded_bytes x = take (Z.to_nat (cqe_result x.1)) (request_left p) ->
  (cqe_result x.1 <= Z.of_N (len (request_left p)))%Z ->
  wp (handle_proxy_write (mkOperationId k g ProxyWrite) (cqe_result x.1))
    (fun _ s' => forwards p [x] s' \/ turned p [x] s') (fun _ => True) s.
Proof.
  intros Hk Hg Hf [fd Hfd] Hrange Hsize Ecl Efw Hle.
  pose proof Hf as (Hssl & Hst & Hw & Hb & Hp & Hstart & Hph).
  assert (Htries : forall left s', forwarded_bytes x ++ left = request_left p -> tries left s' ->
    forwards p [x] s' \/ turned p [x] s').
  { intros left s' E Ht. by eapply tries_outcome. }
  assert (Elen : len (request_left p) = len (proxy_buffer p) - request_offset p)
    by (unfold request_left; rewrite len_drop; lia).
  unfold handle_proxy_write. apply (wp_take_operation c p); [done..|].
  destruct s as [w u]. apply wp_bind, (uring_wp_update_proxy k _ c p); [done..|].
  set (p1 := set_operation_pending false p). set (c1 := set_proxy (Some p1) c).
  assert (Hf1 : forwarding c1 p1) by (by apply (forwarding_update c p)).
  set (w1 := set_connections _ _).
  assert (Hk1 : connections w1 !! k = Some c1) by (simpl; by rewrite lookup_insert_eq).
  set (left := drop (Z.to_nat (cqe_result x.1)) (request_left p)).
  assert (Eleft : forwarded_bytes x ++ left = request_left p) by (rewrite Efw; apply take_drop).
  assert (Hfail : forall status message, status = 502 \/ status = 504 ->
    wp (fail_proxy id status message)
      (fun _ s' => forwards p [x] s' \/ turned p [x] s') (fun _ => True) (mkState w1 u)).
  { intros status message Hstatus.
    eapply wp_mono; [by eapply (wp_fail_upstream c1 p1 _ _ left)| |done]. intros [] s'. by apply Htries. }
  destruct (timed_out p); [apply Hfail; by right|].
  destruct (Z.ltb_spec (cqe_result x.1) 0) as [Hneg|Hpos].
  { destruct (is_retryable _); [|apply Hfail; by left].
    apply (wp_write_more c1 p1 fd); [done..|]. intros s' Hs'. apply (Htries left); [done|].
    eexists. split; [exact Hs'|]. left. split; [exact Hg|].
    exists (set_operation_pending true p1). split; [by split_and!|].
    unfold left. by replace (Z.to_nat _) with 0%nat by lia. }
  destruct (Z.eqb_spec (cqe_result x.1) 0) as [|Hne]; [apply Hfail; by left|].
  apply wp_bind. unfold metric. apply wp_modify.
  rewrite (proj2 (N.ltb_ge _ _)) by lia. set (n := Z.to_N (cqe_result x.1)).
  assert (En : Z.to_nat (cqe_result x.1) = N.to_nat n) by lia.
  apply (write_progress c1 p1 fd n); [done..|simpl; lia|exact Hsize| |].
  - intros s' Ht. apply (Htries left); [done|]. unfold left. by rewrite En.
  - intros Eall c' s' Hs' Hc'. right. apply (listens_outcome c' p x s' Hs' Hc' Ecl).
    rewrite Efw, En. apply take_ge. change (request_left p1) with (request_left p) in Eall.
    unfold len in Eall. lia.
Qed.

(** ** The resolver and the timer *)

Lemma spares_tries {A} (m : M A) left s a s' :
  (forall c, spares k c m) -> tries left s -> m s = Ret a s' -> tries left s'.
Proof.
  intros Hm (c & Hk & Hc) E. exists c. split; [|exact Hc]. by eapply spares_Ret.
Qed.

Lemma apologizes_settled c : apologizes c -> settled c.
Proof. intros (_ & [Ha _] & _). by apply answering_settled. Qed.

Lemma forwarding_settled c p : forwarding c p -> phase p <> Resolving -> settled c.
Proof.
  intros (Hssl & Hst & _ & _ & Hp & _) Hph. split_and!; [done..|]. intros p' Hp'. congruence.
Qed.

(** The name is resolved, or is not. *)
Lemma wp_resolved c p found s :
  connections (worker s) !! k = Some c -> conn_generation c = g -> forwarding c p ->
  phase p = Resolving ->
  wp (finish_resolution (id, found)) (fun _ => tries (request_left p)) (fun _ => True) s.
Proof.
  intros Hk Hg Hf Hph. pose proof Hf as (Hssl & Hst & Hw & Hb & Hp & Hstart & _).
  destruct s as [w [u inf h]]. unfold finish_resolution.
  apply wp_bind, uring_wp_current. rewrite (proj2 (current_in_Some _ _ c)) by done.
  rewrite decide_True by (by rewrite Hp; simpl; rewrite Hph).
  destruct found as [[|a l]|e]; [by eapply wp_give_up; [..|left]| |by eapply wp_give_up; [..|left]].
  apply wp_bind, (uring_wp_update_proxy k _ c p); [done..|].
  set (p1 := set_addresses (a :: l) p). apply wp_bind, wp_clock. intros t u1.
  apply wp_bind, (uring_wp_update_proxy k _ (set_proxy (Some p1) c) p1);
    [simpl; by rewrite lookup_insert_eq|done|].
  set (p2 := transition Connecting t p1).
  apply (wp_next_address (set_proxy (Some p2) (set_proxy (Some p1) c)) p2);
    [simpl; by rewrite lookup_insert_eq|done|by split_and!].
Qed.

Lemma finish_resolution_tries r left s s' :
  tries left s -> finish_resolution r s = Ret tt s' -> tries left s'.
Proof.
  intros (c & Hk & Hc) E. destruct r as [i found].
  destruct (decide (slot i = k /\ generation i = conn_generation c)) as [[Ei Eg]|Hne].
  - destruct Hc as [(Hg & p & Hf & <-)|Hc].
    + destruct (decide (phase p = Resolving)) as [Hph|Hph].
      * destruct i as [k' g']. simpl in *. subst k' g'. rewrite Hg in E.
        by eapply (wp_Ret _ (fun _ => _)); [apply (wp_resolved c p found)|].
      * exists c. split; [|left; split; [done|by exists p]].
        eapply spares_Ret; [|exact Hk|exact E].
        by apply spares_finish_resolution, (forwarding_settled c p).
    + exists c. split; [|by right]. eapply spares_Ret; [|exact Hk|exact E].
      by apply spares_finish_resolution, apologizes_settled.
  - exists c. split; [|done]. eapply spares_Ret; [|exact Hk|exact E].
    apply spares_foreign_resolution. simpl. destruct (decide (slot i = k)); naive_solver.
Qed.

Lemma process_dns_results_tries left s s' :
  tries left s -> process_dns_results s = Ret tt s' -> tries left s'.
Proof.
  intros H E. unfold process_dns_results in E. apply bind_Ret_inv in E as (results & s1 & E1 & E).
  eapply spares_tries in E1; [|intros c; spare|exact H]. clear H.
  apply bind_Ret_inv in E as ([] & s2 & E2 & E).
  eapply (spares_tries _ _ s2); [|clear E|exact E].
  { intros c. apply spares_bind; [apply spares_gets|intros [|]; [apply spares_skip|]].
    apply spares_submit_dns_read. }
  revert s1 E1 E2. induction results as [|r results IH]; intros s1 H Er; [injection Er as <-; exact H|].
  apply bind_Ret_inv in Er as ([] & s3 & E3 & Er). eapply IH; [|exact Er].
  by eapply finish_resolution_tries.
Qed.

(** The expirations of the timer; a resolution that takes too long is given up. *)
Lemma spares_expirations c (l : list (ConnectionId * ProxyPhase * bool)) :
  Forall (fun x => slot x.1.1 <> k) l -> spares k c (for_all expire_proxy l).
Proof.
  intros Hl. apply spares_for_all. intros [[i ph] pending] Hx.
  apply spares_expire. by apply (proj1 (Forall_forall _ _) Hl) in Hx.
Qed.

Lemma expire_all_tries c p (l : list (ConnectionId * ProxyPhase * bool)) : forall s s',
  NoDup ((fun x => slot x.1.1) <$> l) ->
  Forall (fun x => slot x.1.1 = k -> x.1.1 = id /\ x.2 = false) l ->
  connections (worker s) !! k = Some c -> conn_generation c = g -> forwarding c p ->
  for_all expire_proxy l s = Ret tt s' -> tries (request_left p) s'.
Proof.
  induction l as [|x l IH]; intros s s' Hnd Hl Hk Hg Hf E.
  { injection E as <-. exists c. split; [done|]. left. split; [done|by exists p]. }
  apply bind_Ret_inv in E as ([] & s1 & E1 & E). apply NoDup_cons in Hnd as [Hnin Hnd].
  apply Forall_cons in Hl as [Hx Hl]. destruct (decide (slot x.1.1 = k)) as [Ek|Hne].
  - destruct (Hx Ek) as [Ei Epend]. destruct x as [[i ph] pending]. simpl in *. subst i pending.
    eapply (wp_Ret _ (fun _ => tries (request_left p)) (fun _ => True)) in E1.
    2: { unfold expire_proxy. simpl. eapply wp_fail_upstream; [done..|by right]. }
    eapply spares_tries; [|exact E1|exact E]. intros c'. apply spares_expirations.
    apply Forall_forall. intros y Hy Ey. apply Hnin, list_elem_of_fmap. exists y. by rewrite Ey.
  - apply (IH s1 s'); [exact Hnd|exact Hl| |done|done|exact E].
    eapply spares_Ret; [|exact Hk|exact E1].
    destruct x as [[i ph] pending]. by apply spares_expire.
Qed.

Lemma tries_quiet left c s :
  tries left s -> connections (worker s) !! k = Some c -> ssl c = None /\ static_stream c = None.
Proof.
  intros (c' & Hk & [(_ & p & (Hssl & Hst & _) & _)|Hc]) Hk'; simplify_eq; [done|].
  by destruct (apologizes_settled _ Hc) as (? & ? & _).
Qed.

Lemma check_proxy_timeouts_tries c p s s' :
  connections (worker s) !! k = Some c -> conn_generation c = g -> forwarding c p ->
  operation_pending p = false -> check_proxy_timeouts s = Ret tt s' ->
  tries (request_left p) s'.
Proof.
  intros Hk Hg Hf Hop E. unfold check_proxy_timeouts in E.
  apply bind_Ret_inv in E as (now & s1 & E1 & E).
  eapply spares_Ret in E1; [|apply spares_clock|done].
  apply bind_Ret_inv in E as (l & s2 & E2 & E). unfold gets in E2. injection E2 as <- <-.
  apply bind_Ret_inv in E as ([] & s3 & E3 & E).
  eapply (expire_all_tries c p) in E3; [|apply expired_proxies_NoDup| |done..].
  - pose proof E3 as (c3 & Hk3 & Hc3). destruct (tries_quiet _ _ _ E3 Hk3) as [Hssl Hst].
    exists c3. split; [|done]. eapply spares_Ret; [|exact Hk3|exact E].
    by apply spares_after_expiry.
  - apply Forall_forall. intros [[i ph] pending] Hin Ek.
    apply elem_of_expired_proxies in Hin as (k' & d & Hd & Hi & Hex). simpl in *. subst i.
    simpl in Ek. subst k'. rewrite E1 in Hd. injection Hd as <-.
    pose proof Hf as (_ & _ & _ & _ & Hp & _).
    apply expired_proxy_inv in Hex as (_ & p' & Hp' & _ & Hpend). split; [|congruence].
    unfold connection_id. by rewrite Hg.
Qed.

(** ** Any completion *)

Lemma foreign_forwarded c p x s s' :
  (exists o, operation_wf o /\ user_data x.2 = encode o /\ foreign k c o) \/
    user_data x.2 ∈ reserved ->
  cqe_user_data x.1 = user_data x.2 -> connections (worker s) !! k = Some c ->
  conn_generation c = g -> forwarding c p -> proxy_ok p ->
  handle_completion x.1 s = Ret tt s' -> forwards p [x] s' \/ turned p [x] s'.
Proof.
  intros Hx Huser Hk Hg Hf [_ Hop] E. pose proof Hf as (_ & _ & Hw & _ & Hp & _ & Hph).
  destruct (foreign_bytes k g Hid c x Hg Hx) as [Ecl _].
  assert (Efw : forwarded_bytes x = []).
  { unfold forwarded_bytes. by rewrite (foreign_operation k g Hid c). }
  assert (Htries : tries (request_left p) s' -> forwards p [x] s' \/ turned p [x] s').
  { apply tries_outcome; [done|by rewrite Efw]. }
  assert (Hspares : forall m, spares k c m -> m s = Ret tt s' -> tries (request_left p) s').
  { intros m Hm Em. exists c. split; [by eapply spares_Ret|]. left. split; [done|by exists p]. }
  apply Htries. destruct (decide (phase p = Resolving)) as [Er|Hne].
  - destruct Hx as [(o & Hwf & Eo & Ho)|Hres].
    + rewrite Eo in Huser. rewrite (handle_completion_operation o x.1 Hwf Huser) in E.
      eapply Hspares; [|exact E]. by apply spares_dispatch_completion.
    + unfold handle_completion in E. rewrite Huser in E. rewrite Er in Hop.
      apply reserved_spec in Hres. destruct Hres as [Ed|[Ed|[Ed|[Ed|Ed]]]]; rewrite Ed in E; simpl in E.
      * eapply Hspares; [|exact E]. apply spares_call.
      * eapply Hspares; [|exact E]. by apply spares_modify.
      * eapply process_dns_results_tries; [|exact E]. exists c. split; [done|].
        left. split; [done|by exists p].
      * by eapply check_proxy_timeouts_tries.
      * eapply Hspares; [|exact E]. apply spares_skip.
  - assert (Hpending : operation_pending p = true) by (destruct (phase p); naive_solver).
    destruct (foreign_completion x.1 x.2 k c s s' Hx Huser (forwarding_settled c p Hf Hne))
      as (c' & Hk' & Hl); [|done..|].
    { intros p' _ Hp'. congruence. }
    exists c'. split; [done|]. left. destruct Hl as [->|(p' & Hp' & ->)]; [split; [done|by exists p]|].
    assert (p' = p) as -> by congruence. split; [done|]. exists (set_timed_out p).
    split; [|done]. by apply (forwarding_update c p).
Qed.

Lemma own_forwarded c p x s s' :
  activity (size_of s) k c = Some x.2 -> cqe_user_data x.1 = user_data x.2 ->
  admissible (op x.2) x.1 -> connections (worker s) !! k = Some c ->
  conn_generation c = g -> forwarding c p -> read_pending c = false -> request_in_range p ->
  size_of s < 2 ^ 32 ->
  handle_completion x.1 s = Ret tt s' -> forwards p [x] s' \/ turned p [x] s'.
Proof.
  intros Ha Huser Hadm Hk Hg Hf Hr Hrange Hsize E.
  pose proof Hf as (_ & _ & Hw & _ & Hp & _ & Hph).
  assert (Hop : forall o, cqe_user_data x.1 = operation o id ->
    handle_completion x.1 = dispatch_completion (mkOperationId k g o) x.1)
    by (intros o; by apply handle_completion_operation).
  destruct (activity_inv _ _ _ _ Ha) as [[Hr' _]|[(_ & Hw' & _)|(p' & fd & _ & _ & Hp' & _ & Hup & Hcase)]];
    [congruence..|]. assert (p' = p) as -> by congruence. clear Hp'.
  unfold connection_id in Hcase. rewrite Hg in Hcase.
  destruct Hcase as [(_ & a & _ & Ex)|[[_ Ex]|[Hph' _]]]; [| |done].
  - rewrite (Hop ProxyConnect) in E by (by rewrite Huser, Ex).
    eapply (wp_Ret (handle_proxy_connect (mkOperationId k g ProxyConnect) (cqe_result x.1))
      (fun _ s' => forwards p [x] s' \/ turned p [x] s')); [|exact E].
    eapply connect_completion; try done. by rewrite Ex.
  - rewrite (Hop ProxyWrite) in E by (by rewrite Huser, Ex).
    eapply (wp_Ret (handle_proxy_write (mkOperationId k g ProxyWrite) (cqe_result x.1))
      (fun _ s' => forwards p [x] s' \/ turned p [x] s')); [|exact E].
    rewrite Ex in Hadm. eapply write_step; try done.
    + unfold client_bytes. rewrite Ex. simpl. by rewrite operation_ne.
    + unfold forwarded_bytes. rewrite Ex. simpl. by rewrite N.eqb_refl.
    + apply Hadm.
Qed.

(** ** A batch, and a run *)

Lemma turned_then p xs ys s s' :
  turned p xs s ->
  (forall c, connections (worker s) !! k = Some c -> conn_generation c = g -> carrying c ->
     still k g c ys s' \/ ended k g c ys) ->
  exchanged p (xs ++ ys) s'.
Proof.
  intros (c & Hk & Ht) Hys. exists xs, ys, c. split; [done|]. split; [done|].
  destruct Ht as (_ & lost & _ & [[(Hg & Hc & _) _]|(Hg & Hc & _)]); by apply Hys.
Qed.

Lemma forwards_then p p' xs ys s' :
  mjoin (client_bytes k g <$> xs) = [] ->
  mjoin (forwarded_bytes <$> xs) ++ request_left p' = request_left p ->
  forwards p' ys s' \/ exchanged p' ys s' ->
  forwards p (xs ++ ys) s' \/ exchanged p (xs ++ ys) s'.
Proof.
  intros Ecl E.
  assert (Hacc : forall ys l, mjoin (forwarded_bytes <$> ys) ++ l = request_left p' ->
    mjoin (forwarded_bytes <$> (xs ++ ys)) ++ l = request_left p).
  { intros zs l El. by rewrite fmap_app, mjoin_app, <- app_assoc, El. }
  assert (Hcl : forall ys, mjoin (client_bytes k g <$> ys) = [] ->
    mjoin (client_bytes k g <$> (xs ++ ys)) = []).
  { intros zs Ez. by rewrite fmap_app, mjoin_app, Ecl, Ez. }
  intros [(c2 & p2 & Hk & Hg & Hf & Ec & E2)|(ys1 & ys2 & c2 & -> & (Ec & lost & El & Hc) & Hend)];
    [left|right].
  - exists c2, p2. do 3 (split; [done|]). split; [by apply Hcl|by apply Hacc].
  - exists (xs ++ ys1), ys2, c2. split; [by rewrite <- app_assoc|]. split; [|done].
    split; [by apply Hcl|]. exists lost. split; [by apply Hacc|done].
Qed.

Lemma forwarding_mode c p : Mode c -> forwarding c p -> read_pending c = false /\ proxy_ok p.
Proof.
  intros Hm (_ & _ & Hw & _ & Hp & _).
  destruct Hm as [|_ Hw' _ _| |p' Hr _ _ Hp' Hok]; [congruence..|].
  split; [done|]. congruence.
Qed.

Lemma forward_batch l : forall others c p s s',
  Inv None (lent_of l) (owed_of l) others s -> batch_ok (in_flight (world s)) l ->
  armed (owed_of l) s -> connections (worker s) !! k = Some c -> conn_generation c = g ->
  forwarding c p -> for_all handle_completion l.*1 s = Ret tt s' ->
  forwards p l s' \/ exchanged p l s'.
Proof.
  induction l as [|x l IH]; intros others c p s s' H Hok Harmed Hk Hg Hf E.
  { injection E as <-. left. by exists c, p. }
  destruct Hok as (Huser & Hadm & Hin & Hok).
  apply bind_Ret_inv in E as ([] & s1 & E1 & E).
  pose proof (wp_Ret _ _ _ _ _ _ (handle_completion_spec (lent_of l) (owed_of l) others x s
    H Huser Hadm Hin Harmed) E1) as ((others1 & H1) & (Hgrow & _) & Harmed1).
  pose proof (batch_ok_grows _ _ _ Hgrow Hok) as Hok1.
  pose proof (inv_mode _ _ _ _ _ H k c Hk ltac:(done)) as Hmode.
  destruct (forwarding_mode c p Hmode Hf) as [Hr Hpok].
  assert (Hstep : forwards p [x] s1 \/ turned p [x] s1).
  { destruct (entry_cases _ _ _ _ _ _ _ H Hk Hin) as [Ha|Hforeign].
    - eapply own_forwarded; try done; [apply Hpok|apply (ok_size _ _ (inv_world _ _ _ _ _ H))].
    - by eapply foreign_forwarded. }
  destruct Hstep as [(c1 & p1 & Hk1 & Hg1 & Hf1 & Ec & Eb)|Hturned].
  - apply (forwards_then p p1 [x] l s' Ec Eb). by eapply IH.
  - right. apply (turned_then p [x] l s1 s' Hturned). intros c1 Hk1 Hg1 Hc1.
    by eapply handle_batch.
Qed.

Lemma runs_exchange s xs s' :
  runs s xs s' -> forall c p, Top s -> connections (worker s) !! k = Some c ->
  conn_generation c = g -> forwarding c p -> forwards p xs s' \/ exchanged p xs s'.
Proof.
  induction 1 as [s|s s1 l s2 s3 xs s' Hb Hserves Ha Hruns IH]; intros c p Htop Hk Hg Hf.
  { left. by exists c, p. }
  destruct (iteration k s s1 l s2 s3 c Htop Hb Hserves Ha Hk)
    as (Htop3 & others & s2' & H2 & Hok2 & Harmed2 & Hk2 & Ha2 & Hkeeps).
  destruct (forward_batch l others c p s2 s2' H2 Hok2 Harmed2 Hk2 Hg Hf Ha2)
    as [(c3 & p3 & Hk3 & Hg3 & Hf3 & Ec & Eb)|(ys1 & ys2 & c3 & -> & Ht & Hend)].
  - apply (forwards_then p p3 l xs s' Ec Eb). apply (IH c3 p3); try done. by apply Hkeeps.
  - right. exists ys1, (ys2 ++ xs), c3. split; [by rewrite app_assoc|]. split; [done|].
    destruct Hend as [(c4 & Hk4 & Hg4 & Hc4 & Eb)|Hend]; [|right; by apply ended_app].
    apply (still_then k g c3 c4 ys2 xs s' Eb). apply (runs_delivers k g Hid s3 xs s' Hruns); try done.
    by apply Hkeeps.
Qed.

(** ** The start of an exchange *)

(** A request that is passed on is forwarded, unless its upstream cannot be looked up. *)
Lemma start_proxy_forwards c url request body up s :
  connections (worker s) !! k = Some c -> conn_generation c = g -> ssl c = None ->
  static_stream c = None -> write_pending c = false -> write_buffer c = [] ->
  Proxy.parse url = Ok up ->
  wp (start_proxy id url request body)
    (fun _ => tries (request_bytes up request body)) (fun _ => True) s.
Proof.
  intros Hk Hg Hssl Hst Hw Hb Hup. unfold start_proxy. rewrite Hup.
  destruct s as [w [u inf h]]. apply wp_bind, wp_gets.
  assert (Hgive : forall d message s, connections (worker s) !! k = Some d ->
    conn_generation d = g -> ssl d = None -> static_stream d = None -> write_pending d = false ->
    wp (queue_proxy_error id 502 message)
      (fun _ => tries (request_bytes up request body)) (fun _ => True) s).
  { intros d message s1 Hd ????. eapply wp_apologize; [done..|by left|].
    intros c' s' Hk' Hc'. exists c'. by split; [|right]. }
  destruct (_ <? _); [by apply (Hgive c)|]. apply wp_bind, wp_gets. cbn [slot worker] in *.
  rewrite Hk. apply wp_bind, wp_clock. intros t u1.
  apply wp_bind, (uring_wp_update k _ c); [done|].
  set (p := new_proxy _ t). apply wp_bind, wp_call. intros r u2 _.
  destruct r; [apply wp_skip|apply (Hgive (set_proxy (Some p) c)); try done; simpl; apply lookup_insert_eq].
  exists (set_proxy (Some p) c). split; [simpl; apply lookup_insert_eq|]. left.
  split; [done|]. exists p. split; [by split_and!|done].
Qed.

End Exchange.

(** ** Properties *)

Section Properties.

Context {env : UringEnv} {fs : Filesystem} {mime : MimeGuess}.

Notation State := (State IoUringWorker Kernel).

(** C9. A proxied exchange, from end to end: take any reachable state of the io_uring worker
    in which a plain connection waits for its upstream's address, for it to connect, or for
    it to take the request, and any further run of the loop, in which the kernel completes
    whatever entries it likes, in batches of its choice, with as many or as few bytes as it
    likes, the resolver and the clock say what they like, and the worker serves its other
    connections. Then the bytes the kernel took for the upstream are, in order and without
    loss, those that the request had left, and the client is sent nothing: up to the end of
    the run, the connection holding exactly what is still to send, or up to a point from
    which the client is sent in order and without loss, as [uring_response_delivered] has
    it, either the upstream's bytes, the whole request having been sent, or a 502 or 504
    response, part of it having been sent. *)
Theorem uring_exchange `{!UringEnvOk env} s0 (s : State) k c p xs s' :
  plain_start s0 -> reachable s0 s -> connections (worker s) !! k = Some c ->
  forwarding c p -> runs s xs s' ->
  forwards k (conn_generation c) p xs s' \/ exchanged k (conn_generation c) p xs s'.
Proof.
  intros H0 Hs Hk Hf Hruns. pose proof (reachable_plain _ _ H0 Hs) as Htop.
  pose proof Htop as [(others & H) _].
  destruct (inv_base _ _ _ _ _ H k c Hk) as (_ & Hk32 & Hgen & _).
  by eapply runs_exchange.
Qed.

End Properties.

(** ** A run *)

#[local] Instance exchange_fs : Filesystem := example_fs.
#[local] Instance exchange_mime : MimeGuess := example_mime.

(** A server that passes requests on, and a resolver that knows its upstream. *)
Definition exchange_server : Server :=
  mkServer None [mkLocation (Config.Prefix (str "/")) example_proxy] (SocketAddrV4 0 80) None.

Definition exchange_new : option (io_result IoUringWorker) :=
  new example_answers 4 64 [(5, 0, [0])] [exchange_server] [None] example_limits
    (mkProxyLimits 100 100 100) (mkDnsLimits 1 100) ∅.

Definition exchange_world : Kernel :=
  mkKernel (mkUringScript 0 false [(mkConnectionId 0 1, Ok [SocketAddrV4 167772161 80])]) [] 0.

Definition exchange_start : option ScriptState :=
  match exchange_new with
  | Some (Ok w) => match start (mkState w exchange_world) with Ret _ s => Some s | _ => None end
  | _ => None
  end.

(** A client connects, then its request arrives. *)
Definition exchange_asked : option ScriptState :=
  then_iterate 4 27 false (Some example_request) (then_iterate 0 9 true None exchange_start).

(** The name is resolved, the upstream connects, takes the request in two pieces, and
    answers; the client takes the answer, and the upstream closes. *)
Definition exchange_run : ScriptState -> option (list (Cqe * Entry) * ScriptState) :=
  take_all [(2%nat, 8%Z, None); (3%nat, 0%Z, None); (4%nat, 10%Z, None); (4%nat, 46%Z, None);
    (4%nat, 5%Z, Some (str "hello")); (4%nat, 5%Z, None); (4%nat, 0%Z, None)].

Definition forwardingb (c : UringConnection) : bool :=
  bool_decide (ssl c = None) && bool_decide (static_stream c = None) && negb (write_pending c)
  && bool_decide (write_buffer c = [])
  && match proxy c with
     | Some p => negb (response_started p) && bool_decide (phase p = Resolving)
     | None => false
     end.

Lemma forwardingb_ok c : forwardingb c = true -> exists p, forwarding c p.
Proof.
  unfold forwardingb. rewrite !andb_true_iff, !bool_decide_eq_true, negb_true_iff.
  intros ((((Hssl & Hst) & Hw) & Hb) & Hp). destruct (proxy c) as [p|] eqn:Ep; [|done].
  apply andb_true_iff in Hp as [Hp1%negb_true_iff Hp2%bool_decide_eq_true].
  exists p. split_and!; try done. by rewrite Hp2.
Qed.

Definition exchanges (s : ScriptState) : bool :=
  match connections (worker s) !! 0, exchange_run s with
  | Some c, Some (xs, s2) =>
    forwardingb c && (conn_generation c =? 1) && bool_decide (connections (worker s2) !! 0 = None)
    && bool_decide (mjoin (forwarded_bytes 0 1 <$> xs) =
         str "GET / HTTP/1.1" ++ crlf ++ str "Host: 10.0.0.1:80" ++ crlf
         ++ str "Connection: close" ++ crlf ++ crlf)
    && bool_decide (mjoin (client_bytes 0 1 <$> xs) = str "hello")
  | _, _ => false
  end.

Lemma example_exchanges :
  match exchange_asked with Some s => exchanges s | None => false end = true.
Proof. by vm_compute. Qed.

Lemma exchange_asked_inv s :
  exchange_asked = Some s -> exists s0, plain_start s0 /\ reachable s0 s.
Proof.
  assert (Hstart : forall s, exchange_start = Some s -> exists s0, plain_start s0 /\ reachable s0 s).
  { intros s1. unfold exchange_start. destruct exchange_new as [[w|]|] eqn:E; [|done..].
    destruct (start (mkState w exchange_world)) as [[] s2| |] eqn:Es; [|done..].
    intros [= <-]. exists (mkState w exchange_world). split; [|by apply reachable_start].
    do 10 eexists. split; [exact E|]. split; [by repeat constructor|].
    split; [apply map_Forall_empty|]. split; [|done].
    constructor; [|constructor]. split; [done|]. constructor; [|constructor].
    by apply action_wf_upstream. }
  unfold exchange_asked. intros H. eapply then_iterate_reachable; [|exact H]. intros s2 H2.
  eapply then_iterate_reachable; [|exact H2]. exact Hstart.
Qed.

Lemma uring_exchange_witness :
  exists s0 s c p xs s', reachable s0 s /\ forwarding c p /\ runs s xs s' /\
    exchanged 0 1 p xs s' /\ mjoin (client_bytes 0 1 <$> xs) = str "hello" /\
    mjoin (forwarded_bytes 0 1 <$> xs) =
      str "GET / HTTP/1.1" ++ crlf ++ str "Host: 10.0.0.1:80" ++ crlf
      ++ str "Connection: close" ++ crlf ++ crlf.
Proof.
  pose proof example_exchanges as Htest. pose proof exchange_asked_inv as Hinv.
  revert Htest Hinv. generalize exchange_asked. intros [s|] Htest Hinv; [|done].
  destruct (Hinv s eq_refl) as (s0 & H0 & Hs). unfold exchanges in Htest.
  destruct (connections (worker s) !! 0) as [c|] eqn:Hk; [|done].
  destruct (exchange_run s) as [[xs s2]|] eqn:Hall; [|done].
  rewrite !andb_true_iff, !bool_decide_eq_true, N.eqb_eq in Htest.
  destruct Htest as ((((Hc & Hg) & Hgone) & Hforwarded) & Hclient).
  destruct (forwardingb_ok c Hc) as [p Hp]. pose proof (take_all_runs _ _ _ _ Hall) as Hruns.
  exists s0, s, c, p, xs, s2. split; [exact Hs|]. split; [exact Hp|]. split; [exact Hruns|].
  split; [|by split].
  destruct (uring_exchange s0 s 0 c p xs s2 H0 Hs Hk Hp Hruns) as [(c' & _ & Hk' & _)|He].
  - rewrite Hgone in Hk'. discriminate Hk'.
  - rewrite <- Hg. exact He.
Defined.
