(* ===== verification/Startup.v ===== *)
(** * Starting a worker ([run/slave/src/startup.rs], [runtime/epoll.rs],
    [runtime/kqueue.rs], on Linux)

    From a configuration to an event loop about to run: the composition of the parts
    modelled elsewhere, and what a configuration that was accepted promises of it. *)

From S2P Require Import Master.
From S2P Require Import Prelude RustStd Config Router StaticFiles Listener Runtime Ssl Handler BufferRing.
From S2P Require Import Connection Readiness ReadinessInv ReadinessLoop Script.
From S2P Require Import UringConnection Uring UringInv UringScript UringLoop UringProps.

Local Open Scope N_scope.

(** ** The processes ([run/master/src/main.rs]) *)

Inductive MainError := NotRead (error : ConfigError) | NotWritten.

(** The configuration [main] goes on with: that of the file, when the file exists, or the
    default, which it writes ([written] is what [to_toml] and [fs::write] answer). *)
Definition main_config (toml_parse : bytes -> result ConfigFault RawConfig)
    (parallelism : option N)
    (iter_groups : gmap bytes UpstreamGroup -> list (bytes * UpstreamGroup))
    (file : option (io_result bytes)) (written : result unit unit) : result MainError Config :=
  match file with
  | Some contents =>
    map_err NotRead (read_config toml_parse parallelism iter_groups contents)
  | None =>
    _ ← map_err (fun _ => NotWritten) written;
    Ok (default_config parallelism)
  end.

(** The exit code of a worker's process, from what [start_worker] returned; [None] is a
    panic, which ends the process with 101. *)
Definition run_child_worker (r : option (io_result unit)) : Z :=
  match r with None => 101 | Some (Err _) => 1 | Some (Ok _) => 0 end%Z.

(** The master restarts every worker that did not return cleanly. *)
Lemma child_failed p r :
  Master.status_failed (Master.Exited p (run_child_worker r)) = false <-> r = Some (Ok tt).
Proof. destruct r as [[[]|]|]; simpl; naive_solver. Qed.

Lemma main_config_wf toml_parse parallelism iter_groups file written config :
  (forall groups, iter_groups groups ≡ₚ map_to_list groups) ->
  main_config toml_parse parallelism iter_groups file written = Ok config -> config_wf config.
Proof.
  intros Hiter. unfold main_config. destruct file as [contents|].
  - intros H%map_err_ok. unfold read_config in H. inv_ok. apply map_err_ok in H.
    by eapply from_toml_sound.
  - intros H. inv_ok. by apply (default_config_valid _ map_to_list).
Qed.

Section Startup.

Context {tls : TlsApi} {api : SocketApi} {env : Connection.Env} {uenv : UringEnv}
  {fs : Filesystem} {mime : MimeGuess}.

(** [TcpListener::from_std], the descriptor of a socket, and a loaded TLS configuration as
    each runtime keeps it. *)
Context (from_std : Listener.Socket -> TcpListener) (into_fd : Listener.Socket -> N)
  (readiness_ssl : LoadedSslConfig -> Connection.SslConfig)
  (uring_ssl : LoadedSslConfig -> UringConnection.SslConfig).

(** The answers of the system while a worker starts: signal handlers, the CPUs and
    whether pinning to one succeeds, the ring of the preflight and the ring of the
    worker, and the poller with its waker and resolver threads. *)
Record Machine := mkMachine {
  m_signals : io_result unit;
  m_cores : option (list N);
  m_affinity : N -> bool;
  m_probe : Startup;
  m_uring : Startup;
  m_poll : io_result unit;
  m_waker : io_result unit;
  m_resolver : io_result unit;
}.

Record WorkerContext := mkWorkerContext {
  listener_groups : list BoundListenerGroup;
  context_servers : list Server;
  ssl_configs : list (option LoadedSslConfig);
  context_limits : WorkerLimits;
  context_proxy_limits : ProxyLimits;
  context_dns_limits : DnsLimits;
  context_upstreams : gmap bytes UpstreamGroup;
}.

(** A worker about to enter its loop. *)
Inductive Started :=
| ReadinessStarted (max_events : N) (w : ReadinessWorker) (u : Connection.World)
| UringStarted (w : IoUringWorker).

(** A bound group as the runtimes take it apart. *)
Definition bound_group {S} (convert : Listener.Socket -> S) (b : BoundListenerGroup) :
    S * N * list N :=
  (convert (Listener.socket b), default_server (group b), server_indices (group b)).

(** [readiness::run] up to its loop: the poller, its waker and the resolver first. *)
Definition run_readiness (m : Machine) (max_events : N) (c : WorkerContext)
    (u : Connection.World) : io_result Started :=
  _ ← m_poll m;
  _ ← m_waker m;
  _ ← m_resolver m;
  match Readiness.new (bound_group from_std <$> listener_groups c) (context_servers c)
          (option_map readiness_ssl <$> ssl_configs c) (context_limits c) (context_proxy_limits c)
          (context_dns_limits c) (context_upstreams c) u with
  | (Ok w, u) => Ok (ReadinessStarted max_events w u)
  | (Err e, _) => Err e
  end.

(** [SelectedRuntime::run]; kqueue is unsupported on Linux. [None] is a panic. *)
Definition run_selected (m : Machine) (runtime : SelectedRuntime) (c : WorkerContext)
    (u : Connection.World) : option (io_result Started) :=
  match runtime with
  | SelectedEpoll max_events => Some (run_readiness m max_events c u)
  | SelectedKqueue _ => Some (Err Unsupported)
  | SelectedIoUring sq cq ring size =>
    r ← Uring.new (m_uring m) ring size (bound_group into_fd <$> listener_groups c)
          (context_servers c) (option_map uring_ssl <$> ssl_configs c) (context_limits c)
          (context_proxy_limits c) (context_dns_limits c) (context_upstreams c);
    Some (w ← r; Ok (UringStarted w))
  end.

(** The answer of [IoUringRuntime::probe]; [probe_total] shows that it does not panic. *)
Definition probe_result (m : Machine) (sq cq ring size : N) : io_result unit :=
  default (Err OtherKind) (Uring.probe (m_probe m) ring size).

(** [start_worker], up to the loop of the runtime. *)
Definition start_worker (m : Machine) (cpu_id : N) (config : Config) (u : Connection.World) :
    option (io_result Started) :=
  match m_signals m with
  | Err e => Some (Err e)
  | Ok _ =>
    pinned ← pin_to_cpu (m_cores m) (m_affinity m) cpu_id;
    match pinned with
    | Err e => Some (Err e)
    | Ok _ =>
      let runtime := select_runtime (probe_result m) (Config.runtime config) in
      match load_ssl_configs (Config.servers (http config)) with
      | Err e => Some (Err e)
      | Ok ssl =>
        match bind_worker_listeners config with
        | Err e => Some (Err e)
        | Ok groups =>
          run_selected m runtime
            (mkWorkerContext groups (Config.servers (http config)) ssl
               (worker_limits_from_config (Config.worker config))
               (proxy_limits_from_config (Config.proxy config))
               (dns_limits_from_config (Config.dns config)) (Config.upstream_groups config)) u
        end
      end
    end
  end.

(** [run_epoll_with_shutdown], with the defaults, and [run_epoll]. *)
Definition run_epoll_with_shutdown (m : Machine) (groups : list BoundListenerGroup)
    (servers : list Server) (max_events : N) (u : Connection.World) : io_result Started :=
  ssl ← load_ssl_configs servers;
  run_readiness m max_events
    (mkWorkerContext groups servers ssl default_worker_limits default_proxy_limits
       default_dns_limits ∅) u.

Definition run_epoll (m : Machine) (groups : list BoundListenerGroup) (servers : list Server)
    (max_events : N) (u : Connection.World) : io_result Started :=
  run_epoll_with_shutdown m groups servers max_events u.

(** ** What the listeners of a started worker serve *)

(** For each listener: the servers it serves, and whether it speaks TLS. *)
Definition served (s : Started) : list (list N * bool) :=
  match s with
  | ReadinessStarted _ w _ =>
    (fun l => (Readiness.l_server_indices l, bool_decide (is_Some (Readiness.l_ssl l))))
      <$> Readiness.listeners w
  | UringStarted w =>
    (fun l => (l_server_indices l, bool_decide (is_Some (l_ssl l)))) <$> listeners w
  end.

(** Whether a server at the address of [s] has a TLS block that counts: that of the first
    server of the configuration which listens there. *)
Definition first_speaks_tls (ss : list Server) (g : ListenerGroup) : bool :=
  match ss !! N.to_nat (default_server g) with
  | Some s => bool_decide (is_Some (Config.ssl s))
  | None => false
  end.

(** ** Lemmas *)

Lemma probe_total answers ring size : Uring.probe answers ring size <> None.
Proof.
  unfold Uring.probe. destruct (s_build answers); [|done]. destruct (s_probe answers); [|done].
  destruct (validate_required _); [|done]. destruct (_ || _); [done|].
  pose proof (BufferRing.register_spec (s_page_size answers) (s_allocate answers)
    (s_register_ring answers) ring 1) as H.
  by destruct (BufferRing.register _ _ _ _ _).
Qed.

Lemma new_total answers ring size gs ss ssls l pl dl groups :
  Uring.new answers ring size gs ss ssls l pl dl groups <> None.
Proof.
  unfold Uring.new. destruct (s_build answers); [|done]. destruct (s_probe answers); [|done].
  destruct (validate_required _); [|done].
  pose proof (BufferRing.register_spec (s_page_size answers) (s_allocate answers)
    (s_register_ring answers) ring size) as H.
  by destruct (BufferRing.register _ _ _ _ _).
Qed.

Lemma new_listeners answers ring size gs ss ssls l pl dl groups w :
  Uring.new answers ring size gs ss ssls l pl dl groups = Some (Ok w) ->
  listeners w = Uring.registered_listener ssls <$> gs.
Proof.
  unfold Uring.new. destruct (s_build answers); [|done]. destruct (s_probe answers); [|done].
  destruct (validate_required _); [|done].
  destruct (BufferRing.register _ _ _ _ _) as [registered|]; [|done]. simpl. intros [= H].
  apply bind_ok in H as (r & _ & H). destruct (negb _); [done|]. by inv_ok.
Qed.

Lemma pin_to_cpu_panics (cores : option (list N)) set cpu_id :
  pin_to_cpu cores set cpu_id = None <-> cores = Some [].
Proof.
  unfold pin_to_cpu. destruct cores as [[|c cs]|]; [done| |done].
  split; [|done]. by destruct (_ !! _).
Qed.

(** The worker of a started readiness runtime. *)
Lemma run_readiness_started m max_events c u r :
  run_readiness m max_events c u = Ok r ->
  exists w u', r = ReadinessStarted max_events w u' /\
    Readiness.new (bound_group from_std <$> listener_groups c) (context_servers c)
      (option_map readiness_ssl <$> ssl_configs c) (context_limits c) (context_proxy_limits c)
      (context_dns_limits c) (context_upstreams c) u = (Ok w, u').
Proof.
  unfold run_readiness. intros H. inv_ok.
  destruct (Readiness.new _ _ _ _ _ _ _ _) as [[w|e] u'] eqn:E; [|done].
  injection H as <-. by exists w, u'.
Qed.

(** What the context of a started worker is made of. *)
Lemma start_worker_inv m cpu_id config u r :
  start_worker m cpu_id config u = Some (Ok r) ->
  exists ssl groups, load_ssl_configs (Config.servers (http config)) = Ok ssl /\
    bind_worker_listeners config = Ok groups /\
    run_selected m (select_runtime (probe_result m) (Config.runtime config))
      (mkWorkerContext groups (Config.servers (http config)) ssl
         (worker_limits_from_config (Config.worker config))
         (proxy_limits_from_config (Config.proxy config))
         (dns_limits_from_config (Config.dns config)) (Config.upstream_groups config)) u
    = Some (Ok r).
Proof.
  unfold start_worker. destruct (m_signals m); [|done].
  destruct (pin_to_cpu _ _ _) as [[]|]; [|done..]. simpl.
  destruct (load_ssl_configs _) as [ssl|]; [|done].
  destruct (bind_worker_listeners config) as [groups|]; [|done]. by exists ssl, groups.
Qed.

Lemma run_selected_total m runtime c u : run_selected m runtime c u <> None.
Proof.
  destruct runtime as [n|n|sq cq ring size]; try done. simpl.
  pose proof (new_total (m_uring m) ring size (bound_group into_fd <$> listener_groups c)
    (context_servers c) (option_map uring_ssl <$> ssl_configs c) (context_limits c)
    (context_proxy_limits c) (context_dns_limits c) (context_upstreams c)) as H.
  by destruct (Uring.new _ _ _ _ _ _ _ _ _ _).
Qed.

(** Starting panics on a machine without CPUs to pin to, and nowhere else. *)
Lemma start_worker_panics m cpu_id config u :
  start_worker m cpu_id config u = None <-> m_signals m = Ok tt /\ m_cores m = Some [].
Proof.
  unfold start_worker. destruct (m_signals m) as [[]|]; [|naive_solver].
  rewrite <- (pin_to_cpu_panics (m_cores m) (m_affinity m) cpu_id).
  destruct (pin_to_cpu _ _ _) as [[|]|]; simpl; [|naive_solver..].
  split; [|naive_solver].
  destruct (load_ssl_configs _); [|done]. destruct (bind_worker_listeners _); [|done].
  by intros H%run_selected_total.
Qed.

Lemma loaded_plain ss ssl :
  load_ssl_configs ss = Ok ssl -> Forall (fun s => Config.ssl s = None) ss ->
  Forall (fun c => c = None) (option_map uring_ssl <$> ssl).
Proof.
  intros H%load_ssl_configs_ok Hss. apply Forall_fmap.
  induction H as [|s c ss l Hs _ IH]; [constructor|].
  apply Forall_cons in Hss as [E Hss]. constructor; [|by apply IH].
  unfold loaded in Hs. rewrite E in Hs. by destruct c.
Qed.

Lemma loaded_lookup ss ssl i :
  load_ssl_configs ss = Ok ssl ->
  bool_decide (is_Some (match ssl !! i with Some c => c | None => None end)) =
  match ss !! i with Some s => bool_decide (is_Some (Config.ssl s)) | None => false end.
Proof.
  intros H%load_ssl_configs_ok. destruct (ss !! i) as [s|] eqn:Hi.
  - destruct (Forall2_lookup_l _ _ _ _ _ H Hi) as (c & -> & Hc). unfold loaded in Hc.
    destruct (Config.ssl s), c; done.
  - apply lookup_ge_None in Hi. rewrite (Forall2_length _ _ _ H) in Hi.
    by rewrite lookup_ge_None_2 by done.
Qed.

Lemma convert_lookup {A B} (f : A -> B) (l : list (option A)) i :
  bool_decide (is_Some (match (option_map f <$> l) !! i with Some c => c | None => None end)) =
  bool_decide (is_Some (match l !! i with Some c => c | None => None end)).
Proof. rewrite list_lookup_fmap. by destruct (l !! i) as [[|]|]. Qed.

(** ** Properties *)

(** The readiness loop goes on, the world changing in between. *)
Definition continues (s s' : State ReadinessWorker Connection.World) : Prop :=
  Readiness.tick s = Ret false s' \/ exists u, s' = mkState (worker s) u.

Lemma continues_reachable s s' :
  rtc continues s s' -> ReadinessLoop.reachable s -> ReadinessLoop.reachable s'.
Proof.
  induction 1 as [|s s1 s2 Hs _ IH]; [done|]. intros H. apply IH.
  destruct Hs as [Ht|[u ->]]; [by eapply reachable_tick|].
  destruct s as [w u0]. by eapply reachable_world.
Qed.

(** C16. From the configuration file to the event loop: on a machine that reports at least
    one CPU, a worker started from the configuration that [main] has read, or has written
    when there was none, does not panic while starting. Its loop does not panic either: on
    the readiness runtime in every state the loop can reach; on io_uring, only for servers
    without TLS ([tls_flight_before_upstream_panics] shows why), before the loop and in
    every iteration, whatever the kernel completes. *)
Theorem configured_worker_never_panics `{!EnvOk env} `{!UringEnvOk uenv}
    toml_parse parallelism iter_groups file written config m cpu_id u :
  (forall groups, iter_groups groups ≡ₚ map_to_list groups) ->
  main_config toml_parse parallelism iter_groups file written = Ok config ->
  m_cores m <> Some [] ->
  match start_worker m cpu_id config u with
  | None => False
  | Some (Err _) => True
  | Some (Ok (ReadinessStarted _ w u')) =>
    forall s, rtc continues (mkState w u') s -> Readiness.tick s <> Panicked
  | Some (Ok (UringStarted w)) =>
    Forall (fun s => Config.ssl s = None) (Config.servers (http config)) ->
    forall world, let s0 := mkState w (mkKernel world [] 0) in
    start s0 <> Panicked /\
    forall s, UringInv.reachable s0 s ->
      before_wait s <> Panicked /\
      forall s1 l s2, before_wait s = Ret false s1 -> serves s1 l s2 ->
        after_wait l.*1 s2 <> Panicked
  end.
Proof.
  intros Hiter Hconfig Hcores.
  assert (Hwf : config_wf config) by (by eapply main_config_wf).
  destruct (start_worker m cpu_id config u) as [[r|e]|] eqn:E; [|done|].
  2: { by apply start_worker_panics in E as [_ ?]. }
  apply start_worker_inv in E as (ssl & groups & Hssl & Hgroups & Hrun).
  unfold run_selected in Hrun. destruct (select_runtime _ _) as [n|n|sq cq ring size].
  - injection Hrun as (w & u' & -> & Hnew)%run_readiness_started. intros s Hs.
    apply tick_never_panics, reachable_Inv. eapply continues_reachable; [exact Hs|].
    by eapply reachable_new.
  - done.
  - destruct (Uring.new _ _ _ _ _ _ _ _ _ _) as [[w|e]|] eqn:Hnew; [|done|done].
    injection Hrun as <-. intros Hplain world. simpl.
    assert (H0 : plain_start (mkState w (mkKernel world [] 0))).
    { do 10 eexists. split; [exact Hnew|]. split; [by eapply loaded_plain|].
      destruct Hwf as (_ & _ & _ & _ & Hg & Hs). split; [exact Hg|]. split; [exact Hs|done]. }
    split.
    + by apply plain_start_never_panics.
    + intros s Hs. by apply Top_never_panics, (reachable_plain _ _ H0).
Qed.

(** C32. Which listeners speak TLS: a started worker has one listener for each address of
    the configuration, serving every server there in order, and it speaks TLS exactly when
    the first of those servers has a TLS block. The blocks of the others are loaded, and
    may stop the worker from starting, but are never used. *)
Theorem listener_speaks_tls_as_its_first_server m cpu_id config u r :
  start_worker m cpu_id config u = Some (Ok r) ->
  served r = (fun g => (server_indices g, first_speaks_tls (Config.servers (http config)) g))
    <$> group_listeners (Config.servers (http config)).
Proof.
  intros (ssl & groups & Hssl & Hgroups & Hrun)%start_worker_inv.
  rewrite <- (bound_groups _ _ Hgroups), <- list_fmap_compose.
  unfold run_selected in Hrun. destruct (select_runtime _ _) as [n|n|sq cq ring size].
  - injection Hrun as (w & u' & -> & Hnew)%run_readiness_started.
    unfold Readiness.new in Hnew. destruct (negb _); [done|].
    destruct (register_listeners _ _ _) as [[]]; [|done]. injection Hnew as <- _. simpl.
    rewrite <- !list_fmap_compose. apply list_fmap_ext. intros i b _. simpl.
    by rewrite convert_lookup, (loaded_lookup _ _ _ Hssl).
  - done.
  - destruct (Uring.new _ _ _ _ _ _ _ _ _ _) as [[w|e]|] eqn:Hnew; [|done|done].
    injection Hrun as <-. apply new_listeners in Hnew. simpl. rewrite Hnew.
    rewrite <- !list_fmap_compose. apply list_fmap_ext. intros i b _. simpl.
    by rewrite convert_lookup, (loaded_lookup _ _ _ Hssl).
Qed.

End Startup.

(** ** Runs *)

#[local] Instance startup_fs : Filesystem := example_fs.
#[local] Instance startup_mime : MimeGuess := example_mime.
#[local] Instance startup_sockets : SocketApi := Listener.example_api.

(** Every file holds one certificate and one key, which rustls accepts. *)
#[local] Instance startup_tls : TlsApi := {
  File := bytes; CertificateDer := bytes; PrivateKeyDer := bytes; ServerConfig := unit;
  file_open p := Ok p;
  certs f := [Ok f];
  private_key f := Ok (Some f);
  with_protocol_versions _ _ := Ok tt;
  with_single_cert _ _ _ _ := Ok tt;
}.

Definition example_machine : Machine :=
  mkMachine (Ok tt) (Some [0; 1]) (fun _ => true) example_answers example_answers (Ok tt) (Ok tt)
    (Ok tt).

(** Two servers on one address, the second with a TLS block when [tls] holds. *)
Definition example_raw (runtime : RawRuntimeConfig) (tls : bool) : RawConfig :=
  let server s := {|
    raw_server_name := None; raw_listen := SocketAddrV4 0 8443; raw_ssl := s;
    raw_locations := [ mkRawLocation (Prefix (str "/")) (RawResponse 200 (str "OK")) ] |} in
  {| raw_servers :=
       [ server None;
         server (if tls then Some (mkRawSslServerConfig (str "cert.pem") (str "key.pem")
                                     None None None) else None) ];
     raw_runtime := Some runtime;
     raw_worker_count := None; raw_worker := None; raw_proxy := None; raw_dns := None;
     raw_upstreams := [] |}.

Definition example_configuration (runtime : RawRuntimeConfig) (tls : bool) :
    result MainError Config :=
  main_config (fun _ => Ok (example_raw runtime tls)) None map_to_list (Some (Ok [])) (Ok tt).

Definition example_worker (c : Config) : option (io_result Started) :=
  start_worker (env := script_env) (uenv := uring_script_env) (fun s => s) (fun s => s)
    (fun _ => tt) (fun _ => tt) example_machine 3 c (script 0 ∅ 0).

Definition small_uring : RawRuntimeConfig := RawIoUring None None (Some 4) (Some 64).

Definition plain_uring (c : Config) : bool :=
  match example_worker c with Some (Ok (UringStarted _)) => true | _ => false end
  && bool_decide (Forall (fun s => Config.ssl s = None) (Config.servers (http c))).

Lemma example_plain_uring :
  match example_configuration small_uring false with Ok c => plain_uring c | Err _ => false end
  = true.
Proof. by vm_compute. Qed.

Lemma configured_worker_never_panics_witness :
  exists c w, example_configuration small_uring false = Ok c /\
    example_worker c = Some (Ok (UringStarted w)) /\
    start (mkState w (mkKernel (mkUringScript 0 false []) [] 0)) <> Panicked.
Proof.
  pose proof example_plain_uring as Htest. revert Htest.
  destruct (example_configuration small_uring false) as [c|e] eqn:E; [|done]. intros Htest.
  pose proof (configured_worker_never_panics (env := script_env) (uenv := uring_script_env)
    (fun s => s) (fun s => s) (fun _ => tt) (fun _ => tt) _ _ _ _ _ c example_machine 3
    (script 0 ∅ 0) (fun _ => reflexivity _) E) as H.
  unfold plain_uring, example_worker in *.
  destruct (start_worker _ _ _ _ example_machine 3 c _) as [[[n w u|w]|]|] eqn:Es; try done.
  apply bool_decide_eq_true in Htest. exists c, w. split; [done|]. split; [done|].
  by apply H.
Defined.

Definition has_tls (s : Server) : bool := bool_decide (is_Some (Config.ssl s)).

(** The second server has a TLS block, and is served in plaintext. *)
Definition started_with (c : Config) (expected : list (list N * bool)) : bool :=
  match example_worker c with
  | Some (Ok r) =>
    bool_decide ((fun g => (server_indices g, first_speaks_tls (Config.servers (http c)) g))
      <$> group_listeners (Config.servers (http c)) = expected)
    && existsb has_tls (Config.servers (http c))
  | _ => false
  end.

Lemma example_mixed :
  match example_configuration (RawEpoll None) true with
  | Ok c => started_with c [([0; 1], false)]
  | Err _ => false
  end = true.
Proof. by vm_compute. Qed.

Lemma listener_speaks_tls_as_its_first_server_witness :
  exists c r, example_configuration (RawEpoll None) true = Ok c /\
    example_worker c = Some (Ok r) /\ existsb has_tls (Config.servers (http c)) = true /\
    served r = [([0; 1], false)].
Proof.
  pose proof example_mixed as Htest. revert Htest.
  destruct (example_configuration (RawEpoll None) true) as [c|e] eqn:E; [|done].
  pose proof (fun r => listener_speaks_tls_as_its_first_server (env := script_env)
    (uenv := uring_script_env) (fun s => s) (fun s => s) (fun _ => tt) (fun _ => tt)
    example_machine 3 c (script 0 ∅ 0) r) as H.
  unfold started_with. fold (example_worker c) in H.
  destruct (example_worker c) as [[r|]|] eqn:Ew; [|done..].
  rewrite andb_true_iff, bool_decide_eq_true.
  intros [<- Hne]. exists c, r. split; [done|]. split; [exact Ew|].
  split; [exact Hne|exact (H r eq_refl)].
Defined.
