(* ===== verification/Process.v ===== *)
(** * The processes, from [main] to their exits

    The master's [main] ([run/master/src/main.rs]), what [fork] makes of it on either side,
    and the life of a worker: starting, its loop until it returns, fails or panics
    ([runtime/epoll.rs], [runtime/io_uring/mod.rs] and the two [run]), and the exit status
    from which the master decides whether to start it again. *)

From S2P Require Import Prelude RustStd Config Router StaticFiles Listener Runtime Ssl Handler BufferRing.
From S2P Require Import Connection Readiness ReadinessInv ReadinessLoop Script ReadinessIO ReadinessProps.
From S2P Require Import UringConnection Uring UringInv UringScript UringLoop UringProps Startup Master.

Local Open Scope N_scope.

(** ** The life of a worker *)

(** Still running, returned from [start_worker], or dead by a panic. *)
Inductive Life := Running | Finished (r : io_result unit) | Crashed.

(** The exit code of the process, once there is one. *)
Definition exit_code (life : Life) : option Z :=
  match life with
  | Running => None
  | Finished r => Some (run_child_worker (Some r))
  | Crashed => Some (run_child_worker None)
  end.

(** [install_shutdown_signals]: whether the handlers were installed; the thread then waits
    for the first signal and requests the shutdown. *)
Definition signal_thread {Signal} (delivered : list Signal) : list ShutdownOp :=
  match delivered with [] => [] | _ :: _ => request_ops end.

Definition install_shutdown_signals {Signal} (installed : io_result unit) (delivered : list Signal) :
    io_result (list ShutdownOp) :=
  _ ← installed; Ok (signal_thread delivered).

Section Readiness.

Context {env : Connection.Env} {fs : Filesystem} {mime : MimeGuess}.

(** [ReadinessWorker::run], for at most [n] iterations. *)
Definition readiness_life (n : nat) (s : State ReadinessWorker Connection.World) : Life :=
  match Readiness.run_for n s with
  | Ret false _ => Running
  | Ret true _ => Finished (Ok tt)
  | Fail e _ => Finished (Err e)
  | Panicked => Crashed
  end.

End Readiness.

Section Uring.

Context {env : UringEnv} {fs : Filesystem} {mime : MimeGuess}.

Notation State := (State IoUringWorker Kernel).

(** [IoUringWorker::run] from the top of its loop: the wait may fail, and otherwise brings
    the completions that the kernel chooses. *)
Inductive uring_lives : State -> Life -> Prop :=
| uring_running s : uring_lives s Running
| uring_returns s s1 : before_wait s = Ret true s1 -> uring_lives s (Finished (Ok tt))
| uring_fails_before s e s1 : before_wait s = Fail e s1 -> uring_lives s (Finished (Err e))
| uring_panics_before s : before_wait s = Panicked -> uring_lives s Crashed
| uring_wait_fails s s1 e : before_wait s = Ret false s1 -> uring_lives s (Finished (Err e))
| uring_fails s s1 l s2 e s3 :
    before_wait s = Ret false s1 -> serves s1 l s2 -> after_wait l.*1 s2 = Fail e s3 ->
    uring_lives s (Finished (Err e))
| uring_panics s s1 l s2 :
    before_wait s = Ret false s1 -> serves s1 l s2 -> after_wait l.*1 s2 = Panicked ->
    uring_lives s Crashed
| uring_iterates s s1 l s2 s3 life :
    before_wait s = Ret false s1 -> serves s1 l s2 -> after_wait l.*1 s2 = Ret tt s3 ->
    uring_lives s3 life -> uring_lives s life.

(** [IoUringWorker::run]. *)
Inductive uring_runs (s0 : State) : Life -> Prop :=
| uring_starts s life : start s0 = Ret tt s -> uring_lives s life -> uring_runs s0 life
| uring_start_fails e s : start s0 = Fail e s -> uring_runs s0 (Finished (Err e))
| uring_start_panics : start s0 = Panicked -> uring_runs s0 Crashed.

End Uring.

Section Worker.

Context {tls : TlsApi} {api : SocketApi} {env : Connection.Env} {uenv : UringEnv}
  {fs : Filesystem} {mime : MimeGuess}.
Context (from_std : Listener.Socket -> Connection.TcpListener) (into_fd : Listener.Socket -> N)
  (readiness_ssl : LoadedSslConfig -> Connection.SslConfig)
  (uring_ssl : LoadedSslConfig -> UringConnection.SslConfig).

(** [start_worker], to its end. *)
Inductive worker_lives (m : Machine) (cpu_id : N) (config : Config) (u : Connection.World) :
    Life -> Prop :=
| worker_panics :
    start_worker from_std into_fd readiness_ssl uring_ssl m cpu_id config u = None ->
    worker_lives m cpu_id config u Crashed
| worker_fails e :
    start_worker from_std into_fd readiness_ssl uring_ssl m cpu_id config u = Some (Err e) ->
    worker_lives m cpu_id config u (Finished (Err e))
| worker_on_readiness max_events w u' n :
    start_worker from_std into_fd readiness_ssl uring_ssl m cpu_id config u =
      Some (Ok (ReadinessStarted max_events w u')) ->
    worker_lives m cpu_id config u (readiness_life n (mkState w u'))
| worker_on_uring w world life :
    start_worker from_std into_fd readiness_ssl uring_ssl m cpu_id config u =
      Some (Ok (UringStarted w)) ->
    uring_runs (mkState w (mkKernel world [] 0)) life ->
    worker_lives m cpu_id config u life.

End Worker.

(** ** The master's [main] *)

Inductive ForkResult := Parent (child : Pid) | Child.

(** [spawn_worker]: the parent learns the process; the child lives its life and exits. *)
Definition spawn_worker (forked : result Errno ForkResult) (life : Life) :
    result Errno (Pid + option Z) :=
  r ← forked;
  Ok match r with Parent child => inl child | Child => inr (exit_code life) end.

Inductive MasterError :=
| ConfigFailed (e : MainError)
| SignalFailed (e : ErrorKind)
| ProcessFailed (e : Errno).

(** The loop that registers the flag for each signal. *)
Fixpoint register_signals (answers : list (io_result unit)) : io_result unit :=
  match answers with
  | [] => Ok tt
  | r :: answers => _ ← r; register_signals answers
  end.

(** [main], after the configuration: the signals, the workers, and so many iterations of
    [supervise_workers]. *)
Definition main (config : result MainError Config) (signals : list (io_result unit))
    (fork : N -> result Errno Pid) (clock : N -> N) (answers : list Answers) :
    result MasterError Iteration :=
  config ← map_err ConfigFailed config;
  _ ← map_err SignalFailed (register_signals signals);
  ws ← map_err ProcessFailed (spawn_workers (N.to_nat (worker_count config)) 0 fork clock);
  Ok (supervise (mkMaster ws false) answers).

(** ** Lemmas *)

Lemma exit_code_clean life code :
  exit_code life = Some code -> (code = 0%Z <-> life = Finished (Ok tt)).
Proof. destruct life as [|[[]|e]|]; simpl; naive_solver. Qed.

Lemma update_exited_at m i w p status now later :
  workers m !! i = Some w -> pid w = Some p -> NoDup (live m) ->
  update_exited m status p now later =
    Some (<[i := worker_exited (stopping m) (status_failed status) now later w]> (workers m)).
Proof.
  intros Hi Hp Hn. unfold update_exited, live in *.
  destruct (list_find (fun w => pid w = Some p) (workers m)) as [[j x]|] eqn:E.
  - apply list_find_Some in E as (Hj & Hx & Hfirst).
    assert (j = i) as ->.
    { destruct (decide (j = i)) as [|Hne]; [done|]. exfalso.
      assert (Hlt : (j < i)%nat).
      { destruct (decide (i < j)%nat) as [Hlt|]; [|lia]. by destruct (Hfirst i w Hi Hlt). }
      rewrite <- (take_drop_middle _ _ _ Hj), omap_app in Hn. simpl in Hn. rewrite Hx in Hn.
      apply NoDup_app in Hn as (_ & _ & [Hn _]%NoDup_cons). apply Hn, list_elem_of_omap.
      exists w. split; [|done]. apply list_elem_of_lookup. exists (i - (j + 1))%nat.
      rewrite lookup_drop. by replace (Datatypes.S j + (i - (j + 1)))%nat with i by lia. }
    f_equal. apply list_eq. intros k. destruct (decide (k = i)) as [->|Hne].
    + rewrite list_lookup_alter_eq, Hi, list_lookup_insert_eq; [done|by eapply lookup_lt_Some].
    + by rewrite list_lookup_alter_ne, list_lookup_insert_ne.
  - apply list_find_None in E. rewrite Forall_lookup in E. by destruct (E i w Hi).
Qed.

(** ** Properties *)

(** C31. The exit status decides: when the master, not stopping, is told that a worker's
    process has ended, its slot is the only one that changes and holds no process any more;
    the worker is started again unless it returned without an error - a failure to start, an
    error of its loop and a panic alike -, after a delay between 100 ms and 10 s. *)
Theorem restart_follows_exit m i w p life code now later :
  master_wf m -> NoDup (live m) -> stopping m = false ->
  workers m !! i = Some w -> pid w = Some p -> exit_code life = Some code ->
  exists w', update_exited m (Exited p code) p now later = Some (<[i := w']> (workers m)) /\
    cpu_id w' = cpu_id w /\ pid w' = None /\
    (life = Finished (Ok tt) -> restart_at w' = None) /\
    (life <> Finished (Ok tt) -> exists delay, restart_at w' = Some (later + delay) /\
       RESTART_BASE_DELAY <= delay <= RESTART_MAX_DELAY).
Proof.
  intros Hwf Hn Hst Hi Hp Hcode. rewrite (update_exited_at _ _ _ _ _ _ _ Hi Hp Hn), Hst.
  eexists. split; [done|]. rewrite worker_exited_cpu, worker_exited_pid. do 2 (split; [done|]).
  pose proof (exit_code_clean _ _ Hcode) as Hclean.
  unfold worker_exited, status_failed. simpl. split.
  - intros Hlife. rewrite (proj2 Hclean Hlife). simpl.
    destruct (proj1 (Forall_lookup _ _) Hwf i w Hi) as [[H|H] _]; [congruence|done].
  - intros Hlife. assert (Hz : code <> 0%Z) by (by intros ->%Hclean).
    destruct code; [done|simpl; eexists; (split; [done|])..]; apply restart_delay_bounds.
Qed.

Section Stop.

Context {env : Connection.Env} {uenv : UringEnv} {fs : Filesystem} {mime : MimeGuess}.

(** A readiness worker that drains and has nothing left, or no time. *)
Definition readiness_drained (s : State ReadinessWorker Connection.World) : Prop :=
  ReadinessLoop.reachable s /\ draining (worker s) = true /\
  (Readiness.connections (worker s) = ∅ \/
   exists started t u, drain_started_at (worker s) = Some started /\
     Connection.now (Connection.shutdown_is_requested (world s)).2 = (t, u) /\
     started + drain_timeout (Readiness.limits (worker s)) <= t).

(** The same of an io_uring worker, for servers without TLS. *)
Definition uring_drained (s : State IoUringWorker Kernel) : Prop :=
  (exists s0, plain_start s0 /\ UringInv.reachable s0 s) /\ shutting_down (worker s) = true /\
  (shutdown_drained (worker s) = true \/
   exists t0, shutdown_started (worker s) = Some t0 /\
     forall u, t0 + drain_timeout (Uring.limits (worker s)) <= (UringConnection.now u).1).

Lemma readiness_drained_life `{!EnvOk env} s n :
  readiness_drained s -> (0 < n)%nat -> readiness_life n s = Finished (Ok tt).
Proof.
  intros (Hr & Hd & Hend) Hn. destruct s as [w u].
  destruct (inv_drain w (reachable_Inv _ Hr) Hd) as [started Hst]. simpl in *.
  destruct (Connection.shutdown_is_requested u) as [requested u1] eqn:Hq.
  destruct (drained_tick w u requested u1 started Hd Hst Hq) as (s' & E & _).
  - destruct Hend as [|(started' & t & u2 & Hst' & Ht & Hle)]; [by left|right].
    simpl in Ht. assert (started' = started) as -> by congruence. by exists t, u2.
  - destruct n as [|n]; [lia|]. unfold readiness_life. simpl. by rewrite (bind_Ret _ _ _ _ _ E).
Qed.

Lemma uring_drained_life `{!UringEnvOk uenv} s life :
  uring_drained s -> uring_lives s life -> life <> Running -> life = Finished (Ok tt).
Proof.
  intros ((s0 & H0 & Hs) & Hsd & Hend) Hlife Hrun.
  destruct (before_wait_stopping s (reachable_plain _ _ H0 Hs) Hsd) as (t0 & Et0 & w1 & _ & Hb).
  assert (Hret : exists s1, before_wait s = Ret true s1).
  { rewrite Hb. destruct (shutdown_drained (worker s)); [by eexists|].
    destruct Hend as [|(t0' & Et0' & Hclock)]; [done|]. assert (t0' = t0) as -> by congruence.
    specialize (Hclock w1). destruct (UringConnection.now w1) as [t w2]. simpl in Hclock.
    rewrite (proj2 (N.leb_le _ _)); [by eexists|]. unfold saturating_sub. lia. }
  destruct Hret as [s1 E]. destruct Hlife; done || congruence.
Qed.

(** C17. A graceful stop is not undone: once a worker of either runtime drains and has no
    connection left, or its drain time is over, its process can only end with the exit
    code 0, on the readiness runtime at the next iteration of its loop, and the master does
    not start it again. *)
Theorem graceful_stop_is_final `{!EnvOk env} `{!UringEnvOk uenv} life m i w p now later :
  (exists s n, readiness_drained s /\ life = readiness_life (Datatypes.S n) s) \/
  (exists s, uring_drained s /\ uring_lives s life /\ life <> Running) ->
  master_wf m -> NoDup (live m) -> stopping m = false ->
  workers m !! i = Some w -> pid w = Some p ->
  exit_code life = Some 0%Z /\
  exists w', update_exited m (Exited p 0) p now later = Some (<[i := w']> (workers m)) /\
    pid w' = None /\ restart_at w' = None.
Proof.
  intros Hlife Hwf Hn Hst Hi Hp.
  assert (life = Finished (Ok tt)) as ->.
  { destruct Hlife as [(s & n & Hs & ->)|(s & Hs & Hl & Hrun)];
      [apply readiness_drained_life; [done|lia]|by eapply uring_drained_life]. }
  split; [done|]. rewrite (update_exited_at _ _ _ _ _ _ _ Hi Hp Hn), Hst.
  eexists. split; [done|]. simpl. split; [done|].
  by destruct (proj1 (Forall_lookup _ _) Hwf i w Hi) as [[H|H] _]; [congruence|].
Qed.

End Stop.

(** A [fork] that fails while [main] starts the workers ends the master with an error, as
    does one that fails later; the workers that are running by then are neither signalled
    nor waited for. *)
Theorem fork_failure_abandons config signals fork clock answers k e :
  register_signals signals = Ok tt -> k < worker_count config ->
  (forall j, j < k -> exists p, fork j = Ok p) -> fork k = Err e ->
  main (Ok config) signals fork clock answers = Err (ProcessFailed e).
Proof.
  intros Hs Hk Hbefore He. unfold main. simpl. rewrite Hs. simpl.
  assert (H : forall count cpu, cpu <= k -> k < cpu + N.of_nat count ->
    spawn_workers count cpu fork clock = Err e).
  { induction count as [|count IH]; intros cpu Hle Hlt; simpl; [lia|].
    destruct (decide (cpu = k)) as [->|Hne]; [by rewrite He|].
    destruct (Hbefore cpu ltac:(lia)) as [p ->]. simpl. by rewrite IH by lia. }
  by rewrite H by lia.
Qed.

(** ** Runs *)

(** The second worker crashes, and is started again 100 ms later. *)
Lemma restart_follows_exit_witness :
  exists w', update_exited (two_workers false) (Exited 11 101) 11 1000 1000 =
      Some (<[1%nat := w']> (workers (two_workers false))) /\
    pid w' = None /\ exists delay, restart_at w' = Some (1000 + delay) /\ delay <= RESTART_MAX_DELAY.
Proof.
  destruct (restart_follows_exit (two_workers false) 1 (initial_worker 1 11 0) 11 Crashed 101 1000 1000)
    as (w' & E & _ & Hp & _ & Hr); [|by vm_compute; repeat constructor; set_solver|done..|].
  - repeat constructor; simpl; auto; lia.
  - destruct Hr as (d & Hd & _ & Hmax); [done|]. exists w'. split_and!; [exact E|exact Hp|]. by exists d.
Defined.

(** A third fork fails: the first two workers are left alone. *)
Lemma fork_failure_abandons_witness :
  main (Ok (mkConfig (http (default_config None)) default_runtime_config 3 default_worker_config
      default_proxy_timeout_config default_dns_config ∅)) [Ok tt; Ok tt]
    (fun cpu => if cpu =? 2 then Err (OtherErrno 11) else Ok (10 + cpu)) (fun _ => 0) [] =
  Err (ProcessFailed (OtherErrno 11)).
Proof.
  apply (fork_failure_abandons _ _ _ _ _ 2); [done|simpl; lia| |done].
  intros j Hj. exists (10 + j). by rewrite (proj2 (N.eqb_neq j 2)) by lia.
Defined.

#[local] Existing Instance script_fs.
#[local] Existing Instance script_mime.

(** The worker of [script_draining], once its drain time is over. *)
Lemma graceful_stop_is_final_witness :
  exists (s : ReadinessIO.ScriptState), draining (worker s) = true /\ size (Readiness.connections (worker s)) = 1%nat /\
    exit_code (readiness_life 1 s) = Some 0%Z /\
    exists w', update_exited (two_workers false) (Exited 11 0) 11 1000 1000 =
      Some (<[1%nat := w']> (workers (two_workers false))) /\ restart_at w' = None.
Proof.
  destruct script_draining as ([w u] & Hr & (Hs & Hd & Hst & Hl)%bool_decide_eq_true_1).
  cbn [worker] in *.
  set (s := mkState w (script_stop 5000000000) : ReadinessIO.ScriptState).
  assert (Hdrained : readiness_drained s).
  { split; [by eapply ReadinessLoop.reachable_world|]. split; [exact Hd|]. right.
    exists 500000000, 5000000000. eexists. split; [exact Hst|]. split; [reflexivity|].
    cbn [worker s]. rewrite Hl. discriminate. }
  destruct (graceful_stop_is_final (readiness_life 1 s) (two_workers false) 1 (initial_worker 1 11 0)
    11 1000 1000) as (Hcode & w' & E & _ & Hno);
    [by left; exists s, 0%nat| |by vm_compute; repeat constructor; set_solver|done..|].
  - repeat constructor; simpl; auto; lia.
  - exists s. split; [exact Hd|]. split; [exact Hs|]. split; [exact Hcode|]. by exists w'.
Defined.
