(* ===== verification/Collect.v ===== *)
(** * Collecting a request: the specification both event loops implement

    What a worker decides each time a client's connection has given it more bytes:
    read on, refuse, or serve a complete request. [Agreement.v] shows that the
    readiness and the io_uring workers both decide this. *)

From S2P Require Import Prelude RustStd Http.

Local Open Scope N_scope.

(** What has been read, and the head found in it with the bounds of its body. *)
Record Collected := mkCollected {
  r_buffer : bytes;
  r_pending : option (RequestHead * N * N);
}.

Inductive Verdict :=
| ReadOn (r : Collected)
| Refuse (status : N) (message : bytes)
| Serve (head : RequestHead) (body : bytes).

(** The head of a request, once it is complete, with a body that fits in [max]. *)
Definition look (max : N) (b : bytes) : result (N * bytes) (option (RequestHead * N * N)) :=
  match parse_request_head b with
  | Ok Incomplete => Ok None
  | Ok (Complete head start) =>
    match body_length head with
    | Ok n =>
      match checked_add 64 start n with
      | Some stop =>
        if max <? stop then Err (413, str "request is too large")
        else Ok (Some (head, start, stop))
      | None => Err (413, str "request is too large")
      end
    | Err UnsupportedTransferEncoding => Err (501, str "transfer encoding is not supported")
    | Err _ => Err (400, str "invalid content length")
    end
  | Err _ => Err (400, str "invalid HTTP request")
  end.

Definition collect (max : N) (r : Collected) (b : bytes) : Verdict :=
  if max <? len (r_buffer r) + len b then Refuse 413 (str "request is too large")
  else
    let buffer := r_buffer r ++ b in
    match (match r_pending r with Some p => Ok (Some p) | None => look max buffer end) with
    | Err (status, message) => Refuse status message
    | Ok None => ReadOn (mkCollected buffer None)
    | Ok (Some (head, start, stop)) =>
      if stop <=? len buffer
      then Serve head (take (N.to_nat (stop - start)) (drop (N.to_nat start) buffer))
      else ReadOn (mkCollected buffer (Some (head, start, stop)))
    end.

(** The bounds of a body are in order. *)
Definition reading_ok (r : Collected) : Prop :=
  forall head start stop, r_pending r = Some (head, start, stop) -> start <= stop.

Lemma look_ok max b head start stop :
  look max b = Ok (Some (head, start, stop)) -> start <= stop.
Proof.
  unfold look. repeat (case_match; try done). intros [= <- <- <-].
  match goal with H : checked_add _ _ _ = Some _ |- _ => apply checked_add_Some in H as [-> _] end.
  lia.
Qed.

(** Reading on keeps the bounds in order. *)
Lemma collect_ok max r b r' : reading_ok r -> collect max r b = ReadOn r' -> reading_ok r'.
Proof.
  intros Hok H head start stop Hp. unfold collect in H. case_match; [done|].
  destruct (r_pending r) as [[[h a] z]|] eqn:E.
  - case_match; [done|]. injection H as <-. simpl in Hp. injection Hp as -> -> ->.
    by apply (Hok head).
  - destruct (look _ _) as [[[[h a] z]|]|[]] eqn:Hl; try done.
    + case_match; [done|]. injection H as <-. simpl in Hp. injection Hp as -> -> ->.
      by eapply look_ok.
    + by injection H as <-.
Qed.
