(* ===== verification/Agreement.v ===== *)
(** * The two event loops agree

    The readiness and the io_uring workers collect the same requests from the same
    bytes, and answer them with the same bytes. *)

From S2P Require Import Prelude RustStd Config Http Router LoadBalancer Proxy StaticFiles Runtime Token Handler BufferRing Collect.
From S2P Require Import Connection Readiness ReadinessInv Script ReadinessIO.
From S2P Require Import UringConnection Uring UringInv UringScript.

Local Open Scope N_scope.

(** ** The readiness worker *)

Section ReadinessSide.

Context {env : Connection.Env} {fs : Filesystem} {mime : MimeGuess}.

Notation W := Readiness.ReadinessWorker.
Notation U := Connection.World.

(** What a plain readiness connection has read of its request. *)
Definition readiness_reading (c : Connection.Connection) : option Collected :=
  match Connection.phase c with
  | Connection.Reading p =>
    Some (mkCollected (Connection.read_buffer c)
      ((fun p => (Connection.pending_head p, Connection.body_start p, Connection.body_end p)) <$> p))
  | _ => None
  end.

(** The read loop of the connection [id] acts on a verdict: it ends with the refusal or
    the request, or goes on with [n] reads from what has been read. *)
Definition readiness_acts (id : Token.ConnectionId) (group : N) (n : nat) (v : Verdict)
    (o : Outcome (State W U) Readiness.ReadOutcome) : Prop :=
  match v with
  | Refuse status message => exists s, o = Ret (Readiness.ReadError status message) s
  | Serve head body => exists s, o = Ret (Readiness.ReadRequest head body group) s
  | ReadOn r =>
    exists s c, o = Readiness.read_loop n id s /\
      Readiness.connections (worker s) !! Token.slot id = Some c /\
      readiness_reading c = Some r
  end.

Lemma readiness_examine max b :
  Readiness.examine_head max b =
  match look max b with
  | Ok None => Readiness.HeadIncomplete
  | Ok (Some (head, start, stop)) =>
    Readiness.HeadPending (Connection.mkPendingRequest head start stop)
  | Err (status, message) => Readiness.HeadError status message
  end.
Proof.
  unfold Readiness.examine_head, look. repeat (case_match; simplify_eq; try done).
Qed.

Lemma readiness_index_Ret k c w u :
  Readiness.connections w !! k = Some c ->
  Readiness.index k (mkState w u) = Ret c (mkState (U := U) w u).
Proof. unfold Readiness.index. simpl. by intros ->. Qed.

Lemma readiness_update_Ret k f c w u :
  Readiness.connections w !! k = Some c ->
  Readiness.update k f (mkState w u) =
  Ret tt (mkState (U := U) (Readiness.set_connections (<[k := f c]> (Readiness.connections w)) w) u).
Proof.
  intros Hk. unfold Readiness.update. by erewrite bind_Ret by (by apply readiness_index_Ret).
Qed.

(** The end of a read: the pending request of [c] is taken, or the loop goes on. *)
Lemma readiness_complete id n c r w u :
  Readiness.connections w !! Token.slot id = Some c -> readiness_reading c = Some r ->
  reading_ok r ->
  readiness_acts id (Connection.listener_group c) n
    (match r_pending r with
     | Some (head, start, stop) =>
       if stop <=? len (r_buffer r)
       then Serve head (take (N.to_nat (stop - start)) (drop (N.to_nat start) (r_buffer r)))
       else ReadOn r
     | None => ReadOn r
     end)
    ((done ← Readiness.complete_request id;
      match done with Some outcome => mret outcome | None => Readiness.read_loop n id end)
       (mkState w u)).
Proof.
  intros Hc Hr Hok. unfold readiness_reading in Hr.
  destruct (Connection.phase c) as [p| | |] eqn:Hp; try done. injection Hr as <-. simpl.
  assert (Hstay : readiness_acts id (Connection.listener_group c) n
    (ReadOn (mkCollected (Connection.read_buffer c)
      ((fun p => (Connection.pending_head p, Connection.body_start p, Connection.body_end p)) <$> p)))
    (Readiness.read_loop n id (mkState w u))).
  { exists (mkState w u), c. split; [done|]. split; [done|]. unfold readiness_reading. by rewrite Hp. }
  unfold Readiness.complete_request.
  destruct p as [p|]; simpl.
  - destruct (N.leb_spec (Connection.body_end p) (len (Connection.read_buffer c))) as [Hle|Hlt].
    + eexists. erewrite bind_Ret; cycle 1.
      { erewrite bind_Ret by (by apply readiness_index_Ret).
        unfold Connection.pending_request. rewrite Hp, (proj2 (N.leb_le _ _)) by done.
        erewrite bind_Ret by (by apply readiness_update_Ret).
        erewrite bind_Ret; [reflexivity|]. unfold Readiness.slice_range.
        rewrite (proj2 (N.ltb_ge _ _)), (proj2 (N.ltb_ge _ _)); [reflexivity|done|].
        by eapply (Hok _ _ _ eq_refl). }
      reflexivity.
    + rewrite (bind_Ret _ _ _ None (mkState w u)); [exact Hstay|]. erewrite bind_Ret by (by apply readiness_index_Ret).
      unfold Connection.pending_request. by rewrite Hp, (proj2 (N.leb_gt _ _)).
  - rewrite (bind_Ret _ _ _ None (mkState w u)); [exact Hstay|]. erewrite bind_Ret by (by apply readiness_index_Ret).
    unfold Connection.pending_request. by rewrite Hp.
Qed.

Lemma readiness_collects id n c r b w u u' :
  Readiness.connections w !! Token.slot id = Some c -> Connection.ssl c = None ->
  readiness_reading c = Some r -> reading_ok r -> b <> [] ->
  Connection.sock_read (Connection.socket c) Readiness.READ_BUFFER_SIZE u = (Ok b, u') ->
  readiness_acts id (Connection.listener_group c) n
    (collect (max_read_buffer_size (Readiness.limits w)) r b)
    (Readiness.read_loop (S n) id (mkState w u)).
Proof.
  intros Hc Hssl Hr Hok Hb Hread. simpl.
  erewrite bind_Ret by (by apply readiness_index_Ret).
  erewrite bind_Ret; cycle 1.
  { unfold Readiness.read_step. rewrite Hssl. unfold sys. simpl. rewrite Hread. reflexivity. }
  destruct b as [|b0 b1]; [done|]. set (b := b0 :: b1) in *.
  erewrite bind_Ret by reflexivity. erewrite bind_Ret by reflexivity. simpl worker.
  unfold collect. unfold readiness_reading in Hr.
  destruct (Connection.phase c) as [p| | |] eqn:Hp; try done. injection Hr as <-.
  cbn [r_buffer r_pending].
  change (max_read_buffer_size (Readiness.limits (Readiness.update_metrics (Runtime.read_bytes (len b)) w)))
    with (max_read_buffer_size (Readiness.limits w)).
  destruct (_ <? _); [by eexists|].
  erewrite bind_Ret by (by apply readiness_update_Ret).
  destruct (Connection.now u') as [t u2] eqn:Enow.
  erewrite bind_Ret by (unfold Readiness.clock, sys; simpl; rewrite Enow; reflexivity).
  erewrite bind_Ret by (apply readiness_update_Ret; simpl; by rewrite lookup_insert_eq).
  erewrite bind_Ret by (apply readiness_index_Ret; simpl; by rewrite lookup_insert_eq).
  set (c2 := Connection.set_last_progress t _).
  match goal with |- context [mkState ?w' u2] => set (w2 := w') end.
  assert (Hc2 : Readiness.connections w2 !! Token.slot id = Some c2)
    by (unfold w2; simpl; by rewrite lookup_insert_eq).
  assert (Hp2 : Connection.phase c2 = Connection.Reading p) by done.
  assert (Hb2 : Connection.read_buffer c2 = Connection.read_buffer c ++ b) by done.
  assert (Hg2 : Connection.listener_group c2 = Connection.listener_group c) by done.
  clearbody c2 w2. rewrite <- Hg2, <- Hb2. unfold Connection.pending_request. rewrite Hp2.
  destruct p as [p|]; simpl.
  - pose proof (readiness_complete id n c2 (mkCollected (Connection.read_buffer c2)
      (Some (Connection.pending_head p, Connection.body_start p, Connection.body_end p))) w2 u2
      Hc2) as H.
    apply H; [unfold readiness_reading; by rewrite Hp2|].
    intros head start stop E. by eapply (Hok head).
  - rewrite readiness_examine.
    destruct (look _ _) as [[[[head start] stop]|]|[status message]] eqn:Hlook; [| |by eexists].
    + erewrite bind_Ret by (by apply readiness_update_Ret).
      set (c3 := Connection.set_pending_request _ c2).
      assert (Hc3 : Connection.phase c3 =
        Connection.Reading (Some (Connection.mkPendingRequest head start stop)) /\
        Connection.read_buffer c3 = Connection.read_buffer c2 /\
        Connection.listener_group c3 = Connection.listener_group c2).
      { unfold c3, Connection.set_pending_request. by rewrite Hp2. }
      destruct Hc3 as (Hp3 & Hb3 & Hg3). rewrite <- Hg3, <- Hb3.
      apply (readiness_complete id n c3 (mkCollected (Connection.read_buffer c3)
        (Some (head, start, stop)))).
      * simpl. by rewrite lookup_insert_eq.
      * unfold readiness_reading. by rewrite Hp3.
      * intros h a z [= <- <- <-]. by eapply look_ok.
    + apply (readiness_complete id n c2 (mkCollected (Connection.read_buffer c2) None) w2 u2 Hc2);
        [unfold readiness_reading; by rewrite Hp2|done].
Qed.

End ReadinessSide.

(** ** The io_uring worker *)

Section UringSide.

Context {env : UringEnv} {fs : Filesystem} {mime : MimeGuess}.

Notation W := IoUringWorker.
Notation U := Kernel.

Definition uring_reading (c : UringConnection) : Collected :=
  mkCollected (request_buffer c)
    ((fun p => (pending_head p, body_start p, body_end p)) <$> pending_request c).

(** The handler acts on a verdict: it queues the refusal, prepares the response to the
    request, or submits the next receive with what has been read. *)
Definition uring_acts (id : ConnectionId) (v : Verdict) (o : Outcome (State W U) unit) : Prop :=
  exists s c, connections (worker s) !! slot id = Some c /\
  match v with
  | Refuse status message => o = queue_http_error id status message s
  | Serve head body =>
    request c = Some (mkCompletedRequest head body) /\ o = prepare_response id s
  | ReadOn r => uring_reading c = r /\ o = submit_recv id s
  end.

Lemma uring_examine max b :
  examine_head max b =
  match look max b with
  | Ok None => HeadIncomplete
  | Ok (Some (head, start, stop)) => HeadPending (mkPendingRequest head start stop)
  | Err (status, message) => HeadError status message
  end.
Proof. unfold examine_head, look. repeat (case_match; simplify_eq; try done). Qed.

Lemma uring_index_Ret k c w u :
  connections w !! k = Some c -> index k (mkState w u) = Ret c (mkState (U := U) w u).
Proof. unfold index. simpl. by intros ->. Qed.

Lemma uring_update_Ret k f c w u :
  connections w !! k = Some c ->
  update k f (mkState w u) =
  Ret tt (mkState (U := U) (set_connections (<[k := f c]> (connections w)) w) u).
Proof. intros Hk. unfold update. by erewrite bind_Ret by (by apply uring_index_Ret). Qed.

Lemma uring_complete id c w u :
  connections w !! slot id = Some c -> reading_ok (uring_reading c) ->
  uring_acts id
    (match r_pending (uring_reading c) with
     | Some (head, start, stop) =>
       if stop <=? len (request_buffer c)
       then Serve head
              (take (N.to_nat (stop - start)) (drop (N.to_nat start) (request_buffer c)))
       else ReadOn (uring_reading c)
     | None => ReadOn (uring_reading c)
     end)
    (complete_request id (mkState w u)).
Proof.
  intros Hc Hok. unfold complete_request. erewrite bind_Ret by (by apply uring_index_Ret).
  unfold reading_ok, uring_reading in *. simpl in *.
  destruct (pending_request c) as [p|] eqn:Hp; simpl.
  2: { exists (mkState w u), c. split; [done|]. unfold uring_reading. by rewrite Hp. }
  destruct (N.leb_spec (body_end p) (len (request_buffer c))) as [Hle|Hlt].
  2: { exists (mkState w u), c. split; [done|]. unfold uring_reading. by rewrite Hp. }
  erewrite bind_Ret; cycle 1.
  { unfold slice_range. rewrite (proj2 (N.ltb_ge _ _)), (proj2 (N.ltb_ge _ _)); [reflexivity|done|].
    by eapply Hok. }
  cbv beta. erewrite bind_Ret by (by apply uring_update_Ret). erewrite bind_Ret by reflexivity.
  eexists (mkState _ _), (set_request (mkCompletedRequest _ _) c).
  split; [|split; [reflexivity|reflexivity]]. simpl. by rewrite lookup_insert_eq.
Qed.

Lemma uring_collects id c b w u :
  connections w !! slot id = Some c -> conn_generation c = generation id ->
  reading_ok (uring_reading c) -> max_read_buffer_size (limits w) < 2 ^ 64 ->
  uring_acts id (collect (max_read_buffer_size (limits w)) (uring_reading c) b)
    (receive_plaintext id b (mkState w u)).
Proof.
  intros Hc Hg Hok Hmax. unfold receive_plaintext.
  erewrite bind_Ret; cycle 1.
  { unfold current, gets. simpl. rewrite (proj2 (current_in_Some w id c)) by done. reflexivity. }
  cbv beta iota.
  erewrite bind_Ret by reflexivity. erewrite bind_Ret by reflexivity. cbv zeta.
  cbn [worker world update_metrics limits].
  unfold collect. cbn [r_buffer r_pending uring_reading].
  assert (E : (2 ^ 64 <=? len (request_buffer c) + len b)
     || (max_read_buffer_size (limits w) <? len (request_buffer c) + len b)
     = (max_read_buffer_size (limits w) <? len (request_buffer c) + len b)).
  { destruct (N.ltb_spec (max_read_buffer_size (limits w)) (len (request_buffer c) + len b));
      [apply orb_true_r|]. rewrite orb_false_r. apply N.leb_gt. lia. }
  rewrite E. destruct (_ <? _); [eexists _, c; split; cycle 1; [reflexivity|done]|].
  erewrite bind_Ret by (by apply uring_update_Ret).
  erewrite bind_Ret by (apply uring_index_Ret; simpl; by rewrite lookup_insert_eq).
  set (c2 := set_request_buffer _ c).
  match goal with |- context [mkState ?w' u] => set (w2 := w') end.
  assert (Hc2 : connections w2 !! slot id = Some c2)
    by (unfold w2; simpl; by rewrite lookup_insert_eq).
  assert (Hp2 : pending_request c2 = pending_request c) by done.
  assert (Hb2 : request_buffer c2 = request_buffer c ++ b) by done.
  assert (Hok2 : reading_ok (uring_reading c2)) by done.
  clearbody c2 w2. rewrite <- Hb2. clear E Hc Hok. unfold uring_reading. cbn [r_pending].
  rewrite <- Hp2. pose proof (uring_complete id c2 w2 u Hc2 Hok2) as H.
  unfold uring_reading in H. cbn [r_pending] in H.
  destruct (pending_request c2) as [p|] eqn:Hp; [exact H|]. cbn [fmap option_fmap option_map] in *.
  rewrite uring_examine.
  destruct (look _ _) as [[[[head start] stop]|]|[status message]] eqn:Hlook; 
    [|exact H|eexists _, c2; split; cycle 1; [reflexivity|done]].
  erewrite bind_Ret by (by apply uring_update_Ret).
  set (c3 := set_pending_request _ c2).
  match goal with |- context [mkState ?w' u] => set (w3 := w') end.
  assert (Hc3 : connections w3 !! slot id = Some c3)
    by (unfold w3; simpl; by rewrite lookup_insert_eq).
  apply (uring_complete id c3 w3 u Hc3). intros h a z [= <- <- <-]. by eapply look_ok.
Qed.

Lemma uring_answers id c w u listener server r response :
  connections w !! slot id = Some c -> conn_generation c = generation id ->
  request c = Some r -> listeners w !! N.to_nat (listener_index c) = Some listener ->
  servers w !! N.to_nat (select_server (l_server_indices listener)
    (l_default_server listener) (completed_head r) (servers w)) = Some server ->
  fixed_response server (target (completed_head r)) = Some response ->
  prepare_response id (mkState (U := U) w u) =
  send_response id (limited (max_write_buffer_size (limits w)) response) (mkState w u).
Proof.
  intros Hc Hg Hr Hl Hs Hfixed. unfold prepare_response.
  erewrite bind_Ret; cycle 1.
  { unfold current, gets. simpl. rewrite (proj2 (current_in_Some w id c)) by done. reflexivity. }
  cbv beta iota. rewrite Hr.
  erewrite bind_Ret by reflexivity. cbn [worker]. rewrite Hl.
  erewrite bind_Ret by reflexivity. erewrite bind_Ret by reflexivity. cbv zeta. cbn [worker].
  rewrite Hs. cbn [mbind option_bind]. unfold fixed_response in Hfixed.
  destruct (route server _) as [[]|]; try done; by injection Hfixed as <-.
Qed.

End UringSide.

(** ** Properties *)

(** C5. The two event loops collect the same requests: given a plain connection of the
    readiness worker and one of the io_uring worker that have read the same bytes, under
    the same limit, and the next bytes [b], both take the decision [collect] - they read
    on from the same state, refuse with the same status and message, or serve the same
    request head and body. *)
Theorem runtimes_collect_alike {env : Connection.Env} {uenv : UringEnv}
    {fs : Filesystem} {mime : MimeGuess} n rid rc rw ru ru' uid uc uw uu r b :
  Readiness.connections rw !! Token.slot rid = Some rc -> Connection.ssl rc = None ->
  readiness_reading rc = Some r ->
  Connection.sock_read (Connection.socket rc) Readiness.READ_BUFFER_SIZE ru = (Ok b, ru') ->
  connections uw !! slot uid = Some uc -> conn_generation uc = generation uid ->
  uring_reading uc = r ->
  max_read_buffer_size (Readiness.limits rw) = max_read_buffer_size (limits uw) ->
  max_read_buffer_size (limits uw) < 2 ^ 64 -> reading_ok r -> b <> [] ->
  exists verdict, verdict = collect (max_read_buffer_size (limits uw)) r b /\
    readiness_acts rid (Connection.listener_group rc) n verdict
      (Readiness.read_loop (S n) rid (mkState rw ru)) /\
    uring_acts uid verdict (receive_plaintext uid b (mkState uw uu)).
Proof.
  intros Hrc Hssl Hr Hread Huc Hg Hu Hmax Hlt Hok Hb. eexists. split; [done|]. split.
  - rewrite <- Hmax. by eapply readiness_collects.
  - subst r. by apply uring_collects.
Qed.

(** C21. The two event loops give the same configured responses: a request for a
    configured response, or for a target no location matches (404), on listeners with
    the same servers and under the same size limit, makes the readiness worker write and
    the io_uring worker send the very same bytes: the response, or the 500 one in its
    place when it is over the limit. The readiness connection is dropped instead only if
    the poller refuses its socket. *)
Theorem runtimes_answer_alike {env : Connection.Env} {uenv : UringEnv}
    {fs : Filesystem} {mime : MimeGuess}
    rid rc rw ru g rl uid uc uw uu ul head body server response :
  ReadinessInv.Inv rw -> Readiness.connections rw !! Token.slot rid = Some rc ->
  Connection.conn_generation rc = Token.generation rid ->
  Readiness.listeners rw !! N.to_nat g = Some rl ->
  connections uw !! slot uid = Some uc -> conn_generation uc = generation uid ->
  request uc = Some (mkCompletedRequest head body) ->
  listeners uw !! N.to_nat (listener_index uc) = Some ul ->
  l_server_indices ul = Readiness.l_server_indices rl ->
  l_default_server ul = Readiness.l_default_server rl ->
  servers uw = Readiness.servers rw ->
  max_write_buffer_size (limits uw) = max_write_buffer_size (Readiness.limits rw) ->
  servers uw !! N.to_nat (select_server (l_server_indices ul) (l_default_server ul) head
    (servers uw)) = Some server ->
  fixed_response server (target head) = Some response ->
  exists s', Readiness.respond rid head body g (mkState rw ru) = Ret true s' /\
    queued rid rc (fitting rw response) ru s' /\
    prepare_response uid (mkState uw uu) =
      send_response uid (fitting rw response) (mkState uw uu).
Proof.
  intros Hinv Hrc Hrg Hrl Huc Hug Hr Hul Hindices Hdefault Hservers Hmax Hserver Hfixed.
  destruct (respond_fixed rid rw ru rc g rl server head body response) as (s' & E & Hq); try done.
  { by rewrite <- Hindices, <- Hdefault, <- Hservers. }
  exists s'. split; [done|]. split; [done|].
  rewrite (uring_answers uid uc uw uu ul server (mkCompletedRequest head body) response); try done.
  unfold limited, fitting. by rewrite Hmax.
Qed.

(** ** Runs *)

#[local] Instance agree_fs : Filesystem := example_fs.
#[local] Instance agree_mime : MimeGuess := example_mime.

(** The request of the runs, cut in its body. *)
Definition agree_request : bytes := Http.example_request.

Definition agree_uring_listener : UringListener :=
  new_listener (env := uring_script_env) 5 0 [0] None Multishot.

(** An io_uring worker with one listener, one connection and the limits of the scripted
    readiness worker. *)
Definition agree_uring_worker (c : UringConnection) : IoUringWorker :=
  mkWorker (BufferRing.mkRing [] [] 0 0 0) [agree_uring_listener] [script_server] {[0 := c]}
    [7; 3] 64 script_limits (mkProxyLimits 10 10 10) (mkDnsLimits 1 10) 100 false None false 0
    101 102 no_metrics (with_groups ∅).

Definition agree_uring_client : UringConnection :=
  new_connection (env := uring_script_env) 8 7 0 None.

(** The clients of the two workers, after the first [n] bytes of the request. *)
Definition agree_readiness_client (n : nat) : Connection.Connection (env := script_env) :=
  Connection.set_read_buffer (take n agree_request) script_client.

Definition agree_uring_reading (n : nat) : UringConnection (env := uring_script_env) :=
  set_request_buffer (take n agree_request) agree_uring_client.

Definition agree_script : Script :=
  script 0 {[8 := [Ok (drop 59 agree_request)]]} 2.

Definition agree_kernel : Kernel (env := uring_script_env) :=
  mkKernel (mkUringScript 0 false []) [] 0.

(** The body of a verdict's request. *)
Definition served (v : Verdict) : option bytes :=
  match v with Serve _ body => Some body | _ => None end.

Lemma agree_served : served (collect 1000 (mkCollected (take 59 agree_request) None)
  (drop 59 agree_request)) = Some (str "{}").
Proof. by vm_compute. Qed.

Lemma runtimes_collect_alike_witness :
  exists verdict, served verdict = Some (str "{}") /\
    readiness_acts script_id 0 16 verdict
      (Readiness.read_loop 17 script_id
         (mkState (script_worker [] {[0 := agree_readiness_client 59]}) agree_script)) /\
    uring_acts (mkConnectionId 0 7) verdict
      (receive_plaintext (mkConnectionId 0 7) (drop 59 agree_request)
         (mkState (agree_uring_worker (agree_uring_reading 59)) agree_kernel)).
Proof.
  destruct (runtimes_collect_alike 16 script_id (agree_readiness_client 59)
    (script_worker [] {[0 := agree_readiness_client 59]}) agree_script
    (snd (script_read 8 8192 agree_script))
    (mkConnectionId 0 7) (agree_uring_reading 59) (agree_uring_worker (agree_uring_reading 59))
    agree_kernel (mkCollected (take 59 agree_request) None) (drop 59 agree_request))
    as (verdict & E & H1 & H2); try done.
  exists verdict. subst verdict. split; [exact agree_served|]. split; [exact H1|exact H2].
Defined.

Lemma runtimes_answer_alike_witness :
  exists s', Readiness.respond script_id script_request [] 0
      (mkState (script_worker [script_server] {[0 := script_client]}) (script 0 ∅ 2)) = Ret true s' /\
    queued script_id script_client (response_bytes 200 (str "hey")) (script 0 ∅ 2) s' /\
    let c := set_request (mkCompletedRequest script_request []) agree_uring_client in
    prepare_response (mkConnectionId 0 7) (mkState (agree_uring_worker c) agree_kernel) =
    send_response (mkConnectionId 0 7) (response_bytes 200 (str "hey"))
      (mkState (agree_uring_worker c) agree_kernel).
Proof.
  apply (runtimes_answer_alike script_id script_client
    (script_worker [script_server] {[0 := script_client]}) (script 0 ∅ 2) 0 script_listener
    (mkConnectionId 0 7) (set_request (mkCompletedRequest script_request []) agree_uring_client)
    (agree_uring_worker (set_request (mkCompletedRequest script_request []) agree_uring_client))
    agree_kernel agree_uring_listener script_request [] script_server
    (response_bytes 200 (str "hey"))); try done.
  apply script_worker_Inv.
Defined.
